(* ===== verification/_CoqProject ===== *)
-Q . S2P
Prelude.v
Heap.v
Fairness.v
Cut.v
RelAcq.v
NetApi.v
SendBuffer.v
QueueSpec.v
SpscQueue.v
SpscWeak.v
AtomicList.v
AtomicListWeak.v
ObjectPool.v
PoolConcurrent.v
MpmcQueue.v
MpmcWeak.v
MpmcProgress.v
MpmcBench.v
SpscLinked.v
MpscQueue.v
Pools.v
Drivers.v
AtomicOps.v
Framing.v
Os.v
EpollSession.v
EpollNet.v
EpollFrame.v
EpollApp.v
EpollRecv.v
EpollServer.v
EpollHazards.v
EpollPipeline.v
EpollService.v
EpollStart.v
Shutdown.v
ProcessorStop.v
FixedPackets.v
KqueueNet.v
KqueueProps.v
KqueueServer.v
IocpNet.v
IocpProps.v
Echo.v
EchoServer.v
Network.v
Samples.v
SingleLoop.v
SingleLoopProps.v
