(* ===== verification/Prelude.v ===== *)
(** * tinynet, verified

    A development about tinynet, a C++ library for TCP services: sessions with a receive and a
    send buffer, processors that wait for events and cut the received bytes into packets,
    listeners and connectors that make sessions, and the queues and pools of libs/ that carry
    messages to an application thread.

    ** The program and the files that model it

    - tinynet.hpp, detail/plat.h (result codes, events, configuration, session factory, the
      interface of a session class): [NetApi].  A user's callback is a small program over the
      connection's operations ([callback]).
    - detail/sendbuffer.hpp: [SendBuffer], sequentially and cut at the critical sections of [pop]
      and at each byte its handler reads between them.
    - libs/spscqueue.hpp (the ring that carries messages): [SpscQueue], an instance of the
      interface [FifoQueue] of [QueueSpec], sequentially and cut at every load and store;
      [SpscWeak] with the orderings the code asks for, on the memory of [RelAcq].
    - libs/AtomicIntrusiveLinkedList.h, libs/AtomicLinkedList.h: [AtomicList]; [AtomicListWeak] on
      the memory of [RelAcq].
    - libs/object_pool.hpp: [ObjectPool], and for several threads [PoolConcurrent].  libs/objects.h,
      objpool.h, pool.h: [Pools].
    - [RelAcq]: release and acquire in C++: histories of writes, views of threads, and plain accesses
      that race unless every earlier one is known.
    - libs/mpmc_queue.hpp: [MpmcQueue], [MpmcProgress] (when calls fail, and that they complete),
      [MpmcWeak] (the orderings, on the memory of [RelAcq]), and the benchmark in the header,
      [MpmcBench].  libs/spscqueue.h: [SpscLinked].
    - libs/intrusive_mpmc_link_queue.h: [MpscQueue]; the exchange it uses and nobody defines is the
      parameter [Xchg].
    - libs/atomicops.h (fences, weak atomics, semaphores): [AtomicOps].
    - [Framing]: what a [read_packet] function means, as the cutting of a byte stream into packets
      ([frames]) and the laws [FramingBounded] and [FramingLaw] a client of the library keeps.
    - [Os]: the operating system as a parameter, the class [Kernel] with the laws [KernelLaws]
      (documented behaviour of recv, send and the waits), and the world of a back end: kernel,
      errno, heap of sessions, the back end's objects, and a trace of calls and callbacks.
      [script] is a kernel that answers from a list, for the witnesses.
    - detail/epollnet.hpp: [EpollSession] (EventHandler), [EpollNet] (Scheduler, Processor,
      Listener, Connector, TCPService, one definition per function or branch).  The theorems are in
      [EpollApp] (application thread), [EpollRecv] (lemmas about one event), [EpollServer] (the
      processor), [EpollHazards] (messages and sessions that outlive each other), [EpollPipeline]
      (the path of a message, as a refinement of one bounded list per processor), [EpollService]
      (start, stop, listen, connect), [EpollStart] (the whole start), [Shutdown] and [ProcessorStop]
      ([TCPService::stop] and [Processor::stop] while the other threads run).  [EpollFrame] says what
      the handlers leave alone.
    - detail/kqueuenet.hpp: [KqueueNet], theorems in [KqueueProps] (the buffers, one event) and
      [KqueueServer] (the running service).
    - detail/iocpnet.hpp: [IocpNet], theorems in [IocpProps].
    - test.cpp and client.cpp: [Echo], and the server with many clients, [EchoServer]; the two processes joined by a network, which is a parameter
      with the laws [TcpLaws] of a connection: [Network].  samples/: [Samples].
    - test/: the session classes of test.cpp and test1.cpp are [FixedPackets], the main functions of
      testpool.cpp and libs/testmpmc.cpp [Drivers]; singleloop.h, an older back end with one loop,
      is [SingleLoop], theorems in [SingleLoopProps].  Its pool, fake_pool.h, is not in the
      repository and is the parameter [EventPool].
    - [Heap]: objects of one class behind pointers, with [new] and [delete].
    - [Fairness]: runs under a schedule and the rules of leads-to.  [Cut]: threads given as places and
      accesses, and that the accesses in a row are the function they were cut from.

    A function that changes state is a computation of the monad [M] below, whose outcome is a value,
    a thrown error, a failed assertion, undefined behaviour (null and dangling pointers, an index
    outside an array), or [OutOfFuel].  Members the constructors leave uninitialised are [None].
    C++ [int] arithmetic is [Z]; conversions to unsigned and narrowing are written out with [u32],
    [i32], [u64] and [i64].

    ** What the theorems show

    - The byte stream: in every reachable state of a running epoll service, whatever the
      interleaving of its threads and the segmentation by the network, each session was handed
      exactly the packets of the bytes received for it ([epoll_stream_framing]).  Handling an event
      of a live session is defined and ends for a session class that keeps the framing contract,
      when at most one thread acquires messages ([epoll_event_safe]); a class that announces too much
      makes the loop endless ([overclaim_never_ends]), and two acquiring processors can meet a
      null (lemma [two_processors_null]).  When [TCPService::start] returns, the state is well formed and
      stays so, and a service that was given no factory never has a session
      ([service_start_sound]).  How a connection ends: [disconnect_order], [full_buffer_disconnects].
      The echo server of test.cpp sends back to each of its clients what that client sent
      ([echo_clients]); with the session of client.cpp at the other end of the connection the greeting
      goes round unchanged, until an answer is lost that would fill the send buffer to its last byte
      ([hello_round_trip]); messages of fixed length arrive as they were sent
      ([twelve_byte_round_trip]).  What the application thread may still find is a message of a
      session that is gone ([released_session_message]).  With an application thread, each message goes
      through the bounded queue of the processor that received its packet, in order, to its session,
      and is read from the buffer as it is then ([messages_reach_application]).  The kqueue
      back end delivers the same packets in every state it reaches, up to a packet that ends with the
      buffer ([kqueue_stream_framing]), and never releases a session ([kqueue_session_end_leaks]); the
      completion port back end never delivers any packet ([iocp_never_receives]).
    - The send buffer is a byte queue ([send_stream_exact], [push_correct], [pop_correct]); with a
      concurrent push it can lose accepted bytes and send others than it should, and
      [concurrent_pop_accounting] says when and which.
    - Lock-free structures, under all interleavings of their accesses: the ring, the linked queue,
      the bounded queue for many threads, the intrusive queue with a stub and the lists lose and
      duplicate nothing; the semaphore lets a wait through for nothing in two ways only
      ([lightweight_semaphore_sound]).  The ring, the list and the bounded queue do so under
      release and acquire too, without a data race ([spscqueue_release_acquire],
      [atomic_list_release_acquire], [mpmc_release_acquire]), and would race with weaker orderings.
      [mpmc_calls] says when a call of the bounded queue fails, [bench_completes] that its benchmark
      can always be completed.
    - Pools: an object has one holder, for the message pool under every interleaving
      ([object_pool_concurrent]); what [AtomicAlloc] and pool.h do wrong instead.
    - The single loop of test/singleloop.h hands every session what was received on its descriptor
      and keeps objects and sessions in step, late events included, for one listener
      ([singleloop_delivers]); [singleloop_connection_end] says what it leaves behind.
    - Start, stop and error paths of listeners, connectors and processors, branch by branch.
    - Stopping: under a fair scheduler in which waits return, [TCPService::stop] and [Processor::stop]
      return unless another thread ends the process first; nothing makes the waits return, and what
      the threads find meanwhile is not always there any more ([service_stop], [processor_stop]).

    ** Bounds and fuel

    Loops that are not structural take fuel.  The packet loop needs at most as many rounds as the
    receive buffer has bytes (each round takes a non-empty packet), and the theorems ask for that
    much; the loops of the threads run for as many rounds as they are given and are otherwise
    step relations.  In [EpollServer] a step is the turn of a thread that returned: a call that is
    undefined ends the program.  In [EchoServer] the end of a connection is two steps, with the close
    of its descriptor in the first.  The queues with 64 bit counters are treated for fewer than 2^62 values.
    Atomic accesses are sequentially consistent, except in [SpscWeak], [AtomicListWeak] and
    [MpmcWeak], where they have the orderings of the code; the other lock-free structures are not
    treated below sequential consistency.  In [Shutdown] and [ProcessorStop] one event or one message
    is handled without interruption.

    ** Not modelled

    The skeletons spscpool.hpp and msg_queue.hpp (nothing includes them; one does not compile, the
    other has no operations), logging, the main functions of test/test.cpp and test/test1.cpp (they
    use a constructor and a template argument [TCPService] does not have), the try-outs a.cpp and
    thrd.cpp, the vendored folly and spdlog, which are third-party code.

    This file: machine integers, arrays indexed by [Z], outcomes, the monad with its triples and
    weakest preconditions, transition systems, tactics. *)

From Stdlib Require Export ZArith Lia Init.Byte.
From stdpp Require Export base numbers list list_numbers gmap relations option.
Export stdpp.list_basics.list stdpp.list_relations.list stdpp.list_monad.list stdpp.list_misc.list.
Global Set Default Goal Selector "!".

Declare Scope tinynet_scope.
Delimit Scope tinynet_scope with tn.
Global Open Scope Z_scope.

Create HintDb tinynet.
Create Rewrite HintDb tinynet_arith.
Create Rewrite HintDb tinynet_len.

(** ** Machine integers

    Signed [int] arithmetic is written with plain [Z] operations; the conversions C++
    inserts when an [int] meets an [unsigned int] are written out with [u32], and
    narrowing to [int] with [i32]. *)

Definition u32 (z : Z) : Z := z mod 2 ^ 32.
Definition u64 (z : Z) : Z := z mod 2 ^ 64.
Definition i32 (z : Z) : Z := (z + 2 ^ 31) mod 2 ^ 32 - 2 ^ 31.
Definition i64 (z : Z) : Z := (z + 2 ^ 63) mod 2 ^ 64 - 2 ^ 63.
Definition INT_MAX : Z := 2 ^ 31 - 1.

Lemma u32_small z : 0 <= z < 2 ^ 32 -> u32 z = z.
Proof. apply Z.mod_small. Qed.

Lemma u32_bound z : 0 <= u32 z < 2 ^ 32.
Proof. apply Z.mod_pos_bound. lia. Qed.

Lemma u64_small z : 0 <= z < 2 ^ 64 -> u64 z = z.
Proof. apply Z.mod_small. Qed.

Lemma i32_small z : - 2 ^ 31 <= z < 2 ^ 31 -> i32 z = z.
Proof. intros. unfold i32. rewrite Z.mod_small; lia. Qed.

Lemma i64_small z : - 2 ^ 63 <= z < 2 ^ 63 -> i64 z = z.
Proof. intros. unfold i64. rewrite Z.mod_small; lia. Qed.

(** A multiple of [n] strictly between [-n] and [n] is 0. *)
Lemma mod_0_small n x : - n < x < n -> x mod n = 0 -> x = 0.
Proof.
  intros Hx H. apply Z.mod_divide in H as [m Hm]; [|lia].
  assert (m = 0 \/ m <= -1 \/ 1 <= m) as [->|[?|?]] by lia; nia.
Qed.

#[export] Hint Rewrite u32_small i32_small using (cbn; lia) : tinynet_arith.

#[export] Instance byte_eq_dec : EqDecision byte.
Proof. exact Byte.byte_eq_dec. Defined.

(** ** Lists indexed by [Z]: the C arrays of the model *)

Abbreviation zlen l := (Z.of_nat (length l)).

(** The [n] cells that start at offset [off]. *)
Definition slice {A} (off n : Z) (l : list A) : list A :=
  take (Z.to_nat n) (drop (Z.to_nat off) l).

(** [memcpy]/[memmove] of [src] to offset [off]; inside the bounds it keeps the length. *)
Definition blit {A} (off : Z) (src l : list A) : list A :=
  take (Z.to_nat off) l ++ src ++ drop (Z.to_nat (off + zlen src)) l.

Lemma zlen_slice {A} off n (l : list A) :
  0 <= off -> 0 <= n -> off + n <= zlen l -> zlen (slice off n l) = n.
Proof. intros. unfold slice. rewrite length_take, length_drop. lia. Qed.

Lemma zlen_blit {A} off (src l : list A) :
  0 <= off -> off + zlen src <= zlen l -> zlen (blit off src l) = zlen l.
Proof. intros. unfold blit. rewrite !length_app, length_take, length_drop. lia. Qed.

Lemma slice_0 {A} off (l : list A) : slice off 0 l = [].
Proof. reflexivity. Qed.

Lemma slice_app {A} off n m (l : list A) :
  0 <= off -> 0 <= n -> 0 <= m ->
  slice off (n + m) l = slice off n l ++ slice (off + n) m l.
Proof.
  intros. unfold slice. rewrite Z2Nat.inj_add by lia.
  rewrite (Z2Nat.inj_add off n) by lia. rewrite <- drop_drop.
  symmetry. apply take_take_drop.
Qed.

Lemma slice_slice {A} a n b m (l : list A) :
  0 <= a -> 0 <= b -> 0 <= m -> b + m <= n ->
  slice b m (slice a n l) = slice (a + b) m l.
Proof.
  intros. unfold slice. rewrite skipn_firstn_comm, drop_drop, take_take.
  rewrite Z2Nat.inj_add by lia. f_equal. lia.
Qed.

Lemma slice_all {A} n (l : list A) : zlen l <= n -> slice 0 n l = l.
Proof. intros. unfold slice. rewrite drop_0. apply take_ge. lia. Qed.

Lemma slice_blit_at {A} off (src l : list A) :
  0 <= off <= zlen l -> slice off (zlen src) (blit off src l) = src.
Proof.
  intros. unfold slice, blit. rewrite drop_app_length' by (rewrite length_take; lia).
  rewrite take_app_length'; [done|lia].
Qed.

Lemma slice_blit_before {A} off (src l : list A) a n :
  0 <= a -> 0 <= n -> a + n <= off -> off <= zlen l ->
  slice a n (blit off src l) = slice a n l.
Proof.
  intros. unfold slice, blit.
  rewrite drop_app_le by (rewrite length_take; lia).
  rewrite take_app_le by (rewrite length_drop, length_take; lia).
  rewrite skipn_firstn_comm, take_take. f_equal. lia.
Qed.

Lemma slice_split {A} off n m (l : list A) :
  0 <= off -> 0 <= m <= n ->
  slice off n l = slice off m l ++ slice (off + m) (n - m) l.
Proof. intros. rewrite <- slice_app by lia. f_equal. lia. Qed.

Lemma take_slice {A} k off n (l : list A) :
  0 <= k <= n -> take (Z.to_nat k) (slice off n l) = slice off k l.
Proof. intros. unfold slice. rewrite take_take. f_equal. lia. Qed.

Lemma drop_slice {A} k off n (l : list A) :
  0 <= off -> 0 <= k <= n ->
  drop (Z.to_nat k) (slice off n l) = slice (off + k) (n - k) l.
Proof.
  intros. unfold slice. rewrite skipn_firstn_comm, drop_drop.
  rewrite Z2Nat.inj_add by lia. f_equal. lia.
Qed.

#[export] Hint Rewrite @zlen_slice @zlen_blit using lia : tinynet_len.

(** Array cells through a [Z] index; a negative index reads nothing. *)
Definition zget {A} (l : list A) (i : Z) : option A :=
  if i <? 0 then None else l !! Z.to_nat i.

Definition zset {A} (l : list A) (i : Z) (x : A) : list A :=
  if i <? 0 then l else <[Z.to_nat i := x]> l.

Lemma zget_some_iff {A} (l : list A) i : is_Some (zget l i) <-> 0 <= i < zlen l.
Proof.
  unfold zget. destruct (Z.ltb_spec i 0).
  - split; [by intros [? [=]] | lia].
  - rewrite lookup_lt_is_Some. lia.
Qed.

Lemma zget_zset_eq {A} (l : list A) i x : 0 <= i < zlen l -> zget (zset l i x) i = Some x.
Proof.
  intros. unfold zget, zset. destruct (Z.ltb_spec i 0); [lia|].
  apply list_lookup_insert_eq. lia.
Qed.

Lemma zget_zset_ne {A} (l : list A) i j x : i <> j -> zget (zset l i x) j = zget l j.
Proof.
  intros. unfold zget, zset. destruct (Z.ltb_spec i 0), (Z.ltb_spec j 0); try done.
  apply list_lookup_insert_ne. lia.
Qed.

Lemma length_zset {A} (l : list A) i x : length (zset l i x) = length l.
Proof. unfold zset. destruct (i <? 0); [done|]. apply length_insert. Qed.

(** Saving a cell, overwriting it and writing it back. *)
Lemma zset_restore {A} (l : list A) i x y : zget l i = Some y -> zset (zset l i x) i y = l.
Proof.
  unfold zget, zset. destruct (i <? 0); [done|]. intros Hi.
  rewrite list_insert_insert_eq. by apply list_insert_id.
Qed.

#[export] Hint Rewrite @length_zset : tinynet_len.

Lemma Forall2_rev {A B} (P : A -> B -> Prop) l k : Forall2 P l k -> Forall2 P (rev l) (rev k).
Proof.
  induction 1 as [|x y l k Hxy _ IH]; cbn; [constructor|].
  apply Forall2_app; [done|by constructor].
Qed.

(** Replacing one of several lists. *)
Lemma concat_insert_perm {A} (cs : list (list A)) i c c' :
  cs !! i = Some c -> concat (<[i := c']> cs) ++ c ≡ₚ concat cs ++ c'.
Proof.
  revert i. induction cs as [|d cs IH]; intros i Hi; [done|].
  destruct i as [|i]; cbn in *.
  - simplify_eq. solve_Permutation.
  - specialize (IH i Hi). rewrite <- !app_assoc. by rewrite IH.
Qed.

(** ** Outcomes and the state monad of the handlers

    A C++ computation returns a value, throws an integer (the [throw errno] of the
    sources), throws a standard exception, stops at a failed [assert], or does something
    the language leaves undefined (a null or dangling pointer, an index outside an array).
    [OutOfFuel] is a loop the model was not given enough iterations for. *)

Inductive outcome (A : Type) :=
| Ok (a : A)
| Throw (err : Z)
| ThrowStd
| AssertFail
| Undefined
| OutOfFuel.
Arguments Ok {A}. Arguments Throw {A}. Arguments ThrowStd {A}.
Arguments AssertFail {A}. Arguments Undefined {A}. Arguments OutOfFuel {A}.

Definition M (S A : Type) : Type := S -> outcome A * S.

Definition ret {S A} (a : A) : M S A := fun s => (Ok a, s).

Definition bind {S A B} (m : M S A) (k : A -> M S B) : M S B := fun s =>
  match m s with
  | (Ok a, s') => k a s'
  | (Throw e, s') => (Throw e, s')
  | (ThrowStd, s') => (ThrowStd, s')
  | (AssertFail, s') => (AssertFail, s')
  | (Undefined, s') => (Undefined, s')
  | (OutOfFuel, s') => (OutOfFuel, s')
  end.

Definition get {S} : M S S := fun s => (Ok s, s).
Definition gets {S A} (f : S -> A) : M S A := fun s => (Ok (f s), s).
Definition modify {S} (f : S -> S) : M S unit := fun s => (Ok tt, f s).
Definition throw {S A} (e : Z) : M S A := fun s => (Throw e, s).
Definition throw_std {S A} : M S A := fun s => (ThrowStd, s).
Definition undefined {S A} : M S A := fun s => (Undefined, s).

(** [assert(b)]: compiled out under NDEBUG ([dbg = false]). *)
Definition c_assert {S} (dbg b : bool) : M S unit := fun s =>
  if dbg && negb b then (AssertFail, s) else (Ok tt, s).

Definition when {S} (b : bool) (m : M S unit) : M S unit := if b then m else ret tt.

Definition out_of_fuel {S A} : M S A := fun s => (OutOfFuel, s).

(** A pointer that has to be valid. *)
Definition deref {S A} (o : option A) : M S A := fun s =>
  match o with Some a => (Ok a, s) | None => (Undefined, s) end.

(** [try { m } catch(...) { h }] *)
Definition catch_all {S A} (m h : M S A) : M S A := fun s =>
  match m s with
  | (Throw _, s') | (ThrowStd, s') => h s'
  | r => r
  end.

Fixpoint for_each {S A} (l : list A) (body : A -> M S unit) : M S unit :=
  match l with
  | [] => ret tt
  | x :: l' => bind (body x) (fun _ => for_each l' body)
  end.

Notation "'let*' x ':=' c 'in' k" := (bind c (fun x => k))
  (at level 10, x pattern, c at level 100, k at level 200)
  : tinynet_scope.
Notation "c1 ;; c2" := (bind c1 (fun _ => c2))
  (at level 100, c2 at level 200, right associativity) : tinynet_scope.

Lemma bind_assoc {S A B C} (m : M S A) (k1 : A -> M S B) (k2 : B -> M S C) s :
  bind m (fun a => bind (k1 a) k2) s = bind (bind m k1) k2 s.
Proof. unfold bind. by destruct (m s) as [[a| | | | |] s']. Qed.

Lemma bind_Ok {S A B} (m : M S A) (k : A -> M S B) s a s' :
  m s = (Ok a, s') -> bind m k s = k a s'.
Proof. intros H. unfold bind. by rewrite H. Qed.

(** A run that is known to return a value, without computing the state. *)
Lemma run_split {S A} (m : M S A) (s : S) a : (m s).1 = Ok a -> m s = (Ok a, (m s).2).
Proof. by destruct (m s) as [o s'] eqn:E; cbn; intros ->. Qed.

Lemma bind_modify {S A} (f : S -> S) (k : unit -> M S A) s : bind (modify f) k s = k tt (f s).
Proof. done. Qed.

Lemma bind_gets {S A B} (f : S -> A) (k : A -> M S B) s : bind (gets f) k s = k (f s) s.
Proof. done. Qed.

(** A Hoare triple: from a state in [P], an outcome that is a value satisfies [Q], and
    every other outcome satisfies [E]. *)
Definition triple {S A} (P : S -> Prop) (m : M S A) (Q : A -> S -> Prop) (E : S -> Prop) : Prop :=
  forall s, P s ->
    match m s with
    | (Ok a, s') => Q a s'
    | (_, s') => E s'
    end.

Section Triples.
Context {S : Type}.
Implicit Types (P E : S -> Prop).

Lemma triple_ret {A} P E (a : A) (Q : A -> S -> Prop) :
  (forall s, P s -> Q a s) -> triple P (ret a) Q E.
Proof. intros H s HP. cbn. auto. Qed.

Lemma triple_bind {A B} P E (m : M S A) (k : A -> M S B) R Q :
  triple P m R E -> (forall a, triple (R a) (k a) Q E) -> triple P (bind m k) Q E.
Proof.
  intros Hm Hk s HP. specialize (Hm s HP). unfold bind.
  destruct (m s) as [[a| | | | |] s']; try exact Hm. exact (Hk a s' Hm).
Qed.

Lemma triple_consequence {A} P P' E E' (m : M S A) (Q Q' : A -> S -> Prop) :
  triple P' m Q' E' -> (forall s, P s -> P' s) ->
  (forall a s, Q' a s -> Q a s) -> (forall s, E' s -> E s) -> triple P m Q E.
Proof.
  intros Hm HP HQ HE s Hs. specialize (Hm s (HP s Hs)).
  destruct (m s) as [[a| | | | |] s']; auto.
Qed.

(** An invariant every piece of code keeps, whatever the outcome. *)
Definition keeps {A} (I : S -> Prop) (m : M S A) : Prop := triple I m (fun _ => I) I.

Lemma keeps_ret {A} I (a : A) : keeps I (ret a).
Proof. by apply triple_ret. Qed.

Lemma keeps_bind {A B} I (m : M S A) (k : A -> M S B) :
  keeps I m -> (forall a, keeps I (k a)) -> keeps I (bind m k).
Proof. intros Hm Hk. eapply triple_bind; eauto. Qed.

Lemma keeps_get I : keeps I (@get S).
Proof. by intros s Hs. Qed.

Lemma keeps_gets {A} I (f : S -> A) : keeps I (gets f).
Proof. by intros s Hs. Qed.

Lemma keeps_modify I (f : S -> S) : (forall s, I s -> I (f s)) -> keeps I (modify f).
Proof. intros H s Hs. cbn. auto. Qed.

Lemma keeps_throw {A} I e : keeps I (@throw S A e).
Proof. by intros s Hs. Qed.

Lemma keeps_throw_std {A} I : keeps I (@throw_std S A).
Proof. by intros s Hs. Qed.

Lemma keeps_undefined {A} I : keeps I (@undefined S A).
Proof. by intros s Hs. Qed.

Lemma keeps_out_of_fuel {A} I : keeps I (@out_of_fuel S A).
Proof. by intros s Hs. Qed.

Lemma keeps_assert I dbg b : keeps I (@c_assert S dbg b).
Proof. intros s Hs. unfold c_assert. by destruct (dbg && negb b). Qed.

Lemma keeps_deref {A} I (o : option A) : keeps I (deref (S:=S) o).
Proof. intros s Hs. by destruct o. Qed.

Lemma keeps_when I b (m : M S unit) : keeps I m -> keeps I (when b m).
Proof. destruct b; [done|]. intros. apply keeps_ret. Qed.

Lemma keeps_catch_all {A} I (m h : M S A) : keeps I m -> keeps I h -> keeps I (catch_all m h).
Proof.
  intros Hm Hh s Hs. specialize (Hm s Hs). unfold catch_all. destruct (m s) as [[] s']; try exact Hm; by apply Hh.
Qed.

Lemma keeps_for_each {A} I (l : list A) body :
  (forall x, keeps I (body x)) -> keeps I (for_each (S:=S) l body).
Proof.
  intros Hb. induction l as [|x l IH]; cbn; [apply keeps_ret|].
  apply keeps_bind; auto.
Qed.
End Triples.

#[export] Hint Resolve keeps_ret keeps_bind keeps_get keeps_gets keeps_throw
  keeps_throw_std keeps_undefined keeps_out_of_fuel keeps_assert keeps_deref keeps_when keeps_for_each : tinynet.

(** ** Total correctness

    [wp m Q s]: [m] run from [s] returns a value, and that value and the state it leaves are
    in [Q].  The other outcomes are excluded. *)
Definition wp {S A} (m : M S A) (Q : A -> S -> Prop) (s : S) : Prop :=
  match m s with
  | (Ok a, s') => Q a s'
  | _ => False
  end.

Section Wp.
Context {S : Type}.
Implicit Types (s : S).

Lemma wp_ret {A} (a : A) (Q : A -> S -> Prop) s : Q a s -> wp (ret a) Q s.
Proof. done. Qed.

Lemma wp_bind {A B} (m : M S A) (k : A -> M S B) Q s :
  wp m (fun a => wp (k a) Q) s -> wp (bind m k) Q s.
Proof. unfold wp, bind. by destruct (m s) as [[a| | | | |] s']. Qed.

(** [m; x = v; k x] *)
Lemma wp_bind_ret {A B C} (m : M S A) (v : B) (k : B -> M S C) Q s :
  wp (bind m (fun _ => k v)) Q s -> wp (bind (bind m (fun _ => ret v)) k) Q s.
Proof. unfold wp, bind, ret. by destruct (m s) as [[a| | | | |] s']. Qed.

Lemma wp_mono {A} (m : M S A) (Q Q' : A -> S -> Prop) s :
  wp m Q s -> (forall a s', Q a s' -> Q' a s') -> wp m Q' s.
Proof. unfold wp. intros H HQ. destruct (m s) as [[a| | | | |] s']; auto. Qed.

Lemma wp_Ok {A} (m : M S A) Q s : wp m Q s -> exists a s', m s = (Ok a, s') /\ Q a s'.
Proof. unfold wp. destruct (m s) as [[a| | | | |] s']; try done. eauto. Qed.

Lemma wp_intro {A} (m : M S A) (Q : A -> S -> Prop) s a s' : m s = (Ok a, s') -> Q a s' -> wp m Q s.
Proof. unfold wp. by intros ->. Qed.

Lemma wp_get (Q : S -> S -> Prop) s : Q s s -> wp get Q s.
Proof. done. Qed.

Lemma wp_gets {A} (f : S -> A) (Q : A -> S -> Prop) s : Q (f s) s -> wp (gets f) Q s.
Proof. done. Qed.

Lemma wp_modify (f : S -> S) (Q : unit -> S -> Prop) s : Q tt (f s) -> wp (modify f) Q s.
Proof. done. Qed.

Lemma wp_deref {A} (o : option A) (Q : A -> S -> Prop) a s : o = Some a -> Q a s -> wp (deref o) Q s.
Proof. by intros ->. Qed.

Lemma wp_when b (m : M S unit) (Q : unit -> S -> Prop) s :
  (b = true -> wp m Q s) -> (b = false -> Q tt s) -> wp (when b m) Q s.
Proof. destruct b; cbn; auto. Qed.

Lemma wp_assert dbg b (Q : unit -> S -> Prop) s : (dbg = true -> b = true) -> Q tt s -> wp (c_assert dbg b) Q s.
Proof. unfold wp, c_assert. destruct dbg, b; cbn; auto. intros H. by specialize (H eq_refl). Qed.
End Wp.

(** With exceptions: [m] returns a value in [Q] or throws in a state in [E]. *)
Definition wpe {S A} (m : M S A) (Q : A -> S -> Prop) (E : S -> Prop) (s : S) : Prop :=
  match m s with
  | (Ok a, s') => Q a s'
  | (Throw _, s') | (ThrowStd, s') => E s'
  | _ => False
  end.

Lemma wpe_wp {S A} (m : M S A) Q E (s : S) : wp m Q s -> wpe m Q E s.
Proof. unfold wp, wpe. by destruct (m s) as [[a| | | | |] s']. Qed.

Lemma wpe_bind {S A B} (m : M S A) (k : A -> M S B) Q E (s : S) :
  wpe m (fun a => wpe (k a) Q E) E s -> wpe (bind m k) Q E s.
Proof. unfold wpe, bind. by destruct (m s) as [[a| | | | |] s']. Qed.

Lemma wp_catch_all {S A} (m h : M S A) Q (s : S) :
  wpe m Q (fun s' => wp h Q s') s -> wp (catch_all m h) Q s.
Proof. unfold wpe, wp, catch_all. by destruct (m s) as [[a| | | | |] s']. Qed.

(** Partial correctness: [m] may also throw, stop or be undefined. *)
Definition wlp {S A} (m : M S A) (Q : A -> S -> Prop) (s : S) : Prop :=
  match m s with
  | (Ok a, s') => Q a s'
  | _ => True
  end.

Section Wlp.
Context {S : Type}.
Implicit Types (s : S).

Lemma wlp_wp {A} (m : M S A) Q s : wp m Q s -> wlp m Q s.
Proof. unfold wp, wlp. by destruct (m s) as [[a| | | | |] s']. Qed.

Lemma wlp_bind {A B} (m : M S A) (k : A -> M S B) Q s :
  wlp m (fun a => wlp (k a) Q) s -> wlp (bind m k) Q s.
Proof. unfold wlp, bind. by destruct (m s) as [[a| | | | |] s']. Qed.

Lemma wlp_ret {A} (a : A) (Q : A -> S -> Prop) s : Q a s -> wlp (ret a) Q s.
Proof. done. Qed.

Lemma wlp_mono {A} (m : M S A) (Q Q' : A -> S -> Prop) s :
  wlp m Q s -> (forall a s', Q a s' -> Q' a s') -> wlp m Q' s.
Proof. unfold wlp. intros H HQ. destruct (m s) as [[a| | | | |] s']; auto. Qed.

Lemma wlp_Ok {A} (m : M S A) (Q : A -> S -> Prop) s a s' : wlp m Q s -> m s = (Ok a, s') -> Q a s'.
Proof. unfold wlp. intros H E. by rewrite E in H. Qed.

Lemma wlp_throw {A} e (Q : A -> S -> Prop) s : wlp (throw e) Q s.
Proof. done. Qed.

Lemma wlp_throw_std {A} (Q : A -> S -> Prop) s : wlp throw_std Q s.
Proof. done. Qed.

Lemma wlp_undefined {A} (Q : A -> S -> Prop) s : wlp undefined Q s.
Proof. done. Qed.

Lemma wlp_out_of_fuel {A} (Q : A -> S -> Prop) s : wlp out_of_fuel Q s.
Proof. done. Qed.

Lemma wlp_gets {A} (f : S -> A) (Q : A -> S -> Prop) s : Q (f s) s -> wlp (gets f) Q s.
Proof. done. Qed.

Lemma wlp_modify (f : S -> S) (Q : unit -> S -> Prop) s : Q tt (f s) -> wlp (modify f) Q s.
Proof. done. Qed.

Lemma wlp_deref {A} (o : option A) (Q : A -> S -> Prop) s :
  (forall a, o = Some a -> Q a s) -> wlp (deref o) Q s.
Proof. destruct o; cbn; auto. Qed.

Lemma wlp_assert dbg b (Q : unit -> S -> Prop) s : Q tt s -> wlp (c_assert dbg b) Q s.
Proof. unfold wlp, c_assert. by destruct (dbg && negb b). Qed.
End Wlp.

(** ** Transition systems *)

(** Rule induction: an invariant of every step holds in every reachable state. *)
Lemma rtc_invariant {A} (R : relation A) (I : A -> Prop) x y :
  (forall a b, I a -> R a b -> I b) -> I x -> rtc R x y -> I y.
Proof. intros Hstep HI Hr. induction Hr; eauto. Qed.

(** The end of a concrete run, where the state reached is equal by computation. *)
Lemma rtc_refl_eq {A} (R : relation A) x y : x = y -> rtc R x y.
Proof. by intros ->. Qed.

(** Refinement of a concrete system by an abstract one, step by step. *)
Lemma rtc_simulation {A B} (R : relation A) (Q : relation B) (f : A -> B) (I : A -> Prop) x y :
  (forall a b, I a -> R a b -> I b /\ (f b = f a \/ Q (f a) (f b))) ->
  I x -> rtc R x y -> I y /\ rtc Q (f x) (f y).
Proof.
  intros Hstep HI Hr. induction Hr as [a|a b c HR _ IH]; [done|].
  destruct (Hstep _ _ HI HR) as [HIb Hab]. destruct (IH HIb) as [HIc Hbc].
  split; [done|]. destruct Hab as [<-|HQ]; [done|]. by eapply rtc_l.
Qed.

(** ** Tactics *)

(** Turns the boolean comparisons of the code into case splits on [Z]. *)
Ltac zcases :=
  repeat match goal with
  | |- context [?a <? ?b] => destruct (Z.ltb_spec a b)
  | |- context [?a <=? ?b] => destruct (Z.leb_spec a b)
  | |- context [?a =? ?b] => destruct (Z.eqb_spec a b)
  | H : context [?a <? ?b] |- _ => destruct (Z.ltb_spec a b)
  | H : context [?a <=? ?b] |- _ => destruct (Z.leb_spec a b)
  | H : context [?a =? ?b] |- _ => destruct (Z.eqb_spec a b)
  end.

(** Lengths of buffers, then linear arithmetic. *)
Ltac zlens := autorewrite with tinynet_len in *; cbn [length] in *; try lia.

(** Steps that can always bring a measure down lead to the end. *)
Lemma rtc_descends {A} (R : relation A) (I ended : A -> Prop) (m : A -> Z) :
  (forall a, I a -> 0 <= m a) -> (forall a, I a -> ended a \/ exists b, rtc R a b /\ I b /\ m b < m a) ->
  forall a, I a -> exists b, rtc R a b /\ I b /\ ended b.
Proof.
  intros Hm Hdown. assert (forall (k : nat) a, m a < Z.of_nat k -> I a -> exists b, rtc R a b /\ I b /\ ended b) as Hk.
  { induction k as [|k IH]; intros a Hk Ha; [specialize (Hm a Ha); lia|].
    destruct (Hdown a Ha) as [|(b&Hr&Hb&Hlt)]; [by exists a|]. destruct (IH b ltac:(lia) Hb) as (e&?&?&?). exists e. split_and!; [by etrans|done..]. }
  intros a Ha. apply (Hk (S (Z.to_nat (m a)))); [|done]. specialize (Hm a Ha). lia.
Qed.

(** ** Sums *)

Fixpoint zsum (l : list Z) : Z := match l with [] => 0 | x :: l => x + zsum l end.

Lemma zsum_insert l t x y : l !! t = Some x -> zsum (<[t := y]> l) = zsum l - x + y.
Proof.
  revert t. induction l as [|z l IH]; intros [|t] Ht; simplify_eq/=; [lia|].
  specialize (IH t Ht). lia.
Qed.

Lemma zsum_bounds l lo hi : Forall (fun x => lo <= x <= hi) l -> zlen l * lo <= zsum l <= zlen l * hi.
Proof. induction 1 as [|x l Hx _ IH]; cbn -[Z.mul Z.of_nat]; lia. Qed.

Lemma zsum_bounds_at l t x lo hi : Forall (fun x => lo <= x <= hi) l -> l !! t = Some x ->
  (zlen l - 1) * lo + x <= zsum l <= (zlen l - 1) * hi + x.
Proof.
  intros Hl Ht. pose proof (zsum_bounds (<[t := lo]> l) lo hi) as Hlo. pose proof (zsum_bounds (<[t := hi]> l) lo hi) as Hhi.
  assert (lo <= x <= hi) by (by apply (Forall_lookup_1 _ _ _ _ Hl Ht)).
  rewrite !length_insert, (zsum_insert l t x) in Hlo, Hhi by done.
  specialize (Hlo ltac:(apply Forall_insert; [done|lia])). specialize (Hhi ltac:(apply Forall_insert; [done|lia])). lia.
Qed.
