(* ===== verification/Heap.v ===== *)
(** * The C++ heap of objects of one class

    [new] returns an address that was never used before, [delete] of an address that is
    not live is undefined behaviour ([None]), and so is every access through a dangling
    address.  Null is [None] of type [option ptr]. *)

From S2P Require Import Prelude.

Abbreviation ptr := positive.

Record heap (A : Type) := mk_heap { h_cells : gmap ptr A; h_next : ptr }.
Arguments mk_heap {A}. Arguments h_cells {A}. Arguments h_next {A}.

Definition heap_empty {A} : heap A := mk_heap ∅ 1%positive.

Definition heap_new {A} (a : A) (h : heap A) : ptr * heap A :=
  (h_next h, mk_heap (<[h_next h := a]> (h_cells h)) (Pos.succ (h_next h))).

Definition heap_get {A} (h : heap A) (p : ptr) : option A := h_cells h !! p.

Definition heap_set {A} (p : ptr) (a : A) (h : heap A) : option (heap A) :=
  match h_cells h !! p with
  | Some _ => Some (mk_heap (<[p := a]> (h_cells h)) (h_next h))
  | None => None
  end.

Definition heap_delete {A} (p : ptr) (h : heap A) : option (heap A) :=
  match h_cells h !! p with
  | Some _ => Some (mk_heap (delete p (h_cells h)) (h_next h))
  | None => None
  end.

(** Every live address is below the allocation pointer. *)
Definition heap_wf {A} (h : heap A) : Prop :=
  forall p a, h_cells h !! p = Some a -> (p < h_next h)%positive.

Section HeapLemmas.
Context {A : Type}.
Implicit Types (h : heap A) (p q : ptr) (a b : A).

Lemma heap_empty_wf : heap_wf (@heap_empty A).
Proof. intros p a H. cbn in H. by rewrite lookup_empty in H. Qed.

Lemma heap_fresh h p : heap_wf h -> (h_next h <= p)%positive -> h_cells h !! p = None.
Proof.
  intros Hwf Hp. destruct (h_cells h !! p) eqn:E; [|done].
  apply Hwf in E. lia.
Qed.

Lemma heap_new_wf a h : heap_wf h -> heap_wf (heap_new a h).2.
Proof.
  intros Hwf p b H. cbn in *. apply lookup_insert_Some in H as [[<- _]|[_ H]]; [lia|].
  apply Hwf in H. lia.
Qed.

Lemma heap_set_wf p a h h' : heap_wf h -> heap_set p a h = Some h' -> heap_wf h'.
Proof.
  unfold heap_set. intros Hwf H. destruct (h_cells h !! p) eqn:E; simplify_eq.
  intros q b Hq. cbn in *. apply lookup_insert_Some in Hq as [[<- _]|[_ Hq]]; eauto.
Qed.

Lemma heap_delete_wf p h h' : heap_wf h -> heap_delete p h = Some h' -> heap_wf h'.
Proof.
  unfold heap_delete. intros Hwf H. destruct (h_cells h !! p) eqn:E; simplify_eq.
  intros q b Hq. cbn in *. apply lookup_delete_Some in Hq as [_ Hq]. eauto.
Qed.
End HeapLemmas.

#[export] Hint Resolve heap_empty_wf heap_new_wf heap_set_wf heap_delete_wf : tinynet.
