(* ===== verification/Fairness.v ===== *)
(** * Fair runs

    A run follows a schedule: at each moment one label is chosen and its step is made; a label whose
    thread has to wait changes nothing.  [leads_to] is the leads-to of UNITY on such a run, with the
    rules the liveness theorems use. *)

From S2P Require Import Prelude.

Section Fair.
Context {State Label : Type} (next : Label -> State -> State) (init : State) (sched : nat -> Label).

Fixpoint run_at (n : nat) : State := match n with O => init | S n => next (sched n) (run_at n) end.

(** Labels of this kind are chosen again and again. *)
Definition fair (ok : Label -> Prop) : Prop := forall n, exists m, (n <= m)%nat /\ ok (sched m).

Definition leads_to (P Q : State -> Prop) : Prop := forall n, P (run_at n) -> exists m, (n <= m)%nat /\ Q (run_at m).

Lemma run_invariant (I : State -> Prop) : I init -> (forall l s, I s -> I (next l s)) -> forall n, I (run_at n).
Proof. intros H0 Hs n. induction n; cbn; auto. Qed.

(** From a moment on, by steps with labels of that moment. *)
Lemma run_invariant_from (I : State -> Prop) n : I (run_at n) -> (forall m s, (n <= m)%nat -> I s -> I (next (sched m) s)) ->
  forall m, (n <= m)%nat -> I (run_at m).
Proof.
  intros H0 Hs m Hm. induction Hm as [|m Hm IH]; [done|]. cbn. by apply Hs.
Qed.

Lemma leads_to_impl (P Q : State -> Prop) : (forall s, P s -> Q s) -> leads_to P Q.
Proof. intros H n Hn. exists n. auto. Qed.

Lemma leads_to_trans P Q R : leads_to P Q -> leads_to Q R -> leads_to P R.
Proof. intros H1 H2 n Hn. destruct (H1 n Hn) as (m&?&Hm). destruct (H2 m Hm) as (m'&?&?). exists m'. split; [lia|done]. Qed.

Lemma leads_to_or P1 P2 Q : leads_to P1 Q -> leads_to P2 Q -> leads_to (fun s => P1 s \/ P2 s) Q.
Proof. intros H1 H2 n [Hn|Hn]; auto. Qed.

(** Steps through an order without infinite descent. *)
Lemma leads_to_wf {A} (R : A -> A -> Prop) (P : A -> State -> Prop) Q : well_founded R ->
  (forall a, leads_to (P a) (fun s => Q s \/ exists b, R b a /\ P b s)) -> forall a, leads_to (P a) Q.
Proof.
  intros Hwf Hstep a. induction (Hwf a) as [a _ IH]. intros n Hn. destruct (Hstep a n Hn) as (m&?&[|(b&Hb&Hm)]); [by exists m|].
  destruct (IH b Hb m Hm) as (m'&?&?). exists m'. split; [lia|done].
Qed.

(** One thread does it: the others leave [P] alone or bring [Q] about, and the label, which is
    chosen some time, brings [Q] about. *)
Lemma leads_to_ensures (ok : Label -> Prop) (P Q : State -> Prop) : fair ok ->
  (forall l s, P s -> P (next l s) \/ Q (next l s)) -> (forall l s, P s -> ok l -> Q (next l s)) -> leads_to P Q.
Proof.
  intros Hfair Hother Hok n Hn. destruct (Hfair n) as (m&Hm&Hl).
  assert (Hd : (exists m', (n <= m' <= m)%nat /\ Q (run_at m')) \/ P (run_at m)).
  { clear Hl. induction Hm as [|m Hm IH]; [by right|]. destruct IH as [(m'&?&?)|HP]; [left; exists m'; split; [lia|done]|].
    destruct (Hother (sched m) _ HP) as [|HQ]; [by right|]. left. exists (S m). split; [lia|done]. }
  destruct Hd as [(m'&?&?)|HP]; [by exists m'; split; [lia|]|]. exists (S m). split; [lia|]. by apply Hok.
Qed.
End Fair.
