(* ===== verification/Cut.v ===== *)
(** * Threads cut into accesses

    A thread that shares state is given as places and the access made at each.  [runs_as] says that
    the accesses, made one after the other with nobody between, are the function the thread runs:
    the cut adds and drops nothing. *)

From S2P Require Import Prelude.

(** How an access failed. *)
Definition void {A} (o : outcome A) : outcome unit :=
  match o with
  | Ok _ => Ok tt | Throw e => Throw e | ThrowStd => ThrowStd | AssertFail => AssertFail | Undefined => Undefined | OutOfFuel => OutOfFuel
  end.

Section Cut.
Context {W PC : Type} (access : PC -> option (M W PC)) (fin : PC).
Local Open Scope tinynet_scope.

Inductive alone : PC * W -> PC * W -> Prop :=
| alone_step c w m c' w' : access c = Some m -> m w = (Ok c', w') -> alone (c, w) (c', w').

(** From [c] it returns, or makes an access that fails, as [r] says. *)
Definition runs_as (c : PC) (w : W) (r : outcome unit * W) : Prop :=
  exists c1 w1, rtc alone (c, w) (c1, w1) /\
    ((exists u, r.1 = Ok u) /\ c1 = fin /\ w1 = r.2 \/
     exists m o, access c1 = Some m /\ m w1 = (o, r.2) /\ void o = r.1 /\ forall c', o <> Ok c').

(** Up to the number of rounds the function is given. *)
Definition runs_like (c : PC) (w : W) (r : outcome unit * W) : Prop := runs_as c w r \/ r.1 = OutOfFuel.

Lemma cut_step c w m c' w' r : access c = Some m -> m w = (Ok c', w') -> runs_as c' w' r -> runs_as c w r.
Proof. intros Hm Hw (c1&w1&Hr&He). exists c1, w1. split; [|done]. eapply rtc_l; [by econstructor|done]. Qed.

Lemma cut_fails c w m o r : access c = Some m -> m w = (o, r.2) -> void o = r.1 -> (forall c', o <> Ok c') -> runs_as c w r.
Proof. intros Hm Hw Ho Hn. exists c, w. split; [done|]. right. by exists m, o. Qed.

Lemma cut_done w : runs_as fin w (Ok tt, w).
Proof. exists fin, w. split; [done|]. left. eauto. Qed.

(** An access that runs a part [f] of the function and goes on at [c']. *)
Lemma cut_part {A} c c' (f : M W A) (k : A -> M W unit) w : access c = Some (f ;; ret c') ->
  (forall a w', f w = (Ok a, w') -> runs_like c' w' (k a w')) -> runs_like c w (bind f k w).
Proof.
  intros Ha Hk. unfold runs_like. destruct (f w) as [o w1] eqn:Hf. assert (Hb : bind f k w = match (o, w1) with (Ok a, w1) => k a w1 | (o, w1) => (void o, w1) end) by (unfold bind; rewrite Hf; by destruct o). rewrite Hb. destruct o as [a|e| | | |]; [|..|by right].
  - destruct (Hk a w1 eq_refl) as [He|]; [left|by right]. eapply cut_step; [done| |done]. unfold bind. by rewrite Hf.
  - left. eapply cut_fails; [done|unfold bind; rewrite Hf; reflexivity|done..].
  - left. eapply cut_fails; [done|unfold bind; rewrite Hf; reflexivity|done..].
  - left. eapply cut_fails; [done|unfold bind; rewrite Hf; reflexivity|done..].
  - left. eapply cut_fails; [done|unfold bind; rewrite Hf; reflexivity|done..].
Qed.

(** A loop with an access per element. *)
Lemma cut_for_each {B} (f : B -> M W unit) (place : list B -> PC) (k : M W unit) bs :
  (forall b bs', suffix (b :: bs') bs -> access (place (b :: bs')) = Some (f b ;; ret (place bs'))) ->
  (forall w, runs_like (place []) w (k w)) ->
  forall w, runs_like (place bs) w (bind (for_each bs f) (fun _ => k) w).
Proof.
  intros Ha Hk. induction bs as [|b bs IH]; intros w; [apply Hk|]. cbn [for_each]. rewrite <- bind_assoc.
  apply (cut_part _ (place bs)); [by apply Ha|]. intros _ w' _. apply IH. intros b' bs' Hs. apply Ha. by apply suffix_cons_r.
Qed.
End Cut.

(** A thread with an access at every place. *)
Section Total.
Context {W PC : Type} (access : PC -> M W PC) (fin : PC).

Lemma cut_step_total c w c' w' r : access c w = (Ok c', w') -> runs_as (fun c => Some (access c)) fin c' w' r -> runs_as (fun c => Some (access c)) fin c w r.
Proof. by eapply cut_step. Qed.

Lemma cut_fails_total c w o r : access c w = (o, r.2) -> void o = r.1 -> (forall c', o <> Ok c') -> runs_as (fun c => Some (access c)) fin c w r.
Proof. by eapply cut_fails. Qed.
End Total.
