(* ===== verification/RelAcq.v ===== *)
(** * Release and acquire

    A memory with the orderings the lock-free structures ask for.  A location has the history of
    its writes in modification order; a thread has a view, the newest write it knows at each
    location, and reads any write that is not older.  A release write carries the view of its
    thread, an acquire read adds the view it finds; a read-modify-write follows the newest write
    and hands its view on.  A plain access must know every earlier access of the location,
    otherwise it is a data race ([None]): to see that, a plain read leaves a copy of the write it
    read in the history.  (Two plain reads that are not ordered are a race here and none in C++.)
    A plain store to an atomic is only given a meaning by a thread that knows the newest write, so
    that the modification order is never a choice. *)

From S2P Require Import Prelude.

Section Memory.
Context {L V : Type} `{EqDecision L}.

(** ** Views *)

Definition view : Type := L -> nat.
Definition vle (a b : view) : Prop := forall l, (a l <= b l)%nat.
Definition vbot : view := fun _ => 0%nat.
Definition vjoin (a b : view) : view := fun l => (a l `max` b l)%nat.
Definition vput (l : L) (t : nat) (a : view) : view := fun l' => if decide (l' = l) then t else a l'.

#[export] Instance vle_preorder : PreOrder vle.
Proof. split; [by intros a l|]. intros a b c Hab Hbc l. specialize (Hab l). specialize (Hbc l). lia. Qed.

#[export] Instance vjoin_mono : Proper (vle ==> vle ==> vle) vjoin.
Proof. intros a a' Ha b b' Hb l. specialize (Ha l). specialize (Hb l). unfold vjoin. lia. Qed.

Lemma vjoin_l a b : vle a (vjoin a b).
Proof. intros l. unfold vjoin. lia. Qed.
Lemma vjoin_r a b : vle b (vjoin a b).
Proof. intros l. unfold vjoin. lia. Qed.
Lemma vput_eq l t a : vput l t a l = t.
Proof. unfold vput. by rewrite decide_True. Qed.
Lemma vput_ne l l' t a : l' <> l -> vput l t a l' = a l'.
Proof. intros Hl. unfold vput. by rewrite decide_False. Qed.
Lemma vput_le l t a : (a l <= t)%nat -> vle a (vput l t a).
Proof. intros Ht l'. unfold vput. case_decide; by subst. Qed.

(** ** Memory *)

Record message := mk_message { m_val : V; m_rel : view }.
Definition memory : Type := L -> list message.
Definition mput (l : L) (ms : list message) (m : memory) : memory := fun l' => if decide (l' = l) then ms else m l'.

Lemma mput_eq l ms m : mput l ms m l = ms.
Proof. unfold mput. by rewrite decide_True. Qed.
Lemma mput_ne l l' ms m : l' <> l -> mput l ms m l' = m l'.
Proof. intros Hl. unfold mput. by rewrite decide_False. Qed.

Inductive order := Relaxed | Acquire | Release | AcqRel.
Definition acquires (o : order) : bool := match o with Acquire | AcqRel => true | _ => false end.
Definition releases (o : order) : bool := match o with Release | AcqRel => true | _ => false end.

(** The timestamp of the newest write. *)
Definition newest (m : memory) (l : L) : nat := pred (length (m l)).

Definition read_view (o : order) (l : L) (t : nat) (msg : message) (w : view) : view :=
  vjoin (vput l t w) (if acquires o then m_rel msg else vbot).

(** An atomic load that reads the write [t]. *)
Definition load_at (o : order) (l : L) (t : nat) (m : memory) (w : view) : option (V * view) :=
  if decide (w l <= t)%nat then msg ← m l !! t; Some (m_val msg, read_view o l t msg w) else None.

(** Appends a write. *)
Definition append (l : L) (x : V) (r : view) (m : memory) : memory := mput l (m l ++ [mk_message x r]) m.

(** An atomic store. *)
Definition store (o : order) (l : L) (x : V) (m : memory) (w : view) : option (memory * view) :=
  _ ← last (m l);
  if decide (w l = newest m l) then
    let w' := vput l (length (m l)) w in
    Some (append l x (if releases o then w' else vbot) m, w')
  else None.

(** An atomic exchange: what it read, and the newest write it makes. *)
Definition exchange (o : order) (l : L) (x : V) (m : memory) (w : view) : option (V * memory * view) :=
  msg ← last (m l);
  let w' := vput l (length (m l)) (read_view o l (newest m l) msg w) in
  Some (m_val msg, append l x (vjoin (m_rel msg) (if releases o then w' else vbot)) m, w').

(** Plain accesses. *)
Definition plain_write (l : L) (x : V) (m : memory) (w : view) : option (memory * view) :=
  _ ← last (m l);
  if decide (w l = newest m l) then Some (append l x vbot m, vput l (length (m l)) w) else None.

Definition plain_read (l : L) (m : memory) (w : view) : option (V * memory * view) :=
  msg ← last (m l);
  if decide (w l = newest m l) then Some (m_val msg, append l (m_val msg) vbot m, vput l (length (m l)) w) else None.

(** ** Well-formed memories *)

(** A view knows only writes there are. *)
Definition view_ok (m : memory) (w : view) : Prop := forall l, (w l <= newest m l)%nat.
Definition mem_ok (m : memory) : Prop := forall l t msg, m l !! t = Some msg -> view_ok m (m_rel msg).

(** [m'] has all writes of [m]. *)
Definition extends (m m' : memory) : Prop := forall l, m l `prefix_of` m' l.

#[export] Instance extends_preorder : PreOrder extends.
Proof. split; [intros m l; done|]. intros a b c Hab Hbc l. etrans; [apply Hab|apply Hbc]. Qed.

Lemma newest_mono m m' l : extends m m' -> (newest m l <= newest m' l)%nat.
Proof. intros H. specialize (H l). apply prefix_length in H. unfold newest. lia. Qed.

Lemma view_ok_mono m m' w : extends m m' -> view_ok m w -> view_ok m' w.
Proof. intros He Hw l. pose proof (newest_mono m m' l He). specialize (Hw l). lia. Qed.

Lemma view_ok_bot m : view_ok m vbot.
Proof. intros l. unfold vbot. lia. Qed.

Lemma view_ok_join m a b : view_ok m a -> view_ok m b -> view_ok m (vjoin a b).
Proof. intros Ha Hb l. specialize (Ha l). specialize (Hb l). unfold vjoin. lia. Qed.

Lemma append_at l x r m : append l x r m l = m l ++ [mk_message x r].
Proof. apply mput_eq. Qed.
Lemma append_ne l l' x r m : l' <> l -> append l x r m l' = m l'.
Proof. apply mput_ne. Qed.

Lemma append_extends l x r m : extends m (append l x r m).
Proof.
  intros l'. destruct (decide (l' = l)) as [->|Hne]; [rewrite append_at; by apply prefix_app_r|by rewrite append_ne].
Qed.

Lemma append_newest l x r m : newest (append l x r m) l = length (m l).
Proof. unfold newest. rewrite append_at, length_app. cbn. lia. Qed.

Lemma append_newest_ne l l' x r m : l' <> l -> newest (append l x r m) l' = newest m l'.
Proof. intros Hl. unfold newest. by rewrite append_ne. Qed.

(** The view after a write to [l]. *)
Lemma view_ok_append l x r m w : view_ok m w -> view_ok (append l x r m) (vput l (length (m l)) w).
Proof.
  intros Hw l'. destruct (decide (l' = l)) as [->|Hne]; [by rewrite vput_eq, append_newest|].
  rewrite vput_ne, append_newest_ne by done. apply Hw.
Qed.

Lemma mem_ok_append l x r m : mem_ok m -> view_ok (append l x r m) r -> mem_ok (append l x r m).
Proof.
  intros Hm Hr l' t msg Ht. destruct (decide (l' = l)) as [->|Hne].
  - rewrite append_at in Ht. apply lookup_app_Some in Ht as [Ht|[_ Ht]].
    + eapply view_ok_mono; [apply append_extends|by eapply Hm].
    + apply list_lookup_singleton_Some in Ht as [_ <-]. done.
  - rewrite append_ne in Ht by done. eapply view_ok_mono; [apply append_extends|by eapply Hm].
Qed.

Lemma last_lookup_newest m l msg : last (m l) = Some msg -> m l !! newest m l = Some msg.
Proof. unfold newest. by rewrite last_lookup. Qed.

Lemma read_view_ok o l t msg m w : mem_ok m -> view_ok m w -> m l !! t = Some msg -> view_ok m (read_view o l t msg w).
Proof.
  intros Hm Hw Ht. apply view_ok_join.
  - intros l'. destruct (decide (l' = l)) as [->|Hne]; [|rewrite vput_ne by done; apply Hw].
    rewrite vput_eq. apply lookup_lt_Some in Ht. unfold newest. lia.
  - destruct (acquires o); [by eapply Hm|apply view_ok_bot].
Qed.

Lemma load_at_inv o l t m w x w' : load_at o l t m w = Some (x, w') ->
  exists msg, m l !! t = Some msg /\ (w l <= t)%nat /\ x = m_val msg /\ w' = read_view o l t msg w.
Proof.
  unfold load_at. case_decide; [|done]. destruct (m l !! t) as [msg|]; [|done]. intros [= <- <-]. by exists msg.
Qed.

Lemma plain_write_known l x m w msg : last (m l) = Some msg -> w l = newest m l ->
  plain_write l x m w = Some (append l x vbot m, vput l (length (m l)) w).
Proof. intros Hl Hw. unfold plain_write. rewrite Hl. cbn. by rewrite decide_True. Qed.

Lemma plain_read_known l m w msg : last (m l) = Some msg -> w l = newest m l ->
  plain_read l m w = Some (m_val msg, append l (m_val msg) vbot m, vput l (length (m l)) w).
Proof. intros Hl Hw. unfold plain_read. rewrite Hl. cbn. by rewrite decide_True. Qed.

Lemma store_known o l x m w msg : last (m l) = Some msg -> w l = newest m l ->
  store o l x m w = Some (append l x (if releases o then vput l (length (m l)) w else vbot) m, vput l (length (m l)) w).
Proof. intros Hl Hw. unfold store. rewrite Hl. cbn. by rewrite decide_True. Qed.

Lemma last_newest m l : m l <> [] -> exists msg, last (m l) = Some msg /\ m l !! newest m l = Some msg.
Proof.
  intros Hl. destruct (last (m l)) as [msg|] eqn:E; [|by apply last_None in E]. exists msg. split; [done|]. by apply last_lookup_newest.
Qed.

(** Every access leaves memory and view well formed, and only adds to both. *)
Lemma load_ok o l t m w x w' : mem_ok m -> view_ok m w -> load_at o l t m w = Some (x, w') -> view_ok m w' /\ vle w w'.
Proof.
  intros Hm Hw. unfold load_at. case_decide as Hle; [|done]. destruct (m l !! t) as [msg|] eqn:Ht; [|done]. intros [= <- <-].
  split; [by apply read_view_ok|]. etrans; [by apply (vput_le l t)|apply vjoin_l].
Qed.

Definition access_ok (m m' : memory) (w w' : view) : Prop := mem_ok m' /\ view_ok m' w' /\ extends m m' /\ vle w w'.

Lemma append_access_ok l x r m w : mem_ok m -> view_ok m w -> view_ok (append l x r m) r ->
  access_ok m (append l x r m) w (vput l (length (m l)) w).
Proof.
  intros Hm Hw Hr. split_and!; [by apply mem_ok_append|by apply view_ok_append|apply append_extends|].
  apply vput_le. specialize (Hw l). unfold newest in Hw. lia.
Qed.

Lemma store_ok o l x m w m' w' : mem_ok m -> view_ok m w -> store o l x m w = Some (m', w') -> access_ok m m' w w'.
Proof.
  intros Hm Hw. unfold store. destruct (last (m l)); [|done]. cbn. case_decide; [|done]. intros [= <- <-].
  apply append_access_ok; [done..|]. destruct (releases o); [by apply view_ok_append|apply view_ok_bot].
Qed.

Lemma plain_write_ok l x m w m' w' : mem_ok m -> view_ok m w -> plain_write l x m w = Some (m', w') -> access_ok m m' w w'.
Proof.
  intros Hm Hw. unfold plain_write. destruct (last (m l)); [|done]. cbn. case_decide; [|done]. intros [= <- <-].
  apply append_access_ok; [done..|apply view_ok_bot].
Qed.

Lemma plain_read_ok l m w x m' w' : mem_ok m -> view_ok m w -> plain_read l m w = Some (x, m', w') -> access_ok m m' w w'.
Proof.
  intros Hm Hw. unfold plain_read. destruct (last (m l)); [|done]. cbn. case_decide; [|done]. intros [= <- <- <-].
  apply append_access_ok; [done..|apply view_ok_bot].
Qed.

Lemma exchange_ok o l x m w y m' w' : mem_ok m -> view_ok m w -> exchange o l x m w = Some (y, m', w') -> access_ok m m' w w'.
Proof.
  intros Hm Hw. unfold exchange. destruct (last (m l)) as [msg|] eqn:Hl; [|done]. cbn. intros [= <- <- <-].
  pose proof (last_lookup_newest _ _ _ Hl) as Ht. pose proof (read_view_ok o l _ msg m w Hm Hw Ht) as Hr.
  assert (Hwr : vle w (read_view o l (newest m l) msg w)) by (etrans; [apply (vput_le l (newest m l)), Hw|apply vjoin_l]).
  pose proof (append_access_ok l x (vjoin (m_rel msg) (if releases o then vput l (length (m l)) (read_view o l (newest m l) msg w) else vbot))
    m _ Hm Hr) as (?&?&?&?).
  - apply view_ok_join; [eapply view_ok_mono; [apply append_extends|by eapply Hm]|].
    destruct (releases o); [by apply view_ok_append|apply view_ok_bot].
  - split_and!; [done..|]. by etrans.
Qed.
End Memory.
Arguments view : clear implicits.
Arguments message : clear implicits.
Arguments memory : clear implicits.
