(* ===== verification/NetApi.v ===== *)
(** * The public interface: tinynet.hpp and the limits of detail/plat.h

    Result codes, events, the service's configuration, the session factory, and what a
    user's session class provides (the virtual functions of [IEventHandler] and
    [EventHandler]) and may call ([IConnection]). *)

From S2P Require Import Prelude Heap.

(** plat.h *)
Definition MAX_THREAD : Z := 50.
Definition MAX_WAIT_EVENT : Z := 128.

Inductive NetRet :=
| RET_OK | RET_ERR | RET_ERR_SOCKET | RET_ERR_CONNECT | RET_ERR_LISTEN | RET_ERR_BIND
| RET_ERR_BUFSIZE.

Definition NetRet_value (r : NetRet) : Z :=
  match r with
  | RET_OK => 0
  | RET_ERR => -1
  | RET_ERR_SOCKET => -100
  | RET_ERR_CONNECT => -101
  | RET_ERR_LISTEN => -102
  | RET_ERR_BIND => -103
  | RET_ERR_BUFSIZE => -104
  end.

Inductive NetEvent :=
| EVT_BIND | EVT_LISTEN | EVT_LISTEN_FAIL | EVT_CONNECT | EVT_CONNECT_FAIL | EVT_RECV
| EVT_SEND | EVT_DISCONNECT | EVT_SESSION_CREATE | EVT_SESSION_RELEASE.

#[export] Instance NetRet_eq_dec : EqDecision NetRet.
Proof. solve_decision. Defined.

#[export] Instance NetEvent_eq_dec : EqDecision NetEvent.
Proof. solve_decision. Defined.

(** [ITCPService::Properties]; [ptr] is an opaque user pointer. *)
Record Properties := mk_Properties {
  parser : bool;
  reuse : bool;
  app_run : bool;
  backlogs : Z;
  scheds : Z;
  threads : Z;
  cfg_ptr : option ptr
}.

Definition Properties_default : Properties := {|
  parser := false; reuse := true; app_run := false;
  backlogs := 0; scheds := 1; threads := 1; cfg_ptr := None
|}.

(** The [std::function] called with an event and an object: empty, or a user function. *)
Definition EventHandleFunc : Type := option (NetEvent -> option ptr -> option ptr).

(** [SessionFactory<T>]: [new T()] and [delete pT]. *)
Definition SessionFactory_create {T} (init : T) (h : heap T) : ptr * heap T := heap_new init h.
Definition SessionFactory_release {T} (pT : ptr) (h : heap T) : option (heap T) :=
  heap_delete pT h.

(** The [const Msg*] that [parse_message] returns: a pointer into the receive buffer (what
    the default implementation returns) or one to memory of the user's own. *)
Inductive msgptr := InBuf (off : Z) | Owned (bytes : list byte).

(** The body of a user callback: it reads and writes the fields of the user's class and
    calls the connection's operations, whose results it may branch on. *)
Inductive callback (U : Type) :=
| CDone
| CGet (k : U -> callback U)
| CPut (u : U) (k : callback U)
| CSend (data : list byte) (k : Z -> callback U)
| CAsyncSend (data : list byte) (k : Z -> callback U)
| CClose (k : callback U).
Arguments CDone {U}. Arguments CGet {U}. Arguments CPut {U}. Arguments CSend {U}.
Arguments CAsyncSend {U}. Arguments CClose {U}.

(** The virtual functions a session class overrides.  [on_send] receives the data of the
    call, the offset of the pointer it is given from the start of that data, and the
    length. *)
Record IEventHandler (U : Type) := {
  read_packet : U -> list byte -> Z;
  on_connect : callback U;
  on_disconnect : callback U;
  on_recv : list byte -> callback U;
  on_message : list byte -> callback U;
  on_send : U -> list byte -> Z -> Z -> U;
  parse_message : U -> list byte -> Z -> msgptr
}.
Arguments read_packet {U}. Arguments on_connect {U}. Arguments on_disconnect {U}.
Arguments on_recv {U}. Arguments on_message {U}. Arguments on_send {U}.
Arguments parse_message {U}.

(** Error codes are told apart by the [int] they are returned as, and only [RET_OK] is 0:
    the test [ret == 0] of [TCPService::start] recognises exactly success. *)
Lemma NetRet_value_inj r1 r2 : NetRet_value r1 = NetRet_value r2 -> r1 = r2.
Proof. by destruct r1, r2. Qed.

Lemma NetRet_ok_iff r : (NetRet_value r =? 0) = true <-> r = RET_OK.
Proof. by destruct r. Qed.
