(* ===== verification/SendBuffer.v ===== *)
(** * The send buffer: detail/sendbuffer.hpp

    A byte buffer of fixed size with a head and a tail index.  [push] runs under the mutex
    as a whole; [pop] takes the mutex twice and calls the handler in between without it.
    The first part treats both as atomic and relates them to a byte queue, the second
    gives the interleavings of one popping thread with any number of pushing threads. *)

From S2P Require Import Prelude.

Record SendBuffer := mk_SendBuffer {
  dataHead : Z;
  dataTail : Z;
  dataBuf : list byte
}.

Section SendBuffer.
Context (BufferSize : Z).

Definition SendBuffer_init : SendBuffer :=
  mk_SendBuffer 0 0 (replicate (Z.to_nat BufferSize) x00).

(** The condition of the [assert] that opens [push]. *)
Definition push_pre (pData : list byte) : bool := zlen pData <=? u32 BufferSize.

(** [push]: make room by moving the pending bytes to the front when the tail has not
    enough room, then append.  [BufferSize - dataTail] is an [int] compared with an
    [unsigned int]. *)
Definition push (sb : SendBuffer) (pData : list byte) : bool * SendBuffer :=
  let dataLen := zlen pData in
  let append sb' :=
    if dataLen <? u32 (BufferSize - dataTail sb') then
      (true, mk_SendBuffer (dataHead sb') (dataTail sb' + dataLen)
               (blit (dataTail sb') pData (dataBuf sb')))
    else (false, sb') in
  if u32 (BufferSize - dataTail sb) <? dataLen then
    if 0 <? dataHead sb then
      let leftSize := dataTail sb - dataHead sb in
      if 0 <? leftSize then
        append (mk_SendBuffer 0 leftSize
                  (blit 0 (slice (dataHead sb) leftSize (dataBuf sb)) (dataBuf sb)))
      else append (mk_SendBuffer 0 0 (dataBuf sb))
    else (false, sb)
  else append sb.

(** [pop], its first critical section: the number of pending bytes. *)
Definition pop_len (sb : SendBuffer) : Z := dataTail sb - dataHead sb.

(** The region handed to the handler; [dataHead] is read again, outside the mutex. *)
Definition pop_region (sb : SendBuffer) (dataLen : Z) : list byte :=
  slice (dataHead sb) dataLen (dataBuf sb).

(** The rest of [pop], after the handler returned [popLen]. *)
Definition pop_finish (sb : SendBuffer) (dataLen popLen : Z) : bool * SendBuffer :=
  if popLen <=? 0 then (false, sb)
  else if popLen <? dataLen then
    (true, mk_SendBuffer (dataHead sb + popLen) (dataTail sb) (dataBuf sb))
  else (true, mk_SendBuffer 0 0 (dataBuf sb)).

(** [pop] as a whole.  The handler is a program of its own: it is given the region, changes its
    state (a socket, say) and returns a number. *)
Definition pop {St} (handler : list byte -> St -> Z * St) (st : St) (sb : SendBuffer) : bool * SendBuffer * St :=
  let dataLen := pop_len sb in
  let '(popLen, st') := handler (pop_region sb dataLen) st in
  (pop_finish sb dataLen popLen, st').

(** ** The buffer as a byte queue *)

Definition SendBuffer_wf (sb : SendBuffer) : Prop :=
  0 <= dataHead sb <= dataTail sb /\ dataTail sb <= BufferSize /\ zlen (dataBuf sb) = BufferSize.

(** The pending bytes: those from the head to the tail. *)
Definition contents (sb : SendBuffer) : list byte := slice (dataHead sb) (dataTail sb - dataHead sb) (dataBuf sb).

Lemma pop_region_contents sb : pop_region sb (pop_len sb) = contents sb.
Proof. reflexivity. Qed.

Hypothesis BufferSize_int : 0 < BufferSize <= INT_MAX.

Lemma SendBuffer_init_wf : SendBuffer_wf SendBuffer_init.
Proof. unfold SendBuffer_wf; cbn. rewrite length_replicate. lia. Qed.

Lemma contents_init : contents SendBuffer_init = [].
Proof. reflexivity. Qed.

Lemma zlen_contents sb : SendBuffer_wf sb -> zlen (contents sb) = pop_len sb.
Proof. intros (?&?&?). unfold contents, pop_region, pop_len. zlens. Qed.

Lemma room_u32 sb : SendBuffer_wf sb -> u32 (BufferSize - dataTail sb) = BufferSize - dataTail sb.
Proof. intros (?&?&?). apply u32_small. unfold INT_MAX in *. lia. Qed.

(** The compaction step of [push] keeps the pending bytes. *)
Lemma compact_spec sb :
  SendBuffer_wf sb -> 0 < pop_len sb ->
  let sb' := mk_SendBuffer 0 (pop_len sb)
               (blit 0 (slice (dataHead sb) (pop_len sb) (dataBuf sb)) (dataBuf sb)) in
  SendBuffer_wf sb' /\ contents sb' = contents sb.
Proof.
  intros (?&?&?) Hl sb'. unfold pop_len in *.
  assert (Hs : zlen (slice (dataHead sb) (dataTail sb - dataHead sb) (dataBuf sb))
               = dataTail sb - dataHead sb) by zlens.
  split.
  - unfold SendBuffer_wf; cbn. rewrite zlen_blit; lia.
  - unfold contents, pop_region, pop_len; cbn. rewrite Z.sub_0_r.
    rewrite <- Hs at 1. apply slice_blit_at. lia.
Qed.

(** The append step: it happens exactly when strictly less than the free tail is needed. *)
Lemma append_spec sb d :
  SendBuffer_wf sb -> dataTail sb + zlen d < BufferSize ->
  let sb' := mk_SendBuffer (dataHead sb) (dataTail sb + zlen d) (blit (dataTail sb) d (dataBuf sb)) in
  SendBuffer_wf sb' /\ contents sb' = contents sb ++ d.
Proof.
  intros (?&?&?) Hd sb'. split.
  - unfold SendBuffer_wf; cbn. rewrite zlen_blit; lia.
  - unfold contents, pop_region, pop_len; cbn.
    replace (dataTail sb + zlen d - dataHead sb)
      with ((dataTail sb - dataHead sb) + zlen d) by lia.
    rewrite slice_app by lia. f_equal.
    + apply slice_blit_before; lia.
    + replace (dataHead sb + (dataTail sb - dataHead sb)) with (dataTail sb) by lia.
      apply slice_blit_at. lia.
Qed.

(** [push] case by case: what it returns, the bounds it keeps, the queue it leaves. *)
Lemma push_cases sb d :
  SendBuffer_wf sb ->
  let '(ok, sb') := push sb d in
  SendBuffer_wf sb' /\ contents sb' = contents sb ++ (if ok then d else []) /\
  (ok = true <-> zlen (contents sb) + zlen d < BufferSize /\ dataTail sb + zlen d <> BufferSize).
Proof.
  intros Hwf. pose proof Hwf as (H1&H2&H3).
  rewrite zlen_contents by done. unfold push. rewrite (room_u32 sb Hwf).
  unfold pop_len in *.
  destruct (Z.ltb_spec (BufferSize - dataTail sb) (zlen d)) as [Hroom|Hroom].
  - destruct (Z.ltb_spec 0 (dataHead sb)) as [Hh|Hh].
    2: { rewrite app_nil_r. split_and!; [done..|]. split; [done|lia]. }
    destruct (Z.ltb_spec 0 (dataTail sb - dataHead sb)) as [Hl|Hl].
    + destruct (compact_spec sb Hwf Hl) as [Hwf' Hc]. unfold pop_len in *.
      rewrite (room_u32 _ Hwf'). cbn [dataTail dataHead dataBuf].
      destruct (Z.ltb_spec (zlen d) (BufferSize - (dataTail sb - dataHead sb))).
      * destruct (append_spec _ d Hwf') as [Hwf'' Hc'']; cbn [dataTail dataHead dataBuf] in *; [lia|].
        split_and!; [exact Hwf''| by rewrite Hc'', Hc | split; [lia|done]].
      * rewrite app_nil_r. split_and!; [done..|]. split; [done|lia].
    + assert (Hwf' : SendBuffer_wf (mk_SendBuffer 0 0 (dataBuf sb)))
        by (unfold SendBuffer_wf; cbn; lia).
      assert (Hc : contents sb = []).
      { apply nil_length_inv. pose proof (zlen_contents sb Hwf). unfold pop_len in *. lia. }
      rewrite (room_u32 _ Hwf'), Hc. cbn [dataTail dataHead dataBuf].
      destruct (Z.ltb_spec (zlen d) (BufferSize - 0)).
      * destruct (append_spec _ d Hwf') as [Hwf'' Hc'']; cbn [dataTail dataHead dataBuf] in *; [lia|].
        split_and!; [exact Hwf''| exact Hc'' | split; [lia|done]].
      * split_and!; [done..|]. split; [done|lia].
  - destruct (Z.ltb_spec (zlen d) (BufferSize - dataTail sb)).
    + destruct (append_spec sb d Hwf) as [Hwf'' Hc'']; [lia|].
      split_and!; [done..|]. split; [lia|done].
    + rewrite app_nil_r. split_and!; [done..|]. split; [done|lia].
Qed.

Lemma push_wf sb d : SendBuffer_wf sb -> SendBuffer_wf (push sb d).2.
Proof. intros H. pose proof (push_cases sb d H). destruct (push sb d). tauto. Qed.

(** What [pop_finish] does to the queue when the handler consumed [n] of its [dl] bytes. *)
Lemma pop_finish_cases sb dl n :
  SendBuffer_wf sb -> n <= dl <= pop_len sb ->
  let '(ok, sb') := pop_finish sb dl n in
  SendBuffer_wf sb' /\ ok = (0 <? n) /\
  contents sb' = (if (0 <? n) && (dl <=? n) then [] else drop (Z.to_nat n) (contents sb)).
Proof.
  intros Hwf Hn. pose proof Hwf as (?&?&?). unfold pop_len in *. unfold pop_finish.
  destruct (Z.leb_spec n 0), (Z.ltb_spec 0 n); try lia; cbn [andb].
  - split_and!; [done..|]. by replace (Z.to_nat n) with O by lia.
  - destruct (Z.ltb_spec n dl), (Z.leb_spec dl n); try lia.
    + split_and!; [unfold SendBuffer_wf; cbn; lia|done|].
      unfold contents, pop_region, pop_len; cbn. rewrite drop_slice by lia. f_equal. lia.
    + split_and!; [unfold SendBuffer_wf; cbn; lia|done|done].
Qed.

Lemma pop_finish_wf sb dl n : SendBuffer_wf sb -> n <= dl <= pop_len sb -> SendBuffer_wf (pop_finish sb dl n).2.
Proof. intros H Hn. pose proof (pop_finish_cases sb dl n H Hn). destruct (pop_finish sb dl n). tauto. Qed.

(** ** Sequences of calls *)

(** A call: a push, or a pop whose socket takes at most [n] bytes (a negative [n] is a
    failed send). *)
Inductive buffer_call := CallPush (d : list byte) | CallPop (n : Z).

(** The socket as a handler: of the bytes it is offered it takes at most [n] from the front, and
    they go out. *)
Definition socket_takes (n : Z) (region sent : list byte) : Z * list byte :=
  let popLen := Z.min n (zlen region) in (popLen, sent ++ take (Z.to_nat popLen) region).

Record transfer := mk_transfer {
  t_buf : SendBuffer;
  t_accepted : list byte;   (** the bytes of the successful pushes, in order *)
  t_sent : list byte        (** the bytes that went out, in order *)
}.

Definition do_call (t : transfer) (c : buffer_call) : transfer :=
  match c with
  | CallPush d =>
      let '(ok, sb') := push (t_buf t) d in
      mk_transfer sb' (t_accepted t ++ if ok then d else []) (t_sent t)
  | CallPop n =>
      let '(_, sb', sent) := pop (socket_takes n) (t_sent t) (t_buf t) in
      mk_transfer sb' (t_accepted t) sent
  end.

Definition do_calls (t : transfer) (cs : list buffer_call) : transfer := foldl do_call t cs.

Definition transfer_inv (t : transfer) : Prop :=
  SendBuffer_wf (t_buf t) /\ t_accepted t = t_sent t ++ contents (t_buf t).

(** [pop_finish] for the length that was read, whatever the handler returned. *)
Lemma pop_finish_whole sb n : SendBuffer_wf sb ->
  let '(ok, sb') := pop_finish sb (pop_len sb) n in
  SendBuffer_wf sb' /\ ok = (0 <? n) /\ contents sb' = drop (Z.to_nat n) (contents sb).
Proof.
  intros Hwf. pose proof (zlen_contents sb Hwf) as Hl. pose proof Hwf as (?&?&?).
  destruct (Z.le_gt_cases n (pop_len sb)) as [Hn|Hn].
  - pose proof (pop_finish_cases sb (pop_len sb) n Hwf ltac:(lia)) as Hp. destruct (pop_finish sb (pop_len sb) n) as [ok sb'].
    destruct Hp as (Hwf'&->&Hc). split_and!; [done..|]. rewrite Hc.
    destruct (Z.ltb_spec 0 n), (Z.leb_spec (pop_len sb) n); try done. rewrite drop_ge; [done|lia].
  - unfold pop_finish. assert (0 <= pop_len sb) by (unfold pop_len; lia).
    destruct (Z.leb_spec n 0); [lia|]. destruct (Z.ltb_spec n (pop_len sb)); [lia|].
    split_and!; [unfold SendBuffer_wf; cbn; lia|symmetry; apply Z.ltb_lt; lia|]. rewrite drop_ge; [done|lia].
Qed.

(** [pop] around a [send] that returned [n]. *)
Lemma pop_sent sb n :
  SendBuffer_wf sb -> -1 <= n <= pop_len sb ->
  let sb' := (pop_finish sb (pop_len sb) (i32 n)).2 in
  SendBuffer_wf sb' /\ contents sb' = drop (Z.to_nat n) (contents sb).
Proof.
  intros Hwf Hn. pose proof Hwf as (?&?&?). rewrite i32_small by (unfold pop_len, INT_MAX in *; lia).
  pose proof (pop_finish_whole sb n Hwf) as Hp. destruct (pop_finish _ _ _) as [ok sb']. by destruct Hp as (?&_&?).
Qed.

Lemma do_call_inv t c : transfer_inv t -> transfer_inv (do_call t c).
Proof.
  intros [Hwf Heq]. destruct c as [d|n]; cbn [do_call].
  - pose proof (push_cases (t_buf t) d Hwf) as Hp. destruct (push (t_buf t) d) as [ok sb'].
    destruct Hp as (?&Hc&_). split; cbn; [done|]. by rewrite Heq, Hc, app_assoc.
  - unfold pop, socket_takes. rewrite pop_region_contents. set (k := Z.min n _).
    pose proof (pop_finish_whole (t_buf t) k Hwf) as Hp. destruct (pop_finish (t_buf t) (pop_len (t_buf t)) k) as [ok sb'].
    destruct Hp as (?&_&Hc). split; cbn; [done|]. by rewrite Heq, Hc, <- app_assoc, take_drop.
Qed.

Lemma do_calls_inv cs t : transfer_inv t -> transfer_inv (do_calls t cs).
Proof. revert t. induction cs as [|c cs IH]; intros t Ht; cbn; [done|]. by apply IH, do_call_inv. Qed.

(** ** Interleavings of one popping thread with pushing threads *)

Inductive pop_pc :=
| PopIdle                                  (** not inside [pop] *)
| PopRead (dataLen : Z)                    (** [dataLen] read, mutex released *)
| PopHandler (dataLen at_ : Z) (copied : list byte)
                                           (** the handler runs on [dataBuf + at_] and has copied some bytes *)
| PopCalled (dataLen popLen : Z).          (** the handler returned [popLen] *)

(** The buffer, the popping thread, and ghosts: every byte of a successful push, the bytes owed to
    the socket from the first on ([kept]), the bytes sent, those dropped, those pushed since the
    running [pop] read its length, and whether a push moved the pending bytes while a handler was
    reading them. *)
Record conc := mk_conc {
  c_buf : SendBuffer;
  c_pc : pop_pc;
  c_pushed : list byte;
  c_kept : list byte;
  c_sent : list byte;
  c_lost : list byte;
  c_window : list byte;
  c_torn : bool
}.

Definition conc_init : conc := mk_conc SendBuffer_init PopIdle [] [] [] [] [] false.

(** The handler runs and its address is no longer the head. *)
Definition moved (pc : pop_pc) (sb : SendBuffer) : bool :=
  match pc with PopHandler _ at_ _ => negb (dataHead sb =? at_) | _ => false end.

(** A push is one critical section.  [pop] reads the length under the mutex, then the head without
    it; the handler reads the bytes behind its address one by one, without the mutex, and returns;
    the last section moves the indices. *)
Inductive conc_step : conc -> conc -> Prop :=
| step_push st d ok sb' :
    push (c_buf st) d = (ok, sb') ->
    let acc := if ok : bool then d else [] in
    conc_step st (mk_conc sb' (c_pc st) (c_pushed st ++ acc) (c_kept st ++ acc)
                    (c_sent st) (c_lost st) (c_window st ++ acc) (c_torn st || moved (c_pc st) sb'))
| step_pop_read st :
    c_pc st = PopIdle ->
    conc_step st (mk_conc (c_buf st) (PopRead (pop_len (c_buf st))) (c_pushed st) (c_kept st)
                    (c_sent st) (c_lost st) [] (c_torn st))
| step_pop_address st dl :
    c_pc st = PopRead dl ->
    conc_step st (mk_conc (c_buf st) (PopHandler dl (dataHead (c_buf st)) []) (c_pushed st) (c_kept st)
                    (c_sent st) (c_lost st) (c_window st) (c_torn st))
| step_pop_copy st dl at_ copied b :
    c_pc st = PopHandler dl at_ copied -> zlen copied < dl -> zget (dataBuf (c_buf st)) (at_ + zlen copied) = Some b ->
    conc_step st (mk_conc (c_buf st) (PopHandler dl at_ (copied ++ [b])) (c_pushed st) (c_kept st)
                    (c_sent st) (c_lost st) (c_window st) (c_torn st))
| step_pop_return st dl at_ copied n :
    c_pc st = PopHandler dl at_ copied -> n <= zlen copied ->
    conc_step st (mk_conc (c_buf st) (PopCalled dl n) (c_pushed st) (c_kept st)
                    (c_sent st ++ take (Z.to_nat n) copied) (c_lost st) (c_window st) (c_torn st))
| step_pop_finish st dl n :
    c_pc st = PopCalled dl n ->
    let drained := (0 <? n) && (dl <=? n) in
    conc_step st (mk_conc (pop_finish (c_buf st) dl n).2 PopIdle (c_pushed st)
                    (if drained then take (length (c_kept st) - length (c_window st)) (c_kept st)
                     else c_kept st)
                    (c_sent st)
                    (if drained then c_lost st ++ c_window st else c_lost st) [] (c_torn st)).

(** The length the running [pop] read is that of the front of the queue, whatever the pushing
    threads do: they append, and compaction moves the queue whole. *)
Definition popping (st : conc) (dl : Z) : Prop := 0 <= dl /\ pop_len (c_buf st) = dl + zlen (c_window st).

(** How many bytes of the queue the socket has already taken. *)
Definition ahead (pc : pop_pc) : nat := match pc with PopCalled _ n => Z.to_nat n | _ => 0%nat end.

Definition conc_pc_ok (st : conc) : Prop :=
  match c_pc st with
  | PopIdle => True
  | PopRead dl => popping st dl
  | PopHandler dl at_ copied =>
      popping st dl /\ 0 <= at_ /\ at_ + dl <= BufferSize /\ zlen copied <= dl /\
      (c_torn st = false -> dataHead (c_buf st) = at_ /\ copied = take (length copied) (contents (c_buf st)))
  | PopCalled dl n => popping st dl /\ n <= dl
  end.

(** The counts are always right; the bytes are unless the queue was moved under a handler. *)
Definition conc_inv (st : conc) : Prop :=
  SendBuffer_wf (c_buf st) /\
  zlen (c_pushed st) = zlen (c_kept st) + zlen (c_lost st) /\
  c_kept st `sublist_of` c_pushed st /\
  conc_pc_ok st /\
  zlen (c_kept st) + Z.of_nat (ahead (c_pc st)) = zlen (c_sent st) + zlen (contents (c_buf st)) /\
  (c_torn st = false -> exists s0, c_kept st = s0 ++ contents (c_buf st) /\
     c_sent st = s0 ++ take (ahead (c_pc st)) (contents (c_buf st))).

Lemma conc_init_inv : conc_inv conc_init.
Proof. split_and!; [apply SendBuffer_init_wf|done|constructor|done|done|]. intros _. by exists []. Qed.

(** A byte of the queue, by its place in the buffer. *)
Lemma contents_byte sb i b : SendBuffer_wf sb -> 0 <= i < pop_len sb -> zget (dataBuf sb) (dataHead sb + i) = Some b ->
  contents sb !! Z.to_nat i = Some b.
Proof.
  intros (?&?&?) Hi Hb. unfold contents, pop_len, slice, zget in *. destruct (Z.ltb_spec (dataHead sb + i) 0); [lia|].
  rewrite lookup_take_lt, lookup_drop by lia. rewrite <- Hb. f_equal. lia.
Qed.

(** A push leaves the head where it is or moves the queue to the front. *)
Lemma conc_push_inv st d ok sb' :
  conc_inv st -> push (c_buf st) d = (ok, sb') ->
  let acc := if ok then d else [] in
  conc_inv (mk_conc sb' (c_pc st) (c_pushed st ++ acc) (c_kept st ++ acc)
              (c_sent st) (c_lost st) (c_window st ++ acc) (c_torn st || moved (c_pc st) sb')).
Proof.
  intros (Hwf&Hlen&Hsub&Hpc&Hcnt&Hby) Hp acc. pose proof (push_cases (c_buf st) d Hwf) as Hs.
  rewrite Hp in Hs. destruct Hs as (Hwf'&Hc&_). fold acc in Hc.
  pose proof (zlen_contents _ Hwf) as Hl. pose proof (zlen_contents _ Hwf') as Hl'. rewrite Hc, length_app in Hl'.
  assert (Hpop : forall dl, popping st dl -> pop_len sb' = dl + zlen (c_window st ++ acc)) by (intros dl [_ Hd]; rewrite length_app; lia).
  split_and!; cbn [c_buf c_pushed c_kept c_lost c_pc c_sent c_torn]; [done|rewrite !length_app; lia|by apply sublist_app| | |].
  - unfold conc_pc_ok, popping in *. cbn [c_buf c_pc c_window c_torn]. destruct (c_pc st) as [|dl|dl at_ cp|dl n]; [done|naive_solver| |naive_solver].
    destruct Hpc as (Hd&?&?&?&Ht). split_and!; [apply Hd|by apply Hpop|done..|]. intros [Hto Hmv]%orb_false_iff.
    destruct (Ht Hto) as [_ Hcp]. cbn in Hmv. apply negb_false_iff, Z.eqb_eq in Hmv. split; [done|]. rewrite Hc, take_app_le; [done|].
    destruct Hd as [_ Hd]. lia.
  - rewrite Hc, !length_app. lia.
  - intros [Hto _]%orb_false_iff. destruct (Hby Hto) as (s0&Hk&Hse). exists s0. rewrite Hk, Hse, Hc, app_assoc. split; [done|].
    f_equal. rewrite take_app_le; [done|]. unfold ahead, conc_pc_ok, popping in *. destruct (c_pc st); lia.
Qed.

Lemma conc_finish_inv st dl n :
  conc_inv st -> c_pc st = PopCalled dl n ->
  let drained := (0 <? n) && (dl <=? n) in
  conc_inv (mk_conc (pop_finish (c_buf st) dl n).2 PopIdle (c_pushed st)
              (if drained then take (length (c_kept st) - length (c_window st)) (c_kept st)
               else c_kept st)
              (c_sent st) (if drained then c_lost st ++ c_window st else c_lost st) [] (c_torn st)).
Proof.
  intros (Hwf&Hlen&Hsub&Hpc&Hcnt&Hby) Epc. unfold conc_pc_ok, popping in Hpc. rewrite Epc in Hpc, Hcnt, Hby. destruct Hpc as ((?&Hpl)&Hn).
  cbn [ahead] in *. pose proof (zlen_contents _ Hwf) as Hl.
  pose proof (pop_finish_cases (c_buf st) dl n Hwf ltac:(lia)) as Hf. destruct (pop_finish (c_buf st) dl n) as [ok sb']. destruct Hf as (Hwf'&_&Hc).
  unfold conc_inv. cbn [c_buf c_pushed c_kept c_lost c_pc c_sent c_torn snd ahead]. destruct ((0 <? n) && (dl <=? n)) eqn:E.
  - apply andb_prop in E as [E1 E2]. apply Z.ltb_lt in E1. apply Z.leb_le in E2. assert (n = dl) as -> by lia.
    rewrite Hc, length_take, length_app. split_and!; [done|lia| |done|cbn; lia|].
    { etrans; [apply sublist_take|done]. }
    intros Hto. destruct (Hby Hto) as (s0&Hk&Hse). exists (c_sent st). cbn. rewrite !app_nil_r. split; [|done].
    rewrite Hk, Hse, length_app, take_app_ge by lia. f_equal. f_equal. lia.
  - split_and!; [done|done|done|done| |].
    + rewrite Hc, length_drop. lia.
    + intros Hto. destruct (Hby Hto) as (s0&Hk&Hse). exists (c_sent st). rewrite Hc, take_0, app_nil_r. split; [|done].
      by rewrite Hk, Hse, <- app_assoc, take_drop.
Qed.

Lemma conc_step_inv st st' : conc_inv st -> conc_step st st' -> conc_inv st'.
Proof.
  intros Hinv Hstep. destruct Hstep as [st d ok sb' Hp acc|st Epc|st dl Epc|st dl at_ cp b Epc Hlt Hb|st dl at_ cp n Epc Hn|st dl n Epc dr];
    [by apply conc_push_inv|..|by apply conc_finish_inv];
    destruct Hinv as (Hwf&Hlen&Hsub&Hpc&Hcnt&Hby); unfold conc_pc_ok, popping in Hpc; rewrite Epc in Hpc, Hcnt, Hby;
    pose proof (zlen_contents _ Hwf) as Hl; pose proof Hwf as (?&?&?); cbn [ahead] in Hcnt, Hby; unfold conc_inv, conc_pc_ok, popping;
    cbn [c_buf c_pushed c_kept c_lost c_pc c_sent c_torn c_window ahead]; (split_and!; [done|done|done|..]); try done.
  all: try (rewrite ?length_app, ?length_take; cbn; unfold pop_len in *; lia).
  - destruct Hpc as ((?&?)&?&?&?&Ht). intros Hto. destruct (Ht Hto) as [Hat Hcp]. split; [done|]. rewrite length_app. cbn [length].
    rewrite Nat.add_1_r. erewrite take_S_r; [by rewrite <- Hcp|]. rewrite <- (Nat2Z.id (length cp)). apply contents_byte; [done|lia|by rewrite Hat].
  - destruct Hpc as ((?&?)&?&?&?&Ht). intros Hto. destruct (Ht Hto) as [_ Hcp]. destruct (Hby Hto) as (s0&Hk&Hse). exists s0. split; [done|].
    rewrite Hse, take_0, app_nil_r, Hcp, take_take. do 2 f_equal. lia.
Qed.

Lemma conc_reachable_inv st : rtc conc_step conc_init st -> conc_inv st.
Proof. apply rtc_invariant; [apply conc_step_inv|apply conc_init_inv]. Qed.
End SendBuffer.

(** ** Properties *)

(** C27. [SendBuffer::push] on a well-formed buffer, on every branch: it keeps
    0 <= head <= tail <= BufferSize and the buffer's length (so no copy leaves the array), it
    appends the data to the pending bytes when it returns true and changes nothing of them
    when it returns false, and it returns true exactly when the pending bytes and the data
    together are shorter than the buffer and the data does not exactly fill the free tail. *)
Theorem push_correct (BufferSize : Z) (sb : SendBuffer) (d : list byte) :
  0 < BufferSize <= INT_MAX -> SendBuffer_wf BufferSize sb ->
  SendBuffer_wf BufferSize (push BufferSize sb d).2 /\
  contents (push BufferSize sb d).2 =
    contents sb ++ (if (push BufferSize sb d).1 then d else []) /\
  ((push BufferSize sb d).1 = true <->
    zlen (contents sb) + zlen d < BufferSize /\ dataTail sb + zlen d <> BufferSize).
Proof.
  intros HB Hwf. pose proof (push_cases BufferSize HB sb d Hwf) as H.
  by destruct (push BufferSize sb d).
Qed.

Lemma push_correct_witness :
  contents (push 8 (mk_SendBuffer 4 6 (replicate 8 x41)) [x42; x43; x44]).2
  = [x41; x41; x42; x43; x44].
Proof.
  refine (eq_trans (proj1 (proj2 (push_correct 8 (mk_SendBuffer 4 6 (replicate 8 x41))
    [x42; x43; x44] _ _))) _).
  - unfold INT_MAX; lia.
  - unfold SendBuffer_wf; cbn; lia.
  - reflexivity.
Defined.

(** C28. [SendBuffer::pop] with any handler, that is any function of the region it is given and
    of a state of its own: the handler is called once, on exactly the pending bytes, and its state
    is what [pop] leaves; the pending bytes lose from their front as many as the number it returned
    (all of them if that is more); and [pop] returns true exactly when that number is positive. *)
Theorem pop_correct {St : Type} (BufferSize : Z) (handler : list byte -> St -> Z * St) (st : St) (sb : SendBuffer) :
  0 < BufferSize <= INT_MAX -> SendBuffer_wf BufferSize sb ->
  exists sb', pop handler st sb = ((0 <? (handler (contents sb) st).1, sb'), (handler (contents sb) st).2) /\
    SendBuffer_wf BufferSize sb' /\ contents sb' = drop (Z.to_nat (handler (contents sb) st).1) (contents sb).
Proof.
  intros HB Hwf. unfold pop. rewrite pop_region_contents. destruct (handler (contents sb) st) as [n st']. cbn [fst snd].
  pose proof (pop_finish_whole BufferSize HB sb n Hwf) as Hp. destruct (pop_finish sb (pop_len sb) n) as [ok sb'].
  destruct Hp as (?&->&?). by exists sb'.
Qed.

Lemma pop_correct_witness :
  exists sb', pop (socket_takes 3) [x40] (mk_SendBuffer 2 7 [x41; x42; x43; x44; x45; x46; x47; x48]) = ((true, sb'), [x40; x43; x44; x45]) /\
    SendBuffer_wf 8 sb' /\ contents sb' = [x46; x47].
Proof. apply (pop_correct 8 (socket_takes 3) [x40] (mk_SendBuffer 2 7 [x41; x42; x43; x44; x45; x46; x47; x48])); [unfold INT_MAX; lia|unfold SendBuffer_wf; cbn; lia]. Defined.

(** C7. Refinement of a byte stream: after any sequence of pushes and pops from the empty
    buffer, whatever the socket takes each time of the region [pop] hands it, the bytes that went out
    followed by the bytes still pending are exactly the bytes of the successful pushes, in order. *)
Theorem send_stream_exact (BufferSize : Z) (calls : list buffer_call) :
  0 < BufferSize <= INT_MAX ->
  let t := do_calls BufferSize (mk_transfer (SendBuffer_init BufferSize) [] []) calls in
  SendBuffer_wf BufferSize (t_buf t) /\ t_accepted t = t_sent t ++ contents (t_buf t).
Proof.
  intros HB t. apply (do_calls_inv BufferSize HB). split; [|done].
  by apply SendBuffer_init_wf.
Qed.

Lemma send_stream_exact_witness :
  let t := do_calls 4 (mk_transfer (SendBuffer_init 4) [] [])
             [CallPush [x41; x42]; CallPop 1; CallPush [x43; x44; x45]; CallPush [x46]; CallPop 9] in
  t_accepted t = [x41; x42; x46] /\ t_sent t = [x41; x42; x46] /\
  t_accepted t = t_sent t ++ contents (t_buf t).
Proof.
  intros t. split; [reflexivity|]. split; [reflexivity|].
  apply (send_stream_exact 4 [CallPush [x41; x42]; CallPop 1; CallPush [x43; x44; x45];
    CallPush [x46]; CallPop 9]). unfold INT_MAX; lia.
Defined.

(** C29. Every interleaving of one popping thread with any pushing threads, the handler reading
    the bytes one by one outside the mutex.  The indices stay inside the buffer, and so does what the
    handler reads.  Once no [pop] is running, every byte pushed is sent, pending or counted in
    [c_lost], the bytes pushed while a [pop] that took everything it had read was running.  The bytes
    sent and pending are a subsequence of those pushed, in order, unless a push moved the pending
    bytes while a handler was reading them. *)
Theorem concurrent_pop_accounting (BufferSize : Z) (st : conc) :
  0 < BufferSize <= INT_MAX -> rtc (conc_step BufferSize) (conc_init BufferSize) st ->
  SendBuffer_wf BufferSize (c_buf st) /\
  (forall dl at_ copied, c_pc st = PopHandler dl at_ copied -> 0 <= at_ /\ at_ + dl <= BufferSize) /\
  (c_pc st = PopIdle ->
     zlen (c_pushed st) = zlen (c_sent st) + zlen (contents (c_buf st)) + zlen (c_lost st) /\
     (c_torn st = false -> c_sent st ++ contents (c_buf st) `sublist_of` c_pushed st)).
Proof.
  intros HB Hr. destruct (conc_reachable_inv BufferSize HB st Hr) as (Hwf&Hlen&Hsub&Hpc&Hcnt&Hby).
  split; [done|]. split.
  { intros dl at_ cp E. unfold conc_pc_ok in Hpc. rewrite E in Hpc. naive_solver. }
  intros E. rewrite E in Hcnt, Hby. cbn [ahead] in *. split; [lia|]. intros Hto. destruct (Hby Hto) as (s0&Hk&Hs).
  rewrite take_0, app_nil_r in Hs. by rewrite Hs, <- Hk.
Qed.

(** A schedule: a push, or the popping thread's next step, with what the handler returns. *)
Inductive conc_move := MvPush (d : list byte) | MvPop | MvReturn (n : Z).

Definition conc_do (BufferSize : Z) (m : conc_move) (st : conc) : option conc :=
  match m, c_pc st with
  | MvPush d, pc =>
      let '(ok, sb') := push BufferSize (c_buf st) d in
      let acc := if ok then d else [] in
      Some (mk_conc sb' pc (c_pushed st ++ acc) (c_kept st ++ acc) (c_sent st) (c_lost st) (c_window st ++ acc) (c_torn st || moved pc sb'))
  | MvPop, PopIdle => Some (mk_conc (c_buf st) (PopRead (pop_len (c_buf st))) (c_pushed st) (c_kept st) (c_sent st) (c_lost st) [] (c_torn st))
  | MvPop, PopRead dl =>
      Some (mk_conc (c_buf st) (PopHandler dl (dataHead (c_buf st)) []) (c_pushed st) (c_kept st) (c_sent st) (c_lost st) (c_window st) (c_torn st))
  | MvPop, PopHandler dl at_ copied =>
      if zlen copied <? dl then
        b ← zget (dataBuf (c_buf st)) (at_ + zlen copied);
        Some (mk_conc (c_buf st) (PopHandler dl at_ (copied ++ [b])) (c_pushed st) (c_kept st) (c_sent st) (c_lost st) (c_window st) (c_torn st))
      else None
  | MvReturn n, PopHandler dl at_ copied =>
      if n <=? zlen copied then
        Some (mk_conc (c_buf st) (PopCalled dl n) (c_pushed st) (c_kept st) (c_sent st ++ take (Z.to_nat n) copied) (c_lost st) (c_window st) (c_torn st))
      else None
  | MvPop, PopCalled dl n =>
      let drained := (0 <? n) && (dl <=? n) in
      Some (mk_conc (pop_finish (c_buf st) dl n).2 PopIdle (c_pushed st)
        (if drained then take (length (c_kept st) - length (c_window st)) (c_kept st) else c_kept st)
        (c_sent st) (if drained then c_lost st ++ c_window st else c_lost st) [] (c_torn st))
  | _, _ => None
  end.

Fixpoint conc_run (BufferSize : Z) (ms : list conc_move) (st : conc) : option conc :=
  match ms with [] => Some st | m :: ms' => st' ← conc_do BufferSize m st; conc_run BufferSize ms' st' end.

Lemma conc_do_step B m st st' : conc_do B m st = Some st' -> conc_step B st st'.
Proof.
  unfold conc_do. destruct m as [d| |n].
  - destruct (push B (c_buf st) d) as [ok sb'] eqn:Hp. intros [= <-]. by apply step_push.
  - destruct (c_pc st) as [|dl|dl at_ cp|dl n] eqn:Hpc.
    + intros [= <-]. by apply step_pop_read.
    + intros [= <-]. by apply step_pop_address.
    + destruct (Z.ltb_spec (zlen cp) dl); [|done]. destruct (zget _ _) as [b|] eqn:Hb; [|done]. intros [= <-]. by eapply step_pop_copy.
    + intros [= <-]. by apply step_pop_finish.
  - destruct (c_pc st) as [|dl|dl at_ cp|dl k] eqn:Hpc; try done. destruct (Z.leb_spec n (zlen cp)); [|done]. intros [= <-]. by eapply step_pop_return.
Qed.

Lemma conc_run_steps B ms st st' : conc_run B ms st = Some st' -> rtc (conc_step B) st st'.
Proof.
  revert st. induction ms as [|m ms IH]; intros st; cbn [conc_run]; [by intros [= ->]|]. destruct (conc_do B m st) as [st1|] eqn:Hm; cbn; [|done].
  intros Hr. eapply rtc_l; [by eapply conc_do_step|by apply IH].
Qed.

(** The race: a push between the two critical sections of a [pop] that drains. *)
Definition race_end : conc :=
  mk_conc (mk_SendBuffer 0 0 (x41 :: x42 :: replicate 6 x00)) PopIdle [x41; x42] [x41] [x41] [x42] [] false.

Lemma race_reachable : rtc (conc_step 8) (conc_init 8) race_end.
Proof. apply (conc_run_steps 8 [MvPush [x41]; MvPop; MvPop; MvPush [x42]; MvPop; MvReturn 1; MvPop]). vm_compute. reflexivity. Qed.

Lemma concurrent_pop_accounting_witness :
  zlen (c_lost race_end) = 1 /\ zlen (c_pushed race_end) = zlen (c_sent race_end) + zlen (contents (c_buf race_end)) + zlen (c_lost race_end) /\
  (c_torn race_end = false -> c_sent race_end ++ contents (c_buf race_end) `sublist_of` c_pushed race_end).
Proof.
  split; [reflexivity|]. apply (concurrent_pop_accounting 8 race_end); [unfold INT_MAX; lia|apply race_reachable|reflexivity].
Defined.

(** The window of [pop] is a real loss: a push that succeeds (returns true) while the
    handler runs, followed by the [dataHead = dataTail = 0] of a [pop] that sent everything it
    had read, is dropped: the buffer ends empty and the accepted byte was never sent. *)
Theorem pop_race_drops_accepted_bytes :
  exists st, rtc (conc_step 8) (conc_init 8) st /\ c_pc st = PopIdle /\
    contents (c_buf st) = [] /\ c_pushed st = [x41; x42] /\ c_sent st = [x41].
Proof. exists race_end. split; [apply race_reachable|done]. Qed.

(** A push that makes room between the reading of the head and the handler's reading of the bytes
    sends others: of A to I, C and D are never sent, F and G twice. *)
Definition torn_end : conc :=
  mk_conc (mk_SendBuffer 3 7 [x43; x44; x45; x46; x47; x48; x49; x00]) PopIdle
    [x41; x42; x43; x44; x45; x46; x47; x48; x49] [x41; x42; x43; x44; x45; x46; x47; x48; x49] [x41; x42; x45; x46; x47] [] [] true.

Theorem pop_race_sends_moved_bytes :
  rtc (conc_step 8) (conc_init 8) torn_end /\ c_pushed torn_end = [x41; x42; x43; x44; x45; x46; x47; x48; x49] /\
  c_sent torn_end = [x41; x42; x45; x46; x47] /\ contents (c_buf torn_end) = [x46; x47; x48; x49].
Proof.
  split; [|done]. apply (conc_run_steps 8 [MvPush [x41; x42; x43; x44; x45; x46]; MvPop; MvPop; MvPop; MvPop; MvReturn 2; MvPop;
    MvPop; MvPop; MvPush [x47; x48; x49]; MvPop; MvPop; MvPop; MvReturn 3; MvPop]). vm_compute. reflexivity.
Qed.
