(* ===== verification/QueueSpec.v ===== *)
(** * What a message queue promises

    The interface the queues of libs/ share: an enqueue that may refuse, a dequeue that may
    find nothing, and a list the queue stands for.  Clients are proved against the class;
    each implementation proves the instance. *)

From S2P Require Import Prelude.

Class FifoQueue (Q T : Type) := {
  fifo_enqueue : Q -> T -> bool * Q;
  fifo_dequeue : Q -> outcome (option T * Q);
  (** [fifo_rep q l]: the queue is well formed and holds [l], front first. *)
  fifo_rep : Q -> list T -> Prop;
  fifo_enqueue_law : forall q l v, fifo_rep q l ->
    let '(ok, q') := fifo_enqueue q v in
    fifo_rep q' (if ok : bool then l ++ [v] else l);
  fifo_dequeue_law : forall q l, fifo_rep q l ->
    exists q', fifo_dequeue q = Ok (head l, q') /\ fifo_rep q' (tail l)
}.

Section Client.
Context {Q T : Type} `{FifoQueue Q T}.

Inductive queue_call := CallEnqueue (v : T) | CallDequeue.

(** Runs the calls; the values accepted and the values delivered, in order. *)
Fixpoint run_calls (q : Q) (cs : list queue_call) : outcome (Q * list T * list T) :=
  match cs with
  | [] => Ok (q, [], [])
  | CallEnqueue v :: cs' =>
      let '(ok, q') := fifo_enqueue q v in
      match run_calls q' cs' with
      | Ok (q'', acc, out) => Ok (q'', (if ok then v :: acc else acc), out)
      | r => r
      end
  | CallDequeue :: cs' =>
      match fifo_dequeue q with
      | Ok (o, q') =>
          match run_calls q' cs' with
          | Ok (q'', acc, out) => Ok (q'', acc, option_list o ++ out)
          | r => r
          end
      | Throw e => Throw e | ThrowStd => ThrowStd
      | AssertFail => AssertFail | Undefined => Undefined | OutOfFuel => OutOfFuel
      end
  end.

(** First in, first out, no value lost or delivered twice, and no call is undefined. *)
Lemma run_calls_fifo cs q l :
  fifo_rep q l ->
  exists q' acc out rest, run_calls q cs = Ok (q', acc, out) /\
    fifo_rep q' rest /\ l ++ acc = out ++ rest.
Proof.
  revert q l. induction cs as [|[v|] cs IH]; intros q l Hrep; cbn.
  - exists q, [], [], l. by rewrite app_nil_r.
  - pose proof (fifo_enqueue_law q l v Hrep) as He.
    destruct (fifo_enqueue q v) as [ok q1].
    destruct (IH _ _ He) as (q'&acc&out&rest&->&Hr&Heq).
    exists q', (if ok then v :: acc else acc), out, rest. split_and!; [done..|].
    rewrite <- Heq. destruct ok; [by rewrite <- app_assoc|done].
  - destruct (fifo_dequeue_law q l Hrep) as (q1&->&Hr1).
    destruct (IH _ _ Hr1) as (q'&acc&out&rest&->&Hr&Heq).
    exists q', acc, (option_list (head l) ++ out), rest. split_and!; [done..|].
    destruct l as [|x l]; cbn in *; by rewrite Heq.
Qed.
End Client.
Arguments queue_call : clear implicits.
