(* ===== verification/SpscQueue.v ===== *)
(** * The ring queue between a processor and the application thread: libs/spscqueue.hpp

    A bounded single-producer single-consumer queue with one slot always empty.  A slot of
    the malloc'ed array either holds a constructed object ([Some]) or raw memory ([None]).
    The first part gives every operation as the code has it and proves it against a list;
    the second interleaves the loads and stores of one producer and one consumer
    (sequentially consistent, which is what the release/acquire pairs on the two indices
    give to these accesses). *)

From S2P Require Import Prelude QueueSpec.

Section Spsc.
Context {T : Type}.

Record spscqueue := mk_spscqueue {
  size_ : Z;                  (** uint32_t *)
  records_ : list (option T);
  readIndex_ : Z;             (** atomic<int> *)
  writeIndex_ : Z             (** atomic<int> *)
}.

(** The constructor; [malloc_ok] says whether [malloc] returned memory. *)
Definition spscqueue_new (malloc_ok : bool) (dbg : bool) (size : Z) : outcome spscqueue :=
  let n := u32 (size + 1) in
  if dbg && negb (1 <=? size) then AssertFail
  else if malloc_ok then Ok (mk_spscqueue n (replicate (Z.to_nat n) None) 0 0)
  else ThrowStd.

(** [nextRecord = i + 1; if (nextRecord == size_) nextRecord = 0;] an [int] compared with
    a [uint32_t]. *)
Definition next_record (n i : Z) : Z := if u32 (i + 1) =? n then 0 else i + 1.

Definition enqueue (q : spscqueue) (v : T) : bool * spscqueue :=
  let currentWrite := writeIndex_ q in
  let nextRecord := next_record (size_ q) currentWrite in
  if negb (nextRecord =? readIndex_ q) then
    (true, mk_spscqueue (size_ q) (zset (records_ q) currentWrite (Some v)) (readIndex_ q) nextRecord)
  else (false, q).

(** [try_dequeue]: the value moved out, if any.  Moving from raw memory is undefined. *)
Definition try_dequeue (q : spscqueue) : outcome (option T * spscqueue) :=
  let currentRead := readIndex_ q in
  if currentRead =? writeIndex_ q then Ok (None, q)
  else
    let nextRecord := next_record (size_ q) currentRead in
    match zget (records_ q) currentRead with
    | Some (Some v) =>
        Ok (Some v, mk_spscqueue (size_ q) (zset (records_ q) currentRead None) nextRecord (writeIndex_ q))
    | _ => Undefined
    end.

(** [frontPtr]: the slot of the front element, or null. *)
Definition frontPtr (q : spscqueue) : option Z :=
  if readIndex_ q =? writeIndex_ q then None else Some (readIndex_ q).

Definition popFront (dbg : bool) (q : spscqueue) : outcome spscqueue :=
  let currentRead := readIndex_ q in
  if dbg && (currentRead =? writeIndex_ q) then AssertFail
  else
    let nextRecord := next_record (size_ q) currentRead in
    match zget (records_ q) currentRead with
    | Some (Some _) =>
        Ok (mk_spscqueue (size_ q) (zset (records_ q) currentRead None) nextRecord (writeIndex_ q))
    | _ => Undefined
    end.

Definition isEmpty (q : spscqueue) : bool := readIndex_ q =? writeIndex_ q.

Definition isFull (q : spscqueue) : bool :=
  next_record (size_ q) (writeIndex_ q) =? readIndex_ q.

(** [int ret = w - r; if (ret < 0) ret += size_;] the addition is done in [uint32_t] and
    narrowed back to [int]. *)
Definition sizeGuess (q : spscqueue) : Z :=
  let ret := writeIndex_ q - readIndex_ q in
  if ret <? 0 then i32 (u32 (ret + size_ q)) else ret.

(** The destructor's loop: the objects it destroys, in order ([None] when the fuel ends). *)
Fixpoint destroy_loop (fuel : nat) (q : spscqueue) (read : Z) : option (list (option T)) :=
  if read =? writeIndex_ q then Some []
  else match fuel with
       | O => None
       | S fuel' =>
           match zget (records_ q) read, destroy_loop fuel' q (next_record (size_ q) read) with
           | Some c, Some cs => Some (c :: cs)
           | _, _ => None
           end
       end.

(** ** The queue as a list *)

(** [q] holds [l]: slot [read + k] (around the ring) holds the [k]-th element. *)
Definition ring_idx (q : spscqueue) (l : list T) : Prop :=
  0 <= readIndex_ q < size_ q /\ size_ q <= INT_MAX /\
  writeIndex_ q = (readIndex_ q + zlen l) mod size_ q /\
  zlen l < size_ q /\ zlen (records_ q) = size_ q.

Definition ring_rep (q : spscqueue) (l : list T) : Prop :=
  ring_idx q l /\
  forall k, 0 <= k < size_ q ->
    zget (records_ q) ((readIndex_ q + k) mod size_ q) = Some (l !! Z.to_nat k).

Lemma next_record_mod n i : 0 <= i < n -> n <= INT_MAX -> next_record n i = (i + 1) mod n.
Proof.
  intros Hi Hn. unfold next_record, INT_MAX in *. rewrite u32_small by lia.
  destruct (Z.eqb_spec (i + 1) n) as [->|?].
  - by rewrite Z.mod_same by lia.
  - by rewrite Z.mod_small by lia.
Qed.

Lemma ring_offset_inj n r k k' :
  0 <= k < n -> 0 <= k' < n -> (r + k) mod n = (r + k') mod n -> k = k'.
Proof.
  intros Hk Hk' H.
  assert (Hd : (k - k') mod n = 0).
  { replace (k - k') with ((r + k) - (r + k')) by lia.
    rewrite Zminus_mod, H, Z.sub_diag. apply Z.mod_0_l. lia. }
  apply mod_0_small in Hd; lia.
Qed.

Lemma ring_step_mod n r k : 0 < n -> ((r + 1) mod n + k) mod n = (r + (k + 1)) mod n.
Proof. intros. rewrite Z.add_mod_idemp_l by lia. f_equal. lia. Qed.

Lemma ring_range n r k : 0 < n -> 0 <= (r + k) mod n < n.
Proof. intros. apply Z.mod_pos_bound. lia. Qed.

(** Writing the slot at offset [k0] and reading the one at [k]. *)
Lemma ring_zset (recs : list (option T)) n r k0 k x :
  0 < n -> zlen recs = n -> 0 <= k0 < n -> 0 <= k < n ->
  zget (zset recs ((r + k0) mod n) x) ((r + k) mod n)
  = if decide (k = k0) then Some x else zget recs ((r + k) mod n).
Proof.
  intros Hn Hl Hk0 Hk. case_decide as E.
  - subst. apply zget_zset_eq. pose proof (ring_range (zlen recs) r k0 Hn). lia.
  - apply zget_zset_ne. intros H. apply E. symmetry. by eapply ring_offset_inj.
Qed.

Lemma ring_full q l :
  ring_idx q l -> isFull q = true <-> zlen l = size_ q - 1.
Proof.
  intros (Hr&Hn&Hw&Hl&_). unfold isFull.
  assert (Hwr : 0 <= writeIndex_ q < size_ q) by (rewrite Hw; apply Z.mod_pos_bound; lia).
  rewrite next_record_mod by done. rewrite Hw, Z.add_mod_idemp_l by lia.
  rewrite Z.eqb_eq. rewrite <- Z.add_assoc. split.
  - intros H. rewrite <- (Z.mod_small (readIndex_ q) (size_ q)) in H at 2 by lia.
    assert (Hd : (zlen l + 1 - size_ q) mod size_ q = 0).
    { replace (zlen l + 1 - size_ q)
        with (readIndex_ q + (zlen l + 1) - readIndex_ q + (-1) * size_ q) by lia.
      rewrite Z.mod_add, Zminus_mod, H, Z.sub_diag by lia. apply Z.mod_0_l. lia. }
    apply mod_0_small in Hd; lia.
  - intros ->. replace (readIndex_ q + (size_ q - 1 + 1)) with (readIndex_ q + 1 * size_ q) by lia.
    rewrite Z.mod_add by lia. by apply Z.mod_small.
Qed.

Lemma ring_empty q l : ring_idx q l -> isEmpty q = true <-> l = [].
Proof.
  intros (Hr&Hn&Hw&Hl&_). unfold isEmpty. rewrite Z.eqb_eq. split.
  - intros H. rewrite Hw in H. apply nil_length_inv.
    assert (0 = zlen l); [|lia].
    apply (ring_offset_inj (size_ q) (readIndex_ q)); [lia..|].
    rewrite Z.add_0_r, (Z.mod_small (readIndex_ q)) by lia. lia.
  - intros ->. rewrite Hw. cbn. rewrite Z.add_0_r, Z.mod_small; lia.
Qed.

Lemma enqueue_rep q l v :
  ring_rep q l -> zlen l < size_ q - 1 -> ring_rep (enqueue q v).2 (l ++ [v]).
Proof.
  intros Hrep Hroom. pose proof (ring_full q l (proj1 Hrep)) as Hf.
  destruct Hrep as ((Hr&Hn&Hw&Hl&Hlen)&Hcell). unfold enqueue. unfold isFull in Hf.
  destruct (Z.eqb_spec (next_record (size_ q) (writeIndex_ q)) (readIndex_ q)) as [E|E].
  { destruct Hf as [Hf _]. specialize (Hf eq_refl). lia. }
  assert (Hwr : 0 <= writeIndex_ q < size_ q) by (rewrite Hw; apply Z.mod_pos_bound; lia).
  cbn [negb snd]. rewrite next_record_mod by done.
  unfold ring_rep, ring_idx; cbn -[Z.modulo]. rewrite length_app; cbn [length].
  split_and!; [lia..| |lia| |].
  - rewrite Hw, Z.add_mod_idemp_l by lia. f_equal. lia.
  - by rewrite length_zset.
  - intros k Hk. rewrite Hw, ring_zset by lia. case_decide as Ek.
    + rewrite Ek, Nat2Z.id, lookup_app_r, Nat.sub_diag; done.
    + rewrite Hcell by lia. f_equal.
      destruct (Z.lt_ge_cases k (zlen l)).
      * rewrite lookup_app_l; [done|lia].
      * rewrite !lookup_ge_None_2; [done| rewrite length_app; cbn; lia | lia].
Qed.

Lemma dequeue_cell q x l :
  ring_rep q (x :: l) -> zget (records_ q) (readIndex_ q) = Some (Some x).
Proof.
  intros ((Hr&Hn&Hw&Hl&Hlen)&Hcell). specialize (Hcell 0 ltac:(lia)).
  by rewrite Z.add_0_r, Z.mod_small in Hcell by lia.
Qed.

(** Removing the front: the effect of [try_dequeue] and [popFront] on the slots. *)
Lemma drop_front_rep q x l :
  ring_rep q (x :: l) ->
  ring_rep (mk_spscqueue (size_ q) (zset (records_ q) (readIndex_ q) None)
              (next_record (size_ q) (readIndex_ q)) (writeIndex_ q)) l.
Proof.
  intros ((Hr&Hn&Hw&Hl&Hlen)&Hcell). rewrite next_record_mod by done.
  unfold ring_rep, ring_idx; cbn -[Z.modulo]. cbn [length] in *.
  split_and!; try lia.
  - apply Z.mod_pos_bound; lia.
  - apply Z.mod_pos_bound; lia.
  - rewrite Hw, ring_step_mod by lia. f_equal. lia.
  - by rewrite length_zset.
  - intros k Hk. rewrite ring_step_mod by lia.
    rewrite <- (Z.mod_small (readIndex_ q) (size_ q)) at 1 by lia.
    rewrite <- (Z.add_0_r (readIndex_ q)) at 1.
    destruct (Z.eq_dec (k + 1) (size_ q)) as [E|E].
    + replace ((readIndex_ q + (k + 1)) mod size_ q) with ((readIndex_ q + 0) mod size_ q).
      * rewrite ring_zset by lia. rewrite decide_True by done.
        rewrite lookup_ge_None_2; [done|lia].
      * rewrite E, Z.add_0_r. symmetry. rewrite <- (Z.mul_1_l (size_ q)) at 1.
        by rewrite Z.mod_add by lia.
    + rewrite ring_zset by lia. rewrite decide_False by lia. rewrite Hcell by lia.
      by replace (Z.to_nat (k + 1)) with (S (Z.to_nat k)) by lia.
Qed.

Lemma sizeGuess_rep q l : ring_idx q l -> sizeGuess q = zlen l.
Proof.
  intros (Hr&Hn&Hw&Hl&_). unfold sizeGuess, INT_MAX in *.
  destruct (Z.lt_ge_cases (readIndex_ q + zlen l) (size_ q)).
  - rewrite Z.mod_small in Hw by lia. rewrite Hw.
    destruct (Z.ltb_spec (readIndex_ q + zlen l - readIndex_ q) 0); lia.
  - assert (Hw' : writeIndex_ q = readIndex_ q + zlen l - size_ q).
    { rewrite Hw. symmetry. apply (Z.mod_unique _ _ 1); lia. }
    rewrite Hw'. destruct (Z.ltb_spec (readIndex_ q + zlen l - size_ q - readIndex_ q) 0); [|lia].
    rewrite u32_small, i32_small; lia.
Qed.

(** Slot [read + k] equals the write index exactly at the end of the elements. *)
Lemma ring_at_end q l k :
  ring_idx q l -> 0 <= k <= zlen l ->
  ((readIndex_ q + k) mod size_ q =? writeIndex_ q) = (k =? zlen l).
Proof.
  intros (Hr&Hn&Hw&Hl&_) Hk. rewrite Hw.
  destruct (Z.eqb_spec k (zlen l)) as [->|E]; [by rewrite Z.eqb_refl|].
  apply Z.eqb_neq. intros H. apply E. eapply ring_offset_inj; [| |exact H]; lia.
Qed.

Lemma destroy_loop_from q l fuel k :
  ring_rep q l -> (k <= length l)%nat -> (length l - k <= fuel)%nat ->
  destroy_loop fuel q ((readIndex_ q + Z.of_nat k) mod size_ q) = Some (Some <$> drop k l).
Proof.
  intros Hrep. revert k. induction fuel as [|fuel IH]; intros k Hk Hf; cbn;
    rewrite (ring_at_end q l) by (apply Hrep || lia).
  - rewrite (proj2 (Z.eqb_eq _ _)) by lia. by rewrite drop_ge by lia.
  - destruct (Z.eqb_spec (Z.of_nat k) (zlen l)) as [E|E].
    { by rewrite drop_ge by lia. }
    pose proof Hrep as ((Hr&Hn&Hw&Hl&_)&Hcell). rewrite Hcell by lia. rewrite Nat2Z.id.
    destruct (lookup_lt_is_Some_2 l k ltac:(lia)) as [x Hx].
    rewrite next_record_mod; [|apply ring_range; lia|done].
    rewrite Z.add_mod_idemp_l by lia.
    replace (readIndex_ q + Z.of_nat k + 1) with (readIndex_ q + Z.of_nat (S k)) by lia.
    rewrite IH by lia. rewrite Hx, (drop_S l x k Hx). done.
Qed.

Lemma destroy_loop_rep q l fuel :
  ring_rep q l -> (length l <= fuel)%nat -> destroy_loop fuel q (readIndex_ q) = Some (Some <$> l).
Proof.
  intros Hrep Hf. pose proof (destroy_loop_from q l fuel 0 Hrep ltac:(lia) ltac:(lia)) as H.
  destruct Hrep as ((Hr&_)&_). cbn in H. rewrite Z.add_0_r, Z.mod_small in H by lia.
  by rewrite drop_0 in H.
Qed.

Lemma spscqueue_new_rep dbg size q :
  0 <= size < INT_MAX -> spscqueue_new true dbg size = Ok q -> size_ q = size + 1 /\ ring_rep q [].
Proof.
  unfold spscqueue_new, INT_MAX. intros Hs H. rewrite u32_small in H by lia.
  destruct (dbg && negb (1 <=? size)); simplify_eq. split; [done|].
  unfold ring_rep, ring_idx, INT_MAX; cbn -[Z.modulo]. rewrite Z.mod_0_l by lia.
  rewrite length_replicate. split_and!; try lia.
  intros k Hk. rewrite Z.add_0_l, Z.mod_small by lia. unfold zget.
  destruct (Z.ltb_spec k 0); [lia|]. rewrite lookup_replicate_2; [done|lia].
Qed.

Lemma try_dequeue_rep q l :
  ring_rep q l ->
  exists q', try_dequeue q = Ok (head l, q') /\ ring_rep q' (tail l) /\ size_ q' = size_ q.
Proof.
  intros Hrep. pose proof (ring_empty q l (proj1 Hrep)) as He. unfold isEmpty in He.
  unfold try_dequeue. destruct (Z.eqb_spec (readIndex_ q) (writeIndex_ q)) as [E|E].
  - destruct He as [He _]. rewrite (He eq_refl) in *. by exists q.
  - destruct l as [|x l]; [destruct He as [_ He]; by specialize (He eq_refl)|].
    rewrite (dequeue_cell q x l Hrep). eexists. split_and!; [done| |done].
    by apply (drop_front_rep q x).
Qed.

Lemma enqueue_cases q l v :
  ring_rep q l ->
  let '(ok, q') := enqueue q v in
  ring_rep q' (if ok then l ++ [v] else l) /\ ok = (zlen l <? size_ q - 1) /\ size_ q' = size_ q.
Proof.
  intros Hrep. pose proof (ring_full q l (proj1 Hrep)) as Hf. unfold isFull in Hf.
  pose proof Hrep as ((Hr&_&_&Hl&_)&_).
  destruct (Z.ltb_spec (zlen l) (size_ q - 1)).
  - pose proof (enqueue_rep q l v Hrep ltac:(lia)) as He. unfold enqueue in *.
    destruct (_ =? readIndex_ q); cbn in *; [|done].
    destruct Hf as [Hf _]. specialize (Hf eq_refl). lia.
  - unfold enqueue. destruct (_ =? readIndex_ q); cbn in *; [done|].
    destruct Hf as [_ Hf]. specialize (Hf ltac:(lia)). done.
Qed.

Lemma spsc_enqueue_law q l v :
  ring_rep q l -> let '(ok, q') := enqueue q v in ring_rep q' (if ok : bool then l ++ [v] else l).
Proof. intros Hrep. pose proof (enqueue_cases q l v Hrep) as H. destruct (enqueue q v). tauto. Qed.

Lemma spsc_dequeue_law q l :
  ring_rep q l -> exists q', try_dequeue q = Ok (head l, q') /\ ring_rep q' (tail l).
Proof. intros Hrep. destruct (try_dequeue_rep q l Hrep) as (q'&?&?&_). by exists q'. Qed.

#[export] Instance spsc_fifo : FifoQueue spscqueue T := {|
  fifo_enqueue := enqueue; fifo_dequeue := try_dequeue; fifo_rep := ring_rep;
  fifo_enqueue_law := spsc_enqueue_law; fifo_dequeue_law := spsc_dequeue_law |}.

(** ** One producer and one consumer, access by access *)

(** Where the producer is inside [enqueue v]. *)
Inductive producer_pc :=
| PIdle
| PLoaded (v : T) (currentWrite : Z)
| PRoom (v : T) (currentWrite nextRecord : Z)
| PBuilt (v : T) (currentWrite nextRecord : Z).

(** Where the consumer is inside [try_dequeue]; [CBad] is a move from raw memory. *)
Inductive consumer_pc :=
| CIdle
| CLoaded (currentRead : Z)
| CReady (currentRead : Z)
| CMoved (currentRead : Z) (v : T)
| CBad.

Record spsc_sys := mk_sys {
  s_q : spscqueue;
  s_prod : producer_pc;
  s_cons : consumer_pc;
  s_in : list T;     (** values whose [enqueue] has published them *)
  s_out : list T     (** values whose [try_dequeue] has returned *)
}.

Definition set_q (s : spsc_sys) (q : spscqueue) : spsc_sys :=
  mk_sys q (s_prod s) (s_cons s) (s_in s) (s_out s).
Definition set_prod (s : spsc_sys) (p : producer_pc) : spsc_sys :=
  mk_sys (s_q s) p (s_cons s) (s_in s) (s_out s).
Definition set_cons (s : spsc_sys) (c : consumer_pc) : spsc_sys :=
  mk_sys (s_q s) (s_prod s) c (s_in s) (s_out s).

Definition with_records (q : spscqueue) (r : list (option T)) : spscqueue :=
  mk_spscqueue (size_ q) r (readIndex_ q) (writeIndex_ q).
Definition with_read (q : spscqueue) (i : Z) : spscqueue :=
  mk_spscqueue (size_ q) (records_ q) i (writeIndex_ q).
Definition with_write (q : spscqueue) (i : Z) : spscqueue :=
  mk_spscqueue (size_ q) (records_ q) (readIndex_ q) i.

Inductive spsc_step : spsc_sys -> spsc_sys -> Prop :=
| p_load s v :
    s_prod s = PIdle -> spsc_step s (set_prod s (PLoaded v (writeIndex_ (s_q s))))
| p_check s v w :
    s_prod s = PLoaded v w ->
    let nx := next_record (size_ (s_q s)) w in
    spsc_step s (set_prod s (if nx =? readIndex_ (s_q s) then PIdle else PRoom v w nx))
| p_build s v w nx :
    s_prod s = PRoom v w nx ->
    spsc_step s (set_prod (set_q s (with_records (s_q s) (zset (records_ (s_q s)) w (Some v))))
                   (PBuilt v w nx))
| p_publish s v w nx :
    s_prod s = PBuilt v w nx ->
    spsc_step s (mk_sys (with_write (s_q s) nx) PIdle (s_cons s) (s_in s ++ [v]) (s_out s))
| c_load s :
    s_cons s = CIdle -> spsc_step s (set_cons s (CLoaded (readIndex_ (s_q s))))
| c_check s r :
    s_cons s = CLoaded r ->
    spsc_step s (set_cons s (if r =? writeIndex_ (s_q s) then CIdle else CReady r))
| c_move s r :
    s_cons s = CReady r ->
    spsc_step s
      match zget (records_ (s_q s)) r with
      | Some (Some v) =>
          set_cons (set_q s (with_records (s_q s) (zset (records_ (s_q s)) r None))) (CMoved r v)
      | _ => set_cons s CBad
      end
| c_release s r v :
    s_cons s = CMoved r v ->
    spsc_step s (mk_sys (with_read (s_q s) (next_record (size_ (s_q s)) r)) (s_prod s) CIdle
                   (s_in s) (s_out s ++ [v])).

(** What slot [read + k] holds while both threads are under way. *)
Definition expected_slot (s : spsc_sys) (l : list T) (k : Z) : option T :=
  match s_cons s with
  | CMoved _ _ => if k =? 0 then None
                  else match s_prod s with
                       | PBuilt v _ _ => if k =? zlen l then Some v else l !! Z.to_nat k
                       | _ => l !! Z.to_nat k
                       end
  | _ => match s_prod s with
         | PBuilt v _ _ => if k =? zlen l then Some v else l !! Z.to_nat k
         | _ => l !! Z.to_nat k
         end
  end.

Definition producer_ok (s : spsc_sys) (l : list T) : Prop :=
  match s_prod s with
  | PIdle => True
  | PLoaded _ w => w = writeIndex_ (s_q s)
  | PRoom _ w nx | PBuilt _ w nx =>
      w = writeIndex_ (s_q s) /\ nx = (w + 1) mod size_ (s_q s) /\ zlen l < size_ (s_q s) - 1
  end.

Definition consumer_ok (s : spsc_sys) (l : list T) : Prop :=
  match s_cons s with
  | CIdle => True
  | CLoaded r => r = readIndex_ (s_q s)
  | CReady r => r = readIndex_ (s_q s) /\ l <> []
  | CMoved r v => r = readIndex_ (s_q s) /\ head l = Some v
  | CBad => False
  end.

(** [l] is the published, not yet released part of the queue. *)
Definition spsc_inv (s : spsc_sys) : Prop :=
  exists l, let q := s_q s in
  ring_idx q l /\
  (forall k, 0 <= k < size_ q ->
     zget (records_ q) ((readIndex_ q + k) mod size_ q) = Some (expected_slot s l k)) /\
  producer_ok s l /\ consumer_ok s l /\ s_in s = s_out s ++ l.

(** The slot just past the elements is the one the producer fills. *)
Lemma write_slot q l : ring_idx q l -> writeIndex_ q = (readIndex_ q + zlen l) mod size_ q.
Proof. by intros (_&_&?&_). Qed.

Lemma read_slot q l : ring_idx q l -> readIndex_ q = (readIndex_ q + 0) mod size_ q.
Proof. intros (?&_). rewrite Z.add_0_r, Z.mod_small; lia. Qed.

Ltac open_inv H :=
  destruct H as (l & Hidx & Hcell & Hp & Hc & Hio);
  pose proof Hidx as (Hr & Hn & Hw & Hl & Hlen).

Lemma p_check_inv s v w :
  spsc_inv s -> s_prod s = PLoaded v w ->
  let nx := next_record (size_ (s_q s)) w in
  spsc_inv (set_prod s (if nx =? readIndex_ (s_q s) then PIdle else PRoom v w nx)).
Proof.
  intros H E nx. open_inv H. unfold producer_ok in Hp. rewrite E in Hp. subst w.
  exists l. cbn. split; [done|]. split.
  { intros k Hk. rewrite Hcell by done. unfold expected_slot. cbn. rewrite E.
    by destruct (nx =? _). }
  split; [|done]. unfold producer_ok; cbn. destruct (nx =? readIndex_ (s_q s)) eqn:Enx; [done|].
  assert (Hwr : 0 <= writeIndex_ (s_q s) < size_ (s_q s)) by (rewrite Hw; apply Z.mod_pos_bound; lia).
  split_and!; [done| by apply next_record_mod |].
  assert (isFull (s_q s) <> true) as Hnf by (unfold isFull; fold nx; by rewrite Enx).
  rewrite (ring_full _ _ Hidx) in Hnf. lia.
Qed.

Lemma p_build_inv s v w nx :
  spsc_inv s -> s_prod s = PRoom v w nx ->
  spsc_inv (set_prod (set_q s (with_records (s_q s) (zset (records_ (s_q s)) w (Some v))))
              (PBuilt v w nx)).
Proof.
  intros H E. open_inv H. unfold producer_ok in Hp. rewrite E in Hp. destruct Hp as (->&->&Hroom).
  exists l. cbn -[Z.modulo]. split.
  { unfold ring_idx; cbn -[Z.modulo]. by rewrite length_zset. }
  split; [|done]. intros k Hk. rewrite Hw, ring_zset by lia.
  rewrite Hcell by done. unfold expected_slot; cbn. rewrite E.
  destruct (s_cons s) eqn:Ec; try (by case_decide; destruct (Z.eqb_spec k (zlen l)); subst).
  unfold consumer_ok in Hc. rewrite Ec in Hc. destruct Hc as [_ Hhd].
  destruct l as [|x l]; [done|]. cbn [length] in *.
  case_decide; destruct (Z.eqb_spec k 0), (Z.eqb_spec k (Z.of_nat (S (length l)))); subst; done || lia.
Qed.

Lemma p_publish_inv s v w nx :
  spsc_inv s -> s_prod s = PBuilt v w nx ->
  spsc_inv (mk_sys (with_write (s_q s) nx) PIdle (s_cons s) (s_in s ++ [v]) (s_out s)).
Proof.
  intros H E. open_inv H. unfold producer_ok in Hp. rewrite E in Hp. destruct Hp as (->&->&Hroom).
  exists (l ++ [v]). cbn -[Z.modulo]. split_and!.
  - unfold ring_idx; cbn -[Z.modulo]. rewrite length_app; cbn [length].
    rewrite Hw, Z.add_mod_idemp_l by lia. split_and!; try lia. f_equal. lia.
  - intros k Hk. rewrite Hcell by done. unfold expected_slot; cbn. rewrite E.
    assert (Hsnoc : (if k =? zlen l then Some v else l !! Z.to_nat k) = (l ++ [v]) !! Z.to_nat k).
    { destruct (Z.eqb_spec k (zlen l)) as [->|?].
      - rewrite Nat2Z.id, lookup_app_r, Nat.sub_diag; done.
      - destruct (Z.lt_ge_cases k (zlen l)); [rewrite lookup_app_l; [done|lia]|].
        rewrite !lookup_ge_None_2; [done|rewrite length_app; cbn; lia|lia]. }
    rewrite Hsnoc. by destruct (s_cons s).
  - done.
  - unfold consumer_ok in *; cbn.
    destruct (s_cons s); try done; destruct Hc as [-> ?]; (split; [done|]); by destruct l.
  - by rewrite Hio, app_assoc.
Qed.

Lemma c_move_inv s r :
  spsc_inv s -> s_cons s = CReady r ->
  spsc_inv match zget (records_ (s_q s)) r with
           | Some (Some v) =>
               set_cons (set_q s (with_records (s_q s) (zset (records_ (s_q s)) r None))) (CMoved r v)
           | _ => set_cons s CBad
           end.
Proof.
  intros H E. open_inv H. unfold consumer_ok in Hc. rewrite E in Hc. destruct Hc as (->&Hne).
  destruct l as [|x l]; [done|].
  assert (Hx : zget (records_ (s_q s)) (readIndex_ (s_q s)) = Some (Some x)).
  { rewrite (read_slot _ _ Hidx), Hcell by lia. unfold expected_slot. rewrite E.
    by destruct (s_prod s). }
  rewrite Hx. exists (x :: l). cbn -[Z.modulo length]. split.
  { unfold ring_idx; cbn -[Z.modulo length]. by rewrite length_zset. }
  split_and!; [|done..]. intros k Hk.
  rewrite (read_slot _ _ Hidx) at 1. rewrite ring_zset by lia. rewrite Hcell by done.
  unfold expected_slot; cbn -[length]. rewrite E.
  case_decide; destruct (Z.eqb_spec k 0); try done; lia.
Qed.

Lemma c_release_inv s r v :
  spsc_inv s -> s_cons s = CMoved r v ->
  spsc_inv (mk_sys (with_read (s_q s) (next_record (size_ (s_q s)) r)) (s_prod s) CIdle
              (s_in s) (s_out s ++ [v])).
Proof.
  intros H E. open_inv H. unfold consumer_ok in Hc. rewrite E in Hc. destruct Hc as (->&Hhd).
  destruct l as [|x l]; [done|]. simplify_eq/=.
  assert (Hrec : zlen (records_ (s_q s)) = size_ (s_q s)) by done.
  rewrite next_record_mod by done. exists l. cbn -[Z.modulo]. split_and!; [| | |done|].
  - unfold ring_idx; cbn -[Z.modulo]. rewrite ring_step_mod by lia.
    pose proof (Z.mod_pos_bound (readIndex_ (s_q s) + 1) (size_ (s_q s)) ltac:(lia)).
    split_and!; lia.
  - intros k Hk. rewrite ring_step_mod by lia. destruct (Z.eq_dec (k + 1) (size_ (s_q s))) as [Ek|Ek].
    + replace ((readIndex_ (s_q s) + (k + 1)) mod size_ (s_q s))
        with ((readIndex_ (s_q s) + 0) mod size_ (s_q s)).
      2:{ rewrite Ek, Z.add_0_r. symmetry. rewrite <- (Z.mul_1_l (size_ (s_q s))) at 1.
          by rewrite Z.mod_add by lia. }
      rewrite Hcell by lia. unfold expected_slot; cbn. rewrite E. cbn.
      rewrite lookup_ge_None_2 by lia. destruct (s_prod s) eqn:Ep; try done.
      unfold producer_ok in Hp. rewrite Ep in Hp.
      destruct (Z.eqb_spec k (zlen l)); [cbn [length] in *; lia|done].
    + rewrite Hcell by lia. unfold expected_slot; cbn [s_cons s_prod]. rewrite E.
      destruct (Z.eqb_spec (k + 1) 0); [lia|].
      replace (Z.to_nat (k + 1)) with (S (Z.to_nat k)) by lia. cbn [lookup list_lookup].
      destruct (s_prod s); try done. cbn [length].
      by destruct (Z.eqb_spec (k + 1) (Z.of_nat (S (length l)))), (Z.eqb_spec k (zlen l)); try lia.
  - unfold producer_ok in *; cbn -[Z.modulo]. cbn [length] in *. destruct (s_prod s); try done; lia.
  - by rewrite Hio, <- app_assoc.
Qed.

Lemma spsc_step_inv s s' : spsc_inv s -> spsc_step s s' -> spsc_inv s'.
Proof.
  intros H Hs. destruct Hs as [s v E|s v w E nx|s v w nx E|s v w nx E|s E|s r E|s r E|s r v E].
  - open_inv H. exists l. cbn. split_and!; try done. intros k Hk. rewrite Hcell by done.
    unfold expected_slot; cbn. by rewrite E.
  - by apply p_check_inv.
  - by apply p_build_inv.
  - by eapply p_publish_inv.
  - open_inv H. exists l. cbn. split_and!; try done. intros k Hk. rewrite Hcell by done.
    unfold expected_slot; cbn. by rewrite E.
  - open_inv H. unfold consumer_ok in Hc. rewrite E in Hc. subst r.
    exists l. cbn. split_and!; try done.
    + intros k Hk. rewrite Hcell by done. unfold expected_slot; cbn. rewrite E.
      by destruct (readIndex_ (s_q s) =? writeIndex_ (s_q s)).
    + unfold consumer_ok; cbn.
      destruct (readIndex_ (s_q s) =? writeIndex_ (s_q s)) eqn:Er; [done|]. split; [done|].
      rewrite <- (ring_empty _ _ Hidx). unfold isEmpty. by rewrite Er.
  - by apply c_move_inv.
  - by eapply c_release_inv.
Qed.

Lemma spsc_init_inv q : ring_rep q [] -> spsc_inv (mk_sys q PIdle CIdle [] []).
Proof. intros (Hidx&Hcell). exists []. cbn. by split_and!. Qed.
End Spsc.
Arguments spscqueue : clear implicits.
Arguments spsc_sys : clear implicits.

(** ** Properties *)

(** Functional correctness of [spscqueue] against a list, over every sequence of
    [enqueue] and [try_dequeue] calls from the constructor: no call is undefined, the values
    accepted come out in order, none lost or delivered twice, and what is left is in the ring. *)
Theorem spscqueue_fifo {T : Type} (size : Z) (dbg : bool) (q : spscqueue T) (cs : list (queue_call T)) :
  0 <= size < INT_MAX -> spscqueue_new true dbg size = Ok q ->
  exists q' accepted delivered rest,
    run_calls q cs = Ok (q', accepted, delivered) /\
    ring_rep q' rest /\ accepted = delivered ++ rest.
Proof.
  intros Hs Hq. destruct (spscqueue_new_rep dbg size q Hs Hq) as [_ Hrep].
  exact (run_calls_fifo cs q [] (Hrep : fifo_rep q [])).
Qed.

Lemma spscqueue_fifo_witness :
  exists q' accepted delivered rest,
    run_calls (mk_spscqueue 3 [None; None; None] 0 0)
      [CallEnqueue 7; CallEnqueue 8; CallEnqueue 9; CallDequeue; CallEnqueue 10; CallDequeue]
    = Ok (q', accepted, delivered) /\ ring_rep q' rest /\ accepted = delivered ++ rest.
Proof.
  apply (spscqueue_fifo 2 true (mk_spscqueue 3 [None; None; None] 0 0)); [unfold INT_MAX; lia|].
  reflexivity.
Defined.

(** The observers and the single operations of a queue of capacity [size_ - 1]: [enqueue]
    succeeds exactly below the capacity, [isEmpty], [isFull] and [sizeGuess] are exact when no
    other thread runs, and the destructor destroys exactly the remaining elements, in order. *)
Theorem spscqueue_observers {T : Type} (q : spscqueue T) (l : list T) (v : T) :
  ring_rep q l ->
  (enqueue q v).1 = (zlen l <? size_ q - 1) /\
  (isEmpty q = true <-> l = []) /\
  (isFull q = true <-> zlen l = size_ q - 1) /\
  sizeGuess q = zlen l /\
  destroy_loop (length l) q (readIndex_ q) = Some (Some <$> l).
Proof.
  intros Hrep. pose proof (enqueue_cases q l v Hrep) as He. destruct (enqueue q v) as [ok q'].
  split_and!; [apply He|apply ring_empty|apply ring_full|apply sizeGuess_rep|apply destroy_loop_rep];
    (apply Hrep || lia).
Qed.

Lemma spscqueue_observers_witness :
  let q := mk_spscqueue 3 [Some 5; None; Some 4] 2 1 in
  sizeGuess q = 2 /\ destroy_loop 2 q 2 = Some [Some 4; Some 5].
Proof.
  intros q.
  assert (Hrep : ring_rep q [4; 5]).
  { split; [vm_compute; by split_and!|]. intros k Hk. cbn in Hk.
    assert (k = 0 \/ k = 1 \/ k = 2) as [->|[->| ->]] by lia; reflexivity. }
  destruct (spscqueue_observers q [4; 5] 6 Hrep) as (_&_&_&H1&H2). split; [exact H1|exact H2].
Defined.

(** C8. Safety of the lock-free queue under every interleaving of the accesses of one producer
    and one consumer: the consumer never moves from raw memory, and at every moment the
    values published are the values delivered followed by the at most [size_ - 1] values in
    the ring: delivery is in order, without loss or duplication. *)
Theorem spscqueue_concurrent {T : Type} (size : Z) (q : spscqueue T) (s : spsc_sys T) :
  0 <= size < INT_MAX -> spscqueue_new true false size = Ok q ->
  rtc spsc_step (mk_sys q PIdle CIdle [] []) s ->
  s_cons s <> CBad /\ exists l, s_in s = s_out s ++ l /\ zlen l < size_ (s_q s).
Proof.
  intros Hs Hq Hr. destruct (spscqueue_new_rep false size q Hs Hq) as [_ Hrep].
  assert (Hi : spsc_inv s).
  { refine (rtc_invariant _ _ _ _ spsc_step_inv _ Hr). by apply spsc_init_inv. }
  destruct Hi as (l&(_&_&_&Hl&_)&_&_&Hc&Hio). split; [|by exists l].
  intros E. unfold consumer_ok in Hc. by rewrite E in Hc.
Qed.

Lemma spscqueue_concurrent_witness :
  let q : spscqueue bool := mk_spscqueue 2 [None; None] 0 0 in
  let s := mk_sys (mk_spscqueue 2 [Some true; None] 0 1) PIdle (CLoaded 0) [true] [] in
  s_cons s <> CBad /\ exists l, s_in s = s_out s ++ l /\ zlen l < size_ (s_q s).
Proof.
  intros q s. apply (spscqueue_concurrent 1 q s); [unfold INT_MAX; lia|reflexivity|].
  eapply rtc_l. { apply (p_load _ true). reflexivity. }
  eapply rtc_l. { apply (c_load _). reflexivity. }
  eapply rtc_l. { apply (p_check _ true 0). reflexivity. }
  eapply rtc_l. { apply (p_build _ true 0 1). reflexivity. }
  eapply rtc_l. { apply (p_publish _ true 0 1). reflexivity. }
  apply rtc_refl.
Defined.
