(* ===== verification/SpscWeak.v ===== *)
(** * The ring queue under release and acquire

    The operations of libs/spscqueue.hpp on the memory of RelAcq.v, with the orderings the code
    gives to its loads and stores: each thread loads its own index relaxed and the other's with
    acquire, and publishes with release.  The slots are plain memory.  A stale index may be read;
    the theorem is that no access races and that nothing else changes. *)

From S2P Require Import Prelude SpscQueue RelAcq.

Inductive ring_loc := ReadIndex | WriteIndex | Slot (i : Z).

#[export] Instance ring_loc_eq_dec : EqDecision ring_loc.
Proof. solve_decision. Defined.

(** The orderings of [enqueue] and [try_dequeue]. *)
Record spsc_orders := mk_orders { own_index : order; other_index : order; publish : order }.
Definition source_orders : spsc_orders := mk_orders Relaxed Acquire Release.

Section Weak.
Context {T : Type} (ord : spsc_orders) (n : Z).

(** What a location holds: an index, or a slot with or without an object. *)
Inductive ring_val := VIndex (i : Z) | VSlot (o : option T).

Local Abbreviation mem := (memory ring_loc ring_val).
Local Abbreviation rview := (view ring_loc).

(** Where the producer is in [enqueue], and the consumer in [try_dequeue].  [PRace], [CRace]: an
    access that is not ordered with an earlier one; [CRaw]: a move from raw memory. *)
Inductive wp_pc :=
| WPIdle
| WPStart (v : T)
| WPLoaded (v : T) (currentWrite : Z)
| WPRoom (v : T) (currentWrite nextRecord : Z)
| WPBuilt (v : T) (currentWrite nextRecord : Z)
| WPRace.

Inductive wc_pc :=
| WCIdle
| WCStart
| WCLoaded (currentRead : Z)
| WCReady (currentRead : Z)
| WCTaken (currentRead : Z) (v : T)
| WCDestroyed (currentRead : Z) (v : T)
| WCRaw
| WCRace.

(** One access of [enqueue]; a load reads the write number [t]. *)
Definition weak_enqueue (t : nat) (c : wp_pc) (m : mem) (w : rview) : option (wp_pc * mem * rview) :=
  match c with
  | WPStart v =>
      match load_at (own_index ord) WriteIndex t m w with
      | Some (VIndex i, w') => Some (WPLoaded v i, m, w')
      | _ => None
      end
  | WPLoaded v currentWrite =>
      match load_at (other_index ord) ReadIndex t m w with
      | Some (VIndex r, w') =>
          let nextRecord := next_record n currentWrite in
          Some (if nextRecord =? r then WPIdle else WPRoom v currentWrite nextRecord, m, w')
      | _ => None
      end
  | WPRoom v currentWrite nextRecord =>
      match plain_write (Slot currentWrite) (VSlot (Some v)) m w with
      | Some (m', w') => Some (WPBuilt v currentWrite nextRecord, m', w')
      | None => Some (WPRace, m, w)
      end
  | WPBuilt v currentWrite nextRecord =>
      match store (publish ord) WriteIndex (VIndex nextRecord) m w with
      | Some (m', w') => Some (WPIdle, m', w')
      | None => Some (WPRace, m, w)
      end
  | WPIdle | WPRace => None
  end.

(** One access of [try_dequeue]: the two loads, the move, the destructor, the store. *)
Definition weak_dequeue (t : nat) (c : wc_pc) (m : mem) (w : rview) : option (wc_pc * mem * rview) :=
  match c with
  | WCStart =>
      match load_at (own_index ord) ReadIndex t m w with
      | Some (VIndex i, w') => Some (WCLoaded i, m, w')
      | _ => None
      end
  | WCLoaded currentRead =>
      match load_at (other_index ord) WriteIndex t m w with
      | Some (VIndex i, w') => Some (if currentRead =? i then WCIdle else WCReady currentRead, m, w')
      | _ => None
      end
  | WCReady currentRead =>
      match plain_read (Slot currentRead) m w with
      | Some (VSlot (Some v), m', w') => Some (WCTaken currentRead v, m', w')
      | Some (_, _, _) => Some (WCRaw, m, w)
      | None => Some (WCRace, m, w)
      end
  | WCTaken currentRead v =>
      match plain_write (Slot currentRead) (VSlot None) m w with
      | Some (m', w') => Some (WCDestroyed currentRead v, m', w')
      | None => Some (WCRace, m, w)
      end
  | WCDestroyed currentRead v =>
      match store (publish ord) ReadIndex (VIndex (next_record n currentRead)) m w with
      | Some (m', w') => Some (WCIdle, m', w')
      | None => Some (WCRace, m, w)
      end
  | WCIdle | WCRaw | WCRace => None
  end.

(** Memory, the two threads with their views, and the values published and taken. *)
Record weak_sys := mk_weak {
  ws_mem : mem;
  ws_prod : wp_pc;
  ws_pview : rview;
  ws_cons : wc_pc;
  ws_cview : rview;
  ws_in : list T;
  ws_out : list T
}.

Definition log_in (c : wp_pc) (c' : wp_pc) (l : list T) : list T :=
  match c, c' with WPBuilt v _ _, WPIdle => l ++ [v] | _, _ => l end.
Definition log_out (c : wc_pc) (c' : wc_pc) (l : list T) : list T :=
  match c, c' with WCDestroyed _ v, WCIdle => l ++ [v] | _, _ => l end.

Inductive weak_step (s : weak_sys) : weak_sys -> Prop :=
| weak_call_enqueue v : ws_prod s = WPIdle ->
    weak_step s (mk_weak (ws_mem s) (WPStart v) (ws_pview s) (ws_cons s) (ws_cview s) (ws_in s) (ws_out s))
| weak_producer t c' m' w' : weak_enqueue t (ws_prod s) (ws_mem s) (ws_pview s) = Some (c', m', w') ->
    weak_step s (mk_weak m' c' w' (ws_cons s) (ws_cview s) (log_in (ws_prod s) c' (ws_in s)) (ws_out s))
| weak_call_dequeue : ws_cons s = WCIdle ->
    weak_step s (mk_weak (ws_mem s) (ws_prod s) (ws_pview s) WCStart (ws_cview s) (ws_in s) (ws_out s))
| weak_consumer t c' m' w' : weak_dequeue t (ws_cons s) (ws_mem s) (ws_cview s) = Some (c', m', w') ->
    weak_step s (mk_weak m' (ws_prod s) (ws_pview s) c' w' (ws_in s) (log_out (ws_cons s) c' (ws_out s))).

(** The memory of a queue the constructor made. *)
Definition weak_memory (q : spscqueue T) : mem := fun l =>
  match l with
  | ReadIndex => [mk_message (VIndex (readIndex_ q)) vbot]
  | WriteIndex => [mk_message (VIndex (writeIndex_ q)) vbot]
  | Slot i => match zget (records_ q) i with Some o => [mk_message (VSlot o) vbot] | None => [] end
  end.

Definition weak_start (q : spscqueue T) : weak_sys := mk_weak (weak_memory q) WPIdle vbot WCIdle vbot [] [].
End Weak.
Arguments ring_val : clear implicits. Arguments wp_pc : clear implicits. Arguments wc_pc : clear implicits.
Arguments weak_sys : clear implicits.

(** ** Counting the accesses of a slot *)

Section Invariant.
Context {T : Type} (N : nat) (N_pos : (0 < N)%nat) (N_int : Z.of_nat N <= INT_MAX).
Local Open Scope nat_scope.

(** Of the operations [0 .. k-1], how many use slot [i]. *)
Definition uses (k i : nat) : nat := (k + N - 1 - i) / N.

Lemma uses_spec k i : i < N -> k <= N * uses k i + i < k + N.
Proof using All.
  intros Hi. unfold uses. pose proof (Nat.div_mod_eq (k + N - 1 - i) N). pose proof (Nat.mod_upper_bound (k + N - 1 - i) N). lia.
Qed.

Lemma uses_unique k i u : i < N -> k <= N * u + i < k + N -> uses k i = u.
Proof using All. intros Hi Hu. pose proof (uses_spec k i Hi). nia. Qed.

Lemma slot_bound e : e mod N < N.
Proof using All. apply Nat.mod_upper_bound. lia. Qed.

Lemma uses_after e k : e < k -> k <= e + N -> uses k (e mod N) = S (e / N).
Proof using All. intros H1 H2. pose proof (slot_bound e). apply uses_unique; [done|]. pose proof (Nat.div_mod_eq e N). lia. Qed.

Lemma uses_before e k : k <= e -> e < k + N -> uses k (e mod N) = e / N.
Proof using All. intros H1 H2. pose proof (slot_bound e). apply uses_unique; [done|]. pose proof (Nat.div_mod_eq e N). lia. Qed.

Lemma uses_other k i : i < N -> i <> k mod N -> uses (S k) i = uses k i.
Proof using All.
  intros Hi Hne. apply uses_unique; [done|]. pose proof (uses_spec k i Hi). assert (N * uses k i + i <> k); [|lia].
  intros Hk. apply Hne. apply (Nat.mod_unique k N (uses k i)); lia.
Qed.

Lemma uses_none i : i < N -> uses 0 i = 0.
Proof using All. intros Hi. apply uses_unique; lia. Qed.

(** The slot and the round of operation [e]. *)
Definition slot (e : nat) : ring_loc := Slot (Z.of_nat (e mod N)).

Lemma slot_turn e : N <= e -> slot (e - N) = slot e /\ (e - N) / N = e / N - 1 /\ 1 <= e / N.
Proof using All.
  intros He. assert (Hd : (e - N) / N = e / N - 1 /\ (e - N) mod N = e mod N /\ 1 <= e / N).
  { pose proof (Nat.div_mod_eq e N). pose proof (slot_bound e). assert (1 <= e / N) by (apply Nat.div_le_lower_bound; lia).
    split_and!; [symmetry; apply (Nat.div_unique _ N _ (e mod N)); nia|symmetry; apply (Nat.mod_unique _ N (e / N - 1)); nia|done]. }
  unfold slot. destruct Hd as (?&->&?). done.
Qed.

Lemma slot_inj i e : i < N -> Slot (Z.of_nat i) = slot e <-> i = e mod N.
Proof using. clear. intros Hi. unfold slot. split; [intros [=]; lia|by intros ->]. Qed.

(** Each operation of the producer leaves one access in its slot, each of the consumer two: the
    object of operation [e] is the access number [3 * (e / N) + 1] of its slot. *)
Definition knows_built (w : view ring_loc) (k : nat) : Prop := forall e, e < k -> 3 * (e / N) + 1 <= w (slot e).
Definition knows_freed (w : view ring_loc) (k : nat) : Prop := forall e, e < k -> 3 * (e / N) + 3 <= w (slot e).

Lemma knows_built_mono w w' k k' : vle w w' -> k' <= k -> knows_built w k -> knows_built w' k'.
Proof using. clear. intros Hw Hk Hb e He. specialize (Hw (slot e)). specialize (Hb e). lia. Qed.
Lemma knows_freed_mono w w' k k' : vle w w' -> k' <= k -> knows_freed w k -> knows_freed w' k'.
Proof using. clear. intros Hw Hk Hb e He. specialize (Hw (slot e)). specialize (Hb e). lia. Qed.

(** ** The invariant *)

Definition building (c : wp_pc T) : list T := match c with WPBuilt v _ _ => [v] | _ => [] end.
Definition taken (c : wc_pc T) : nat := match c with WCTaken _ _ | WCDestroyed _ _ => 1 | _ => 0 end.
Definition freed (c : wc_pc T) : nat := match c with WCDestroyed _ _ => 1 | _ => 0 end.

Definition index (k : nat) : Z := Z.of_nat (k mod N).
Definition indices (k : nat) : list (ring_val T) := (fun k => VIndex (index k)) <$> seq 0 k.

(** What the threads know of the [p] values published and the [c] values taken. *)
Definition weak_producer_ok (p : nat) (pc : wp_pc T) (w : view ring_loc) : Prop :=
  match pc with
  | WPIdle | WPStart _ => True
  | WPLoaded _ i => i = index p
  | WPRoom _ i j | WPBuilt _ i j => i = index p /\ j = index (S p) /\ S p < w ReadIndex + N
  | WPRace => False
  end.

Definition weak_consumer_ok (c : nat) (published : list T) (pc : wc_pc T) (w : view ring_loc) : Prop :=
  match pc with
  | WCIdle | WCStart => True
  | WCLoaded i => i = index c
  | WCReady i => i = index c /\ c < w WriteIndex
  | WCTaken i v => i = index c /\ c < w WriteIndex /\ published !! c = Some v /\ 3 * (c / N) + 2 <= w (slot c)
  | WCDestroyed i v => i = index c /\ c < w WriteIndex /\ published !! c = Some v
  | WCRaw | WCRace => False
  end.

Record weak_inv (s : weak_sys T) : Prop := {
  wi_mem : mem_ok (ws_mem s);
  wi_pview : view_ok (ws_mem s) (ws_pview s);
  wi_cview : view_ok (ws_mem s) (ws_cview s);
  wi_write : m_val <$> ws_mem s WriteIndex = indices (S (length (ws_in s)));
  wi_read : m_val <$> ws_mem s ReadIndex = indices (S (length (ws_out s)));
  wi_slots i : i < N -> length (ws_mem s (Slot (Z.of_nat i))) =
    S (uses (length (ws_in s ++ building (ws_prod s))) i + uses (length (ws_out s) + taken (ws_cons s)) i
       + uses (length (ws_out s) + freed (ws_cons s)) i);
  wi_objects e v : (ws_in s ++ building (ws_prod s)) !! e = Some v ->
    m_val <$> ws_mem s (slot e) !! (3 * (e / N) + 1) = Some (VSlot (Some v));
  wi_write_msg k msg : ws_mem s WriteIndex !! k = Some msg -> knows_built (m_rel msg) k /\ m_rel msg WriteIndex <= k;
  wi_read_msg k msg : ws_mem s ReadIndex !! k = Some msg -> knows_freed (m_rel msg) k /\ m_rel msg ReadIndex <= k;
  wi_pknows : knows_built (ws_pview s) (length (ws_in s ++ building (ws_prod s))) /\ knows_freed (ws_pview s) (ws_pview s ReadIndex) /\
    ws_pview s WriteIndex = length (ws_in s) /\ length (ws_in s) < ws_pview s ReadIndex + N;
  wi_cknows : knows_freed (ws_cview s) (length (ws_out s) + freed (ws_cons s)) /\ knows_built (ws_cview s) (ws_cview s WriteIndex) /\
    ws_cview s ReadIndex = length (ws_out s) /\ length (ws_out s) <= ws_cview s WriteIndex;
  wi_prod : weak_producer_ok (length (ws_in s)) (ws_prod s) (ws_pview s);
  wi_cons : weak_consumer_ok (length (ws_out s)) (ws_in s) (ws_cons s) (ws_cview s);
  wi_order : ws_out s `prefix_of` ws_in s
}.

Lemma newest_write s : weak_inv s -> newest (ws_mem s) WriteIndex = length (ws_in s).
Proof using.
  clear. intros Hs. pose proof (f_equal length (wi_write s Hs)) as Hl. unfold indices in Hl. rewrite !length_fmap, length_seq in Hl.
  unfold newest. lia.
Qed.

Lemma newest_read s : weak_inv s -> newest (ws_mem s) ReadIndex = length (ws_out s).
Proof using.
  clear. intros Hs. pose proof (f_equal length (wi_read s Hs)) as Hl. unfold indices in Hl. rewrite !length_fmap, length_seq in Hl.
  unfold newest. lia.
Qed.

(** The order of the four counters. *)
Lemma weak_counts s : weak_inv s ->
  ws_pview s ReadIndex <= length (ws_out s) /\ length (ws_out s) <= ws_cview s WriteIndex /\
  ws_cview s WriteIndex <= length (ws_in s) /\ length (ws_in s) < ws_pview s ReadIndex + N.
Proof using.
  clear. intros Hs. pose proof (wi_pview s Hs ReadIndex) as H1. rewrite newest_read in H1 by done.
  pose proof (wi_cview s Hs WriteIndex) as H2. rewrite newest_write in H2 by done.
  destruct (wi_pknows s Hs) as (_&_&_&?), (wi_cknows s Hs) as (_&_&_&?). lia.
Qed.

Lemma index_lookup (ms : list (message ring_loc (ring_val T))) k t msg : m_val <$> ms = indices k -> ms !! t = Some msg ->
  t < k /\ m_val msg = VIndex (index t).
Proof using.
  clear. intros Hm Ht. pose proof (f_equal (fun l => l !! t) Hm) as Hl. cbn in Hl. unfold indices in Hl.
  rewrite !list_lookup_fmap, Ht in Hl. cbn in Hl. destruct (seq 0 k !! t) as [j|] eqn:Hj; [|done].
  apply lookup_seq in Hj as [-> ?]. cbn in Hl. injection Hl as ->. done.
Qed.

Lemma index_next k : next_record (Z.of_nat N) (index k) = index (S k).
Proof using All.
  pose proof (slot_bound k). unfold index. rewrite next_record_mod by lia. rewrite <- Nat.add_1_r, Nat2Z.inj_mod, Nat2Z.inj_mod.
  rewrite Z.add_mod_idemp_l by lia. f_equal. lia.
Qed.

Lemma index_eq i j : i <= j < i + N -> index i = index j -> i = j.
Proof using All.
  intros Hij He. unfold index in He. apply Nat2Z.inj in He.
  pose proof (Nat.div_mod_eq i N). pose proof (Nat.div_mod_eq j N).
  assert (N * (i / N) <= N * (j / N) < N * (i / N) + N) by lia. assert (i / N = j / N) by nia. congruence.
Qed.

(** ** Steps that only load *)

Lemma producer_loads s c' w' : weak_inv s -> building (ws_prod s) = [] -> building c' = [] ->
  view_ok (ws_mem s) w' -> vle (ws_pview s) w' -> knows_freed w' (w' ReadIndex) -> w' WriteIndex = length (ws_in s) ->
  weak_producer_ok (length (ws_in s)) c' w' ->
  weak_inv (mk_weak (ws_mem s) c' w' (ws_cons s) (ws_cview s) (ws_in s) (ws_out s)).
Proof using.
  clear. intros Hs Hb Hb' Hw Hle Hf HW Hc. destruct (wi_pknows s Hs) as (Hk1&_&_&Hk4). rewrite Hb, app_nil_r in Hk1.
  pose proof (Hle ReadIndex). destruct Hs. split; cbn; rewrite ?Hb', ?app_nil_r; rewrite ?Hb, ?app_nil_r in *; try done.
  split_and!; [by eapply knows_built_mono|done|done|lia].
Qed.

Lemma consumer_loads s c' w' : weak_inv s -> taken (ws_cons s) = 0 -> taken c' = 0 -> freed (ws_cons s) = 0 -> freed c' = 0 ->
  view_ok (ws_mem s) w' -> vle (ws_cview s) w' -> knows_built w' (w' WriteIndex) -> w' ReadIndex = length (ws_out s) ->
  weak_consumer_ok (length (ws_out s)) (ws_in s) c' w' ->
  weak_inv (mk_weak (ws_mem s) (ws_prod s) (ws_pview s) c' w' (ws_in s) (ws_out s)).
Proof using.
  clear. intros Hs Ht Ht' Hf Hf' Hw Hle Hb HR Hc. destruct (wi_cknows s Hs) as (Hk1&_&_&Hk4). rewrite Hf in Hk1.
  pose proof (Hle WriteIndex). destruct Hs. split; cbn; rewrite ?Ht', ?Hf'; rewrite ?Ht, ?Hf in *; try done.
  split_and!; [by eapply knows_freed_mono|done|done|lia].
Qed.

(** A thread that loads its own index reads the newest write. *)
Lemma producer_own s v t x w' : weak_inv s -> ws_prod s = WPStart v ->
  load_at Relaxed WriteIndex t (ws_mem s) (ws_pview s) = Some (x, w') -> x = VIndex (index (length (ws_in s))) /\
  weak_inv (mk_weak (ws_mem s) (WPLoaded v (index (length (ws_in s)))) w' (ws_cons s) (ws_cview s) (ws_in s) (ws_out s)).
Proof using.
  clear. intros Hs Hp Hl. destruct (load_ok _ _ _ _ _ _ _ (wi_mem s Hs) (wi_pview s Hs) Hl) as [Hok Hle].
  destruct (load_at_inv _ _ _ _ _ _ _ Hl) as (msg&Ht&Hge&->&->). destruct (wi_pknows s Hs) as (_&Hf&HW&_).
  destruct (index_lookup _ _ _ _ (wi_write s Hs) Ht) as [Hlt ->]. assert (t = length (ws_in s)) as -> by lia. split; [done|].
  apply producer_loads; [done|by rewrite Hp|done|done|done| | |done]; unfold read_view, vjoin, vbot; cbn.
  - rewrite vput_ne by done. rewrite Nat.max_0_r. eapply knows_freed_mono; [exact Hle|done|done].
  - rewrite vput_eq. lia.
Qed.

Lemma consumer_own s t x w' : weak_inv s -> ws_cons s = WCStart ->
  load_at Relaxed ReadIndex t (ws_mem s) (ws_cview s) = Some (x, w') -> x = VIndex (index (length (ws_out s))) /\
  weak_inv (mk_weak (ws_mem s) (ws_prod s) (ws_pview s) (WCLoaded (index (length (ws_out s)))) w' (ws_in s) (ws_out s)).
Proof using.
  clear. intros Hs Hp Hl. destruct (load_ok _ _ _ _ _ _ _ (wi_mem s Hs) (wi_cview s Hs) Hl) as [Hok Hle].
  destruct (load_at_inv _ _ _ _ _ _ _ Hl) as (msg&Ht&Hge&->&->). destruct (wi_cknows s Hs) as (_&Hf&HW&_).
  destruct (index_lookup _ _ _ _ (wi_read s Hs) Ht) as [Hlt ->]. assert (t = length (ws_out s)) as -> by lia. split; [done|].
  apply consumer_loads; [done|by rewrite Hp|done|by rewrite Hp|done|done|done| | |done]; unfold read_view, vjoin, vbot; cbn.
  - rewrite vput_ne by done. rewrite Nat.max_0_r. eapply knows_built_mono; [exact Hle|done|done].
  - rewrite vput_eq. lia.
Qed.

(** The other thread's index may be stale, but not too stale: what it says is true and known. *)
Lemma producer_other s v i t x w' : weak_inv s -> ws_prod s = WPLoaded v i ->
  load_at Acquire ReadIndex t (ws_mem s) (ws_pview s) = Some (x, w') -> exists r, x = VIndex r /\
  weak_inv (mk_weak (ws_mem s) (if next_record (Z.of_nat N) i =? r then WPIdle else WPRoom v i (next_record (Z.of_nat N) i))%Z w'
    (ws_cons s) (ws_cview s) (ws_in s) (ws_out s)).
Proof using All.
  intros Hs Hp Hl. destruct (load_ok _ _ _ _ _ _ _ (wi_mem s Hs) (wi_pview s Hs) Hl) as [Hok Hle].
  destruct (load_at_inv _ _ _ _ _ _ _ Hl) as (msg&Ht&Hge&->&->). destruct (wi_pknows s Hs) as (_&Hf&HW&Hroom).
  destruct (index_lookup _ _ _ _ (wi_read s Hs) Ht) as [Hlt ->]. destruct (wi_read_msg s Hs t msg Ht) as [Hmf Hmr].
  pose proof (wi_prod s Hs) as Hi. rewrite Hp in Hi. cbn in Hi. subst i. pose proof (weak_counts s Hs) as Hc.
  assert (HR : read_view Acquire ReadIndex t msg (ws_pview s) ReadIndex = t) by (unfold read_view, vjoin; cbn; rewrite vput_eq; lia).
  exists (index t). split; [done|]. rewrite index_next.
  apply producer_loads; [done|by rewrite Hp|by destruct (_ =? _)%Z|done|done| | |].
  - rewrite HR. eapply knows_freed_mono; [apply vjoin_r|done|done].
  - unfold read_view, vjoin. cbn. rewrite vput_ne by done. pose proof (wi_mem s Hs _ _ _ Ht WriteIndex) as Hm.
    rewrite newest_write in Hm by done. lia.
  - destruct (Z.eqb_spec (index (S (length (ws_in s)))) (index t)) as [|Hne]; [done|]. cbn. rewrite HR. split_and!; [done|done|].
    assert (S (length (ws_in s)) <> t + N); [|lia]. intros E. apply Hne. rewrite E. unfold index. f_equal.
    by rewrite <- Nat.Div0.add_mod_idemp_r, Nat.Div0.mod_same, Nat.add_0_r.
Qed.

Lemma consumer_other s i t x w' : weak_inv s -> ws_cons s = WCLoaded i ->
  load_at Acquire WriteIndex t (ws_mem s) (ws_cview s) = Some (x, w') -> exists r, x = VIndex r /\
  weak_inv (mk_weak (ws_mem s) (ws_prod s) (ws_pview s) (if i =? r then WCIdle else WCReady i)%Z w' (ws_in s) (ws_out s)).
Proof using All.
  intros Hs Hp Hl. destruct (load_ok _ _ _ _ _ _ _ (wi_mem s Hs) (wi_cview s Hs) Hl) as [Hok Hle].
  destruct (load_at_inv _ _ _ _ _ _ _ Hl) as (msg&Ht&Hge&->&->). destruct (wi_cknows s Hs) as (_&Hf&HW&Hroom).
  destruct (index_lookup _ _ _ _ (wi_write s Hs) Ht) as [Hlt ->]. destruct (wi_write_msg s Hs t msg Ht) as [Hmf Hmr].
  pose proof (wi_cons s Hs) as Hi. rewrite Hp in Hi. cbn in Hi. subst i. pose proof (weak_counts s Hs) as Hc.
  assert (HR : read_view Acquire WriteIndex t msg (ws_cview s) WriteIndex = t) by (unfold read_view, vjoin; cbn; rewrite vput_eq; lia).
  exists (index t). split; [done|].
  apply consumer_loads; [done|by rewrite Hp|by destruct (_ =? _)%Z|by rewrite Hp|by destruct (_ =? _)%Z|done|done| | |].
  - rewrite HR. eapply knows_built_mono; [apply vjoin_r|done|done].
  - unfold read_view, vjoin. cbn. rewrite vput_ne by done. pose proof (wi_mem s Hs _ _ _ Ht ReadIndex) as Hm.
    rewrite newest_read in Hm by done. lia.
  - destruct (Z.eqb_spec (index (length (ws_out s))) (index t)) as [|Hne]; [done|]. cbn. rewrite HR. split; [done|].
    assert (length (ws_out s) <> t); [|lia]. intros E. apply Hne. by rewrite E.
Qed.

(** ** Steps that write *)

Lemma slot_full s i : weak_inv s -> i < N -> exists msg, last (ws_mem s (Slot (Z.of_nat i))) = Some msg /\
  ws_mem s (Slot (Z.of_nat i)) !! newest (ws_mem s) (Slot (Z.of_nat i)) = Some msg.
Proof using. clear. intros Hs Hi. apply last_newest. intros E. pose proof (wi_slots s Hs i Hi) as Hl. rewrite E in Hl. done. Qed.

(** Appending to slot [e] keeps what the other slots and this one hold. *)
Lemma append_slot_lookup (m : memory ring_loc (ring_val T)) l x r t l' y : m_val <$> m l' !! t = Some y -> m_val <$> append l x r m l' !! t = Some y.
Proof using.
  clear. intros Ht. destruct (m l' !! t) as [msg|] eqn:E; [|done].
  by rewrite (prefix_lookup_Some _ _ _ _ E (append_extends l x r m l')).
Qed.

(** The producer builds the object: the slot was freed, and the producer knows it. *)
Lemma producer_builds s v i j : weak_inv s -> ws_prod s = WPRoom v i j ->
  exists m' w', plain_write (Slot i) (VSlot (Some v)) (ws_mem s) (ws_pview s) = Some (m', w') /\
  weak_inv (mk_weak m' (WPBuilt v i j) w' (ws_cons s) (ws_cview s) (ws_in s) (ws_out s)).
Proof using All.
  intros Hs Hp. pose proof (wi_prod s Hs) as Hi. rewrite Hp in Hi. cbn in Hi. destruct Hi as (->&->&Hroom).
  pose proof (weak_counts s Hs) as Hc. destruct (wi_pknows s Hs) as (Hk1&Hk2&Hk3&Hk4). set (p := length (ws_in s)) in *.
  change (Slot (index p)) with (slot p). pose proof (slot_bound p) as Hb.
  assert (Htk : taken (ws_cons s) <= 1 /\ freed (ws_cons s) <= taken (ws_cons s) /\ length (ws_out s) + taken (ws_cons s) <= p).
  { pose proof (wi_cons s Hs) as Hcc. destruct (ws_cons s); cbn in Hcc |- *; lia. }
  pose proof (wi_slots s Hs (p mod N) Hb) as Hlen. rewrite Hp in Hlen. cbn [building] in Hlen. rewrite app_nil_r in Hlen. fold p in Hlen.
  rewrite !uses_before in Hlen by lia. change (Slot (Z.of_nat (p mod N))) with (slot p) in Hlen.
  assert (Hkn : ws_pview s (slot p) = newest (ws_mem s) (slot p)).
  { pose proof (wi_pview s Hs (slot p)) as Hle. unfold newest in *. rewrite Hlen in *. cbn in *.
    destruct (decide (N <= p)) as [Hge|Hlt].
    - destruct (slot_turn p Hge) as (Hs1&Hs2&?). specialize (Hk2 (p - N) ltac:(lia)). rewrite Hs1, Hs2 in Hk2. lia.
    - rewrite Nat.div_small in * by lia. lia. }
  destruct (slot_full s (p mod N) Hs Hb) as (msg&Hlast&_). change (Slot (Z.of_nat (p mod N))) with (slot p) in Hlast.
  pose proof (plain_write_known (slot p) (VSlot (Some v)) (ws_mem s) (ws_pview s) msg Hlast Hkn) as Hw.
  destruct (plain_write_ok _ _ _ _ _ _ (wi_mem s Hs) (wi_pview s Hs) Hw) as (Hmok&Hvok&Hext&Hle).
  eexists _, _. split; [exact Hw|]. assert (Hin : length (ws_in s ++ [v]) = S p) by (rewrite length_app; cbn; lia).
  split; cbn [ws_mem ws_prod ws_pview ws_cons ws_cview ws_in ws_out building]; try done.
  - eapply view_ok_mono; [exact Hext|apply Hs].
  - rewrite append_ne by done. apply Hs.
  - rewrite append_ne by done. apply Hs.
  - intros i Hi. rewrite Hin. destruct (decide (i = p mod N)) as [->|Hne].
    + change (Slot (Z.of_nat (p mod N))) with (slot p). rewrite append_at, length_app, Hlen. cbn.
      rewrite (uses_after p (S p)), !uses_before by lia. lia.
    + rewrite append_ne by (intros Hsl%slot_inj; done). rewrite uses_other by done.
      pose proof (wi_slots s Hs i Hi) as Hl. rewrite Hp in Hl. cbn [building] in Hl. by rewrite app_nil_r in Hl.
  - intros e x He. apply lookup_app_Some in He as [He|[Hge He]].
    + apply append_slot_lookup, Hs. by apply lookup_app_l_Some.
    + apply list_lookup_singleton_Some in He as [He <-]. assert (e = p) as -> by lia. rewrite append_at.
      rewrite lookup_app_r, Hlen by lia. by replace (3 * (p / N) + 1 - _) with 0 by lia.
  - intros t msg' Ht. rewrite append_ne in Ht by done. by eapply (wi_write_msg s Hs).
  - intros t msg' Ht. rewrite append_ne in Ht by done. by eapply (wi_read_msg s Hs).
  - rewrite Hin, !(vput_ne (slot p)) by done. rewrite Hp in Hk1. cbn [building] in Hk1. rewrite app_nil_r in Hk1. split_and!; [|by eapply knows_freed_mono|done|done].
    intros e He. destruct (decide (e = p)) as [->|Hne]; [rewrite vput_eq, Hlen; lia|].
    eapply (knows_built_mono (ws_pview s) _ p p); [exact Hle|done|exact Hk1|lia].
  - apply Hs.
  - apply Hs.
  - apply Hs.
Qed.

(** It publishes the object with what it knows. *)
Lemma producer_publishes s v i j : weak_inv s -> ws_prod s = WPBuilt v i j ->
  exists m' w', store Release WriteIndex (VIndex j) (ws_mem s) (ws_pview s) = Some (m', w') /\
  weak_inv (mk_weak m' WPIdle w' (ws_cons s) (ws_cview s) (ws_in s ++ [v]) (ws_out s)).
Proof using All.
  intros Hs Hp. pose proof (wi_prod s Hs) as Hi. rewrite Hp in Hi. cbn in Hi. destruct Hi as (->&->&Hroom).
  destruct (wi_pknows s Hs) as (Hk1&Hk2&Hk3&Hk4). pose proof (newest_write s Hs) as Hnew. set (p := length (ws_in s)) in *.
  assert (Hlen : length (ws_mem s WriteIndex) = S p).
  { pose proof (f_equal length (wi_write s Hs)) as Hl. unfold indices in Hl. by rewrite !length_fmap, length_seq in Hl. }
  destruct (last_newest (ws_mem s) WriteIndex) as (msg&Hlast&_); [intros E; by rewrite E in Hlen|].
  pose proof (store_known Release WriteIndex (VIndex (index (S p))) (ws_mem s) (ws_pview s) msg Hlast ltac:(lia)) as Hw.
  destruct (store_ok _ _ _ _ _ _ _ (wi_mem s Hs) (wi_pview s Hs) Hw) as (Hmok&Hvok&Hext&Hle).
  eexists _, _. split; [exact Hw|]. cbn [releases]. rewrite Hlen in *.
  rewrite Hp in Hk1. cbn [building] in Hk1. rewrite length_app in Hk1. cbn in Hk1. fold p in Hk1. rewrite Nat.add_1_r in Hk1.
  assert (Hb : knows_built (vput WriteIndex (S p) (ws_pview s)) (S p)) by (by apply (knows_built_mono (ws_pview s) _ (S p))).
  split; cbn [ws_mem ws_prod ws_pview ws_cons ws_cview ws_in ws_out building]; rewrite ?app_nil_r; try done.
  - eapply view_ok_mono; [exact Hext|apply Hs].
  - rewrite append_at, fmap_app, (wi_write s Hs), length_app. cbn [length]. rewrite Nat.add_1_r. unfold indices.
    rewrite (seq_S (S (length (ws_in s)))), fmap_app. done.
  - rewrite append_ne by done. apply Hs.
  - intros i Hi. rewrite append_ne by done. pose proof (wi_slots s Hs i Hi) as Hl. by rewrite Hp in Hl.
  - intros e x He. apply append_slot_lookup, Hs. by rewrite Hp.
  - intros t msg' Ht. rewrite append_at in Ht. apply lookup_app_Some in Ht as [Ht|[Hge Ht]]; [by eapply (wi_write_msg s Hs)|].
    apply list_lookup_singleton_Some in Ht as [Ht <-]. cbn [m_rel]. assert (t = S p) as -> by lia. rewrite vput_eq. by split.
  - intros t msg' Ht. rewrite append_ne in Ht by done. by eapply (wi_read_msg s Hs).
  - rewrite length_app. cbn [length]. fold p. rewrite Nat.add_1_r, vput_eq, vput_ne by done.
    split_and!; [done|by eapply knows_freed_mono|done|lia].
  - apply Hs.
  - pose proof (wi_cons s Hs) as Hcc. destruct (ws_cons s); cbn in *; try done; destruct_and!; by rewrite ?lookup_app_l by (apply lookup_lt_is_Some_1; by eexists).
  - etrans; [apply Hs|by apply prefix_app_r].
Qed.

Lemma built_bound s : weak_inv s -> length (ws_in s ++ building (ws_prod s)) <= length (ws_out s) + N /\
  length (ws_in s) <= length (ws_in s ++ building (ws_prod s)).
Proof using All.
  intros Hs. pose proof (weak_counts s Hs). pose proof (wi_prod s Hs) as Hi. rewrite length_app. destruct (ws_prod s); cbn in *; lia.
Qed.

(** The length of the slot the consumer is at, while it is in the middle of [try_dequeue]. *)
Lemma front_length s : weak_inv s -> length (ws_out s) < ws_cview s WriteIndex ->
  length (ws_mem s (slot (length (ws_out s)))) = 3 * (length (ws_out s) / N) + 2 + taken (ws_cons s) + freed (ws_cons s).
Proof using All.
  intros Hs Hlt. pose proof (weak_counts s Hs). pose proof (built_bound s Hs) as [Hb1 Hb2]. set (c := length (ws_out s)) in *.
  pose proof (wi_slots s Hs (c mod N) (slot_bound c)) as Hl. fold c in Hl. change (Slot (Z.of_nat (c mod N))) with (slot c) in Hl.
  rewrite (uses_after c (length (ws_in s ++ _))) in Hl by lia.
  assert (Hu : forall d, d <= 1 -> uses (c + d) (c mod N) = c / N + d).
  { intros d Hd. destruct (decide (d = 0)) as [->|]; [rewrite !Nat.add_0_r; apply uses_before; lia|].
    replace (c + d) with (S c) by lia. rewrite uses_after by lia. lia. }
  rewrite !Hu in Hl by (destruct (ws_cons s); cbn; lia). lia.
Qed.

(** A write of the consumer to the slot it is at. *)
Lemma consumer_slot_write s c' x w : weak_inv s -> let l := slot (length (ws_out s)) in
  mem_ok (append l x vbot (ws_mem s)) -> view_ok (append l x vbot (ws_mem s)) w -> vle (ws_cview s) w ->
  w ReadIndex = ws_cview s ReadIndex -> w WriteIndex = ws_cview s WriteIndex -> length (ws_out s) < ws_cview s WriteIndex ->
  (taken c' + freed c' = S (taken (ws_cons s) + freed (ws_cons s)) /\ taken (ws_cons s) <= taken c' <= 1 /\ freed (ws_cons s) <= freed c' <= 1) ->
  knows_freed w (length (ws_out s) + freed c') -> weak_consumer_ok (length (ws_out s)) (ws_in s) c' w ->
  weak_inv (mk_weak (append l x vbot (ws_mem s)) (ws_prod s) (ws_pview s) c' w (ws_in s) (ws_out s)).
Proof using All.
  intros Hs l Hmok Hvok Hle HR HW Hlt Htf Hf Hc. destruct (wi_cknows s Hs) as (_&Hk2&Hk3&Hk4). set (c := length (ws_out s)) in *.
  split; cbn [ws_mem ws_prod ws_pview ws_cons ws_cview ws_in ws_out]; fold c; try done; try apply Hs.
  - eapply view_ok_mono; [apply append_extends|apply Hs].
  - intros i Hi. pose proof (wi_slots s Hs i Hi) as Hl. fold c in Hl. destruct (decide (i = c mod N)) as [->|Hne].
    + change (Slot (Z.of_nat (c mod N))) with l in *. rewrite append_at, length_app, Hl. cbn [length].
      assert (Hu : forall d, d <= 1 -> uses (c + d) (c mod N) = c / N + d).
      { intros d Hd. destruct (decide (d = 0)) as [->|]; [rewrite !Nat.add_0_r; apply uses_before; lia|].
        replace (c + d) with (S c) by lia. rewrite uses_after by lia. lia. }
      rewrite !Hu by lia. lia.
    + rewrite append_ne by (intros Hsl%slot_inj; done). rewrite Hl.
      assert (Hu : forall d, d <= 1 -> uses (c + d) i = uses c i).
      { intros d Hd. destruct (decide (d = 0)) as [->|]; [by rewrite Nat.add_0_r|].
        replace (c + d) with (S c) by lia. by apply uses_other. }
      by rewrite !Hu by lia.
  - intros e v He. apply append_slot_lookup. by apply Hs.
  - rewrite HR, HW. split_and!; [done|by eapply knows_built_mono|done|done].
Qed.

Lemma front_known s : weak_inv s -> length (ws_out s) < ws_cview s WriteIndex ->
  exists msg, last (ws_mem s (slot (length (ws_out s)))) = Some msg /\
    ws_mem s (slot (length (ws_out s))) !! newest (ws_mem s) (slot (length (ws_out s))) = Some msg.
Proof using All. intros Hs Hlt. apply (slot_full s _ Hs), slot_bound. Qed.

(** The consumer moves the object out: it was published, and the consumer knows it. *)
Lemma consumer_takes s i : weak_inv s -> ws_cons s = WCReady i ->
  exists v m' w', plain_read (Slot i) (ws_mem s) (ws_cview s) = Some (VSlot (Some v), m', w') /\
  weak_inv (mk_weak m' (ws_prod s) (ws_pview s) (WCTaken i v) w' (ws_in s) (ws_out s)).
Proof using All.
  intros Hs Hp. pose proof (wi_cons s Hs) as Hi. rewrite Hp in Hi. cbn in Hi. destruct Hi as (->&Hlt).
  destruct (wi_cknows s Hs) as (Hk1&Hk2&Hk3&Hk4). pose proof (front_length s Hs Hlt) as Hlen. rewrite Hp in Hlen, Hk1. cbn [taken freed] in Hlen, Hk1.
  pose proof (weak_counts s Hs). destruct (front_known s Hs Hlt) as (msg&Hlast&Hnew). set (c := length (ws_out s)) in *.
  change (Slot (index c)) with (slot c). pose proof (Hk2 c Hlt) as Hge. pose proof (wi_cview s Hs (slot c)) as Hle0.
  assert (Hnw : newest (ws_mem s) (slot c) = 3 * (c / N) + 1) by (unfold newest; lia).
  destruct (lookup_lt_is_Some_2 (ws_in s) c) as [v Hv]; [lia|].
  pose proof (wi_objects s Hs c v ltac:(by apply lookup_app_l_Some)) as Hobj. rewrite <- Hnw, Hnew in Hobj. cbn in Hobj. injection Hobj as Hobj.
  pose proof (plain_read_known (slot c) (ws_mem s) (ws_cview s) msg Hlast ltac:(lia)) as Hw. rewrite Hobj in Hw.
  destruct (plain_read_ok _ _ _ _ _ _ (wi_mem s Hs) (wi_cview s Hs) Hw) as (Hmok&Hvok&_&Hle).
  exists v. eexists _, _. split; [exact Hw|].
  apply consumer_slot_write; [done|done|done|done|by rewrite vput_ne|by rewrite vput_ne|done|rewrite Hp; cbn; lia| |].
  - cbn [freed]. by eapply knows_freed_mono.
  - cbn [weak_consumer_ok]. rewrite vput_ne, vput_eq by done. split_and!; [done|done|done|]. fold c. lia.
Qed.

(** It destroys the object. *)
Lemma consumer_destroys s i v : weak_inv s -> ws_cons s = WCTaken i v ->
  exists m' w', plain_write (Slot i) (VSlot None) (ws_mem s) (ws_cview s) = Some (m', w') /\
  weak_inv (mk_weak m' (ws_prod s) (ws_pview s) (WCDestroyed i v) w' (ws_in s) (ws_out s)).
Proof using All.
  intros Hs Hp. pose proof (wi_cons s Hs) as Hi. rewrite Hp in Hi. cbn in Hi. destruct Hi as (->&Hlt&Hv&Hge).
  destruct (wi_cknows s Hs) as (Hk1&Hk2&Hk3&Hk4). pose proof (front_length s Hs Hlt) as Hlen. rewrite Hp in Hlen, Hk1. cbn [taken freed] in Hlen, Hk1.
  destruct (front_known s Hs Hlt) as (msg&Hlast&_). set (c := length (ws_out s)) in *.
  change (Slot (index c)) with (slot c). pose proof (wi_cview s Hs (slot c)) as Hle0.
  assert (Hnw : newest (ws_mem s) (slot c) = 3 * (c / N) + 2) by (unfold newest; lia).
  pose proof (plain_write_known (slot c) (VSlot None) (ws_mem s) (ws_cview s) msg Hlast ltac:(lia)) as Hw.
  destruct (plain_write_ok _ _ _ _ _ _ (wi_mem s Hs) (wi_cview s Hs) Hw) as (Hmok&Hvok&_&Hle).
  eexists _, _. split; [exact Hw|].
  apply consumer_slot_write; [done|done|done|done|by rewrite vput_ne|by rewrite vput_ne|done|rewrite Hp; cbn; lia| |].
  - cbn [freed]. fold c. intros e He. destruct (decide (e = c)) as [->|Hne]; [rewrite vput_eq; lia|].
    eapply (knows_freed_mono (ws_cview s) _ (c + 0) c); [exact Hle|lia|exact Hk1|lia].
  - cbn [weak_consumer_ok]. by rewrite vput_ne.
Qed.

(** It gives the slot back with what it knows. *)
Lemma consumer_releases s i v : weak_inv s -> ws_cons s = WCDestroyed i v ->
  exists m' w', store Release ReadIndex (VIndex (next_record (Z.of_nat N) i)) (ws_mem s) (ws_cview s) = Some (m', w') /\
  weak_inv (mk_weak m' (ws_prod s) (ws_pview s) WCIdle w' (ws_in s) (ws_out s ++ [v])).
Proof using All.
  intros Hs Hp. pose proof (wi_cons s Hs) as Hi. rewrite Hp in Hi. cbn in Hi. destruct Hi as (->&Hlt&Hv). rewrite index_next.
  destruct (wi_cknows s Hs) as (Hk1&Hk2&Hk3&Hk4). pose proof (newest_read s Hs) as Hnew. rewrite Hp in Hk1. cbn [freed] in Hk1.
  rewrite Nat.add_1_r in Hk1. set (c := length (ws_out s)) in *. assert (Hlen : length (ws_mem s ReadIndex) = S c).
  { pose proof (f_equal length (wi_read s Hs)) as Hl. unfold indices in Hl. by rewrite !length_fmap, length_seq in Hl. }
  destruct (last_newest (ws_mem s) ReadIndex) as (msg&Hlast&_); [intros E; by rewrite E in Hlen|].
  pose proof (store_known Release ReadIndex (VIndex (index (S c))) (ws_mem s) (ws_cview s) msg Hlast ltac:(lia)) as Hw.
  destruct (store_ok _ _ _ _ _ _ _ (wi_mem s Hs) (wi_cview s Hs) Hw) as (Hmok&Hvok&Hext&Hle).
  eexists _, _. split; [exact Hw|]. cbn [releases]. rewrite Hlen in *.
  assert (Hf : knows_freed (vput ReadIndex (S c) (ws_cview s)) (S c)) by (by apply (knows_freed_mono (ws_cview s) _ (S c))).
  assert (Hout : length (ws_out s ++ [v]) = S c) by (rewrite length_app; cbn; lia).
  split; cbn [ws_mem ws_prod ws_pview ws_cons ws_cview ws_in ws_out taken freed]; rewrite ?Hout, ?Nat.add_0_r; try done; try apply Hs.
  - eapply view_ok_mono; [exact Hext|apply Hs].
  - rewrite append_at, fmap_app, (wi_read s Hs). unfold indices. fold c. by rewrite (seq_S (S c)), fmap_app.
  - intros i Hi. rewrite append_ne by done. pose proof (wi_slots s Hs i Hi) as Hl. rewrite Hp in Hl. cbn [taken freed] in Hl. fold c in Hl.
    by rewrite !Nat.add_1_r in Hl.
  - intros t msg' Ht. rewrite append_at in Ht. apply lookup_app_Some in Ht as [Ht|[Hge Ht]]; [by eapply (wi_read_msg s Hs)|].
    apply list_lookup_singleton_Some in Ht as [Ht <-]. cbn [m_rel]. assert (t = S c) as -> by lia. rewrite vput_eq. by split.
  - destruct (wi_order s Hs) as [rest Hr]. rewrite Hr in Hv |- *. unfold c in Hv. rewrite lookup_app_r, Nat.sub_diag in Hv by done.
    destruct rest as [|x rest]; [done|]. injection Hv as ->. exists rest. by rewrite <- app_assoc.
Qed.

Lemma weak_step_inv s s' : weak_inv s -> weak_step source_orders (Z.of_nat N) s s' -> weak_inv s'.
Proof using All.
  intros Hs Hstep. destruct Hstep as [v Hp|t c' m' w' Hp|Hc|t c' m' w' Hc].
  - destruct (wi_pknows s Hs) as (_&?&?&_). apply producer_loads; [done|by rewrite Hp|done|apply Hs|done|done|done|done].
  - unfold weak_enqueue in Hp. destruct (ws_prod s) as [|v|v i|v i j|v i j|] eqn:E; [done|..|done].
    + destruct (load_at _ _ _ _ _) as [[x w1]|] eqn:Hl; [|done]. destruct (producer_own s v t x w1 Hs E Hl) as [-> Hi]. by simplify_eq.
    + destruct (load_at _ _ _ _ _) as [[x w1]|] eqn:Hl; [|done]. destruct (producer_other s v i t x w1 Hs E Hl) as (r&->&Hi). by simplify_eq.
    + destruct (producer_builds s v i j Hs E) as (m1&w1&Hw&Hi). rewrite Hw in Hp. by simplify_eq.
    + destruct (producer_publishes s v i j Hs E) as (m1&w1&Hw&Hi). cbn in Hp. rewrite Hw in Hp. by simplify_eq.
  - destruct (wi_cknows s Hs) as (_&?&?&_). apply consumer_loads; [done|by rewrite Hc|done|by rewrite Hc|done|apply Hs|done|done|done|done].
  - unfold weak_dequeue in Hc. destruct (ws_cons s) as [| |i|i|i v|i v| |] eqn:E; [done|..|done|done].
    + destruct (load_at _ _ _ _ _) as [[x w1]|] eqn:Hl; [|done]. destruct (consumer_own s t x w1 Hs E Hl) as [-> Hi]. by simplify_eq.
    + destruct (load_at _ _ _ _ _) as [[x w1]|] eqn:Hl; [|done]. destruct (consumer_other s i t x w1 Hs E Hl) as (r&->&Hi). simplify_eq.
      by destruct (i =? r)%Z.
    + destruct (consumer_takes s i Hs E) as (v&m1&w1&Hw&Hi). rewrite Hw in Hc. by simplify_eq.
    + destruct (consumer_destroys s i v Hs E) as (m1&w1&Hw&Hi). rewrite Hw in Hc. by simplify_eq.
    + destruct (consumer_releases s i v Hs E) as (m1&w1&Hw&Hi). cbn in Hc. rewrite Hw in Hc. by simplify_eq.
Qed.

(** A load can read the newest write, so a thread never waits for another one. *)
Lemma load_newest o l (m : memory ring_loc (ring_val T)) w k : view_ok m w -> m_val <$> m l = indices (S k) ->
  exists w', load_at o l (newest m l) m w = Some (VIndex (index k), w').
Proof using.
  clear. intros Hw Hl. pose proof (f_equal length Hl) as Hlen. unfold indices in Hlen. rewrite !length_fmap, length_seq in Hlen.
  destruct (lookup_lt_is_Some_2 (m l) (newest m l)) as [msg Hm]; [unfold newest; lia|].
  destruct (index_lookup _ _ _ _ Hl Hm) as [_ Hv]. unfold load_at. rewrite decide_True, Hm by apply Hw. cbn. rewrite Hv.
  assert (newest m l = k) as -> by (unfold newest; lia). by eexists.
Qed.

Lemma weak_start_inv (q : spscqueue T) : size_ q = Z.of_nat N -> records_ q = replicate N None -> readIndex_ q = 0%Z -> writeIndex_ q = 0%Z ->
  weak_inv (weak_start q).
Proof using All.
  intros Hsz Hrec Hr Hw. assert (H0 : index 0 = 0%Z) by (unfold index; by rewrite Nat.Div0.mod_0_l).
  assert (Hslot : forall i, i < N -> weak_memory q (Slot (Z.of_nat i)) = [mk_message (VSlot None) vbot]).
  { intros i Hi. cbn. rewrite Hrec. unfold zget. destruct (Z.ltb_spec (Z.of_nat i) 0); [lia|]. rewrite Nat2Z.id. by rewrite lookup_replicate_2. }
  assert (Hmsg : forall l t msg, weak_memory q l !! t = Some msg -> t = 0 /\ m_rel msg = vbot).
  { intros l t msg Ht. destruct l as [| |i]; cbn in Ht; [..|destruct (zget (records_ q) i); [|done]];
      by apply list_lookup_singleton_Some in Ht as [-> <-]. }
  split; cbn [weak_start ws_mem ws_prod ws_pview ws_cons ws_cview ws_in ws_out building taken freed length app]; try done.
  - intros l t msg Ht. destruct (Hmsg l t msg Ht) as [_ ->]. apply view_ok_bot.
  - apply view_ok_bot.
  - apply view_ok_bot.
  - cbn. by rewrite Hw, H0.
  - cbn. by rewrite Hr, H0.
  - intros i Hi. rewrite Hslot by done. cbn [Nat.add]. by rewrite uses_none.
  - intros k msg Ht. destruct (Hmsg _ k msg Ht) as [-> ->]. split; [|unfold vbot; lia]. intros e He. lia.
  - intros k msg Ht. destruct (Hmsg _ k msg Ht) as [-> ->]. split; [|unfold vbot; lia]. intros e He. lia.
  - split_and!; [intros e He; lia|intros e He; unfold vbot in He; lia|done|unfold vbot; lia].
  - split_and!; [intros e He; lia|intros e He; unfold vbot in He; lia|done|unfold vbot; lia].
Qed.

Lemma weak_continues s : weak_inv s ->
  (ws_prod s <> WPIdle -> exists t r, weak_enqueue source_orders (Z.of_nat N) t (ws_prod s) (ws_mem s) (ws_pview s) = Some r) /\
  (ws_cons s <> WCIdle -> exists t r, weak_dequeue source_orders (Z.of_nat N) t (ws_cons s) (ws_mem s) (ws_cview s) = Some r).
Proof using All.
  intros Hs. split.
  - intros Hi. pose proof (wi_prod s Hs) as Hp. destruct (ws_prod s) as [|v|v i|v i j|v i j|] eqn:E; [done|..|done].
    + destruct (load_newest Relaxed WriteIndex _ _ _ (wi_pview s Hs) (wi_write s Hs)) as [w' Hl]. eexists _, _. cbn. by rewrite Hl.
    + destruct (load_newest Acquire ReadIndex _ _ _ (wi_pview s Hs) (wi_read s Hs)) as [w' Hl]. eexists _, _. cbn. by rewrite Hl.
    + destruct (producer_builds s v i j Hs E) as (m1&w1&Hw&_). exists 0. eexists. cbn. by rewrite Hw.
    + destruct (producer_publishes s v i j Hs E) as (m1&w1&Hw&_). exists 0. eexists. cbn. by rewrite Hw.
  - intros Hi. pose proof (wi_cons s Hs) as Hp. destruct (ws_cons s) as [| |i|i|i v|i v| |] eqn:E; [done|..|done|done].
    + destruct (load_newest Relaxed ReadIndex _ _ _ (wi_cview s Hs) (wi_read s Hs)) as [w' Hl]. eexists _, _. cbn. by rewrite Hl.
    + destruct (load_newest Acquire WriteIndex _ _ _ (wi_cview s Hs) (wi_write s Hs)) as [w' Hl]. eexists _, _. cbn. by rewrite Hl.
    + destruct (consumer_takes s i Hs E) as (v&m1&w1&Hw&_). exists 0. eexists. cbn. by rewrite Hw.
    + destruct (consumer_destroys s i v Hs E) as (m1&w1&Hw&_). exists 0. eexists. cbn. by rewrite Hw.
    + destruct (consumer_releases s i v Hs E) as (m1&w1&Hw&_). exists 0. eexists. cbn. by rewrite Hw.
Qed.
End Invariant.

(** C10. The ring queue under the C++ memory model, with the orderings the code asks for.  In every
    state the producer and the consumer reach, whatever stale index a load may still return: no
    access to a slot races with one of the other thread, and no object is moved out of raw memory;
    the values published are the values taken followed by those in the ring, which are never more
    than its capacity; and a thread in the middle of a call can always go on. *)
Theorem spscqueue_release_acquire {T : Type} (size : Z) (q : spscqueue T) (s : weak_sys T) :
  0 <= size < INT_MAX -> spscqueue_new true false size = Ok q ->
  rtc (weak_step source_orders (size_ q)) (weak_start q) s ->
  ws_prod s <> WPRace /\ ws_cons s <> WCRace /\ ws_cons s <> WCRaw /\
  (exists l, ws_in s = ws_out s ++ l /\ zlen l <= size) /\
  (ws_prod s <> WPIdle -> exists t r, weak_enqueue source_orders (size_ q) t (ws_prod s) (ws_mem s) (ws_pview s) = Some r) /\
  (ws_cons s <> WCIdle -> exists t r, weak_dequeue source_orders (size_ q) t (ws_cons s) (ws_mem s) (ws_cview s) = Some r).
Proof.
  intros Hsz Hq Hr. set (N := Z.to_nat (size + 1)). assert (HN : (0 < N)%nat) by lia. assert (Hint : Z.of_nat N <= INT_MAX) by lia.
  assert (Hnew : size_ q = Z.of_nat N /\ records_ q = replicate N None /\ readIndex_ q = 0 /\ writeIndex_ q = 0).
  { unfold spscqueue_new in Hq. unfold INT_MAX in Hsz. rewrite u32_small in Hq by lia. injection Hq as <-. cbn. split_and!; [lia|done..]. }
  destruct Hnew as (Hn&Hrec&Hr0&Hw0). rewrite Hn in *. assert (Hs : weak_inv N s).
  { refine (rtc_invariant _ (weak_inv N) _ _ _ _ Hr); [apply (weak_step_inv N HN Hint)|by apply weak_start_inv]. }
  pose proof (wi_prod N s Hs) as Hp. pose proof (wi_cons N s Hs) as Hc. split_and!; [intros E|intros E|intros E| |apply (weak_continues N HN Hint s Hs)..].
  1: by rewrite E in Hp. 1,2: by rewrite E in Hc.
  destruct (wi_order N s Hs) as [l Hl]. exists l. split; [done|]. pose proof (weak_counts N s Hs) as Hcnt.
  rewrite Hl, length_app in Hcnt. lia.
Qed.

(** *** Concrete runs *)

Inductive weak_move := MvEnqueue (v : Z) | MvProducer (t : nat) | MvDequeue | MvConsumer (t : nat).

Definition weak_run_move (ord : spsc_orders) (n : Z) (mv : weak_move) (s : weak_sys Z) : option (weak_sys Z) :=
  match mv with
  | MvEnqueue v => match ws_prod s with
                   | WPIdle => Some (mk_weak (ws_mem s) (WPStart v) (ws_pview s) (ws_cons s) (ws_cview s) (ws_in s) (ws_out s))
                   | _ => None
                   end
  | MvProducer t => '(c, m, w) ← weak_enqueue ord n t (ws_prod s) (ws_mem s) (ws_pview s);
                    Some (mk_weak m c w (ws_cons s) (ws_cview s) (log_in (ws_prod s) c (ws_in s)) (ws_out s))
  | MvDequeue => match ws_cons s with
                 | WCIdle => Some (mk_weak (ws_mem s) (ws_prod s) (ws_pview s) WCStart (ws_cview s) (ws_in s) (ws_out s))
                 | _ => None
                 end
  | MvConsumer t => '(c, m, w) ← weak_dequeue ord n t (ws_cons s) (ws_mem s) (ws_cview s);
                    Some (mk_weak m (ws_prod s) (ws_pview s) c w (ws_in s) (log_out (ws_cons s) c (ws_out s)))
  end.

Fixpoint weak_run (ord : spsc_orders) (n : Z) (l : list weak_move) (s : weak_sys Z) : option (weak_sys Z) :=
  match l with [] => Some s | mv :: l => s ← weak_run_move ord n mv s; weak_run ord n l s end.

Lemma weak_run_steps ord n l s s' : weak_run ord n l s = Some s' -> rtc (weak_step ord n) s s'.
Proof.
  revert s. induction l as [|mv l IH]; intros s; cbn; [by intros [= ->]|].
  destruct (weak_run_move ord n mv s) as [s1|] eqn:Hm; [|done]. intros Hl. eapply rtc_l; [|by apply IH].
  destruct mv as [v|t| |t]; cbn in Hm.
  - destruct (ws_prod s) eqn:E; try done. injection Hm as <-. by constructor.
  - destruct (weak_enqueue _ _ _ _ _ _) as [[[c m] w]|] eqn:E; [|done]. cbn in Hm. injection Hm as <-. by eapply weak_producer.
  - destruct (ws_cons s) eqn:E; try done. injection Hm as <-. by constructor.
  - destruct (weak_dequeue _ _ _ _ _ _) as [[[c m] w]|] eqn:E; [|done]. cbn in Hm. injection Hm as <-. by eapply weak_consumer.
Qed.

Definition weak_two : spscqueue Z := mk_spscqueue 2 [None; None] 0 0.

(** A value is published; the consumer first reads the old write index and finds the queue empty,
    then reads the new one and takes the value. *)
Definition stale_run : list weak_move :=
  [MvEnqueue 7; MvProducer 0; MvProducer 0; MvProducer 0; MvProducer 0; MvDequeue; MvConsumer 0; MvConsumer 0;
   MvDequeue; MvConsumer 0; MvConsumer 1; MvConsumer 0; MvConsumer 0; MvConsumer 0].

Definition stale_end : weak_sys Z := default (weak_start weak_two) (weak_run source_orders 2 stale_run (weak_start weak_two)).

Lemma spscqueue_release_acquire_witness :
  ws_out stale_end = [7] /\ ws_cons stale_end = WCIdle /\ exists l, ws_in stale_end = ws_out stale_end ++ l /\ zlen l <= 1.
Proof.
  split_and!; [vm_compute; reflexivity..|].
  refine (proj1 (proj2 (proj2 (proj2 (spscqueue_release_acquire 1 weak_two stale_end _ _ _))))).
  - unfold INT_MAX. lia.
  - vm_compute. reflexivity.
  - apply (weak_run_steps source_orders 2 stale_run). vm_compute. reflexivity.
Defined.

(** The orderings are needed: with a relaxed store of the write index, or a relaxed load of it, the
    consumer's access to the slot races with the construction of the object. *)
Lemma relaxed_index_races (ord : spsc_orders) : ord = mk_orders Relaxed Acquire Relaxed \/ ord = mk_orders Relaxed Relaxed Release ->
  exists s, rtc (weak_step ord 2) (weak_start weak_two) s /\ ws_cons s = WCRace.
Proof.
  pose (run := [MvEnqueue 7; MvProducer 0; MvProducer 0; MvProducer 0; MvProducer 0; MvDequeue; MvConsumer 0; MvConsumer 1; MvConsumer 0]).
  intros [-> | ->]; eexists; (split; [eapply (weak_run_steps _ 2 run)|]; vm_compute; reflexivity).
Qed.
