(* ===== verification/AtomicList.v ===== *)
(** * The atomic linked lists: libs/AtomicIntrusiveLinkedList.h, libs/AtomicLinkedList.h

    [hooks] maps every object to the [next] field of its hook.  The loops over a detached
    chain ([reverse], [unlinkAll]) take fuel and are proved to need no more than the length
    of the chain.  Here a call runs on a list nobody else touches; AtomicListWeak.v cuts
    [insertHead] and [sweep] into their accesses for any number of threads. *)

From S2P Require Import Prelude Heap.

Abbreviation hooks := (gmap ptr (option ptr)).

(** [next(t)]; [t] must be an object. *)
Definition next (h : hooks) (t : ptr) : option (option ptr) := h !! t.

(** [AtomicIntrusiveLinkedList]: the head pointer. *)
Record intrusive_list := mk_ilist { head_ : option ptr }.

Definition ilist_empty (l : intrusive_list) : bool :=
  match head_ l with None => true | Some _ => false end.

(** The move constructor and move assignment exchange the heads: (this, other). *)
Definition ilist_move (this other : intrusive_list) : intrusive_list * intrusive_list :=
  (mk_ilist (head_ other), mk_ilist (head_ this)).

(** [insertHead] when no other thread interferes: the exchange succeeds at once. *)
Definition ilist_insertHead (dbg : bool) (t : ptr) (h : hooks) (l : intrusive_list)
  : outcome (bool * hooks * intrusive_list) :=
  match next h t with
  | None => Undefined
  | Some nx =>
      if dbg && negb (bool_decide (nx = None)) then AssertFail
      else
        let oldHead := head_ l in
        Ok (bool_decide (oldHead = None), <[t := oldHead]> h, mk_ilist (Some t))
  end.

(** [reverse]: the loop from [head] with the part already reversed at [rhead]. *)
Fixpoint reverse_loop (fuel : nat) (h : hooks) (head rhead : option ptr)
  : outcome (option ptr * hooks) :=
  match head with
  | None => Ok (rhead, h)
  | Some t =>
      match fuel, next h t with
      | S fuel', Some nx => reverse_loop fuel' (<[t := rhead]> h) nx (Some t)
      | _, _ => Undefined
      end
  end.

Definition reverse (fuel : nat) (h : hooks) (head : option ptr) : outcome (option ptr * hooks) :=
  reverse_loop fuel h head None.

(** [unlinkAll]: the objects [func] is called on, in order; their hooks are cleared. *)
Fixpoint unlinkAll (fuel : nat) (h : hooks) (head : option ptr) : outcome (list ptr * hooks) :=
  match head with
  | None => Ok ([], h)
  | Some t =>
      match fuel, next h t with
      | S fuel', Some nx =>
          match unlinkAll fuel' (<[t := None]> h) nx with
          | Ok (ts, h') => Ok (t :: ts, h')
          | r => r
          end
      | _, _ => Undefined
      end
  end.

(** [sweep], run alone: the exchange, the reversal, the calls, and the second exchange that
    finds the list empty. *)
Definition ilist_sweep (fuel : nat) (h : hooks) (l : intrusive_list)
  : outcome (list ptr * hooks * intrusive_list) :=
  match head_ l with
  | None => Ok ([], h, mk_ilist None)
  | Some _ =>
      match reverse fuel h (head_ l) with
      | Ok (rhead, h1) =>
          match unlinkAll fuel h1 rhead with
          | Ok (ts, h2) => Ok (ts, h2, mk_ilist None)
          | _ => Undefined
          end
      | _ => Undefined
      end
  end.

Definition ilist_reverseSweep (fuel : nat) (h : hooks) (l : intrusive_list)
  : outcome (list ptr * hooks * intrusive_list) :=
  match unlinkAll fuel h (head_ l) with
  | Ok (ts, h') => Ok (ts, h', mk_ilist None)
  | _ => Undefined
  end.

(** ** Chains *)

(** From [hd], following [next], the objects [ts] and then null. *)
Fixpoint chain (h : hooks) (hd : option ptr) (ts : list ptr) : Prop :=
  match ts with
  | [] => hd = None
  | t :: ts' => hd = Some t /\ exists nx, h !! t = Some nx /\ chain h nx ts'
  end.

Definition ilist_rep (h : hooks) (l : intrusive_list) (ts : list ptr) : Prop :=
  chain h (head_ l) ts /\ NoDup ts.

(** Objects that are in no list have a null hook. *)
Definition detached (h : hooks) (ts : list ptr) : Prop := Forall (fun t => h !! t = Some None) ts.

Lemma chain_insert_ne h hd ts t v : t ∉ ts -> chain h hd ts -> chain (<[t := v]> h) hd ts.
Proof.
  revert hd. induction ts as [|x ts IH]; intros hd Hn Hc; cbn in *; [done|].
  destruct Hc as [-> (nx&Hx&Hc)]. apply not_elem_of_cons in Hn as [Hne Hn].
  split; [done|]. exists nx. rewrite lookup_insert_ne by done. eauto.
Qed.

Lemma detached_insert_ne h ts t v : t ∉ ts -> detached h ts -> detached (<[t := v]> h) ts.
Proof.
  unfold detached. rewrite !Forall_forall. intros Hn Hd x Hx.
  rewrite lookup_insert_ne; [auto|]. intros ->. by apply Hn.
Qed.

Lemma reverse_loop_spec fuel h hd rhd ts rs :
  chain h hd ts -> chain h rhd rs -> NoDup (ts ++ rs) -> (length ts <= fuel)%nat ->
  exists rhead h', reverse_loop fuel h hd rhd = Ok (rhead, h') /\
    chain h' rhead (rev ts ++ rs) /\ (forall x, x ∉ ts -> h' !! x = h !! x).
Proof.
  revert h hd rhd ts rs. induction fuel as [|fuel IH]; intros h hd rhd [|t ts] rs Hc Hr Hd Hf;
    cbn in *; try (by subst; exists rhd, h); try lia.
  destruct Hc as [-> (nx&Ht&Hc)]. unfold next. rewrite Ht.
  apply NoDup_cons in Hd as [Hn Hd]. rewrite elem_of_app in Hn.
  edestruct (IH (<[t := rhd]> h) nx (Some t) ts (t :: rs)) as (rh&h'&->&Hch&Hframe).
  - apply chain_insert_ne; tauto.
  - split; [done|]. exists rhd. rewrite lookup_insert_eq. split; [done|].
    apply chain_insert_ne; tauto.
  - apply NoDup_app. apply NoDup_app in Hd as (Hd1&Hd2&Hd3). split_and!; [done| |].
    + intros x Hx. rewrite not_elem_of_cons. split; [intros ->; tauto|auto].
    + apply NoDup_cons. tauto.
  - lia.
  - exists rh, h'. split_and!; [done| |].
    + by rewrite <- app_assoc.
    + intros x Hx. apply not_elem_of_cons in Hx as [? ?].
      rewrite Hframe by done. by rewrite lookup_insert_ne.
Qed.

Lemma unlinkAll_spec fuel h hd ts :
  chain h hd ts -> NoDup ts -> (length ts <= fuel)%nat ->
  exists h', unlinkAll fuel h hd = Ok (ts, h') /\ detached h' ts /\
    (forall x, x ∉ ts -> h' !! x = h !! x).
Proof.
  revert h hd ts. induction fuel as [|fuel IH]; intros h hd [|t ts] Hc Hd Hf; cbn in *;
    try (by subst; exists h; split_and!; [|constructor|]); try lia.
  destruct Hc as [-> (nx&Ht&Hc)]. apply NoDup_cons in Hd as [Hn Hd].
  unfold next. rewrite Ht.
  destruct (IH (<[t := None]> h) nx ts) as (h'&->&Hdet&Hframe); [by apply chain_insert_ne|done|lia|].
  exists h'. split_and!; [done| |].
  - constructor; [|done]. rewrite Hframe by done. by rewrite lookup_insert_eq.
  - intros x Hx. apply not_elem_of_cons in Hx as [? ?]. rewrite Hframe by done.
    by rewrite lookup_insert_ne.
Qed.

Lemma ilist_sweep_spec fuel h l ts :
  ilist_rep h l ts -> (length ts <= fuel)%nat ->
  exists h', ilist_sweep fuel h l = Ok (rev ts, h', mk_ilist None) /\
    detached h' ts /\ (forall x, x ∉ ts -> h' !! x = h !! x).
Proof.
  intros [Hc Hd] Hf. unfold ilist_sweep. destruct (head_ l) as [p|] eqn:E.
  - unfold reverse.
    destruct (reverse_loop_spec fuel h (Some p) None ts []) as (rh&h1&->&Hc1&Hf1); try done.
    { by rewrite app_nil_r. }
    rewrite app_nil_r in Hc1.
    destruct (unlinkAll_spec fuel h1 rh (rev ts)) as (h2&->&Hdet&Hf2); [done| | |].
    { by apply NoDup_ListNoDup, NoDup_rev, NoDup_ListNoDup. }
    { by rewrite length_rev. }
    exists h2. split_and!; [done| |].
    + unfold detached in *. rewrite Forall_forall in *. intros x Hx. apply Hdet.
      by rewrite list_elem_of_In, <- in_rev, <- list_elem_of_In.
    + intros x Hx. rewrite Hf2; [auto|].
      by rewrite list_elem_of_In, <- in_rev, <- list_elem_of_In.
  - destruct ts as [|t ts]; [|by destruct Hc]. exists h. split_and!; [done|constructor|done].
Qed.

Lemma ilist_insertHead_spec dbg t h l ts :
  ilist_rep h l ts -> t ∉ ts -> h !! t = Some None ->
  exists h' l', ilist_insertHead dbg t h l = Ok (bool_decide (ts = []), h', l') /\
    ilist_rep h' l' (t :: ts) /\ (forall x, x <> t -> h' !! x = h !! x).
Proof.
  intros [Hc Hd] Hn Ht. unfold ilist_insertHead, next. rewrite Ht.
  replace (dbg && negb (bool_decide (None = None))) with false by (destruct dbg; done).
  exists (<[t := head_ l]> h), (mk_ilist (Some t)). split_and!.
  - do 3 f_equal. destruct ts as [|x ts]; cbn in Hc; [by rewrite Hc|].
    destruct Hc as [-> _]. done.
  - split; [|by constructor]. cbn. split; [done|]. exists (head_ l).
    rewrite lookup_insert_eq. split; [done|]. by apply chain_insert_ne.
  - intros x Hx. by rewrite lookup_insert_ne.
Qed.

(** ** [AtomicLinkedList<T>]: the list that owns wrappers *)

Section Owning.
Context {T : Type}.

Record atomic_list := mk_alist {
  a_hooks : hooks;
  a_data : heap T;
  a_list : intrusive_list
}.

Definition alist_new : atomic_list := mk_alist ∅ heap_empty (mk_ilist None).

Definition alist_empty (a : atomic_list) : bool := ilist_empty (a_list a).

(** [insertHead]: a new wrapper around [t]. *)
Definition alist_insertHead (dbg : bool) (t : T) (a : atomic_list) : outcome (bool * atomic_list) :=
  let '(w, data) := heap_new t (a_data a) in
  match ilist_insertHead dbg w (<[w := None]> (a_hooks a)) (a_list a) with
  | Ok (b, h, l) => Ok (b, mk_alist h data l)
  | Throw e => Throw e | ThrowStd => ThrowStd
  | AssertFail => AssertFail | Undefined => Undefined | OutOfFuel => OutOfFuel
  end.

(** The lambda of [sweep] and [reverseSweep]: take the data of a wrapper, delete it. *)
Fixpoint take_wrappers (ws : list ptr) (h : hooks) (data : heap T)
  : outcome (list T * hooks * heap T) :=
  match ws with
  | [] => Ok ([], h, data)
  | w :: ws' =>
      match heap_get data w, heap_delete w data with
      | Some v, Some data' =>
          match take_wrappers ws' (delete w h) data' with
          | Ok (vs, h', d') => Ok (v :: vs, h', d')
          | r => r
          end
      | _, _ => Undefined
      end
  end.

Definition with_swept (r : outcome (list ptr * hooks * intrusive_list)) (a : atomic_list)
  : outcome (list T * atomic_list) :=
  match r with
  | Ok (ws, h, l) =>
      match take_wrappers ws h (a_data a) with
      | Ok (vs, h', d') => Ok (vs, mk_alist h' d' l)
      | _ => Undefined
      end
  | _ => Undefined
  end.

(** The values [func] receives, in order; the fuel is the number of wrappers. *)
Definition alist_sweep (a : atomic_list) : outcome (list T * atomic_list) :=
  with_swept (ilist_sweep (size (a_hooks a)) (a_hooks a) (a_list a)) a.

Definition alist_reverseSweep (a : atomic_list) : outcome (list T * atomic_list) :=
  with_swept (ilist_reverseSweep (size (a_hooks a)) (a_hooks a) (a_list a)) a.

(** The list holds [vs], most recent first, and owns exactly its wrappers. *)
Definition alist_rep (a : atomic_list) (vs : list T) : Prop :=
  exists ws, ilist_rep (a_hooks a) (a_list a) ws /\
    Forall2 (fun w v => h_cells (a_data a) !! w = Some v) ws vs /\
    (forall w, is_Some (a_hooks a !! w) <-> w ∈ ws) /\
    (forall w, is_Some (h_cells (a_data a) !! w) <-> w ∈ ws) /\
    heap_wf (a_data a).

Lemma alist_new_rep : alist_rep alist_new [].
Proof.
  exists []. split_and!; [by split; [|constructor]|constructor| | |apply heap_empty_wf];
    intros w; cbn; rewrite lookup_empty; (split; [by intros [? [=]]|by intros ?%elem_of_nil]).
Qed.

(** As many wrappers as hooks: the fuel of a sweep is enough. *)
Lemma alist_fuel a vs ws :
  NoDup ws -> (forall w, is_Some (a_hooks a !! w) <-> w ∈ ws) ->
  length (vs : list T) = length ws -> (length ws <= size (a_hooks a))%nat.
Proof.
  intros Hnd Hdom _. rewrite <- size_dom.
  rewrite <- (size_list_to_set (C:=gset ptr) ws Hnd). apply subseteq_size.
  intros w Hw. apply elem_of_list_to_set in Hw. by apply elem_of_dom, Hdom.
Qed.

Lemma alist_insertHead_spec dbg t a vs :
  alist_rep a vs ->
  exists a', alist_insertHead dbg t a = Ok (bool_decide (vs = []), a') /\ alist_rep a' (t :: vs).
Proof.
  intros (ws&Hrep&Hvs&Hdom&Hdata&Hwf). unfold alist_insertHead, heap_new.
  set (w := h_next (a_data a)).
  assert (Hfresh : h_cells (a_data a) !! w = None) by (apply heap_fresh; [done|subst w; lia]).
  assert (Hw : w ∉ ws) by (rewrite <- Hdata, Hfresh; by intros [? [=]]).
  destruct Hrep as [Hc Hnd].
  destruct (ilist_insertHead_spec dbg w (<[w := None]> (a_hooks a)) (a_list a) ws)
    as (h'&l'&->&Hrep'&Hframe).
  { split; [by apply chain_insert_ne|done]. }
  { done. }
  { by rewrite lookup_insert_eq. }
  eexists. split.
  { do 3 f_equal. apply bool_decide_ext. pose proof (Forall2_length _ _ _ Hvs).
    split; intros ->; [by apply nil_length_inv|by destruct ws]. }
  exists (w :: ws). cbn [a_hooks a_data a_list h_cells]. split_and!.
  - done.
  - constructor; [by rewrite lookup_insert_eq|]. eapply Forall2_impl; [exact Hvs|].
    intros x v Hx. rewrite lookup_insert_ne; [done|]. intros <-. congruence.
  - intros x. rewrite elem_of_cons. destruct (decide (x = w)) as [->|Hne].
    + destruct Hrep' as [Hc' _]. destruct Hc' as [_ (nx&Hx&_)]. rewrite Hx. split; [by left|by eexists].
    + rewrite Hframe by done. rewrite lookup_insert_ne by done. rewrite Hdom. split; [by right|by intros [?|?]].
  - intros x. rewrite elem_of_cons. destruct (decide (x = w)) as [->|Hne].
    + rewrite lookup_insert_eq. split; [by left|by eexists].
    + rewrite lookup_insert_ne by done. rewrite Hdata. split; [by right|by intros [?|?]].
  - apply (heap_new_wf t (a_data a) Hwf).
Qed.

Lemma Forall2_lookup_delete (m : gmap ptr T) ws vs w :
  w ∉ ws -> Forall2 (fun x v => m !! x = Some v) ws vs ->
  Forall2 (fun x v => delete w m !! x = Some v) ws vs.
Proof.
  intros Hw Hvs. induction Hvs as [|x v ws vs Hx _ IH]; [constructor|].
  apply not_elem_of_cons in Hw as [? ?]. constructor; [by rewrite lookup_delete_ne|auto].
Qed.

Lemma take_wrappers_spec ws vs h data :
  Forall2 (fun w v => h_cells data !! w = Some v) ws vs -> NoDup ws -> heap_wf data ->
  exists h' d', take_wrappers ws h data = Ok (vs, h', d') /\ heap_wf d' /\
    (forall x, x ∉ ws -> h' !! x = h !! x /\ h_cells d' !! x = h_cells data !! x) /\
    (forall x, x ∈ ws -> h' !! x = None /\ h_cells d' !! x = None).
Proof.
  intros Hvs. revert h data Hvs. revert vs. induction ws as [|w ws IH]; intros vs h data Hvs Hnd Hwf.
  - inversion Hvs; subst. exists h, data. split_and!; [done..|]. by intros x ?%elem_of_nil.
  - inversion Hvs as [|? v ? vs' Hw Hvs' E1 E2]; subst. apply NoDup_cons in Hnd as [Hn Hnd]. cbn.
    unfold heap_get, heap_delete. rewrite Hw.
    destruct (IH vs' (delete w h) (mk_heap (delete w (h_cells data)) (h_next data)))
      as (h'&d'&->&Hwf'&Hout&Hin).
    + by apply Forall2_lookup_delete.
    + done.
    + intros p b Hp. cbn in Hp. apply lookup_delete_Some in Hp as [_ Hp]. by apply Hwf in Hp.
    + exists h', d'. split_and!; [done..| |].
      * intros x Hx. apply not_elem_of_cons in Hx as [? ?]. destruct (Hout x) as [-> ->]; [done|].
        cbn. by rewrite !lookup_delete_ne.
      * intros x [->|Hx]%elem_of_cons; [|by apply Hin]. destruct (Hout w) as [-> ->]; [done|].
        cbn. by rewrite !lookup_delete_eq.
Qed.

(** Both sweeps, from what they do to the hooks. *)
Lemma with_swept_spec a ws vs sw svs h :
  alist_rep a vs -> ilist_rep (a_hooks a) (a_list a) ws ->
  Forall2 (fun w v => h_cells (a_data a) !! w = Some v) ws vs ->
  sw ≡ₚ ws -> Forall2 (fun w v => h_cells (a_data a) !! w = Some v) sw svs ->
  (forall x, x ∉ ws -> h !! x = a_hooks a !! x) ->
  (forall w, is_Some (a_hooks a !! w) <-> w ∈ ws) ->
  (forall w, is_Some (h_cells (a_data a) !! w) <-> w ∈ ws) ->
  exists a', with_swept (Ok (sw, h, mk_ilist None)) a = Ok (svs, a') /\ alist_rep a' [].
Proof.
  intros (_&_&_&_&_&Hwf) [_ Hnd] _ Hp Hsvs Hframe Hdom Hdata. cbn.
  destruct (take_wrappers_spec sw svs h (a_data a)) as (h'&d'&->&Hwf'&Hout&Hin); [done| |done|].
  { by rewrite Hp. }
  eexists. split; [done|]. exists []. cbn.
  assert (Hnone : forall x, h' !! x = None /\ h_cells d' !! x = None).
  { intros x. destruct (decide (x ∈ sw)) as [Hx|Hx]; [by apply Hin|].
    destruct (Hout x Hx) as [-> ->]. rewrite Hp in Hx. rewrite Hframe by done.
    split; apply eq_None_not_Some; [by rewrite Hdom|by rewrite Hdata]. }
  split_and!; [by split; [|constructor]|constructor| | |done]; intros x;
    destruct (Hnone x) as [E1 E2]; rewrite ?E1, ?E2;
    (split; [by intros [? [=]]|by intros ?%elem_of_nil]).
Qed.

Lemma alist_sweep_spec a vs :
  alist_rep a vs -> exists a', alist_sweep a = Ok (rev vs, a') /\ alist_rep a' [].
Proof.
  intros Hrep. pose proof Hrep as (ws&Hil&Hvs&Hdom&Hdata&Hwf).
  unfold alist_sweep.
  destruct (ilist_sweep_spec (size (a_hooks a)) (a_hooks a) (a_list a) ws Hil) as (h&->&_&Hframe).
  { apply (alist_fuel a vs); [apply Hil|done|]. symmetry. by eapply Forall2_length. }
  apply (with_swept_spec a ws vs); try done; [|by apply Forall2_rev].
  by rewrite <- Permutation_rev.
Qed.

Lemma alist_reverseSweep_spec a vs :
  alist_rep a vs -> exists a', alist_reverseSweep a = Ok (vs, a') /\ alist_rep a' [].
Proof.
  intros Hrep. pose proof Hrep as (ws&Hil&Hvs&Hdom&Hdata&Hwf).
  unfold alist_reverseSweep, ilist_reverseSweep.
  destruct (unlinkAll_spec (size (a_hooks a)) (a_hooks a) (head_ (a_list a)) ws) as (h&->&_&Hframe).
  { apply Hil. }
  { apply Hil. }
  { apply (alist_fuel a vs); [apply Hil|done|]. symmetry. by eapply Forall2_length. }
  by eapply with_swept_spec.
Qed.
End Owning.
Arguments atomic_list : clear implicits.
Arguments alist_insertHead : simpl never.
Arguments alist_sweep : simpl never.
Arguments alist_reverseSweep : simpl never.

(** ** Properties *)

(** Inserting values one by one into an empty list: the results of the calls and the list. *)
Definition insert_all {T} (dbg : bool) (vs : list T) : outcome (list bool * atomic_list T) :=
  foldl (fun r v =>
    match r with
    | Ok (bs, a) =>
        match alist_insertHead dbg v a with
        | Ok (b, a') => Ok (bs ++ [b], a')
        | _ => Undefined
        end
    | r => r
    end) (Ok ([], alist_new)) vs.

(** C22. [AtomicLinkedList]: after inserting [vs] one by one into an empty list, [sweep] calls
    the function on every value in insertion order and [reverseSweep] in the opposite order,
    [insertHead] returns true exactly for the first value, and the list is left empty with
    every wrapper freed. *)
Theorem atomic_list_sweep_order {T : Type} (dbg : bool) (vs : list T) :
  exists a a1 a2,
    insert_all dbg vs = Ok (imap (fun i _ => bool_decide (i = 0%nat)) vs, a) /\
    alist_sweep a = Ok (vs, a1) /\ alist_rep a1 [] /\
    alist_reverseSweep a = Ok (rev vs, a2) /\ alist_rep a2 [].
Proof.
  assert (H : exists a, insert_all dbg vs = Ok (imap (fun i _ => bool_decide (i = 0%nat)) vs, a) /\
    alist_rep a (rev vs)).
  { induction vs as [|v vs IH] using rev_ind; [exists alist_new; split; [done|apply alist_new_rep]|].
    destruct IH as (a&Ha&Hrep). destruct (alist_insertHead_spec dbg v a _ Hrep) as (a'&Hi&Hrep').
    exists a'. unfold insert_all in *. rewrite foldl_app, Ha. cbn [foldl]. rewrite Hi, rev_app_distr. split; [|done].
    do 2 f_equal. rewrite imap_app. cbn. f_equal. f_equal. apply bool_decide_ext.
    rewrite <- (length_rev vs), Nat.add_0_r. apply symmetry, length_zero_iff_nil. }
  destruct H as (a&Ha&Hrep). destruct (alist_sweep_spec a _ Hrep) as (a1&H1&?).
  destruct (alist_reverseSweep_spec a _ Hrep) as (a2&H2&?).
  exists a, a1, a2. rewrite rev_involutive in H1. done.
Qed.
