(* ===== verification/AtomicListWeak.v ===== *)
(** * The atomic list under release and acquire

    [insertHead] and [sweep] of libs/AtomicIntrusiveLinkedList.h on the memory of RelAcq.v, cut at
    every access, for any number of threads that insert and sweep.  The head is loaded relaxed and
    exchanged with release (insertHead) or sequentially consistent (sweep, of which only acquire
    and release are used); the hooks are plain memory.  What lets a sweeping thread follow hooks
    that several other threads wrote is that an exchange hands on the views of those before it. *)

From S2P Require Import Prelude Heap RelAcq.

Inductive list_loc := Head | Next (p : ptr).

#[export] Instance list_loc_eq_dec : EqDecision list_loc.
Proof. solve_decision. Defined.

Local Abbreviation mem := (memory list_loc (option ptr)).
Local Abbreviation lview := (view list_loc).

(** The orderings of [insertHead]'s load and exchange, and of [sweep]'s exchange. *)
Record list_orders := mk_list_orders { insert_load : order; insert_cas : order; sweep_exchange : order }.
Definition list_source_orders : list_orders := mk_list_orders Relaxed Release AcqRel.

(** Where a thread is: in [insertHead(t)] before its assertion, the load, the write of the hook, or
    the compare-and-exchange; in [sweep] before the exchange, in the loops of [reverse] and
    [unlinkAll] before the read or the write of a hook. *)
Inductive wl_pc :=
| LIdle
| LAssert (t : ptr)
| LLoad (t : ptr)
| LLink (t : ptr) (oldHead : option ptr)
| LCas (t : ptr) (oldHead : option ptr)
| LExchange
| LReverse (head rhead : option ptr)
| LReverseSet (t : ptr) (head rhead : option ptr)
| LUnlink (head : option ptr)
| LUnlinkSet (t : ptr) (head : option ptr)
| LAssertFailed
| LRace.

Section Accesses.
Context (ord : list_orders).

(** One access; a load, and an exchange that fails, read the write number [ts]; [spurious]: the
    exchange fails although the head is the expected one. *)
Definition insert_access (ts : nat) (spurious : bool) (c : wl_pc) (m : mem) (w : lview) : option (wl_pc * mem * lview) :=
  match c with
  | LAssert t =>
      match plain_read (Next t) m w with
      | Some (None, m', w') => Some (LLoad t, m', w')
      | Some (Some _, m', w') => Some (LAssertFailed, m', w')
      | None => Some (LRace, m, w)
      end
  | LLoad t => '(x, w') ← load_at (insert_load ord) Head ts m w; Some (LLink t x, m, w')
  | LLink t oldHead =>
      match plain_write (Next t) oldHead m w with
      | Some (m', w') => Some (LCas t oldHead, m', w')
      | None => Some (LRace, m, w)
      end
  | LCas t oldHead =>
      '(x, m', w') ← exchange (insert_cas ord) Head (Some t) m w;
      if decide (x = oldHead /\ spurious = false) then Some (LIdle, m', w')
      else '(x, w') ← load_at (insert_load ord) Head ts m w; Some (LLink t x, m, w')
  | _ => None
  end.

Definition sweep_access (c : wl_pc) (m : mem) (w : lview) : option (wl_pc * mem * lview) :=
  match c with
  | LExchange =>
      '(x, m', w') ← exchange (sweep_exchange ord) Head None m w;
      Some (match x with None => LIdle | Some _ => LReverse x None end, m', w')
  | LReverse None rhead => Some (LUnlink rhead, m, w)
  | LReverse (Some t) rhead =>
      match plain_read (Next t) m w with
      | Some (x, m', w') => Some (LReverseSet t x rhead, m', w')
      | None => Some (LRace, m, w)
      end
  | LReverseSet t head rhead =>
      match plain_write (Next t) rhead m w with
      | Some (m', w') => Some (LReverse head (Some t), m', w')
      | None => Some (LRace, m, w)
      end
  | LUnlink None => Some (LExchange, m, w)
  | LUnlink (Some t) =>
      match plain_read (Next t) m w with
      | Some (x, m', w') => Some (LUnlinkSet t x, m', w')
      | None => Some (LRace, m, w)
      end
  | LUnlinkSet t head =>
      match plain_write (Next t) None m w with
      | Some (m', w') => Some (LUnlink head, m', w')
      | None => Some (LRace, m, w)
      end
  | _ => None
  end.

(** A thread, with the objects it may insert, those its exchanges took from the list (in the order
    [sweep] promises), and those [func] was called on. *)
Record wl_thread := mk_wl_thread {
  lt_pc : wl_pc;
  lt_view : lview;
  lt_free : list ptr;
  lt_taken : list ptr;
  lt_delivered : list ptr
}.

(** Memory, the threads, and the objects inserted, in the order of the exchanges. *)
Record wl_sys := mk_wl_sys { wl_mem : mem; wl_threads : list wl_thread; wl_inserted : list ptr }.

(** The objects in the list, from the head, as long as [fuel] allows. *)
Fixpoint hook_chain (fuel : nat) (m : mem) (h : option ptr) : list ptr :=
  match fuel, h with
  | S fuel', Some p => p :: match m_val <$> last (m (Next p)) with Some x => hook_chain fuel' m x | None => [] end
  | _, _ => []
  end.

Inductive wl_step (y : wl_sys) : wl_sys -> Prop :=
| wl_insert i th t f1 f2 : wl_threads y !! i = Some th -> lt_pc th = LIdle -> lt_free th = f1 ++ t :: f2 ->
    wl_step y (mk_wl_sys (wl_mem y) (<[i := mk_wl_thread (LAssert t) (lt_view th) (f1 ++ f2) (lt_taken th) (lt_delivered th)]> (wl_threads y))
                 (wl_inserted y))
| wl_sweep i th : wl_threads y !! i = Some th -> lt_pc th = LIdle ->
    wl_step y (mk_wl_sys (wl_mem y) (<[i := mk_wl_thread LExchange (lt_view th) (lt_free th) (lt_taken th) (lt_delivered th)]> (wl_threads y))
                 (wl_inserted y))
| wl_insert_access i th ts sp c' m' w' : wl_threads y !! i = Some th ->
    insert_access ts sp (lt_pc th) (wl_mem y) (lt_view th) = Some (c', m', w') ->
    wl_step y (mk_wl_sys m' (<[i := mk_wl_thread c' w' (lt_free th) (lt_taken th) (lt_delivered th)]> (wl_threads y))
                 (match lt_pc th, c' with LCas t _, LIdle => wl_inserted y ++ [t] | _, _ => wl_inserted y end))
| wl_sweep_access i th c' m' w' grabbed : wl_threads y !! i = Some th ->
    sweep_access (lt_pc th) (wl_mem y) (lt_view th) = Some (c', m', w') ->
    grabbed = match lt_pc th, c' with LExchange, LReverse h _ => rev (hook_chain (length (wl_inserted y)) (wl_mem y) h) | _, _ => [] end ->
    wl_step y (mk_wl_sys m'
      (<[i := mk_wl_thread c' w'
           (match lt_pc th with LUnlinkSet t _ => lt_free th ++ [t] | _ => lt_free th end) (lt_taken th ++ grabbed)
           (match lt_pc th with LUnlinkSet t _ => lt_delivered th ++ [t] | _ => lt_delivered th end)]> (wl_threads y))
      (wl_inserted y)).

(** Threads that start with objects of their own, none in the list. *)
Definition wl_start (os : list (list ptr)) : wl_sys :=
  mk_wl_sys (fun l => match l with
                      | Head => [mk_message None vbot]
                      | Next p => if decide (p ∈ concat os) then [mk_message None vbot] else []
                      end)
    ((fun o => mk_wl_thread LIdle vbot o [] []) <$> os) [].
End Accesses.

(** ** The invariant *)

(** The newest value of a location. *)
Definition now (m : mem) (l : list_loc) : option (option ptr) := m_val <$> last (m l).

(** The hooks lead from [h] through [c] to null. *)
Fixpoint linked (m : mem) (h : option ptr) (c : list ptr) : Prop :=
  match c with
  | [] => h = None
  | p :: c' => h = Some p /\ exists x, now m (Next p) = Some x /\ linked m x c'
  end.

(** What a thread holds besides its free objects, and what it has still to deliver. *)
Definition pc_holds (m : mem) (c : wl_pc) (held pend : list ptr) : Prop :=
  match c with
  | LIdle | LExchange => held = [] /\ pend = []
  | LAssert t => held = [t] /\ pend = [] /\ now m (Next t) = Some None
  | LLoad t | LLink t _ => held = [t] /\ pend = []
  | LCas t oldHead => held = [t] /\ pend = [] /\ now m (Next t) = Some oldHead
  | LReverse h r => exists c1 c2, linked m h c1 /\ linked m r c2 /\ held = c1 ++ c2 /\ pend = rev c1 ++ c2
  | LReverseSet t h r => exists c1 c2, linked m h c1 /\ linked m r c2 /\ held = t :: c1 ++ c2 /\ pend = rev c1 ++ t :: c2
  | LUnlink h => linked m h held /\ pend = held
  | LUnlinkSet t h => exists c, linked m h c /\ held = t :: c /\ pend = held
  | LAssertFailed | LRace => False
  end.

(** A thread knows the newest write of the hook of each object [o] it has. *)
Record thread_holds (m : mem) (th : wl_thread) (o : list ptr) : Prop := {
  th_view : view_ok m (lt_view th);
  th_knows p : (p ∈ o) -> lt_view th (Next p) = newest m (Next p) /\ m (Next p) <> [];
  th_free p : (p ∈ lt_free th) -> now m (Next p) = Some None;
  th_pc : exists held pend, o ≡ₚ lt_free th ++ held /\ pc_holds m (lt_pc th) held pend /\ lt_taken th = lt_delivered th ++ pend
}.

(** The objects in the list are [c], those of the threads [own]. *)
Record wl_inv_at (all : list ptr) (y : wl_sys) (c : list ptr) (own : list (list ptr)) : Prop := {
  wl_mem_ok : mem_ok (wl_mem y);
  wl_head : exists msg, last (wl_mem y Head) = Some msg /\ linked (wl_mem y) (m_val msg) c /\
    forall p, (p ∈ c) -> m_rel msg (Next p) = newest (wl_mem y) (Next p) /\ wl_mem y (Next p) <> [];
  wl_own : length own = length (wl_threads y);
  wl_holds i th o : wl_threads y !! i = Some th -> own !! i = Some o -> thread_holds (wl_mem y) th o;
  wl_all : c ++ concat own ≡ₚ all;
  wl_order : exists swept, wl_inserted y = swept ++ rev c /\ swept ≡ₚ concat (lt_taken <$> wl_threads y) /\
    Forall (fun th => lt_taken th `sublist_of` swept) (wl_threads y)
}.

Lemma now_append l x r (m : mem) : now (append l x r m) l = Some x.
Proof. unfold now. by rewrite append_at, last_snoc. Qed.
Lemma now_append_ne l l' x r (m : mem) : l' <> l -> now (append l x r m) l' = now m l'.
Proof. intros Hl. unfold now. by rewrite append_ne. Qed.

Lemma linked_append l x r m h c : (forall p, (p ∈ c) -> l <> Next p) -> linked m h c -> linked (append l x r m) h c.
Proof.
  revert h. induction c as [|p c IH]; intros h Hl; cbn; [done|]. intros (->&y&Hy&Hc). split; [done|]. exists y.
  split; [rewrite now_append_ne by (intros E; by apply (Hl p); [left|]); done|]. apply IH; [|done]. intros q Hq. apply Hl. by right.
Qed.

Lemma linked_hook_chain fuel m h c : linked m h c -> (length c <= fuel)%nat -> hook_chain fuel m h = c.
Proof.
  revert h fuel. induction c as [|p c IH]; intros h fuel; cbn.
  - intros -> _. by destruct fuel.
  - intros (->&x&Hx&Hc) Hf. destruct fuel as [|fuel]; [lia|]. cbn. unfold now in Hx. rewrite Hx. f_equal. apply IH; [done|lia].
Qed.

Lemma linked_head m h c : linked m h c -> h = head c.
Proof. destruct c; cbn; [done|]. by intros [-> _]. Qed.

Lemma pc_holds_append l x r m c held pend : (forall p, (p ∈ held) -> l <> Next p) -> pc_holds m c held pend -> pc_holds (append l x r m) c held pend.
Proof.
  intros Hl. destruct c as [|t|t|t old|t old| |h rh|t h rh|h|t h| |]; cbn; try done.
  - intros (->&->&Hn). split_and!; [done..|]. rewrite now_append_ne; [done|]. intros E. by apply (Hl t); [left|].
  - intros (->&->&Hn). split_and!; [done..|]. rewrite now_append_ne; [done|]. intros E. by apply (Hl t); [left|].
  - intros (c1&c2&H1&H2&->&->). exists c1, c2. split_and!; [| |done..]; (apply linked_append; [|done]); intros p Hp; apply Hl; set_solver.
  - intros (c1&c2&H1&H2&->&->). exists c1, c2. split_and!; [| |done..]; (apply linked_append; [|done]); intros p Hp; apply Hl; set_solver.
  - intros (H1&->). split; [|done]. by apply linked_append.
  - intros (c1&H1&->&->). exists c1. split_and!; [|done..]. apply linked_append; [|done]. intros p Hp. apply Hl. set_solver.
Qed.

(** A write to a location that is no hook of the thread's objects. *)
Lemma thread_holds_append l x r m th o : (forall p, (p ∈ o) -> l <> Next p) -> thread_holds m th o -> thread_holds (append l x r m) th o.
Proof.
  intros Hl [Hv Hk Hf (held&pend&Ho&Hpc&Ht)]. split.
  - eapply view_ok_mono; [apply append_extends|done].
  - intros p Hp. assert (Next p <> l) by (intros E; by apply (Hl p)). rewrite append_newest_ne, append_ne by done. by apply Hk.
  - intros p Hp. rewrite now_append_ne; [by apply Hf|]. intros E. apply (Hl p); [|done]. rewrite Ho. set_solver.
  - exists held, pend. split_and!; [done| |done]. apply pc_holds_append; [|done]. intros p Hp. apply Hl. rewrite Ho. set_solver.
Qed.

(** Objects of different threads, and of the list, are different. *)
Lemma own_apart all y c own i j oi oj p : NoDup all -> wl_inv_at all y c own -> own !! i = Some oi -> own !! j = Some oj -> i <> j ->
  (p ∈ oi) -> (p ∉ oj) /\ (p ∉ c).
Proof.
  intros Hnd Hy Hi Hj Hne Hp. pose proof (wl_all _ _ _ _ Hy) as Hall. rewrite <- Hall in Hnd. apply NoDup_app in Hnd as (_&Hc&Ho). split.
  - pose proof (concat_insert_perm own i oi [] Hi) as Hperm. rewrite app_nil_r in Hperm. rewrite <- Hperm in Ho.
    apply NoDup_app in Ho as (_&Ho&_). intros Hpj. apply (Ho p); [|done]. apply list_elem_of_In, in_concat. exists oj.
    split; [|by apply list_elem_of_In]. apply list_elem_of_In, (list_elem_of_lookup_2 _ j). by rewrite list_lookup_insert_ne.
  - intros Hpc. apply (Hc p Hpc). apply list_elem_of_In, in_concat. exists oi.
    split; [by apply list_elem_of_In, (list_elem_of_lookup_2 _ i)|by apply list_elem_of_In].
Qed.

Lemma own_not_listed all y c own i oi p : NoDup all -> wl_inv_at all y c own -> own !! i = Some oi -> (p ∈ oi) -> p ∉ c.
Proof.
  intros Hnd Hy Hi Hp Hpc. pose proof (wl_all _ _ _ _ Hy) as Hall. rewrite <- Hall in Hnd. apply NoDup_app in Hnd as (_&Hc&_).
  apply (Hc p Hpc). apply list_elem_of_In, in_concat. exists oi.
  split; [by apply list_elem_of_In, (list_elem_of_lookup_2 _ i)|by apply list_elem_of_In].
Qed.

Lemma own_nodup all y c own i oi : NoDup all -> wl_inv_at all y c own -> own !! i = Some oi -> NoDup oi.
Proof.
  intros Hnd Hy Hi. pose proof (wl_all _ _ _ _ Hy) as Hall. rewrite <- Hall in Hnd. apply NoDup_app in Hnd as (_&_&Ho).
  pose proof (concat_insert_perm own i oi [] Hi) as Hperm. rewrite app_nil_r in Hperm. rewrite <- Hperm in Ho. by apply NoDup_app in Ho as (_&_&?).
Qed.

(** ** Steps of a thread that change neither the list nor who has what *)

(** Who took what stays when the thread [i] becomes [th']. *)
Lemma taken_same (ths : list wl_thread) i th th' (ins c : list ptr) : ths !! i = Some th -> lt_taken th' = lt_taken th ->
  (exists swept, ins = swept ++ c /\ swept ≡ₚ concat (lt_taken <$> ths) /\ Forall (fun th => lt_taken th `sublist_of` swept) ths) ->
  exists swept, ins = swept ++ c /\ swept ≡ₚ concat (lt_taken <$> <[i := th']> ths) /\ Forall (fun th => lt_taken th `sublist_of` swept) (<[i := th']> ths).
Proof.
  intros Hi Ht (swept&Hs1&Hs2&Hs3). exists swept. rewrite list_fmap_insert, Ht, list_insert_id by (by rewrite list_lookup_fmap, Hi).
  split_and!; [done..|]. apply Forall_insert; [done|]. rewrite Ht. by eapply (Forall_lookup_1 _ _ _ _ Hs3).
Qed.

(** The thread [i] becomes [th'], the memory stays. *)
Lemma wl_local all y c own i th th' o : wl_inv_at all y c own -> wl_threads y !! i = Some th -> own !! i = Some o ->
  thread_holds (wl_mem y) th' o -> lt_taken th' = lt_taken th ->
  wl_inv_at all (mk_wl_sys (wl_mem y) (<[i := th']> (wl_threads y)) (wl_inserted y)) c own.
Proof.
  intros Hy Hi Ho Hth Ht. destruct Hy. split; cbn; try done.
  - by rewrite length_insert.
  - intros j tj oj Hj Hoj. apply list_lookup_insert_Some in Hj as [(<-&<-&_)|(Hne&Hj)]; [by simplify_eq|by eauto].
  - by eapply taken_same.
Qed.

(** The thread [i] writes the hook of one of its objects. *)
Lemma wl_hook all y c own i th th' o p x : NoDup all -> wl_inv_at all y c own -> wl_threads y !! i = Some th -> own !! i = Some o ->
  (p ∈ o) -> thread_holds (append (Next p) x vbot (wl_mem y)) th' o -> lt_taken th' = lt_taken th ->
  wl_inv_at all (mk_wl_sys (append (Next p) x vbot (wl_mem y)) (<[i := th']> (wl_threads y)) (wl_inserted y)) c own.
Proof.
  intros Hnd Hy Hi Ho Hp Hth Ht. pose proof (own_not_listed all y c own i o p Hnd Hy Ho Hp) as Hpc. pose proof Hy as Hy0. destruct Hy. split; cbn; try done.
  - apply mem_ok_append; [done|apply view_ok_bot].
  - destruct wl_head0 as (msg&Hm&Hl&Hk). exists msg. rewrite append_ne by done. split_and!; [done| |].
    + apply linked_append; [|done]. intros q Hq [= ->]. done.
    + intros q Hq. assert (Next q <> Next p) by (intros [= ->]; done). rewrite append_newest_ne, append_ne by done. by apply Hk.
  - by rewrite length_insert.
  - intros j tj oj Hj Hoj. apply list_lookup_insert_Some in Hj as [(<-&<-&_)|(Hne&Hj)]; [by simplify_eq|].
    apply thread_holds_append; [|by eauto]. intros q Hq [= ->]. by destruct (own_apart all y c own i j o oj q Hnd Hy0 Ho Hoj Hne Hp).
  - by eapply taken_same.
Qed.

(** Writing or reading the hook of an own object succeeds. *)
Lemma hook_write m th o p x : thread_holds m th o -> (p ∈ o) ->
  plain_write (Next p) x m (lt_view th) = Some (append (Next p) x vbot m, vput (Next p) (length (m (Next p))) (lt_view th)).
Proof.
  intros Hth Hp. destruct (th_knows _ _ _ Hth p Hp) as [Hk Hn]. destruct (last_newest m (Next p) Hn) as (msg&Hm&_). by eapply plain_write_known.
Qed.

Lemma hook_read m th o p : thread_holds m th o -> (p ∈ o) -> exists x, now m (Next p) = Some x /\
  plain_read (Next p) m (lt_view th) = Some (x, append (Next p) x vbot m, vput (Next p) (length (m (Next p))) (lt_view th)).
Proof.
  intros Hth Hp. destruct (th_knows _ _ _ Hth p Hp) as [Hk Hn]. destruct (last_newest m (Next p) Hn) as (msg&Hm&_). exists (m_val msg).
  split; [unfold now; by rewrite Hm|by eapply plain_read_known].
Qed.

(** After that the thread knows the newest write again. *)
Lemma thread_holds_hook m th o p x c' free' taken' delivered' held pend : NoDup o -> thread_holds m th o -> (p ∈ o) ->
  (forall q, (q ∈ free') -> q <> p -> q ∈ lt_free th) -> (p ∈ free' -> x = None) -> o ≡ₚ free' ++ held ->
  pc_holds (append (Next p) x vbot m) c' held pend -> taken' = delivered' ++ pend ->
  thread_holds (append (Next p) x vbot m) (mk_wl_thread c' (vput (Next p) (length (m (Next p))) (lt_view th)) free' taken' delivered') o.
Proof.
  intros Hnd [Hv Hk Hf _] Hp Hfree Hpf Ho Hpc Ht. split; cbn.
  - by apply view_ok_append.
  - intros q Hq. destruct (decide (q = p)) as [->|Hne].
    + rewrite append_newest, vput_eq, append_at. split; [done|]. by destruct (m (Next p)).
    + assert (Next q <> Next p) by (intros [= ->]; done). rewrite append_newest_ne, vput_ne, append_ne by done. by apply Hk.
  - intros q Hq. destruct (decide (q = p)) as [->|Hne]; [rewrite now_append; by rewrite Hpf|].
    rewrite now_append_ne by (intros [= ->]; done). by apply Hf, Hfree.
  - by exists held, pend.
Qed.

(** ** The accesses *)

Section Steps.
Context (all : list ptr) (all_nodup : NoDup all).

Definition wl_inv (y : wl_sys) : Prop := exists c own, wl_inv_at all y c own.

(** A relaxed load of the head, by the load or by a failing exchange. *)
Lemma head_load y c own i th o ts x w' t : wl_inv_at all y c own -> wl_threads y !! i = Some th -> own !! i = Some o ->
  load_at Relaxed Head ts (wl_mem y) (lt_view th) = Some (x, w') -> lt_pc th = LLoad t \/ (exists old, lt_pc th = LCas t old) ->
  wl_inv (mk_wl_sys (wl_mem y) (<[i := mk_wl_thread (LLink t x) w' (lt_free th) (lt_taken th) (lt_delivered th)]> (wl_threads y)) (wl_inserted y)).
Proof using All.
  intros Hy Hi Ho Hl Hpc. pose proof (wl_holds _ _ _ _ Hy i th o Hi Ho) as [Hv Hk Hf (held&pend&Hp&Hh&Ht)].
  destruct (load_ok _ _ _ _ _ _ _ (wl_mem_ok _ _ _ _ Hy) Hv Hl) as [Hok _]. destruct (load_at_inv _ _ _ _ _ _ _ Hl) as (msg&_&_&_&->).
  exists c, own. eapply wl_local; [done|done|done| |done]. split; cbn [lt_view lt_free lt_pc lt_taken lt_delivered]; [done| |done|].
  - intros p Hpo. unfold read_view, vjoin, vbot. cbn. rewrite vput_ne by done. rewrite Nat.max_0_r. by apply Hk.
  - exists held, pend. split_and!; [done| |done]. destruct Hpc as [E|[old E]]; rewrite E in Hh; cbn in Hh; cbn; naive_solver.
Qed.

(** The hook of an own object is read or written. *)
Lemma hook_step y c own i th o p x c' free' delivered' held pend : wl_inv_at all y c own -> wl_threads y !! i = Some th -> own !! i = Some o ->
  (p ∈ o) -> (forall q, (q ∈ free') -> q <> p -> q ∈ lt_free th) -> ((p ∈ free') -> x = None) -> o ≡ₚ free' ++ held ->
  pc_holds (append (Next p) x vbot (wl_mem y)) c' held pend -> lt_taken th = delivered' ++ pend ->
  wl_inv (mk_wl_sys (append (Next p) x vbot (wl_mem y))
    (<[i := mk_wl_thread c' (vput (Next p) (length (wl_mem y (Next p))) (lt_view th)) free' (lt_taken th) delivered']> (wl_threads y)) (wl_inserted y)).
Proof using All.
  intros Hy Hi Ho Hp Hfree Hpf Hperm Hpc Ht. exists c, own. eapply wl_hook; [done|done|done|done|done| |done].
  eapply thread_holds_hook; [by eapply own_nodup|by eapply (wl_holds _ _ _ _ Hy)|done..].
Qed.

(** A successful exchange of [insertHead]: the object joins the list. *)
Lemma cas_step y c own i th o t old x m' w' : wl_inv_at all y c own -> wl_threads y !! i = Some th -> own !! i = Some o ->
  lt_pc th = LCas t old -> exchange Release Head (Some t) (wl_mem y) (lt_view th) = Some (x, m', w') -> x = old ->
  wl_inv (mk_wl_sys m' (<[i := mk_wl_thread LIdle w' (lt_free th) (lt_taken th) (lt_delivered th)]> (wl_threads y)) (wl_inserted y ++ [t])).
Proof using All.
  intros Hy Hi Ho Hpc Hx ->. pose proof (wl_holds _ _ _ _ Hy i th o Hi Ho) as Hth. pose proof Hth as [Hv Hk Hf (held&pend&Hp&Hh&Ht)].
  rewrite Hpc in Hh. cbn in Hh. destruct Hh as (->&->&Hnow). destruct (wl_head _ _ _ _ Hy) as (msg&Hm&Hl&Hmk).
  assert (Hto : t ∈ o) by (rewrite Hp; set_solver). pose proof (wl_mem_ok _ _ _ _ Hy) as Hmok.
  destruct (exchange_ok _ _ _ _ _ _ _ _ Hmok Hv Hx) as (Hmok'&Hvok'&_&_).
  unfold exchange in Hx. rewrite Hm in Hx. cbn in Hx. injection Hx as <- <- <-. set (w2 := vput Head _ _) in *. set (r := vjoin (m_rel msg) w2) in *.
  assert (Hw2 : forall p, w2 (Next p) = lt_view th (Next p)).
  { intros p. unfold w2, read_view. cbn. rewrite vput_ne by done. unfold vjoin, vbot. rewrite vput_ne by done. lia. }
  assert (Hmr : view_ok (wl_mem y) (m_rel msg)) by (eapply Hmok, last_lookup_newest, Hm).
  assert (Hr : forall p, (p ∈ t :: c) -> r (Next p) = newest (wl_mem y) (Next p)).
  { intros p Hpc'. pose proof (Hmr (Next p)). pose proof (Hv (Next p)). unfold r, vjoin. rewrite Hw2. apply elem_of_cons in Hpc' as [->|Hpc'].
    - destruct (Hk t Hto). lia.
    - destruct (Hmk p Hpc'). lia. }
  exists (t :: c), (<[i := lt_free th]> own). split; cbn [wl_mem wl_threads wl_inserted].
  - done.
  - eexists. split; [by rewrite append_at, last_snoc|]. cbn [m_val m_rel]. split.
    + split; [done|]. exists (m_val msg). rewrite now_append_ne by done. split; [done|]. by apply linked_append.
    + intros p Hpc'. rewrite append_newest_ne, append_ne by done. split; [by apply Hr|].
      apply elem_of_cons in Hpc' as [->|Hpc']; [by apply Hk|by apply Hmk].
  - rewrite !length_insert. apply Hy.
  - intros j tj oj Hj Hoj. apply list_lookup_insert_Some in Hj as [(<-&<-&_)|(Hne&Hj)].
    + rewrite list_lookup_insert_eq in Hoj by (by eapply lookup_lt_Some). injection Hoj as <-. split; cbn; [done| | |].
      * intros p Hpf. rewrite append_newest_ne, append_ne, Hw2 by done. apply Hk. rewrite Hp. set_solver.
      * intros p Hpf. rewrite now_append_ne by done. by apply Hf.
      * exists [], []. by rewrite app_nil_r.
    + rewrite list_lookup_insert_ne in Hoj by done. apply thread_holds_append; [done|]. by eapply (wl_holds _ _ _ _ Hy j).
  - rewrite <- (wl_all _ _ _ _ Hy). pose proof (concat_insert_perm own i o (lt_free th) Ho) as Hc. revert Hc.
    generalize (concat (<[i := lt_free th]> own)) (concat own). intros l1 l2 Hc. rewrite Hp in Hc.
    apply (Permutation_app_inv_r (lt_free th)). rewrite <- (app_assoc c), <- Hc. solve_Permutation.
  - eapply taken_same; [done..|]. destruct (wl_order _ _ _ _ Hy) as (swept&Hs1&Hs2). exists swept. rewrite Hs1. cbn. by rewrite app_assoc.
Qed.

(** The exchange of [sweep]: the whole list becomes the thread's. *)
Lemma exchange_step y c own i th o x m' w' c' : wl_inv_at all y c own -> wl_threads y !! i = Some th -> own !! i = Some o ->
  lt_pc th = LExchange -> exchange AcqRel Head None (wl_mem y) (lt_view th) = Some (x, m', w') ->
  c' = match x with None => LIdle | Some _ => LReverse x None end ->
  wl_inv (mk_wl_sys m' (<[i := mk_wl_thread c' w' (lt_free th)
      (lt_taken th ++ match c' with LReverse h _ => rev (hook_chain (length (wl_inserted y)) (wl_mem y) h) | _ => [] end) (lt_delivered th)]>
      (wl_threads y)) (wl_inserted y)).
Proof using All.
  intros Hy Hi Ho Hpc Hx Hc'. pose proof (wl_holds _ _ _ _ Hy i th o Hi Ho) as Hth. pose proof Hth as [Hv Hk Hf (held&pend&Hp&Hh&Ht)].
  rewrite Hpc in Hh. cbn in Hh. destruct Hh as (->&->). rewrite app_nil_r in Hp, Ht. destruct (wl_head _ _ _ _ Hy) as (msg&Hm&Hl&Hmk).
  pose proof (wl_mem_ok _ _ _ _ Hy) as Hmok. destruct (exchange_ok _ _ _ _ _ _ _ _ Hmok Hv Hx) as (Hmok'&Hvok'&_&_).
  unfold exchange in Hx. rewrite Hm in Hx. cbn in Hx. injection Hx as <- <- <-. set (w2 := vput Head _ _) in *.
  assert (Hmr : view_ok (wl_mem y) (m_rel msg)) by (eapply Hmok, last_lookup_newest, Hm).
  assert (Hw2 : forall p, (p ∈ o ++ c) -> w2 (Next p) = newest (wl_mem y) (Next p)).
  { intros p Hpo. unfold w2, read_view. cbn. rewrite vput_ne by done. unfold vjoin. rewrite vput_ne by done.
    pose proof (Hmr (Next p)). pose proof (Hv (Next p)). apply elem_of_app in Hpo as [Hpo|Hpo]; [destruct (Hk p Hpo)|destruct (Hmk p Hpo)]; lia. }
  destruct (wl_order _ _ _ _ Hy) as (swept&Hs1&Hs2&Hs3).
  assert (Hgrab : match c' with LReverse h _ => rev (hook_chain (length (wl_inserted y)) (wl_mem y) h) | _ => [] end = rev c).
  { pose proof (linked_head _ _ _ Hl) as Hhd. rewrite Hc'. destruct c as [|p c1]; cbn in Hhd; rewrite Hhd in *; [done|].
    rewrite (linked_hook_chain _ _ _ (p :: c1)); [done|done|]. rewrite Hs1, length_app, length_rev. lia. }
  rewrite Hgrab. exists [], (<[i := o ++ c]> own). split; cbn [wl_mem wl_threads wl_inserted].
  - done.
  - eexists. split; [by rewrite append_at, last_snoc|]. cbn. split; [done|]. by intros p ?%elem_of_nil.
  - rewrite !length_insert. apply Hy.
  - intros j tj oj Hj Hoj. apply list_lookup_insert_Some in Hj as [(<-&<-&_)|(Hne&Hj)].
    + rewrite list_lookup_insert_eq in Hoj by (by eapply lookup_lt_Some). injection Hoj as <-. split; cbn; [done| | |].
      * intros p Hpo. rewrite append_newest_ne, append_ne, Hw2 by done. split; [done|].
        apply elem_of_app in Hpo as [Hpo|Hpo]; [by apply Hk|by apply Hmk].
      * intros p Hpf. rewrite now_append_ne by done. by apply Hf.
      * exists c, (rev c). split_and!; [by rewrite Hp| |by rewrite Ht]. pose proof (linked_head _ _ _ Hl) as Hhd. rewrite Hc'.
        destruct c as [|p c1]; cbn in Hhd; rewrite Hhd in *; [done|]. exists (p :: c1), []. rewrite !app_nil_r.
        split_and!; [|done..]. by apply linked_append.
    + rewrite list_lookup_insert_ne in Hoj by done. apply thread_holds_append; [done|]. by eapply (wl_holds _ _ _ _ Hy j).
  - cbn. rewrite <- (wl_all _ _ _ _ Hy). pose proof (concat_insert_perm own i o (o ++ c) Ho) as Hc. revert Hc.
    generalize (concat (<[i := o ++ c]> own)) (concat own). intros l1 l2 Hc. apply (Permutation_app_inv_r o). rewrite Hc. solve_Permutation.
  - exists (swept ++ rev c). cbn. rewrite app_nil_r. split_and!; [done| |].
    2: { apply Forall_insert; [|cbn; apply sublist_app; [by eapply (Forall_lookup_1 _ _ _ _ Hs3)|done]].
         eapply Forall_impl; [exact Hs3|]. intros th0 Hth0. cbn. by apply sublist_inserts_r. }
    rewrite list_fmap_insert. cbn. pose proof (concat_insert_perm (lt_taken <$> wl_threads y) i (lt_taken th) (lt_taken th ++ rev c)) as Hc.
    rewrite list_lookup_fmap, Hi in Hc. specialize (Hc eq_refl). rewrite Hs2. revert Hc.
    generalize (concat (<[i := lt_taken th ++ rev c]> (lt_taken <$> wl_threads y))) (concat (lt_taken <$> wl_threads y)). intros l1 l2 Hc.
    apply (Permutation_app_inv_r (lt_taken th)). rewrite Hc. solve_Permutation.
Qed.
(** The accesses of [insertHead]. *)
Lemma insert_access_inv y i th ts sp c' m' w' : wl_inv y -> wl_threads y !! i = Some th ->
  insert_access list_source_orders ts sp (lt_pc th) (wl_mem y) (lt_view th) = Some (c', m', w') ->
  wl_inv (mk_wl_sys m' (<[i := mk_wl_thread c' w' (lt_free th) (lt_taken th) (lt_delivered th)]> (wl_threads y))
    (match lt_pc th, c' with LCas t _, LIdle => wl_inserted y ++ [t] | _, _ => wl_inserted y end)).
Proof using All.
  intros (c&own&Hy) Hi Ha. destruct (lookup_lt_is_Some_2 own i) as [o Ho]; [rewrite (wl_own _ _ _ _ Hy); by eapply lookup_lt_Some|].
  pose proof (wl_holds _ _ _ _ Hy i th o Hi Ho) as Hth. pose proof (th_pc _ _ _ Hth) as (held&pend&Hp&Hh&Ht).
  pose proof (own_nodup _ _ _ _ _ _ all_nodup Hy Ho) as Hnd. rewrite Hp in Hnd.
  destruct (lt_pc th) as [|t|t|t old|t old| |h r|t h r|h|t h| |] eqn:E; cbn in Ha, Hh; try done.
  - destruct Hh as (->&->&Hn). assert (Hto : t ∈ o) by (rewrite Hp; set_solver).
    destruct (hook_read _ _ _ _ Hth Hto) as (x&Hx&Hr). rewrite Hr in Ha. rewrite Hn in Hx. injection Hx as <-. injection Ha as <- <- <-.
    by eapply (hook_step y c own i th o t None).
  - destruct (load_at _ _ _ _ _) as [[x w1]|] eqn:Hl; [|done]. injection Ha as <- <- <-. eapply head_load; [done..|]. by left.
  - destruct Hh as (->&->). assert (Hto : t ∈ o) by (rewrite Hp; set_solver). rewrite (hook_write _ _ _ _ old Hth Hto) in Ha.
    injection Ha as <- <- <-. eapply (hook_step y c own i th o t old _ _ _ [t] []); try done.
    + intros Hf. apply NoDup_app in Hnd as (_&Hnd&_). exfalso. apply (Hnd t Hf). by left.
    + cbn. split_and!; [done..|]. by rewrite now_append.
  - destruct (exchange _ _ _ _ _) as [[[x m1] w1]|] eqn:Hx; [|done]. cbn in Ha. case_decide as Hd.
    + injection Ha as <- <- <-. eapply cas_step; [done..|]. apply Hd.
    + destruct (load_at _ _ _ _ _) as [[x' w2]|] eqn:Hl; [|done]. injection Ha as <- <- <-. eapply head_load; [done..|]. right. by exists old.
Qed.

(** The accesses of [sweep]. *)
Lemma sweep_access_inv y i th c' m' w' grabbed : wl_inv y -> wl_threads y !! i = Some th ->
  sweep_access list_source_orders (lt_pc th) (wl_mem y) (lt_view th) = Some (c', m', w') ->
  grabbed = match lt_pc th, c' with LExchange, LReverse h _ => rev (hook_chain (length (wl_inserted y)) (wl_mem y) h) | _, _ => [] end ->
  wl_inv (mk_wl_sys m'
    (<[i := mk_wl_thread c' w'
         (match lt_pc th with LUnlinkSet t _ => lt_free th ++ [t] | _ => lt_free th end) (lt_taken th ++ grabbed)
         (match lt_pc th with LUnlinkSet t _ => lt_delivered th ++ [t] | _ => lt_delivered th end)]> (wl_threads y))
    (wl_inserted y)).
Proof using All.
  intros (c&own&Hy) Hi Ha Hg. destruct (lookup_lt_is_Some_2 own i) as [o Ho]; [rewrite (wl_own _ _ _ _ Hy); by eapply lookup_lt_Some|].
  pose proof (wl_holds _ _ _ _ Hy i th o Hi Ho) as Hth. pose proof (th_pc _ _ _ Hth) as (held&pend&Hp&Hh&Ht).
  pose proof (own_nodup _ _ _ _ _ _ all_nodup Hy Ho) as Hnd. rewrite Hp in Hnd. apply NoDup_app in Hnd as (_&Hfh&Hnd).
  destruct (lt_pc th) as [|t|t|t old|t old| |[t|] r|t h r|[t|]|t h| |] eqn:E; cbn in Ha, Hh; try done.
  all: try rewrite Hg, app_nil_r.
  - destruct (exchange _ _ _ _ _) as [[[x m1] w1]|] eqn:Hx; [|done]. cbn in Ha. injection Ha as <- <- <-. rewrite Hg.
    by eapply exchange_step.
  - destruct Hh as (c1&c2&H1&H2&->&->). destruct c1 as [|q c1]; [done|]. destruct H1 as ([= <-]&z&Hz&H1).
    assert (Hto : t ∈ o) by (rewrite Hp; set_solver). destruct (hook_read _ _ _ _ Hth Hto) as (x&Hx&Hr). rewrite Hr in Ha.
    rewrite Hz in Hx. injection Hx as <-. injection Ha as <- <- <-.
    eapply (hook_step y c own i th o t z _ _ _ (t :: c1 ++ c2) (rev c1 ++ t :: c2)); try done.
    + intros Hf. exfalso. apply (Hfh t Hf). by left.
    + exists c1, c2. split_and!; [| |done..]; (apply linked_append; [|done]); intros p Hp' [= ->];
        apply NoDup_cons in Hnd as [Hnd _]; apply Hnd, elem_of_app; [by left|by right].
    + rewrite Ht. cbn. by rewrite <- (app_assoc (rev c1)).
  - destruct Hh as (c1&c2&H1&H2&->&->). destruct c1; [|by destruct H1]. injection Ha as <- <- <-.
    exists c, own. eapply wl_local; [done..| |done]. destruct Hth as [Hv Hk Hf _]. split; [done..|]. by exists c2, c2.
  - destruct Hh as (c1&c2&H1&H2&->&->). assert (Hto : t ∈ o) by (rewrite Hp; set_solver). rewrite (hook_write _ _ _ _ r Hth Hto) in Ha.
    injection Ha as <- <- <-. eapply (hook_step y c own i th o t r _ _ _ (c1 ++ t :: c2) (rev c1 ++ t :: c2)); try done.
    + intros Hf. exfalso. apply (Hfh t Hf). by left.
    + rewrite Hp. solve_Permutation.
    + apply NoDup_cons in Hnd as [Hnd _]. exists c1, (t :: c2). split_and!; [| |done..].
      * apply linked_append; [|done]. intros p Hp' [= ->]. apply Hnd, elem_of_app. by left.
      * split; [done|]. exists r. split; [by rewrite now_append|]. apply linked_append; [|done]. intros p Hp' [= ->]. apply Hnd, elem_of_app. by right.
  - destruct Hh as (Hl&->). destruct held as [|q c1]; [done|]. destruct Hl as ([= <-]&z&Hz&H1).
    assert (Hto : t ∈ o) by (rewrite Hp; set_solver). destruct (hook_read _ _ _ _ Hth Hto) as (x&Hx&Hr). rewrite Hr in Ha.
    rewrite Hz in Hx. injection Hx as <-. injection Ha as <- <- <-. eapply (hook_step y c own i th o t z _ _ _ (t :: c1) (t :: c1)); try done.
    + intros Hf. exfalso. apply (Hfh t Hf). by left.
    + exists c1. split_and!; [|done..]. apply linked_append; [|done]. intros p Hp' [= ->]. by apply NoDup_cons in Hnd as [Hnd _].
  - destruct Hh as (Hl&->). destruct held; [|by destruct Hl]. injection Ha as <- <- <-.
    exists c, own. eapply wl_local; [done..| |done]. destruct Hth as [Hv Hk Hf _]. split; [done..|]. by exists [], [].
  - destruct Hh as (c1&Hl&->&->). assert (Hto : t ∈ o) by (rewrite Hp; set_solver). rewrite (hook_write _ _ _ _ None Hth Hto) in Ha.
    injection Ha as <- <- <-. eapply (hook_step y c own i th o t None _ _ _ c1 c1); try done.
    + set_solver.
    + rewrite Hp. solve_Permutation.
    + split; [|done]. apply linked_append; [|done]. intros p Hp' [= ->]. by apply NoDup_cons in Hnd as [Hnd _].
    + rewrite Ht. by rewrite <- app_assoc.
Qed.

Lemma wl_step_inv y y' : wl_inv y -> wl_step list_source_orders y y' -> wl_inv y'.
Proof using All.
  intros Hy Hstep. destruct Hstep as [i th t f1 f2 Hi Hpc Hf|i th Hi Hpc|i th ts sp c' m' w' Hi Ha|i th c' m' w' grabbed Hi Ha Hg].
  - destruct Hy as (c&own&Hy). destruct (lookup_lt_is_Some_2 own i) as [o Ho]; [rewrite (wl_own _ _ _ _ Hy); by eapply lookup_lt_Some|].
    pose proof (wl_holds _ _ _ _ Hy i th o Hi Ho) as [Hv Hk Hfr (held&pend&Hp&Hh&Ht)]. rewrite Hpc in Hh. destruct Hh as [-> ->].
    exists c, own. eapply wl_local; [done..| |done]. rewrite Hf in *. split; cbn [lt_view lt_free lt_pc lt_taken lt_delivered]; [done..| |].
    + intros p Hpf. apply Hfr. set_solver.
    + exists [t], []. split_and!; [rewrite Hp; solve_Permutation| |done]. split_and!; [done..|]. apply Hfr. set_solver.
  - destruct Hy as (c&own&Hy). destruct (lookup_lt_is_Some_2 own i) as [o Ho]; [rewrite (wl_own _ _ _ _ Hy); by eapply lookup_lt_Some|].
    pose proof (wl_holds _ _ _ _ Hy i th o Hi Ho) as [Hv Hk Hfr (held&pend&Hp&Hh&Ht)]. rewrite Hpc in Hh.
    exists c, own. eapply wl_local; [done..| |done]. split; [done..|]. by exists held, pend.
  - by eapply insert_access_inv.
  - by eapply sweep_access_inv.
Qed.

(** Every thread in a call can go on: it waits for no other. *)
Lemma wl_continues y i th : wl_inv y -> wl_threads y !! i = Some th -> lt_pc th <> LIdle ->
  (exists ts sp r, insert_access list_source_orders ts sp (lt_pc th) (wl_mem y) (lt_view th) = Some r) \/
  (exists r, sweep_access list_source_orders (lt_pc th) (wl_mem y) (lt_view th) = Some r).
Proof using All.
  intros (c&own&Hy) Hi Hne. destruct (lookup_lt_is_Some_2 own i) as [o Ho]; [rewrite (wl_own _ _ _ _ Hy); by eapply lookup_lt_Some|].
  pose proof (wl_holds _ _ _ _ Hy i th o Hi Ho) as Hth. pose proof (th_pc _ _ _ Hth) as (held&pend&_&Hh&_).
  destruct (wl_head _ _ _ _ Hy) as (msg&Hm&_&_). pose proof (th_view _ _ _ Hth Head) as Hv. pose proof (last_lookup_newest _ _ _ Hm) as Hn.
  destruct (lt_pc th) as [|t|t|t old|t old| |[t|] r|t h r|[t|]|t h| |] eqn:E; cbn in Hh; try done.
  1,3: left; exists 0%nat, false; cbn; try destruct (plain_read _ _ _) as [[[[] ?] ?]|]; try destruct (plain_write _ _ _ _) as [[? ?]|]; by eexists.
  - left. exists (newest (wl_mem y) Head), false. cbn. unfold load_at. rewrite decide_True, Hn by done. by eexists.
  - left. exists (newest (wl_mem y) Head), false. cbn. unfold exchange. rewrite Hm. cbn. case_decide; [by eexists|].
    unfold load_at. rewrite decide_True, Hn by done. by eexists.
  - right. eexists. cbn. unfold exchange. by rewrite Hm.
  - right. cbn. destruct (plain_read _ _ _) as [[[? ?] ?]|]; by eexists.
  - right. by eexists.
  - right. cbn. destruct (plain_write _ _ _ _) as [[? ?]|]; by eexists.
  - right. cbn. destruct (plain_read _ _ _) as [[[? ?] ?]|]; by eexists.
  - right. by eexists.
  - right. cbn. destruct (plain_write _ _ _ _) as [[? ?]|]; by eexists.
Qed.
End Steps.

Lemma wl_start_inv os : NoDup (concat os) -> wl_inv (concat os) (wl_start os).
Proof.
  intros Hnd. exists [], os. split; cbn.
  - intros l ts msg Ht. assert (m_rel msg = vbot) as ->; [|apply view_ok_bot].
    destruct l as [|p]; [|case_decide; [|done]]; by apply list_lookup_singleton_Some in Ht as [_ <-].
  - exists (mk_message None vbot). split_and!; [done..|]. by intros p ?%elem_of_nil.
  - by rewrite length_fmap.
  - intros i th o Hi Ho. rewrite list_lookup_fmap, Ho in Hi. injection Hi as <-.
    assert (Hin : forall p, (p ∈ o) -> p ∈ concat os).
    { intros p Hp. apply list_elem_of_In, in_concat. exists o. split; apply list_elem_of_In; [by eapply list_elem_of_lookup_2|done]. }
    split; cbn [lt_view lt_free lt_pc lt_taken lt_delivered].
    + apply view_ok_bot.
    + intros p Hp. unfold newest. cbn. by rewrite decide_True by (by apply Hin).
    + intros p Hp. unfold now. cbn. by rewrite decide_True by (by apply Hin).
    + exists [], []. by rewrite app_nil_r.
  - done.
  - exists []. split_and!; [done| |].
    + clear. induction os; cbn; [done|]. by rewrite <- IHos.
    + apply Forall_fmap, Forall_true. intros o. constructor.
Qed.

(** C11. The atomic list under the C++ memory model, with the orderings the code asks for, for any
    number of threads that insert and sweep at the same time, whatever head a relaxed load or a
    failing exchange may still return.  In every state they reach: no access to a hook races with
    that of another thread and no assertion of [insertHead] fails; the hooks lead from the head
    through the objects [c] to null; the objects inserted, in order, are those swept and then the
    list from its tail; those swept are the ones the threads took, each thread in the order of the
    insertions; a thread has delivered what it took, in that order, up to what its current sweep
    still holds; and every thread in the middle of a call can go on. *)
Theorem atomic_list_release_acquire (os : list (list ptr)) (y : wl_sys) :
  NoDup (concat os) -> rtc (wl_step list_source_orders) (wl_start os) y ->
  (exists c swept h, now (wl_mem y) Head = Some h /\ linked (wl_mem y) h c /\ wl_inserted y = swept ++ rev c /\
     swept ≡ₚ concat (lt_taken <$> wl_threads y) /\ Forall (fun th => lt_taken th `sublist_of` swept) (wl_threads y)) /\
  (forall i th, wl_threads y !! i = Some th ->
     lt_pc th <> LRace /\ lt_pc th <> LAssertFailed /\ lt_delivered th `prefix_of` lt_taken th /\
     (lt_pc th = LIdle -> lt_taken th = lt_delivered th) /\
     (lt_pc th <> LIdle ->
        (exists ts sp r, insert_access list_source_orders ts sp (lt_pc th) (wl_mem y) (lt_view th) = Some r) \/
        (exists r, sweep_access list_source_orders (lt_pc th) (wl_mem y) (lt_view th) = Some r))).
Proof.
  intros Hnd Hr. assert (Hy : wl_inv (concat os) y).
  { refine (rtc_invariant _ (wl_inv (concat os)) _ _ _ _ Hr); [by apply wl_step_inv|by apply wl_start_inv]. }
  split.
  - destruct Hy as (c&own&Hy). destruct (wl_head _ _ _ _ Hy) as (msg&Hm&Hl&_). destruct (wl_order _ _ _ _ Hy) as (swept&Hs1&Hs2&Hs3).
    exists c, swept, (m_val msg). split_and!; try done. unfold now. by rewrite Hm.
  - intros i th Hi. pose proof (wl_continues (concat os) Hnd y i th Hy Hi) as Hgo. destruct Hy as (c&own&Hy).
    destruct (lookup_lt_is_Some_2 own i) as [o Ho]; [rewrite (wl_own _ _ _ _ Hy); by eapply lookup_lt_Some|].
    destruct (th_pc _ _ _ (wl_holds _ _ _ _ Hy i th o Hi Ho)) as (held&pend&_&Hh&Ht). split_and!; [intros E..| | |done].
    1,2: by rewrite E in Hh.
    + rewrite Ht. by apply prefix_app_r.
    + intros E. rewrite E in Hh. destruct Hh as [_ ->]. by rewrite Ht, app_nil_r.
Qed.

(** *** Concrete runs *)

(** The thread [i] calls [insertHead] on its next object, calls [sweep], or makes its next access. *)
Inductive wl_move := MvInsert (i : nat) | MvSweep (i : nat) | MvGoInsert (i ts : nat) (sp : bool) | MvGoSweep (i : nat).

Definition wl_run_move (ord : list_orders) (mv : wl_move) (y : wl_sys) : option wl_sys :=
  match mv with
  | MvInsert i =>
      th ← wl_threads y !! i;
      match lt_pc th, lt_free th with
      | LIdle, t :: f => Some (mk_wl_sys (wl_mem y)
          (<[i := mk_wl_thread (LAssert t) (lt_view th) f (lt_taken th) (lt_delivered th)]> (wl_threads y)) (wl_inserted y))
      | _, _ => None
      end
  | MvSweep i =>
      th ← wl_threads y !! i;
      match lt_pc th with
      | LIdle => Some (mk_wl_sys (wl_mem y)
          (<[i := mk_wl_thread LExchange (lt_view th) (lt_free th) (lt_taken th) (lt_delivered th)]> (wl_threads y)) (wl_inserted y))
      | _ => None
      end
  | MvGoInsert i ts sp =>
      th ← wl_threads y !! i; '(c', m', w') ← insert_access ord ts sp (lt_pc th) (wl_mem y) (lt_view th);
      Some (mk_wl_sys m' (<[i := mk_wl_thread c' w' (lt_free th) (lt_taken th) (lt_delivered th)]> (wl_threads y))
              (match lt_pc th, c' with LCas t _, LIdle => wl_inserted y ++ [t] | _, _ => wl_inserted y end))
  | MvGoSweep i =>
      th ← wl_threads y !! i; '(c', m', w') ← sweep_access ord (lt_pc th) (wl_mem y) (lt_view th);
      Some (mk_wl_sys m'
        (<[i := mk_wl_thread c' w'
             (match lt_pc th with LUnlinkSet t _ => lt_free th ++ [t] | _ => lt_free th end)
             (lt_taken th ++ match lt_pc th, c' with
                             | LExchange, LReverse h _ => rev (hook_chain (length (wl_inserted y)) (wl_mem y) h) | _, _ => [] end)
             (match lt_pc th with LUnlinkSet t _ => lt_delivered th ++ [t] | _ => lt_delivered th end)]> (wl_threads y))
        (wl_inserted y))
  end.

Fixpoint wl_run (ord : list_orders) (l : list wl_move) (y : wl_sys) : option wl_sys :=
  match l with [] => Some y | mv :: l => y ← wl_run_move ord mv y; wl_run ord l y end.

Lemma wl_run_steps ord l y y' : wl_run ord l y = Some y' -> rtc (wl_step ord) y y'.
Proof.
  revert y. induction l as [|mv l IH]; intros y; cbn; [by intros [= ->]|].
  destruct (wl_run_move ord mv y) as [y1|] eqn:Hm; [|done]. intros Hl. eapply rtc_l; [|by apply IH].
  destruct mv as [i|i|i ts sp|i]; cbn in Hm; destruct (wl_threads y !! i) as [th|] eqn:Hi; try done; cbn in Hm.
  - destruct (lt_pc th) eqn:E; try done. destruct (lt_free th) as [|t f] eqn:Ef; [done|]. injection Hm as <-. by apply (wl_insert ord y i th t [] f).
  - destruct (lt_pc th) eqn:E; try done. injection Hm as <-. by apply wl_sweep.
  - destruct (insert_access _ _ _ _ _ _) as [[[c' m'] w']|] eqn:Ha; [|done]. cbn in Hm. injection Hm as <-. by eapply wl_insert_access.
  - destruct (sweep_access _ _ _ _) as [[[c' m'] w']|] eqn:Ha; [|done]. cbn in Hm. injection Hm as <-. by eapply wl_sweep_access.
Qed.

(** Two threads insert 1 and 2: the second loads the head before the first has exchanged it, its
    exchange fails and still reads the old head, then it succeeds; a third thread sweeps both. *)
Definition list_race_run : list wl_move :=
  [MvInsert 0; MvInsert 1; MvGoInsert 0 0 false; MvGoInsert 1 0 false; MvGoInsert 0 0 false; MvGoInsert 1 0 false;
   MvGoInsert 0 0 false; MvGoInsert 1 0 false; MvGoInsert 0 0 false; MvGoInsert 1 0 false; MvGoInsert 1 0 false; MvGoInsert 1 1 false;
   MvGoInsert 1 0 false; MvGoInsert 1 0 false; MvSweep 2] ++ replicate 12 (MvGoSweep 2).

Definition list_race_end : wl_sys := default (wl_start [[1%positive]; [2%positive]; []]) (wl_run list_source_orders list_race_run (wl_start [[1%positive]; [2%positive]; []])).

Lemma atomic_list_release_acquire_witness :
  (lt_pc <$> wl_threads list_race_end) = [LIdle; LIdle; LIdle] /\ (lt_delivered <$> wl_threads list_race_end) = [[]; []; [1%positive; 2%positive]] /\
  exists c swept h, now (wl_mem list_race_end) Head = Some h /\ linked (wl_mem list_race_end) h c /\ wl_inserted list_race_end = swept ++ rev c /\
     swept ≡ₚ concat (lt_taken <$> wl_threads list_race_end) /\ Forall (fun th => lt_taken th `sublist_of` swept) (wl_threads list_race_end).
Proof.
  split_and!; [vm_compute; reflexivity..|].
  refine (proj1 (atomic_list_release_acquire [[1%positive]; [2%positive]; []] list_race_end _ _)).
  - apply (bool_decide_unpack _). vm_compute. exact I.
  - apply (wl_run_steps list_source_orders list_race_run). vm_compute. reflexivity.
Defined.

(** The orderings are needed: with a relaxed exchange in [insertHead], or one without acquire in
    [sweep], the sweeping thread's read of a hook races with the write of the inserting thread. *)
Lemma relaxed_exchange_races (ord : list_orders) : ord = mk_list_orders Relaxed Relaxed AcqRel \/ ord = mk_list_orders Relaxed Release Release ->
  exists y, rtc (wl_step ord) (wl_start [[1%positive]; []]) y /\ (lt_pc <$> wl_threads y) = [LIdle; LRace].
Proof.
  pose (run := MvInsert 0 :: replicate 4 (MvGoInsert 0 0 false) ++ MvSweep 1 :: replicate 2 (MvGoSweep 1)).
  intros [-> | ->]; eexists; (split; [eapply (wl_run_steps _ run)|]; vm_compute; reflexivity).
Qed.
