(* ===== verification/ObjectPool.v ===== *)
(** * The pool of message packages: libs/object_pool.hpp

    [AtomicAlloc] keeps released objects in an [AtomicLinkedList] and hands one out by
    sweeping that list.  Objects live in a heap that remembers whether their destructor has
    run. *)

From S2P Require Import Prelude Heap AtomicList.

Inductive object_state := Constructed | Destroyed.

#[export] Instance object_state_eq_dec : EqDecision object_state.
Proof. solve_decision. Defined.

Abbreviation objects := (heap object_state).

(** ** [MemoryAlloc] *)

Definition MemoryAlloc_alloc (h : objects) : ptr * objects := heap_new Constructed h.
Definition MemoryAlloc_release (p : ptr) (h : objects) : option objects := heap_delete p h.

(** ** [AtomicAlloc] *)

Record AtomicAlloc := mk_AtomicAlloc { m_objects : objects; m_objList : atomic_list ptr }.

Definition AtomicAlloc_new : AtomicAlloc := mk_AtomicAlloc heap_empty alist_new.

(** [new T()] put into the list, [n] times. *)
Fixpoint AtomicAlloc_fill (dbg : bool) (n : nat) (a : AtomicAlloc) : outcome AtomicAlloc :=
  match n with
  | O => Ok a
  | S n' =>
      let '(pObj, h) := heap_new Constructed (m_objects a) in
      match alist_insertHead dbg pObj (m_objList a) with
      | Ok (_, l) => AtomicAlloc_fill dbg n' (mk_AtomicAlloc h l)
      | _ => Undefined
      end
  end.

(** [alloc]: fill an empty list with 20 objects, sweep it keeping the last object seen. *)
Definition AtomicAlloc_alloc (dbg : bool) (a : AtomicAlloc) : outcome (option ptr * AtomicAlloc) :=
  match (if alist_empty (m_objList a) then AtomicAlloc_fill dbg 20 a else Ok a) with
  | Ok a1 =>
      match alist_sweep (m_objList a1) with
      | Ok (ps, l) => Ok (last ps, mk_AtomicAlloc (m_objects a1) l)
      | _ => Undefined
      end
  | _ => Undefined
  end.

(** [release]: run the destructor, put the object back. *)
Definition AtomicAlloc_release (dbg : bool) (p : ptr) (a : AtomicAlloc) : outcome AtomicAlloc :=
  match heap_set p Destroyed (m_objects a) with
  | Some h =>
      match alist_insertHead dbg p (m_objList a) with
      | Ok (_, l) => Ok (mk_AtomicAlloc h l)
      | _ => Undefined
      end
  | None => Undefined
  end.

(** ** [ObjectPool<T, AtomicAlloc<T>>] *)

Record ObjectPool := mk_ObjectPool {
  _alloc : AtomicAlloc;
  m_grow : Z;
  m_alloc_count : Z;      (** atomic_int *)
  m_release_count : Z     (** atomic_int *)
}.

Definition ObjectPool_new (size grow : Z) : ObjectPool := mk_ObjectPool AtomicAlloc_new grow 0 0.

Definition ObjectPool_acquire (dbg : bool) (o : ObjectPool) : outcome (option ptr * ObjectPool) :=
  match AtomicAlloc_alloc dbg (_alloc o) with
  | Ok (p, a) =>
      Ok (p, mk_ObjectPool a (m_grow o) (i32 (m_alloc_count o + 1)) (m_release_count o))
  | _ => Undefined
  end.

Definition ObjectPool_release (dbg : bool) (p : ptr) (o : ObjectPool) : outcome ObjectPool :=
  match AtomicAlloc_release dbg p (_alloc o) with
  | Ok a => Ok (mk_ObjectPool a (m_grow o) (m_alloc_count o) (i32 (m_release_count o + 1)))
  | _ => Undefined
  end.

Definition ObjectPool_empty (o : ObjectPool) : bool := false.

(** The difference is an [int], converted to [size_t] before the test [left < 1]. *)
Definition ObjectPool_size (o : ObjectPool) : Z :=
  let left := u64 (m_alloc_count o - m_release_count o + 1) in
  if left <? 1 then 1 else left.

(** ** The pool's list of objects *)

(** The list holds [ps], most recently inserted first; they are distinct live objects. *)
Definition alloc_rep (a : AtomicAlloc) (ps : list ptr) : Prop :=
  alist_rep (m_objList a) ps /\ NoDup ps /\ heap_wf (m_objects a) /\
  Forall (fun p => is_Some (h_cells (m_objects a) !! p)) ps.

Lemma AtomicAlloc_new_rep : alloc_rep AtomicAlloc_new [].
Proof. split_and!; [apply alist_new_rep|constructor|apply heap_empty_wf|constructor]. Qed.

Lemma alist_empty_rep {T} (l : atomic_list T) vs : alist_rep l vs -> alist_empty l = bool_decide (vs = []).
Proof.
  intros (ws&[Hc _]&Hvs&_). unfold alist_empty, ilist_empty.
  destruct Hvs; cbn in Hc; [by rewrite Hc|]. destruct Hc as [-> _]. done.
Qed.

Lemma AtomicAlloc_fill_spec dbg n a ps :
  alloc_rep a ps ->
  exists a' qs, AtomicAlloc_fill dbg n a = Ok a' /\ alloc_rep a' (qs ++ ps) /\ length qs = n /\
    Forall (fun p => h_cells (m_objects a') !! p = Some Constructed /\
                     h_cells (m_objects a) !! p = None) qs /\
    (forall p, is_Some (h_cells (m_objects a) !! p) ->
       h_cells (m_objects a') !! p = h_cells (m_objects a) !! p) /\
    size (h_cells (m_objects a')) = (n + size (h_cells (m_objects a)))%nat.
Proof.
  revert a ps. induction n as [|n IH]; intros a ps Hrep.
  { exists a, []. by split_and!. }
  destruct Hrep as (Hl&Hnd&Hwf&Hlive). cbn.
  set (p := h_next (m_objects a)).
  assert (Hfresh : h_cells (m_objects a) !! p = None) by (apply heap_fresh; [done|subst p; lia]).
  destruct (alist_insertHead_spec dbg p (m_objList a) ps Hl) as (l'&->&Hl').
  destruct (IH (mk_AtomicAlloc (mk_heap (<[p := Constructed]> (h_cells (m_objects a))) (Pos.succ p)) l') (p :: ps))
    as (a'&qs&->&Hrep'&Hlen&Hqs&Hkeep&Hsize).
  { split_and!; cbn; [done| |apply (heap_new_wf Constructed _ Hwf)|].
    - constructor; [|done]. rewrite Forall_forall in Hlive. intros Hin.
      destruct (Hlive _ Hin) as [? ?]. congruence.
    - constructor; [rewrite lookup_insert_eq; by eexists|].
      eapply Forall_impl; [exact Hlive|]. intros q Hq. cbn.
      rewrite lookup_insert_is_Some'. tauto. }
  cbn in Hkeep, Hsize, Hqs. exists a', (qs ++ [p]). split_and!.
  - done.
  - by rewrite <- app_assoc.
  - rewrite length_app. cbn. lia.
  - apply Forall_app. split.
    + eapply Forall_impl; [exact Hqs|]. intros q [? Hq]. cbn in *. split; [done|].
      apply lookup_insert_None in Hq. tauto.
    + constructor; [|constructor]. split; [|done]. rewrite Hkeep; rewrite lookup_insert_eq; [done|by eexists].
  - intros q Hq. rewrite Hkeep.
    + rewrite lookup_insert_ne; [done|]. intros <-. rewrite Hfresh in Hq. by destruct Hq.
    + rewrite lookup_insert_is_Some'. tauto.
  - rewrite Hsize, map_size_insert_None by done. lia.
Qed.

(** [alloc] on a list that holds [p :: ps]: [p] is handed out, [ps] is forgotten. *)
Lemma AtomicAlloc_alloc_nonempty dbg a p ps :
  alloc_rep a (p :: ps) ->
  exists a', AtomicAlloc_alloc dbg a = Ok (Some p, a') /\ alloc_rep a' [] /\ m_objects a' = m_objects a.
Proof.
  intros (Hl&Hnd&Hwf&Hlive). unfold AtomicAlloc_alloc.
  rewrite (alist_empty_rep _ _ Hl). cbn [bool_decide decide].
  destruct (alist_sweep_spec _ _ Hl) as (l'&Hs&Hl'). cbn. rewrite Hs.
  exists (mk_AtomicAlloc (m_objects a) l'). split.
  - do 2 f_equal. cbn [rev]. by rewrite last_snoc.
  - split; [|done]. split_and!; [exact Hl'|constructor|done|constructor].
Qed.

(** [alloc] on an empty list: 20 new objects, one handed out, none kept in the list. *)
Lemma AtomicAlloc_alloc_empty dbg a :
  alloc_rep a [] ->
  exists p a', AtomicAlloc_alloc dbg a = Ok (Some p, a') /\ alloc_rep a' [] /\
    h_cells (m_objects a) !! p = None /\ h_cells (m_objects a') !! p = Some Constructed /\
    (forall q, is_Some (h_cells (m_objects a) !! q) ->
       h_cells (m_objects a') !! q = h_cells (m_objects a) !! q) /\
    size (h_cells (m_objects a')) = (20 + size (h_cells (m_objects a)))%nat.
Proof.
  intros Hrep. destruct (AtomicAlloc_fill_spec dbg 20 a [] Hrep) as (a1&qs&Hf&Hrep1&Hlen&Hqs&Hkeep&Hsize).
  rewrite app_nil_r in Hrep1. destruct qs as [|p qs]; [done|].
  destruct (AtomicAlloc_alloc_nonempty dbg a1 p qs Hrep1) as (a'&Ha&Hrep'&Hobj).
  exists p, a'. apply Forall_cons in Hqs as [[H1 H2] _]. rewrite Hobj. split_and!; try done.
  unfold AtomicAlloc_alloc in *. destruct Hrep as (Hl&_). destruct Hrep1 as (Hl1&_).
  rewrite (alist_empty_rep _ _ Hl). rewrite (alist_empty_rep _ _ Hl1) in Ha. cbn [bool_decide decide] in *.
  change (bool_decide ([] = [])) with true. cbn [bool_decide] in Ha. rewrite Hf. exact Ha.
Qed.

Lemma AtomicAlloc_release_spec dbg a p ps :
  alloc_rep a ps -> is_Some (h_cells (m_objects a) !! p) -> p ∉ ps ->
  exists a', AtomicAlloc_release dbg p a = Ok a' /\ alloc_rep a' (p :: ps) /\
    h_cells (m_objects a') = <[p := Destroyed]> (h_cells (m_objects a)).
Proof.
  intros (Hl&Hnd&Hwf&Hlive) [st Hp] Hn. unfold AtomicAlloc_release.
  destruct (heap_set p Destroyed (m_objects a)) as [h|] eqn:E.
  2:{ unfold heap_set in E. by rewrite Hp in E. }
  destruct (alist_insertHead_spec dbg p _ _ Hl) as (l'&->&Hl').
  eexists. split; [done|]. pose proof E as E'. unfold heap_set in E'. rewrite Hp in E'. simplify_eq.
  split; [|done]. split_and!; cbn; [done|by constructor|by eapply heap_set_wf|].
  apply Forall_cons. split; [rewrite lookup_insert_eq; by eexists|].
  eapply Forall_impl; [exact Hlive|]. intros q Hq. cbn. rewrite lookup_insert_is_Some'. tauto.
Qed.

(** ** A client that acquires, and releases what it holds *)

Inductive pool_step (dbg : bool) : ObjectPool * list ptr -> ObjectPool * list ptr -> Prop :=
| pool_acquire o held p o' :
    ObjectPool_acquire dbg o = Ok (Some p, o') -> pool_step dbg (o, held) (o', p :: held)
| pool_release o held1 p held2 o' :
    ObjectPool_release dbg p o = Ok o' -> pool_step dbg (o, held1 ++ p :: held2) (o', held1 ++ held2).

Definition pool_inv (x : ObjectPool * list ptr) : Prop :=
  exists ps, alloc_rep (_alloc x.1) ps /\ NoDup (ps ++ x.2) /\
    Forall (fun p => is_Some (h_cells (m_objects (_alloc x.1)) !! p)) x.2.

Lemma pool_acquire_total dbg x : pool_inv x -> exists p o', ObjectPool_acquire dbg x.1 = Ok (Some p, o') /\
  pool_inv (o', p :: x.2).
Proof.
  intros (ps&Hrep&Hnd&Hheld). unfold ObjectPool_acquire. destruct ps as [|p ps].
  - destruct (AtomicAlloc_alloc_empty dbg _ Hrep) as (p&a'&->&Hrep'&Hnew&Hc&Hkeep&_).
    do 2 eexists. split; [done|]. exists []. cbn in *. split_and!; [done| |].
    + constructor; [|done]. rewrite Forall_forall in Hheld. intros Hp.
      destruct (Hheld _ Hp) as [? ?]. congruence.
    + constructor; [by rewrite Hc; eexists|]. eapply Forall_impl; [exact Hheld|].
      intros q Hq. cbn in Hq. by rewrite Hkeep.
  - destruct (AtomicAlloc_alloc_nonempty dbg _ p ps Hrep) as (a'&->&Hrep'&Hobj).
    do 2 eexists. split; [done|]. exists []. cbn in *. rewrite Hobj.
    apply NoDup_cons in Hnd as [Hn Hnd]. apply NoDup_app in Hnd as (_&_&Hnd).
    rewrite elem_of_app in Hn. split_and!; [done|constructor; tauto|].
    constructor; [|done]. destruct Hrep as (_&_&_&Hlive). by apply Forall_cons in Hlive as [? _].
Qed.

Lemma pool_step_inv dbg x y : pool_inv x -> pool_step dbg x y -> pool_inv y.
Proof.
  intros Hinv Hs. destruct Hs as [o held p o' Ha|o h1 p h2 o' Hr].
  - destruct (pool_acquire_total dbg _ Hinv) as (p'&o''&Ha'&Hinv'). cbn in Ha'.
    rewrite Ha in Ha'. by simplify_eq.
  - destruct Hinv as (ps&Hrep&Hnd&Hheld). cbn in *. unfold ObjectPool_release in Hr.
    apply Forall_app in Hheld as [Hh1 Hh2]. apply Forall_cons in Hh2 as [Hp Hh2].
    assert (Hperm : ps ++ h1 ++ p :: h2 ≡ₚ p :: ps ++ h1 ++ h2) by solve_Permutation.
    rewrite Hperm in Hnd. apply NoDup_cons in Hnd as [Hn Hnd].
    destruct (AtomicAlloc_release_spec dbg _ p ps Hrep Hp) as (a'&Ha&Hrep'&Hobj).
    { intros Hin. apply Hn. rewrite elem_of_app. by left. }
    rewrite Ha in Hr. simplify_eq. exists (p :: ps). cbn. split_and!; [done|by constructor|].
    rewrite Hobj. apply Forall_app.
    split; [eapply Forall_impl; [exact Hh1|]|eapply Forall_impl; [exact Hh2|]];
      intros q Hq; cbn; rewrite lookup_insert_is_Some'; tauto.
Qed.

Lemma pool_init_inv size grow : pool_inv (ObjectPool_new size grow, []).
Proof. exists []. split_and!; [apply AtomicAlloc_new_rep|constructor|constructor]. Qed.

(** ** Properties *)

(** The message pool hands every object to one holder at a time: after any sequence of
    acquires and releases of held objects, the objects held are pairwise distinct and alive,
    and the next [acquire] succeeds with an object nobody holds. *)
Theorem object_pool_exclusive (dbg : bool) (size grow : Z) (o : ObjectPool) (held : list ptr) :
  rtc (pool_step dbg) (ObjectPool_new size grow, []) (o, held) ->
  NoDup held /\ Forall (fun p => is_Some (h_cells (m_objects (_alloc o)) !! p)) held /\
  exists p o', ObjectPool_acquire dbg o = Ok (Some p, o') /\ p ∉ held.
Proof.
  intros Hr. assert (Hinv : pool_inv (o, held)).
  { refine (rtc_invariant _ _ _ _ (pool_step_inv dbg) _ Hr). apply pool_init_inv. }
  destruct (pool_acquire_total dbg _ Hinv) as (p&o'&Ha&Hinv').
  destruct Hinv as (ps&_&Hnd&Hlive). apply NoDup_app in Hnd as (_&_&Hnd). split_and!; [done..|].
  exists p, o'. split; [done|]. destruct Hinv' as (ps'&_&Hnd'&_). cbn in Hnd'.
  apply NoDup_app in Hnd' as (_&_&Hnd'). by apply NoDup_cons in Hnd' as [? _].
Qed.

Lemma object_pool_exclusive_witness :
  exists o, NoDup [20%positive] /\ exists p o', ObjectPool_acquire true o = Ok (Some p, o') /\
    p ∉ [20%positive].
Proof.
  eexists. refine (let H := object_pool_exclusive true 100 10 _ [20%positive] _ in
    conj (proj1 H) (proj2 (proj2 H))).
  eapply rtc_l; [|apply rtc_refl]. apply pool_acquire. vm_compute. reflexivity.
Defined.

(** What [AtomicAlloc::alloc] leaves behind: with an empty list it creates 20 objects and
    hands out one; with released objects in the list it hands out the last one released; in
    both cases the list is empty afterwards, so the other objects (19 fresh ones, or all the
    other released ones) stay allocated and are in no list any more. *)
Theorem atomic_alloc_forgets (dbg : bool) (a : AtomicAlloc) (ps : list ptr) :
  alloc_rep a ps ->
  exists p a', AtomicAlloc_alloc dbg a = Ok (Some p, a') /\ alloc_rep a' [] /\
    match ps with
    | [] => h_cells (m_objects a) !! p = None /\
            size (h_cells (m_objects a')) = (20 + size (h_cells (m_objects a)))%nat
    | q :: _ => p = q /\ m_objects a' = m_objects a
    end.
Proof.
  intros Hrep. destruct ps as [|q qs].
  - destruct (AtomicAlloc_alloc_empty dbg a Hrep) as (p&a'&?&?&?&_&_&?). by exists p, a'.
  - destruct (AtomicAlloc_alloc_nonempty dbg a q qs Hrep) as (a'&?&?&?). by exists q, a'.
Qed.

Lemma atomic_alloc_forgets_witness :
  exists p a', AtomicAlloc_alloc true AtomicAlloc_new = Ok (Some p, a') /\ alloc_rep a' [] /\
    h_cells (m_objects AtomicAlloc_new) !! p = None /\
    size (h_cells (m_objects a')) = (20 + size (h_cells (m_objects AtomicAlloc_new)))%nat.
Proof. apply (atomic_alloc_forgets true AtomicAlloc_new []), AtomicAlloc_new_rep. Defined.
