(* ===== verification/PoolConcurrent.v ===== *)
(** * The message pool under concurrency

    [AtomicAlloc] of libs/object_pool.hpp, used by several threads at the same time: the processors
    acquire packages, the application thread releases them.  The accesses of its list are steps: the
    test for emptiness, each insertion, each exchange of a sweep (the list itself is proved for every
    interleaving of their parts in AtomicList.v and AtomicListWeak.v).  A sweep's callback runs on
    objects no other thread can reach, and keeps the last of them, the one inserted last. *)

From S2P Require Import Prelude Heap ObjectPool.

(** Where a thread is: before [empty], in the loop that fills the list (before [new] or before
    [insertHead]), in the loop of [sweep] with [pItem]; [AllocNull]: [alloc] returned null; before
    [insertHead] in [release]. *)
Inductive pool_pc :=
| PoolIdle
| AllocEmpty
| AllocFill (todo : nat)
| AllocInsert (todo : nat) (pObj : ptr)
| AllocSweep (pItem : option ptr)
| AllocNull
| ReleaseInsert (pObj : ptr).

#[export] Instance pool_pc_eq_dec : EqDecision pool_pc.
Proof. solve_decision. Defined.

(** The list from its head, the next address [new] returns, the objects acquired and not released,
    those a sweep took and forgot, and the threads. *)
Record pool_sys := mk_pool_sys {
  pl_list : list ptr;
  pl_next : ptr;
  pl_held : list ptr;
  pl_lost : list ptr;
  pl_threads : list pool_pc
}.

(** One step of [alloc]: the thread's place, the list, the next address, the object returned, and the
    objects forgotten. *)
Definition alloc_access (c : pool_pc) (ps : list ptr) (nxt : ptr) : option (pool_pc * list ptr * ptr * list ptr * list ptr) :=
  match c with
  | AllocEmpty => Some (match ps with [] => AllocFill 20 | _ => AllocSweep None end, ps, nxt, [], [])
  | AllocFill O => Some (AllocSweep None, ps, nxt, [], [])
  | AllocFill (S todo) => Some (AllocInsert todo nxt, ps, Pos.succ nxt, [], [])
  | AllocInsert todo pObj => Some (AllocFill todo, pObj :: ps, nxt, [], [])
  | AllocSweep pItem =>
      match ps with
      | [] => Some (match pItem with Some _ => PoolIdle | None => AllocNull end, [], nxt, option_list pItem, [])
      | p :: ps' => Some (AllocSweep (Some p), [], nxt, [], ps' ++ option_list pItem)
      end
  | _ => None
  end.

(** The threads in [who] may acquire; any thread may release an object that is held. *)
Inductive pool_cstep (who : nat -> Prop) (y : pool_sys) : pool_sys -> Prop :=
| pool_call_acquire i : who i -> pl_threads y !! i = Some PoolIdle ->
    pool_cstep who y (mk_pool_sys (pl_list y) (pl_next y) (pl_held y) (pl_lost y) (<[i := AllocEmpty]> (pl_threads y)))
| pool_call_release i p h1 h2 : pl_threads y !! i = Some PoolIdle -> pl_held y = h1 ++ p :: h2 ->
    pool_cstep who y (mk_pool_sys (pl_list y) (pl_next y) (h1 ++ h2) (pl_lost y) (<[i := ReleaseInsert p]> (pl_threads y)))
| pool_alloc i c c' ps' nxt' got lost : pl_threads y !! i = Some c -> alloc_access c (pl_list y) (pl_next y) = Some (c', ps', nxt', got, lost) ->
    pool_cstep who y (mk_pool_sys ps' nxt' (got ++ pl_held y) (lost ++ pl_lost y) (<[i := c']> (pl_threads y)))
| pool_insert i p : pl_threads y !! i = Some (ReleaseInsert p) ->
    pool_cstep who y (mk_pool_sys (p :: pl_list y) (pl_next y) (pl_held y) (pl_lost y) (<[i := PoolIdle]> (pl_threads y))).

Definition pool_cstart (n : nat) : pool_sys := mk_pool_sys [] 1%positive [] [] (replicate n PoolIdle).

(** ** Every object has one place *)

Definition pc_objects (c : pool_pc) : list ptr :=
  match c with AllocInsert _ p | ReleaseInsert p => [p] | AllocSweep pItem => option_list pItem | _ => [] end.

Definition everywhere (y : pool_sys) : list ptr :=
  pl_list y ++ pl_held y ++ pl_lost y ++ concat (pc_objects <$> pl_threads y).

Definition pool_cinv (y : pool_sys) : Prop := NoDup (everywhere y) /\ Forall (fun p => (p < pl_next y)%positive) (everywhere y).

Lemma thread_objects ths i c c' : ths !! i = Some c ->
  concat (pc_objects <$> <[i := c']> ths) ++ pc_objects c ≡ₚ concat (pc_objects <$> ths) ++ pc_objects c'.
Proof. intros Hi. rewrite list_fmap_insert. apply concat_insert_perm. by rewrite list_lookup_fmap, Hi. Qed.

(** A step that moves objects about. *)
Lemma pool_cinv_perm y y' : everywhere y' ≡ₚ everywhere y -> pl_next y' = pl_next y -> pool_cinv y -> pool_cinv y'.
Proof. intros Hp Hn [H1 H2]. split; rewrite Hp; [done|by rewrite Hn]. Qed.

Lemma everywhere_step y i c c' ps' nxt' held' lost' : pl_threads y !! i = Some c ->
  ps' ++ held' ++ lost' ++ pc_objects c' ≡ₚ pl_list y ++ pl_held y ++ pl_lost y ++ pc_objects c ->
  everywhere (mk_pool_sys ps' nxt' held' lost' (<[i := c']> (pl_threads y))) ≡ₚ everywhere y.
Proof.
  intros Hi Hp. pose proof (thread_objects (pl_threads y) i c c' Hi) as Ht. unfold everywhere. cbn. revert Ht.
  generalize (concat (pc_objects <$> <[i := c']> (pl_threads y))) (concat (pc_objects <$> pl_threads y)). intros a b Ht.
  apply (Permutation_app_inv_r (pc_objects c)). rewrite <- !app_assoc, Ht.
  transitivity ((ps' ++ held' ++ lost' ++ pc_objects c') ++ b); [solve_Permutation|]. rewrite Hp. solve_Permutation.
Qed.

Lemma pool_cstep_inv who y y' : pool_cinv y -> pool_cstep who y y' -> pool_cinv y'.
Proof.
  intros Hy Hstep. destruct Hstep as [i Hw Hi|i p h1 h2 Hi Hh|i c c' ps' nxt' got lost Hi Ha|i p Hi].
  - revert Hy. apply pool_cinv_perm; [|done]. by apply (everywhere_step y i PoolIdle).
  - revert Hy. apply pool_cinv_perm; [|done]. apply (everywhere_step y i PoolIdle); [done|]. rewrite Hh. cbn. solve_Permutation.
  - destruct c as [| |[|todo]|todo p|pItem| |p]; cbn in Ha; try done.
    + injection Ha as <- <- <- <- <-. revert Hy. apply pool_cinv_perm; [|done]. apply (everywhere_step y i AllocEmpty); [done|]. by destruct (pl_list y).
    + injection Ha as <- <- <- <- <-. revert Hy. apply pool_cinv_perm; [|done]. by apply (everywhere_step y i (AllocFill 0)).
    + injection Ha as <- <- <- <- <-. destruct Hy as [Hnd Hlt].
      pose proof (thread_objects (pl_threads y) i (AllocFill (S todo)) (AllocInsert todo (pl_next y)) Hi) as Ht. cbn in Ht. rewrite app_nil_r in Ht.
      assert (Hp : everywhere (mk_pool_sys (pl_list y) (Pos.succ (pl_next y)) ([] ++ pl_held y) ([] ++ pl_lost y)
        (<[i := AllocInsert todo (pl_next y)]> (pl_threads y))) ≡ₚ pl_next y :: everywhere y).
      { unfold everywhere. cbn. rewrite Ht. solve_Permutation. }
      split; rewrite Hp; cbn.
      * constructor; [|done]. intros Hin. rewrite Forall_forall in Hlt. specialize (Hlt _ Hin). lia.
      * constructor; [lia|]. eapply Forall_impl; [exact Hlt|]. cbn. lia.
    + injection Ha as <- <- <- <- <-. revert Hy. apply pool_cinv_perm; [|done]. apply (everywhere_step y i (AllocInsert todo p)); [done|]. cbn. solve_Permutation.
    + destruct (pl_list y) as [|p ps] eqn:E; injection Ha as <- <- <- <- <-; (revert Hy; apply pool_cinv_perm; [|done]);
        apply (everywhere_step y i (AllocSweep pItem)); try done; rewrite E; destruct pItem; cbn; solve_Permutation.
  - revert Hy. apply pool_cinv_perm; [|done]. apply (everywhere_step y i (ReleaseInsert p)); [done|]. cbn. solve_Permutation.
Qed.

Lemma pool_cstart_inv n : pool_cinv (pool_cstart n).
Proof.
  assert (H : everywhere (pool_cstart n) = []) by (unfold everywhere; cbn; induction n; cbn; done).
  split; rewrite H; constructor.
Qed.

(** ** One thread that acquires *)

(** What thread [i] may rely on when no other thread sweeps. *)
Definition alloc_ok (c : pool_pc) (ps : list ptr) : Prop :=
  match c with
  | AllocFill todo => todo = 20%nat \/ ps <> []
  | AllocInsert todo _ => True
  | AllocSweep None => ps <> []
  | AllocNull => False
  | _ => True
  end.

Definition releases_only (c : pool_pc) : Prop := match c with PoolIdle | ReleaseInsert _ => True | _ => False end.

Definition single_inv (i : nat) (y : pool_sys) : Prop :=
  forall j c, pl_threads y !! j = Some c -> if decide (j = i) then alloc_ok c (pl_list y) else releases_only c.

Lemma single_step_inv i y y' : single_inv i y -> pool_cstep (fun j => j = i) y y' -> single_inv i y'.
Proof.
  intros Hy Hstep k c'' Hk. destruct Hstep as [j -> Hj|j p h1 h2 Hj Hh|j c c' ps' nxt' got lost Hj Ha|j p Hj]; cbn in *;
    apply list_lookup_insert_Some in Hk as [(<-&<-&_)|(Hne&Hk)].
  - by rewrite decide_True.
  - by apply Hy.
  - by destruct (decide (j = i)).
  - by apply Hy.
  - specialize (Hy j c Hj). destruct (decide (j = i)) as [->|]; [|by destruct c].
    destruct c as [| |[|todo]|todo p|pItem| |p]; cbn in *; try done.
    + injection Ha as <- <- <- <- <-. destruct (pl_list y); [by left|done].
    + injection Ha as <- <- <- <- <-. by destruct Hy.
    + by injection Ha as <- <- <- <- <-.
    + injection Ha as <- <- <- <- <-. by right.
    + destruct (pl_list y) as [|p ps]; injection Ha as <- <- <- <- <-; [by destruct pItem|done].
  - pose proof (Hy j c Hj) as Hc. pose proof (Hy k c'' Hk) as Hk'. destruct (decide (k = i)) as [->|]; [|done].
    rewrite decide_False in Hc by done. by destruct c.
  - by destruct (decide (j = i)).
  - pose proof (Hy k c'' Hk) as Hk'. destruct (decide (k = i)); [|done]. destruct c'' as [| |todo|todo q|[q|]| |q]; cbn in *; try done.
    by right.
Qed.

(** C14. The message pool under every interleaving: whatever number of threads acquire and release,
    every object that was ever made is in one place only (in the list, held by one holder, in the
    hands of one thread, or forgotten by a sweep), so nothing is handed out twice; and when one
    thread acquires, whatever the others release meanwhile, [acquire] never returns null. *)
Theorem object_pool_concurrent (n i : nat) (y : pool_sys) :
  (rtc (pool_cstep (fun _ => True)) (pool_cstart n) y -> NoDup (everywhere y) /\ NoDup (pl_held y)) /\
  (rtc (pool_cstep (fun j => j = i)) (pool_cstart n) y -> forall j, pl_threads y !! j <> Some AllocNull).
Proof.
  split; intros Hr.
  - assert (Hy : pool_cinv y) by (refine (rtc_invariant _ pool_cinv _ _ _ (pool_cstart_inv n) Hr); apply pool_cstep_inv).
    destruct Hy as [Hnd _]. split; [done|]. unfold everywhere in Hnd. apply NoDup_app in Hnd as (_&_&Hnd). by apply NoDup_app in Hnd as (?&_&_).
  - assert (Hy : single_inv i y).
    { refine (rtc_invariant _ (single_inv i) _ _ _ _ Hr); [apply single_step_inv|].
      intros j c Hj. apply lookup_replicate_1 in Hj as [-> _]. by destruct (decide (j = i)). }
    intros j Hj. specialize (Hy j AllocNull Hj). by destruct (decide (j = i)).
Qed.

(** *** Runs *)

(** The thread [i] calls [acquire], releases the first object held, or goes on with either. *)
Inductive pool_move := PmAcquire (i : nat) | PmRelease (i : nat) | PmGo (i : nat) | PmInsert (i : nat).

Definition pool_run_move (mv : pool_move) (y : pool_sys) : option pool_sys :=
  match mv with
  | PmAcquire i =>
      if decide (pl_threads y !! i = Some PoolIdle) then
        Some (mk_pool_sys (pl_list y) (pl_next y) (pl_held y) (pl_lost y) (<[i := AllocEmpty]> (pl_threads y)))
      else None
  | PmRelease i =>
      if decide (pl_threads y !! i = Some PoolIdle) then
        match pl_held y with
        | p :: h => Some (mk_pool_sys (pl_list y) (pl_next y) h (pl_lost y) (<[i := ReleaseInsert p]> (pl_threads y)))
        | [] => None
        end
      else None
  | PmGo i =>
      c ← pl_threads y !! i; '(c', ps', nxt', got, lost) ← alloc_access c (pl_list y) (pl_next y);
      Some (mk_pool_sys ps' nxt' (got ++ pl_held y) (lost ++ pl_lost y) (<[i := c']> (pl_threads y)))
  | PmInsert i =>
      match pl_threads y !! i with
      | Some (ReleaseInsert p) => Some (mk_pool_sys (p :: pl_list y) (pl_next y) (pl_held y) (pl_lost y) (<[i := PoolIdle]> (pl_threads y)))
      | _ => None
      end
  end.

Fixpoint pool_run (l : list pool_move) (y : pool_sys) : option pool_sys :=
  match l with [] => Some y | mv :: l => y ← pool_run_move mv y; pool_run l y end.

(** Only threads that [ok] accepts acquire in the run. *)
Definition acquired_by (ok : nat -> bool) (l : list pool_move) : bool :=
  forallb (fun mv => match mv with PmAcquire j => ok j | _ => true end) l.

Lemma pool_run_steps (who : nat -> Prop) (ok : nat -> bool) l y y' :
  (forall j, ok j = true -> who j) -> acquired_by ok l = true -> pool_run l y = Some y' -> rtc (pool_cstep who) y y'.
Proof.
  intros Hwho. revert y. induction l as [|mv l IH]; intros y Hl; cbn; [by intros [= ->]|].
  cbn in Hl. apply andb_prop in Hl as [Hmv Hl].
  destruct (pool_run_move mv y) as [y1|] eqn:Hm; [|done]. intros Hr. eapply rtc_l; [|by apply (IH y1)].
  destruct mv as [i|i|i|i]; cbn [pool_run_move] in Hm.
  - case_decide; [|done]. injection Hm as <-. apply pool_call_acquire; [by apply Hwho|done].
  - case_decide; [|done]. destruct (pl_held y) as [|p h] eqn:Eh; [done|]. injection Hm as <-. by apply (pool_call_release who y i p [] h).
  - destruct (pl_threads y !! i) as [c|] eqn:Hi; [|done]. cbn [mbind option_bind] in Hm.
    destruct (alloc_access c (pl_list y) (pl_next y)) as [[[[[c' ps'] nxt'] got] lost]|] eqn:Ha; [|done]. injection Hm as <-. by eapply pool_alloc.
  - destruct (pl_threads y !! i) as [[| | | | | |p]|] eqn:Hi; try done. injection Hm as <-. by apply pool_insert.
Qed.

(** Thread 0 acquires two objects, thread 1 releases the first while thread 0 acquires a third. *)
Definition pool_demo : list pool_move :=
  PmAcquire 0 :: replicate 44 (PmGo 0) ++ PmAcquire 0 :: replicate 44 (PmGo 0) ++
  [PmRelease 1; PmAcquire 0; PmInsert 1; PmGo 0; PmGo 0; PmGo 0].

Definition pool_demo_end : pool_sys := default (pool_cstart 2) (pool_run pool_demo (pool_cstart 2)).

Lemma object_pool_concurrent_witness :
  pl_held pool_demo_end = [40%positive; 20%positive] /\ NoDup (pl_held pool_demo_end) /\ forall j, pl_threads pool_demo_end !! j <> Some AllocNull.
Proof.
  split; [vm_compute; reflexivity|]. destruct (object_pool_concurrent 2 0 pool_demo_end) as [H1 H2]. split.
  - apply H1, (pool_run_steps _ (fun _ => true) pool_demo); [done|vm_compute; reflexivity..].
  - apply H2, (pool_run_steps _ (Nat.eqb 0) pool_demo); [by intros [|j]|vm_compute; reflexivity..].
Defined.

(** With two threads that acquire it can return null: the second finds the list filled by the first,
    and sweeps it after the first has taken everything.  [post_message] writes through the result. *)
Lemma two_processors_null : exists y, rtc (pool_cstep (fun _ => True)) (pool_cstart 2) y /\ pl_threads y !! 1%nat = Some AllocNull.
Proof.
  eexists. split.
  - apply (pool_run_steps _ (fun _ => true) (PmAcquire 0 :: replicate 42 (PmGo 0) ++ [PmAcquire 1; PmGo 1; PmGo 0; PmGo 1])); [done|vm_compute; reflexivity..].
  - reflexivity.
Qed.
