(* ===== verification/MpmcQueue.v ===== *)
(** * libs/mpmc_queue.hpp: the bounded queue for several producers and consumers

    Every cell carries a sequence number that tells whose turn it is; a thread claims a
    position by a compare-and-swap on the enqueue or the dequeue counter.  The operations are cut
    at every access to shared memory, for the interleavings of any number of threads. *)

From S2P Require Import Prelude.

Section Mpmc.
Context {T : Type}.

(** [size_t] members; the data of a cell is [None] before the first write. *)
Record cell_t := mk_cell { sequence_ : Z; data_ : option T }.

Record mpmc_bounded_queue := mk_mpmc {
  buffer_ : list cell_t;
  buffer_mask_ : Z;
  enqueue_pos_ : Z;
  dequeue_pos_ : Z
}.

Definition mpmc_new (dbg : bool) (buffer_size : Z) : outcome mpmc_bounded_queue :=
  if dbg && negb ((2 <=? buffer_size) && (Z.land buffer_size (u64 (buffer_size - 1)) =? 0)) then AssertFail
  else Ok (mk_mpmc ((fun i => mk_cell i None) <$> seqZ 0 buffer_size) (u64 (buffer_size - 1)) 0 0).

(** [&buffer_[pos & buffer_mask_]] *)
Definition cell_index (q : mpmc_bounded_queue) (pos : Z) : Z := Z.land pos (buffer_mask_ q).
Definition cell_at (q : mpmc_bounded_queue) (pos : Z) : option cell_t := zget (buffer_ q) (cell_index q pos).
Definition set_cell (q : mpmc_bounded_queue) (pos : Z) (c : cell_t) : mpmc_bounded_queue :=
  mk_mpmc (zset (buffer_ q) (cell_index q pos) c) (buffer_mask_ q) (enqueue_pos_ q) (dequeue_pos_ q).

(** ** The operations of one thread

    [spurious] says whether a [compare_exchange_weak] fails although the values are equal. *)

Definition cas_enqueue (spurious : bool) (q : mpmc_bounded_queue) (pos : Z) : bool * mpmc_bounded_queue :=
  if (enqueue_pos_ q =? pos) && negb spurious
  then (true, mk_mpmc (buffer_ q) (buffer_mask_ q) (u64 (pos + 1)) (dequeue_pos_ q)) else (false, q).

Definition cas_dequeue (spurious : bool) (q : mpmc_bounded_queue) (pos : Z) : bool * mpmc_bounded_queue :=
  if (dequeue_pos_ q =? pos) && negb spurious
  then (true, mk_mpmc (buffer_ q) (buffer_mask_ q) (enqueue_pos_ q) (u64 (pos + 1))) else (false, q).

(** Where a thread is: before which access, with the values of its locals. *)
Inductive pc :=
| Idle
| EnqLoad (v : T)
| EnqSeq (v : T) (pos : Z)
| EnqCas (v : T) (pos : Z)
| EnqWrite (v : T) (pos : Z)
| EnqStore (v : T) (pos : Z)
| EnqDone (ok : bool)
| DeqLoad
| DeqSeq (pos : Z)
| DeqCas (pos : Z)
| DeqRead (pos : Z)
| DeqStore (pos : Z) (v : option T)
| DeqDone (r : option (option T)).

(** [enqueue], one access at a time. *)
Definition enqueue_step (spurious : bool) (c : pc) (q : mpmc_bounded_queue) : option (pc * mpmc_bounded_queue) :=
  match c with
  | EnqLoad v => Some (EnqSeq v (enqueue_pos_ q), q)
  | EnqSeq v pos =>
      cell ← cell_at q pos;
      let dif := i64 (sequence_ cell) - i64 pos in
      Some (if dif =? 0 then EnqCas v pos else if dif <? 0 then EnqDone false else EnqLoad v, q)
  | EnqCas v pos =>
      let '(ok, q') := cas_enqueue spurious q pos in
      Some (if ok then EnqWrite v pos else EnqSeq v (enqueue_pos_ q), q')
  | EnqWrite v pos =>
      cell ← cell_at q pos;
      Some (EnqStore v pos, set_cell q pos (mk_cell (sequence_ cell) (Some v)))
  | EnqStore v pos =>
      cell ← cell_at q pos;
      Some (EnqDone true, set_cell q pos (mk_cell (u64 (pos + 1)) (data_ cell)))
  | _ => None
  end.

(** [dequeue], one access at a time. *)
Definition dequeue_step (spurious : bool) (c : pc) (q : mpmc_bounded_queue) : option (pc * mpmc_bounded_queue) :=
  match c with
  | DeqLoad => Some (DeqSeq (dequeue_pos_ q), q)
  | DeqSeq pos =>
      cell ← cell_at q pos;
      let dif := i64 (sequence_ cell) - i64 (u64 (pos + 1)) in
      Some (if dif =? 0 then DeqCas pos else if dif <? 0 then DeqDone None else DeqLoad, q)
  | DeqCas pos =>
      let '(ok, q') := cas_dequeue spurious q pos in
      Some (if ok then DeqRead pos else DeqSeq (dequeue_pos_ q), q')
  | DeqRead pos => cell ← cell_at q pos; Some (DeqStore pos (data_ cell), q)
  | DeqStore pos v =>
      cell ← cell_at q pos;
      Some (DeqDone (Some v), set_cell q pos (mk_cell (u64 (pos + buffer_mask_ q + 1)) (data_ cell)))
  | _ => None
  end.

Definition thread_step (spurious : bool) (c : pc) (q : mpmc_bounded_queue) : option (pc * mpmc_bounded_queue) :=
  match enqueue_step spurious c q with Some r => Some r | None => dequeue_step spurious c q end.

(** ** Interleavings *)

(** The queue, the threads, and two ghost logs: the values in the order their positions were
    claimed, and the positions and values of the completed dequeues. *)
Record system := mk_system {
  sy_queue : mpmc_bounded_queue;
  sy_threads : list pc;
  sy_accepted : list T;
  sy_delivered : list (Z * option T)
}.

Definition at_rest (c : pc) : bool := match c with Idle | EnqDone _ | DeqDone _ => true | _ => false end.

Definition log_accepted (c c' : pc) (l : list T) : list T :=
  match c, c' with EnqCas v _, EnqWrite _ _ => l ++ [v] | _, _ => l end.
Definition log_delivered (c : pc) (l : list (Z * option T)) : list (Z * option T) :=
  match c with DeqStore pos v => l ++ [(pos, v)] | _ => l end.

Inductive mpmc_step : system -> system -> Prop :=
| step_call y t c c' :
    sy_threads y !! t = Some c -> at_rest c = true ->
    (c' = DeqLoad \/ exists v, c' = EnqLoad v) ->
    mpmc_step y (mk_system (sy_queue y) (<[t := c']> (sy_threads y)) (sy_accepted y) (sy_delivered y))
| step_access y t c c' q' spurious :
    sy_threads y !! t = Some c -> thread_step spurious c (sy_queue y) = Some (c', q') ->
    mpmc_step y (mk_system q' (<[t := c']> (sy_threads y)) (log_accepted c c' (sy_accepted y))
                   (log_delivered c (sy_delivered y))).

Definition mpmc_start (q : mpmc_bounded_queue) (threads : nat) : system :=
  mk_system q (replicate threads Idle) [] [].
End Mpmc.
Arguments cell_t : clear implicits. Arguments mpmc_bounded_queue : clear implicits. Arguments pc : clear implicits.
Arguments system : clear implicits.

(** ** The invariant *)

Section Invariant.
Context {T : Type} (n : Z).
Implicit Types (q : mpmc_bounded_queue T) (c : pc T) (y : system T).

Definition acc_at (acc : list T) (pos : Z) : option T := zget acc pos.

(** The cell of [pos] has gone through the turns before position [p]: it waits for the producer
    of [p] or for its consumer. *)
Definition cell_turn (acc : list T) (E D : Z) (pos : Z) (cell : cell_t T) : Prop :=
  exists p, p mod n = pos mod n /\ 0 <= p /\ E <= p + n /\ p < D + n /\
    (sequence_ cell = p /\ D <= p \/
     sequence_ cell = p + 1 /\ p < E /\ data_ cell = acc_at acc p).

(** What a thread knows at each of its accesses. *)
Definition thread_ok (acc : list T) q c : Prop :=
  let seq pos := sequence_ <$> cell_at q pos in
  match c with
  | EnqSeq _ pos => 0 <= pos <= enqueue_pos_ q
  | EnqCas _ pos => 0 <= pos <= enqueue_pos_ q /\ (pos = enqueue_pos_ q -> seq pos = Some pos)
  | EnqWrite v pos => 0 <= pos < enqueue_pos_ q /\ seq pos = Some pos /\ acc_at acc pos = Some v
  | EnqStore v pos => 0 <= pos < enqueue_pos_ q /\ seq pos = Some pos /\ acc_at acc pos = Some v /\
      (data_ <$> cell_at q pos) = Some (Some v)
  | DeqSeq pos => 0 <= pos <= dequeue_pos_ q
  | DeqCas pos => 0 <= pos <= dequeue_pos_ q /\ (pos = dequeue_pos_ q -> seq pos = Some (pos + 1))
  | DeqRead pos => 0 <= pos < dequeue_pos_ q /\ seq pos = Some (pos + 1)
  | DeqStore pos v => 0 <= pos < dequeue_pos_ q /\ seq pos = Some (pos + 1) /\ v = acc_at acc pos
  | _ => True
  end.

(** The position a thread has claimed and not yet handed on. *)
Definition enq_owns c : option Z := match c with EnqWrite _ pos | EnqStore _ pos => Some pos | _ => None end.
Definition deq_owns c : list Z := match c with DeqRead pos | DeqStore pos _ => [pos] | _ => [] end.

Definition owns_apart (cs : list (pc T)) : Prop :=
  forall t t' c c' p, cs !! t = Some c -> cs !! t' = Some c' ->
    enq_owns c = Some p -> enq_owns c' = Some p -> t = t'.

Record mpmc_inv y : Prop := {
  inv_mask : buffer_mask_ (sy_queue y) = n - 1;
  inv_length : zlen (buffer_ (sy_queue y)) = n;
  inv_accepted : zlen (sy_accepted y) = enqueue_pos_ (sy_queue y);
  inv_order : 0 <= dequeue_pos_ (sy_queue y) <= enqueue_pos_ (sy_queue y) /\
              enqueue_pos_ (sy_queue y) <= dequeue_pos_ (sy_queue y) + n;
  inv_cells : forall pos cell, 0 <= pos -> cell_at (sy_queue y) pos = Some cell ->
    cell_turn (sy_accepted y) (enqueue_pos_ (sy_queue y)) (dequeue_pos_ (sy_queue y)) pos cell;
  inv_threads : Forall (thread_ok (sy_accepted y) (sy_queue y)) (sy_threads y);
  inv_apart : owns_apart (sy_threads y);
  inv_claimed : concat (deq_owns <$> sy_threads y) ++ (sy_delivered y).*1 ≡ₚ seqZ 0 (dequeue_pos_ (sy_queue y));
  inv_delivered : Forall (fun d => d.2 = acc_at (sy_accepted y) d.1) (sy_delivered y)
}.

Lemma acc_at_snoc (acc : list T) v pos : pos < zlen acc -> acc_at (acc ++ [v]) pos = acc_at acc pos.
Proof using.
  intros Hp. unfold acc_at, zget. destruct (Z.ltb_spec pos 0); [done|]. apply lookup_app_l. lia.
Qed.

Lemma acc_at_last (acc : list T) v : acc_at (acc ++ [v]) (zlen acc) = Some v.
Proof using.
  unfold acc_at, zget. destruct (Z.ltb_spec (zlen acc) 0); [lia|]. rewrite Nat2Z.id.
  by rewrite lookup_app_r, Nat.sub_diag by lia.
Qed.

Context (k : nat) (Hn : n = 2 ^ Z.of_nat k) (Hn2 : 2 <= n) (Hn62 : n <= 2 ^ 62).

Lemma cell_index_mod q pos : buffer_mask_ q = n - 1 -> cell_index q pos = pos mod n.
Proof using Hn.
  intros Hm. unfold cell_index. rewrite Hm, Hn.
  replace (2 ^ Z.of_nat k - 1) with (Z.ones (Z.of_nat k)) by (rewrite Z.ones_equiv; lia).
  apply Z.land_ones. lia.
Qed.

Lemma cell_at_some q pos : buffer_mask_ q = n - 1 -> zlen (buffer_ q) = n -> is_Some (cell_at q pos).
Proof using Hn Hn2.
  intros Hm Hl. apply zget_some_iff. rewrite cell_index_mod by done.
  pose proof (Z.mod_pos_bound pos n). lia.
Qed.

(** Same cell, less than one turn apart. *)
Lemma same_turn p pos : p mod n = pos mod n -> - n < p - pos < n -> p = pos.
Proof using Hn Hn2.
  intros Hm Hb. assert (p - pos = 0); [|lia]. apply (mod_0_small n); [done|].
  rewrite Zminus_mod, Hm, Z.sub_diag. done.
Qed.

Lemma cell_at_set_eq q pos pos' (cl : cell_t T) : buffer_mask_ q = n - 1 -> zlen (buffer_ q) = n ->
  pos' mod n = pos mod n -> cell_at (set_cell q pos cl) pos' = Some cl.
Proof using Hn Hn2.
  intros Hm Hl He. unfold cell_at. rewrite (cell_index_mod (set_cell q pos cl)) by done.
  cbn [set_cell buffer_]. rewrite cell_index_mod, He by done.
  apply zget_zset_eq. pose proof (Z.mod_pos_bound pos n). lia.
Qed.

Lemma cell_at_set_ne q pos pos' (cl : cell_t T) : buffer_mask_ q = n - 1 ->
  pos' mod n <> pos mod n -> cell_at (set_cell q pos cl) pos' = cell_at q pos'.
Proof using Hn.
  intros Hm He. unfold cell_at. rewrite (cell_index_mod (set_cell q pos cl)), (cell_index_mod q pos') by done.
  cbn [set_cell buffer_]. rewrite cell_index_mod by done. by apply zget_zset_ne.
Qed.

(** A thread's own move: the queue is as before, and it owns what it owned. *)
Lemma inv_local y t c c' :
  mpmc_inv y -> sy_threads y !! t = Some c ->
  thread_ok (sy_accepted y) (sy_queue y) c' ->
  (enq_owns c' = None \/ enq_owns c' = enq_owns c) -> deq_owns c' = deq_owns c ->
  mpmc_inv (mk_system (sy_queue y) (<[t := c']> (sy_threads y)) (sy_accepted y) (sy_delivered y)).
Proof using.
  intros [] Ht Hok He Hd. split; cbn; try done.
  - by apply Forall_insert.
  - intros t1 t2 c1 c2 p H1 H2 O1 O2.
    destruct (decide (t1 = t)) as [E1|E1], (decide (t2 = t)) as [E2|E2]; subst; try done.
    + rewrite list_lookup_insert_eq in H1 by (by eapply lookup_lt_Some). simplify_eq.
      rewrite list_lookup_insert_ne in H2 by done.
      eapply (inv_apart0 t t2); [done..| |done]. destruct He; congruence.
    + rewrite list_lookup_insert_eq in H2 by (by eapply lookup_lt_Some). simplify_eq.
      rewrite list_lookup_insert_ne in H1 by done.
      eapply (inv_apart0 t1 t); [done..|]. destruct He; congruence.
    + rewrite list_lookup_insert_ne in H1, H2 by done. eauto.
  - rewrite list_fmap_insert. rewrite <- inv_claimed0. rewrite list_insert_id; [done|].
    by rewrite list_lookup_fmap, Ht, Hd.
Qed.

(** The claims recorded when a thread starts or stops owning a position. *)
Lemma claimed_update (cs : list (pc T)) t c c' l :
  cs !! t = Some c ->
  concat (deq_owns <$> <[t := c']> cs) ++ deq_owns c ++ l ≡ₚ concat (deq_owns <$> cs) ++ deq_owns c' ++ l.
Proof using.
  intros Ht. rewrite list_fmap_insert, !app_assoc. apply Permutation_app; [|done].
  apply concat_insert_perm. by rewrite list_lookup_fmap, Ht.
Qed.

Lemma thread_inv y t c : mpmc_inv y -> sy_threads y !! t = Some c -> thread_ok (sy_accepted y) (sy_queue y) c.
Proof using. intros [] Ht. by eapply (Forall_lookup_1 _ _ t). Qed.

(** The turn of the cell of [pos] once its sequence number is known. *)
Lemma turn_free y pos s d : mpmc_inv y -> 0 <= pos -> cell_at (sy_queue y) pos = Some (mk_cell s d) ->
  s = pos -> dequeue_pos_ (sy_queue y) <= pos /\ pos < dequeue_pos_ (sy_queue y) + n /\ enqueue_pos_ (sy_queue y) <= pos + n.
Proof using Hn Hn2.
  intros Hy Hp Hc ->. destruct (inv_cells y Hy pos _ Hp Hc) as (p&Hm&?&?&?&[[Hs ?]|(Hs&_)]); cbn in Hs.
  - assert (p = pos) as -> by (apply same_turn; [done|lia]). lia.
  - assert (p = pos) by (apply same_turn; [done|lia]). lia.
Qed.

Lemma turn_full y pos s d : mpmc_inv y -> 0 <= pos -> cell_at (sy_queue y) pos = Some (mk_cell s d) ->
  s = pos + 1 -> pos < enqueue_pos_ (sy_queue y) /\ pos < dequeue_pos_ (sy_queue y) + n /\
    enqueue_pos_ (sy_queue y) <= pos + n /\ d = acc_at (sy_accepted y) pos.
Proof using Hn Hn2.
  intros Hy Hp Hc ->. destruct (inv_cells y Hy pos _ Hp Hc) as (p&Hm&?&?&?&[[Hs ?]|(Hs&?&Hd)]); cbn in *.
  - assert (p = pos) by (apply same_turn; [done|lia]). lia.
  - assert (p = pos) as -> by lia. done.
Qed.

Lemma mod_add_period p : (p + n) mod n = p mod n.
Proof using Hn2 Hn. replace (p + n) with (p + 1 * n) by lia. apply Z.mod_add. lia. Qed.

Lemma cell_at_same q pos pos' : buffer_mask_ q = n - 1 -> pos mod n = pos' mod n -> cell_at q pos = cell_at q pos'.
Proof using Hn. intros Hm He. unfold cell_at. by rewrite !cell_index_mod, He. Qed.

Lemma owns_below y t c p : mpmc_inv y -> sy_threads y !! t = Some c -> enq_owns c = Some p ->
  0 <= p < enqueue_pos_ (sy_queue y).
Proof using.
  clear Hn Hn2 Hn62. intros Hy Ht Ho. pose proof (thread_inv y t c Hy Ht) as Hc. destruct c; cbn in Hc; simplify_eq/=; intuition.
Qed.

(** Replacing one thread keeps the producers apart when the new one owns nothing another owns. *)
Lemma owns_apart_insert (cs : list (pc T)) t c' :
  owns_apart cs ->
  (forall t1 c1 p, cs !! t1 = Some c1 -> t1 <> t -> enq_owns c1 = Some p -> enq_owns c' <> Some p) ->
  owns_apart (<[t := c']> cs).
Proof using.
  intros Ha Hc t1 t2 c1 c2 p H1 H2 O1 O2.
  apply list_lookup_insert_Some in H1 as [(<-&<-&L1)|(N1&H1)];
    apply list_lookup_insert_Some in H2 as [(<-&<-&L2)|(N2&H2)]; [done| | |by eapply Ha].
  - by destruct (Hc t2 c2 p H2 ltac:(done) O2).
  - by destruct (Hc t1 c1 p H1 ltac:(done) O1).
Qed.

Lemma delivered_below y d : mpmc_inv y -> d ∈ sy_delivered y -> 0 <= d.1 < dequeue_pos_ (sy_queue y).
Proof using.
  intros Hy Hd. assert (d.1 ∈ seqZ 0 (dequeue_pos_ (sy_queue y))) as Hin.
  { rewrite <- (inv_claimed y Hy). apply elem_of_app. right. by apply list_elem_of_fmap_2. }
  apply elem_of_seqZ in Hin. clear Hn Hn2 Hn62. lia.
Qed.

Lemma inv_enq_claim y t v pos :
  mpmc_inv y -> sy_threads y !! t = Some (EnqCas v pos) -> enqueue_pos_ (sy_queue y) = pos ->
  mpmc_inv (mk_system (mk_mpmc (buffer_ (sy_queue y)) (buffer_mask_ (sy_queue y)) (pos + 1) (dequeue_pos_ (sy_queue y)))
              (<[t := EnqWrite v pos]> (sy_threads y)) (sy_accepted y ++ [v]) (sy_delivered y)).
Proof using Hn Hn2.
  intros Hy Ht <-. destruct (thread_inv y t _ Hy Ht) as [_ Hseq]. specialize (Hseq eq_refl).
  destruct (cell_at (sy_queue y) (enqueue_pos_ (sy_queue y))) as [[s d]|] eqn:Hc; [|done].
  cbn in Hseq. injection Hseq as ->.
  pose proof (inv_order y Hy) as Ho. destruct (turn_free y (enqueue_pos_ (sy_queue y)) _ d Hy ltac:(lia) Hc eq_refl) as (Ht1&Ht2&Ht3).
  pose proof (inv_accepted y Hy) as Ha.
  assert (Hown := fun t1 c1 p => owns_below y t1 c1 p Hy). assert (Hdel := fun e => delivered_below y e Hy).
  destruct Hy. split; cbn [sy_queue sy_threads sy_accepted sy_delivered buffer_ buffer_mask_ enqueue_pos_ dequeue_pos_];
    try done.
  - rewrite length_app. cbn. lia.
  - lia.
  - intros p cell Hp Hcell. destruct (inv_cells0 p cell Hp Hcell) as (p'&Hm&?&?&?&Hs).
    exists p'. split_and!; try done.
    + destruct (decide (enqueue_pos_ (sy_queue y) = p' + n)) as [E|]; [|lia]. exfalso.
      assert (cell = mk_cell (enqueue_pos_ (sy_queue y)) d) as ->.
      { assert (cell_at (sy_queue y) p = Some cell) as Hcell' by done.
        rewrite (cell_at_same _ p (enqueue_pos_ (sy_queue y))) in Hcell'; [congruence|done|].
        rewrite E, <- Hm. symmetry. apply mod_add_period. }
      cbn in Hs. lia.
    + destruct Hs as [?|(?&?&->)]; [by left|right]. split_and!; [done|lia|]. symmetry. apply acc_at_snoc. lia.
  - apply Forall_insert; [|cbn [thread_ok enqueue_pos_]; split_and!; [lia|lia| |rewrite <- Ha; apply acc_at_last]].
    2:{ change (sequence_ <$> cell_at (sy_queue y) (enqueue_pos_ (sy_queue y)) = Some (enqueue_pos_ (sy_queue y))).
        by rewrite Hc. }
    eapply Forall_impl; [exact inv_threads0|]. intros c. destruct c; cbn; intros; try lia; try done;
      repeat match goal with H : _ /\ _ |- _ => destruct H end; split_and?; try lia; try done;
      rewrite ?acc_at_snoc by lia; done.
  - apply owns_apart_insert; [done|]. intros t1 c1 p H1 _ O1. cbn. specialize (Hown _ _ _ H1 O1). intros [=]. lia.
  - rewrite list_fmap_insert, list_insert_id; [done|]. by rewrite list_lookup_fmap, Ht.
  - apply Forall_forall. intros e He. rewrite acc_at_snoc; [by apply (proj1 (Forall_forall _ _) inv_delivered0)|].
    specialize (Hdel e He). lia.
Qed.


(** The position whose sequence number a thread relies on, and that number. *)
Definition knows q c : option (Z * Z) :=
  match c with
  | EnqCas _ pos => if enqueue_pos_ q =? pos then Some (pos, pos) else None
  | EnqWrite _ pos | EnqStore _ pos => Some (pos, pos)
  | DeqCas pos => if dequeue_pos_ q =? pos then Some (pos, pos + 1) else None
  | DeqRead pos | DeqStore pos _ => Some (pos, pos + 1)
  | _ => None
  end.

Lemma knows_seq acc q c p s : thread_ok acc q c -> knows q c = Some (p, s) ->
  0 <= p /\ sequence_ <$> cell_at q p = Some s.
Proof using.
  clear Hn Hn2 Hn62. destruct c; cbn [thread_ok knows]; intros Hok Hk; zcases; simplify_eq; intuition lia.
Qed.

(** Changing a cell a thread does not rely on. *)
Lemma thread_frame acc q c pos cl :
  buffer_mask_ q = n - 1 -> thread_ok acc q c ->
  (forall p s, knows q c = Some (p, s) -> p mod n <> pos mod n) -> thread_ok acc (set_cell q pos cl) c.
Proof using Hn.
  intros Hm Hok Hk. destruct c as [| |? p|v p|v p|v p| | |p|p|p|p v|]; cbn [thread_ok knows set_cell enqueue_pos_ dequeue_pos_] in *; try done.
  - split; [lia|]. intros ->. rewrite Z.eqb_refl in Hk. rewrite cell_at_set_ne by eauto. by apply Hok.
  - by rewrite cell_at_set_ne by eauto.
  - by rewrite cell_at_set_ne by eauto.
  - split; [lia|]. intros ->. rewrite Z.eqb_refl in Hk. rewrite cell_at_set_ne by eauto. by apply Hok.
  - by rewrite cell_at_set_ne by eauto.
  - by rewrite cell_at_set_ne by eauto.
Qed.

Lemma deq_apart y t t1 c c1 p : mpmc_inv y -> sy_threads y !! t = Some c -> sy_threads y !! t1 = Some c1 ->
  deq_owns c = [p] -> deq_owns c1 = [p] -> t1 = t.
Proof using.
  intros Hy Ht Ht1 Ho Ho1. destruct (decide (t1 = t)) as [|Hne]; [done|exfalso].
  pose proof (NoDup_seqZ 0 (dequeue_pos_ (sy_queue y))) as Hnd. rewrite <- (inv_claimed y Hy) in Hnd.
  apply NoDup_app in Hnd as [Hnd _].
  assert (Hp := concat_insert_perm (deq_owns <$> sy_threads y) t [p] []). rewrite app_nil_r in Hp.
  rewrite <- Hp in Hnd by (by rewrite list_lookup_fmap, Ht, <- Ho).
  apply NoDup_app in Hnd as (_&Hnd&_). apply (Hnd p); [|by left].
  apply list_elem_of_In, in_concat. exists [p]. split; [|by left].
  apply list_elem_of_In, (list_elem_of_lookup_2 _ t1). rewrite list_lookup_insert_ne by done.
  by rewrite list_lookup_fmap, Ht1, <- Ho1.
Qed.

(** A thread that owns a position is the only one that relies on its cell. *)
Lemma knows_apart y t t1 c c1 pos s p1 s1 :
  mpmc_inv y -> sy_threads y !! t = Some c -> sy_threads y !! t1 = Some c1 -> t1 <> t ->
  (enq_owns c = Some pos /\ s = pos \/ deq_owns c = [pos] /\ s = pos + 1) ->
  knows (sy_queue y) c = Some (pos, s) -> knows (sy_queue y) c1 = Some (p1, s1) -> p1 mod n <> pos mod n.
Proof using Hn Hn2.
  intros Hy Ht Ht1 Hne Ho Hk Hk1 Hm.
  destruct (knows_seq _ _ _ _ _ (thread_inv y t c Hy Ht) Hk) as [Hp Hs].
  pose proof (thread_inv y t1 c1 Hy Ht1) as Hok1.
  destruct (knows_seq _ _ _ _ _ Hok1 Hk1) as [Hp1 Hs1].
  rewrite (cell_at_same _ p1 pos) in Hs1 by (done || apply Hy). assert (s1 = s) as -> by congruence.
  assert (p1 = pos) as ->.
  { apply same_turn; [done|]. destruct c1; cbn in Hk1; zcases; simplify_eq; lia. }
  pose proof (thread_inv y t c Hy Ht) as Hok.
  destruct Ho as [[Ho ->]|[Ho ->]].
  - pose proof (owns_below y t c pos Hy Ht Ho).
    destruct c1; cbn in Hk1; zcases; simplify_eq; try lia.
    + apply Hne. by eapply (inv_apart y Hy t1 t).
    + apply Hne. by eapply (inv_apart y Hy t1 t).
  - destruct c1; cbn in Hk1; zcases; simplify_eq; try lia.
    + destruct c; simplify_eq/=; lia.
    + apply Hne. by eapply deq_apart.
    + apply Hne. by eapply deq_apart.
Qed.

(** The owner of [pos] writes its cell. *)
Lemma inv_set_cell y t c c' pos s cl del :
  mpmc_inv y -> sy_threads y !! t = Some c ->
  (enq_owns c = Some pos /\ s = pos \/ deq_owns c = [pos] /\ s = pos + 1) ->
  knows (sy_queue y) c = Some (pos, s) ->
  cell_turn (sy_accepted y) (enqueue_pos_ (sy_queue y)) (dequeue_pos_ (sy_queue y)) pos cl ->
  thread_ok (sy_accepted y) (set_cell (sy_queue y) pos cl) c' ->
  (enq_owns c' = None \/ enq_owns c' = enq_owns c) ->
  deq_owns c' ++ del.*1 = deq_owns c ->
  Forall (fun d => d.2 = acc_at (sy_accepted y) d.1) del ->
  mpmc_inv (mk_system (set_cell (sy_queue y) pos cl) (<[t := c']> (sy_threads y)) (sy_accepted y) (sy_delivered y ++ del)).
Proof using Hn Hn2.
  intros Hy Ht Ho Hk Hturn Hok' He Hd Hdel.
  split; cbn [sy_queue sy_threads sy_accepted sy_delivered set_cell buffer_ buffer_mask_ enqueue_pos_ dequeue_pos_];
    try apply Hy.
  - rewrite length_zset. apply Hy.
  - intros p cell Hp Hcell. destruct (decide (p mod n = pos mod n)) as [Hm|Hm].
    + rewrite (cell_at_set_eq _ pos) in Hcell by (done || apply Hy). simplify_eq.
      destruct Hturn as (p'&?&?). exists p'. split; [congruence|done].
    + change (cell_at (set_cell (sy_queue y) pos cl) p = Some cell) in Hcell.
      rewrite cell_at_set_ne in Hcell by (done || apply Hy). by apply Hy.
  - apply Forall_lookup. intros t1 c1 Ht1. apply list_lookup_insert_Some in Ht1 as [(<-&<-&_)|(Hne&Ht1)]; [done|].
    apply thread_frame; [apply Hy|by eapply thread_inv|]. intros p1 s1 Hk1. by eapply (knows_apart y t t1).
  - apply owns_apart_insert; [apply Hy|]. intros t1 c1 p H1 Hne O1 O2.
    apply Hne. eapply (inv_apart y Hy t1 t); [done..|]. destruct He; congruence.
  - rewrite <- (inv_claimed y Hy), fmap_app. pose proof (claimed_update (sy_threads y) t c c' (sy_delivered y).*1 Ht) as Hc.
    rewrite <- Hd in Hc. revert Hc. generalize (concat (deq_owns <$> <[t := c']> (sy_threads y))).
    generalize (concat (deq_owns <$> sy_threads y)) (deq_owns c') (del.*1) ((sy_delivered y).*1).
    intros l1 l2 l3 l4 l5 Hc. apply (Permutation_app_inv_l l2). rewrite (Permutation_app_comm l2 (l1 ++ l4)), <- app_assoc.
    rewrite (Permutation_app_comm l4 l2), <- Hc. solve_Permutation.
  - apply Forall_app. split; [apply Hy|done].
Qed.

Lemma inv_deq_claim y t pos :
  mpmc_inv y -> sy_threads y !! t = Some (DeqCas pos) -> dequeue_pos_ (sy_queue y) = pos ->
  mpmc_inv (mk_system (mk_mpmc (buffer_ (sy_queue y)) (buffer_mask_ (sy_queue y)) (enqueue_pos_ (sy_queue y)) (pos + 1))
              (<[t := DeqRead pos]> (sy_threads y)) (sy_accepted y) (sy_delivered y)).
Proof using Hn Hn2.
  intros Hy Ht <-. destruct (thread_inv y t _ Hy Ht) as [Hpos Hseq]. specialize (Hseq eq_refl).
  destruct (cell_at (sy_queue y) (dequeue_pos_ (sy_queue y))) as [[s d]|] eqn:Hc; [|done].
  cbn in Hseq. injection Hseq as ->. pose proof (inv_order y Hy) as Ho.
  destruct (turn_full y (dequeue_pos_ (sy_queue y)) _ d Hy ltac:(lia) Hc eq_refl) as (Ht1&Ht2&Ht3&_).
  destruct Hy. split; cbn [sy_queue sy_threads sy_accepted sy_delivered buffer_ buffer_mask_ enqueue_pos_ dequeue_pos_];
    try done.
  - lia.
  - intros p cell Hp Hcell. destruct (inv_cells0 p cell Hp Hcell) as (p'&Hm&?&?&?&Hs).
    exists p'. split_and!; try done; [lia|]. destruct Hs as [[Hs ?]|?]; [left|by right]. split; [done|].
    destruct (decide (p' = dequeue_pos_ (sy_queue y))) as [->|]; [|lia]. exfalso.
    assert (cell_at (sy_queue y) p = Some cell) as Hcell' by done.
    rewrite (cell_at_same _ p (dequeue_pos_ (sy_queue y))), Hc in Hcell' by done. simplify_eq/=. lia.
  - apply Forall_insert.
    + eapply Forall_impl; [exact inv_threads0|]. intros c. destruct c; cbn; intros; try lia; try done;
        repeat match goal with H : _ /\ _ |- _ => destruct H end; split_and?; try lia; try done.
    + cbn [thread_ok dequeue_pos_]. split; [lia|].
      change (sequence_ <$> cell_at (sy_queue y) (dequeue_pos_ (sy_queue y)) = Some (dequeue_pos_ (sy_queue y) + 1)).
      by rewrite Hc.
  - apply owns_apart_insert; [done|]. intros t1 c1 p H1 _ O1. done.
  - pose proof (claimed_update (sy_threads y) t _ (DeqRead (dequeue_pos_ (sy_queue y))) (sy_delivered y).*1 Ht) as Hp.
    cbn [deq_owns app] in Hp. rewrite Hp. rewrite <- Permutation_middle, inv_claimed0.
    rewrite (seqZ_app 0) by lia. rewrite Z.add_0_l. apply Permutation_cons_append.
Qed.

Lemma u64_pos y x : mpmc_inv y -> zlen (sy_accepted y) < 2 ^ 62 -> 0 <= x <= enqueue_pos_ (sy_queue y) + n ->
  u64 x = x /\ i64 x = x.
Proof using Hn Hn62.
  intros Hy Hb Hx. rewrite (inv_accepted y Hy) in Hb. split; [apply u64_small|apply i64_small]; lia.
Qed.

Lemma seq_bound y pos cl : mpmc_inv y -> 0 <= pos -> cell_at (sy_queue y) pos = Some cl ->
  0 <= sequence_ cl <= enqueue_pos_ (sy_queue y) + n.
Proof using Hn Hn2.
  intros Hy Hp Hc. pose proof (inv_order y Hy). destruct (inv_cells y Hy pos cl Hp Hc) as (p&?&?&?&?&[[-> ?]|(->&?&?)]); lia.
Qed.

Lemma enqueue_step_inv y t c c' q' spurious :
  mpmc_inv y -> zlen (sy_accepted y) < 2 ^ 62 -> sy_threads y !! t = Some c ->
  enqueue_step spurious c (sy_queue y) = Some (c', q') ->
  mpmc_inv (mk_system q' (<[t := c']> (sy_threads y)) (log_accepted c c' (sy_accepted y)) (log_delivered c (sy_delivered y))).
Proof using Hn Hn2 Hn62.
  intros Hy Hb Ht Hs. pose proof (thread_inv y t c Hy Ht) as Hok. pose proof (inv_order y Hy) as Ho.
  destruct c as [|v|v pos|v pos|v pos|v pos| | |pos|pos|pos|pos v|]; try done; cbn in Hs.
  - simplify_eq. cbn. eapply inv_local; [done..| |by left|done]. cbn. lia.
  - destruct (cell_at (sy_queue y) pos) as [cl|] eqn:Hc; [|done]. cbn in Hs. injection Hs as <- <-. cbn [thread_ok] in Hok.
    destruct (u64_pos y pos Hy Hb ltac:(lia)) as [_ Hip].
    destruct (u64_pos y (sequence_ cl) Hy Hb (seq_bound y pos cl Hy ltac:(lia) Hc)) as [_ His].
    rewrite Hip, His. cbn [log_delivered log_accepted].
    apply (inv_local y t (EnqSeq v pos)); [done..| | |].
    + destruct (Z.eqb_spec (sequence_ cl - pos) 0); [|by destruct (_ <? _)]. cbn. split; [lia|]. rewrite Hc. cbn.
      intros _. f_equal. lia.
    + left. destruct (_ =? _); [done|]. by destruct (_ <? _).
    + destruct (_ =? _); [done|]. by destruct (_ <? _).
  - unfold cas_enqueue in Hs. destruct (Z.eqb_spec (enqueue_pos_ (sy_queue y)) pos) as [Hp|]; [destruct spurious|];
      cbn in Hs; simplify_eq; cbn [log_accepted log_delivered].
    + eapply inv_local; [done..| |by left|done]. cbn. lia.
    + destruct (u64_pos y (enqueue_pos_ (sy_queue y) + 1) Hy Hb ltac:(lia)) as [-> _]. by apply inv_enq_claim.
    + eapply inv_local; [done..| |by left|done]. cbn. lia.
  - destruct (cell_at (sy_queue y) pos) as [[s d]|] eqn:Hc; [|done]. cbn in Hs. simplify_eq. cbn [log_accepted log_delivered].
    destruct Hok as (Hp&Hq&Ha). rewrite Hc in Hq. cbn in Hq. injection Hq as ->.
    rewrite <- (app_nil_r (sy_delivered y)). eapply inv_set_cell; [done|done|by left|done| | |by right|done|done].
    + destruct (turn_free y pos _ d Hy ltac:(lia) Hc eq_refl) as (?&?&?). exists pos. cbn. split_and!; lia || done.
    + cbn [thread_ok]. rewrite (cell_at_set_eq _ pos pos) by (done || apply Hy). cbn. split_and!; try done; lia.
  - destruct (cell_at (sy_queue y) pos) as [[s d]|] eqn:Hc; [|done]. cbn in Hs. simplify_eq. cbn [log_accepted log_delivered].
    destruct Hok as (Hp&Hq&Ha&Hd). rewrite Hc in Hq, Hd. cbn in Hq, Hd. injection Hq as ->. injection Hd as ->.
    destruct (u64_pos y (pos + 1) Hy Hb ltac:(lia)) as [-> _].
    rewrite <- (app_nil_r (sy_delivered y)). eapply inv_set_cell; [done|done|by left|done| |done|by left|done|done].
    destruct (turn_free y pos _ _ Hy ltac:(lia) Hc eq_refl) as (?&?&?). exists pos. cbn. split_and!; [lia..|].
    right. split_and!; [lia|lia|done].
Qed.

Lemma dequeue_step_inv y t c c' q' spurious :
  mpmc_inv y -> zlen (sy_accepted y) < 2 ^ 62 -> sy_threads y !! t = Some c ->
  dequeue_step spurious c (sy_queue y) = Some (c', q') ->
  mpmc_inv (mk_system q' (<[t := c']> (sy_threads y)) (log_accepted c c' (sy_accepted y)) (log_delivered c (sy_delivered y))).
Proof using Hn Hn2 Hn62.
  intros Hy Hb Ht Hs. pose proof (thread_inv y t c Hy Ht) as Hok. pose proof (inv_order y Hy) as Ho.
  destruct c as [|v|v pos|v pos|v pos|v pos| | |pos|pos|pos|pos v|]; try done; cbn in Hs.
  - simplify_eq. cbn. eapply inv_local; [done..| |by left|done]. cbn. lia.
  - destruct (cell_at (sy_queue y) pos) as [cl|] eqn:Hc; [|done]. cbn in Hs. injection Hs as <- <-. cbn [thread_ok] in Hok.
    destruct (u64_pos y (pos + 1) Hy Hb ltac:(lia)) as [-> Hip].
    destruct (u64_pos y (sequence_ cl) Hy Hb (seq_bound y pos cl Hy ltac:(lia) Hc)) as [_ His].
    rewrite Hip, His. cbn [log_delivered log_accepted].
    apply (inv_local y t (DeqSeq pos)); [done..| | |].
    + destruct (Z.eqb_spec (sequence_ cl - (pos + 1)) 0); [|by destruct (_ <? _)]. cbn. split; [lia|]. rewrite Hc. cbn.
      intros _. f_equal. lia.
    + left. destruct (_ =? _); [done|]. by destruct (_ <? _).
    + destruct (_ =? _); [done|]. by destruct (_ <? _).
  - unfold cas_dequeue in Hs. destruct (Z.eqb_spec (dequeue_pos_ (sy_queue y)) pos) as [Hp|]; [destruct spurious|];
      cbn in Hs; simplify_eq; cbn [log_accepted log_delivered].
    + eapply inv_local; [done..| |by left|done]. cbn. lia.
    + destruct (u64_pos y (dequeue_pos_ (sy_queue y) + 1) Hy Hb ltac:(lia)) as [-> _]. by apply inv_deq_claim.
    + eapply inv_local; [done..| |by left|done]. cbn. lia.
  - destruct (cell_at (sy_queue y) pos) as [[s d]|] eqn:Hc; [|done]. cbn in Hs. simplify_eq. cbn [log_accepted log_delivered].
    destruct Hok as (Hp&Hq). pose proof Hq as Hq'. rewrite Hc in Hq. cbn in Hq. injection Hq as ->.
    destruct (turn_full y pos _ d Hy ltac:(lia) Hc eq_refl) as (?&?&?&->).
    by eapply inv_local; [done..| |by left|done].
  - destruct (cell_at (sy_queue y) pos) as [[s d]|] eqn:Hc; [|done]. cbn in Hs. simplify_eq. cbn [log_accepted log_delivered].
    destruct Hok as (Hp&Hq&->). rewrite Hc in Hq. cbn in Hq. injection Hq as ->.
    destruct (turn_full y pos _ d Hy ltac:(lia) Hc eq_refl) as (?&?&?&->).
    rewrite (inv_mask y Hy). destruct (u64_pos y (pos + (n - 1) + 1) Hy Hb ltac:(lia)) as [-> _].
    eapply inv_set_cell; [done|done|by right|done| |done|by left|done|by repeat constructor].
    exists (pos + n). cbn. split_and!; [apply mod_add_period|lia..|]. left. lia.
Qed.

Lemma log_accepted_length c c' (l : list T) : zlen l <= zlen (log_accepted c c' l).
Proof using. clear Hn Hn2 Hn62. destruct c; cbn; try lia. destruct c'; cbn; rewrite ?length_app; lia. Qed.

Lemma mpmc_step_inv y y' : mpmc_step y y' ->
  (zlen (sy_accepted y) < 2 ^ 62 -> mpmc_inv y) -> zlen (sy_accepted y') < 2 ^ 62 -> mpmc_inv y'.
Proof using Hn Hn2 Hn62.
  intros Hs Hy Hb'. assert (Hb : zlen (sy_accepted y) < 2 ^ 62).
  { destruct Hs; cbn in *; [lia|]. pose proof (log_accepted_length c c' (sy_accepted y)). lia. }
  specialize (Hy Hb). destruct Hs as [y t c c' Ht Hr Hc'|y t c c' q' sp Ht Hs]; cbn in *.
  - assert (enq_owns c = None /\ deq_owns c = []) as [E1 E2] by (by destruct c).
    eapply inv_local; [done..| | |]; destruct Hc' as [->|[v ->]]; cbn; auto.
  - unfold thread_step in Hs. destruct (enqueue_step sp c (sy_queue y)) as [[c1 q1]|] eqn:E.
    + injection Hs as <- <-. by eapply enqueue_step_inv.
    + by eapply dequeue_step_inv.
Qed.

Lemma mpmc_start_inv threads q : mpmc_new true n = Ok q -> mpmc_inv (mpmc_start q threads).
Proof using Hn Hn2 Hn62.
  unfold mpmc_new. destruct (true && _); [done|]. intros [= <-].
  assert (u64 (n - 1) = n - 1) as Hu by (apply u64_small; lia).
  split; cbn; rewrite ?Hu; try done; try lia.
  - rewrite length_fmap, length_seqZ. lia.
  - intros pos cell Hp Hc. unfold cell_at in Hc. cbn in Hc. rewrite cell_index_mod in Hc by done.
    pose proof (Z.mod_pos_bound pos n ltac:(lia)) as Hm. unfold zget in Hc. destruct (Z.ltb_spec (pos mod n) 0); [lia|].
    rewrite list_lookup_fmap, lookup_seqZ_lt in Hc by lia. cbn in Hc. simplify_eq.
    exists (pos mod n). cbn. rewrite Z.mod_mod by lia. split_and!; [done|lia..|]. left. lia.
  - apply Forall_replicate. done.
  - intros t t' c c' p Hc. apply lookup_replicate in Hc as [-> _]. done.
  - rewrite app_nil_r. induction threads; done.
Qed.
End Invariant.

(** No access of a thread is outside the buffer. *)
Lemma thread_step_some {T} n k (y : system T) sp c :
  n = 2 ^ Z.of_nat k -> 2 <= n -> mpmc_inv n y -> at_rest c = false -> is_Some (thread_step sp c (sy_queue y)).
Proof.
  intros Hn Hn2 Hy Hr.
  assert (Hc : forall pos, is_Some (cell_at (sy_queue y) pos)) by (intros; by eapply cell_at_some; [..|apply Hy|apply Hy]).
  unfold thread_step. destruct c as [|v|v pos|v pos|v pos|v pos| | |pos|pos|pos|pos v|]; try done; cbn; eauto;
    try (destruct (Hc pos) as [cl ->]; cbn; eauto).
  - destruct (cas_enqueue sp (sy_queue y) pos). eauto.
  - destruct (cas_dequeue sp (sy_queue y) pos). eauto.
Qed.

(** Every position below the dequeue counter was delivered, when nobody is in the middle of a call. *)
Lemma rest_owns_nothing {T} (cs : list (pc T)) : Forall (fun c => at_rest c = true) cs -> concat (deq_owns <$> cs) = [].
Proof. induction 1 as [|c cs Hc _ IH]; [done|]. cbn. rewrite IH. by destruct c. Qed.

Lemma acc_at_seqZ {T} (acc : list T) D : 0 <= D <= zlen acc ->
  acc_at acc <$> seqZ 0 D = Some <$> take (Z.to_nat D) acc.
Proof.
  intros HD. apply list_eq. intros i. rewrite !list_lookup_fmap.
  destruct (decide (i < Z.to_nat D)%nat) as [Hi|Hi].
  - rewrite lookup_seqZ_lt by lia. rewrite lookup_take_lt by lia. cbn. unfold acc_at, zget.
    destruct (Z.ltb_spec (0 + Z.of_nat i) 0); [lia|]. replace (Z.to_nat (0 + Z.of_nat i)) with i by lia.
    destruct (lookup_lt_is_Some_2 acc i ltac:(lia)) as [x ->]. done.
  - rewrite lookup_seqZ_ge by lia. rewrite lookup_take_ge by lia. done.
Qed.

Lemma size_bounds (k : nat) : (1 <= k <= 62)%nat -> 2 <= 2 ^ Z.of_nat k /\ 2 ^ Z.of_nat k <= 2 ^ 62.
Proof. intros Hk. split; [change 2 with (2 ^ 1) at 1|]; apply Z.pow_le_mono_r; lia. Qed.

(** The invariant of every reachable state. *)
Lemma mpmc_reachable {T} (k : nat) (q : mpmc_bounded_queue T) (threads : nat) (y : system T) :
  (1 <= k <= 62)%nat -> mpmc_new true (2 ^ Z.of_nat k) = Ok q -> rtc mpmc_step (mpmc_start q threads) y ->
  zlen (sy_accepted y) < 2 ^ 62 -> mpmc_inv (2 ^ Z.of_nat k) y.
Proof.
  intros Hk Hq Hr. pose proof (size_bounds k Hk) as [Hn2 Hn62].
  refine (rtc_invariant mpmc_step (fun y => zlen (sy_accepted y) < 2 ^ 62 -> mpmc_inv (2 ^ Z.of_nat k) y) _ y _ _ Hr).
  - intros a b Ha Hs Hbb. by eapply (mpmc_step_inv _ k eq_refl Hn2 Hn62 a b Hs).
  - intros _. by apply (mpmc_start_inv _ k).
Qed.

(** When nobody is in the middle of a call, the oldest accepted values were delivered. *)
Lemma rest_delivered {T} n (y : system T) : mpmc_inv n y -> Forall (fun c => at_rest c = true) (sy_threads y) ->
  (sy_delivered y).*2 ≡ₚ Some <$> take (Z.to_nat (dequeue_pos_ (sy_queue y))) (sy_accepted y).
Proof.
  intros Hy Hrest. pose proof (inv_order n y Hy). pose proof (inv_accepted n y Hy). pose proof (inv_claimed n y Hy) as Hcl.
  rewrite rest_owns_nothing in Hcl by done. cbn in Hcl. rewrite <- acc_at_seqZ by lia.
  rewrite <- Hcl, <- list_fmap_compose. apply reflexive_eq, list_fmap_ext. intros i d Hd. cbn.
  apply (proj1 (Forall_forall _ _) (inv_delivered n y Hy)). by eapply list_elem_of_lookup_2.
Qed.

(** What was delivered is what was accepted there, once per position. *)
Lemma delivered_values {T} n (y : system T) : mpmc_inv n y ->
  (forall pos v, (pos, v) ∈ sy_delivered y -> exists x, v = Some x /\ zget (sy_accepted y) pos = Some x) /\
  NoDup (sy_delivered y).*1.
Proof.
  intros Hy. split.
  - intros pos v Hin. pose proof (proj1 (Forall_forall _ _) (inv_delivered n y Hy) _ Hin) as Hdel. cbn in Hdel. subst v.
    pose proof (delivered_below n y _ Hy Hin) as Hpos. cbn in Hpos. pose proof (inv_order n y Hy). pose proof (inv_accepted n y Hy).
    destruct (proj2 (zget_some_iff (sy_accepted y) pos)) as [x Hx]; [lia|]. by exists x.
  - pose proof (NoDup_seqZ 0 (dequeue_pos_ (sy_queue y))) as Hnd. rewrite <- (inv_claimed n y Hy) in Hnd. by apply NoDup_app in Hnd as (_&_&?).
Qed.

(** C16. The bounded queue of libs/mpmc_queue.hpp under every interleaving of the accesses of any
    number of threads, spurious failures of the weak compare-and-swap included (for fewer than 2^62
    accepted values): no access is outside the buffer; every dequeue that returned delivered the
    value accepted at its position and no two delivered the same position; the queue never holds
    more than its size; and when all calls have returned the delivered values are, up to the order
    of return, exactly the oldest accepted ones. *)
Theorem mpmc_concurrent {T} (k : nat) (q : mpmc_bounded_queue T) (threads : nat) (y : system T) :
  (1 <= k <= 62)%nat -> mpmc_new true (2 ^ Z.of_nat k) = Ok q ->
  rtc mpmc_step (mpmc_start q threads) y -> zlen (sy_accepted y) < 2 ^ 62 ->
  let E := enqueue_pos_ (sy_queue y) in let D := dequeue_pos_ (sy_queue y) in
  (forall t c sp, sy_threads y !! t = Some c -> at_rest c = false -> is_Some (thread_step sp c (sy_queue y))) /\
  (forall pos v, (pos, v) ∈ sy_delivered y -> exists x, v = Some x /\ zget (sy_accepted y) pos = Some x) /\
  NoDup (sy_delivered y).*1 /\
  (zlen (sy_accepted y) = E /\ 0 <= E - D <= 2 ^ Z.of_nat k) /\
  (Forall (fun c => at_rest c = true) (sy_threads y) ->
   (sy_delivered y).*2 ≡ₚ Some <$> take (Z.to_nat D) (sy_accepted y)).
Proof.
  intros Hk Hq Hr Hb E D. pose proof (mpmc_reachable k q threads y Hk Hq Hr Hb) as Hy.
  pose proof (size_bounds k Hk) as [Hn2 _]. set (n := 2 ^ Z.of_nat k) in *.
  pose proof (inv_order n y Hy) as Ho. pose proof (inv_accepted n y Hy) as Ha.
  split_and!; [intros; by eapply (thread_step_some n k)|by apply (delivered_values n y)..|done|lia|lia|by apply (rest_delivered n)].
Qed.

(** Two threads on a queue of two cells: both load the enqueue counter, the second loses the
    compare-and-swap and enqueues behind the first; then the first thread dequeues. *)
Definition two_cells : mpmc_bounded_queue nat :=
  mk_mpmc [mk_cell 0 None; mk_cell 1 None] 1 0 0.

Definition moves : list (nat * option (pc nat)) :=
  [(0, Some (EnqLoad 7)); (1, Some (EnqLoad 8)); (0, None); (1, None); (0, None); (1, None); (0, None); (1, None);
   (1, None); (0, None); (0, None); (1, None); (1, None); (1, None); (0, Some DeqLoad); (0, None); (0, None);
   (0, None); (0, None); (0, None)]%nat.

(** Runs a schedule: a thread makes its next access, or starts a call. *)
Fixpoint schedule (l : list (nat * option (pc nat))) (y : system nat) : option (system nat) :=
  match l with
  | [] => Some y
  | (t, o) :: l' =>
      c ← sy_threads y !! t;
      match o with
      | Some c' =>
          if at_rest c && match c' with DeqLoad | EnqLoad _ => true | _ => false end
          then schedule l' (mk_system (sy_queue y) (<[t := c']> (sy_threads y)) (sy_accepted y) (sy_delivered y))
          else None
      | None =>
          r ← thread_step false c (sy_queue y);
          schedule l' (mk_system r.2 (<[t := r.1]> (sy_threads y)) (log_accepted c r.1 (sy_accepted y))
                         (log_delivered c (sy_delivered y)))
      end
  end.

Lemma schedule_steps l y y' : schedule l y = Some y' -> rtc mpmc_step y y'.
Proof.
  revert y. induction l as [|[t o] l IH]; intros y; cbn; [by intros [= ->]|].
  destruct (sy_threads y !! t) as [c|] eqn:Ht; cbn; [|done]. destruct o as [c'|].
  - destruct (at_rest c) eqn:Hr; cbn; [|done]. intros Hs. eapply rtc_l; [|apply IH].
    + eapply (step_call y t c c'); [done..|]. destruct c'; eauto; done.
    + by destruct c'.
  - destruct (thread_step false c (sy_queue y)) as [[c' q']|] eqn:Hs; cbn; [|done]. intros Hl.
    eapply rtc_l; [by eapply step_access|]. by apply IH.
Qed.

Definition two_end : system nat := default (mpmc_start two_cells 2) (schedule moves (mpmc_start two_cells 2)).

Lemma mpmc_concurrent_witness :
  sy_delivered two_end = [(0, Some 7%nat)] /\ sy_accepted two_end = [7; 8]%nat /\
  (sy_delivered two_end).*2 ≡ₚ Some <$> take (Z.to_nat (dequeue_pos_ (sy_queue two_end))) (sy_accepted two_end).
Proof.
  split_and!; [vm_compute; reflexivity..|].
  refine (proj2 (proj2 (proj2 (proj2 (mpmc_concurrent 1 two_cells 2 two_end _ _ _ _)))) _).
  - lia.
  - vm_compute. reflexivity.
  - apply (schedule_steps moves). vm_compute. reflexivity.
  - vm_compute. reflexivity.
  - vm_compute. repeat constructor.
Defined.
