(* ===== verification/MpmcWeak.v ===== *)
(** * The bounded queue under release and acquire

    The operations of libs/mpmc_queue.hpp on the memory of RelAcq.v, cut at every access, for any
    number of threads: the counters are accessed relaxed, the sequence numbers loaded with acquire
    and stored with release, the data of the cells is plain memory.  A thread may read old counters
    and old sequence numbers.  The newest values of the memory form a queue of MpmcQueue.v: accesses
    that change something are steps of it, loads change only what a thread knows. *)

From S2P Require Import Prelude MpmcQueue RelAcq.

Inductive mpmc_loc := EnqueuePos | DequeuePos | Sequence (i : Z) | CellData (i : Z).

#[export] Instance mpmc_loc_eq_dec : EqDecision mpmc_loc.
Proof. solve_decision. Defined.

(** The orderings: loads of the counters, the compare-and-exchange, load and store of a sequence
    number. *)
Record mpmc_orders := mk_mpmc_orders { pos_load : order; pos_claim : order; seq_load : order; seq_store : order }.
Definition mpmc_source_orders : mpmc_orders := mk_mpmc_orders Relaxed Relaxed Acquire Release.

Section Weak.
Context {T : Type} (ord : mpmc_orders) (mask : Z).

Inductive mpmc_val := VSize (x : Z) | VData (o : option T).

Local Abbreviation mem := (memory mpmc_loc mpmc_val).
Local Abbreviation qview := (view mpmc_loc).

(** Where a thread is in its call; [MRace]: its access was not ordered with an earlier one. *)
Inductive mw_pc := MAt (c : pc T) | MRace.

Definition load_size (o : order) (l : mpmc_loc) (ts : nat) (m : mem) (w : qview) : option (Z * qview) :=
  match load_at o l ts m w with Some (VSize x, w') => Some (x, w') | _ => None end.

(** A [compare_exchange_weak] of the counter [l]: the memory after it when it succeeds, the value it
    read otherwise. *)
Definition claim (l : mpmc_loc) (pos : Z) (ts : nat) (spurious : bool) (m : mem) (w : qview) : option (option Z * mem * qview) :=
  match exchange (pos_claim ord) l (VSize (u64 (pos + 1))) m w with
  | Some (VSize x, m', w') =>
      if (x =? pos) && negb spurious then Some (None, m', w')
      else '(x', w') ← load_size (pos_load ord) l ts m w; Some (Some x', m, w')
  | _ => None
  end.

(** One access of [enqueue]; a load, and an exchange that fails, read the write number [ts]. *)
Definition mw_enqueue (ts : nat) (spurious : bool) (c : pc T) (m : mem) (w : qview) : option (mw_pc * mem * qview) :=
  match c with
  | EnqLoad v => '(pos, w') ← load_size (pos_load ord) EnqueuePos ts m w; Some (MAt (EnqSeq v pos), m, w')
  | EnqSeq v pos =>
      '(seq, w') ← load_size (seq_load ord) (Sequence (Z.land pos mask)) ts m w;
      let dif := i64 seq - i64 pos in
      Some (MAt (if dif =? 0 then EnqCas v pos else if dif <? 0 then EnqDone false else EnqLoad v), m, w')
  | EnqCas v pos =>
      '(r, m', w') ← claim EnqueuePos pos ts spurious m w;
      Some (MAt (match r with None => EnqWrite v pos | Some pos' => EnqSeq v pos' end), m', w')
  | EnqWrite v pos =>
      match plain_write (CellData (Z.land pos mask)) (VData (Some v)) m w with
      | Some (m', w') => Some (MAt (EnqStore v pos), m', w')
      | None => Some (MRace, m, w)
      end
  | EnqStore v pos =>
      match store (seq_store ord) (Sequence (Z.land pos mask)) (VSize (u64 (pos + 1))) m w with
      | Some (m', w') => Some (MAt (EnqDone true), m', w')
      | None => Some (MRace, m, w)
      end
  | _ => None
  end.

(** One access of [dequeue]. *)
Definition mw_dequeue (ts : nat) (spurious : bool) (c : pc T) (m : mem) (w : qview) : option (mw_pc * mem * qview) :=
  match c with
  | DeqLoad => '(pos, w') ← load_size (pos_load ord) DequeuePos ts m w; Some (MAt (DeqSeq pos), m, w')
  | DeqSeq pos =>
      '(seq, w') ← load_size (seq_load ord) (Sequence (Z.land pos mask)) ts m w;
      let dif := i64 seq - i64 (u64 (pos + 1)) in
      Some (MAt (if dif =? 0 then DeqCas pos else if dif <? 0 then DeqDone None else DeqLoad), m, w')
  | DeqCas pos =>
      '(r, m', w') ← claim DequeuePos pos ts spurious m w;
      Some (MAt (match r with None => DeqRead pos | Some pos' => DeqSeq pos' end), m', w')
  | DeqRead pos =>
      match plain_read (CellData (Z.land pos mask)) m w with
      | Some (VData d, m', w') => Some (MAt (DeqStore pos d), m', w')
      | Some (VSize _, _, _) => None
      | None => Some (MRace, m, w)
      end
  | DeqStore pos v =>
      match store (seq_store ord) (Sequence (Z.land pos mask)) (VSize (u64 (pos + mask + 1))) m w with
      | Some (m', w') => Some (MAt (DeqDone (Some v)), m', w')
      | None => Some (MRace, m, w)
      end
  | _ => None
  end.

Definition mw_access (ts : nat) (spurious : bool) (c : pc T) (m : mem) (w : qview) : option (mw_pc * mem * qview) :=
  match mw_enqueue ts spurious c m w with Some r => Some r | None => mw_dequeue ts spurious c m w end.

(** Memory, the threads with their views, and the logs of MpmcQueue.v. *)
Record mw_sys := mk_mw_sys {
  mw_mem : mem;
  mw_threads : list (mw_pc * qview);
  mw_accepted : list T;
  mw_delivered : list (Z * option T)
}.

Definition plain_pc (c : mw_pc) : pc T := match c with MAt c => c | MRace => Idle end.

Inductive mw_step (y : mw_sys) : mw_sys -> Prop :=
| mw_call t c c' w : mw_threads y !! t = Some (MAt c, w) -> at_rest c = true -> (c' = DeqLoad \/ exists v, c' = EnqLoad v) ->
    mw_step y (mk_mw_sys (mw_mem y) (<[t := (MAt c', w)]> (mw_threads y)) (mw_accepted y) (mw_delivered y))
| mw_go t c w ts spurious c' m' w' : mw_threads y !! t = Some (MAt c, w) ->
    mw_access ts spurious c (mw_mem y) w = Some (c', m', w') ->
    mw_step y (mk_mw_sys m' (<[t := (c', w')]> (mw_threads y)) (log_accepted c (plain_pc c') (mw_accepted y))
                 (match c' with MAt _ => log_delivered c (mw_delivered y) | MRace => mw_delivered y end)).

(** The memory of a queue the constructor made. *)
Definition mw_memory (q : mpmc_bounded_queue T) : mem := fun l =>
  match l with
  | EnqueuePos => [mk_message (VSize (enqueue_pos_ q)) vbot]
  | DequeuePos => [mk_message (VSize (dequeue_pos_ q)) vbot]
  | Sequence i => match zget (buffer_ q) i with Some c => [mk_message (VSize (sequence_ c)) vbot] | None => [] end
  | CellData i => match zget (buffer_ q) i with Some c => [mk_message (VData (data_ c)) vbot] | None => [] end
  end.

Definition mw_start (q : mpmc_bounded_queue T) (threads : nat) : mw_sys :=
  mk_mw_sys (mw_memory q) (replicate threads (MAt Idle, vbot)) [] [].
End Weak.
Arguments mpmc_val : clear implicits. Arguments mw_pc : clear implicits. Arguments mw_sys : clear implicits.

(** ** The queue of the newest values *)

Section Invariant.
Context {T : Type} (n : Z) (k : nat) (Hn : n = 2 ^ Z.of_nat k) (Hn2 : 2 <= n) (Hn62 : n <= 2 ^ 62).
Local Abbreviation mem := (memory mpmc_loc (mpmc_val T)).
Local Abbreviation qview := (view mpmc_loc).

Definition size_of (v : mpmc_val T) : Z := match v with VSize x => x | VData _ => 0 end.
Definition data_of (v : mpmc_val T) : option T := match v with VSize _ => None | VData d => d end.

Definition size_now (m : mem) (l : mpmc_loc) : Z := from_option (fun msg => size_of (m_val msg)) 0 (last (m l)).
Definition data_now (m : mem) (l : mpmc_loc) : option T := from_option (fun msg => data_of (m_val msg)) None (last (m l)).

Definition now_cell (m : mem) (i : Z) : cell_t T := mk_cell (size_now m (Sequence i)) (data_now m (CellData i)).

Definition now_queue (m : mem) : mpmc_bounded_queue T :=
  mk_mpmc (now_cell m <$> seqZ 0 n) (n - 1) (size_now m EnqueuePos) (size_now m DequeuePos).

Definition now_sys (y : mw_sys T) : system T :=
  mk_system (now_queue (mw_mem y)) ((fun th => plain_pc th.1) <$> mw_threads y) (mw_accepted y) (mw_delivered y).

Lemma size_now_append l x r m : size_now (append l (VSize x) r m) l = x.
Proof using. clear. unfold size_now. by rewrite append_at, last_snoc. Qed.
Lemma data_now_append l d r m : data_now (append l (VData d) r m) l = d.
Proof using. clear. unfold data_now. by rewrite append_at, last_snoc. Qed.
Lemma size_now_ne l l' v r m : l' <> l -> size_now (append l v r m) l' = size_now m l'.
Proof using. clear. intros Hl. unfold size_now. by rewrite append_ne. Qed.
Lemma data_now_ne l l' v r m : l' <> l -> data_now (append l v r m) l' = data_now m l'.
Proof using. clear. intros Hl. unfold data_now. by rewrite append_ne. Qed.

Definition idx (pos : Z) : Z := Z.land pos (n - 1).

Lemma idx_mod pos : idx pos = pos mod n.
Proof using Hn T. apply (cell_index_mod n k Hn (now_queue (fun _ => [])) pos eq_refl). Qed.

Lemma idx_range pos : 0 <= idx pos < n.
Proof using Hn Hn2 T. rewrite idx_mod. apply Z.mod_pos_bound. lia. Qed.

Lemma now_cell_at m pos : cell_at (now_queue m) pos = Some (now_cell m (idx pos)).
Proof using Hn Hn2 T.
  unfold cell_at, cell_index. cbn. fold (idx pos). pose proof (idx_range pos). unfold zget. destruct (Z.ltb_spec (idx pos) 0); [lia|].
  rewrite list_lookup_fmap, lookup_seqZ_lt by lia. cbn. do 2 f_equal. lia.
Qed.

(** A write to one location is the change of one cell. *)
Lemma now_queue_cell m m' pos cl : now_cell m' (idx pos) = cl -> (forall i, i <> idx pos -> now_cell m' i = now_cell m i) ->
  size_now m' EnqueuePos = size_now m EnqueuePos -> size_now m' DequeuePos = size_now m DequeuePos ->
  now_queue m' = set_cell (now_queue m) pos cl.
Proof using Hn Hn2 T.
  intros Hcl Hother HE HD. unfold now_queue, set_cell. cbn. fold (idx pos). rewrite HE, HD. f_equal. unfold cell_index. cbn. fold (idx pos).
  pose proof (idx_range pos) as Hi. unfold zset. destruct (Z.ltb_spec (idx pos) 0); [lia|].
  apply list_eq. intros j. destruct (decide (j < Z.to_nat n)%nat) as [Hj|Hj].
  - destruct (decide (j = Z.to_nat (idx pos))) as [->|Hne].
    + rewrite list_lookup_insert_eq by (rewrite length_fmap, length_seqZ; lia). rewrite list_lookup_fmap, lookup_seqZ_lt by lia. cbn.
      f_equal. rewrite <- Hcl. f_equal. lia.
    + rewrite list_lookup_insert_ne by done. rewrite !list_lookup_fmap, lookup_seqZ_lt by lia. cbn. f_equal. apply Hother. lia.
  - rewrite !lookup_ge_None_2; [done|rewrite length_insert, length_fmap, length_seqZ; lia|rewrite length_fmap, length_seqZ; lia].
Qed.

(** ** The invariant *)

(** The location holds only sizes, or only data. *)
Definition sizes (m : mem) (l : mpmc_loc) : Prop := m l <> [] /\ Forall (fun msg => exists x, m_val msg = VSize x) (m l).
Definition datas (m : mem) (l : mpmc_loc) : Prop := m l <> [] /\ Forall (fun msg => exists d, m_val msg = VData d) (m l).

(** A counter was never more than it is. *)
Definition counts (m : mem) (l : mpmc_loc) : Prop :=
  sizes m l /\ Forall (fun msg => 0 <= size_of (m_val msg) <= size_now m l) (m l).

(** A sequence number grows with every write. *)
Definition grows (m : mem) (l : mpmc_loc) : Prop :=
  sizes m l /\ Forall (fun msg => 0 <= size_of (m_val msg)) (m l) /\
  forall t t' a b, m l !! t = Some a -> m l !! t' = Some b -> (t < t')%nat -> size_of (m_val a) < size_of (m_val b).

(** The cell position a thread has claimed. *)
Definition owns (c : pc T) : option Z :=
  match c with EnqWrite _ pos | EnqStore _ pos | DeqRead pos | DeqStore pos _ => Some pos | _ => None end.

Definition saw_turn (m : mem) (w : qview) (pos s : Z) : Prop :=
  exists t msg, m (Sequence (idx pos)) !! t = Some msg /\ m_val msg = VSize s /\ (t <= w (Sequence (idx pos)))%nat /\
    (m_rel msg (CellData (idx pos)) <= w (CellData (idx pos)))%nat.

Definition has_cell (m : mem) (w : qview) (pos : Z) : Prop :=
  w (Sequence (idx pos)) = newest m (Sequence (idx pos)) /\ w (CellData (idx pos)) = newest m (CellData (idx pos)).

(** What a thread's view has. *)
Definition view_knows (m : mem) (c : pc T) (w : qview) : Prop :=
  match c with
  | EnqCas _ pos => saw_turn m w pos pos
  | DeqCas pos => saw_turn m w pos (pos + 1)
  | EnqWrite _ pos | EnqStore _ pos | DeqRead pos | DeqStore pos _ => has_cell m w pos
  | _ => True
  end.

Definition thread_knows (m : mem) (th : mw_pc T * qview) : Prop :=
  view_ok m th.2 /\ exists c, th.1 = MAt c /\ view_knows m c th.2.

(** The newest sequence number of a cell nobody has claimed carries every access to its data. *)
Definition cell_handed (m : mem) (i : Z) : Prop :=
  exists msg, last (m (Sequence i)) = Some msg /\ m_rel msg (CellData i) = newest m (CellData i).

Definition cell_free (ths : list (mw_pc T * qview)) (i : Z) : Prop :=
  forall t c w p, ths !! t = Some (MAt c, w) -> owns c = Some p -> idx p <> i.

Record mw_inv (y : mw_sys T) : Prop := {
  mi_mem : mem_ok (mw_mem y);
  mi_queue : mpmc_inv n (now_sys y);
  mi_enq : counts (mw_mem y) EnqueuePos;
  mi_deq : counts (mw_mem y) DequeuePos;
  mi_seq i : 0 <= i < n -> grows (mw_mem y) (Sequence i) /\ datas (mw_mem y) (CellData i);
  mi_threads : Forall (thread_knows (mw_mem y)) (mw_threads y);
  mi_cells i : 0 <= i < n -> cell_free (mw_threads y) i -> cell_handed (mw_mem y) i
}.

(** *** Histories *)

Lemma last_size m l : sizes m l -> exists msg, last (m l) = Some msg /\ m_val msg = VSize (size_now m l).
Proof using.
  clear. intros [Hl Hf]. destruct (last_newest m l Hl) as (msg&Hlast&Ht). exists msg. split; [done|].
  destruct (Forall_lookup_1 _ _ _ _ Hf Ht) as [x Hx]. unfold size_now. rewrite Hlast. cbn. by rewrite Hx.
Qed.

Lemma grows_newest m l t msg : grows m l -> m l !! t = Some msg ->
  0 <= size_of (m_val msg) <= size_now m l /\ (size_of (m_val msg) = size_now m l -> t = newest m l).
Proof using.
  clear. intros (Hs&Hp&Hg) Ht. pose proof (Forall_lookup_1 _ _ _ _ Hp Ht) as H0. destruct (last_size m l Hs) as (msg'&Hlast&Hv).
  pose proof (last_lookup_newest _ _ _ Hlast) as Hn. assert (t <= newest m l)%nat by (apply lookup_lt_Some in Ht; unfold newest; lia).
  destruct (decide (t = newest m l)) as [->|Hne].
  - assert (msg' = msg) as -> by congruence. cbn in H0. rewrite Hv in H0 |- *. cbn in *. split; [lia|done].
  - pose proof (Hg t (newest m l) msg msg' Ht Hn ltac:(lia)) as Hlt. rewrite Hv in Hlt. cbn in Hlt, H0. lia.
Qed.

Lemma counts_at m l t msg : counts m l -> m l !! t = Some msg -> 0 <= size_of (m_val msg) <= size_now m l.
Proof using. clear. intros [_ Hf] Ht. by apply (Forall_lookup_1 _ _ _ _ Hf Ht). Qed.

Lemma load_size_inv o l ts (m : mem) (w : qview) x w' : load_size o l ts m w = Some (x, w') ->
  exists msg, m l !! ts = Some msg /\ m_val msg = VSize x /\ w' = read_view o l ts msg w /\ load_at o l ts m w = Some (VSize x, w').
Proof using.
  clear. unfold load_size. destruct (load_at o l ts m w) as [[[y|d] w1]|] eqn:E; [|done..]. intros [= -> ->].
  destruct (load_at_inv _ _ _ _ _ _ _ E) as (msg&Ht&_&Hv&->). by exists msg.
Qed.

(** Growing a history. *)
Lemma sizes_append m l x r : sizes m l -> sizes (append l (VSize x) r m) l.
Proof using. clear. intros [? ?]. split; rewrite append_at; [by destruct (m l)|]. apply Forall_app. split; [done|]. repeat constructor. by exists x. Qed.

Lemma counts_append m l x r : counts m l -> size_now m l <= x -> counts (append l (VSize x) r m) l.
Proof using.
  clear. intros [Hs Hf] Hx. split; [by apply sizes_append|]. rewrite size_now_append, append_at. apply Forall_app. split.
  - eapply Forall_impl; [exact Hf|]. cbn. lia.
  - repeat constructor; cbn; [|lia]. destruct (last_size m l Hs) as (msg&Hl&Hv). apply last_lookup_newest in Hl.
    pose proof (Forall_lookup_1 _ _ _ _ Hf Hl) as H. cbn in H. lia.
Qed.

Lemma grows_append m l x r : grows m l -> size_now m l < x -> grows (append l (VSize x) r m) l.
Proof using.
  clear. intros Hg Hx. pose proof Hg as (Hs&Hp&Hlt). destruct (last_size m l Hs) as (msg0&Hl0&_). apply last_lookup_newest in Hl0.
  destruct (grows_newest m l _ _ Hg Hl0) as [H0 _]. split_and!; [by apply sizes_append| |].
  - rewrite append_at. apply Forall_app. split; [done|]. repeat constructor. cbn. lia.
  - intros t t' a b Ha Hb Htt. rewrite append_at in Ha, Hb. apply lookup_app_Some in Hb as [Hb|[Hge Hb]].
    + apply lookup_app_Some in Ha as [Ha|[Hge _]]; [by eapply Hlt|]. apply lookup_lt_Some in Hb. lia.
    + apply list_lookup_singleton_Some in Hb as [Hb <-]. rewrite lookup_app_l in Ha by lia. destruct (grows_newest m l t a Hg Ha) as [? _].
      cbn. lia.
Qed.

Lemma datas_append m l d r : datas m l -> datas (append l (VData d) r m) l.
Proof using. clear. intros [? ?]. split; rewrite append_at; [by destruct (m l)|]. apply Forall_app. split; [done|]. repeat constructor. by exists d. Qed.

Lemma counts_ne m l l' v r : l' <> l -> counts m l' -> counts (append l v r m) l'.
Proof using. clear. intros Hl. unfold counts, sizes. by rewrite size_now_ne, append_ne. Qed.
Lemma grows_ne m l l' v r : l' <> l -> grows m l' -> grows (append l v r m) l'.
Proof using. clear. intros Hl. unfold grows, sizes. by rewrite append_ne. Qed.
Lemma datas_ne m l l' v r : l' <> l -> datas m l' -> datas (append l v r m) l'.
Proof using. clear. intros Hl. unfold datas. by rewrite append_ne. Qed.

(** *** Threads *)

Lemma now_thread y t c w : mw_threads y !! t = Some (MAt c, w) -> sy_threads (now_sys y) !! t = Some c.
Proof using. clear. intros Ht. cbn. by rewrite list_lookup_fmap, Ht. Qed.

Lemma now_sys_insert y m t c w acc del : now_sys (mk_mw_sys m (<[t := (MAt c, w)]> (mw_threads y)) acc del) =
  mk_system (now_queue m) (<[t := c]> (sy_threads (now_sys y))) acc del.
Proof using. clear. unfold now_sys. cbn. by rewrite list_fmap_insert. Qed.

Lemma thread_view y t c w : mw_inv y -> mw_threads y !! t = Some (MAt c, w) -> view_ok (mw_mem y) w /\ view_knows (mw_mem y) c w.
Proof using.
  clear. intros Hy Ht. destruct (Forall_lookup_1 _ _ _ _ (mi_threads y Hy) Ht) as (Hv&c1&[= <-]&Hk). done.
Qed.

Lemma thread_now y t c w : mw_inv y -> mw_threads y !! t = Some (MAt c, w) -> thread_ok (mw_accepted y) (now_queue (mw_mem y)) c.
Proof using. clear. intros Hy Ht. by apply (thread_inv n (now_sys y) t c (mi_queue y Hy)), (now_thread _ _ _ w). Qed.

Lemma owns_knows (q : mpmc_bounded_queue T) c p : owns c = Some p ->
  exists s, knows q c = Some (p, s) /\ (enq_owns c = Some p /\ s = p \/ deq_owns c = [p] /\ s = p + 1).
Proof using. clear. destruct c; cbn; intros [= ->]; eauto. Qed.

(** Who has claimed a position is the only one to rely on its cell. *)
Lemma owner_apart y t t1 c c1 w w1 p p1 s1 : mw_inv y -> mw_threads y !! t = Some (MAt c, w) -> mw_threads y !! t1 = Some (MAt c1, w1) ->
  t1 <> t -> owns c = Some p -> knows (now_queue (mw_mem y)) c1 = Some (p1, s1) -> idx p1 <> idx p.
Proof using Hn Hn2.
  intros Hy Ht Ht1 Hne Ho Ho1. destruct (owns_knows (now_queue (mw_mem y)) c p Ho) as (s&Hk&Hd). rewrite !idx_mod.
  exact (knows_apart n k Hn Hn2 (now_sys y) t t1 c c1 p s p1 s1 (mi_queue y Hy) (now_thread _ _ _ _ Ht) (now_thread _ _ _ _ Ht1) Hne Hd Hk Ho1).
Qed.

(** *** The moves of a thread *)

Definition same_cell (m m' : mem) (i : Z) : Prop := m' (Sequence i) = m (Sequence i) /\ m' (CellData i) = m (CellData i).

Lemma saw_turn_mono m m' w w' pos s : extends m m' -> vle w w' -> saw_turn m w pos s -> saw_turn m' w' pos s.
Proof using.
  clear. intros He Hw (t&msg&Ht&Hv&H1&H2). exists t, msg. split_and!; [by eapply prefix_lookup_Some; [|apply He]|done|..].
  - specialize (Hw (Sequence (idx pos))). lia.
  - specialize (Hw (CellData (idx pos))). lia.
Qed.

Lemma has_cell_up m m' w w' pos : same_cell m m' (idx pos) -> vle w w' -> view_ok m' w' -> has_cell m w pos -> has_cell m' w' pos.
Proof using.
  clear. intros [Hs Hd] Hw Hv [H1 H2]. unfold has_cell, newest in *. pose proof (Hw (Sequence (idx pos))). pose proof (Hw (CellData (idx pos))).
  pose proof (Hv (Sequence (idx pos))). pose proof (Hv (CellData (idx pos))). unfold newest in *. rewrite Hs, Hd in *. lia.
Qed.

Lemma owns_view m c w p : owns c = Some p -> view_knows m c w <-> has_cell m w p.
Proof using. clear. by destruct c; intros [= ->]. Qed.

Lemma view_frame m m' c w : extends m m' -> view_ok m' w -> (forall p, owns c = Some p -> same_cell m m' (idx p)) ->
  view_knows m c w -> view_knows m' c w.
Proof using.
  clear. intros He Hv Hs Hk. destruct (owns c) as [p|] eqn:Ho.
  - rewrite owns_view in * by done. eapply has_cell_up; [by apply Hs|done..].
  - destruct c; try done; cbn in *; by eapply saw_turn_mono.
Qed.

(** A thread changes only the cell it has claimed, and hands it on when it gives it up. *)
Lemma mw_move y t c w c' m' w' acc del :
  mw_inv y -> mw_threads y !! t = Some (MAt c, w) ->
  let y' := mk_mw_sys m' (<[t := (MAt c', w')]> (mw_threads y)) acc del in
  access_ok (mw_mem y) m' w w' -> mpmc_inv n (now_sys y') -> counts m' EnqueuePos -> counts m' DequeuePos ->
  (forall i, 0 <= i < n -> grows m' (Sequence i) /\ datas m' (CellData i)) ->
  (forall i, (forall p, owns c = Some p -> idx p <> i) -> same_cell (mw_mem y) m' i) ->
  view_knows m' c' w' -> (forall p, owns c = Some p -> owns c' = Some p \/ cell_handed m' (idx p)) -> mw_inv y'.
Proof using Hn Hn2.
  intros Hy Ht y' (Hm&Hw&He&Hle) Hq HE HD Hs Hsame Hk Hgive. split; [done..| |].
  - apply Forall_lookup. intros t1 th1 Ht1. apply list_lookup_insert_Some in Ht1 as [(<-&<-&_)|(Hne&Ht1)]; [split; [done|by exists c']|].
    destruct (Forall_lookup_1 _ _ _ _ (mi_threads y Hy) Ht1) as (Hv1&c1&E1&Hk1). destruct th1 as [pc1 w1]. cbn in E1, Hv1, Hk1. subst pc1.
    assert (Hv1' : view_ok m' w1) by (by eapply view_ok_mono). split; [done|]. exists c1. split; [done|].
    eapply view_frame; [done..| |done]. intros p1 Ho1. apply Hsame. intros p Ho.
    destruct (owns_knows (now_queue (mw_mem y)) c1 p1 Ho1) as (s1&Hk1'&_). intros Hi. by eapply (owner_apart y t t1 c c1).
  - intros i Hi Hfree. cbn in Hfree |- *. assert (Hold : (forall p, owns c = Some p -> idx p <> i) -> cell_handed m' i).
    { intros Hno. destruct (Hsame i Hno) as [E1 E2]. destruct (mi_cells y Hy i Hi) as (msg&Hl&Hr).
      - intros t1 c1 w1 p1 Ht1 Ho1. destruct (decide (t1 = t)) as [->|Ht1']; [simplify_eq; by apply Hno|].
        apply (Hfree t1 c1 w1 p1); [|done]. by rewrite list_lookup_insert_ne.
      - exists msg. unfold newest. by rewrite E1, E2. }
    destruct (owns c) as [p|] eqn:Ho; [|by apply Hold]. destruct (decide (idx p = i)) as [<-|Hne]; [|apply Hold; by intros ? [= <-]].
    destruct (Hgive p eq_refl) as [Ho'|]; [|done]. exfalso. apply (Hfree t c' w' p); [|done|done].
    by rewrite list_lookup_insert_eq by (by eapply lookup_lt_Some).
Qed.

(** A thread that has claimed nothing moves without a write. *)
Lemma mw_local y t c w c' w' :
  mw_inv y -> mw_threads y !! t = Some (MAt c, w) -> owns c = None -> owns c' = None ->
  view_ok (mw_mem y) w' -> vle w w' -> thread_ok (mw_accepted y) (now_queue (mw_mem y)) c' -> view_knows (mw_mem y) c' w' ->
  mw_inv (mk_mw_sys (mw_mem y) (<[t := (MAt c', w')]> (mw_threads y)) (mw_accepted y) (mw_delivered y)).
Proof using Hn Hn2.
  intros Hy Ht Ho Ho' Hv Hle Hok Hk. eapply mw_move; [done|done| | |apply Hy|apply Hy|apply Hy|done|done|by rewrite Ho].
  - split_and!; [apply Hy|done|done|done].
  - rewrite now_sys_insert. apply (inv_local n (now_sys y) t c c'); [apply Hy|by eapply now_thread|done|left; by destruct c'|].
    by destruct c, c'.
Qed.

Lemma mw_load y t c w c' o l ts x w' :
  mw_inv y -> mw_threads y !! t = Some (MAt c, w) -> owns c = None -> owns c' = None -> load_size o l ts (mw_mem y) w = Some (x, w') ->
  thread_ok (mw_accepted y) (now_queue (mw_mem y)) c' -> view_knows (mw_mem y) c' w' ->
  mw_inv (mk_mw_sys (mw_mem y) (<[t := (MAt c', w')]> (mw_threads y)) (mw_accepted y) (mw_delivered y)).
Proof using Hn Hn2.
  intros Hy Ht Ho Ho' Hl Hok Hk. destruct (load_size_inv _ _ _ _ _ _ _ Hl) as (msg&_&_&_&Hl').
  destruct (load_ok _ _ _ _ _ _ _ (mi_mem y Hy) (proj1 (thread_view y t c w Hy Ht)) Hl') as [Hv Hle]. by eapply mw_local.
Qed.

(** A sequence number that is the turn of the newest position is the newest one of its cell. *)
Lemma seq_is_turn y pos s : mw_inv y -> 0 <= pos -> s <= size_now (mw_mem y) (Sequence (idx pos)) ->
  (s = pos /\ pos = size_now (mw_mem y) EnqueuePos \/ s = pos + 1 /\ pos = size_now (mw_mem y) DequeuePos) ->
  size_now (mw_mem y) (Sequence (idx pos)) = s.
Proof using Hn Hn2.
  intros Hy Hp Hs Hpos. pose proof (inv_order n (now_sys y) (mi_queue y Hy)) as Ho. cbn in Ho.
  destruct (inv_cells n (now_sys y) (mi_queue y Hy) pos _ Hp (now_cell_at (mw_mem y) pos)) as (p&Hm&?&?&?&Hcase). cbn in *.
  assert (Heq : - n < p - pos < n -> p = pos) by (intros; by apply (same_turn n k)).
  destruct Hpos as [[Es Ep]|[Es Ep]], Hcase as [[Hc ?]|(Hc&?&_)]; lia.
Qed.

Lemma seq_small y pos t msg : mw_inv y -> zlen (mw_accepted y) < 2 ^ 62 -> 0 <= pos ->
  mw_mem y (Sequence (idx pos)) !! t = Some msg -> i64 (size_of (m_val msg)) = size_of (m_val msg).
Proof using All.
  intros Hy Hb Hp Ht. destruct (grows_newest _ _ _ _ (proj1 (mi_seq y Hy _ (idx_range pos))) Ht) as [Hr _].
  pose proof (seq_bound n k Hn Hn2 (now_sys y) pos _ (mi_queue y Hy) Hp (now_cell_at (mw_mem y) pos)) as Hsb. cbn in Hsb.
  apply (u64_pos n k Hn Hn62 (now_sys y)); [apply Hy|done|cbn; lia].
Qed.

(** An acquire load of a sequence number brings what its store released. *)
Lemma load_saw y pos ts x w w' : load_size Acquire (Sequence (idx pos)) ts (mw_mem y) w = Some (x, w') -> saw_turn (mw_mem y) w' pos x.
Proof using.
  clear. intros Hl. destruct (load_size_inv _ _ _ _ _ _ _ Hl) as (msg&Ht&Hv&->&_). exists ts, msg. split_and!; [done|done|..].
  - unfold read_view, vjoin. rewrite vput_eq. lia.
  - unfold read_view, vjoin. cbn. lia.
Qed.

(** *** Claiming a position *)

Lemma claim_inv ord l pos ts sp (m : mem) w r m' w' : claim ord l pos ts sp m w = Some (r, m', w') ->
  (r = None /\ sp = false /\ size_now m l = pos /\
     exchange (pos_claim ord) l (VSize (u64 (pos + 1))) m w = Some (VSize pos, m', w') /\
     exists v, m' = append l (VSize (u64 (pos + 1))) v m) \/
  (exists x, r = Some x /\ m' = m /\ load_size (pos_load ord) l ts m w = Some (x, w')).
Proof using.
  clear. unfold claim. destruct (exchange _ _ _ _ _) as [[[[x|d] m1] w1]|] eqn:E; [|done..].
  destruct ((x =? pos) && negb sp) eqn:Eb.
  - intros [= <- <- <-]. left. apply andb_true_iff in Eb as [Ex Es]. apply Z.eqb_eq in Ex. subst x.
    destruct sp; [done|]. pose proof E as E'. unfold exchange in E'. destruct (last (m l)) as [msg|] eqn:Hl; [|done]. cbn in E'. injection E' as Hv <- _.
    split_and!; [done|done|unfold size_now; rewrite Hl; cbn; by rewrite Hv|done|by eexists].
  - destruct (load_size _ _ _ _ _) as [[x' w2]|]; [|done]. cbn. intros [= <- <- <-]. right. by exists x'.
Qed.

(** Who wins the position whose turn it saw has the whole cell. *)
Lemma claim_has_cell y t c w pos s : mw_inv y -> mw_threads y !! t = Some (MAt c, w) -> owns c = None ->
  knows (now_queue (mw_mem y)) c = Some (pos, s) -> saw_turn (mw_mem y) w pos s -> has_cell (mw_mem y) w pos.
Proof using Hn Hn2.
  intros Hy Ht Ho Hk (ts&msg&Hts&Hv&H1&H2). pose proof (idx_range pos) as Hi. destruct (thread_view y t c w Hy Ht) as [Hvw _].
  destruct (knows_seq (mw_accepted y) (now_queue (mw_mem y)) c pos s (thread_now y t c w Hy Ht) Hk) as [Hp Hs].
  rewrite now_cell_at in Hs. cbn in Hs. injection Hs as Hs.
  destruct (grows_newest _ _ _ _ (proj1 (mi_seq y Hy _ Hi)) Hts) as [_ Hnew]. rewrite Hv in Hnew. specialize (Hnew (eq_sym Hs)). subst ts.
  destruct (mi_cells y Hy (idx pos) Hi) as (msg'&Hl&Hr).
  { intros t1 c1 w1 p1 Ht1 Ho1 He. assert (t <> t1) by (intros ->; congruence). by eapply (owner_apart y t1 t c1 c w1 w p1 pos s). }
  apply last_lookup_newest in Hl. assert (msg' = msg) as -> by congruence.
  pose proof (Hvw (Sequence (idx pos))). pose proof (Hvw (CellData (idx pos))). split; lia.
Qed.

Lemma now_cell_ne m l v r i : l <> Sequence i -> l <> CellData i -> now_cell (append l v r m) i = now_cell m i.
Proof using. clear. intros H1 H2. unfold now_cell. by rewrite size_now_ne, data_now_ne. Qed.

Lemma now_queue_enq m x r : now_queue (append EnqueuePos (VSize x) r m) =
  mk_mpmc (buffer_ (now_queue m)) (n - 1) x (dequeue_pos_ (now_queue m)).
Proof using. clear. unfold now_queue. cbn. rewrite size_now_append, size_now_ne by done. f_equal. Qed.

Lemma now_queue_deq m x r : now_queue (append DequeuePos (VSize x) r m) =
  mk_mpmc (buffer_ (now_queue m)) (n - 1) (enqueue_pos_ (now_queue m)) x.
Proof using. clear. unfold now_queue. cbn. rewrite size_now_append, size_now_ne by done. f_equal. Qed.

Lemma mw_claimed y t c w c' l pos s v m' w' acc :
  mw_inv y -> zlen (mw_accepted y) < 2 ^ 62 -> mw_threads y !! t = Some (MAt c, w) -> owns c = None -> owns c' = Some pos ->
  knows (now_queue (mw_mem y)) c = Some (pos, s) -> saw_turn (mw_mem y) w pos s ->
  l = EnqueuePos \/ l = DequeuePos -> size_now (mw_mem y) l = pos ->
  exchange Relaxed l (VSize (u64 (pos + 1))) (mw_mem y) w = Some (VSize pos, m', w') -> m' = append l (VSize (u64 (pos + 1))) v (mw_mem y) ->
  mpmc_inv n (now_sys (mk_mw_sys m' (<[t := (MAt c', w')]> (mw_threads y)) acc (mw_delivered y))) ->
  mw_inv (mk_mw_sys m' (<[t := (MAt c', w')]> (mw_threads y)) acc (mw_delivered y)).
Proof using All.
  intros Hy Hb Ht Ho Ho' Hk Hsaw Hl Hpos Hx Hm' Hq.
  pose proof (exchange_ok _ _ _ _ _ _ _ _ (mi_mem y Hy) (proj1 (thread_view y t c w Hy Ht)) Hx) as Hacc.
  pose proof (claim_has_cell y t c w pos s Hy Ht Ho Hk Hsaw) as Hcell. pose proof (inv_order n (now_sys y) (mi_queue y Hy)) as Hord. cbn in Hord.
  assert (Hu : u64 (pos + 1) = pos + 1).
  { apply (u64_pos n k Hn Hn62 (now_sys y)); [apply Hy|done|]. cbn. destruct Hl as [-> | ->]; lia. }
  assert (Hsame : forall i, same_cell (mw_mem y) m' i) by (intros i; subst m'; split; apply append_ne; by destruct Hl as [-> | ->]).
  assert (Hcnt : counts m' l) by (subst m'; apply counts_append; [destruct Hl as [-> | ->]; apply Hy|lia]).
  eapply mw_move; [done|done|done|done| | | | | |by rewrite Ho].
  - destruct Hl as [-> | ->]; [done|]. subst m'. apply counts_ne; [done|apply Hy].
  - destruct Hl as [-> | ->]; [|done]. subst m'. apply counts_ne; [done|apply Hy].
  - intros i Hi. destruct (mi_seq y Hy i Hi). subst m'. split; [apply grows_ne|apply datas_ne]; destruct Hl as [-> | ->]; done.
  - done.
  - rewrite (owns_view _ _ _ pos) by done. destruct Hacc as (_&Hv&_&Hle). by eapply has_cell_up.
Qed.

(** *** The accesses of the owner of a cell *)

Lemma mw_data y t c w c' pos d acc del :
  let m' := append (CellData (idx pos)) (VData d) vbot (mw_mem y) in
  let w' := vput (CellData (idx pos)) (length (mw_mem y (CellData (idx pos)))) w in
  mw_inv y -> mw_threads y !! t = Some (MAt c, w) -> owns c = Some pos -> owns c' = Some pos ->
  mpmc_inv n (now_sys (mk_mw_sys m' (<[t := (MAt c', w')]> (mw_threads y)) acc del)) ->
  mw_inv (mk_mw_sys m' (<[t := (MAt c', w')]> (mw_threads y)) acc del).
Proof using Hn Hn2.
  intros m' w' Hy Ht Ho Ho' Hq. destruct (thread_view y t c w Hy Ht) as [Hv Hk]. rewrite (owns_view _ _ _ pos) in Hk by done.
  eapply mw_move; [done|done| |done| | | | | |intros p Hp; left; congruence].
  - apply append_access_ok; [apply Hy|done|apply view_ok_bot].
  - apply counts_ne; [done|apply Hy].
  - apply counts_ne; [done|apply Hy].
  - intros i Hi. destruct (mi_seq y Hy i Hi). split; [by apply grows_ne|].
    destruct (decide (i = idx pos)) as [->|Hne]; [by apply datas_append|apply datas_ne; [congruence|done]].
  - intros i Hi. specialize (Hi pos Ho). split; apply append_ne; congruence.
  - rewrite (owns_view _ _ _ pos) by done. destruct Hk as [H1 H2]. unfold m', w'. split.
    + by rewrite append_newest_ne, vput_ne.
    + by rewrite append_newest, vput_eq.
Qed.

Lemma mw_hand y t c w c' pos x acc del :
  let w' := vput (Sequence (idx pos)) (length (mw_mem y (Sequence (idx pos)))) w in
  let m' := append (Sequence (idx pos)) (VSize x) w' (mw_mem y) in
  mw_inv y -> mw_threads y !! t = Some (MAt c, w) -> owns c = Some pos -> at_rest c' = true -> size_now (mw_mem y) (Sequence (idx pos)) < x ->
  mpmc_inv n (now_sys (mk_mw_sys m' (<[t := (MAt c', w')]> (mw_threads y)) acc del)) ->
  mw_inv (mk_mw_sys m' (<[t := (MAt c', w')]> (mw_threads y)) acc del).
Proof using Hn Hn2.
  intros w' m' Hy Ht Ho Hr Hx Hq. destruct (thread_view y t c w Hy Ht) as [Hv Hk]. rewrite (owns_view _ _ _ pos) in Hk by done.
  eapply mw_move; [done|done| |done| | | | | |].
  - apply append_access_ok; [apply Hy|done|by apply view_ok_append].
  - apply counts_ne; [done|apply Hy].
  - apply counts_ne; [done|apply Hy].
  - intros i Hi. destruct (mi_seq y Hy i Hi). split; [|by apply datas_ne].
    destruct (decide (i = idx pos)) as [->|Hne]; [by apply grows_append|apply grows_ne; [congruence|done]].
  - intros i Hi. specialize (Hi pos Ho). split; apply append_ne; congruence.
  - by destruct c'.
  - intros p Hp. assert (p = pos) as -> by congruence. right. eexists. unfold m'. rewrite append_at, last_snoc. split; [done|]. cbn.
    rewrite append_newest_ne by done. unfold w'. rewrite vput_ne by done. apply Hk.
Qed.

(** *** Every access *)

Lemma now_step y t c w c' m' w' : mw_inv y -> zlen (mw_accepted y) < 2 ^ 62 -> mw_threads y !! t = Some (MAt c, w) ->
  thread_step false c (now_queue (mw_mem y)) = Some (c', now_queue m') ->
  mpmc_inv n (now_sys (mk_mw_sys m' (<[t := (MAt c', w')]> (mw_threads y)) (log_accepted c c' (mw_accepted y)) (log_delivered c (mw_delivered y)))).
Proof using All.
  intros Hy Hb Ht Hs. rewrite now_sys_insert. apply now_thread in Ht. unfold thread_step in Hs.
  destruct (enqueue_step false c (now_queue (mw_mem y))) as [[c1 q1]|] eqn:E.
  - injection Hs as -> ->. by apply (enqueue_step_inv n k Hn Hn2 Hn62 (now_sys y) t c c' _ false (mi_queue y Hy)).
  - by apply (dequeue_step_inv n k Hn Hn2 Hn62 (now_sys y) t c c' _ false (mi_queue y Hy)).
Qed.

Lemma now_queue_data m pos d r : now_queue (append (CellData (idx pos)) (VData d) r m) =
  set_cell (now_queue m) pos (mk_cell (size_now m (Sequence (idx pos))) d).
Proof using Hn Hn2.
  apply now_queue_cell; [|intros i Hi; apply now_cell_ne; congruence|by rewrite size_now_ne..].
  unfold now_cell. by rewrite size_now_ne, data_now_append.
Qed.

Lemma now_queue_seq m pos x r : now_queue (append (Sequence (idx pos)) (VSize x) r m) =
  set_cell (now_queue m) pos (mk_cell x (data_now m (CellData (idx pos)))).
Proof using Hn Hn2.
  apply now_queue_cell; [|intros i Hi; apply now_cell_ne; congruence|by rewrite size_now_ne..].
  unfold now_cell. by rewrite size_now_append, data_now_ne.
Qed.

Lemma now_queue_read m i r : now_queue (append (CellData i) (VData (data_now m (CellData i))) r m) = now_queue m.
Proof using.
  clear. unfold now_queue. rewrite !size_now_ne by done. f_equal. apply list_fmap_ext. intros j x _.
  unfold now_cell. rewrite size_now_ne by done. f_equal. destruct (decide (x = i)) as [->|]; [apply data_now_append|apply data_now_ne; congruence].
Qed.

Lemma last_data m l : datas m l -> exists msg, last (m l) = Some msg /\ m_val msg = VData (data_now m l).
Proof using.
  clear. intros [Hl Hf]. destruct (last_newest m l Hl) as (msg&Hlast&Ht). exists msg. split; [done|].
  destruct (Forall_lookup_1 _ _ _ _ Hf Ht) as [x Hx]. unfold data_now. rewrite Hlast. cbn. by rewrite Hx.
Qed.

(** The sequence number of the cell a thread has claimed. *)
Lemma owner_seq y t c w p s : mw_inv y -> mw_threads y !! t = Some (MAt c, w) -> knows (now_queue (mw_mem y)) c = Some (p, s) ->
  0 <= p /\ size_now (mw_mem y) (Sequence (idx p)) = s.
Proof using Hn Hn2.
  intros Hy Ht Hk. destruct (knows_seq (mw_accepted y) (now_queue (mw_mem y)) c p s (thread_now y t c w Hy Ht) Hk) as [Hp Hs].
  rewrite now_cell_at in Hs. cbn in Hs. by injection Hs.
Qed.

Lemma mw_enqueue_inv y t c w ts sp c' m' w' :
  mw_inv y -> zlen (mw_accepted y) < 2 ^ 62 -> mw_threads y !! t = Some (MAt c, w) ->
  mw_enqueue mpmc_source_orders (n - 1) ts sp c (mw_mem y) w = Some (c', m', w') ->
  exists c1, c' = MAt c1 /\
    mw_inv (mk_mw_sys m' (<[t := (MAt c1, w')]> (mw_threads y)) (log_accepted c c1 (mw_accepted y)) (log_delivered c (mw_delivered y))).
Proof using All.
  intros Hy Hb Ht Hs. destruct (thread_view y t c w Hy Ht) as [Hv Hk]. pose proof (thread_now y t c w Hy Ht) as Hok.
  destruct c as [|v|v pos|v pos|v pos|v pos| | | | | | |]; try done; cbn [mw_enqueue mpmc_source_orders pos_load pos_claim seq_load seq_store] in Hs;
    try change (Z.land pos (n - 1)) with (idx pos) in Hs.
  - destruct (load_size _ _ _ _ _) as [[x w1]|] eqn:Hl; [|done]. cbn in Hs. injection Hs as <- <- <-. eexists. split; [done|].
    destruct (load_size_inv _ _ _ _ _ _ _ Hl) as (msg&Hm&Hx&_). pose proof (counts_at _ _ _ _ (mi_enq y Hy) Hm) as Hc. rewrite Hx in Hc. by eapply mw_load.
  - destruct (load_size _ _ _ _ _) as [[x w1]|] eqn:Hl; [|done]. cbn in Hs. injection Hs as <- <- <-. eexists. split; [done|]. cbn in Hok.
    destruct (load_size_inv _ _ _ _ _ _ _ Hl) as (msg&Hm&Hx&_). destruct (grows_newest _ _ _ _ (proj1 (mi_seq y Hy _ (idx_range pos))) Hm) as [Hle _].
    pose proof (seq_small y pos _ _ Hy Hb ltac:(lia) Hm) as Hi. rewrite Hx in Hle, Hi. cbn in Hle, Hi.
    destruct (u64_pos n k Hn Hn62 (now_sys y) pos (mi_queue y Hy) Hb) as [_ Hip]; [cbn; lia|]. rewrite Hi, Hip. cbn [log_delivered log_accepted].
    destruct (Z.eqb_spec (x - pos) 0) as [Hd|]; [|destruct (_ <? _); by eapply mw_load].
    assert (x = pos) as -> by lia. eapply mw_load; [done..| |by eapply load_saw]. cbn. split; [done|]. intros He. rewrite now_cell_at. cbn. f_equal.
    apply (seq_is_turn y pos pos); [done|lia|lia|by left].
  - destruct (claim _ _ _ _ _ _ _) as [[[r m1] w1]|] eqn:Hc; [|done]. cbn in Hs. injection Hs as <- <- <-. eexists. split; [done|].
    destruct (claim_inv _ _ _ _ _ _ _ _ _ _ Hc) as [(->&->&Hp&Hx&r0&Hm)|(x&->&->&Hl)].
    + assert (Hkn : knows (now_queue (mw_mem y)) (EnqCas v pos) = Some (pos, pos)) by (cbn; by rewrite Hp, Z.eqb_refl).
      eapply (mw_claimed y t _ w (EnqWrite v pos) EnqueuePos pos pos); [done|done|done|done|done|exact Hkn|exact Hk|by left|done|exact Hx|exact Hm|].
      eapply now_step; [done..|]. subst m1. rewrite now_queue_enq. unfold thread_step. cbn [enqueue_step]. unfold cas_enqueue. cbn. by rewrite Hp, Z.eqb_refl.
    + destruct (load_size_inv _ _ _ _ _ _ _ Hl) as (msg&Hm&Hx&_). pose proof (counts_at _ _ _ _ (mi_enq y Hy) Hm) as Hcn. rewrite Hx in Hcn.
      by eapply mw_load.
  - destruct (last_data _ _ (proj2 (mi_seq y Hy _ (idx_range pos)))) as (msg&Hlast&_).
    rewrite (plain_write_known _ _ _ _ msg Hlast (proj2 Hk)) in Hs. injection Hs as <- <- <-. eexists. split; [done|].
    apply (mw_data y t (EnqWrite v pos)); [done..|]. eapply now_step; [done..|]. rewrite now_queue_data.
    unfold thread_step. cbn [enqueue_step]. by rewrite now_cell_at.
  - destruct (owner_seq y t _ w pos pos Hy Ht eq_refl) as [Hp Hsq].
    destruct (last_size _ _ (proj1 (proj1 (mi_seq y Hy _ (idx_range pos))))) as (msg&Hlast&_).
    rewrite (store_known _ _ _ _ _ msg Hlast (proj1 Hk)) in Hs. injection Hs as <- <- <-. eexists. split; [done|]. cbn [releases].
    cbn in Hok. destruct (u64_pos n k Hn Hn62 (now_sys y) (pos + 1) (mi_queue y Hy) Hb) as [Hu _]; [cbn; lia|].
    apply (mw_hand y t (EnqStore v pos)); [done|done|done|done|lia|]. eapply now_step; [done..|]. rewrite now_queue_seq.
    unfold thread_step. cbn [enqueue_step]. by rewrite now_cell_at.
Qed.

Lemma mw_dequeue_inv y t c w ts sp c' m' w' :
  mw_inv y -> zlen (mw_accepted y) < 2 ^ 62 -> mw_threads y !! t = Some (MAt c, w) ->
  mw_dequeue mpmc_source_orders (n - 1) ts sp c (mw_mem y) w = Some (c', m', w') ->
  exists c1, c' = MAt c1 /\
    mw_inv (mk_mw_sys m' (<[t := (MAt c1, w')]> (mw_threads y)) (log_accepted c c1 (mw_accepted y)) (log_delivered c (mw_delivered y))).
Proof using All.
  intros Hy Hb Ht Hs. destruct (thread_view y t c w Hy Ht) as [Hv Hk]. pose proof (thread_now y t c w Hy Ht) as Hok.
  pose proof (inv_order n (now_sys y) (mi_queue y Hy)) as Ho. cbn in Ho.
  destruct c as [| | | | | | | |pos|pos|pos|pos v|]; try done; cbn [mw_dequeue mpmc_source_orders pos_load pos_claim seq_load seq_store] in Hs;
    try change (Z.land pos (n - 1)) with (idx pos) in Hs.
  - destruct (load_size _ _ _ _ _) as [[x w1]|] eqn:Hl; [|done]. cbn in Hs. injection Hs as <- <- <-. eexists. split; [done|].
    destruct (load_size_inv _ _ _ _ _ _ _ Hl) as (msg&Hm&Hx&_). pose proof (counts_at _ _ _ _ (mi_deq y Hy) Hm) as Hc. rewrite Hx in Hc. by eapply mw_load.
  - destruct (load_size _ _ _ _ _) as [[x w1]|] eqn:Hl; [|done]. cbn in Hs. injection Hs as <- <- <-. eexists. split; [done|]. cbn in Hok.
    destruct (load_size_inv _ _ _ _ _ _ _ Hl) as (msg&Hm&Hx&_). destruct (grows_newest _ _ _ _ (proj1 (mi_seq y Hy _ (idx_range pos))) Hm) as [Hle _].
    pose proof (seq_small y pos _ _ Hy Hb ltac:(lia) Hm) as Hi. rewrite Hx in Hle, Hi. cbn in Hle, Hi.
    destruct (u64_pos n k Hn Hn62 (now_sys y) (pos + 1) (mi_queue y Hy) Hb) as [Hup Hip]; [cbn; lia|]. rewrite Hi, Hup, Hip. cbn [log_delivered log_accepted].
    destruct (Z.eqb_spec (x - (pos + 1)) 0) as [Hd|]; [|destruct (_ <? _); by eapply mw_load].
    assert (x = pos + 1) as -> by lia. eapply mw_load; [done..| |by eapply load_saw]. cbn. split; [done|]. intros He. rewrite now_cell_at. cbn. f_equal.
    apply (seq_is_turn y pos (pos + 1)); [done|lia|lia|by right].
  - destruct (claim _ _ _ _ _ _ _) as [[[r m1] w1]|] eqn:Hc; [|done]. cbn in Hs. injection Hs as <- <- <-. eexists. split; [done|].
    destruct (claim_inv _ _ _ _ _ _ _ _ _ _ Hc) as [(->&->&Hp&Hx&r0&Hm)|(x&->&->&Hl)].
    + assert (Hkn : knows (now_queue (mw_mem y)) (DeqCas pos) = Some (pos, pos + 1)) by (cbn; by rewrite Hp, Z.eqb_refl).
      eapply (mw_claimed y t _ w (DeqRead pos) DequeuePos pos (pos + 1)); [done|done|done|done|done|exact Hkn|exact Hk|by right|done|exact Hx|exact Hm|].
      eapply now_step; [done..|]. subst m1. rewrite now_queue_deq. unfold thread_step. cbn [enqueue_step dequeue_step]. unfold cas_dequeue. cbn. by rewrite Hp, Z.eqb_refl.
    + destruct (load_size_inv _ _ _ _ _ _ _ Hl) as (msg&Hm&Hx&_). pose proof (counts_at _ _ _ _ (mi_deq y Hy) Hm) as Hcn. rewrite Hx in Hcn.
      by eapply mw_load.
  - destruct (last_data _ _ (proj2 (mi_seq y Hy _ (idx_range pos)))) as (msg&Hlast&Hd).
    rewrite (plain_read_known _ _ _ msg Hlast (proj2 Hk)), Hd in Hs. injection Hs as <- <- <-. eexists. split; [done|].
    apply (mw_data y t (DeqRead pos)); [done..|]. eapply now_step; [done..|]. rewrite now_queue_read.
    unfold thread_step. cbn [enqueue_step dequeue_step]. by rewrite now_cell_at.
  - destruct (owner_seq y t _ w pos (pos + 1) Hy Ht eq_refl) as [Hp Hsq].
    destruct (last_size _ _ (proj1 (proj1 (mi_seq y Hy _ (idx_range pos))))) as (msg&Hlast&_).
    rewrite (store_known _ _ _ _ _ msg Hlast (proj1 Hk)) in Hs. injection Hs as <- <- <-. eexists. split; [done|]. cbn [releases].
    cbn in Hok. destruct (u64_pos n k Hn Hn62 (now_sys y) (pos + (n - 1) + 1) (mi_queue y Hy) Hb) as [Hu _]; [cbn; lia|].
    apply (mw_hand y t (DeqStore pos v)); [done|done|done|done|lia|]. eapply now_step; [done..|]. rewrite now_queue_seq.
    unfold thread_step. cbn [enqueue_step dequeue_step]. by rewrite now_cell_at.
Qed.

Lemma mw_step_inv y y' : mw_step mpmc_source_orders (n - 1) y y' ->
  (zlen (mw_accepted y) < 2 ^ 62 -> mw_inv y) -> zlen (mw_accepted y') < 2 ^ 62 -> mw_inv y'.
Proof using All.
  intros Hs Hy Hb'. assert (Hb : zlen (mw_accepted y) < 2 ^ 62).
  { destruct Hs as [|t c w ts sp c' m' w' Ht Hs]; cbn in *; [lia|]. pose proof (log_accepted_length c (plain_pc c') (mw_accepted y)). lia. }
  specialize (Hy Hb). destruct Hs as [t c c' w Ht Hr Hc'|t c w ts sp c' m' w' Ht Hs]; cbn in *.
  - destruct (thread_view y t c w Hy Ht) as [Hv _].
    eapply mw_local; [done|done|by destruct c|by destruct Hc' as [->|[v ->]]|done|done|by destruct Hc' as [->|[v ->]]..].
  - unfold mw_access in Hs. destruct (mw_enqueue _ _ _ _ _ _ _) as [[[c1 m1] w1]|] eqn:E.
    + injection Hs as -> -> ->. by destruct (mw_enqueue_inv y t c w ts sp c' m' w' Hy Hb Ht E) as (c2&->&Hi).
    + by destruct (mw_dequeue_inv y t c w ts sp c' m' w' Hy Hb Ht Hs) as (c2&->&Hi).
Qed.

(** *** Reading the newest writes *)

Lemma load_size_newest o (m : mem) w l : view_ok m w -> sizes m l -> exists w', load_size o l (newest m l) m w = Some (size_now m l, w').
Proof using.
  clear. intros Hw Hs. destruct (last_size m l Hs) as (msg&Hl&Hv). apply last_lookup_newest in Hl. unfold load_size, load_at.
  rewrite decide_True, Hl by apply Hw. cbn. rewrite Hv. by eexists.
Qed.

Lemma claim_newest ord (m : mem) w l pos sp : view_ok m w -> sizes m l ->
  (size_now m l =? pos) && negb sp = true /\
    (exists v w', claim ord l pos (newest m l) sp m w = Some (None, append l (VSize (u64 (pos + 1))) v m, w')) \/
  (size_now m l =? pos) && negb sp = false /\ exists w', claim ord l pos (newest m l) sp m w = Some (Some (size_now m l), m, w').
Proof using.
  clear. intros Hw Hs. destruct (last_size m l Hs) as (msg&Hl&Hv). unfold claim, exchange. rewrite Hl. cbn. rewrite Hv.
  destruct ((size_now m l =? pos) && negb sp); [left; split; [done|by eexists _, _]|right; split; [done|]].
  destruct (load_size_newest (pos_load ord) m w l Hw Hs) as [w' ->]. by eexists.
Qed.

(** The write a thread reads when it reads the newest one. *)
Definition newest_for (m : mem) (c : pc T) : nat :=
  match c with
  | EnqLoad _ | EnqCas _ _ => newest m EnqueuePos
  | DeqLoad | DeqCas _ => newest m DequeuePos
  | EnqSeq _ pos | DeqSeq pos => newest m (Sequence (idx pos))
  | _ => 0
  end.

(** A thread that reads the newest writes makes the access of the interleaved queue. *)
Lemma mw_newest y t c w sp : mw_inv y -> mw_threads y !! t = Some (MAt c, w) -> at_rest c = false ->
  exists c' m' w', mw_access mpmc_source_orders (n - 1) (newest_for (mw_mem y) c) sp c (mw_mem y) w = Some (MAt c', m', w') /\
    thread_step sp c (now_queue (mw_mem y)) = Some (c', now_queue m').
Proof using Hn Hn2.
  intros Hy Ht Hr. destruct (thread_view y t c w Hy Ht) as [Hv Hk]. pose proof (mi_seq y Hy) as Hcell.
  unfold mw_access, thread_step.
  destruct c as [|v|v pos|v pos|v pos|v pos| | |pos|pos|pos|pos v|]; try done;
    cbn [mw_enqueue mw_dequeue mpmc_source_orders pos_load seq_load seq_store enqueue_step dequeue_step newest_for];
    try change (Z.land pos (n - 1)) with (idx pos); rewrite ?now_cell_at;
    try (pose proof (proj1 (proj1 (Hcell _ (idx_range pos)))) as Hsz; pose proof (proj2 (Hcell _ (idx_range pos))) as Hdt).
  - destruct (load_size_newest Relaxed _ w _ Hv (proj1 (mi_enq y Hy))) as [w' ->]. by eexists _, _, _.
  - destruct (load_size_newest Acquire _ w _ Hv Hsz) as [w' ->]. by eexists _, _, _.
  - unfold cas_enqueue. cbn [now_queue enqueue_pos_]. destruct (claim_newest mpmc_source_orders _ w _ pos sp Hv (proj1 (mi_enq y Hy))) as [(->&r&w'&->)|(->&w'&->)].
    + eexists _, _, _. split; [done|]. by rewrite now_queue_enq.
    + by eexists _, _, _.
  - destruct (last_data _ _ Hdt) as (msg&Hlast&_). rewrite (plain_write_known _ _ _ _ msg Hlast (proj2 Hk)).
    eexists _, _, _. split; [done|]. by rewrite now_queue_data.
  - destruct (last_size _ _ Hsz) as (msg&Hlast&_). rewrite (store_known _ _ _ _ _ msg Hlast (proj1 Hk)).
    eexists _, _, _. split; [done|]. by rewrite now_queue_seq.
  - destruct (load_size_newest Relaxed _ w _ Hv (proj1 (mi_deq y Hy))) as [w' ->]. by eexists _, _, _.
  - destruct (load_size_newest Acquire _ w _ Hv Hsz) as [w' ->]. by eexists _, _, _.
  - unfold cas_dequeue. cbn [now_queue dequeue_pos_]. destruct (claim_newest mpmc_source_orders _ w _ pos sp Hv (proj1 (mi_deq y Hy))) as [(->&r&w'&->)|(->&w'&->)].
    + eexists _, _, _. split; [done|]. by rewrite now_queue_deq.
    + by eexists _, _, _.
  - destruct (last_data _ _ Hdt) as (msg&Hlast&Hd). rewrite (plain_read_known _ _ _ msg Hlast (proj2 Hk)), Hd.
    eexists _, _, _. split; [done|]. by rewrite now_queue_read.
  - destruct (last_size _ _ Hsz) as (msg&Hlast&_). rewrite (store_known _ _ _ _ _ msg Hlast (proj1 Hk)).
    eexists _, _, _. split; [done|]. by rewrite now_queue_seq.
Qed.

(** *** A new queue *)

Lemma mw_start_inv threads (q : mpmc_bounded_queue T) : mpmc_new true n = Ok q -> mw_inv (mw_start q threads).
Proof using All.
  intros Hq. pose proof (mpmc_start_inv n k Hn Hn2 Hn62 threads q Hq) as Hinv. unfold mpmc_new in Hq. destruct (true && _); [done|].
  injection Hq as <-. rewrite u64_small in Hinv |- * by lia. set (q := mk_mpmc _ _ _ _) in *.
  assert (Hget : forall i, 0 <= i < n -> zget (buffer_ q) i = Some (mk_cell i None)).
  { intros i Hi. unfold zget. destruct (Z.ltb_spec i 0); [lia|]. cbn. rewrite list_lookup_fmap, lookup_seqZ_lt by lia. cbn. do 2 f_equal. lia. }
  assert (Hseq : forall i, 0 <= i < n -> mw_memory q (Sequence i) = [mk_message (VSize i) vbot]) by (intros i Hi; unfold mw_memory; by rewrite Hget).
  assert (Hdat : forall i, 0 <= i < n -> mw_memory q (CellData i) = [mk_message (VData None) vbot]) by (intros i Hi; unfold mw_memory; by rewrite Hget).
  split; cbn [mw_start mw_mem mw_threads].
  - intros l t msg Ht. assert (m_rel msg = vbot) as ->; [|apply view_ok_bot].
    destruct l as [| |i|i]; cbn in Ht; [..|destruct (zget _ i); [|done]|destruct (zget _ i); [|done]]; by apply list_lookup_singleton_Some in Ht as [_ <-].
  - enough (now_sys (mw_start q threads) = mpmc_start q threads) as -> by done. unfold now_sys, mpmc_start. cbn. f_equal; [|by rewrite fmap_replicate].
    unfold now_queue, q. f_equal. apply list_fmap_ext. intros j i Hi. apply list_elem_of_lookup_2, elem_of_seqZ in Hi.
    unfold now_cell, size_now, data_now. by rewrite Hseq, Hdat by lia.
  - unfold counts, sizes. cbn. by repeat constructor; eauto.
  - unfold counts, sizes. cbn. by repeat constructor; eauto.
  - intros i Hi. unfold grows, sizes, datas. rewrite Hseq, Hdat by done. split_and!; try done; try (repeat constructor; cbn; eauto; lia).
    intros t t' a b Ha Hb Htt. apply list_lookup_singleton_Some in Ha as [-> _]. apply list_lookup_singleton_Some in Hb as [-> _]. lia.
  - apply Forall_replicate. split; [apply view_ok_bot|]. by exists Idle.
  - intros i Hi _. eexists. rewrite Hseq by done. split; [done|]. unfold newest. by rewrite Hdat.
Qed.
End Invariant.

(** C12. The bounded queue under the C++ memory model, with the orderings the code asks for (relaxed
    counters, acquire loads and release stores of the sequence numbers), for any number of threads,
    whatever old counter or sequence number a load may still return and whenever a weak
    compare-and-swap fails (for fewer than 2^62 accepted values): no access to a cell races with one
    of another thread; every dequeue that returned delivered the value accepted at its position and
    no two delivered the same position; the queue never holds more than its size; when all calls have
    returned the delivered values are exactly the oldest accepted ones; and a thread in the middle of
    a call can always go on, with the access of the interleaved queue when it reads the newest
    writes. *)
Theorem mpmc_release_acquire {T} (k : nat) (q : mpmc_bounded_queue T) (threads : nat) (y : mw_sys T) :
  (1 <= k <= 62)%nat -> mpmc_new true (2 ^ Z.of_nat k) = Ok q ->
  rtc (mw_step mpmc_source_orders (buffer_mask_ q)) (mw_start q threads) y -> zlen (mw_accepted y) < 2 ^ 62 ->
  let n := 2 ^ Z.of_nat k in
  let E := size_now (mw_mem y) EnqueuePos in let D := size_now (mw_mem y) DequeuePos in
  (forall t w, mw_threads y !! t <> Some (MRace, w)) /\
  (forall pos v, (pos, v) ∈ mw_delivered y -> exists x, v = Some x /\ zget (mw_accepted y) pos = Some x) /\
  NoDup (mw_delivered y).*1 /\
  (zlen (mw_accepted y) = E /\ 0 <= E - D <= n) /\
  (Forall (fun th => at_rest (plain_pc th.1) = true) (mw_threads y) ->
   (mw_delivered y).*2 ≡ₚ Some <$> take (Z.to_nat D) (mw_accepted y)) /\
  (forall t c w sp, mw_threads y !! t = Some (MAt c, w) -> at_rest c = false ->
   exists ts c' m' w', mw_access mpmc_source_orders (buffer_mask_ q) ts sp c (mw_mem y) w = Some (MAt c', m', w') /\
     thread_step sp c (now_queue n (mw_mem y)) = Some (c', now_queue n m')).
Proof.
  intros Hk Hq Hr Hb n E D. pose proof (size_bounds k Hk) as [Hn2 Hn62]. fold n in Hq, Hn2, Hn62.
  assert (Hmask : buffer_mask_ q = n - 1).
  { clear Hr. unfold mpmc_new in Hq. destruct (true && _); [done|]. injection Hq as <-. cbn. apply u64_small. lia. }
  rewrite Hmask in *. assert (Hy : mw_inv n y).
  { revert Hb. refine (rtc_invariant _ (fun y => zlen (mw_accepted y) < 2 ^ 62 -> mw_inv n y) _ _ _ _ Hr).
    - intros a b Ha Hs. by apply (mw_step_inv n k eq_refl Hn2 Hn62 a b Hs).
    - intros _. by apply (mw_start_inv n k eq_refl Hn2 Hn62). }
  pose proof (mi_queue n y Hy) as Hinv. pose proof (inv_order _ _ Hinv) as Ho. pose proof (inv_accepted _ _ Hinv) as Ha. cbn in Ho, Ha.
  pose proof (delivered_values n (now_sys n y) Hinv) as [Hd1 Hd2].
  split_and!; [|done|done|done|lia|lia| |].
  - intros t w Ht. by destruct (Forall_lookup_1 _ _ _ _ (mi_threads n y Hy) Ht) as (_&c&?&_).
  - intros Hrest. apply (rest_delivered n (now_sys n y) Hinv). by apply Forall_fmap.
  - intros t c w sp Ht Hc. exists (newest_for n (mw_mem y) c). by apply (mw_newest n k eq_refl Hn2 y t c w sp).
Qed.

(** *** Concrete runs *)

(** A thread starts a call, or makes an access that reads the given write. *)
Inductive mw_move_t := CallEnq (t : nat) (v : Z) | CallDeq (t : nat) | Go (t ts : nat).

Definition mw_run_move (ord : mpmc_orders) (mask : Z) (mv : mw_move_t) (y : mw_sys Z) : option (mw_sys Z) :=
  let call t c' :=
    match mw_threads y !! t with
    | Some (MAt c, w) => if at_rest c then Some (mk_mw_sys (mw_mem y) (<[t := (MAt c', w)]> (mw_threads y)) (mw_accepted y) (mw_delivered y)) else None
    | _ => None
    end in
  match mv with
  | CallEnq t v => call t (EnqLoad v)
  | CallDeq t => call t DeqLoad
  | Go t ts =>
      match mw_threads y !! t with
      | Some (MAt c, w) =>
          '(c', m', w') ← mw_access ord mask ts false c (mw_mem y) w;
          Some (mk_mw_sys m' (<[t := (c', w')]> (mw_threads y)) (log_accepted c (plain_pc c') (mw_accepted y))
                  (match c' with MAt _ => log_delivered c (mw_delivered y) | MRace => mw_delivered y end))
      | _ => None
      end
  end.

Fixpoint mw_run (ord : mpmc_orders) (mask : Z) (l : list mw_move_t) (y : mw_sys Z) : option (mw_sys Z) :=
  match l with [] => Some y | mv :: l => y ← mw_run_move ord mask mv y; mw_run ord mask l y end.

Lemma mw_run_steps ord mask l y y' : mw_run ord mask l y = Some y' -> rtc (mw_step ord mask) y y'.
Proof.
  revert y. induction l as [|mv l IH]; intros y; cbn; [by intros [= ->]|].
  destruct (mw_run_move ord mask mv y) as [y1|] eqn:Hm; [|done]. intros Hl. eapply rtc_l; [|by apply IH].
  destruct mv as [t v|t|t ts]; cbn in Hm; destruct (mw_threads y !! t) as [[[c|] w]|] eqn:Ht; try done.
  - destruct (at_rest c) eqn:Hr; [|done]. injection Hm as <-. eapply mw_call; eauto.
  - destruct (at_rest c) eqn:Hr; [|done]. injection Hm as <-. eapply mw_call; eauto.
  - destruct (mw_access _ _ _ _ _ _ _) as [[[c' m'] w']|] eqn:E; [|done]. cbn in Hm. injection Hm as <-. by eapply mw_go.
Qed.

Definition mw_two : mpmc_bounded_queue Z := mk_mpmc [mk_cell 0 None; mk_cell 1 None] 1 0 0.

(** A value is enqueued; the second thread first reads the old sequence number and finds the queue
    empty, then the new one and takes the value. *)
Definition mw_stale_run : list mw_move_t :=
  [CallEnq 0 7; Go 0 0; Go 0 0; Go 0 0; Go 0 0; Go 0 0; CallDeq 1; Go 1 0; Go 1 0;
   CallDeq 1; Go 1 0; Go 1 1; Go 1 0; Go 1 0; Go 1 0].

Definition mw_stale_end : mw_sys Z := default (mw_start mw_two 2) (mw_run mpmc_source_orders 1 mw_stale_run (mw_start mw_two 2)).

Lemma mpmc_release_acquire_witness :
  mw_delivered mw_stale_end = [(0, Some 7)] /\ mw_accepted mw_stale_end = [7] /\
  (mw_delivered mw_stale_end).*2 ≡ₚ Some <$> take (Z.to_nat (size_now (mw_mem mw_stale_end) DequeuePos)) (mw_accepted mw_stale_end).
Proof.
  split_and!; [vm_compute; reflexivity..|].
  refine (proj1 (proj2 (proj2 (proj2 (proj2 (mpmc_release_acquire 1 mw_two 2 mw_stale_end _ _ _ _))))) _).
  - lia.
  - vm_compute. reflexivity.
  - apply (mw_run_steps mpmc_source_orders 1 mw_stale_run). vm_compute. reflexivity.
  - vm_compute. reflexivity.
  - apply List.Forall_forall, List.forallb_forall. vm_compute. reflexivity.
Defined.

(** The orderings are needed: with a relaxed store of the sequence number, or a relaxed load of it,
    the consumer's access to the cell races with the producer's. *)
Lemma relaxed_sequence_races (ord : mpmc_orders) :
  ord = mk_mpmc_orders Relaxed Relaxed Acquire Relaxed \/ ord = mk_mpmc_orders Relaxed Relaxed Relaxed Release ->
  exists y w, rtc (mw_step ord 1) (mw_start mw_two 2) y /\ mw_threads y !! 1%nat = Some (MRace, w).
Proof.
  pose (run := [CallEnq 0 7; Go 0 0; Go 0 0; Go 0 0; Go 0 0; Go 0 0; CallDeq 1; Go 1 0; Go 1 1; Go 1 0; Go 1 0]).
  intros [-> | ->]; eexists _, _; (split; [eapply (mw_run_steps _ 1 run)|]; vm_compute; reflexivity).
Qed.
