(* ===== verification/MpmcProgress.v ===== *)
(** * Progress of libs/mpmc_queue.hpp

    When a call of the bounded queue may return false, and how a thread that runs alone completes
    its call.  Both rest on the owners of the cells: a cell whose claimed position is not yet
    filled, or not yet given back, belongs to a thread in the middle of a call. *)

From S2P Require Import Prelude MpmcQueue.

Section Owners.
Context {T : Type} (n : Z).
Implicit Types (q : mpmc_bounded_queue T) (c : pc T) (y : system T).

(** Some thread of [cs] is in a place described by [P]. *)
Definition some_thread (P : pc T -> Prop) (cs : list (pc T)) : Prop := exists t c, cs !! t = Some c /\ P c.

(** A position that was claimed and is not filled has its producer, one that was claimed and is not
    given back has its consumer. *)
Record owned_inv y : Prop := {
  oi_filled pos cell : 0 <= pos < enqueue_pos_ (sy_queue y) -> cell_at (sy_queue y) pos = Some cell ->
    sequence_ cell = pos -> some_thread (fun c => enq_owns c = Some pos) (sy_threads y);
  oi_released pos cell : 0 <= pos < dequeue_pos_ (sy_queue y) -> cell_at (sy_queue y) pos = Some cell ->
    sequence_ cell = pos + 1 -> some_thread (fun c => deq_owns c = [pos]) (sy_threads y)
}.

Lemma some_thread_insert (P : pc T -> Prop) cs t c c' : cs !! t = Some c -> some_thread P cs -> (P c -> P c') ->
  some_thread P (<[t := c']> cs).
Proof.
  intros Ht (t1&c1&H1&HP) Hc. destruct (decide (t1 = t)) as [->|Hne].
  - simplify_eq. exists t, c'. rewrite list_lookup_insert_eq by (by eapply lookup_lt_Some). auto.
  - exists t1, c1. by rewrite list_lookup_insert_ne.
Qed.

Lemma some_thread_new (P : pc T -> Prop) cs t c c' : cs !! t = Some c -> P c' -> some_thread P (<[t := c']> cs).
Proof. intros Ht HP. exists t, c'. by rewrite list_lookup_insert_eq by (by eapply lookup_lt_Some). Qed.

Context (k : nat) (Hn : n = 2 ^ Z.of_nat k) (Hn2 : 2 <= n) (Hn62 : n <= 2 ^ 62).

(** A move that leaves the cells alone; the counters may pass over a position the thread now owns. *)
Lemma owned_same_cells y t c c' q' acc del :
  owned_inv y -> sy_threads y !! t = Some c ->
  buffer_ q' = buffer_ (sy_queue y) -> buffer_mask_ q' = buffer_mask_ (sy_queue y) ->
  (forall p, enq_owns c = Some p -> enq_owns c' = Some p) -> (forall p, deq_owns c = [p] -> deq_owns c' = [p]) ->
  (forall p, enqueue_pos_ (sy_queue y) <= p < enqueue_pos_ q' -> enq_owns c' = Some p) ->
  (forall p, dequeue_pos_ (sy_queue y) <= p < dequeue_pos_ q' -> deq_owns c' = [p]) ->
  owned_inv (mk_system q' (<[t := c']> (sy_threads y)) acc del).
Proof using.
  clear Hn Hn2 Hn62. intros [Hf Hr] Ht Hb Hm He Hd HE HD.
  assert (Hc : forall pos, cell_at q' pos = cell_at (sy_queue y) pos) by (intros pos; unfold cell_at, cell_index; by rewrite Hb, Hm).
  split; cbn; intros pos cell Hp Hcell Hs; rewrite Hc in Hcell.
  - destruct (decide (pos < enqueue_pos_ (sy_queue y))); [|eapply some_thread_new; [done|apply HE; lia]].
    eapply some_thread_insert; [done|eapply Hf; [lia|done..]|apply He].
  - destruct (decide (pos < dequeue_pos_ (sy_queue y))); [|eapply some_thread_new; [done|apply HD; lia]].
    eapply some_thread_insert; [done|eapply Hr; [lia|done..]|apply Hd].
Qed.

(** The owner of [pos] writes its cell, and hands it on unless it still owns it. *)
Lemma owned_set_cell y t c c' pos cl acc del :
  mpmc_inv n y -> owned_inv y -> sy_threads y !! t = Some c ->
  (forall p, enq_owns c = Some p -> p = pos) -> (forall p, deq_owns c = [p] -> p = pos) ->
  (forall p, p mod n = pos mod n -> p = sequence_ cl -> 0 <= p < enqueue_pos_ (sy_queue y) -> enq_owns c' = Some p) ->
  (forall p, p mod n = pos mod n -> p + 1 = sequence_ cl -> 0 <= p < dequeue_pos_ (sy_queue y) -> deq_owns c' = [p]) ->
  owned_inv (mk_system (set_cell (sy_queue y) pos cl) (<[t := c']> (sy_threads y)) acc del).
Proof using Hn Hn2.
  clear Hn62. intros Hy [Hf Hr] Ht He Hd HE HD. split; cbn [sy_queue sy_threads set_cell enqueue_pos_ dequeue_pos_];
    intros p cell Hp Hcell Hs; change (cell_at (set_cell (sy_queue y) pos cl) p = Some cell) in Hcell;
    (destruct (decide (p mod n = pos mod n)) as [Hm|Hm];
      [rewrite (cell_at_set_eq n k Hn Hn2 _ pos) in Hcell by (done || apply Hy); simplify_eq
      |rewrite (cell_at_set_ne n k Hn) in Hcell by (done || apply Hy)]).
  - eapply some_thread_new; [done|]. by apply HE.
  - eapply some_thread_insert; [done|by eapply Hf|]. intros <-%He. done.
  - eapply some_thread_new; [done|]. by apply HD.
  - eapply some_thread_insert; [done|by eapply Hr|]. intros <-%Hd. done.
Qed.

Lemma mod_distinct p p' : p mod n = p' mod n -> p + 1 <> p'.
Proof using Hn Hn2. intros Hm <-. assert (p = p + 1) by (apply (same_turn n k Hn Hn2); [done|lia]). lia. Qed.

Lemma enqueue_step_owned y t c c' q' sp : mpmc_inv n y -> zlen (sy_accepted y) < 2 ^ 62 -> owned_inv y ->
  sy_threads y !! t = Some c -> enqueue_step sp c (sy_queue y) = Some (c', q') ->
  owned_inv (mk_system q' (<[t := c']> (sy_threads y)) (log_accepted c c' (sy_accepted y)) (log_delivered c (sy_delivered y))).
Proof using All.
  intros Hy Hb Ho Ht Hs. pose proof (thread_inv n y t c Hy Ht) as Hok. pose proof (inv_order n y Hy) as Hord.
  destruct c as [|v|v pos|v pos|v pos|v pos| | |pos|pos|pos|pos v|]; try done; cbn in Hs.
  - injection Hs as <- <-. eapply owned_same_cells; [done..| | | |]; cbn; intros; done || lia.
  - destruct (cell_at (sy_queue y) pos) as [cl|] eqn:Hc; [|done]. cbn in Hs. injection Hs as <- <-.
    eapply owned_same_cells; [done..| | | |]; cbn; intros; done || lia.
  - unfold cas_enqueue in Hs. destruct (Z.eqb_spec (enqueue_pos_ (sy_queue y)) pos) as [Hp|]; [destruct sp|]; cbn in Hs; injection Hs as <- <-.
    + eapply owned_same_cells; [done..| | | |]; cbn; intros; done || lia.
    + destruct (u64_pos n k Hn Hn62 y (pos + 1) Hy Hb ltac:(lia)) as [-> _].
      eapply owned_same_cells; [done..| | | |]; cbn; intros; try done; [f_equal|]; lia.
    + eapply owned_same_cells; [done..| | | |]; cbn; intros; done || lia.
  - destruct (cell_at (sy_queue y) pos) as [[s d]|] eqn:Hc; [|done]. cbn in Hs. injection Hs as <- <-.
    destruct Hok as (Hp&Hq&Ha). rewrite Hc in Hq. cbn in Hq. injection Hq as ->.
    eapply owned_set_cell; [done..| | | |]; cbn; try congruence.
    intros p Hm He _. by destruct (mod_distinct _ _ Hm).
  - destruct (cell_at (sy_queue y) pos) as [[s d]|] eqn:Hc; [|done]. cbn in Hs. injection Hs as <- <-.
    destruct Hok as (Hp&Hq&Ha&Hd). rewrite Hc in Hq. cbn in Hq. injection Hq as ->.
    destruct (u64_pos n k Hn Hn62 y (pos + 1) Hy Hb ltac:(lia)) as [-> _].
    destruct (turn_free n k Hn Hn2 y pos _ d Hy ltac:(lia) Hc eq_refl) as (?&?&?).
    eapply owned_set_cell; [done..| | | |]; cbn; try congruence.
    + intros p Hm He _. by destruct (mod_distinct pos p).
    + intros p Hm He Hp'. assert (p = pos) by lia. lia.
Qed.

Lemma dequeue_step_owned y t c c' q' sp : mpmc_inv n y -> zlen (sy_accepted y) < 2 ^ 62 -> owned_inv y ->
  sy_threads y !! t = Some c -> dequeue_step sp c (sy_queue y) = Some (c', q') ->
  owned_inv (mk_system q' (<[t := c']> (sy_threads y)) (log_accepted c c' (sy_accepted y)) (log_delivered c (sy_delivered y))).
Proof using All.
  intros Hy Hb Ho Ht Hs. pose proof (thread_inv n y t c Hy Ht) as Hok. pose proof (inv_order n y Hy) as Hord.
  destruct c as [|v|v pos|v pos|v pos|v pos| | |pos|pos|pos|pos v|]; try done; cbn in Hs.
  - injection Hs as <- <-. eapply owned_same_cells; [done..| | | |]; cbn; intros; done || lia.
  - destruct (cell_at (sy_queue y) pos) as [cl|] eqn:Hc; [|done]. cbn in Hs. injection Hs as <- <-.
    eapply owned_same_cells; [done..| | | |]; cbn; intros; done || lia.
  - unfold cas_dequeue in Hs. destruct (Z.eqb_spec (dequeue_pos_ (sy_queue y)) pos) as [Hp|]; [destruct sp|]; cbn in Hs; injection Hs as <- <-.
    + eapply owned_same_cells; [done..| | | |]; cbn; intros; done || lia.
    + destruct (u64_pos n k Hn Hn62 y (pos + 1) Hy Hb ltac:(lia)) as [-> _].
      eapply owned_same_cells; [done..| | | |]; cbn; intros; try done; [|f_equal]; lia.
    + eapply owned_same_cells; [done..| | | |]; cbn; intros; done || lia.
  - destruct (cell_at (sy_queue y) pos) as [[s d]|] eqn:Hc; [|done]. cbn in Hs. injection Hs as <- <-.
    eapply owned_same_cells; [done..| | | |]; cbn; intros; done || lia.
  - destruct (cell_at (sy_queue y) pos) as [[s d]|] eqn:Hc; [|done]. cbn in Hs. injection Hs as <- <-.
    destruct Hok as (Hp&Hq&->). rewrite Hc in Hq. cbn in Hq. injection Hq as ->.
    destruct (turn_full n k Hn Hn2 y pos _ d Hy ltac:(lia) Hc eq_refl) as (?&?&?&_).
    rewrite (inv_mask n y Hy). destruct (u64_pos n k Hn Hn62 y (pos + (n - 1) + 1) Hy Hb ltac:(lia)) as [-> _].
    eapply owned_set_cell; [done..| | | |]; cbn; try congruence.
    + intros p Hm He Hp'. lia.
    + intros p Hm He Hp'. destruct (mod_distinct p (pos + n)); [|lia]. rewrite Hm. symmetry. by apply (mod_add_period n k).
Qed.

Lemma mpmc_step_owned y y' : mpmc_inv n y -> zlen (sy_accepted y) < 2 ^ 62 -> owned_inv y -> mpmc_step y y' -> owned_inv y'.
Proof using All.
  intros Hy Hb Ho Hs. destruct Hs as [y t c c' Ht Hr Hc'|y t c c' q' sp Ht Hs].
  - assert (enq_owns c = None /\ deq_owns c = []) as [E1 E2] by (by destruct c).
    eapply owned_same_cells; [done..| | | |]; intros p; rewrite ?E1, ?E2; done || lia.
  - unfold thread_step in Hs. destruct (enqueue_step sp c (sy_queue y)) as [[c1 q1]|] eqn:E.
    + injection Hs as <- <-. by eapply enqueue_step_owned.
    + by eapply dequeue_step_owned.
Qed.

(** ** What the next cell says *)

(** The cell of the enqueue counter: free, or a full turn behind. *)
Lemma newest_cell y pos cell : mpmc_inv n y -> 0 <= pos <= enqueue_pos_ (sy_queue y) -> cell_at (sy_queue y) pos = Some cell ->
  pos <= sequence_ cell \/
  pos = enqueue_pos_ (sy_queue y) /\ sequence_ cell < pos /\ (dequeue_pos_ (sy_queue y) <= pos - n \/ sequence_ cell = pos - n + 1 /\ 0 <= pos - n).
Proof using Hn Hn2.
  clear Hn62. intros Hy Hp Hc. pose proof (inv_order n y Hy) as Ho. destruct (inv_cells n y Hy pos cell ltac:(lia) Hc) as (p&Hm&?&?&?&Hs).
  destruct (decide (pos <= sequence_ cell)) as [|Hlt]; [by left|right]. assert (p + n = pos) as Hpn.
  { apply (same_turn n k Hn Hn2); [by rewrite (mod_add_period n k)|]. lia. }
  lia.
Qed.

(** The cell of the dequeue counter: filled, or waiting for its producer. *)
Lemma oldest_cell y pos cell : mpmc_inv n y -> 0 <= pos <= dequeue_pos_ (sy_queue y) -> cell_at (sy_queue y) pos = Some cell ->
  pos + 1 <= sequence_ cell \/
  pos = dequeue_pos_ (sy_queue y) /\ sequence_ cell < pos + 1 /\ (pos = enqueue_pos_ (sy_queue y) \/ sequence_ cell = pos).
Proof using Hn Hn2.
  clear Hn62. intros Hy Hp Hc. pose proof (inv_order n y Hy) as Ho. destruct (inv_cells n y Hy pos cell ltac:(lia) Hc) as (p&Hm&?&?&?&Hs).
  destruct (decide (pos + 1 <= sequence_ cell)) as [|Hlt]; [by left|right].
  destruct (decide (p < pos)); [assert (p + n = pos) as Hpn|assert (p = pos)]; [..|lia].
  - apply (same_turn n k Hn Hn2); [by rewrite (mod_add_period n k)|]. lia.
  - lia.
  - apply (same_turn n k Hn Hn2); [done|]. lia.
Qed.

Lemma enqueue_refused y v pos sp q' : mpmc_inv n y -> zlen (sy_accepted y) < 2 ^ 62 -> owned_inv y ->
  0 <= pos <= enqueue_pos_ (sy_queue y) -> thread_step sp (EnqSeq v pos) (sy_queue y) = Some (EnqDone false, q') ->
  pos = enqueue_pos_ (sy_queue y) /\
  (enqueue_pos_ (sy_queue y) = dequeue_pos_ (sy_queue y) + n \/ some_thread (fun c => deq_owns c = [pos - n]) (sy_threads y)).
Proof using All.
  intros Hy Hb Ho Hp Hs. pose proof (inv_order n y Hy). unfold thread_step in Hs. cbn in Hs.
  destruct (cell_at_some n k Hn Hn2 (sy_queue y) pos (inv_mask n y Hy) (inv_length n y Hy)) as [cl Hc].
  rewrite Hc in Hs. cbn in Hs. destruct (u64_pos n k Hn Hn62 y pos Hy Hb ltac:(lia)) as [_ Hip].
  destruct (u64_pos n k Hn Hn62 y (sequence_ cl) Hy Hb (seq_bound n k Hn Hn2 y pos cl Hy ltac:(lia) Hc)) as [_ His].
  rewrite Hip, His in Hs. destruct (newest_cell y pos cl Hy Hp Hc) as [|(->&Hlt&Hw)]; [zcases; first [lia|discriminate]|].
  split; [done|]. destruct (decide (dequeue_pos_ (sy_queue y) <= enqueue_pos_ (sy_queue y) - n)); [left; lia|right].
  destruct Hw as [|Hw]; [done|]. eapply (oi_released y Ho _ cl); [lia|rewrite <- Hc|lia].
  apply (cell_at_same n k Hn); [apply Hy|]. rewrite <- (mod_add_period n k Hn Hn2). f_equal. lia.
Qed.

Lemma dequeue_refused y pos sp q' : mpmc_inv n y -> zlen (sy_accepted y) < 2 ^ 62 -> owned_inv y ->
  0 <= pos <= dequeue_pos_ (sy_queue y) -> thread_step sp (DeqSeq pos) (sy_queue y) = Some (DeqDone None, q') ->
  pos = dequeue_pos_ (sy_queue y) /\
  (dequeue_pos_ (sy_queue y) = enqueue_pos_ (sy_queue y) \/ some_thread (fun c => enq_owns c = Some pos) (sy_threads y)).
Proof using All.
  intros Hy Hb Ho Hp Hs. pose proof (inv_order n y Hy). unfold thread_step in Hs. cbn in Hs.
  destruct (cell_at_some n k Hn Hn2 (sy_queue y) pos (inv_mask n y Hy) (inv_length n y Hy)) as [cl Hc].
  rewrite Hc in Hs. cbn in Hs. destruct (u64_pos n k Hn Hn62 y (pos + 1) Hy Hb ltac:(lia)) as [Hu Hip].
  destruct (u64_pos n k Hn Hn62 y (sequence_ cl) Hy Hb (seq_bound n k Hn Hn2 y pos cl Hy ltac:(lia) Hc)) as [_ His].
  rewrite Hu, Hip, His in Hs. destruct (oldest_cell y pos cl Hy Hp Hc) as [|(->&Hlt&Hw)]; [zcases; first [lia|discriminate]|].
  split; [done|]. destruct (decide (dequeue_pos_ (sy_queue y) = enqueue_pos_ (sy_queue y))); [by left|right].
  eapply (oi_filled y Ho _ cl); [lia|done|]. lia.
Qed.

(** ** A thread that runs alone *)

(** No position is claimed and not handed on; threads before their compare-and-swap do not matter. *)
Definition quiet y : Prop := forall t c, sy_threads y !! t = Some c -> enq_owns c = None /\ deq_owns c = [].

Lemma quiet_no_owner y pos : quiet y ->
  ~ some_thread (fun c => enq_owns c = Some pos) (sy_threads y) /\ ~ some_thread (fun c => deq_owns c = [pos]) (sy_threads y).
Proof using. intros Hq. split; intros (t&c&Ht&Hc); destruct (Hq t c Ht); congruence. Qed.

(** One access of the thread [t]. *)
Inductive access_by (t : nat) y : system T -> Prop :=
| access_one c c' q' spurious : sy_threads y !! t = Some c -> thread_step spurious c (sy_queue y) = Some (c', q') ->
    access_by t y (mk_system q' (<[t := c']> (sy_threads y)) (log_accepted c c' (sy_accepted y)) (log_delivered c (sy_delivered y))).

Lemma access_by_steps t y y' : rtc (access_by t) y y' -> rtc mpmc_step y y'.
Proof using. apply rtc_subrel. intros a b [c c' q' sp Hc Hs]. by eapply step_access. Qed.

(** The thread [t] moved to [c], with nothing else changed. *)
Definition moved y t c : system T := mk_system (sy_queue y) (<[t := c]> (sy_threads y)) (sy_accepted y) (sy_delivered y).

Lemma walk y t c0 c c' : sy_threads y !! t = Some c0 -> thread_step false c (sy_queue y) = Some (c', sy_queue y) ->
  enq_owns c' = None -> deq_owns c = [] -> access_by t (moved y t c) (moved y t c').
Proof using.
  intros Ht Hs He Hd. assert (Hc : sy_threads (moved y t c) !! t = Some c).
  { apply list_lookup_insert_eq. by eapply lookup_lt_Some. }
  pose proof (access_one t _ c c' (sy_queue y) false Hc Hs) as Hstep. cbn [moved sy_threads sy_queue sy_accepted sy_delivered] in Hstep.
  rewrite list_insert_insert_eq in Hstep. replace (log_accepted c c' (sy_accepted y)) with (sy_accepted y) in Hstep by (by destruct c, c').
  replace (log_delivered c (sy_delivered y)) with (sy_delivered y) in Hstep by (by destruct c). exact Hstep.
Qed.

Lemma moved_self y t c : sy_threads y !! t = Some c -> moved y t c = y.
Proof using. intros Ht. unfold moved. rewrite list_insert_id by done. by destruct y. Qed.

Definition wants_enqueue (v : T) c : Prop := c = EnqLoad v \/ exists pos, c = EnqSeq v pos \/ c = EnqCas v pos.
Definition wants_dequeue c : Prop := c = DeqLoad \/ exists pos, c = DeqSeq pos \/ c = DeqCas pos.

(** The state after [t] claimed the next position. *)
Definition enqueue_claimed y t v : system T :=
  mk_system (mk_mpmc (buffer_ (sy_queue y)) (buffer_mask_ (sy_queue y)) (enqueue_pos_ (sy_queue y) + 1) (dequeue_pos_ (sy_queue y)))
    (<[t := EnqWrite v (enqueue_pos_ (sy_queue y))]> (sy_threads y)) (sy_accepted y ++ [v]) (sy_delivered y).
Definition dequeue_claimed y t : system T :=
  mk_system (mk_mpmc (buffer_ (sy_queue y)) (buffer_mask_ (sy_queue y)) (enqueue_pos_ (sy_queue y)) (dequeue_pos_ (sy_queue y) + 1))
    (<[t := DeqRead (dequeue_pos_ (sy_queue y))]> (sy_threads y)) (sy_accepted y) (sy_delivered y).

Section Alone.
Context y t c0 (Hy : mpmc_inv n y) (Hb : zlen (sy_accepted y) < 2 ^ 62) (Ho : owned_inv y) (Ht : sy_threads y !! t = Some c0).
Let E := enqueue_pos_ (sy_queue y).
Let D := dequeue_pos_ (sy_queue y).

(** The next access of an enqueue that has loaded [pos]. *)
Lemma enqueue_seq_step v pos : 0 <= pos <= E -> exists cl, cell_at (sy_queue y) pos = Some cl /\
  thread_step false (EnqSeq v pos) (sy_queue y) =
    Some (if sequence_ cl =? pos then EnqCas v pos else if sequence_ cl <? pos then EnqDone false else EnqLoad v, sy_queue y).
Proof using Hn Hn2 Hn62 Hy Hb.
  intros Hp. pose proof (inv_order n y Hy).
  destruct (cell_at_some n k Hn Hn2 (sy_queue y) pos (inv_mask n y Hy) (inv_length n y Hy)) as [cl Hc]. exists cl. split; [done|].
  unfold thread_step. cbn. rewrite Hc. cbn. unfold E in Hp. destruct (u64_pos n k Hn Hn62 y pos Hy Hb ltac:(lia)) as [_ Hip].
  destruct (u64_pos n k Hn Hn62 y (sequence_ cl) Hy Hb (seq_bound n k Hn Hn2 y pos cl Hy ltac:(lia) Hc)) as [_ His].
  rewrite Hip, His. zcases; done || lia.
Qed.

Lemma dequeue_seq_step pos : 0 <= pos <= D -> exists cl, cell_at (sy_queue y) pos = Some cl /\
  thread_step false (DeqSeq pos) (sy_queue y) =
    Some (if sequence_ cl =? pos + 1 then DeqCas pos else if sequence_ cl <? pos + 1 then DeqDone None else DeqLoad, sy_queue y).
Proof using Hn Hn2 Hn62 Hy Hb.
  intros Hp. pose proof (inv_order n y Hy).
  destruct (cell_at_some n k Hn Hn2 (sy_queue y) pos (inv_mask n y Hy) (inv_length n y Hy)) as [cl Hc]. exists cl. split; [done|].
  unfold thread_step. cbn. rewrite Hc. cbn. unfold D in Hp. destruct (u64_pos n k Hn Hn62 y (pos + 1) Hy Hb ltac:(lia)) as [-> Hip].
  destruct (u64_pos n k Hn Hn62 y (sequence_ cl) Hy Hb (seq_bound n k Hn Hn2 y pos cl Hy ltac:(lia) Hc)) as [_ His].
  rewrite Hip, His. zcases; done || lia.
Qed.

(** On a queue with room that nobody is in the middle of using, an enqueue claims the next position. *)
Lemma claim_enqueue v c : quiet y -> E < D + n -> wants_enqueue v c -> thread_ok (sy_accepted y) (sy_queue y) c ->
  rtc (access_by t) (moved y t c) (enqueue_claimed y t v).
Proof using All.
  intros Hq Hroom Hw Hok. pose proof (inv_order n y Hy) as Hord. unfold E, D in *.
  assert (Hcas : access_by t (moved y t (EnqCas v (enqueue_pos_ (sy_queue y)))) (enqueue_claimed y t v)).
  { assert (Hc : sy_threads (moved y t (EnqCas v (enqueue_pos_ (sy_queue y)))) !! t = Some (EnqCas v (enqueue_pos_ (sy_queue y)))).
    { apply list_lookup_insert_eq. by eapply lookup_lt_Some. }
    pose proof (access_one t _ _ (EnqWrite v (enqueue_pos_ (sy_queue y))) (sy_queue (enqueue_claimed y t v)) false Hc) as Hs.
    cbn in Hs. rewrite list_insert_insert_eq in Hs. apply Hs. unfold thread_step, enqueue_step, cas_enqueue. rewrite Z.eqb_refl. cbn.
    by destruct (u64_pos n k Hn Hn62 y (enqueue_pos_ (sy_queue y) + 1) Hy Hb ltac:(lia)) as [-> _]. }
  assert (Hseq : rtc (access_by t) (moved y t (EnqSeq v (enqueue_pos_ (sy_queue y)))) (enqueue_claimed y t v)).
  { eapply rtc_l; [|by apply rtc_once]. destruct (enqueue_seq_step v (enqueue_pos_ (sy_queue y))) as (cl&Hc&Hs); [unfold E; lia|].
    eapply walk; [done| |done|done]. rewrite Hs. destruct (newest_cell y (enqueue_pos_ (sy_queue y)) cl Hy ltac:(lia) Hc) as [Hge|(_&_&[?|[Hw' ?]])];
      [|lia|].
    - destruct (inv_cells n y Hy (enqueue_pos_ (sy_queue y)) cl ltac:(lia) Hc) as (p&Hm&?&?&?&Hp). rewrite (proj2 (Z.eqb_eq _ _)); [done|].
      assert (p = enqueue_pos_ (sy_queue y)); [|lia]. apply (same_turn n k Hn Hn2); [done|]. lia.
    - exfalso. apply (proj2 (quiet_no_owner y (enqueue_pos_ (sy_queue y) - n) Hq)). eapply (oi_released y Ho _ cl); [lia| |lia].
      rewrite <- Hc. apply (cell_at_same n k Hn); [apply Hy|]. rewrite <- (mod_add_period n k Hn Hn2). f_equal. lia. }
  assert (Hload : rtc (access_by t) (moved y t (EnqLoad v)) (enqueue_claimed y t v)) by (eapply rtc_l; [by eapply walk|done]).
  destruct Hw as [->|(pos&[->| ->])]; [done|..]; cbn [thread_ok] in Hok; destruct (decide (pos = enqueue_pos_ (sy_queue y))) as [->|Hne];
    [done| |by apply rtc_once|].
  - eapply rtc_l; [|exact Hload]. destruct (enqueue_seq_step v pos) as (cl&Hc&Hs); [unfold E; lia|]. eapply walk; [done| |done|done].
    rewrite Hs. destruct (newest_cell y pos cl Hy ltac:(lia) Hc) as [Hge|(?&_)]; [|done].
    assert (sequence_ cl <> pos); [|zcases; done || lia]. intros Heq. apply (proj1 (quiet_no_owner y pos Hq)). eapply (oi_filled y Ho _ cl); [lia|done..].
  - eapply rtc_l; [|exact Hseq]. eapply walk; [done| |done|done]. unfold thread_step, enqueue_step, cas_enqueue.
    by rewrite (proj2 (Z.eqb_neq _ _)) by done.
Qed.

(** On a queue that is not empty and that nobody is in the middle of using, a dequeue claims the
    oldest position. *)
Lemma claim_dequeue c : quiet y -> D < E -> wants_dequeue c -> thread_ok (sy_accepted y) (sy_queue y) c ->
  rtc (access_by t) (moved y t c) (dequeue_claimed y t).
Proof using All.
  intros Hq Hroom Hw Hok. pose proof (inv_order n y Hy) as Hord. unfold E, D in *.
  assert (Hcas : access_by t (moved y t (DeqCas (dequeue_pos_ (sy_queue y)))) (dequeue_claimed y t)).
  { assert (Hc : sy_threads (moved y t (DeqCas (dequeue_pos_ (sy_queue y)))) !! t = Some (DeqCas (dequeue_pos_ (sy_queue y)))).
    { apply list_lookup_insert_eq. by eapply lookup_lt_Some. }
    pose proof (access_one t _ _ (DeqRead (dequeue_pos_ (sy_queue y))) (sy_queue (dequeue_claimed y t)) false Hc) as Hs.
    cbn in Hs. rewrite list_insert_insert_eq in Hs. apply Hs. unfold thread_step, enqueue_step, dequeue_step, cas_dequeue. rewrite Z.eqb_refl. cbn.
    by destruct (u64_pos n k Hn Hn62 y (dequeue_pos_ (sy_queue y) + 1) Hy Hb ltac:(lia)) as [-> _]. }
  assert (Hseq : rtc (access_by t) (moved y t (DeqSeq (dequeue_pos_ (sy_queue y)))) (dequeue_claimed y t)).
  { eapply rtc_l; [|by apply rtc_once]. destruct (dequeue_seq_step (dequeue_pos_ (sy_queue y))) as (cl&Hc&Hs); [unfold D; lia|].
    eapply walk; [done| |done|done]. rewrite Hs.
    destruct (oldest_cell y (dequeue_pos_ (sy_queue y)) cl Hy ltac:(lia) Hc) as [Hge|(_&_&[?|Hw'])]; [|lia|].
    - destruct (inv_cells n y Hy (dequeue_pos_ (sy_queue y)) cl ltac:(lia) Hc) as (p&Hm&?&?&?&Hp). rewrite (proj2 (Z.eqb_eq _ _)); [done|].
      assert (p = dequeue_pos_ (sy_queue y)); [|lia]. apply (same_turn n k Hn Hn2); [done|]. lia.
    - exfalso. apply (proj1 (quiet_no_owner y (dequeue_pos_ (sy_queue y)) Hq)). eapply (oi_filled y Ho _ cl); [lia|done|lia]. }
  assert (Hload : rtc (access_by t) (moved y t DeqLoad) (dequeue_claimed y t)) by (eapply rtc_l; [by eapply walk|done]).
  destruct Hw as [->|(pos&[->| ->])]; [done|..]; cbn [thread_ok] in Hok; destruct (decide (pos = dequeue_pos_ (sy_queue y))) as [->|Hne];
    [done| |by apply rtc_once|].
  - eapply rtc_l; [|exact Hload]. destruct (dequeue_seq_step pos) as (cl&Hc&Hs); [unfold D; lia|]. eapply walk; [done| |done|done].
    rewrite Hs. destruct (oldest_cell y pos cl Hy ltac:(lia) Hc) as [Hge|(?&_)]; [|done].
    assert (sequence_ cl <> pos + 1); [|zcases; done || lia]. intros Heq. apply (proj2 (quiet_no_owner y pos Hq)). eapply (oi_released y Ho _ cl); [lia|done..].
  - eapply rtc_l; [|exact Hseq]. eapply walk; [done| |done|done]. unfold thread_step, enqueue_step, dequeue_step, cas_dequeue.
    by rewrite (proj2 (Z.eqb_neq _ _)) by done.
Qed.

(** A full queue refuses, and so does an empty one, whatever the other threads are doing. *)
Lemma full_refuses v : E = D + n -> rtc (access_by t) (moved y t (EnqLoad v)) (moved y t (EnqDone false)).
Proof using All.
  intros Hfull. pose proof (inv_order n y Hy) as Hord. unfold E, D in *. eapply rtc_l; [by eapply walk|]. apply rtc_once.
  destruct (enqueue_seq_step v (enqueue_pos_ (sy_queue y))) as (cl&Hc&Hs); [unfold E; lia|].
  eapply walk; [done|rewrite Hs|done|done]. destruct (inv_cells n y Hy (enqueue_pos_ (sy_queue y)) cl ltac:(lia) Hc) as (p&Hm&?&?&?&Hp).
  assert (p + n = enqueue_pos_ (sy_queue y)); [|zcases; done || lia]. apply (same_turn n k Hn Hn2); [by rewrite (mod_add_period n k)|]. lia.
Qed.

Lemma empty_refuses : E = D -> rtc (access_by t) (moved y t DeqLoad) (moved y t (DeqDone None)).
Proof using All.
  intros Hempty. pose proof (inv_order n y Hy) as Hord. unfold E, D in *. eapply rtc_l; [by eapply walk|]. apply rtc_once.
  destruct (dequeue_seq_step (dequeue_pos_ (sy_queue y))) as (cl&Hc&Hs); [unfold D; lia|].
  eapply walk; [done|rewrite Hs|done|done].
  destruct (oldest_cell y (dequeue_pos_ (sy_queue y)) cl Hy ltac:(lia) Hc) as [Hge|(_&?&_)]; [|zcases; done || lia].
  destruct (inv_cells n y Hy (dequeue_pos_ (sy_queue y)) cl ltac:(lia) Hc) as (p&Hm&?&?&?&Hp).
  assert (p = dequeue_pos_ (sy_queue y)); [|lia]. apply (same_turn n k Hn Hn2); [done|]. lia.
Qed.
End Alone.

(** The two accesses behind a claim. *)
Lemma finish_enqueue y t v pos : mpmc_inv n y -> sy_threads y !! t = Some (EnqWrite v pos) ->
  exists q', rtc (access_by t) y (mk_system q' (<[t := EnqDone true]> (sy_threads y)) (sy_accepted y) (sy_delivered y)).
Proof using Hn Hn2.
  clear Hn62. intros Hy Ht.
  destruct (cell_at_some n k Hn Hn2 (sy_queue y) pos (inv_mask n y Hy) (inv_length n y Hy)) as [cl Hc].
  pose (q1 := set_cell (sy_queue y) pos (mk_cell (sequence_ cl) (Some v))).
  assert (Hq1 : cell_at q1 pos = Some (mk_cell (sequence_ cl) (Some v))) by (apply (cell_at_set_eq n k Hn Hn2); done || apply Hy).
  eexists. eapply rtc_l; [eapply (access_one t y _ (EnqStore v pos) q1 false Ht); unfold thread_step; cbn; by rewrite Hc|].
  apply rtc_once. cbn [log_accepted log_delivered]. rewrite <- (list_insert_insert_eq _ t (EnqDone true) (EnqStore v pos)).
  eapply (access_one t (mk_system q1 _ _ _) (EnqStore v pos) (EnqDone true) _ false).
  - apply list_lookup_insert_eq. by eapply lookup_lt_Some.
  - unfold thread_step. cbn [enqueue_step sy_queue]. by rewrite Hq1.
Qed.

Lemma finish_dequeue y t pos : mpmc_inv n y -> sy_threads y !! t = Some (DeqRead pos) ->
  exists q', rtc (access_by t) y (mk_system q' (<[t := DeqDone (Some (acc_at (sy_accepted y) pos))]> (sy_threads y)) (sy_accepted y)
               (sy_delivered y ++ [(pos, acc_at (sy_accepted y) pos)])).
Proof using Hn Hn2.
  clear Hn62. intros Hy Ht. pose proof (thread_inv n y t _ Hy Ht) as [Hp Hs].
  destruct (cell_at (sy_queue y) pos) as [[s d]|] eqn:Hc; [|done]. cbn in Hs. injection Hs as ->.
  destruct (turn_full n k Hn Hn2 y pos _ d Hy ltac:(lia) Hc eq_refl) as (_&_&_&->). set (d := acc_at (sy_accepted y) pos) in *.
  eexists. eapply rtc_l; [eapply (access_one t y _ (DeqStore pos d) (sy_queue y) false Ht); unfold thread_step; cbn; by rewrite Hc|].
  apply rtc_once. cbn [log_accepted log_delivered]. rewrite <- (list_insert_insert_eq _ t (DeqDone (Some d)) (DeqStore pos d)).
  eapply (access_one t (mk_system (sy_queue y) _ _ _) (DeqStore pos d) (DeqDone (Some d)) _ false).
  - apply list_lookup_insert_eq. by eapply lookup_lt_Some.
  - unfold thread_step. cbn. by rewrite Hc.
Qed.

Lemma start_owned q threads : enqueue_pos_ q = 0 -> dequeue_pos_ q = 0 -> owned_inv (mpmc_start q threads).
Proof using. clear Hn Hn2 Hn62. intros HE HD. split; cbn; intros; lia. Qed.

(** From a quiet state a thread makes a whole call. *)
Lemma call_enqueue y t c v : mpmc_inv n y -> zlen (sy_accepted y) < 2 ^ 62 - 1 -> owned_inv y -> quiet y ->
  sy_threads y !! t = Some c -> at_rest c = true ->
  let room := enqueue_pos_ (sy_queue y) <? dequeue_pos_ (sy_queue y) + n in
  exists q', rtc mpmc_step y (mk_system q' (<[t := EnqDone room]> (sy_threads y))
               (if room then sy_accepted y ++ [v] else sy_accepted y) (sy_delivered y)).
Proof using All.
  intros Hy Hb Ho Hq Ht Hr room. pose proof (inv_order n y Hy).
  assert (Hcall : mpmc_step y (moved y t (EnqLoad v))) by (eapply step_call; eauto).
  destruct room eqn:Hroom; unfold room in Hroom; zcases; try done.
  - assert (Hclaim : rtc mpmc_step y (enqueue_claimed y t v)).
    { eapply rtc_l; [exact Hcall|]. eapply access_by_steps, claim_enqueue; [done|lia|done|done|done|lia|by left|done]. }
    assert (Hinv : mpmc_inv n (enqueue_claimed y t v)).
    { refine (rtc_invariant mpmc_step (fun y => zlen (sy_accepted y) < 2 ^ 62 -> mpmc_inv n y) _ _ _ (fun _ => Hy) Hclaim _).
      - intros a b Ha Hs. by apply (mpmc_step_inv n k Hn Hn2 Hn62 a b Hs).
      - cbn. rewrite length_app. cbn. lia. }
    destruct (finish_enqueue (enqueue_claimed y t v) t v (enqueue_pos_ (sy_queue y)) Hinv) as (q'&Hf).
    { apply list_lookup_insert_eq. by eapply lookup_lt_Some. }
    exists q'. cbn in Hf. rewrite list_insert_insert_eq in Hf. apply access_by_steps in Hf. by etrans.
  - exists (sy_queue y). eapply rtc_l; [exact Hcall|]. eapply access_by_steps, full_refuses; [done|lia|done|done|lia].
Qed.

Lemma call_dequeue y t c : mpmc_inv n y -> zlen (sy_accepted y) < 2 ^ 62 -> owned_inv y -> quiet y ->
  sy_threads y !! t = Some c -> at_rest c = true ->
  let D := dequeue_pos_ (sy_queue y) in let x := acc_at (sy_accepted y) D in
  let some := D <? enqueue_pos_ (sy_queue y) in
  exists q', rtc mpmc_step y (mk_system q' (<[t := DeqDone (if some then Some x else None)]> (sy_threads y)) (sy_accepted y)
               (if some then sy_delivered y ++ [(D, x)] else sy_delivered y)).
Proof using All.
  intros Hy Hb Ho Hq Ht Hr D x some. pose proof (inv_order n y Hy).
  assert (Hcall : mpmc_step y (moved y t DeqLoad)) by (eapply step_call; eauto).
  destruct some eqn:Hsome; unfold some, D in Hsome; zcases; try done.
  - assert (Hclaim : rtc mpmc_step y (dequeue_claimed y t)).
    { eapply rtc_l; [exact Hcall|]. eapply access_by_steps, claim_dequeue; [done|done|done|done|done|lia|by left|done]. }
    assert (Hinv : mpmc_inv n (dequeue_claimed y t)).
    { refine (rtc_invariant mpmc_step (fun y => zlen (sy_accepted y) < 2 ^ 62 -> mpmc_inv n y) _ _ _ (fun _ => Hy) Hclaim Hb).
      intros a b Ha Hs. by apply (mpmc_step_inv n k Hn Hn2 Hn62 a b Hs). }
    destruct (finish_dequeue (dequeue_claimed y t) t (dequeue_pos_ (sy_queue y)) Hinv) as (q'&Hf).
    { apply list_lookup_insert_eq. by eapply lookup_lt_Some. }
    exists q'. cbn in Hf. rewrite list_insert_insert_eq in Hf. apply access_by_steps in Hf. by etrans.
  - exists (sy_queue y). eapply rtc_l; [exact Hcall|]. eapply access_by_steps, empty_refuses; [done|done|done|done|lia].
Qed.
End Owners.

Lemma owned_reachable {T} (k : nat) (q : mpmc_bounded_queue T) (threads : nat) (y : system T) :
  (1 <= k <= 62)%nat -> mpmc_new true (2 ^ Z.of_nat k) = Ok q -> rtc mpmc_step (mpmc_start q threads) y ->
  zlen (sy_accepted y) < 2 ^ 62 -> owned_inv y.
Proof.
  intros Hk Hq Hr. pose proof (size_bounds k Hk) as [Hn2 Hn62].
  refine (proj2 (rtc_invariant mpmc_step (fun y => rtc mpmc_step (mpmc_start q threads) y /\ (zlen (sy_accepted y) < 2 ^ 62 -> owned_inv y)) _ y _ _ Hr)).
  - intros a b [Ha Hoa] Hs. split; [by eapply rtc_r|]. intros Hb. assert (zlen (sy_accepted a) < 2 ^ 62).
    { destruct Hs; cbn in *; [lia|]. pose proof (log_accepted_length c c' (sy_accepted y0)). lia. }
    eapply (mpmc_step_owned (2 ^ Z.of_nat k) k); eauto. by eapply mpmc_reachable.
  - split; [done|]. intros _. unfold mpmc_new in Hq. destruct (true && _); [done|]. injection Hq as <-. by apply start_owned.
Qed.

(** C17. When a call of the bounded queue fails, and what a call does that is not disturbed (for fewer
    than 2^62 accepted values).  In every reachable state: an enqueue is about to return false only
    if the queue holds as many values as it has cells, or if a thread is still in the middle of the
    dequeue that has to free the next cell; a dequeue only if the queue is empty, or if the producer
    of the oldest value is still in the middle of its enqueue.  And when no thread is between the
    claim of a position and handing it on, a call runs to its end as on a bounded first-in first-out
    queue: an enqueue succeeds exactly when there is room, a dequeue takes the oldest value there is. *)
Theorem mpmc_calls {T} (k : nat) (q : mpmc_bounded_queue T) (threads : nat) (y : system T) :
  (1 <= k <= 62)%nat -> mpmc_new true (2 ^ Z.of_nat k) = Ok q ->
  rtc mpmc_step (mpmc_start q threads) y -> zlen (sy_accepted y) < 2 ^ 62 - 1 ->
  let n := 2 ^ Z.of_nat k in let E := enqueue_pos_ (sy_queue y) in let D := dequeue_pos_ (sy_queue y) in
  (forall t v pos sp q', sy_threads y !! t = Some (EnqSeq v pos) ->
     thread_step sp (EnqSeq v pos) (sy_queue y) = Some (EnqDone false, q') ->
     E - D = n \/ exists t' c, sy_threads y !! t' = Some c /\ deq_owns c = [E - n]) /\
  (forall t pos sp q', sy_threads y !! t = Some (DeqSeq pos) ->
     thread_step sp (DeqSeq pos) (sy_queue y) = Some (DeqDone None, q') ->
     E = D \/ exists t' c, sy_threads y !! t' = Some c /\ enq_owns c = Some D) /\
  (quiet y -> forall t c, sy_threads y !! t = Some c -> at_rest c = true ->
     (forall v, exists q', rtc mpmc_step y (mk_system q' (<[t := EnqDone (E - D <? n)]> (sy_threads y))
        (if E - D <? n then sy_accepted y ++ [v] else sy_accepted y) (sy_delivered y))) /\
     (exists q', rtc mpmc_step y (mk_system q' (<[t := DeqDone (if D <? E then Some (zget (sy_accepted y) D) else None)]> (sy_threads y))
        (sy_accepted y) (if D <? E then sy_delivered y ++ [(D, zget (sy_accepted y) D)] else sy_delivered y)))).
Proof.
  intros Hk Hq Hr Hb n E D. pose proof (size_bounds k Hk) as [Hn2 Hn62]. assert (Hb' : zlen (sy_accepted y) < 2 ^ 62) by lia.
  pose proof (mpmc_reachable k q threads y Hk Hq Hr Hb') as Hy. pose proof (owned_reachable k q threads y Hk Hq Hr Hb') as Ho.
  fold n in Hn2, Hn62, Hy. split_and!.
  - intros t v pos sp q' Ht Hs. pose proof (thread_inv n y t _ Hy Ht) as Hp. cbn in Hp.
    destruct (enqueue_refused n k eq_refl Hn2 Hn62 y v pos sp q' Hy Hb' Ho Hp Hs) as [-> [?|?]]; [left; unfold E, D; lia|by right].
  - intros t pos sp q' Ht Hs. pose proof (thread_inv n y t _ Hy Ht) as Hp. cbn in Hp.
    destruct (dequeue_refused n k eq_refl Hn2 Hn62 y pos sp q' Hy Hb' Ho Hp Hs) as [-> [?|?]]; [by left|by right].
  - intros Hqu t c Ht Hrest. split.
    + intros v. replace (E - D <? n) with (E <? D + n) by (zcases; done || lia). by eapply (call_enqueue n k).
    + by eapply (call_dequeue n k).
Qed.

(** The run of two threads in MpmcQueue.v goes on: one value is left in two cells, and the second
    thread's next enqueue succeeds. *)
Lemma mpmc_calls_witness :
  sy_threads two_end = [DeqDone (Some (Some 7%nat)); EnqDone true] /\
  exists q', rtc mpmc_step two_end (mk_system q' [DeqDone (Some (Some 7%nat)); EnqDone true] [7; 8; 9]%nat [(0, Some 7%nat)]).
Proof.
  split; [vm_compute; reflexivity|].
  refine (proj1 (proj2 (proj2 (mpmc_calls 1 two_cells 2 two_end _ _ _ _)) _ 1%nat (EnqDone true) _ _) 9%nat).
  - lia.
  - vm_compute. reflexivity.
  - apply (schedule_steps moves). vm_compute. reflexivity.
  - vm_compute. reflexivity.
  - intros t c Ht. apply list_elem_of_lookup_2 in Ht. revert Ht. vm_compute (sy_threads two_end). clear.
    intros [->|[->|Hc%elem_of_nil]%elem_of_cons]%elem_of_cons; done.
  - vm_compute. reflexivity.
  - reflexivity.
Defined.

(** A thread that stops in the middle of a dequeue blocks its cell: here the queue is empty, the
    first thread has claimed the value 7 and not yet read it, and the enqueue of 9 is refused. *)
Definition stalled_moves : list (nat * option (pc nat)) :=
  ([(0, Some (EnqLoad 7)); (0, None); (0, None); (0, None); (0, None); (0, None);
    (1, Some (EnqLoad 8)); (1, None); (1, None); (1, None); (1, None); (1, None);
    (0, Some DeqLoad); (0, None); (0, None); (0, None);
    (1, Some DeqLoad); (1, None); (1, None); (1, None); (1, None); (1, None);
    (1, Some (EnqLoad 9)); (1, None); (1, None)])%nat.

Lemma stalled_dequeue_blocks : exists y, schedule stalled_moves (mpmc_start two_cells 2) = Some y /\
  enqueue_pos_ (sy_queue y) = dequeue_pos_ (sy_queue y) /\ sy_threads y = [DeqRead 0; EnqDone false].
Proof. eexists. split_and!; vm_compute; reflexivity. Qed.
