(* ===== verification/MpmcBench.v ===== *)
(** * The benchmark of libs/mpmc_queue.hpp

    Behind the queue the header has a program: four threads wait for a common start, then each
    enqueues and dequeues in turn, trying again when a call fails.  The threads' control flow is
    cut at every loop test and every call, their calls at every access (MpmcQueue.v).  The times it
    takes and prints, and the sleep before the start, are not modelled. *)

From S2P Require Import Prelude MpmcQueue MpmcProgress.

Definition thread_count : Z := 4.
Definition batch_size : Z := 1.
Definition iter_count : Z := 2000000.
Definition bench_cells : Z := 1024.

(** Where a thread is in [thread_func]; [pause] is the result of [rand() % 1000]. *)
Inductive bench_pc :=
| BSpin (pause : Z)
| BPause (pause i : Z)
| BIter (iter : Z)
| BEnq (iter i : Z)
| BInEnq (iter i : Z)
| BDeq (iter i : Z)
| BInDeq (iter i : Z)
| BEnd.

#[export] Instance bench_pc_eq_dec : EqDecision bench_pc.
Proof. solve_decision. Defined.

Section Bench.
Context (threads batch iters : Z).

(** A step of [thread_func] outside the queue: a loop test, with the call behind it, or what is
    done with the result of a call. *)
Definition thread_func (g_start : bool) (l : bench_pc) (c : pc Z) : option (bench_pc * pc Z) :=
  match l with
  | BSpin pause => Some (if g_start then BPause pause 0 else BSpin pause, c)
  | BPause pause i => Some (if i =? pause then BIter 0 else BPause pause (i + 1), c)
  | BIter iter => Some (if iter =? iters then BEnd else BEnq iter 0, c)
  | BEnq iter i => Some (if i =? batch then (BDeq iter 0, c) else (BInEnq iter i, EnqLoad i))
  | BInEnq iter i =>
      match c with
      | EnqDone true => Some (BEnq iter (i + 1), c)
      | EnqDone false => Some (BInEnq iter i, EnqLoad i)
      | _ => None
      end
  | BDeq iter i => Some (if i =? batch then (BIter (iter + 1), c) else (BInDeq iter i, DeqLoad))
  | BInDeq iter i =>
      match c with
      | DeqDone (Some _) => Some (BDeq iter (i + 1), c)
      | DeqDone None => Some (BInDeq iter i, DeqLoad)
      | _ => None
      end
  | BEnd => None
  end.

(** The queue with its threads, their control, [g_start], the threads [main] has created, and
    whether its wait for them is over. *)
Record bench := mk_bench {
  bn_sys : system Z;
  bn_ctl : list bench_pc;
  bn_start : bool;
  bn_created : Z;
  bn_joined : bool
}.

Definition set_sys (y : system Z) (b : bench) : bench := mk_bench y (bn_ctl b) (bn_start b) (bn_created b) (bn_joined b).

Inductive bench_step (b : bench) : bench -> Prop :=
| main_create : bn_created b <> threads ->
    bench_step b (mk_bench (bn_sys b) (bn_ctl b) (bn_start b) (bn_created b + 1) (bn_joined b))
| main_go : bn_created b = threads -> bn_start b = false ->
    bench_step b (mk_bench (bn_sys b) (bn_ctl b) true (bn_created b) (bn_joined b))
| main_join : bn_start b = true -> Forall (eq BEnd) (bn_ctl b) ->
    bench_step b (mk_bench (bn_sys b) (bn_ctl b) (bn_start b) (bn_created b) true)
| bench_local t l c l' c' : Z.of_nat t < bn_created b -> bn_ctl b !! t = Some l -> sy_threads (bn_sys b) !! t = Some c ->
    thread_func (bn_start b) l c = Some (l', c') ->
    bench_step b (mk_bench (moved (bn_sys b) t c') (<[t := l']> (bn_ctl b)) (bn_start b) (bn_created b) (bn_joined b))
| bench_access t y' : Z.of_nat t < bn_created b -> access_by t (bn_sys b) y' -> bench_step b (set_sys y' b).

(** [main] before its loop, for the random pauses of the threads. *)
Definition bench_start (q : mpmc_bounded_queue Z) (pauses : list Z) : bench :=
  mk_bench (mpmc_start q (length pauses)) (BSpin <$> pauses) false 0 false.

(** ** The invariant *)

(** The call a thread is in belongs to its control. *)
Definition enqueues (v : Z) (c : pc Z) : Prop :=
  match c with
  | EnqLoad w | EnqSeq w _ | EnqCas w _ | EnqWrite w _ | EnqStore w _ => w = v
  | EnqDone _ => True
  | _ => False
  end.
Definition dequeues (c : pc Z) : Prop :=
  match c with DeqLoad | DeqSeq _ | DeqCas _ | DeqRead _ | DeqStore _ _ | DeqDone _ => True | _ => False end.

Definition ctl_ok (l : bench_pc) (c : pc Z) : Prop :=
  match l with
  | BSpin pause => 0 <= pause /\ at_rest c = true
  | BPause pause i => 0 <= i <= pause /\ at_rest c = true
  | BIter iter => 0 <= iter <= iters /\ at_rest c = true
  | BEnq iter i | BDeq iter i => 0 <= iter < iters /\ 0 <= i <= batch /\ at_rest c = true
  | BInEnq iter i => 0 <= iter < iters /\ 0 <= i < batch /\ enqueues i c
  | BInDeq iter i => 0 <= iter < iters /\ 0 <= i < batch /\ dequeues c
  | BEnd => at_rest c = true
  end.

(** How far a call is: its claim, and the two accesses behind it. *)
Definition stage (c : pc Z) : Z :=
  match c with
  | EnqWrite _ _ | DeqRead _ => 1
  | EnqStore _ _ | DeqStore _ _ => 2
  | EnqDone true | DeqDone (Some _) => 3
  | _ => 0
  end.
Definition claims (c : pc Z) : Z := if stage c =? 0 then 0 else 1.

(** The positions a thread has claimed so far. *)
Definition enqueued (l : bench_pc) (c : pc Z) : Z :=
  match l with
  | BSpin _ | BPause _ _ => 0
  | BIter iter => iter * batch
  | BEnq iter i => iter * batch + i
  | BInEnq iter i => iter * batch + i + claims c
  | BDeq iter _ | BInDeq iter _ => (iter + 1) * batch
  | BEnd => iters * batch
  end.
Definition dequeued (l : bench_pc) (c : pc Z) : Z :=
  match l with
  | BSpin _ | BPause _ _ => 0
  | BIter iter | BEnq iter _ | BInEnq iter _ => iter * batch
  | BDeq iter i => iter * batch + i
  | BInDeq iter i => iter * batch + i + claims c
  | BEnd => iters * batch
  end.

(** What a thread has left to do, in steps that count. *)
Definition work (l : bench_pc) (c : pc Z) : Z :=
  let round := 12 * batch + 4 in
  match l with
  | BSpin pause => iters * round + 3 + pause
  | BPause pause i => iters * round + 2 + (pause - i)
  | BIter iter => (iters - iter) * round + 1
  | BEnq iter i => (iters - iter - 1) * round + 12 * batch - 6 * i + 3
  | BInEnq iter i => (iters - iter - 1) * round + 12 * batch - 6 * i + 2 - stage c
  | BDeq iter i => (iters - iter - 1) * round + 6 * batch - 6 * i + 2
  | BInDeq iter i => (iters - iter - 1) * round + 6 * batch - 6 * i + 1 - stage c
  | BEnd => 0
  end.

(** The sum over all threads. *)
Definition over_threads (f : bench_pc -> pc Z -> Z) (b : bench) : Z := zsum (zip_with f (bn_ctl b) (sy_threads (bn_sys b))).

(** *** Steps of one thread *)

Lemma enqueue_counts i sp c c' q q' (acc : list Z) del : enqueues i c -> thread_step sp c q = Some (c', q') ->
  enqueues i c' /\ zlen (log_accepted c c' acc) = zlen acc + (claims c' - claims c) /\ dequeue_pos_ q' = dequeue_pos_ q /\
  log_delivered c del = del /\ (Forall (fun v => 0 <= v < batch) acc -> 0 <= i < batch -> Forall (fun v => 0 <= v < batch) (log_accepted c c' acc)).
Proof.
  unfold thread_step. destruct c as [|v|v pos|v pos|v pos|v pos|ok| |pos|pos|pos|pos v|r]; cbn; intros He Hs; try done; subst.
  - injection Hs as <- <-. cbn. split_and!; try done; lia.
  - destruct (cell_at q pos); [|done]. cbn in Hs. injection Hs as <- <-. zcases; cbn; split_and!; try done; lia.
  - unfold cas_enqueue in Hs. destruct (_ && _); injection Hs as <- <-; cbn; split_and!; try done; rewrite ?length_app; cbn; try lia.
    intros. by apply Forall_app_2; [|apply Forall_singleton].
  - destruct (cell_at q pos); [|done]. cbn in Hs. injection Hs as <- <-. cbn. split_and!; try done; lia.
  - destruct (cell_at q pos); [|done]. cbn in Hs. injection Hs as <- <-. cbn. split_and!; try done; lia.
Qed.

Lemma dequeue_counts sp c c' q q' (acc : list Z) : dequeues c -> thread_step sp c q = Some (c', q') -> 0 <= dequeue_pos_ q < 2 ^ 62 ->
  dequeues c' /\ log_accepted c c' acc = acc /\ dequeue_pos_ q' = dequeue_pos_ q + (claims c' - claims c).
Proof.
  unfold thread_step. destruct c as [|v|v pos|v pos|v pos|v pos|ok| |pos|pos|pos|pos v|r]; cbn; intros He Hs Hd; try done.
  - injection Hs as <- <-. cbn. split_and!; try done; lia.
  - destruct (cell_at q pos); [|done]. cbn in Hs. injection Hs as <- <-. zcases; cbn; split_and!; try done; lia.
  - unfold cas_dequeue in Hs. destruct (Z.eqb_spec (dequeue_pos_ q) pos) as [<-|]; [destruct sp|]; cbn in Hs; injection Hs as <- <-; cbn;
      split_and!; try done; try lia. apply u64_small. lia.
  - destruct (cell_at q pos); [|done]. cbn in Hs. injection Hs as <- <-. cbn. split_and!; try done; lia.
  - destruct (cell_at q pos); [|done]. cbn in Hs. injection Hs as <- <-. cbn. split_and!; try done; lia.
Qed.

Context (batch_pos : 0 < batch) (iters_nonneg : 0 <= iters).

Lemma claims_bound c : 0 <= claims c <= 1.
Proof using. clear batch_pos iters_nonneg. unfold claims. zcases; lia. Qed.

Lemma ctl_counts l c : ctl_ok l c -> 0 <= dequeued l c <= enqueued l c /\ enqueued l c <= iters * batch /\ enqueued l c <= dequeued l c + batch.
Proof using batch_pos iters_nonneg. pose proof (claims_bound c). destruct l; cbn; intros Hc; split_and!; nia. Qed.

Lemma thread_func_ok g l c l' c' : ctl_ok l c -> thread_func g l c = Some (l', c') ->
  ctl_ok l' c' /\ enqueued l' c' = enqueued l c /\ dequeued l' c' = dequeued l c /\
  (c' = c \/ at_rest c = true /\ (c' = DeqLoad \/ exists v, c' = EnqLoad v)).
Proof using batch_pos iters_nonneg.
  destruct l as [pause|pause i|iter|iter i|iter i|iter i|iter i|]; cbn; intros Hc Hs; try done.
  - injection Hs as <- <-. destruct g; cbn; split_and!; auto; intuition lia.
  - injection Hs as <- <-. zcases; cbn; split_and!; auto; intuition lia.
  - injection Hs as <- <-. zcases; cbn; split_and!; auto; subst; intuition lia.
  - injection Hs as Hs. destruct (Z.eqb_spec i batch) as [->|]; injection Hs as <- <-; cbn; split_and!; auto; intuition (eauto; lia).
  - destruct c; try done. destruct ok; injection Hs as <- <-; cbn; split_and!; auto; intuition (eauto; lia).
  - injection Hs as Hs. destruct (Z.eqb_spec i batch) as [->|]; injection Hs as <- <-; cbn; split_and!; auto; intuition (eauto; lia).
  - destruct c; try done. destruct r; injection Hs as <- <-; cbn; split_and!; auto; intuition (eauto; lia).
Qed.

(** *** All threads *)

Context (k : nat) (k_small : (1 <= k <= 62)%nat).
Context (cells_enough : threads * batch <= 2 ^ Z.of_nat k) (few_values : threads * (iters * batch) < 2 ^ 62).
Let n := 2 ^ Z.of_nat k.

Record bench_inv (b : bench) : Prop := {
  bi_queue : mpmc_inv n (bn_sys b);
  bi_owned : owned_inv (bn_sys b);
  bi_threads : length (bn_ctl b) = length (sy_threads (bn_sys b)) /\ zlen (bn_ctl b) = threads;
  bi_ctl t l c : bn_ctl b !! t = Some l -> sy_threads (bn_sys b) !! t = Some c -> ctl_ok l c;
  bi_enqueued : zlen (sy_accepted (bn_sys b)) = over_threads enqueued b;
  bi_dequeued : dequeue_pos_ (sy_queue (bn_sys b)) = over_threads dequeued b;
  bi_values : Forall (fun v => 0 <= v < batch) (sy_accepted (bn_sys b));
  bi_main : 0 <= bn_created b <= threads /\ (bn_start b = true -> bn_created b = threads) /\
    (bn_joined b = true -> bn_start b = true /\ Forall (eq BEnd) (bn_ctl b))
}.

Lemma over_threads_insert f b t l c l' c' y g cr j :
  bn_ctl b !! t = Some l -> sy_threads (bn_sys b) !! t = Some c -> sy_threads y = <[t := c']> (sy_threads (bn_sys b)) ->
  over_threads f (mk_bench y (<[t := l']> (bn_ctl b)) g cr j) = over_threads f b - f l c + f l' c'.
Proof using.
  clear. intros Hl Hc Hy. unfold over_threads. cbn. rewrite Hy, <- insert_zip_with. apply zsum_insert.
  by rewrite lookup_zip_with, Hl, Hc.
Qed.

Lemma over_threads_bounds f lo hi b : bench_inv b -> (forall l c, ctl_ok l c -> lo <= f l c <= hi) ->
  threads * lo <= over_threads f b <= threads * hi.
Proof using.
  clear. intros Hb Hf. destruct (bi_threads b Hb) as [Hl Ht]. unfold over_threads.
  replace threads with (zlen (zip_with f (bn_ctl b) (sy_threads (bn_sys b)))) by (rewrite length_zip_with; lia).
  apply zsum_bounds, Forall_lookup. intros t x Hx. apply lookup_zip_with_Some in Hx as (l&c&->&Hl'&Hc). by apply Hf, (bi_ctl b Hb t).
Qed.

Lemma accepted_small b : bench_inv b -> zlen (sy_accepted (bn_sys b)) < 2 ^ 62.
Proof using All.
  intros Hb. rewrite (bi_enqueued b Hb). pose proof (over_threads_bounds enqueued 0 (iters * batch) b Hb) as H.
  assert (forall l c, ctl_ok l c -> 0 <= enqueued l c <= iters * batch) as Hc by (intros l c Hc; pose proof (ctl_counts l c Hc); lia).
  specialize (H Hc). lia.
Qed.

(** A step of the queue keeps its invariants as long as the counts stay in bounds. *)
Lemma queue_inv_step (y y' : system Z) : mpmc_inv n y -> owned_inv y -> zlen (sy_accepted y) < 2 ^ 62 -> mpmc_step y y' ->
  zlen (sy_accepted y') < 2 ^ 62 -> mpmc_inv n y' /\ owned_inv y'.
Proof using All.
  intros Hy Ho Hb Hs Hb'. pose proof (size_bounds k k_small) as [? ?]. split.
  - by eapply (mpmc_step_inv n k eq_refl).
  - by eapply (mpmc_step_owned n k eq_refl).
Qed.

(** One thread has moved, from [l] and [c] to [l'] and [c']. *)
Lemma bench_inv_thread b t l c l' c' y' : bench_inv b -> bn_ctl b !! t = Some l -> sy_threads (bn_sys b) !! t = Some c ->
  sy_threads y' = <[t := c']> (sy_threads (bn_sys b)) -> ctl_ok l' c' -> l <> BEnd ->
  mpmc_step (bn_sys b) y' \/ y' = bn_sys b ->
  zlen (sy_accepted y') = zlen (sy_accepted (bn_sys b)) + (enqueued l' c' - enqueued l c) ->
  dequeue_pos_ (sy_queue y') = dequeue_pos_ (sy_queue (bn_sys b)) + (dequeued l' c' - dequeued l c) ->
  Forall (fun v => 0 <= v < batch) (sy_accepted y') ->
  bench_inv (mk_bench y' (<[t := l']> (bn_ctl b)) (bn_start b) (bn_created b) (bn_joined b)).
Proof using All.
  intros Hb Hl Hc Hy Hok Hne Hs HE HD Hv. pose proof (accepted_small b Hb) as Hsm. destruct (bi_threads b Hb) as [Hlen Hthr].
  pose proof (over_threads_insert enqueued b t l c l' c' y' (bn_start b) (bn_created b) (bn_joined b) Hl Hc Hy) as HEs.
  pose proof (over_threads_insert dequeued b t l c l' c' y' (bn_start b) (bn_created b) (bn_joined b) Hl Hc Hy) as HDs.
  set (b' := mk_bench y' _ _ _ _) in *.
  assert (Hctl : forall t1 l1 c1, bn_ctl b' !! t1 = Some l1 -> sy_threads y' !! t1 = Some c1 -> ctl_ok l1 c1).
  { intros t1 l1 c1 H1 H2. rewrite Hy in H2. apply list_lookup_insert_Some in H1 as [(<-&<-&_)|(Hne1&H1)].
    - rewrite list_lookup_insert_eq in H2 by (by eapply lookup_lt_Some). by injection H2 as <-.
    - rewrite list_lookup_insert_ne in H2 by done. by eapply (bi_ctl b Hb t1). }
  assert (Hq : mpmc_inv n y' /\ owned_inv y').
  { destruct Hs as [Hs| ->]; [|split; apply Hb]. eapply queue_inv_step; [apply Hb|apply Hb|done|done|].
    rewrite HE, (bi_enqueued b Hb).
    assert (over_threads enqueued b' <= threads * (iters * batch)); [|lia].
    replace threads with (zlen (zip_with enqueued (bn_ctl b') (sy_threads y'))).
    2:{ rewrite length_zip_with, Hy. cbn. rewrite !length_insert. lia. }
    apply (zsum_bounds _ 0), Forall_lookup. intros t1 x Hx. apply lookup_zip_with_Some in Hx as (l1&c1&->&Hl1&Hc1).
    pose proof (ctl_counts l1 c1 (Hctl _ _ _ Hl1 Hc1)). lia. }
  destruct (bi_main b Hb) as (Hm1&Hm2&Hm3). split; cbn [bn_sys bn_ctl bn_start bn_created bn_joined b']; try done; try apply Hq.
  - rewrite Hy, !length_insert. done.
  - rewrite HE, HEs, (bi_enqueued b Hb). lia.
  - rewrite HD, HDs, (bi_dequeued b Hb). lia.
  - split_and!; [lia|lia|done|]. intros Hj. destruct (Hm3 Hj) as [Hst Hend]. split; [done|].
    destruct Hne. symmetry. by eapply (Forall_lookup_1 (eq BEnd)).
Qed.

Lemma rest_no_access sp (c : pc Z) q : at_rest c = true -> thread_step sp c q = None.
Proof using. by destruct c. Qed.

Lemma bench_access_inv b t y' : bench_inv b -> access_by t (bn_sys b) y' -> bench_inv (set_sys y' b).
Proof using All.
  intros Hb Ha. pose proof (accepted_small b Hb) as Hsm. pose proof (bi_queue b Hb) as Hq. destruct (bi_threads b Hb) as [Hlen _].
  pose proof Ha as Hstep%rtc_once%access_by_steps. destruct Ha as [c c' q' sp Hc Hs]. set (y' := mk_system q' _ _ _) in *.
  assert (Hstep' : mpmc_step (bn_sys b) y') by (by eapply step_access).
  destruct (lookup_lt_is_Some_2 (bn_ctl b) t) as [l Hl]; [rewrite Hlen; by eapply lookup_lt_Some|].
  pose proof (bi_ctl b Hb t l c Hl Hc) as Hok. pose proof (inv_order n _ Hq) as Hord. pose proof (inv_accepted n _ Hq).
  assert (Hlive : at_rest c <> true) by (intros Hr; by rewrite rest_no_access in Hs).
  unfold set_sys. rewrite <- (list_insert_id (bn_ctl b) t l Hl) at 1.
  destruct l as [| | | |iter i| |iter i|]; cbn [ctl_ok] in Hok; try (by destruct Hlive; apply Hok).
  - destruct Hok as (Hi1&Hi2&He).
    destruct (enqueue_counts i sp c c' _ q' (sy_accepted (bn_sys b)) (sy_delivered (bn_sys b)) He Hs) as (He'&HE&HD&_&Hv).
    eapply (bench_inv_thread b t _ c _ c'); [done|done|done|done|done|done|by left| | |apply Hv; [apply Hb|done]];
      cbn [enqueued dequeued y' sy_accepted sy_queue]; lia.
  - destruct Hok as (Hi1&Hi2&He).
    destruct (dequeue_counts sp c c' _ q' (sy_accepted (bn_sys b)) He Hs ltac:(lia)) as (He'&HE&HD).
    eapply (bench_inv_thread b t _ c _ c'); [done|done|done|done|done|done|by left| | |cbn; rewrite HE; apply Hb];
      cbn [enqueued dequeued y' sy_accepted sy_queue]; rewrite ?HE; lia.
Qed.

Lemma bench_step_inv b b' : bench_inv b -> bench_step b b' -> bench_inv b'.
Proof using All.
  intros Hb Hs. pose proof (bi_main b Hb) as (Hm1&Hm2&Hm3).
  destruct Hs as [Hcr|Hcr Hst|Hst Hend|t l c l' c' Ht Hl Hc Hf|t y' Ht Ha].
  - destruct Hb. split; cbn; try done. split_and!; [lia|lia| |done]. intros Hst. by destruct Hcr, (Hm2 Hst).
  - destruct Hb. split; cbn; try done. split_and!; [lia|lia|done|]. intros Hj. by destruct (Hm3 Hj).
  - destruct Hb. split; cbn; try done.
  - pose proof (bi_ctl b Hb t l c Hl Hc) as Hok. destruct (thread_func_ok _ _ _ _ _ Hok Hf) as (Hok'&HE&HD&Hcall).
    eapply (bench_inv_thread b t l c l' c'); [done|done|done|done|done| | |cbn; lia|cbn; lia|apply Hb].
    + by intros ->.
    + destruct Hcall as [->|[Hr Hc']]; [right; by apply moved_self|left]. by eapply step_call.
  - by eapply bench_access_inv.
Qed.

Lemma bench_start_inv q pauses : mpmc_new true n = Ok q -> zlen pauses = threads -> Forall (fun p => 0 <= p) pauses ->
  bench_inv (bench_start q pauses).
Proof using All.
  intros Hq Hlen Hp. pose proof (size_bounds k k_small) as [? ?]. assert (Hpos : enqueue_pos_ q = 0 /\ dequeue_pos_ q = 0).
  { unfold mpmc_new in Hq. destruct (true && _); [done|]. by injection Hq as <-. }
  assert (Hz : forall f, (forall p, f (BSpin p) Idle = 0) -> over_threads f (bench_start q pauses) = 0).
  { intros f Hf. unfold over_threads. cbn. clear -Hf. induction pauses as [|p ps IH]; cbn; [done|]. rewrite Hf, IH. done. }
  split; cbn.
  - by apply (mpmc_start_inv n k).
  - by apply start_owned; apply Hpos.
  - rewrite length_fmap, length_replicate. done.
  - intros t l c Hl Hc. apply list_lookup_fmap_Some in Hl as (p&->&Hpt). apply lookup_replicate in Hc as [-> _]. cbn. split; [|done].
    by eapply (Forall_lookup_1 (fun p => 0 <= p)).
  - symmetry. by apply Hz.
  - etrans; [apply Hpos|]. symmetry. by apply Hz.
  - done.
  - split_and!; [done|lia|done|done].
Qed.

(** *** Progress *)

Definition rank (b : bench) : Z :=
  over_threads work b + (threads - bn_created b) + (if bn_start b then 0 else 1) + (if bn_joined b then 0 else 1).

Lemma stage_bound c : 0 <= stage c <= 3.
Proof using. clear. destruct c as [| | | | | |[]| | | | | |[]]; cbn; lia. Qed.

Lemma work_nonneg l c : ctl_ok l c -> 0 <= work l c.
Proof using batch_pos iters_nonneg. clear - batch_pos iters_nonneg. pose proof (stage_bound c). destruct l; cbn; intros Hc; nia. Qed.

Lemma rank_nonneg b : bench_inv b -> 0 <= rank b.
Proof using All.
  intros Hb. destruct (bi_main b Hb) as (Hm&_). unfold rank. assert (0 <= over_threads work b).
  { unfold over_threads. assert (forall l, Forall (fun x => 0 <= x) l -> 0 <= zsum l) as Hs by (clear; induction 1; cbn; lia).
    apply Hs, Forall_lookup. intros t x Hx. apply lookup_zip_with_Some in Hx as (l&c&->&Hl&Hc).
    by apply work_nonneg, (bi_ctl b Hb t). }
  destruct (bn_start b), (bn_joined b); lia.
Qed.

Definition goes_down (b : bench) : Prop := exists b', rtc bench_step b b' /\ bench_inv b' /\ rank b' < rank b.

(** A thread gets on with its work. *)
Lemma thread_goes_down b t l c l' c' y' : bench_inv b -> bn_ctl b !! t = Some l -> sy_threads (bn_sys b) !! t = Some c ->
  sy_threads y' = <[t := c']> (sy_threads (bn_sys b)) -> work l' c' < work l c ->
  rtc bench_step b (mk_bench y' (<[t := l']> (bn_ctl b)) (bn_start b) (bn_created b) (bn_joined b)) -> goes_down b.
Proof using All.
  intros Hb Hl Hc Hy Hw Hr. eexists. split_and!; [exact Hr| |].
  - by eapply (rtc_invariant bench_step bench_inv); [apply bench_step_inv| |].
  - unfold rank. cbn [bn_created bn_start bn_joined]. rewrite (over_threads_insert work b t l c l' c') by done. lia.
Qed.

Lemma lift_access b t y' : Z.of_nat t < bn_created b -> rtc (access_by t) (bn_sys b) y' -> rtc bench_step b (set_sys y' b).
Proof using.
  clear. intros Ht Hr. remember (bn_sys b) as y eqn:Hy. revert b Ht Hy. induction Hr as [y|y y1 y2 Hs _ IH]; intros b Ht ->.
  - by destruct b.
  - eapply rtc_l; [by apply (bench_access b t)|]. by apply (IH (set_sys y1 b)).
Qed.

(** Outside a call, and after a successful one, the thread's own step is progress. *)
Lemma local_works l c l' c' : ctl_ok l c -> thread_func true l c = Some (l', c') ->
  (stage c = 3 \/ match l with BInEnq _ _ | BInDeq _ _ => False | _ => True end) -> work l' c' < work l c.
Proof using batch_pos iters_nonneg.
  clear - batch_pos iters_nonneg. destruct l as [pause|pause i|iter|iter i|iter i|iter i|iter i|]; cbn; intros Hc Hs Hst; try done.
  - injection Hs as <- <-. cbn. lia.
  - injection Hs as <- <-. zcases; cbn; nia.
  - injection Hs as <- <-. zcases; cbn; nia.
  - injection Hs as Hs. destruct (Z.eqb_spec i batch) as [->|]; injection Hs as <- <-; cbn; nia.
  - destruct c; try done. destruct ok; injection Hs as <- <-; cbn in *; lia.
  - injection Hs as Hs. destruct (Z.eqb_spec i batch) as [->|]; injection Hs as <- <-; cbn; nia.
  - destruct c; try done. destruct r; injection Hs as <- <-; cbn in *; lia.
Qed.

(** Behind a claim, the next access is progress. *)
Lemma access_works l c sp c' q q' : ctl_ok l c -> 0 < stage c < 3 -> thread_step sp c q = Some (c', q') -> work l c' < work l c.
Proof using.
  clear. intros Hc Hst Hs. assert (Hs' : stage c' = stage c + 1).
  { unfold thread_step in Hs. destruct c as [|v|v pos|v pos|v pos|v pos|[]| |pos|pos|pos|pos v|[]]; cbn in Hst, Hs; try lia;
      (destruct (cell_at q pos); [|done]); cbn in Hs; by injection Hs as <- <-. }
  destruct l; cbn in *; try lia; exfalso; by destruct c as [| | | | | |[]| | | | | |[]]; cbn in *; lia || intuition.
Qed.

(** The values in the queue, thread by thread. *)
Lemma over_threads_sub f g b : over_threads (fun l c => f l c - g l c) b = over_threads f b - over_threads g b.
Proof using.
  clear. unfold over_threads. generalize (sy_threads (bn_sys b)). induction (bn_ctl b) as [|l ls IH]; intros [|c cs]; cbn; [lia..|].
  rewrite IH. lia.
Qed.

Lemma held_bounds b t l c : bench_inv b -> bn_ctl b !! t = Some l -> sy_threads (bn_sys b) !! t = Some c ->
  enqueued l c - dequeued l c <= enqueue_pos_ (sy_queue (bn_sys b)) - dequeue_pos_ (sy_queue (bn_sys b))
    <= (threads - 1) * batch + (enqueued l c - dequeued l c).
Proof using All.
  intros Hb Hl Hc. rewrite <- (inv_accepted n _ (bi_queue b Hb)), (bi_enqueued b Hb), (bi_dequeued b Hb), <- over_threads_sub.
  destruct (bi_threads b Hb) as [Hlen Ht]. unfold over_threads. set (held := zip_with _ _ _).
  assert (Hz : zlen held = threads) by (unfold held; rewrite length_zip_with; lia).
  pose proof (zsum_bounds_at held t (enqueued l c - dequeued l c) 0 batch) as Hs. rewrite Hz in Hs.
  rewrite Z.mul_0_r, Z.add_0_l in Hs. apply Hs; [|unfold held; by rewrite lookup_zip_with, Hl, Hc].
  apply Forall_lookup. intros t1 x Hx. apply lookup_zip_with_Some in Hx as (l1&c1&->&Hl1&Hc1).
  pose proof (ctl_counts l1 c1 (bi_ctl b Hb t1 l1 c1 Hl1 Hc1)). lia.
Qed.

Lemma quiet_stages b : ~ Exists (fun c => 0 < stage c < 3) (sy_threads (bn_sys b)) -> quiet (bn_sys b).
Proof using.
  clear. intros Hq t c Hc. assert (~ 0 < stage c < 3) as Hs.
  { intros Hs. apply Hq, Exists_exists. exists c. split; [by eapply list_elem_of_lookup_2|done]. }
  destruct c; cbn in *; done || lia.
Qed.

Lemma started_created b t l : bench_inv b -> bn_start b = true -> bn_ctl b !! t = Some l -> Z.of_nat t < bn_created b.
Proof using.
  clear. intros Hb Hst Hl. destruct (bi_main b Hb) as (_&Hcr&_), (bi_threads b Hb) as [_ Hthr]. rewrite (Hcr Hst).
  apply lookup_lt_Some in Hl. lia.
Qed.

(** A thread that has not claimed is on its way to, or calls again. *)
Lemma tries_again b t l c again (wants : pc Z -> Prop) : bench_inv b -> Z.of_nat t < bn_created b ->
  bn_ctl b !! t = Some l -> sy_threads (bn_sys b) !! t = Some c ->
  wants c \/ thread_func (bn_start b) l c = Some (l, again) -> wants again -> thread_ok (sy_accepted (bn_sys b)) (sy_queue (bn_sys b)) again ->
  exists c1, rtc bench_step b (set_sys (moved (bn_sys b) t c1) b) /\ wants c1 /\ thread_ok (sy_accepted (bn_sys b)) (sy_queue (bn_sys b)) c1.
Proof using.
  clear. intros Hb Ht Hl Hc Hor Hw Hok. destruct Hor as [Hwc|Hf].
  - exists c. rewrite moved_self by done. split_and!; [by destruct b|done|by eapply thread_inv; [apply Hb|]].
  - exists again. split_and!; [apply rtc_once|done|done]. pose proof (bench_local b t _ _ _ _ Ht Hl Hc Hf) as Hstep.
    by rewrite list_insert_id in Hstep.
Qed.

(** In a queue at peace, a thread that wants to enqueue gets to its claim, and so does one that
    wants to dequeue. *)
Lemma enqueue_goes_down b t iter i c : bench_inv b -> quiet (bn_sys b) -> bn_start b = true ->
  bn_ctl b !! t = Some (BInEnq iter i) -> sy_threads (bn_sys b) !! t = Some c -> stage c = 0 -> goes_down b.
Proof using All.
  intros Hb Hq Hst Hl Hc Hs0. pose proof (bi_ctl b Hb t _ c Hl Hc) as (Hi1&Hi2&He). pose proof (bi_queue b Hb) as Hy.
  pose proof (size_bounds k k_small) as [? ?]. pose proof (accepted_small b Hb) as Hsm.
  pose proof (started_created b t _ Hb Hst Hl) as Ht.
  pose proof (held_bounds b t _ c Hb Hl Hc) as Hheld. cbn in Hheld. unfold claims in Hheld. rewrite Hs0 in Hheld. cbn in Hheld.
  destruct (tries_again b t (BInEnq iter i) c (EnqLoad i) (wants_enqueue i)) as (c1&Hr1&Hw&Hok); [done..| |by left|done|].
  { destruct c as [|v|v pos|v pos|v pos|v pos|[]| |pos|pos|pos|pos v|r]; cbn in He, Hs0; subst; try done; unfold wants_enqueue; eauto. }
  pose proof (claim_enqueue n k eq_refl ltac:(done) ltac:(done) (bn_sys b) t c Hy Hsm (bi_owned b Hb) Hc i c1 Hq ltac:(unfold n; nia) Hw Hok) as Hr2.
  eapply (thread_goes_down b t (BInEnq iter i) c (BInEnq iter i) _ (enqueue_claimed (bn_sys b) t i)); [done|done|done|reflexivity|cbn; lia|].
  rewrite list_insert_id by done. etrans; [exact Hr1|]. by apply (lift_access (set_sys _ b) t).
Qed.

Lemma dequeue_goes_down b t iter i c : bench_inv b -> quiet (bn_sys b) -> bn_start b = true ->
  bn_ctl b !! t = Some (BInDeq iter i) -> sy_threads (bn_sys b) !! t = Some c -> stage c = 0 -> goes_down b.
Proof using All.
  intros Hb Hq Hst Hl Hc Hs0. pose proof (bi_ctl b Hb t _ c Hl Hc) as (Hi1&Hi2&He). pose proof (bi_queue b Hb) as Hy.
  pose proof (size_bounds k k_small) as [? ?]. pose proof (accepted_small b Hb) as Hsm.
  pose proof (started_created b t _ Hb Hst Hl) as Ht.
  pose proof (held_bounds b t _ c Hb Hl Hc) as Hheld. cbn in Hheld. unfold claims in Hheld. rewrite Hs0 in Hheld. cbn in Hheld.
  destruct (tries_again b t (BInDeq iter i) c (DeqLoad) (wants_dequeue)) as (c1&Hr1&Hw&Hok); [done..| |by left|done|].
  { destruct c as [|v|v pos|v pos|v pos|v pos|ok| |pos|pos|pos|pos v|[]]; cbn in He, Hs0; subst; try done; unfold wants_dequeue; eauto. }
  pose proof (claim_dequeue n k eq_refl ltac:(done) ltac:(done) (bn_sys b) t c Hy Hsm (bi_owned b Hb) Hc c1 Hq ltac:(lia) Hw Hok) as Hr2.
  eapply (thread_goes_down b t (BInDeq iter i) c (BInDeq iter i) _ (dequeue_claimed (bn_sys b) t)); [done|done|done|reflexivity|cbn; lia|].
  rewrite list_insert_id by done. etrans; [exact Hr1|]. by apply (lift_access (set_sys _ b) t).
Qed.

(** Until [main] has returned from its wait, some step brings the end nearer. *)
Lemma unfinished_goes_down b t l : bench_inv b -> bn_start b = true -> bn_ctl b !! t = Some l -> l <> BEnd -> goes_down b.
Proof using All.
  intros Hb Hst Hl Hne. pose proof (bi_queue b Hb) as Hy. destruct (bi_threads b Hb) as [Hlen _].
  pose proof (size_bounds k k_small) as [? ?].
  destruct (decide (Exists (fun c => 0 < stage c < 3) (sy_threads (bn_sys b)))) as [Hex|Hno].
  - apply Exists_exists in Hex as (c&[t1 Hc]%list_elem_of_lookup_1&Hs).
    destruct (lookup_lt_is_Some_2 (bn_ctl b) t1) as [l1 Hl1]; [rewrite Hlen; by eapply lookup_lt_Some|].
    destruct (thread_step_some n k (bn_sys b) false c eq_refl ltac:(done) Hy) as [[c' q'] Hstep]; [by destruct c as [| | | | | |[]| | | | | |[]]; cbn in *; lia|].
    eapply (thread_goes_down b t1 l1 c l1 c' (mk_system q' _ _ _)); [done|done|done|reflexivity|by eapply access_works; [eapply (bi_ctl b Hb t1)|..]|].
    apply rtc_once. rewrite (list_insert_id (bn_ctl b) t1 l1) by done. apply (bench_access b t1); [by eapply started_created|by eapply access_one].
  - pose proof (quiet_stages b Hno) as Hq. destruct (lookup_lt_is_Some_2 (sy_threads (bn_sys b)) t) as [c Hc]; [rewrite <- Hlen; by eapply lookup_lt_Some|].
    pose proof (bi_ctl b Hb t l c Hl Hc) as Hok. assert (Hs : stage c = 0 \/ stage c = 3).
    { pose proof (stage_bound c). assert (~ 0 < stage c < 3); [|lia]. intros Hs. apply Hno, Exists_exists. exists c.
      split; [by eapply list_elem_of_lookup_2|done]. }
    assert (Hlocal : (stage c = 3 \/ match l with BInEnq _ _ | BInDeq _ _ => False | _ => True end) -> goes_down b).
    { intros Hw. assert (exists l' c', thread_func true l c = Some (l', c')) as (l'&c'&Hf).
      { destruct l as [| | |iter i|iter i|iter i|iter i|]; cbn; eauto; [destruct (i =? batch); eauto| |destruct (i =? batch); eauto| |done];
          cbn in Hok; destruct Hw as [Hw|[]]; destruct c as [| | | | | |[]| | | | | |[]]; cbn in *; eauto; lia || tauto. }
      eapply (thread_goes_down b t l c l' c' (moved (bn_sys b) t c')); [done|done|done|reflexivity|by eapply local_works|].
      apply rtc_once. eapply (bench_local b t l c l' c'); [by eapply started_created|done|done|by rewrite Hst]. }
    destruct l; try (by apply Hlocal; right); (destruct Hs as [Hs|Hs]; [|apply Hlocal; by left]).
    + by eapply enqueue_goes_down.
    + by eapply dequeue_goes_down.
Qed.

Lemma bench_goes_down b : bench_inv b -> bn_joined b = true \/ goes_down b.
Proof using All.
  intros Hb. destruct (bn_joined b) eqn:Hj; [by left|right]. pose proof (bi_main b Hb) as (Hcr&Hst&_).
  assert (Hmain : forall b', bench_step b b' -> rank b' < rank b -> goes_down b).
  { intros b' Hs Hrk. exists b'. split_and!; [by apply rtc_once|by eapply bench_step_inv|done]. }
  destruct (decide (bn_created b = threads)) as [Hall|Hmore]; [|eapply Hmain; [by apply main_create|unfold rank, over_threads; cbn; lia]].
  destruct (bn_start b) eqn:Hs; [|eapply Hmain; [by apply main_go|unfold rank, over_threads; cbn; rewrite Hs; lia]].
  destruct (decide (Forall (eq BEnd) (bn_ctl b))) as [Hend|Hrun].
  - eapply Hmain; [by apply main_join|]. unfold rank, over_threads. cbn. rewrite Hj, Hs. lia.
  - apply not_Forall_Exists, Exists_exists in Hrun as (l&[t Hl]%list_elem_of_lookup_1&Hne); [|apply _].
    eapply unfinished_goes_down; [done|done|exact Hl|]. by intros ->.
Qed.

Lemma bench_ends b : bench_inv b -> exists b', rtc bench_step b b' /\ bench_inv b' /\ bn_joined b' = true.
Proof using All. apply (rtc_descends bench_step bench_inv _ rank rank_nonneg bench_goes_down). Qed.

(** What is there at the end. *)
Lemma joined_counts b : bench_inv b -> bn_joined b = true ->
  zlen (sy_accepted (bn_sys b)) = threads * (iters * batch) /\ dequeue_pos_ (sy_queue (bn_sys b)) = threads * (iters * batch) /\
  (sy_delivered (bn_sys b)).*2 ≡ₚ Some <$> sy_accepted (bn_sys b).
Proof using All.
  intros Hb Hj. destruct (bi_main b Hb) as (_&_&Hm), (bi_threads b Hb) as [Hlen Ht]. destruct (Hm Hj) as [_ Hend].
  assert (Hsum : forall f v, (forall c, f BEnd c = v) -> over_threads f b = threads * v).
  { intros f v Hf. pose proof (zsum_bounds (zip_with f (bn_ctl b) (sy_threads (bn_sys b))) v v) as Hz.
    rewrite length_zip_with in Hz. unfold over_threads. assert (threads * v <= zsum (zip_with f (bn_ctl b) (sy_threads (bn_sys b))) <= threads * v); [|lia].
    replace threads with (Z.of_nat (length (bn_ctl b) `min` length (sy_threads (bn_sys b)))) by lia. apply Hz, Forall_lookup.
    intros t x Hx. apply lookup_zip_with_Some in Hx as (l&c&->&Hl&Hc). rewrite <- (Forall_lookup_1 _ _ _ _ Hend Hl), Hf. lia. }
  rewrite (bi_enqueued b Hb), (bi_dequeued b Hb), !(Hsum _ (iters * batch)) by done. split_and!; [done|done|].
  rewrite (rest_delivered n _ (bi_queue b Hb)).
  - rewrite (bi_dequeued b Hb), (Hsum _ (iters * batch)) by done. rewrite take_ge; [done|].
    pose proof (bi_enqueued b Hb) as HE. rewrite (Hsum _ (iters * batch)) in HE by done. lia.
  - apply Forall_lookup. intros t c Hc. destruct (lookup_lt_is_Some_2 (bn_ctl b) t) as [l Hl]; [rewrite Hlen; by eapply lookup_lt_Some|].
    pose proof (bi_ctl b Hb t l c Hl Hc) as Hok. by rewrite <- (Forall_lookup_1 _ _ _ _ Hend Hl) in Hok.
Qed.
End Bench.

(** C18. The benchmark of mpmc_queue.hpp can always be completed.  In every state its four threads
    reach, under every interleaving and whatever their pauses: there are never more than four
    values in the queue; some continuation brings all threads to their end and [main] out of its
    wait, so no choice of the scheduler up to now can have blocked it; and when [main] has waited,
    eight million values were enqueued, all of them 0, each was dequeued, and the queue is empty. *)
Theorem bench_completes (q : mpmc_bounded_queue Z) (pauses : list Z) (b : bench) :
  mpmc_new true bench_cells = Ok q -> zlen pauses = thread_count -> Forall (fun p => 0 <= p < 1000) pauses ->
  rtc (bench_step thread_count batch_size iter_count) (bench_start q pauses) b ->
  let E := enqueue_pos_ (sy_queue (bn_sys b)) in let D := dequeue_pos_ (sy_queue (bn_sys b)) in
  0 <= E - D <= 4 /\
  (exists b', rtc (bench_step thread_count batch_size iter_count) b b' /\ bn_joined b' = true) /\
  (bn_joined b = true ->
     zlen (sy_accepted (bn_sys b)) = 8000000 /\ Forall (eq 0) (sy_accepted (bn_sys b)) /\
     (sy_delivered (bn_sys b)).*2 ≡ₚ Some <$> sy_accepted (bn_sys b) /\ E = D).
Proof.
  intros Hq Hlen Hp Hr E D. pose (I := bench_inv thread_count batch_size iter_count 10).
  assert (Hb : I b).
  { refine (rtc_invariant _ I _ _ _ _ Hr).
    - apply bench_step_inv; unfold thread_count, batch_size, iter_count; lia.
    - apply bench_start_inv; [unfold thread_count, batch_size, iter_count; lia..|done|done|]. eapply Forall_impl; [exact Hp|]. cbn. lia. }
  pose proof (inv_order _ _ (bi_queue _ _ _ _ b Hb)) as Hord. pose proof (inv_accepted _ _ (bi_queue _ _ _ _ b Hb)) as HE. split_and!.
  - unfold E, D. lia.
  - destruct (bi_threads _ _ _ _ b Hb) as [Hl1 Hl2]. destruct (bn_ctl b) as [|l ls] eqn:Hl; [done|].
    destruct (sy_threads (bn_sys b)) as [|c cs] eqn:Hc; [done|].
    pose proof (held_bounds thread_count batch_size iter_count ltac:(done) ltac:(done) 10 ltac:(lia) ltac:(done) ltac:(done) b 0 l c Hb) as Hh.
    rewrite Hl, Hc in Hh. specialize (Hh eq_refl eq_refl).
    pose proof (ctl_counts batch_size iter_count ltac:(done) ltac:(done) l c) as Hcc.
    assert (Hok : ctl_ok batch_size iter_count l c) by (apply (bi_ctl _ _ _ _ b Hb 0); [by rewrite Hl|by rewrite Hc]).
    specialize (Hcc Hok). unfold E, D, thread_count, batch_size in *. lia.
  - destruct (bench_ends thread_count batch_size iter_count ltac:(done) ltac:(done) 10 ltac:(lia) ltac:(done) ltac:(done) b Hb) as (b'&?&_&?). by exists b'.
  - intros Hj. destruct (joined_counts thread_count batch_size iter_count ltac:(done) ltac:(done) 10 ltac:(lia) ltac:(done) ltac:(done) b Hb Hj) as (H1&H2&H3).
    split_and!; [exact H1| |done|unfold E, D; lia].
    eapply Forall_impl; [exact (bi_values _ _ _ _ b Hb)|]. unfold batch_size. cbn. lia.
Qed.

(** The program from its first line. *)
Definition bench_queue : mpmc_bounded_queue Z :=
  mk_mpmc ((fun i => mk_cell i None) <$> seqZ 0 1024) 1023 0 0.

Lemma bench_completes_witness :
  exists b', rtc (bench_step thread_count batch_size iter_count) (bench_start bench_queue [500; 0; 999; 3]) b' /\ bn_joined b' = true.
Proof.
  refine (proj1 (proj2 (bench_completes bench_queue [500; 0; 999; 3] (bench_start bench_queue [500; 0; 999; 3]) _ _ _ _))).
  - vm_compute. reflexivity.
  - reflexivity.
  - repeat constructor; lia.
  - apply rtc_refl.
Defined.
