(* ===== verification/SpscLinked.v ===== *)
(** * libs/spscqueue.h: the unbounded queue for one producer and one consumer

    A linked list of nodes from [first_] over [tail_] to [head_]: the nodes before [tail_] are a
    cache the producer takes its nodes from, the ones behind it hold the values.  A null or
    dangling pointer that is followed is undefined ([None]). *)

From S2P Require Import Prelude Heap.

Section SpscLinked.
Context {T : Type}.

(** [value_] is not initialised by [new node]. *)
Record node := mk_node { next_ : option ptr; value_ : option T }.

Record SPSCQueue := mk_SPSCQueue {
  nodes : heap node;
  tail_ : ptr;
  head_ : ptr;
  first_ : ptr;
  tail_copy_ : ptr
}.

Definition SPSCQueue_new : SPSCQueue :=
  let '(n, h) := heap_new (mk_node None None) heap_empty in mk_SPSCQueue h n n n n.

(** ** The producer *)

(** [node* n = first_; first_ = first_->next_; return n;] *)
Definition take_cached (q : SPSCQueue) : option (ptr * SPSCQueue) :=
  nd ← heap_get (nodes q) (first_ q);
  nx ← next_ nd;
  Some (first_ q, mk_SPSCQueue (nodes q) (tail_ q) (head_ q) nx (tail_copy_ q)).

(** [tail_copy_ = load_consume(&tail_);] *)
Definition copy_tail (q : SPSCQueue) : SPSCQueue :=
  mk_SPSCQueue (nodes q) (tail_ q) (head_ q) (first_ q) (tail_ q).

(** The second test and the allocation of a node. *)
Definition cached_or_new (q : SPSCQueue) : option (ptr * SPSCQueue) :=
  if decide (first_ q <> tail_copy_ q) then take_cached q
  else let '(n, h) := heap_new (mk_node None None) (nodes q) in
       Some (n, mk_SPSCQueue h (tail_ q) (head_ q) (first_ q) (tail_copy_ q)).

Definition alloc_node (q : SPSCQueue) : option (ptr * SPSCQueue) :=
  if decide (first_ q <> tail_copy_ q) then take_cached q else cached_or_new (copy_tail q).

(** [n->next_ = 0; n->value_ = v;] *)
Definition init_node (n : ptr) (v : T) (q : SPSCQueue) : option SPSCQueue :=
  h ← heap_set n (mk_node None (Some v)) (nodes q);
  Some (mk_SPSCQueue h (tail_ q) (head_ q) (first_ q) (tail_copy_ q)).

(** [store_release(&head_->next_, n);] *)
Definition link_node (n : ptr) (q : SPSCQueue) : option SPSCQueue :=
  nd ← heap_get (nodes q) (head_ q);
  h ← heap_set (head_ q) (mk_node (Some n) (value_ nd)) (nodes q);
  Some (mk_SPSCQueue h (tail_ q) (head_ q) (first_ q) (tail_copy_ q)).

Definition set_head (n : ptr) (q : SPSCQueue) : SPSCQueue :=
  mk_SPSCQueue (nodes q) (tail_ q) n (first_ q) (tail_copy_ q).

Definition spsc_enqueue (v : T) (q : SPSCQueue) : option SPSCQueue :=
  r ← alloc_node q;
  q ← init_node r.1 v r.2;
  q ← link_node r.1 q;
  Some (set_head r.1 q).

(** ** The consumer *)

(** [tail_->next_] *)
Definition tail_next (q : SPSCQueue) : option (option ptr) := next_ <$> heap_get (nodes q) (tail_ q).

(** [tail_->next_->value_] *)
Definition read_value (q : SPSCQueue) : option (option T) :=
  o ← tail_next q; p ← o; value_ <$> heap_get (nodes q) p.

(** [store_release(&tail_, tail_->next_);] *)
Definition advance_tail (q : SPSCQueue) : option SPSCQueue :=
  o ← tail_next q; p ← o; Some (mk_SPSCQueue (nodes q) p (head_ q) (first_ q) (tail_copy_ q)).

(** The value read, or nothing when the queue is empty. *)
Definition spsc_try_dequeue (q : SPSCQueue) : option (option (option T) * SPSCQueue) :=
  o ← tail_next q;
  match o with
  | Some _ => v ← read_value q; q ← advance_tail q; Some (Some v, q)
  | None => Some (None, q)
  end.

(** The constructor that enqueues and dequeues [prealloc] values to fill the cache. *)
Fixpoint repeat_op (n : nat) (f : SPSCQueue -> option SPSCQueue) (q : SPSCQueue) : option SPSCQueue :=
  match n with O => Some q | S n' => q ← f q; repeat_op n' f q end.

Definition SPSCQueue_prealloc (dummy : T) (prealloc : nat) : option SPSCQueue :=
  q ← repeat_op prealloc (spsc_enqueue dummy) SPSCQueue_new;
  repeat_op prealloc (fun q => snd <$> spsc_try_dequeue q) q.

(** The destructor: deletes from [first_] along [next_]. *)
Fixpoint delete_from (fuel : nat) (n : ptr) (h : heap node) : option (heap node) :=
  match fuel with
  | O => None
  | S fuel' =>
      nd ← heap_get h n;
      h ← heap_delete n h;
      match next_ nd with Some m => delete_from fuel' m h | None => Some h end
  end.

Definition SPSCQueue_destroy (fuel : nat) (q : SPSCQueue) : option (heap node) := delete_from fuel (first_ q) (nodes q).

(** ** Interleavings *)

(** Where the producer is, before which access to shared memory. *)
Inductive ppc :=
| PIdle
| PAlloc (v : T)
| PLoad (v : T)
| PRetry (v : T)
| PInit (v : T) (n : ptr)
| PLink (v : T) (n : ptr)
| PHead (n : ptr).

Inductive cpc :=
| CIdle
| CTest
| CRead
| CStore (v : option T).

Definition producer_step (c : ppc) (q : SPSCQueue) : option (ppc * SPSCQueue) :=
  match c with
  | PIdle => None
  | PAlloc v => if decide (first_ q <> tail_copy_ q) then r ← take_cached q; Some (PInit v r.1, r.2) else Some (PLoad v, q)
  | PLoad v => Some (PRetry v, copy_tail q)
  | PRetry v => r ← cached_or_new q; Some (PInit v r.1, r.2)
  | PInit v n => q ← init_node n v q; Some (PLink v n, q)
  | PLink v n => q ← link_node n q; Some (PHead n, q)
  | PHead n => Some (PIdle, set_head n q)
  end.

Definition consumer_step (c : cpc) (q : SPSCQueue) : option (cpc * SPSCQueue) :=
  match c with
  | CIdle => None
  | CTest => o ← tail_next q; Some (if o is Some _ then CRead else CIdle, q)
  | CRead => v ← read_value q; Some (CStore v, q)
  | CStore v => q ← advance_tail q; Some (CIdle, q)
  end.

(** The queue, the two threads, the values published and the values delivered, in order. *)
Record spsc_system := mk_spsc {
  ss_queue : SPSCQueue;
  ss_producer : ppc;
  ss_consumer : cpc;
  ss_published : list T;
  ss_delivered : list (option T)
}.

Inductive spsc2_step (y : spsc_system) : spsc_system -> Prop :=
| call_enqueue v : ss_producer y = PIdle ->
    spsc2_step y (mk_spsc (ss_queue y) (PAlloc v) (ss_consumer y) (ss_published y) (ss_delivered y))
| call_dequeue : ss_consumer y = CIdle ->
    spsc2_step y (mk_spsc (ss_queue y) (ss_producer y) CTest (ss_published y) (ss_delivered y))
| producer_moves c' q' : producer_step (ss_producer y) (ss_queue y) = Some (c', q') ->
    spsc2_step y (mk_spsc q' c' (ss_consumer y)
      (match ss_producer y with PLink v _ => ss_published y ++ [v] | _ => ss_published y end) (ss_delivered y))
| consumer_moves c' q' : consumer_step (ss_consumer y) (ss_queue y) = Some (c', q') ->
    spsc2_step y (mk_spsc q' (ss_producer y) c' (ss_published y)
      (match ss_consumer y with CStore v => ss_delivered y ++ [v] | _ => ss_delivered y end)).

Definition spsc_start : spsc_system := mk_spsc SPSCQueue_new PIdle CIdle [] [].
End SpscLinked.
Arguments node : clear implicits. Arguments SPSCQueue : clear implicits. Arguments ppc : clear implicits.
Arguments cpc : clear implicits. Arguments spsc_system : clear implicits.

(** ** The invariant *)

Section Chain.
Context {T : Type}.
Implicit Types (h : heap (node T)) (ns : list ptr) (q : SPSCQueue T).

(** The nodes [ns], each pointing to the next, the last one to nothing. *)
Definition chain h ns : Prop :=
  forall i p, ns !! i = Some p -> exists nd, heap_get h p = Some nd /\ next_ nd = ns !! S i.

Definition val h p : option T := heap_get h p ≫= value_.

(** A node the producer has taken and not linked yet. *)
Definition pending_node (c : ppc T) : option ptr := match c with PInit _ n | PLink _ n => Some n | _ => None end.

Definition producer_ok q ns (c : ppc T) : Prop :=
  match c with
  | PInit _ n => (n ∉ ns) /\ is_Some (heap_get (nodes q) n)
  | PLink v n => (n ∉ ns) /\ heap_get (nodes q) n = Some (mk_node None (Some v))
  | _ => True
  end.

(** [head_] is the last node; the one before it between publishing and storing [head_]. *)
Definition head_ok q ns (c : ppc T) : Prop :=
  match c with
  | PHead n => exists ns', ns = ns' ++ [n] /\ last ns' = Some (head_ q)
  | _ => last ns = Some (head_ q)
  end.

Definition consumer_ok q ns j (c : cpc T) : Prop :=
  match c with
  | CRead => is_Some (ns !! S j)
  | CStore v => exists p, ns !! S j = Some p /\ v = val (nodes q) p
  | _ => True
  end.

Record linked_inv_at (y : spsc_system T) ns i j rest : Prop := {
  li_wf : heap_wf (nodes (ss_queue y));
  li_nodup : NoDup ns;
  li_chain : chain (nodes (ss_queue y)) ns;
  li_first : ns !! 0%nat = Some (first_ (ss_queue y));
  li_copy : ns !! i = Some (tail_copy_ (ss_queue y));
  li_tail : ns !! j = Some (tail_ (ss_queue y));
  li_order : (i <= j)%nat;
  li_head : head_ok (ss_queue y) ns (ss_producer y);
  li_producer : producer_ok (ss_queue y) ns (ss_producer y);
  li_consumer : consumer_ok (ss_queue y) ns j (ss_consumer y);
  li_live : forall p, is_Some (heap_get (nodes (ss_queue y)) p) -> (p ∈ ns) \/ pending_node (ss_producer y) = Some p;
  li_values : val (nodes (ss_queue y)) <$> drop (S j) ns = Some <$> rest;
  li_log : Some <$> ss_published y = ss_delivered y ++ (Some <$> rest)
}.

Definition linked_inv y : Prop := exists ns i j rest, linked_inv_at y ns i j rest.

Lemma linked_start : linked_inv spsc_start.
Proof.
  exists [1%positive], 0%nat, 0%nat, []. split; cbn; try done.
  - intros p a. unfold SPSCQueue_new; cbn. intros Hp. apply lookup_insert_Some in Hp as [[<- _]|[_ Hp]]; [done|].
    by rewrite lookup_empty in Hp.
  - apply NoDup_singleton.
  - intros i p Hi. destruct i as [|i]; [|done]. cbn in Hi. simplify_eq. by eexists.
  - intros p [nd Hp]. unfold SPSCQueue_new, heap_get in Hp. cbn in Hp.
    apply lookup_insert_Some in Hp as [[<- _]|[_ Hp]]; [left; by apply list_elem_of_singleton|]. by rewrite lookup_empty in Hp.
Qed.

Lemma heap_get_set h p p' nd h' : heap_set p nd h = Some h' ->
  heap_get h' p' = (if decide (p' = p) then Some nd else heap_get h p').
Proof.
  unfold heap_set, heap_get. destruct (h_cells h !! p); [|done]. intros [= <-]. cbn.
  destruct (decide (p' = p)) as [->|]; [apply lookup_insert_eq|by apply lookup_insert_ne].
Qed.

Lemma heap_set_live h p nd : is_Some (heap_get h p) -> is_Some (heap_set p nd h).
Proof. unfold heap_get, heap_set. intros [? ->]. eauto. Qed.

(** The first cached node leaves the chain. *)
Lemma take_cached_inv y ns i j rest v r :
  linked_inv_at y ns i j rest -> first_ (ss_queue y) <> tail_copy_ (ss_queue y) ->
  pending_node (ss_producer y) = None -> last ns = Some (head_ (ss_queue y)) ->
  take_cached (ss_queue y) = Some r ->
  linked_inv (mk_spsc r.2 (PInit v r.1) (ss_consumer y) (ss_published y) (ss_delivered y)).
Proof.
  intros [] Hne Hpend Hlast Ht. destruct ns as [|a ns]; [done|]. cbn in li_first0. simplify_eq.
  destruct i as [|i]; [cbn in li_copy0; congruence|]. destruct j as [|j]; [lia|].
  unfold take_cached in Ht. destruct (li_chain0 0%nat (first_ (ss_queue y)) eq_refl) as (nd&Hnd&Hnx).
  rewrite Hnd in Ht. cbn in Ht, Hnx. destruct ns as [|b ns]; [by destruct i|]. cbn in Hnx. rewrite Hnx in Ht. cbn in Ht. simplify_eq.
  apply NoDup_cons in li_nodup0 as [Hnin Hnd'].
  exists (b :: ns), i, j, rest. split; cbn; try done; try lia.
  - intros i' p Hi. apply (li_chain0 (S i') p Hi).
  - intros p Hp. destruct (li_live0 p Hp) as [Hin|]; [|congruence]. apply elem_of_cons in Hin as [->|]; [by right|by left].
Qed.

(** A step of the producer that only changes its own place or [tail_copy_]. *)
Lemma retry_inv y ns i j rest v :
  linked_inv_at y ns i j rest -> last ns = Some (head_ (ss_queue y)) -> pending_node (ss_producer y) = None ->
  linked_inv (mk_spsc (copy_tail (ss_queue y)) (PRetry v) (ss_consumer y) (ss_published y) (ss_delivered y)).
Proof.
  intros [] Hlast Hp. exists ns, j, j, rest. split; cbn; try done.
  intros p Hl. destruct (li_live0 p Hl); [by left|congruence].
Qed.

(** A new node: nothing in the chain moves. *)
Lemma new_node_inv y ns i j rest v nd h n :
  linked_inv_at y ns i j rest -> last ns = Some (head_ (ss_queue y)) -> pending_node (ss_producer y) = None ->
  heap_new nd (nodes (ss_queue y)) = (n, h) ->
  linked_inv (mk_spsc (mk_SPSCQueue h (tail_ (ss_queue y)) (head_ (ss_queue y)) (first_ (ss_queue y)) (tail_copy_ (ss_queue y)))
                (PInit v n) (ss_consumer y) (ss_published y) (ss_delivered y)).
Proof.
  intros [] Hlast Hp Hnew. pose proof (heap_new_wf nd _ li_wf0) as Hwf. rewrite Hnew in Hwf.
  pose proof (heap_fresh (nodes (ss_queue y)) n li_wf0) as Hfresh. unfold heap_new in Hnew. simplify_eq.
  specialize (Hfresh ltac:(lia)).
  assert (Hget : forall p, is_Some (heap_get (nodes (ss_queue y)) p) ->
    heap_get (mk_heap (<[h_next (nodes (ss_queue y)) := nd]> (h_cells (nodes (ss_queue y)))) (Pos.succ (h_next (nodes (ss_queue y))))) p
    = heap_get (nodes (ss_queue y)) p).
  { intros p [x Hx]. unfold heap_get in *. cbn. apply lookup_insert_ne. congruence. }
  assert (Hlive : forall k p, ns !! k = Some p -> is_Some (heap_get (nodes (ss_queue y)) p)).
  { intros k p Hk. destruct (li_chain0 k p Hk) as (x&Hx&_). by exists x. }
  exists ns, i, j, rest. split; cbn; try done.
  - intros k p Hk. rewrite Hget by eauto. eauto.
  - split; [|unfold heap_get; cbn; rewrite lookup_insert_eq; eauto].
    intros [k Hk]%list_elem_of_lookup. destruct (Hlive k _ Hk) as [x Hx]. unfold heap_get in Hx. congruence.
  - destruct (ss_consumer y); try done. destruct li_consumer0 as (p&Hpn&->). exists p. split; [done|].
    unfold val; cbn. by rewrite Hget by eauto.
  - intros p [x Hx]. unfold heap_get in Hx. cbn in Hx. apply lookup_insert_Some in Hx as [[<- _]|[_ Hx]]; [by right|].
    destruct (li_live0 p ltac:(by exists x)); [by left|congruence].
  - rewrite <- li_values0. apply list_fmap_ext. intros k p Hk. rewrite lookup_drop in Hk. unfold val. by rewrite Hget by eauto.
Qed.

(** Writing a node that is not in the chain. *)
Lemma init_node_inv y ns i j rest v n q' :
  linked_inv_at y ns i j rest -> ss_producer y = PInit v n -> init_node n v (ss_queue y) = Some q' ->
  linked_inv (mk_spsc q' (PLink v n) (ss_consumer y) (ss_published y) (ss_delivered y)).
Proof.
  intros [] Hp Hi. rewrite Hp in *. destruct li_producer0 as [Hnin Hlive]. unfold init_node in Hi.
  destruct (heap_set n (mk_node None (Some v)) (nodes (ss_queue y))) as [h|] eqn:Hset; cbn in Hi; simplify_eq.
  assert (Hget : forall k p, ns !! k = Some p -> heap_get h p = heap_get (nodes (ss_queue y)) p).
  { intros k p Hk. rewrite (heap_get_set _ _ _ _ _ Hset). destruct (decide (p = n)) as [->|]; [|done].
    destruct Hnin. by eapply list_elem_of_lookup_2. }
  exists ns, i, j, rest. split; cbn; try done.
  - by eapply heap_set_wf.
  - intros k p Hk. rewrite (Hget k) by done. eauto.
  - split; [done|]. rewrite (heap_get_set _ _ _ _ _ Hset). by rewrite decide_True.
  - destruct (ss_consumer y); try done. destruct li_consumer0 as (p&Hpn&->). exists p. split; [done|].
    unfold val; cbn. by erewrite Hget.
  - intros p Hx. rewrite (heap_get_set _ _ _ _ _ Hset) in Hx. destruct (decide (p = n)) as [->|]; [by right|auto].
  - rewrite <- li_values0. apply list_fmap_ext. intros k p Hk. rewrite lookup_drop in Hk. unfold val. by erewrite Hget.
Qed.

(** Publishing: the pending node becomes the last one. *)
Lemma link_node_inv y ns i j rest v n q' :
  linked_inv_at y ns i j rest -> ss_producer y = PLink v n -> link_node n (ss_queue y) = Some q' ->
  linked_inv (mk_spsc q' (PHead n) (ss_consumer y) (ss_published y ++ [v]) (ss_delivered y)).
Proof.
  intros [] Hp Hl. rewrite Hp in *. destruct li_producer0 as [Hnin Hn]. cbn in li_head0. unfold link_node in Hl.
  rewrite last_lookup in li_head0. destruct (li_chain0 _ _ li_head0) as (nd&Hnd&Hnx). rewrite Hnd in Hl. cbn in Hl.
  destruct (heap_set _ _ _) as [h|] eqn:Hset in Hl; cbn in Hl; simplify_eq.
  assert (Hlen : (0 < length ns)%nat) by (apply lookup_lt_Some in li_tail0; lia).
  assert (Hlt : forall k p, ns !! k = Some p -> (k < length ns)%nat) by (intros; by eapply lookup_lt_Some).
  assert (Hne : n <> head_ (ss_queue y)) by (intros ->; apply Hnin; by eapply list_elem_of_lookup_2).
  assert (Hget := fun p => heap_get_set _ _ p _ _ Hset).
  assert (Hval : forall p, val h p = val (nodes (ss_queue y)) p).
  { intros p. unfold val. rewrite Hget. destruct (decide _) as [->|]; [by rewrite Hnd|done]. }
  exists (ns ++ [n]), i, j, (rest ++ [v]). split; cbn; try done.
  - by eapply heap_set_wf.
  - apply NoDup_app. split_and!; [done| |apply NoDup_singleton]. intros p Hin ->%list_elem_of_singleton. done.
  - intros k p Hk. rewrite Hget. apply lookup_app_Some in Hk as [Hk|[Hge Hk]].
    + destruct (li_chain0 k p Hk) as (x&Hx&Hxn). pose proof (Hlt _ _ Hk). destruct (decide (p = _)) as [->|Hnh].
      * assert (k = pred (length ns)) as -> by (by eapply NoDup_lookup). eexists. split; [done|]. cbn.
        rewrite lookup_app_r, (Nat.succ_pred_pos _ Hlen), Nat.sub_diag by lia. done.
      * exists x. split; [done|]. rewrite Hxn. symmetry. apply lookup_app_l.
        destruct (decide (S k = length ns)) as [He|]; [|lia]. exfalso. apply Hnh.
        replace (pred (length ns)) with k in li_head0 by lia. congruence.
    + destruct (k - length ns)%nat as [|k'] eqn:Hk'; [|done]. cbn in Hk. simplify_eq.
      rewrite decide_False by done. eexists. split; [exact Hn|]. cbn. symmetry. apply lookup_ge_None_2.
      rewrite length_app. cbn. lia.
  - rewrite lookup_app_l; [done|lia].
  - rewrite lookup_app_l; [done|eauto].
  - rewrite lookup_app_l; [done|eauto].
  - exists ns. split; [done|]. by rewrite last_lookup.
  - destruct (ss_consumer y); try done.
    + destruct li_consumer0 as [p Hp']. exists p. by apply lookup_app_l_Some.
    + destruct li_consumer0 as (p&Hpn&->). exists p. split; [by apply lookup_app_l_Some|]. cbn. by rewrite Hval.
  - intros p Hx. left. rewrite elem_of_app, list_elem_of_singleton. rewrite Hget in Hx.
    destruct (decide (p = _)) as [->|]; [left; by eapply list_elem_of_lookup_2|].
    destruct (li_live0 p Hx) as [|[= ->]]; auto.
  - rewrite drop_app_le by (specialize (Hlt _ _ li_tail0); lia). rewrite !fmap_app. f_equal.
    + rewrite <- li_values0. apply list_fmap_ext. auto.
    + cbn. unfold val. rewrite Hget, decide_False by done. by rewrite Hn.
  - rewrite !fmap_app, li_log0, <- app_assoc. done.
Qed.

Lemma producer_inv y c' q' :
  linked_inv y -> producer_step (ss_producer y) (ss_queue y) = Some (c', q') ->
  linked_inv (mk_spsc q' c' (ss_consumer y)
      (match ss_producer y with PLink v _ => ss_published y ++ [v] | _ => ss_published y end) (ss_delivered y)).
Proof.
  intros (ns&i&j&rest&Hy) Hs. destruct (ss_producer y) as [|v|v|v|v n|v n|n] eqn:Hp; cbn in Hs; try done.
  - pose proof (li_head _ _ _ _ _ Hy) as Hh. rewrite Hp in Hh. cbn in Hh. destruct (decide _) as [Hd|Hd].
    + destruct (take_cached (ss_queue y)) as [r|] eqn:Ht; cbn in Hs; simplify_eq.
      eapply take_cached_inv; [done..|by rewrite Hp|done|done].
    + simplify_eq. destruct Hy. exists ns, i, j, rest. split; cbn; try done. rewrite Hp in *. done.
  - simplify_eq. pose proof (li_head _ _ _ _ _ Hy) as Hh. rewrite Hp in Hh. eapply retry_inv; [done..|by rewrite Hp].
  - pose proof (li_head _ _ _ _ _ Hy) as Hh. rewrite Hp in Hh. cbn in Hh. unfold cached_or_new in Hs.
    destruct (decide _) as [Hd|Hd].
    + destruct (take_cached (ss_queue y)) as [r|] eqn:Ht; cbn in Hs; simplify_eq.
      eapply take_cached_inv; [done..|by rewrite Hp|done|done].
    + cbn in Hs. simplify_eq. eapply new_node_inv; [done..|by rewrite Hp|reflexivity].
  - destruct (init_node n v (ss_queue y)) eqn:Hi; cbn in Hs; simplify_eq. by eapply init_node_inv.
  - destruct (link_node n (ss_queue y)) eqn:Hi; cbn in Hs; simplify_eq. by eapply link_node_inv.
  - simplify_eq. destruct Hy. rewrite Hp in *. destruct li_head0 as (ns'&->&_).
    exists (ns' ++ [n]), i, j, rest. split; cbn; try done. by rewrite last_snoc.
Qed.

Lemma consumer_inv y c' q' :
  linked_inv y -> consumer_step (ss_consumer y) (ss_queue y) = Some (c', q') ->
  linked_inv (mk_spsc q' (ss_producer y) c' (ss_published y)
      (match ss_consumer y with CStore v => ss_delivered y ++ [v] | _ => ss_delivered y end)).
Proof.
  intros (ns&i&j&rest&Hy) Hs. destruct (li_chain _ _ _ _ _ Hy j _ (li_tail _ _ _ _ _ Hy)) as (nd&Hnd&Hnx).
  assert (Htn : tail_next (ss_queue y) = Some (ns !! S j)) by (unfold tail_next; by rewrite Hnd, <- Hnx).
  destruct (ss_consumer y) as [| | |v] eqn:Hc; cbn in Hs; try done.
  - rewrite Htn in Hs. cbn in Hs. simplify_eq. destruct Hy. exists ns, i, j, rest. split; cbn; try done.
    destruct (ns !! S j) eqn:E; [|done]. cbn. by rewrite E.
  - unfold read_value in Hs. rewrite Htn in Hs. cbn in Hs. destruct (ns !! S j) as [p|] eqn:E; [|done]. cbn in Hs.
    destruct (li_chain _ _ _ _ _ Hy _ _ E) as (x&Hx&_). rewrite Hx in Hs. cbn in Hs. simplify_eq.
    destruct Hy. exists ns, i, j, rest. split; cbn; try done. exists p. split; [done|]. unfold val. by rewrite Hx.
  - unfold advance_tail in Hs. rewrite Htn in Hs. cbn in Hs. destruct (ns !! S j) as [p|] eqn:E; [|done]. cbn in Hs. simplify_eq.
    destruct Hy. rewrite Hc in li_consumer0. destruct li_consumer0 as (p'&Hp'&->). assert (p' = p) as -> by congruence.
    rewrite (drop_S _ _ _ E) in li_values0. destruct rest as [|x rest]; [done|]. cbn in li_values0. injection li_values0 as Hx Hrest.
    exists ns, i, (S j), rest. split; cbn; try done; [lia|]. rewrite li_log0, Hx. cbn. by rewrite <- app_assoc.
Qed.

Lemma linked_step_inv y y' : linked_inv y -> spsc2_step y y' -> linked_inv y'.
Proof.
  intros Hy []; [| |by apply producer_inv|by apply consumer_inv]; destruct Hy as (ns&i&j&rest&[]);
    exists ns, i, j, rest; rewrite H in *; by split.
Qed.
End Chain.

(** ** Safety of the accesses, and the destructor *)

Section Safe.
Context {T : Type}.
Implicit Types (y : spsc_system T).

Lemma take_cached_some y ns i j rest : linked_inv_at y ns i j rest -> first_ (ss_queue y) <> tail_copy_ (ss_queue y) ->
  is_Some (take_cached (ss_queue y)).
Proof.
  intros [] Hne. destruct (li_chain0 _ _ li_first0) as (nd&Hnd&Hnx).
  destruct i as [|i]; [congruence|]. unfold take_cached. rewrite Hnd. cbn. rewrite Hnx.
  destruct (lookup_lt_is_Some_2 ns 1) as [p Hp]; [apply lookup_lt_Some in li_copy0; lia|]. rewrite Hp. by eexists.
Qed.

Lemma producer_step_some y : linked_inv y -> ss_producer y <> PIdle -> is_Some (producer_step (ss_producer y) (ss_queue y)).
Proof.
  intros (ns&i&j&rest&Hy) Hne. pose proof (take_cached_some y ns i j rest Hy) as Hc.
  destruct Hy. destruct (ss_producer y) as [|v|v|v|v n|v n|n]; cbn; try done.
  - destruct (decide _) as [Hd|]; [|done]. destruct (Hc Hd) as [r ->]. done.
  - unfold cached_or_new. destruct (decide _) as [Hd|]; [|done]. destruct (Hc Hd) as [r ->]. done.
  - destruct li_producer0 as [_ Hl]. unfold init_node.
    destruct (heap_set_live _ _ (mk_node None (Some v)) Hl) as [h ->]. done.
  - cbn in li_head0. rewrite last_lookup in li_head0. destruct (li_chain0 _ _ li_head0) as (nd&Hnd&_).
    unfold link_node. rewrite Hnd. cbn.
    destruct (heap_set_live _ _ (mk_node (Some n) (value_ nd)) (mk_is_Some _ _ Hnd)) as [h ->]. done.
Qed.

Lemma consumer_step_some y : linked_inv y -> ss_consumer y <> CIdle -> is_Some (consumer_step (ss_consumer y) (ss_queue y)).
Proof.
  intros (ns&i&j&rest&[]) Hne. destruct (li_chain0 _ _ li_tail0) as (nd&Hnd&Hnx).
  destruct (ss_consumer y) as [| | |v]; cbn; [done| | |]; unfold read_value, advance_tail, tail_next; rewrite Hnd; cbn; [done| |];
    rewrite Hnx; cbn in li_consumer0.
  - destruct li_consumer0 as [p Hp]. rewrite Hp. cbn. destruct (li_chain0 _ _ Hp) as (x&->&_). done.
  - destruct li_consumer0 as (p&->&_). done.
Qed.

Lemma delete_from_chain ns : forall (h : heap (node T)) a, chain h (a :: ns) -> NoDup (a :: ns) ->
  (forall p, is_Some (heap_get h p) -> p ∈ a :: ns) ->
  exists h', delete_from (S (length ns)) a h = Some h' /\ h_cells h' = ∅.
Proof.
  induction ns as [|b ns IH]; intros h a Hc Hnd Hl; destruct (Hc 0%nat a eq_refl) as (nd&Ha&Hnx);
    cbn in Hnx; cbn [delete_from]; rewrite Ha; cbn [mbind option_bind]; unfold heap_delete;
    unfold heap_get in Ha; rewrite Ha; cbn [mbind option_bind]; rewrite Hnx.
  - eexists. split; [done|]. cbn. apply map_empty. intros p. destruct (decide (p = a)) as [->|Hne]; [apply lookup_delete_eq|].
    rewrite lookup_delete_ne by done. destruct (h_cells h !! p) eqn:E; [|done].
    destruct Hne. apply list_elem_of_singleton, Hl. by exists n.
  - apply NoDup_cons in Hnd as [Hnin Hnd]. apply (IH (mk_heap (delete a (h_cells h)) (h_next h)) b); [|done|].
    + intros i p Hi. destruct (Hc (S i) p Hi) as (x&Hx&Hxn). exists x. split; [|done].
      unfold heap_get in *. cbn. rewrite lookup_delete_ne; [done|]. intros ->. apply Hnin. by eapply list_elem_of_lookup_2.
    + intros p [x Hx]. unfold heap_get in Hx. cbn in Hx. apply lookup_delete_Some in Hx as [Hne Hx].
      specialize (Hl p (mk_is_Some _ _ Hx)). apply elem_of_cons in Hl as [|]; [congruence|done].
Qed.
End Safe.

(** C19. The unbounded queue of libs/spscqueue.h under every interleaving of its producer and its
    consumer: no null or dangling pointer is followed, also when nodes are taken back from the
    cache; the values delivered are the values enqueued, in order, none lost and none twice; and
    once both threads are done the destructor deletes every node exactly once. *)
Theorem spsc_linked_concurrent {T} (y : spsc_system T) :
  rtc spsc2_step spsc_start y ->
  (ss_producer y <> PIdle -> is_Some (producer_step (ss_producer y) (ss_queue y))) /\
  (ss_consumer y <> CIdle -> is_Some (consumer_step (ss_consumer y) (ss_queue y))) /\
  (exists rest, Some <$> ss_published y = ss_delivered y ++ (Some <$> rest)) /\
  (ss_producer y = PIdle ->
   exists fuel h, SPSCQueue_destroy fuel (ss_queue y) = Some h /\ h_cells h = ∅).
Proof.
  intros Hr. assert (Hy : linked_inv y) by (revert Hr; apply rtc_invariant; [apply linked_step_inv|apply linked_start]).
  split_and!; [by apply producer_step_some|by apply consumer_step_some| |]; destruct Hy as (ns&i&j&rest&[]); [by exists rest|].
  intros Hp. destruct ns as [|a ns]; [done|]. cbn in li_first0. simplify_eq. exists (S (length ns)).
  apply delete_from_chain; [done..|]. intros p Hl. destruct (li_live0 p Hl) as [|E]; [done|]. by rewrite Hp in E.
Qed.

(** A schedule: a call of one of the threads, or its next access. *)
Inductive move := MEnqueue (v : nat) | MDequeue | MProducer | MConsumer.

Definition run_move (m : move) (y : spsc_system nat) : option (spsc_system nat) :=
  match m with
  | MEnqueue v =>
      match ss_producer y with
      | PIdle => Some (mk_spsc (ss_queue y) (PAlloc v) (ss_consumer y) (ss_published y) (ss_delivered y))
      | _ => None
      end
  | MDequeue =>
      match ss_consumer y with
      | CIdle => Some (mk_spsc (ss_queue y) (ss_producer y) CTest (ss_published y) (ss_delivered y))
      | _ => None
      end
  | MProducer =>
      r ← producer_step (ss_producer y) (ss_queue y);
      Some (mk_spsc r.2 r.1 (ss_consumer y)
        (match ss_producer y with PLink v _ => ss_published y ++ [v] | _ => ss_published y end) (ss_delivered y))
  | MConsumer =>
      r ← consumer_step (ss_consumer y) (ss_queue y);
      Some (mk_spsc r.2 (ss_producer y) r.1 (ss_published y)
        (match ss_consumer y with CStore v => ss_delivered y ++ [v] | _ => ss_delivered y end))
  end.

Fixpoint run_moves (l : list move) (y : spsc_system nat) : option (spsc_system nat) :=
  match l with [] => Some y | m :: l' => y' ← run_move m y; run_moves l' y' end.

Lemma run_moves_steps l y y' : run_moves l y = Some y' -> rtc spsc2_step y y'.
Proof.
  revert y. induction l as [|m l IH]; intros y; cbn [run_moves]; [by intros [= ->]|].
  destruct (run_move m y) as [y1|] eqn:Hm; cbn; [|done]. intros Hl. eapply rtc_l; [|by apply IH].
  destruct m as [v| | |]; cbn in Hm.
  - destruct (ss_producer y) eqn:Hp; simplify_eq. by apply call_enqueue.
  - destruct (ss_consumer y) eqn:Hp; simplify_eq. by apply call_dequeue.
  - destruct (producer_step _ _) as [[c' q']|] eqn:Hs; cbn in Hm; simplify_eq. by apply producer_moves.
  - destruct (consumer_step _ _) as [[c' q']|] eqn:Hs; cbn in Hm; simplify_eq. by apply consumer_moves.
Qed.

(** Two values are enqueued, the consumer takes the first while the second is being linked, and the
    third value reuses the first node. *)
Definition linked_end : spsc_system nat :=
  default spsc_start (run_moves
    ([MEnqueue 1; MProducer; MProducer; MProducer; MProducer; MProducer; MProducer; MDequeue; MConsumer; MEnqueue 2;
      MProducer; MProducer; MConsumer; MProducer; MProducer; MConsumer; MProducer; MProducer;
      MEnqueue 3; MProducer; MProducer; MProducer; MProducer; MProducer; MProducer]%nat) spsc_start).

Lemma spsc_linked_concurrent_witness :
  (ss_delivered linked_end = [Some 1%nat] /\ ss_published linked_end = [1; 2; 3]%nat /\
   h_next (nodes (ss_queue linked_end)) = 4%positive) /\
  exists fuel h, SPSCQueue_destroy fuel (ss_queue linked_end) = Some h /\ h_cells h = ∅.
Proof.
  split; [vm_compute; split_and!; reflexivity|].
  apply (fun H => proj2 (proj2 (proj2 (spsc_linked_concurrent linked_end H)))); [|reflexivity].
  apply (run_moves_steps [MEnqueue 1; MProducer; MProducer; MProducer; MProducer; MProducer; MProducer; MDequeue; MConsumer; MEnqueue 2;
      MProducer; MProducer; MConsumer; MProducer; MProducer; MConsumer; MProducer; MProducer;
      MEnqueue 3; MProducer; MProducer; MProducer; MProducer; MProducer; MProducer]%nat). vm_compute. reflexivity.
Defined.
