(* ===== verification/MpscQueue.v ===== *)
(** * libs/intrusive_mpmc_link_queue.h: the intrusive queue with a stub node

    Many producers exchange [head] and link the node they replaced to the new one; one consumer
    follows the links from [tail].  The exchange [XCHG] is used by the header and defined nowhere
    in the repository: it is a parameter ([Xchg]) whose law is that it stores the new value and
    returns the old one.  A node is the caller's from the moment it is popped until it is pushed
    again; a pointer that is followed must be a node, otherwise the access is undefined ([None]). *)

From S2P Require Import Prelude Heap.

(** [XCHG(p, v)]: what it returns and what [*p] is afterwards, from what [*p] was. *)
Class Xchg := XCHG : ptr -> ptr -> ptr * ptr.

Class XchgLaw `{Xchg} : Prop := xchg_swaps old new : XCHG old new = (old, new).

Record mpscq_node_t := mk_mpscq_node { mq_next : option ptr }.

(** The queue's own fields, the address of its stub, and the memory of all nodes. *)
Record mpscq_t := mk_mpscq {
  mq_head : ptr;
  mq_tail : ptr;
  mq_stub : ptr;
  mq_mem : gmap ptr mpscq_node_t
}.

Definition mq_get (q : mpscq_t) (p : ptr) : option (option ptr) := mq_next <$> mq_mem q !! p.

(** [p->next = x;] *)
Definition mq_set (p : ptr) (x : option ptr) (q : mpscq_t) : option mpscq_t :=
  _ ← mq_mem q !! p;
  Some (mk_mpscq (mq_head q) (mq_tail q) (mq_stub q) (<[p := mk_mpscq_node x]> (mq_mem q))).

Definition mq_set_head (p : ptr) (q : mpscq_t) : mpscq_t := mk_mpscq p (mq_tail q) (mq_stub q) (mq_mem q).
Definition mq_set_tail (p : ptr) (q : mpscq_t) : mpscq_t := mk_mpscq (mq_head q) p (mq_stub q) (mq_mem q).

(** The object lies at [stub], beside the nodes [mem]. *)
Definition mpscq_create (stub : ptr) (mem : gmap ptr mpscq_node_t) : mpscq_t :=
  mk_mpscq stub stub stub (<[stub := mk_mpscq_node None]> mem).

Section Ops.
Context `{Xchg}.

Definition mpscq_push (n : ptr) (q : mpscq_t) : option mpscq_t :=
  q ← mq_set n None q;
  let '(prev, head) := XCHG (mq_head q) n in
  mq_set prev (Some n) (mq_set_head head q).

(** The last lines: the node behind [tail] is looked at once more. *)
Definition pop_again (tail : ptr) (q : mpscq_t) : option (option ptr * mpscq_t) :=
  next ← mq_get q tail;
  match next with
  | Some n => Some (Some tail, mq_set_tail n q)
  | None => Some (None, q)
  end.

(** From [if (next)] on. *)
Definition pop_from (tail : ptr) (next : option ptr) (q : mpscq_t) : option (option ptr * mpscq_t) :=
  match next with
  | Some n => Some (Some tail, mq_set_tail n q)
  | None =>
      if decide (tail <> mq_head q) then Some (None, q)
      else q ← mpscq_push (mq_stub q) q; pop_again tail q
  end.

Definition mpscq_pop (q : mpscq_t) : option (option ptr * mpscq_t) :=
  let tail := mq_tail q in
  next ← mq_get q tail;
  if decide (tail = mq_stub q) then
    match next with
    | None => Some (None, q)
    | Some n =>
        let q := mq_set_tail n q in
        next ← mq_get q n;
        pop_from n next q
    end
  else pop_from tail next q.

(** ** Interleavings *)

(** Where a call of [mpscq_push] is, before which access to shared memory. *)
Inductive mpscq_ppc :=
| MIdle
| MStore (n : ptr)
| MXchg (n : ptr)
| MLink (prev n : ptr).

Definition push_step (c : mpscq_ppc) (q : mpscq_t) : option (mpscq_ppc * mpscq_t) :=
  match c with
  | MIdle => None
  | MStore n => q ← mq_set n None q; Some (MXchg n, q)
  | MXchg n => let '(prev, head) := XCHG (mq_head q) n in Some (MLink prev n, mq_set_head head q)
  | MLink prev n => q ← mq_set prev (Some n) q; Some (MIdle, q)
  end.

(** Where the call of [mpscq_pop] is; [KPush] is inside its [mpscq_push(self, &self->stub)]. *)
Inductive mpscq_cpc :=
| KIdle
| KNext
| KReload (tail : ptr)
| KHead (tail : ptr)
| KPush (tail : ptr) (c : mpscq_ppc)
| KAgain (tail : ptr)
| KRet (r : option ptr).

Definition KFrom (tail : ptr) (next : option ptr) (q : mpscq_t) : mpscq_cpc * mpscq_t :=
  match next with
  | Some n => (KRet (Some tail), mq_set_tail n q)
  | None => (KHead tail, q)
  end.

Definition pop_step (c : mpscq_cpc) (q : mpscq_t) : option (mpscq_cpc * mpscq_t) :=
  match c with
  | KIdle | KRet _ => None
  | KNext =>
      let tail := mq_tail q in
      next ← mq_get q tail;
      if decide (tail = mq_stub q) then
        match next with
        | None => Some (KRet None, q)
        | Some n => Some (KReload n, mq_set_tail n q)
        end
      else Some (KFrom tail next q)
  | KReload tail => next ← mq_get q tail; Some (KFrom tail next q)
  | KHead tail => Some (if decide (tail <> mq_head q) then KRet None else KPush tail (MStore (mq_stub q)), q)
  | KPush tail c =>
      r ← push_step c q;
      Some (match r.1 with MIdle => KAgain tail | c' => KPush tail c' end, r.2)
  | KAgain tail => r ← pop_again tail q; Some (KRet r.1, r.2)
  end.

(** The queue, its threads, the nodes its users hold, and what was pushed (in the order of the
    exchanges) and popped. *)
Record mpscq_system := mk_mpscq_system {
  my_queue : mpscq_t;
  my_producers : list mpscq_ppc;
  my_consumer : mpscq_cpc;
  my_free : list ptr;
  my_pushed : list ptr;
  my_popped : list ptr
}.

(** A producer pushes a node it holds; the node [mpscq_pop] returns is its users' again. *)
Inductive mpscq_step (y : mpscq_system) : mpscq_system -> Prop :=
| mq_call_push i n f1 f2 : my_producers y !! i = Some MIdle -> my_free y = f1 ++ n :: f2 ->
    mpscq_step y (mk_mpscq_system (my_queue y) (<[i := MStore n]> (my_producers y)) (my_consumer y)
      (f1 ++ f2) (my_pushed y) (my_popped y))
| mq_producer i c c' q' : my_producers y !! i = Some c -> push_step c (my_queue y) = Some (c', q') ->
    mpscq_step y (mk_mpscq_system q' (<[i := c']> (my_producers y)) (my_consumer y) (my_free y)
      (match c with MXchg n => my_pushed y ++ [n] | _ => my_pushed y end) (my_popped y))
| mq_call_pop : my_consumer y = KIdle ->
    mpscq_step y (mk_mpscq_system (my_queue y) (my_producers y) KNext (my_free y) (my_pushed y) (my_popped y))
| mq_consumer c' q' : pop_step (my_consumer y) (my_queue y) = Some (c', q') ->
    mpscq_step y (mk_mpscq_system q' (my_producers y) c' (my_free y) (my_pushed y) (my_popped y))
| mq_return r : my_consumer y = KRet r ->
    mpscq_step y (mk_mpscq_system (my_queue y) (my_producers y) KIdle
      (my_free y ++ option_list r) (my_pushed y) (my_popped y ++ option_list r)).

(** The nodes [ns] beside a new queue, for [k] producers. *)
Definition mpscq_start (stub : ptr) (ns : list ptr) (k : nat) : mpscq_system :=
  mk_mpscq_system (mpscq_create stub (list_to_map ((fun p => (p, mk_mpscq_node None)) <$> ns)))
    (replicate k MIdle) KIdle ns [] [].
End Ops.

(** ** The invariant *)

(** The node a call of push still has for itself, and the link it still has to store. *)
Definition mq_owned (c : mpscq_ppc) : list ptr := match c with MStore n | MXchg n => [n] | _ => [] end.
Definition mq_linking (c : mpscq_ppc) : list (ptr * ptr) := match c with MLink a b => [(a, b)] | _ => [] end.

Abbreviation owned_by pcs := (concat (mq_owned <$> pcs)).
Abbreviation links_of pcs := (concat (mq_linking <$> pcs)).

(** The nodes [ns] from [tail] to [head]: each points to the next one, or a thread is about to
    store that link.  [out] are the nodes outside the queue. *)
Record mq_core (q : mpscq_t) (pcs : list mpscq_ppc) (out ns : list ptr) : Prop := {
  mc_nodup : NoDup (out ++ owned_by pcs ++ ns);
  mc_live : forall p, p ∈ out ++ owned_by pcs ++ ns -> is_Some (mq_get q p);
  mc_tail : head ns = Some (mq_tail q);
  mc_head : last ns = Some (mq_head q);
  mc_chain : forall i a, ns !! i = Some a ->
    match ns !! S i with
    | Some b => mq_get q a = Some (Some b) /\ ((a, b) ∉ links_of pcs) \/
                mq_get q a = Some None /\ ((a, b) ∈ links_of pcs)
    | None => mq_get q a = Some None
    end;
  mc_pending : forall a b, (a, b) ∈ links_of pcs -> exists i, ns !! i = Some a /\ ns !! S i = Some b;
  mc_once : NoDup (links_of pcs);
  mc_ready : forall n, MXchg n ∈ pcs -> mq_get q n = Some None
}.

Section Core.
Context `{Xchg, !XchgLaw}.
Implicit Types (q : mpscq_t) (pcs : list mpscq_ppc) (out ns : list ptr).

Lemma concat_fmap_insert {A} (f : mpscq_ppc -> list A) pcs i c c' :
  pcs !! i = Some c -> concat (f <$> <[i := c']> pcs) ++ f c ≡ₚ concat (f <$> pcs) ++ f c'.
Proof. intros Hi. rewrite list_fmap_insert. apply concat_insert_perm. by rewrite list_lookup_fmap, Hi. Qed.

Lemma mq_get_set q p x q' p' : mq_set p x q = Some q' ->
  mq_get q' p' = if decide (p' = p) then Some x else mq_get q p'.
Proof.
  unfold mq_set, mq_get. destruct (mq_mem q !! p); [|done]. intros [= <-]. cbn.
  destruct (decide (p' = p)) as [->|]; [by rewrite lookup_insert_eq|by rewrite lookup_insert_ne].
Qed.

Lemma mq_set_live q p x : is_Some (mq_get q p) -> is_Some (mq_set p x q).
Proof. unfold mq_get, mq_set. destruct (mq_mem q !! p); [|by intros [? [=]]]. eauto. Qed.

(** A store leaves the queue's own fields alone. *)
Lemma mq_set_fields q p x q' : mq_set p x q = Some q' ->
  mq_head q' = mq_head q /\ mq_tail q' = mq_tail q /\ mq_stub q' = mq_stub q.
Proof. unfold mq_set. destruct (mq_mem q !! p); [|done]. by intros [= <-]. Qed.

Lemma owned_elem pcs i c n : pcs !! i = Some c -> (n ∈ mq_owned c) -> n ∈ owned_by pcs.
Proof. intros Hi Hn. apply list_elem_of_In, in_concat. exists (mq_owned c). rewrite <- !list_elem_of_In. split; [|done].
  apply list_elem_of_fmap_2. eauto using list_elem_of_lookup_2. Qed.

Lemma links_elem pcs i a b : pcs !! i = Some (MLink a b) -> (a, b) ∈ links_of pcs.
Proof. intros Hi. apply list_elem_of_In, in_concat. exists [(a, b)]. rewrite <- !list_elem_of_In. split; [|by apply list_elem_of_singleton].
  apply (list_elem_of_fmap_2 mq_linking _ (MLink a b)). eauto using list_elem_of_lookup_2. Qed.

Lemma core_disjoint q pcs out ns p : mq_core q pcs out ns -> (p ∈ ns) -> (p ∉ out) /\ (p ∉ owned_by pcs).
Proof. intros [Hnd _ _ _ _ _ _ _] Hp. apply NoDup_app in Hnd as (_&H1&Hnd). apply NoDup_app in Hnd as (_&H2&_).
  split; [intros Ho; apply (H1 p Ho); set_solver|intros Ho; by apply (H2 p Ho)]. Qed.

Lemma core_nodup_ns q pcs out ns : mq_core q pcs out ns -> NoDup ns.
Proof. intros [Hnd _ _ _ _ _ _ _]. apply NoDup_app in Hnd as (_&_&Hnd). by apply NoDup_app in Hnd as (_&_&?). Qed.

(** The nodes outside may be listed in any order. *)
Lemma core_perm q pcs out out' ns : out ≡ₚ out' -> mq_core q pcs out ns -> mq_core q pcs out' ns.
Proof. intros Hp []. split; try done; [by rewrite <- Hp|]. intros p. rewrite <- Hp. auto. Qed.

(** A thread that is idle takes a node from outside. *)
Lemma core_call q pcs n out ns i : mq_core q pcs (n :: out) ns -> pcs !! i = Some MIdle ->
  mq_core q (<[i := MStore n]> pcs) out ns.
Proof.
  intros [] Hi. pose proof (concat_fmap_insert mq_owned _ _ _ (MStore n) Hi) as Ho. cbn in Ho. rewrite app_nil_r in Ho.
  pose proof (concat_fmap_insert mq_linking _ _ _ (MStore n) Hi) as Hl. cbn in Hl. rewrite !app_nil_r in Hl.
  assert (Hp : out ++ owned_by (<[i := MStore n]> pcs) ++ ns ≡ₚ (n :: out) ++ owned_by pcs ++ ns) by (rewrite Ho; solve_Permutation).
  split; try done; [by rewrite Hp|intros p; rewrite Hp; auto| |intros a b; rewrite Hl; auto|by rewrite Hl|].
  - intros k a Ha. specialize (mc_chain0 k a Ha). destruct (ns !! S k); [|done]. by rewrite Hl.
  - intros m [j Hj]%list_elem_of_lookup. apply list_lookup_insert_Some in Hj as [(_&[=]&_)|[_ Hj]]. eauto using list_elem_of_lookup_2.
Qed.

(** [n->next = 0] *)
Lemma core_store q pcs out ns i n q' : mq_core q pcs out ns -> pcs !! i = Some (MStore n) -> mq_set n None q = Some q' ->
  mq_core q' (<[i := MXchg n]> pcs) out ns.
Proof.
  intros Hc Hi Hs. assert (Hn : n ∉ ns).
  { intros Hin. apply (core_disjoint _ _ _ _ _ Hc) in Hin as [_ []]. eapply owned_elem; [done|]. by apply list_elem_of_singleton. }
  destruct Hc. pose proof (concat_fmap_insert mq_owned _ _ _ (MXchg n) Hi) as Ho. cbn in Ho. apply (inj (fun l => l ++ [n])) in Ho.
  pose proof (concat_fmap_insert mq_linking _ _ _ (MXchg n) Hi) as Hl. cbn in Hl. rewrite !app_nil_r in Hl.
  destruct (mq_set_fields _ _ _ _ Hs) as (Hh&Ht&_). assert (Hget := fun p => mq_get_set _ _ _ _ p Hs).
  split; try congruence; [by rewrite Ho|..].
  - intros p. rewrite Ho, Hget. intros Hp. destruct (decide _); eauto.
  - intros k a Ha. specialize (mc_chain0 k a Ha). rewrite Hget, decide_False by (intros ->; eauto using list_elem_of_lookup_2).
    destruct (ns !! S k); [|done]. by rewrite Hl.
  - intros a b. rewrite Hl. auto.
  - by rewrite Hl.
  - intros m [j Hj]%list_elem_of_lookup. rewrite Hget. destruct (decide _); [done|].
    apply list_lookup_insert_Some in Hj as [(_&[= ->]&_)|[_ Hj]]; [done|]. eauto using list_elem_of_lookup_2.
Qed.

(** The exchange: the node is the last one of the queue. *)
Lemma core_xchg q pcs out ns i n : mq_core q pcs out ns -> pcs !! i = Some (MXchg n) ->
  mq_core (mq_set_head n q) (<[i := MLink (mq_head q) n]> pcs) out (ns ++ [n]).
Proof.
  intros Hc Hi. assert (Hn : n ∉ ns).
  { intros Hin. apply (core_disjoint _ _ _ _ _ Hc) in Hin as [_ []]. eapply owned_elem; [done|]. by apply list_elem_of_singleton. }
  destruct Hc. pose proof (concat_fmap_insert mq_owned _ _ _ (MLink (mq_head q) n) Hi) as Ho. cbn in Ho. rewrite app_nil_r in Ho.
  pose proof (concat_fmap_insert mq_linking _ _ _ (MLink (mq_head q) n) Hi) as Hl. cbn in Hl. rewrite app_nil_r in Hl.
  assert (Hp : out ++ owned_by (<[i := MLink (mq_head q) n]> pcs) ++ ns ++ [n] ≡ₚ out ++ owned_by pcs ++ ns)
    by (rewrite <- Ho; solve_Permutation).
  assert (Hel : forall a b, (a, b) ∈ links_of (<[i := MLink (mq_head q) n]> pcs) <-> (a, b) ∈ links_of pcs \/ (a, b) = (mq_head q, n))
    by (intros; by rewrite Hl, elem_of_app, list_elem_of_singleton).
  rewrite last_lookup in mc_head0. pose proof (lookup_lt_Some _ _ _ mc_head0) as Hlen.
  split; cbn; [by rewrite Hp|intros p; rewrite Hp; apply mc_live0|by destruct ns|by rewrite last_snoc|..].
  - intros k a Ha. apply lookup_app_Some in Ha as [Ha|[Hge Ha]].
    + specialize (mc_chain0 k a Ha). pose proof (lookup_lt_Some _ _ _ Ha). destruct (decide (S k = length ns)) as [He|Hne].
      * rewrite lookup_app_r, He, Nat.sub_diag by lia. cbn. right. rewrite Hel.
        rewrite (lookup_ge_None_2 ns) in mc_chain0 by lia. split; [done|]. right.
        replace (pred (length ns)) with k in mc_head0 by lia. congruence.
      * rewrite lookup_app_l by lia. destruct (lookup_lt_is_Some_2 ns (S k) ltac:(lia)) as [b Hb]. rewrite Hb in *.
        rewrite Hel. destruct mc_chain0 as [[? ?]|[? ?]]; [left|right]; split; auto.
        intros [?|[= -> ->]]; [done|]. eauto using list_elem_of_lookup_2.
    + destruct (k - length ns)%nat as [|k'] eqn:Hk; [|done]. cbn in Ha. simplify_eq.
      rewrite lookup_ge_None_2 by (rewrite length_app; cbn; lia). eauto using list_elem_of_lookup_2.
  - intros a b [Hab|[= -> ->]]%Hel.
    + destruct (mc_pending0 a b Hab) as (k&?&?). exists k. split; by apply lookup_app_l_Some.
    + exists (pred (length ns)). split; [by apply lookup_app_l_Some|].
      replace (S (pred (length ns))) with (length ns + 0)%nat by lia. by rewrite lookup_app_r, Nat.add_sub_swap, Nat.sub_diag by lia.
  - rewrite Hl. apply NoDup_app. split_and!; [done| |apply NoDup_singleton].
    intros [a b] Hab [= -> ->]%list_elem_of_singleton. destruct (mc_pending0 _ _ Hab) as (k&_&?). eauto using list_elem_of_lookup_2.
  - intros m [j Hj]%list_elem_of_lookup. apply list_lookup_insert_Some in Hj as [(_&[=]&_)|[_ Hj]]. eauto using list_elem_of_lookup_2.
Qed.

(** [prev->next = n] *)
Lemma core_link q pcs out ns i a b q' : mq_core q pcs out ns -> pcs !! i = Some (MLink a b) -> mq_set a (Some b) q = Some q' ->
  mq_core q' (<[i := MIdle]> pcs) out ns.
Proof.
  intros Hc Hi Hs. pose proof (core_nodup_ns _ _ _ _ Hc) as Hns. pose proof (core_disjoint _ _ _ _ a Hc) as Hdis.
  destruct Hc. pose proof (concat_fmap_insert mq_owned _ _ _ MIdle Hi) as Ho. cbn in Ho. rewrite !app_nil_r in Ho.
  pose proof (concat_fmap_insert mq_linking _ _ _ MIdle Hi) as Hl. cbn in Hl. rewrite app_nil_r in Hl.
  destruct (mc_pending0 a b) as (k&Hka&Hkb); [by eapply links_elem|].
  rewrite <- Hl in mc_once0. apply NoDup_app in mc_once0 as (Hnd&Hnew&_).
  assert (Hel : forall c d, (c, d) ∈ links_of pcs <-> (c, d) ∈ links_of (<[i := MIdle]> pcs) \/ (c, d) = (a, b))
    by (intros; by rewrite <- Hl, elem_of_app, list_elem_of_singleton).
  destruct (mq_set_fields _ _ _ _ Hs) as (Hh&Ht&_). assert (Hget := fun p => mq_get_set _ _ _ _ p Hs).
  split; try congruence; [by rewrite Ho|..].
  - intros p. rewrite Ho, Hget. intros Hp. destruct (decide _); eauto.
  - intros j c Hj. specialize (mc_chain0 j c Hj). rewrite Hget. destruct (decide (c = a)) as [->|Hca].
    + assert (j = k) as -> by (by eapply NoDup_lookup). rewrite Hkb. left. split; [done|].
      intros Hin. apply (Hnew _ Hin). by apply list_elem_of_singleton.
    + destruct (ns !! S j); [|done]. rewrite Hel in mc_chain0. naive_solver.
  - intros c d Hcd. apply mc_pending0, Hel. by left.
  - intros m [j Hj]%list_elem_of_lookup. apply list_lookup_insert_Some in Hj as [(_&[=]&_)|[_ Hj]].
    rewrite Hget, decide_False; [eauto using list_elem_of_lookup_2|]. intros ->.
    destruct (Hdis (list_elem_of_lookup_2 _ _ _ Hka)) as [_ []]. eapply owned_elem; [done|]. by apply list_elem_of_singleton.
Qed.

(** The consumer leaves the node at [tail] behind. *)
Lemma core_advance q pcs out ns a b : mq_core q pcs out (a :: ns) -> mq_get q a = Some (Some b) ->
  mq_core (mq_set_tail b q) pcs (a :: out) ns /\ head ns = Some b.
Proof.
  intros [] Ha. pose proof (mc_chain0 0%nat a eq_refl) as Hab. destruct ns as [|b' ns]; cbn in Hab; [congruence|].
  destruct Hab as [[Hb Hnot]|[Hb _]]; [|congruence]. assert (b' = b) as -> by congruence. split; [|done].
  assert (Hp : (a :: out) ++ owned_by pcs ++ b :: ns ≡ₚ out ++ owned_by pcs ++ a :: b :: ns) by solve_Permutation.
  split; cbn; try done; [by rewrite Hp|intros p; rewrite Hp; apply mc_live0|intros k c Hk; apply (mc_chain0 (S k) c Hk)|].
  intros c d Hcd. destruct (mc_pending0 c d Hcd) as ([|k]&Hk1&Hk2); [|by exists k]. cbn in Hk1, Hk2. simplify_eq. done.
Qed.

(** One step of a call of push; the queue grows at the exchange. *)
Definition xchg_node (c : mpscq_ppc) : list ptr := match c with MXchg n => [n] | _ => [] end.

Lemma core_push q pcs out ns i c c' q' : mq_core q pcs out ns -> pcs !! i = Some c -> push_step c q = Some (c', q') ->
  mq_core q' (<[i := c']> pcs) out (ns ++ xchg_node c) /\ mq_stub q' = mq_stub q /\ mq_tail q' = mq_tail q.
Proof using All.
  intros Hc Hi Hs. destruct c as [|n|n|a b]; cbn in Hs; rewrite ?app_nil_r; try done.
  - destruct (mq_set n None q) as [q1|] eqn:E; cbn in Hs; simplify_eq. pose proof (mq_set_fields _ _ _ _ E) as (?&?&?).
    split; [by eapply core_store|done].
  - rewrite xchg_swaps in Hs. simplify_eq. split; [by eapply core_xchg|done].
  - destruct (mq_set a (Some b) q) as [q1|] eqn:E; cbn in Hs; simplify_eq. pose proof (mq_set_fields _ _ _ _ E) as (?&?&?).
    split; [by eapply core_link|done].
Qed.

Lemma core_push_defined q pcs out ns i c : mq_core q pcs out ns -> pcs !! i = Some c -> c <> MIdle -> is_Some (push_step c q).
Proof.
  intros Hc Hi Hne. destruct c as [|n|n|a b]; [done|..]; cbn.
  - destruct (mq_set_live q n None) as [q' ->]; [|eauto]. apply (mc_live _ _ _ _ Hc). rewrite !elem_of_app. right; left.
    eapply owned_elem; [done|]. by apply list_elem_of_singleton.
  - destruct (XCHG _ _). eauto.
  - destruct (mq_set_live q a (Some b)) as [q' ->]; [|eauto]. apply (mc_live _ _ _ _ Hc). rewrite !elem_of_app. right; right.
    destruct (mc_pending _ _ _ _ Hc a b) as (k&?&_); eauto using links_elem, list_elem_of_lookup_2.
Qed.
End Core.

(** ** The system *)

Definition kpush (c : mpscq_cpc) : mpscq_ppc := match c with KPush _ p => p | _ => MIdle end.
Definition returned (c : mpscq_cpc) : list ptr := match c with KRet r => option_list r | _ => [] end.

(** The stub is in the queue, set aside ([hs]), or being pushed. *)
Definition stub_ok (q : mpscq_t) (c : mpscq_cpc) (hs ns : list ptr) : Prop :=
  match kpush c with
  | MStore n | MXchg n => n = mq_stub q /\ hs = []
  | _ => hs = [mq_stub q] \/ hs = [] /\ (mq_stub q ∈ ns)
  end.

(** The consumer's variable [tail] is [self->tail] from the second test on, and not the stub. *)
Definition mq_consumer_ok (q : mpscq_t) (c : mpscq_cpc) : Prop :=
  match c with
  | KReload t | KHead t | KAgain t => t = mq_tail q /\ t <> mq_stub q
  | KPush t p => (t = mq_tail q /\ t <> mq_stub q) /\ p <> MIdle
  | _ => True
  end.

Abbreviation real q ns := (filter (fun p => p <> mq_stub q) ns).

Record mq_inv_at (y : mpscq_system) (hs ns : list ptr) : Prop := {
  mi_core : mq_core (my_queue y) (kpush (my_consumer y) :: my_producers y)
              (my_free y ++ returned (my_consumer y) ++ hs) ns;
  mi_stub : stub_ok (my_queue y) (my_consumer y) hs ns;
  mi_consumer : mq_consumer_ok (my_queue y) (my_consumer y);
  mi_log : my_pushed y = my_popped y ++ returned (my_consumer y) ++ real (my_queue y) ns
}.

Definition mq_inv (y : mpscq_system) : Prop := exists hs ns, mq_inv_at y hs ns.

Abbreviation with_consumer y c q := (mk_mpscq_system q (my_producers y) c (my_free y) (my_pushed y) (my_popped y)).

Section System.
Context `{Xchg, !XchgLaw}.
Implicit Types (y : mpscq_system).

Lemma mq_start_inv stub ns k : NoDup ns -> (stub ∉ ns) -> mq_inv (mpscq_start stub ns k).
Proof.
  intros Hnd Hst. exists [], [stub]. assert (Hr : forall l, owned_by (l :: replicate k MIdle) = mq_owned l /\ links_of (l :: replicate k MIdle) = mq_linking l).
  { intros l. cbn. induction k as [|k [IH1 IH2]]; cbn; [by rewrite !app_nil_r|done]. }
  destruct (Hr MIdle) as [Ho Hl]. split; cbn -[filter]; rewrite ?app_nil_r.
  - split; rewrite ?Ho, ?Hl; cbn; try done.
    + apply NoDup_app. split_and!; [done| |apply NoDup_singleton]. by intros p Hp ->%list_elem_of_singleton.
    + intros p [Hp|Hp%list_elem_of_singleton]%elem_of_app; unfold mq_get; cbn.
      * rewrite lookup_insert_ne by congruence. apply list_elem_of_lookup in Hp as [i Hi].
        apply fmap_is_Some. eexists. apply elem_of_list_to_map_1; [|apply (list_elem_of_fmap_2 (fun p => (p, mk_mpscq_node None)) _ p); by eapply list_elem_of_lookup_2].
        rewrite <- list_fmap_compose. by rewrite list_fmap_id.
      * subst. rewrite lookup_insert_eq. by eexists.
    + intros [|i] a Ha; [|done]. cbn in *. simplify_eq. unfold mq_get; cbn. by rewrite lookup_insert_eq.
    + intros a b Hab. by apply elem_of_nil in Hab.
    + constructor.
    + intros n [Hn|Hn]%elem_of_cons; [done|]. apply elem_of_replicate in Hn as [? _]. done.
  - right. split; [done|]. by apply list_elem_of_singleton.
  - done.
  - symmetry. rewrite filter_cons_False by naive_solver. done.
Qed.

(** No producer pushes the stub. *)
Lemma stub_not_owned y hs ns : mq_inv_at y hs ns -> mq_stub (my_queue y) ∉ owned_by (my_producers y).
Proof.
  intros [Hc Hs _ _] Hin. destruct Hc as [Hnd _ _ _ _ _ _ _]. cbn in Hnd. apply NoDup_app in Hnd as (_&Hd&Hnd).
  rewrite <- app_assoc in Hnd. apply NoDup_app in Hnd as (_&Hd2&Hnd). apply NoDup_app in Hnd as (_&Hd3&_).
  assert (Hst : mq_stub (my_queue y) ∈ (hs ++ mq_owned (kpush (my_consumer y)) ++ ns)).
  { unfold stub_ok in Hs. rewrite !elem_of_app. destruct (kpush (my_consumer y)); cbn; destruct Hs as [->|[-> ?]] || destruct Hs as [-> ->]; set_solver. }
  rewrite !elem_of_app in Hst. destruct Hst as [Hh|[Ho|Hn]].
  - apply (Hd (mq_stub (my_queue y))); set_solver.
  - apply (Hd2 _ Ho). set_solver.
  - by apply (Hd3 _ Hin).
Qed.

Lemma real_snoc q ns n : n <> mq_stub q -> real q (ns ++ [n]) = real q ns ++ [n].
Proof. intros Hn. rewrite filter_app. f_equal. by rewrite filter_cons_True. Qed.

Lemma real_snoc_stub q ns : real q (ns ++ [mq_stub q]) = real q ns.
Proof. rewrite filter_app, filter_cons_False by naive_solver. apply app_nil_r. Qed.

Lemma mq_producer_inv y i c c' q' : mq_inv y -> my_producers y !! i = Some c -> push_step c (my_queue y) = Some (c', q') ->
  mq_inv (mk_mpscq_system q' (<[i := c']> (my_producers y)) (my_consumer y) (my_free y)
      (match c with MXchg n => my_pushed y ++ [n] | _ => my_pushed y end) (my_popped y)).
Proof using All.
  intros (hs&ns&Hy) Hi Hs. pose proof (stub_not_owned _ _ _ Hy) as Hno. destruct Hy as [Hc Hst Hk Hlog].
  destruct (core_push _ _ _ _ (S i) c c' q' Hc Hi Hs) as (Hc'&Hsq&Htq).
  exists hs, (ns ++ xchg_node c). split; cbn -[filter] in *; [done|..].
  - unfold stub_ok in *. rewrite Hsq. destruct (kpush _); set_solver.
  - destruct (my_consumer y); cbn in *; rewrite ?Hsq, ?Htq; done.
  - rewrite Hsq. destruct c; cbn; rewrite ?app_nil_r; try done. rewrite real_snoc, Hlog, <- !app_assoc; [done|].
    intros ->. apply Hno. eapply owned_elem; [done|]. by apply list_elem_of_singleton.
Qed.

Lemma mq_call_inv y i n f1 f2 : mq_inv y -> my_producers y !! i = Some MIdle -> my_free y = f1 ++ n :: f2 ->
  mq_inv (mk_mpscq_system (my_queue y) (<[i := MStore n]> (my_producers y)) (my_consumer y) (f1 ++ f2) (my_pushed y) (my_popped y)).
Proof.
  intros (hs&ns&[Hc Hst Hk Hlog]) Hi Hf. exists hs, ns. split; cbn -[filter]; try done.
  apply (core_call _ (_ :: _) n _ _ (S i)); [|done]. eapply core_perm; [|done]. rewrite Hf. solve_Permutation.
Qed.

(** The consumer moves on without a store. *)
Lemma mq_local_inv y hs ns c' : mq_inv_at y hs ns -> kpush (my_consumer y) = MIdle -> returned (my_consumer y) = [] ->
  kpush c' = MIdle -> returned c' = [] -> mq_consumer_ok (my_queue y) c' -> mq_inv_at (with_consumer y c' (my_queue y)) hs ns.
Proof.
  intros [Hc Hst _ Hlog] Hk Hr Hk' Hr' Hok. unfold stub_ok in *. rewrite Hk, Hr in *.
  split; cbn -[filter]; rewrite ?Hk', ?Hr'; try done. unfold stub_ok. by rewrite Hk'.
Qed.

(** A node that is not the stub is taken out and returned. *)
Lemma mq_take_inv y hs ns t n : mq_inv_at y hs ns -> kpush (my_consumer y) = MIdle -> returned (my_consumer y) = [] ->
  t = mq_tail (my_queue y) -> t <> mq_stub (my_queue y) -> mq_get (my_queue y) t = Some (Some n) ->
  mq_inv (with_consumer y (KRet (Some t)) (mq_set_tail n (my_queue y))).
Proof.
  intros [Hc Hst _ Hlog] Hk Hr Ht Hts Hn. unfold stub_ok in *. rewrite Hk, Hr in *. cbn -[filter] in *.
  pose proof (mc_tail _ _ _ _ Hc) as Htl. destruct ns as [|a ns]; [done|]. cbn in Htl. assert (a = t) as -> by congruence.
  destruct (core_advance _ _ _ _ _ _ Hc Hn) as [Hc' _]. exists hs, ns. split; cbn -[filter]; try done.
  - eapply core_perm; [|done]. solve_Permutation.
  - unfold stub_ok; cbn. set_solver.
  - rewrite Hlog. by rewrite filter_cons_True.
Qed.

(** The stub is taken out and set aside. *)
Lemma mq_skip_inv y hs ns n : mq_inv_at y hs ns -> my_consumer y = KNext ->
  mq_tail (my_queue y) = mq_stub (my_queue y) -> mq_get (my_queue y) (mq_stub (my_queue y)) = Some (Some n) ->
  mq_inv (with_consumer y (KReload n) (mq_set_tail n (my_queue y))).
Proof.
  intros [Hc Hst _ Hlog] Hk Ht Hn. unfold stub_ok in *. rewrite Hk in *. cbn -[filter] in *.
  pose proof (mc_tail _ _ _ _ Hc) as Htl. destruct ns as [|a ns]; [done|]. cbn in Htl.
  assert (a = mq_stub (my_queue y)) as -> by congruence. pose proof (core_nodup_ns _ _ _ _ Hc) as [Hnin _]%NoDup_cons.
  assert (hs = []) as ->. { destruct Hst as [->|[-> _]]; [|done]. destruct (core_disjoint _ _ _ _ (mq_stub (my_queue y)) Hc ltac:(set_solver)) as [[] _]. set_solver. }
  destruct (core_advance _ _ _ _ _ _ Hc Hn) as [Hc' Hhd]. exists [mq_stub (my_queue y)], ns. split; cbn -[filter].
  - eapply core_perm; [|done]. solve_Permutation.
  - by left.
  - split; [done|]. intros ->. apply Hnin. by apply head_Some_elem_of.
  - rewrite Hlog. by rewrite filter_cons_False by naive_solver.
Qed.

Lemma mq_from_inv y t next : mq_inv y -> kpush (my_consumer y) = MIdle -> returned (my_consumer y) = [] ->
  t = mq_tail (my_queue y) -> t <> mq_stub (my_queue y) -> mq_get (my_queue y) t = Some next ->
  mq_inv (with_consumer y (KFrom t next (my_queue y)).1 (KFrom t next (my_queue y)).2).
Proof.
  intros (hs&ns&Hy) Hk Hr Ht Hts Hn. destruct next as [n|]; cbn; [by eapply mq_take_inv|].
  exists hs, ns. by apply mq_local_inv.
Qed.

(** [tail] is the only node: the stub is outside, and is pushed. *)
Lemma mq_stub_inv y hs ns : mq_inv_at y hs ns -> my_consumer y = KHead (mq_tail (my_queue y)) ->
  mq_tail (my_queue y) <> mq_stub (my_queue y) -> mq_tail (my_queue y) = mq_head (my_queue y) ->
  mq_inv (with_consumer y (KPush (mq_tail (my_queue y)) (MStore (mq_stub (my_queue y)))) (my_queue y)).
Proof.
  intros [Hc Hst _ Hlog] Hk Hts Hth. unfold stub_ok in Hst. rewrite Hk in *. cbn -[filter] in *.
  pose proof (core_nodup_ns _ _ _ _ Hc) as Hnd. pose proof (mc_tail _ _ _ _ Hc) as Ht. pose proof (mc_head _ _ _ _ Hc) as Hh.
  assert (ns = [mq_tail (my_queue y)]) as ->.
  { destruct ns as [|a ns]; [done|]. cbn in Ht. assert (a = mq_tail (my_queue y)) as -> by congruence. destruct ns as [|b ns]; [done|].
    exfalso. apply NoDup_cons in Hnd as [[] _]. rewrite Hth. apply last_Some_elem_of. by rewrite last_cons_cons in Hh. }
  destruct Hst as [->|[-> Hin%list_elem_of_singleton]]; [|congruence].
  exists [], [mq_tail (my_queue y)]. split; cbn -[filter]; try done.
  apply (core_call _ (MIdle :: _) _ _ _ 0%nat); [|done]. eapply core_perm; [|done]. solve_Permutation.
Qed.

(** A step of the push of the stub. *)
Lemma mq_kpush_inv y t c c' q' : mq_inv y -> my_consumer y = KPush t c -> push_step c (my_queue y) = Some (c', q') ->
  mq_inv (with_consumer y (match c' with MIdle => KAgain t | _ => KPush t c' end) q').
Proof using All.
  intros (hs&ns&[Hc Hst Hok Hlog]) Hk Hs. unfold stub_ok in *. rewrite Hk in *. cbn -[filter] in *.
  destruct (core_push _ _ _ _ 0%nat c c' q' Hc eq_refl Hs) as (Hc'&Hsq&Htq). destruct Hok as [[Ht Hts] Hne].
  exists hs, (ns ++ xchg_node c). destruct c as [|n|n|a b]; cbn in Hs; try done.
  - destruct (mq_set n None (my_queue y)) as [q1|] eqn:E; cbn in Hs; simplify_eq. cbn in Hc'. rewrite app_nil_r in *.
    split; cbn -[filter]; rewrite ?Hsq, ?Htq; done.
  - rewrite xchg_swaps in Hs. simplify_eq. destruct Hst as [-> ->]. cbn -[filter] in *.
    split; cbn -[filter]; try done; [right; set_solver|]. by rewrite real_snoc_stub.
  - destruct (mq_set a (Some b) (my_queue y)) as [q1|] eqn:E; cbn in Hs; simplify_eq. cbn in Hc'. rewrite app_nil_r in *.
    split; cbn -[filter]; rewrite ?Hsq, ?Htq; done.
Qed.

Lemma mq_consumer_inv y c' q' : mq_inv y -> pop_step (my_consumer y) (my_queue y) = Some (c', q') ->
  mq_inv (with_consumer y c' q').
Proof using All.
  intros Hy Hs. destruct (my_consumer y) as [| |t|t|t p|t|r] eqn:Hk; cbn in Hs; try done; pose proof Hy as (hs&ns&Hyn);
    pose proof (mi_consumer _ _ _ Hyn) as Hok; rewrite Hk in Hok; cbn in Hok.
  - destruct (mq_get (my_queue y) (mq_tail (my_queue y))) as [next|] eqn:Hn; cbn in Hs; [|done].
    destruct (decide _) as [Hd|Hd].
    + rewrite Hd in Hn. destruct next as [n|]; simplify_eq; [by eapply mq_skip_inv|].
      exists hs, ns. apply mq_local_inv; [done|by rewrite Hk..|done|done|done].
    + pose proof (mq_from_inv y _ next Hy ltac:(by rewrite Hk) ltac:(by rewrite Hk) eq_refl Hd Hn) as Hf.
      injection Hs as Hs. by rewrite Hs in Hf.
  - destruct Hok as [-> Hts]. destruct (mq_get _ _) as [next|] eqn:Hn in Hs; cbn in Hs; [|done].
    pose proof (mq_from_inv y _ next Hy ltac:(by rewrite Hk) ltac:(by rewrite Hk) eq_refl Hts Hn) as Hf.
    injection Hs as Hs. by rewrite Hs in Hf.
  - simplify_eq. destruct Hok as [-> Hts]. case_decide as Hd; [exists hs, ns; by apply mq_local_inv; rewrite ?Hk|].
    by eapply mq_stub_inv.
  - destruct (push_step p (my_queue y)) as [[p' q1]|] eqn:E; cbn in Hs; [|done]. simplify_eq.
    pose proof (mq_kpush_inv _ _ _ _ _ Hy Hk E) as Hf. by destruct p'.
  - destruct Hok as [-> Hts]. unfold pop_again in Hs. destruct (mq_get _ _) as [next|] eqn:Hn in Hs; cbn in Hs; [|done].
    destruct next as [n|]; cbn in Hs; simplify_eq; [eapply mq_take_inv; by rewrite ?Hk|].
    exists hs, ns. apply mq_local_inv; [done|by rewrite Hk..|done|done|done].
Qed.

Lemma mq_step_inv y y' : mq_inv y -> mpscq_step y y' -> mq_inv y'.
Proof using All.
  intros Hy [i n f1 f2 Hi Hf|i c c' q' Hi Hs|Hk|c' q' Hs|r Hk].
  - by eapply mq_call_inv.
  - by eapply mq_producer_inv.
  - destruct Hy as (hs&ns&Hy). exists hs, ns. by apply mq_local_inv; rewrite ?Hk.
  - by apply mq_consumer_inv.
  - destruct Hy as (hs&ns&[Hc Hst _ Hlog]). exists hs, ns. unfold stub_ok in *. rewrite Hk in *. cbn -[filter] in *.
    split; cbn -[filter]; try done; [|by rewrite <- app_assoc]. eapply core_perm; [|done]. by rewrite <- app_assoc.
Qed.

Lemma mq_consumer_defined y : mq_inv y -> my_consumer y <> KIdle -> (forall r, my_consumer y <> KRet r) ->
  is_Some (pop_step (my_consumer y) (my_queue y)).
Proof.
  intros (hs&ns&[Hc _ Hok _]) Hne Hnr.
  destruct (mc_live _ _ _ _ Hc (mq_tail (my_queue y))) as [next Hnext].
  { rewrite !elem_of_app. right; right. apply head_Some_elem_of. apply Hc. }
  destruct (my_consumer y) as [| |t|t|t p|t|r] eqn:Hk; cbn in *.
  - done.
  - rewrite Hnext. cbn. repeat case_match; eauto.
  - destruct Hok as [-> _]. rewrite Hnext. cbn. eauto.
  - eauto.
  - destruct (core_push_defined _ _ _ _ 0%nat p Hc eq_refl ltac:(tauto)) as [r ->]. cbn. eauto.
  - destruct Hok as [-> _]. unfold pop_again. rewrite Hnext. cbn. destruct next; cbn; eauto.
  - by destruct (Hnr r).
Qed.

(** With every thread between two calls, the links are all there. *)
Lemma mq_quiet_links pcs : Forall (fun c => c = MIdle) pcs -> links_of pcs = [].
Proof. induction 1 as [|c pcs -> _ IH]; [done|]. cbn. exact IH. Qed.

Lemma mq_quiet_next q pcs out ns i a : mq_core q pcs out ns -> links_of pcs = [] -> ns !! i = Some a -> mq_get q a = Some (ns !! S i).
Proof.
  intros Hc Hl Hi. pose proof (mc_chain _ _ _ _ Hc i a Hi) as Hch. rewrite Hl in Hch. destruct (ns !! S i); [|done].
  destruct Hch as [[? _]|[_ []%elem_of_nil]]. done.
Qed.

(** Pushing the stub behind the only node, in one call. *)
Lemma mq_pop_last q pcs out t : mq_core q pcs out [t] -> links_of pcs = [] -> (mq_stub q ∈ out) -> t <> mq_stub q ->
  exists q', mpscq_push (mq_stub q) q = Some q' /\ pop_again t q' = Some (Some t, mq_set_tail (mq_stub q) q').
Proof using All.
  intros Hc Hl Hst Ht. unfold mpscq_push.
  destruct (mq_set_live q (mq_stub q) None) as [q1 Hq1]; [apply Hc; set_solver|]. rewrite Hq1. cbn. rewrite xchg_swaps.
  destruct (mq_set_fields _ _ _ _ Hq1) as (Hh&Htl&Hs). pose proof (mc_head _ _ _ _ Hc) as Hhd. cbn in Hhd.
  assert (mq_head q1 = t) as -> by congruence.
  destruct (mq_set_live (mq_set_head (mq_stub q) q1) t (Some (mq_stub q))) as [q2 Hq2].
  { change (is_Some (mq_get q1 t)). rewrite (mq_get_set _ _ _ _ t Hq1). case_decide; [eauto|]. apply Hc. set_solver. }
  exists q2. split; [done|]. unfold pop_again. by rewrite (mq_get_set _ _ _ _ t Hq2), decide_True.
Qed.

(** A call of pop while the others are idle: the oldest node in the queue, or null if there is none. *)
Lemma mq_pop_quiet y hs ns : mq_inv_at y hs ns -> my_consumer y = KIdle -> Forall (fun c => c = MIdle) (my_producers y) ->
  exists q', mpscq_pop (my_queue y) = Some (head (real (my_queue y) ns), q').
Proof using All.
  intros [Hc Hst _ _] Hk Hq. unfold stub_ok in Hst. rewrite Hk in *. cbn -[filter] in *. set (q := my_queue y) in *.
  assert (Hl : links_of (MIdle :: my_producers y) = []) by (apply mq_quiet_links; by constructor).
  pose proof (mc_tail _ _ _ _ Hc) as Ht. destruct ns as [|t ns]; [done|]. cbn in Ht. injection Ht as Ht.
  assert (Hfrom : forall q2 ns2 t2 out2, mq_core q2 (MIdle :: my_producers y) out2 (t2 :: ns2) -> mq_stub q2 = mq_stub q ->
    (ns2 = [] -> mq_stub q ∈ out2) -> t2 <> mq_stub q ->
    exists q', pop_from t2 (head ns2) q2 = Some (Some t2, q')).
  { intros q2 ns2 t2 out2 Hc2 Hs2 Hst2 Hne. unfold pop_from. destruct ns2 as [|n ns2]; cbn; [|eauto].
    pose proof (mc_head _ _ _ _ Hc2) as Hh2. cbn in Hh2. rewrite decide_False by naive_solver. rewrite <- Hs2 in *.
    destruct (mq_pop_last q2 _ _ t2 Hc2 Hl (Hst2 eq_refl) Hne) as (q3&->&Hag). cbn. eauto. }
  unfold mpscq_pop. rewrite <- Ht, (mq_quiet_next _ _ _ _ 0%nat t Hc Hl eq_refl). cbn -[filter].
  case_decide as Hd.
  - rewrite filter_cons_False by naive_solver. destruct ns as [|n ns]; cbn -[filter]; [eauto|].
    destruct (core_advance _ _ _ _ _ n Hc) as [Hc' _]; [by rewrite (mq_quiet_next _ _ _ _ 0%nat t Hc Hl eq_refl)|].
    pose proof (core_nodup_ns _ _ _ _ Hc) as [Hnin _]%NoDup_cons.
    assert (n <> mq_stub q) by set_solver.
    rewrite (mq_quiet_next _ _ _ _ 0%nat n Hc' Hl eq_refl). cbn -[filter]. rewrite filter_cons_True by done.
    replace (ns !! 0%nat) with (head ns) by (by destruct ns). eapply Hfrom; [done|done|set_solver|done].
  - rewrite filter_cons_True by done. replace (ns !! 0%nat) with (head ns) by (by destruct ns).
    eapply Hfrom; [done|done| |done]. intros ->. destruct Hst as [->|[-> Hin]]; set_solver.
Qed.

(** C20. The intrusive queue under all interleavings of many producers and one consumer.  Nodes are
    popped in the order of the exchanges, each once: what was popped is a prefix of what was pushed,
    up to the node [mpscq_pop] is about to return.  No access follows a pointer that is not a node.
    When no push is under way, [mpscq_pop] returns the oldest node of the queue, and null exactly
    when the queue is empty. *)
Theorem mpscq_concurrent stub ns k y : NoDup ns -> (stub ∉ ns) -> rtc mpscq_step (mpscq_start stub ns k) y ->
  exists pending,
    my_pushed y = my_popped y ++ returned (my_consumer y) ++ pending /\ NoDup pending /\
    (forall i c, my_producers y !! i = Some c -> c <> MIdle -> is_Some (push_step c (my_queue y))) /\
    (my_consumer y <> KIdle -> (forall r, my_consumer y <> KRet r) -> is_Some (pop_step (my_consumer y) (my_queue y))) /\
    (my_consumer y = KIdle -> Forall (fun c => c = MIdle) (my_producers y) ->
      exists q', mpscq_pop (my_queue y) = Some (head pending, q')).
Proof using All.
  intros Hnd Hst Hr. assert (Hy : mq_inv y).
  { eapply (rtc_invariant mpscq_step mq_inv); [apply mq_step_inv|by apply mq_start_inv|done]. }
  pose proof Hy as (hs&nn&Hn). exists (real (my_queue y) nn). split_and!.
  - apply Hn.
  - apply NoDup_filter. eapply core_nodup_ns, Hn.
  - intros i c Hi Hc. eapply (core_push_defined _ _ _ _ (S i)); [apply Hn|done|done].
  - by apply mq_consumer_defined.
  - by eapply mq_pop_quiet.
Qed.
End System.

(** ** A concrete run *)

(** An exchange, as x86 has it. *)
#[local] Instance plain_xchg : Xchg := fun old new => (old, new).
#[local] Instance plain_xchg_law : XchgLaw.
Proof. done. Qed.

Inductive mq_move := QPush (i : nat) (n : ptr) | QProducer (i : nat) | QPop | QConsumer | QReturn.

Definition mq_run_move (m : mq_move) (y : mpscq_system) : option mpscq_system :=
  match m with
  | QPush i n =>
      match my_producers y !! i, my_free y with
      | Some MIdle, f :: fs =>
          if decide (f = n) then
            Some (mk_mpscq_system (my_queue y) (<[i := MStore n]> (my_producers y)) (my_consumer y) fs (my_pushed y) (my_popped y))
          else None
      | _, _ => None
      end
  | QProducer i =>
      c ← my_producers y !! i; r ← push_step c (my_queue y);
      Some (mk_mpscq_system r.2 (<[i := r.1]> (my_producers y)) (my_consumer y) (my_free y)
        (match c with MXchg n => my_pushed y ++ [n] | _ => my_pushed y end) (my_popped y))
  | QPop => match my_consumer y with KIdle => Some (with_consumer y KNext (my_queue y)) | _ => None end
  | QConsumer => r ← pop_step (my_consumer y) (my_queue y); Some (with_consumer y r.1 r.2)
  | QReturn =>
      match my_consumer y with
      | KRet r => Some (mk_mpscq_system (my_queue y) (my_producers y) KIdle
                    (my_free y ++ option_list r) (my_pushed y) (my_popped y ++ option_list r))
      | _ => None
      end
  end.

Fixpoint mq_run_moves (l : list mq_move) (y : mpscq_system) : option mpscq_system :=
  match l with [] => Some y | m :: l' => y' ← mq_run_move m y; mq_run_moves l' y' end.

Lemma mq_run_moves_steps l y y' : mq_run_moves l y = Some y' -> rtc mpscq_step y y'.
Proof.
  revert y. induction l as [|m l IH]; intros y; cbn [mq_run_moves]; [by intros [= ->]|].
  destruct (mq_run_move m y) as [y1|] eqn:Hm; cbn; [|done]. intros Hl. eapply rtc_l; [|by apply IH].
  destruct m as [i n|i| | |]; cbn in Hm.
  - destruct (my_producers y !! i) as [[]|] eqn:Hi; try done. destruct (my_free y) as [|f fs] eqn:Hf; [done|].
    case_decide; simplify_eq. by apply (mq_call_push y i n [] fs).
  - destruct (my_producers y !! i) as [c|] eqn:Hi; [|done]. cbn in Hm.
    destruct (push_step c (my_queue y)) as [[c' q']|] eqn:Hs; cbn in Hm; simplify_eq. by apply mq_producer.
  - destruct (my_consumer y) eqn:Hk; simplify_eq. by apply mq_call_pop.
  - destruct (pop_step _ _) as [[c' q']|] eqn:Hs; cbn in Hm; simplify_eq. by apply mq_consumer.
  - destruct (my_consumer y) as [| | | | | |r] eqn:Hk; simplify_eq. by apply mq_return.
Qed.

(** Node 2 is pushed; the push of node 3 stops after its exchange, so a pop returns null although
    the queue holds both; then the link is stored, and the next pop returns node 2. *)
Definition mq_moves : list mq_move :=
  [QPush 0 2; QProducer 0; QProducer 0; QProducer 0; QPush 1 3; QProducer 1; QProducer 1;
   QPop; QConsumer; QConsumer; QConsumer; QReturn; QProducer 1; QPop; QConsumer; QReturn].

Definition mq_end : mpscq_system :=
  default (mpscq_start 1 [2; 3]%positive 2) (mq_run_moves mq_moves (mpscq_start 1 [2; 3]%positive 2)).

Lemma mpscq_concurrent_witness :
  (my_popped mq_end = [2]%positive /\ my_pushed mq_end = [2; 3]%positive /\ my_consumer mq_end = KIdle) /\
  exists pending, my_pushed mq_end = my_popped mq_end ++ returned (my_consumer mq_end) ++ pending /\
    exists q', mpscq_pop (my_queue mq_end) = Some (head pending, q').
Proof.
  split; [vm_compute; split_and!; reflexivity|].
  destruct (mpscq_concurrent 1 [2; 3]%positive 2 mq_end) as (pending&Hp&_&_&_&Hq);
    [refine (bool_decide_eq_true_1 _ _); vm_compute; reflexivity|refine (bool_decide_eq_true_1 _ _); vm_compute; reflexivity|
     apply (mq_run_moves_steps mq_moves); vm_compute; reflexivity|].
  exists pending. split; [exact Hp|]. apply Hq; [vm_compute; reflexivity|vm_compute; repeat constructor].
Defined.
