(* ===== verification/Pools.v ===== *)
(** * The other pools of libs/: objects.h, objpool.h and pool.h

    Three object pools that differ in what they do when they are empty: [ObjectPool] of
    objects.h grows, [SmartObjectPool] of objpool.h throws and takes its objects back when their
    handles die, [Pool] of pool.h tries to grow behind its last element. *)

From S2P Require Import Prelude Heap.

(** ** libs/objects.h *)

(** The queue of free objects, and the addresses handed out by [::operator new] so far. *)
Record DequePool := mk_DequePool {
  m_pool : list ptr;
  m_grow : Z;
  m_alloc_count : Z;
  m_release_count : Z;
  m_next : ptr
}.

Definition set_pool (l : list ptr) (nx : ptr) (s : DequePool) : DequePool :=
  mk_DequePool l (m_grow s) (m_alloc_count s) (m_release_count s) nx.

(** [inflate]: as many fresh objects at the back; a negative [int] converts to a huge [size_t]. *)
Fixpoint inflate (count : nat) (s : DequePool) : DequePool :=
  match count with
  | O => s
  | S count' => inflate count' (set_pool (m_pool s ++ [m_next s]) (Pos.succ (m_next s)) s)
  end.

Definition DequePool_new (size grow : Z) : DequePool :=
  inflate (Z.to_nat (u64 size)) (mk_DequePool [] grow 0 0 1%positive).

(** [front] of an empty deque is undefined. *)
Definition DequePool_acquire : M DequePool ptr := fun s =>
  let s := match m_pool s with [] => inflate (Z.to_nat (u64 (m_grow s))) s | _ => s end in
  match m_pool s with
  | p :: l => (Ok p, mk_DequePool l (m_grow s) (m_alloc_count s + 1) (m_release_count s) (m_next s))
  | [] => (Undefined, s)
  end.

Definition DequePool_release (p : ptr) : M DequePool unit :=
  modify (fun s => mk_DequePool (m_pool s ++ [p]) (m_grow s) (m_alloc_count s) (m_release_count s + 1) (m_next s)).

Definition DequePool_empty (s : DequePool) : bool := match m_pool s with [] => true | _ => false end.
Definition DequePool_size (s : DequePool) : Z := zlen (m_pool s).

(** ** libs/objpool.h *)

(** The stack of free objects, top first; [this_ptr_] dies with the pool, and the handles' weak
    pointers see it.  [sp_heap] has the live objects. *)
Record SmartObjectPool := mk_SmartPool {
  sp_alive : bool;
  pool_ : list ptr;
  sp_heap : heap unit
}.

Definition SmartPool_new : SmartObjectPool := mk_SmartPool true [] heap_empty.

(** [add(std::unique_ptr<T>(new T))] *)
Definition SmartPool_add_new : M SmartObjectPool ptr := fun s =>
  let '(p, h) := heap_new tt (sp_heap s) in (Ok p, mk_SmartPool (sp_alive s) (p :: pool_ s) h).

Definition SmartPool_add (p : ptr) : M SmartObjectPool unit :=
  modify (fun s => mk_SmartPool (sp_alive s) (p :: pool_ s) (sp_heap s)).

(** Throws [std::out_of_range] when the pool is empty. *)
Definition SmartPool_acquire : M SmartObjectPool ptr := fun s =>
  match pool_ s with
  | [] => (ThrowStd, s)
  | p :: l => (Ok p, mk_SmartPool (sp_alive s) l (sp_heap s))
  end.

(** [delete p] *)
Definition SmartPool_delete (p : ptr) : M SmartObjectPool unit := fun s =>
  match heap_delete p (sp_heap s) with
  | Some h => (Ok tt, mk_SmartPool (sp_alive s) (pool_ s) h)
  | None => (Undefined, s)
  end.

(** A handle dies: back to the pool when it still exists, deleted otherwise. *)
Definition ReturnToPool_Deleter (p : ptr) : M SmartObjectPool unit := fun s =>
  if sp_alive s then SmartPool_add p s else SmartPool_delete p s.

(** The pool dies: [this_ptr_] expires and the stack deletes its objects. *)
Definition SmartPool_destroy : M SmartObjectPool unit := fun s =>
  bind (for_each (pool_ s) SmartPool_delete)
    (fun _ => modify (fun s => mk_SmartPool false [] (sp_heap s))) s.

Definition SmartPool_empty (s : SmartObjectPool) : bool := match pool_ s with [] => true | _ => false end.
Definition SmartPool_size (s : SmartObjectPool) : Z := zlen (pool_ s).

(** ** libs/pool.h *)

Record Element := mk_Element { el_next : option ptr }.

Record Pool := mk_Pool {
  m_elements : heap Element;
  m_head : option ptr;
  m_tail : option ptr;
  pool_grow : Z
}.

Definition set_next (p : ptr) (nx : option ptr) (s : Pool) : option Pool :=
  h ← heap_set p (mk_Element nx) (m_elements s); Some (mk_Pool h (m_head s) (m_tail s) (pool_grow s)).

(** [inflate]: new elements behind [m_tail]. *)
Fixpoint Pool_inflate (size : nat) (s : Pool) : option Pool :=
  match size with
  | O => Some s
  | S size' =>
      match m_tail s with
      | Some pTmp =>
          let '(n, h) := heap_new (mk_Element None) (m_elements s) in
          s ← set_next pTmp (Some n) (mk_Pool h (m_head s) (m_tail s) (pool_grow s));
          Pool_inflate size' (mk_Pool (m_elements s) (m_head s) (Some n) (pool_grow s))
      | None => Pool_inflate size' s
      end
  end.

(** One element and [grow] more; [size] is only printed. *)
Definition Pool_new (size grow : Z) : option Pool :=
  let '(p, h) := heap_new (mk_Element None) heap_empty in
  Pool_inflate (Z.to_nat grow) (mk_Pool h (Some p) (Some p) grow).

Definition Pool_acquire (dbg : bool) : M Pool ptr := fun s =>
  match m_head s with
  | Some pItem =>
      match heap_get (m_elements s) pItem with
      | Some e =>
          let s1 := mk_Pool (m_elements s) (el_next e) (m_tail s) (pool_grow s) in
          match el_next e with
          | Some _ => (Ok pItem, s1)
          | None => match Pool_inflate (Z.to_nat (pool_grow s)) s1 with Some s2 => (Ok pItem, s2) | None => (Undefined, s) end
          end
      | None => (Undefined, s)
      end
  | None => if dbg then (AssertFail, s) else (Undefined, s)
  end.

Definition Pool_release (dbg : bool) (pElem : ptr) : M Pool unit := fun s =>
  match m_tail s with
  | Some t =>
      match s ← set_next t (Some pElem) s; set_next pElem None s with
      | Some s => (Ok tt, mk_Pool (m_elements s) (m_head s) (Some pElem) (pool_grow s))
      | None => (Undefined, s)
      end
  | None => if dbg then (AssertFail, s) else (Ok tt, s)
  end.

(** ** Ownership in SmartObjectPool *)

Section SmartPool.

(** The operations of a program that holds the handles [held]. *)
Inductive smart_step : SmartObjectPool * list ptr -> SmartObjectPool * list ptr -> Prop :=
| smart_add s held p s' : sp_alive s = true -> SmartPool_add_new s = (Ok p, s') -> smart_step (s, held) (s', held)
| smart_acquire s held p s' : sp_alive s = true -> SmartPool_acquire s = (Ok p, s') -> smart_step (s, held) (s', p :: held)
| smart_drop s h1 h2 p s' : ReturnToPool_Deleter p s = (Ok tt, s') -> smart_step (s, h1 ++ p :: h2) (s', h1 ++ h2)
| smart_destroy s held s' : sp_alive s = true -> SmartPool_destroy s = (Ok tt, s') -> smart_step (s, held) (s', held).

(** Every live object is free or held, and only once; a dead pool has no free ones. *)
Definition smart_inv (y : SmartObjectPool * list ptr) : Prop :=
  heap_wf (sp_heap y.1) /\ NoDup (pool_ y.1 ++ y.2) /\
  (forall p, is_Some (heap_get (sp_heap y.1) p) <-> p ∈ pool_ y.1 ++ y.2) /\
  (sp_alive y.1 = false -> pool_ y.1 = []).

Lemma smart_delete_all (l : list ptr) s :
  NoDup l -> (forall p, p ∈ l -> is_Some (heap_get (sp_heap s) p)) -> heap_wf (sp_heap s) ->
  exists h, for_each l SmartPool_delete s = (Ok tt, mk_SmartPool (sp_alive s) (pool_ s) h) /\ heap_wf h /\
    (forall p, is_Some (heap_get h p) <-> is_Some (heap_get (sp_heap s) p) /\ p ∉ l).
Proof.
  revert s. induction l as [|a l IH]; intros s Hnd Hl Hwf.
  - exists (sp_heap s). destruct s. split_and!; [done|done|]. intros p. set_solver.
  - apply NoDup_cons in Hnd as [Hnin Hnd]. destruct (Hl a ltac:(set_solver)) as [u Ha].
    cbn [for_each]. unfold SmartPool_delete at 1, heap_delete. unfold heap_get in Ha.
    destruct (IH (mk_SmartPool (sp_alive s) (pool_ s) (mk_heap (delete a (h_cells (sp_heap s))) (h_next (sp_heap s)))) Hnd)
      as (h&Hrun&Hwf'&Hiff).
    + intros p Hp. cbn. unfold heap_get; cbn. rewrite lookup_delete_ne by (intros ->; done). apply Hl. set_solver.
    + intros p x Hp. cbn in *. apply lookup_delete_Some in Hp as [_ Hp]. by eapply Hwf.
    + exists h. split; [unfold bind; rewrite Ha; exact Hrun|]. split; [done|]. intros p. rewrite Hiff. cbn. unfold heap_get; cbn.
      destruct (decide (p = a)) as [->|Hne].
      * rewrite lookup_delete_eq. split; [intros [[? ?] _]; done|]. intros [_ Hn]. set_solver.
      * rewrite lookup_delete_ne by done. set_solver.
Qed.

Lemma smart_destroy_ok s held : smart_inv (s, held) -> sp_alive s = true ->
  exists h, SmartPool_destroy s = (Ok tt, mk_SmartPool false [] h) /\ smart_inv (mk_SmartPool false [] h, held).
Proof.
  intros (Hwf&Hnd&Hl&_) Ha. cbn in *. pose proof Hnd as Hnd0. apply NoDup_app in Hnd as (Hnd1&Hdis&Hnd2).
  destruct (smart_delete_all (pool_ s) s Hnd1) as (h&Hrun&Hwf'&Hiff); [set_solver|done|].
  exists h. unfold SmartPool_destroy. rewrite (bind_Ok _ _ _ _ _ Hrun). cbn. split; [done|]. split_and!; try done.
  intros p. cbn. rewrite Hiff, Hl. set_solver.
Qed.

Lemma smart_drop_ok s h1 h2 p : smart_inv (s, h1 ++ p :: h2) ->
  exists s', ReturnToPool_Deleter p s = (Ok tt, s') /\ smart_inv (s', h1 ++ h2).
Proof.
  intros (Hwf&Hnd&Hl&Hd). cbn in *. unfold ReturnToPool_Deleter. destruct (sp_alive s) eqn:Ha.
  - eexists. split; [done|]. split_and!; cbn; [done| | |congruence].
    + revert Hnd. rewrite (Permutation_middle h1 h2 p) || idtac. intros Hnd.
      eapply NoDup_Permutation_proper; [|exact Hnd]. solve_Permutation.
    + intros q. rewrite Hl. set_solver.
  - rewrite Hd in * by done. destruct (proj2 (Hl p) ltac:(set_solver)) as [u Hp]. unfold SmartPool_delete, heap_delete.
    unfold heap_get in Hp. rewrite Hp. eexists. split; [done|]. cbn in *.
    assert (Hp2 : h1 ++ p :: h2 ≡ₚ p :: h1 ++ h2) by solve_Permutation. rewrite Hp2 in Hnd. apply NoDup_cons in Hnd as [Hnin Hnd].
    split_and!; cbn; [|by rewrite Hd| |auto].
    + intros q x Hq. cbn in Hq. apply lookup_delete_Some in Hq as [_ Hq]. by eapply Hwf.
    + intros q. rewrite Hd by done. unfold heap_get; cbn. destruct (decide (q = p)) as [->|Hne].
      * rewrite lookup_delete_eq. split; [intros [? ?]; done|set_solver].
      * rewrite lookup_delete_ne by done. fold (heap_get (sp_heap s) q). rewrite Hl. set_solver.
Qed.

Lemma smart_step_inv y y' : smart_inv y -> smart_step y y' -> smart_inv y'.
Proof.
  intros Hy Hs. destruct Hs as [s held p s' Ha Hs|s held p s' Ha Hs|s h1 h2 p s' Hs|s held s' Ha Hs].
  - destruct Hy as (Hwf&Hnd&Hl&Hd). cbn in *. unfold SmartPool_add_new, heap_new in Hs. injection Hs as <- <-.
    assert (Hf : h_next (sp_heap s) ∉ pool_ s ++ held).
    { intros Hin. apply Hl in Hin as [u Hu]. unfold heap_get in Hu. rewrite heap_fresh in Hu; [done|done|lia]. }
    split_and!; cbn; [by apply heap_new_wf|by apply NoDup_cons| |congruence].
    intros p. rewrite elem_of_cons, <- Hl. unfold heap_get; cbn. rewrite lookup_insert_is_Some. naive_solver.
  - destruct Hy as (Hwf&Hnd&Hl&Hd). cbn in *. unfold SmartPool_acquire in Hs. destruct (pool_ s) as [|a l]; [done|].
    injection Hs as <- <-. split_and!; cbn; [done| | |congruence].
    + eapply NoDup_Permutation_proper; [|exact Hnd]. cbn. solve_Permutation.
    + intros p. rewrite Hl. set_solver.
  - destruct (smart_drop_ok _ _ _ _ Hy) as (s1&H1&?). congruence.
  - destruct (smart_destroy_ok _ _ Hy Ha) as (h&H1&?). congruence.
Qed.
End SmartPool.

(** C32. Ownership in libs/objpool.h: for any sequence of adding objects, acquiring, dropping handles
    and destroying the pool, an object is free or held by exactly one handle, an acquire fails
    exactly when no object is free, dropping a handle is always defined (it returns the object to
    the pool, or deletes it when the pool is gone), and when the pool and all handles are gone every
    object has been deleted exactly once. *)
Theorem smart_pool_ownership (s : SmartObjectPool) (held : list ptr) :
  rtc smart_step (SmartPool_new, []) (s, held) ->
  NoDup (pool_ s ++ held) /\
  (SmartPool_acquire s = (ThrowStd, s) <-> pool_ s = []) /\
  (forall p, p ∈ held -> exists s', ReturnToPool_Deleter p s = (Ok tt, s') /\
     (sp_alive s = true -> p ∈ pool_ s') /\ (sp_alive s = false -> heap_get (sp_heap s') p = None)) /\
  (sp_alive s = true -> exists s', SmartPool_destroy s = (Ok tt, s')) /\
  (sp_alive s = false -> held = [] -> h_cells (sp_heap s) = ∅).
Proof.
  intros Hr. assert (Hy : smart_inv (s, held)).
  { revert Hr. apply rtc_invariant; [apply smart_step_inv|]. split_and!; cbn; [apply heap_empty_wf|constructor| |done].
    intros p. unfold heap_get; cbn. rewrite lookup_empty. split; [intros [? ?]; done|set_solver]. }
  pose proof Hy as (Hwf&Hnd&Hl&Hd). cbn in *. split_and!; [done| | | |].
  - unfold SmartPool_acquire. by destruct (pool_ s).
  - intros p Hp. apply list_elem_of_split in Hp as (h1&h2&->).
    destruct (smart_drop_ok s h1 h2 p Hy) as (s'&Hs'&_). exists s'. split; [done|]. unfold ReturnToPool_Deleter in Hs'.
    destruct (sp_alive s).
    + injection Hs' as <-. split; [intros _; cbn; by left|done].
    + unfold SmartPool_delete, heap_delete in Hs'. destruct (h_cells (sp_heap s) !! p); simplify_eq. split; [done|].
      intros _. unfold heap_get; cbn. apply lookup_delete_eq.
  - intros Ha. destruct (smart_destroy_ok s held Hy Ha) as (h&?&_). by eexists.
  - intros Ha ->. apply map_empty. intros p. destruct (h_cells (sp_heap s) !! p) eqn:E; [|done].
    assert (p ∈ pool_ s ++ []) as Hin by (apply Hl; by exists u). rewrite Hd in Hin by done. set_solver.
Qed.

(** Two objects; one is acquired before the pool dies, and deleted by its handle. *)
Lemma smart_pool_ownership_witness :
  let s := mk_SmartPool false [] (mk_heap ∅ 3%positive) in
  rtc smart_step (SmartPool_new, []) (s, []) /\ h_cells (sp_heap s) = ∅.
Proof.
  intros s. assert (Hr : rtc smart_step (SmartPool_new, []) (s, [])).
  { eapply rtc_l; [by eapply smart_add|]. eapply rtc_l; [by eapply smart_add|].
    eapply rtc_l; [by eapply smart_acquire|]. eapply rtc_l; [by eapply smart_destroy|].
    eapply rtc_l; [by eapply (smart_drop _ [] [] 2%positive)|]. apply rtc_refl_eq. vm_compute. reflexivity. }
  split; [exact Hr|]. by apply (smart_pool_ownership s [] Hr).
Defined.

(** ** Exhaustion of Pool *)

Lemma Pool_inflate_head size s s' : Pool_inflate size s = Some s' -> m_head s' = m_head s.
Proof.
  revert s. induction size as [|size IH]; intros s; cbn; [by intros [= ->]|].
  destruct (m_tail s) as [t|]; [|apply IH]. unfold set_next. destruct (heap_set _ _ _); cbn; [|done].
  intros Hs. by apply IH in Hs.
Qed.

Lemma Pool_release_head dbg p s s' : Pool_release dbg p s = (Ok tt, s') -> m_head s' = m_head s.
Proof.
  unfold Pool_release, set_next. destruct (m_tail s); [|destruct dbg; by intros [= ->]].
  destruct (heap_set _ _ _); cbn; [|done]. destruct (heap_set _ _ _); cbn; [|done]. by intros [= <-].
Qed.

Lemma Pool_releases_head dbg ps s s' : for_each ps (Pool_release dbg) s = (Ok tt, s') -> m_head s' = m_head s.
Proof.
  revert s. induction ps as [|p ps IH]; intros s; cbn; [by intros [= ->]|]. unfold bind.
  destruct (Pool_release dbg p s) as [[[]| | | | |] s1] eqn:Hp; try done. intros Hs. apply IH in Hs.
  apply Pool_release_head in Hp. congruence.
Qed.

(** C36. The pool of libs/pool.h when its last element is acquired: it allocates new elements, but
    behind the element it hands out, and its list stays empty.  However many elements are then
    given back, every later acquire fails (the assertion, or the end of a function without a
    return when assertions are off). *)
Theorem pool_never_refills (dbg : bool) (s s1 s2 : Pool) (p : ptr) (back : list ptr) :
  m_head s = Some p -> heap_get (m_elements s) p = Some (mk_Element None) ->
  Pool_acquire dbg s = (Ok p, s1) -> for_each back (Pool_release dbg) s1 = (Ok tt, s2) ->
  m_head s2 = None /\ Pool_acquire dbg s2 = (if dbg then AssertFail else Undefined, s2).
Proof.
  intros Hh He Ha Hb. assert (m_head s1 = None) as H1.
  { unfold Pool_acquire in Ha. rewrite Hh, He in Ha. cbn in Ha.
    destruct (Pool_inflate _ _) eqn:Hi; [|done]. injection Ha as <-. by apply Pool_inflate_head in Hi. }
  apply Pool_releases_head in Hb. rewrite H1 in Hb. split; [done|]. unfold Pool_acquire. rewrite Hb. by destruct dbg.
Qed.

(** A pool of three: after two acquires the third takes the last element. *)
Definition pool_of_three : Pool := default (mk_Pool heap_empty None None 0) (Pool_new 20 2).
Definition pool_last : Pool := (Pool_acquire true (Pool_acquire true pool_of_three).2).2.
Definition pool_dead : Pool := (Pool_acquire true pool_last).2.

Lemma pool_never_refills_witness :
  h_next (m_elements pool_dead) = 6%positive /\
  m_head (for_each [1; 2; 3]%positive (Pool_release true) pool_dead).2 = None /\
  Pool_acquire true (for_each [1; 2; 3]%positive (Pool_release true) pool_dead).2
  = (AssertFail, (for_each [1; 2; 3]%positive (Pool_release true) pool_dead).2).
Proof.
  split; [vm_compute; reflexivity|].
  apply (pool_never_refills true pool_last pool_dead (for_each [1; 2; 3]%positive (Pool_release true) pool_dead).2
    3%positive [1; 2; 3]%positive); vm_compute; reflexivity.
Defined.

(** ** Exclusive use in ObjectPool of objects.h *)

Definition deque_inv (held : list ptr) (s : DequePool) : Prop :=
  NoDup (m_pool s ++ held) /\ Forall (fun p => p < m_next s)%positive (m_pool s ++ held) /\
  m_alloc_count s - m_release_count s = zlen held.

Lemma inflate_spec n held s : deque_inv held s ->
  deque_inv held (inflate n s) /\ length (m_pool (inflate n s)) = (length (m_pool s) + n)%nat /\ m_grow (inflate n s) = m_grow s.
Proof.
  revert s. induction n as [|n IH]; intros s Hs; [cbn; split_and!; [done|lia|done]|]. cbn [inflate].
  destruct Hs as (Hnd&Hlt&Hc). destruct (IH (set_pool (m_pool s ++ [m_next s]) (Pos.succ (m_next s)) s)) as (H1&H2&H3).
  - split_and!; cbn; [| |done]; rewrite <- app_assoc; cbn.
    + eapply NoDup_Permutation_proper; [symmetry; apply Permutation_middle|]. apply NoDup_cons. split; [|done].
      intros Hin. apply (proj1 (Forall_forall _ _) Hlt) in Hin. lia.
    + rewrite <- Permutation_middle. constructor; [lia|]. eapply Forall_impl; [exact Hlt|]. cbn. lia.
  - split_and!; [done| |done]. rewrite H2. cbn. rewrite length_app. cbn. lia.
Qed.

(** The growing pool of libs/objects.h: an acquire always succeeds when the growth is positive,
    returns an object nobody holds, and giving back a held object makes it free again; the two
    counters differ by the number of objects held. *)
Theorem deque_pool_exclusive (s : DequePool) (held : list ptr) :
  deque_inv held s -> 0 < m_grow s < 2 ^ 31 ->
  (exists p s', DequePool_acquire s = (Ok p, s') /\ (p ∉ held) /\ deque_inv (p :: held) s' /\ m_grow s' = m_grow s) /\
  (forall p held', held ≡ₚ p :: held' ->
     exists s', DequePool_release p s = (Ok tt, s') /\ (p ∈ m_pool s') /\ deque_inv held' s').
Proof.
  intros Hs Hg. split.
  - unfold DequePool_acquire. set (s1 := match m_pool s with [] => _ | _ => _ end).
    assert (deque_inv held s1 /\ m_grow s1 = m_grow s /\ m_pool s1 <> []) as ((Hnd&Hlt&Hc)&Hgr&Hne).
    { unfold s1. destruct (m_pool s) as [|a l] eqn:E; [|by rewrite E].
      destruct (inflate_spec (Z.to_nat (u64 (m_grow s))) held s Hs) as (?&Hlen&?). split_and!; [done..|].
      intros Hnil. rewrite Hnil, E in Hlen. rewrite u64_small in Hlen by lia. cbn in Hlen. lia. }
    destruct (m_pool s1) as [|p l] eqn:E; [done|]. cbn in Hnd, Hlt. apply NoDup_cons in Hnd as [Hnin Hnd].
    eexists p, _. split_and!; [done| | |done]; [set_solver|]. split_and!; cbn; [| |lia].
    + rewrite <- Permutation_middle. by apply NoDup_cons.
    + rewrite <- Permutation_middle. done.
  - intros p held' Hp. destruct Hs as (Hnd&Hlt&Hc). eexists. split_and!; [done|cbn; set_solver|].
    split_and!; cbn; rewrite <- ?app_assoc; cbn; rewrite <- ?Hp; [done|done|]. apply Permutation_length in Hp. cbn in Hp. lia.
Qed.

Lemma deque_pool_exclusive_witness :
  let s := DequePool_new 1 2 in
  exists p s', DequePool_acquire s = (Ok p, s') /\ (p ∉ ([] : list ptr)) /\ deque_inv [p] s' /\ m_grow s' = m_grow s.
Proof.
  intros s. apply (deque_pool_exclusive s []).
  - split_and!; cbn; [apply NoDup_singleton|repeat constructor|reflexivity].
  - vm_compute. split; reflexivity.
Defined.
