(* ===== verification/Drivers.v ===== *)
(** * The small drivers: test/testpool.cpp and libs/testmpmc.cpp

    What their [main] functions do with the pool of pool.h and the bounded queue. *)

From S2P Require Import Prelude Heap Pools MpmcQueue.

Local Open Scope tinynet_scope.

(** [main] of testpool.cpp: fifty acquires from a pool of the default size, none given back. *)
Definition testpool_main (dbg : bool) : M Pool Z :=
  for_each (seqZ 0 50) (fun _ => let* _ := Pool_acquire dbg in ret tt) ;;
  ret 0.

(** The pool holds 21 elements; the 22nd acquire stops the program, or, without assertions, returns
    through a missing return statement. *)
Lemma testpool_main_stops :
  match Pool_new 20 20 with
  | Some s => (testpool_main true s).1 = AssertFail /\ (testpool_main false s).1 = Undefined /\
      (for_each (seqZ 0 21) (fun _ => let* _ := Pool_acquire true in ret tt) s).1 = Ok tt
  | None => False
  end.
Proof. vm_compute. split_and!; reflexivity. Qed.

(** [main] of testmpmc.cpp: the capacity 100 is no power of two. *)
Definition testmpmc_main (dbg : bool) : outcome Z :=
  match mpmc_new (T:=Z) dbg 100 with
  | Ok _ => Ok 0
  | _ => AssertFail
  end.

Lemma testmpmc_main_stops : testmpmc_main true = AssertFail /\ testmpmc_main false = Ok 0.
Proof. split; vm_compute; reflexivity. Qed.
