(* ===== verification/AtomicOps.v ===== *)
(** * libs/atomicops.h: fences, weak atomics and semaphores

    The fences are the barriers they expand to in the three variants of the source; the
    semaphores of the three platforms are wrappers of calls of the system; the lightweight
    semaphore keeps a counter in front of one of them, for one signalling and one waiting
    thread, and is given as the accesses the two interleave. *)

From S2P Require Import Prelude.

(** ** Fences *)

Inductive memory_order :=
| memory_order_relaxed | memory_order_acquire | memory_order_release | memory_order_acq_rel | memory_order_seq_cst.

(** [memory_order_sync = memory_order_seq_cst] *)
Definition memory_order_sync : memory_order := memory_order_seq_cst.

(** Compiler barriers, the barriers of the processor, and the fences of the standard library. *)
Inductive barrier :=
| ReadBarrier | WriteBarrier | ReadWriteBarrier
| AeFullSync | AeLiteSync
| SignalFence (o : memory_order) | ThreadFence (o : memory_order).

Definition compiler_fence_msvc (order : memory_order) : list barrier :=
  match order with
  | memory_order_relaxed => []
  | memory_order_acquire => [ReadBarrier]
  | memory_order_release => [WriteBarrier]
  | memory_order_acq_rel => [ReadWriteBarrier]
  | memory_order_seq_cst => [ReadWriteBarrier]
  end.

Definition fence_x86 (order : memory_order) : list barrier :=
  match order with
  | memory_order_relaxed => []
  | memory_order_acquire => [ReadBarrier]
  | memory_order_release => [WriteBarrier]
  | memory_order_acq_rel => [ReadWriteBarrier]
  | memory_order_seq_cst => [ReadWriteBarrier; AeFullSync; ReadWriteBarrier]
  end.

Definition fence_other_arch (order : memory_order) : list barrier :=
  match order with
  | memory_order_relaxed => []
  | memory_order_acquire => [ReadBarrier; AeLiteSync; ReadBarrier]
  | memory_order_release => [WriteBarrier; AeLiteSync; WriteBarrier]
  | memory_order_acq_rel => [ReadWriteBarrier; AeLiteSync; ReadWriteBarrier]
  | memory_order_seq_cst => [ReadWriteBarrier; AeFullSync; ReadWriteBarrier]
  end.

Definition compiler_fence (order : memory_order) : list barrier :=
  match order with memory_order_relaxed => [] | o => [SignalFence o] end.

Definition fence (order : memory_order) : list barrier :=
  match order with memory_order_relaxed => [] | o => [ThreadFence o] end.

(** ** weak_atomic *)

(** The value of a [weak_atomic<ssize_t>]; an addition wraps at 64 bits and returns the old value. *)
Definition weak_load (value : Z) : Z := value.
Definition weak_store (x : Z) (value : Z) : Z := x.
Definition fetch_add_acquire (increment : Z) (value : Z) : Z * Z := (value, i64 (value + increment)).
Definition fetch_add_release (increment : Z) (value : Z) : Z * Z := (value, i64 (value + increment)).

(** The variant for compilers without [std::atomic]: an interlocked addition for the two sizes
    it knows, the value unchanged for any other when assertions are off. *)
Definition fetch_add_interlocked (dbg : bool) (size : Z) (increment : Z) (value : Z) : outcome (Z * Z) :=
  if size =? 4 then Ok (value, i32 (value + increment))
  else if size =? 8 then Ok (value, i64 (value + increment))
  else if dbg then AssertFail else Ok (value, value).

(** ** The semaphores of the platforms *)

Inductive sem_call :=
| Sem_init (n : Z) | Sem_destroy | Sem_wait | Sem_trywait | Sem_timedwait (sec nsec : Z) | Sem_post
| Clock_gettime
| CreateSemaphoreW (n max : Z) | CloseHandle | WaitForSingleObject (ms : Z) | ReleaseSemaphore (n : Z)
| Semaphore_create (n : Z) | Semaphore_destroy | Semaphore_wait_ | Semaphore_timedwait (sec nsec : Z) | Semaphore_signal_.

(** The result, [errno], and the time [clock_gettime] stores. *)
Record sem_answer := mk_answer { sa_ret : Z; sa_errno : Z; sa_sec : Z; sa_nsec : Z }.

Class SemKernel (K : Type) := sem_sys : sem_call -> K -> sem_answer * K.

Definition E_INTR : Z := 4.
Definition E_AGAIN : Z := 11.
Definition E_TIMEDOUT : Z := 110.
Definition E_INVAL : Z := 22.
Definition RC_WAIT_TIMEOUT : Z := 258.
Definition KERN_OPERATION_TIMED_OUT : Z := 49.

Section Semaphores.
Context {K : Type} `{SemKernel K}.
Local Open Scope tinynet_scope.

Definition sem (c : sem_call) : M K sem_answer := fun k => let '(a, k') := sem_sys c k in (Ok a, k').

(** [do rc = call while (rc == -1 && errno == EINTR)] *)
Fixpoint retry_intr (fuel : nat) (c : sem_call) : M K sem_answer :=
  match fuel with
  | O => out_of_fuel
  | S fuel' =>
      let* a := sem c in
      if (sa_ret a =? -1) && (sa_errno a =? E_INTR) then retry_intr fuel' c else ret a
  end.

(** POSIX *)
Definition posix_Semaphore (dbg : bool) (initialCount : Z) : M K unit :=
  c_assert dbg (0 <=? initialCount) ;; let* _ := sem (Sem_init initialCount) in ret tt.
Definition posix_destroy : M K unit := let* _ := sem Sem_destroy in ret tt.
Definition posix_wait (fuel : nat) : M K unit := let* _ := retry_intr fuel Sem_wait in ret tt.
Definition posix_try_wait (fuel : nat) : M K bool :=
  let* a := retry_intr fuel Sem_trywait in ret (negb ((sa_ret a =? -1) && (sa_errno a =? E_AGAIN))).

(** The absolute time of the timeout: seconds and nanoseconds. *)
Definition deadline (sec nsec usecs : Z) : Z * Z :=
  let sec := sec + usecs / 1000000 in
  let nsec := nsec + (usecs mod 1000000) * 1000 in
  if 1000000000 <? nsec then (sec + 1, nsec - 1000000000) else (sec, nsec).

Definition posix_timed_wait (fuel : nat) (usecs : Z) : M K bool :=
  let* now := sem Clock_gettime in
  let '(sec, nsec) := deadline (sa_sec now) (sa_nsec now) usecs in
  let* a := retry_intr fuel (Sem_timedwait sec nsec) in
  ret (negb ((sa_ret a =? -1) && (sa_errno a =? E_TIMEDOUT))).

Definition posix_signal : M K unit := let* _ := sem Sem_post in ret tt.
Definition posix_signal_n (count : Z) : M K unit := for_each (seqZ 0 count) (fun _ => posix_signal).

(** Windows *)
Definition win_Semaphore (dbg : bool) (initialCount : Z) : M K unit :=
  c_assert dbg (0 <=? initialCount) ;; let* _ := sem (CreateSemaphoreW initialCount 2147483647) in ret tt.
Definition win_destroy : M K unit := let* _ := sem CloseHandle in ret tt.
Definition win_wait : M K unit := let* _ := sem (WaitForSingleObject 4294967295) in ret tt.
Definition win_try_wait : M K bool := let* a := sem (WaitForSingleObject 0) in ret (negb (sa_ret a =? RC_WAIT_TIMEOUT)).
Definition win_timed_wait (usecs : Z) : M K bool :=
  let* a := sem (WaitForSingleObject (u32 (usecs / 1000))) in ret (negb (sa_ret a =? RC_WAIT_TIMEOUT)).
Definition win_signal (count : Z) : M K unit := let* _ := sem (ReleaseSemaphore count) in ret tt.

(** Mach; the division of a negative timeout truncates. *)
Definition mach_Semaphore (dbg : bool) (initialCount : Z) : M K unit :=
  c_assert dbg (0 <=? initialCount) ;; let* _ := sem (Semaphore_create initialCount) in ret tt.
Definition mach_destroy : M K unit := let* _ := sem Semaphore_destroy in ret tt.
Definition mach_wait : M K unit := let* _ := sem Semaphore_wait_ in ret tt.
Definition mach_timed_wait (timeout_usecs : Z) : M K bool :=
  let* a := sem (Semaphore_timedwait (Z.quot timeout_usecs 1000000) (Z.rem timeout_usecs 1000000 * 1000)) in
  ret (negb (sa_ret a =? KERN_OPERATION_TIMED_OUT)).
Definition mach_try_wait : M K bool := mach_timed_wait 0.
Definition mach_signal : M K unit := let* _ := sem Semaphore_signal_ in ret tt.
Definition mach_signal_n (count : Z) : M K unit := for_each (seqZ 0 count) (fun _ => mach_signal).
End Semaphores.

(** ** LightweightSemaphore *)

(** The counter, and the count of the semaphore behind it. *)
Record LightweightSemaphore := mk_lws { m_count : Z; m_sema : Z }.

Definition LightweightSemaphore_new (dbg : bool) (initialCount : Z) : outcome LightweightSemaphore :=
  if dbg && (initialCount <? 0) then AssertFail else Ok (mk_lws initialCount 0).

Definition availableApprox (s : LightweightSemaphore) : Z :=
  let count := weak_load (m_count s) in if 0 <? count then count else 0.

(** Where the waiting thread is: before which access.  [timeout] is negative for a wait without
    one; [WDone b] is a call that returned [b]. *)
Inductive waiter :=
| WTry                              (** [tryWait()]: the load *)
| WTake                             (** the decrement after a positive load; returns true *)
| WFirst (timeout : Z)              (** [tryWait()] inside [wait] *)
| WSpin (spin timeout : Z)          (** the test of the loop *)
| WDecrement (timeout : Z)
| WBlock (timeout : Z)
| WRestore
| WRetake
| WTrySema
| WDone (b : bool).

(** How the wait of the semaphore behind the counter ends: with its unit, when the time is over, or
    because the system refuses the deadline computed from a clock that shows [nsec] nanoseconds. *)
Inductive wake := WakeUnit | WakeExpired | WakeRefused (nsec : Z).

(** [sem_timedwait] refuses nanoseconds outside their range with EINVAL. *)
Definition refused (nsec timeout : Z) : bool :=
  (0 <=? nsec) && (nsec <? 1000000000) && (1000000000 <=? (deadline 0 nsec timeout).2).

(** One access of the waiting thread.  [m_sema.timed_wait] reports a refused deadline as a success
    (see [timed_wait_deadline]).  [None] is a thread that blocks, or one that has returned. *)
Definition waiter_step (k : wake) (c : waiter) (s : LightweightSemaphore) : option (waiter * LightweightSemaphore) :=
  let m := weak_load (m_count s) in
  match c with
  | WTry => Some (if 0 <? m then WTake else WDone false, s)
  | WTake => Some (WDone true, mk_lws (fetch_add_acquire (-1) m).2 (m_sema s))
  | WFirst t => Some (if 0 <? m then WTake else WSpin 10000 t, s)
  | WSpin spin t =>
      let spin := spin - 1 in
      if 0 <=? spin then Some (if 0 <? m then WTake else WSpin spin t, s) else Some (WDecrement t, s)
  | WDecrement t =>
      let '(oldCount, m') := fetch_add_acquire (-1) m in
      Some (if 0 <? oldCount then WDone true else WBlock t, mk_lws m' (m_sema s))
  | WBlock t =>
      match k with
      | WakeUnit => if 0 <? m_sema s then Some (WDone true, mk_lws (m_count s) (m_sema s - 1)) else None
      | WakeExpired => if 0 <=? t then Some (WRestore, s) else None
      | WakeRefused nsec => if (0 <=? t) && refused nsec t then Some (WDone true, s) else None
      end
  | WRestore =>
      let '(oldCount, m') := fetch_add_release 1 m in
      Some (if oldCount <? 0 then WDone false else WRetake, mk_lws m' (m_sema s))
  | WRetake =>
      let '(oldCount, m') := fetch_add_acquire (-1) m in
      Some (if 0 <? oldCount then WTrySema else WRestore, mk_lws m' (m_sema s))
  | WTrySema =>
      if 0 <? m_sema s then Some (WDone true, mk_lws (m_count s) (m_sema s - 1)) else Some (WRestore, s)
  | WDone _ => None
  end.

(** Where the signalling thread is; [SDead] is a failed assertion. *)
Inductive signaller := SIdle | SAdd (count : Z) | SPost | SDead.

#[export] Instance signaller_eq_dec : EqDecision signaller.
Proof. solve_decision. Defined.

Definition signaller_step (dbg : bool) (c : signaller) (s : LightweightSemaphore) : option (signaller * LightweightSemaphore) :=
  match c with
  | SAdd count =>
      let '(oldCount, m') := fetch_add_release count (m_count s) in
      Some (if dbg && (oldCount <? -1) then SDead else if oldCount <? 0 then SPost else SIdle, mk_lws m' (m_sema s))
  | SPost => Some (SIdle, mk_lws (m_count s) (m_sema s + 1))
  | _ => None
  end.

(** The semaphore, the two threads, how much was signalled, how many waits succeeded, and how often
    a wait was let through for nothing: by a refused deadline, or by a [signal(0)] that posts. *)
Record lws_system := mk_lsys {
  ls_sema : LightweightSemaphore;
  ls_waiter : waiter;
  ls_signaller : signaller;
  ls_signalled : Z;
  ls_taken : Z;
  ls_bogus : Z
}.

Definition count_taken (c c' : waiter) (n : Z) : Z :=
  match c, c' with WDone _, _ => n | _, WDone true => n + 1 | _, _ => n end.
Definition count_signalled (c : signaller) (n : Z) : Z := match c with SAdd count => n + count | _ => n end.

Definition wait_bogus (k : wake) (c : waiter) (n : Z) : Z := match c, k with WBlock _, WakeRefused _ => n + 1 | _, _ => n end.
Definition signal_bogus (c : signaller) (m n : Z) : Z := match c with SAdd count => if (count =? 0) && (m <? 0) then n + 1 else n | _ => n end.

Definition waiter_moved (k : wake) (y : lws_system) (c' : waiter) (s' : LightweightSemaphore) : lws_system :=
  mk_lsys s' c' (ls_signaller y) (ls_signalled y) (count_taken (ls_waiter y) c' (ls_taken y)) (wait_bogus k (ls_waiter y) (ls_bogus y)).
Definition signaller_moved (y : lws_system) (c' : signaller) (s' : LightweightSemaphore) : lws_system :=
  mk_lsys s' (ls_waiter y) c' (count_signalled (ls_signaller y) (ls_signalled y)) (ls_taken y)
    (signal_bogus (ls_signaller y) (m_count (ls_sema y)) (ls_bogus y)).

(** A call of [tryWait], [wait] or [signal] (whose assertion wants a count that is not negative), or
    the next access of a thread.  A failed assertion ends the process. *)
Inductive lws_step (y : lws_system) : lws_system -> Prop :=
| call_wait b c' : ls_signaller y <> SDead -> ls_waiter y = WDone b -> (c' = WTry \/ exists t, c' = WFirst t) ->
    lws_step y (mk_lsys (ls_sema y) c' (ls_signaller y) (ls_signalled y) (ls_taken y) (ls_bogus y))
| call_signal count : ls_signaller y = SIdle -> 0 <= count ->
    lws_step y (mk_lsys (ls_sema y) (ls_waiter y) (SAdd count) (ls_signalled y) (ls_taken y) (ls_bogus y))
| waiter_moves k c' s' : ls_signaller y <> SDead -> waiter_step k (ls_waiter y) (ls_sema y) = Some (c', s') -> lws_step y (waiter_moved k y c' s')
| signaller_moves c' s' : signaller_step true (ls_signaller y) (ls_sema y) = Some (c', s') -> lws_step y (signaller_moved y c' s').

Definition lws_start (s : LightweightSemaphore) : lws_system := mk_lsys s (WDone false) SIdle 0 0 0.

(** ** The invariant *)

(** The waiting thread has decremented the counter for a wait that is not over. *)
Definition debt (c : waiter) : Z :=
  match c with WBlock _ | WRestore | WTrySema => 1 | _ => 0 end.

(** It may still take the semaphore's unit. *)
Definition due (c : waiter) : Z := match c with WRetake => 1 | c => debt c end.

(** A signal on its way from the counter to the semaphore. *)
Definition posting (c : signaller) : Z := match c with SPost => 1 | _ => 0 end.

(** The units posted and what the counter lacks are due to the waiting thread or bogus; a counter
    that lacks nothing while the thread waits has had its unit posted. *)
Definition lws_phase (c : waiter) (m owed : Z) : Prop :=
  match c with
  | WBlock _ | WRestore => 0 <= m -> 1 <= owed
  | WRetake => 1 <= m /\ 1 <= owed
  | WTrySema => 0 <= m /\ 1 <= owed
  | WTake => 1 <= m
  | _ => True
  end.

Record lws_inv (init : Z) (y : lws_system) : Prop := {
  li_count : m_count (ls_sema y) = init + ls_signalled y - ls_taken y - debt (ls_waiter y);
  li_pos : 0 <= ls_signalled y /\ 0 <= ls_taken y /\ 0 <= m_sema (ls_sema y) /\ 0 <= ls_bogus y;
  li_owed : m_sema (ls_sema y) + posting (ls_signaller y) + Z.max 0 (- m_count (ls_sema y)) <= ls_bogus y + due (ls_waiter y);
  li_phase : ls_signaller y <> SDead -> lws_phase (ls_waiter y) (m_count (ls_sema y)) (m_sema (ls_sema y) + posting (ls_signaller y));
  li_retake : ls_waiter y = WRetake -> 1 <= m_count (ls_sema y);
  li_dead : ls_signaller y = SDead -> 0 < ls_bogus y
}.

(** What only grows: the units signalled and the bogus ones. *)
Definition signals_counted (y : lws_system) : Prop := forall count, ls_signaller y = SAdd count -> 0 <= count.

Lemma signals_counted_step y y' : signals_counted y -> lws_step y y' ->
  signals_counted y' /\ ls_signalled y <= ls_signalled y' /\ ls_bogus y <= ls_bogus y'.
Proof.
  unfold signals_counted. intros Hc [b c' _ Hw _|n Hs Hn|k c' s' _ Hst|c' s' Hst]; unfold waiter_moved, signaller_moved; cbn; (split; [|split]); try done; try lia.
  - congruence.
  - unfold wait_bogus. destruct (ls_waiter y); try lia. destruct k; lia.
  - intros count. destruct (ls_signaller y); cbn in *; simplify_eq; try done; zcases; done.
  - unfold count_signalled. destruct (ls_signaller y) as [|n| |]; try lia. specialize (Hc n eq_refl). lia.
  - unfold signal_bogus. destruct (ls_signaller y); try lia. destruct (_ && _); lia.
Qed.

Lemma lws_waiter_inv init y k c' s' :
  0 <= init -> lws_inv init y -> init + ls_signalled y + ls_bogus y < 2 ^ 62 -> ls_signaller y <> SDead ->
  waiter_step k (ls_waiter y) (ls_sema y) = Some (c', s') -> lws_inv init (waiter_moved k y c' s').
Proof.
  intros Hi [Hm Hpos Ho Hp Hre Hd] Hb Hsg Hst. specialize (Hp Hsg). destruct y as [[m se] w sg si ta bo]. unfold waiter_moved.
  cbn [ls_sema ls_waiter ls_signaller ls_signalled ls_taken ls_bogus m_count m_sema] in *.
  assert (Hpo : 0 <= posting sg <= 1) by (destruct sg; cbn; lia). unfold lws_phase in Hp.
  destruct w as [| |t|n t|t|t| | | |b]; cbn [waiter_step weak_load fetch_add_acquire fetch_add_release m_count m_sema fst snd] in Hst;
    cbn [debt due] in Hm, Ho; try discriminate Hst; revert Hst; rewrite ?i64_small by lia;
    zcases; try destruct k; zcases; try destruct (refused _ _); cbn [andb negb]; intros Hst; simplify_eq Hst; intros; subst c' s';
    (split; cbn [ls_sema ls_waiter ls_signaller ls_signalled ls_taken ls_bogus m_count m_sema debt due count_taken wait_bogus];
     [lia|lia|lia|intros _; unfold lws_phase; lia|try done; lia|done]).
Qed.

Lemma lws_signaller_inv init y c' s' :
  0 <= init -> signals_counted y -> lws_inv init y ->
  init + count_signalled (ls_signaller y) (ls_signalled y) + ls_bogus y < 2 ^ 62 ->
  signaller_step true (ls_signaller y) (ls_sema y) = Some (c', s') -> lws_inv init (signaller_moved y c' s').
Proof.
  intros Hi Hc [Hm Hpos Ho Hp Hre Hd] Hb Hst. destruct y as [[m se] w sg si ta bo]. unfold signaller_moved, signals_counted in *.
  cbn [ls_sema ls_waiter ls_signaller ls_signalled ls_taken ls_bogus m_count m_sema] in *.
  assert (Hdw : 0 <= debt w <= due w /\ due w <= 1) by (destruct w; cbn; lia).
  destruct sg as [|n| |]; cbn [signaller_step fetch_add_release fst snd] in Hst; try discriminate Hst.
  - specialize (Hc n eq_refl). specialize (Hp ltac:(done)). cbn [count_signalled posting signal_bogus] in *. revert Hst. cbn [m_count m_sema]. rewrite i64_small by lia.
    zcases; cbn [andb]; intros [=]; subst c' s';
      (split; cbn [ls_sema ls_waiter ls_signaller ls_signalled ls_taken ls_bogus m_count m_sema posting]; [lia|lia|lia| |intros Hw; specialize (Hre Hw); lia|try done; lia]);
      try done; intros _; unfold lws_phase in *; destruct w; lia.
  - injection Hst as <- <-. specialize (Hp ltac:(done)). cbn [count_signalled posting signal_bogus] in *.
    split; cbn [ls_sema ls_waiter ls_signaller ls_signalled ls_taken ls_bogus m_count m_sema posting]; [lia|lia|lia| |done|done].
    by replace (se + 1 + 0) with (se + 1) by lia.
Qed.

Lemma lws_step_inv init y y' :
  0 <= init -> signals_counted y -> lws_step y y' -> (init + ls_signalled y + ls_bogus y < 2 ^ 62 -> lws_inv init y) ->
  init + ls_signalled y' + ls_bogus y' < 2 ^ 62 -> lws_inv init y'.
Proof.
  intros Hi Hc Hs Hy Hb. destruct (signals_counted_step y y' Hc Hs) as (_&Hmono&Hmono'). specialize (Hy ltac:(lia)).
  destruct Hs as [b c' Hsg Hw Hc'|n Hsg Hn|k c' s' Hsg Hst|c' s' Hst].
  - destruct Hy as [Hm Hpos Ho Hp Hre Hd]. rewrite Hw in *. destruct Hc' as [->|[t ->]]; split; done.
  - destruct Hy as [Hm Hpos Ho Hp Hre Hd]. rewrite Hsg in *. split; try done. intros _. by apply Hp.
  - by apply lws_waiter_inv; [| |cbn in *; lia| |].
  - apply lws_signaller_inv; [done..|cbn in *; lia|done].
Qed.

(** C23. The lightweight semaphore with one waiting and one signalling thread, under every
    interleaving of their accesses and every way a wait can end (for fewer than 2^62 units).  Waits
    succeed at most as often as units were signalled and waits let through for nothing, by a deadline
    the system refuses or by a [signal(0)] that posts; the assertion in [signal] fails only after
    such a wait.  A blocked wait can go on as soon as a unit is there and the signalling thread has
    finished (no lost wake-up).  And if none was let through for nothing, the counter is exactly what
    was signalled less what was taken between calls. *)
Theorem lightweight_semaphore_sound (init : Z) (s : LightweightSemaphore) (y : lws_system) :
  LightweightSemaphore_new true init = Ok s -> rtc lws_step (lws_start s) y -> init + ls_signalled y + ls_bogus y < 2 ^ 62 ->
  ls_taken y <= init + ls_signalled y + ls_bogus y /\ (ls_signaller y = SDead -> 0 < ls_bogus y) /\
  (forall t, ls_waiter y = WBlock t -> ls_signaller y = SIdle -> ls_taken y < init + ls_signalled y ->
     is_Some (waiter_step WakeUnit (ls_waiter y) (ls_sema y))) /\
  (forall b, ls_waiter y = WDone b -> ls_signaller y = SIdle -> ls_bogus y = 0 ->
     availableApprox (ls_sema y) = init + ls_signalled y - ls_taken y /\ m_sema (ls_sema y) = 0).
Proof.
  unfold LightweightSemaphore_new. destruct (Z.ltb_spec init 0); [done|]. intros [= <-] Hr Hb.
  assert (Hy : lws_inv init y).
  { assert (Hall : signals_counted y /\ (init + ls_signalled y + ls_bogus y < 2 ^ 62 -> lws_inv init y)); [|by apply Hall].
    clear Hb. revert Hr. apply (rtc_invariant lws_step (fun y => signals_counted y /\ (init + ls_signalled y + ls_bogus y < 2 ^ 62 -> lws_inv init y))).
    - intros a b [Hpos Ha] Hs. destruct (signals_counted_step a b Hpos Hs) as [? ?]. split; [done|]. by apply (lws_step_inv init a).
    - split; [done|]. intros _. split; cbn; unfold lws_phase; cbn; try done; lia. }
  destruct y as [[m se] w sg si ta bo]. destruct Hy as [Hm Hpos Ho Hp Hre Hd].
  cbn [ls_sema ls_waiter ls_signaller ls_signalled ls_taken ls_bogus m_count m_sema] in *.
  assert (0 <= posting sg) by (destruct sg; cbn; lia). split_and!; [|done| |].
  - destruct w; cbn [debt due] in *; try lia. specialize (Hre eq_refl). lia.
  - intros t -> -> Hlt. specialize (Hp ltac:(done)). cbn in *. destruct (Z.ltb_spec 0 se); [by eexists|lia].
  - intros b -> -> ->. cbn in *. unfold availableApprox, weak_load. cbn. destruct (Z.ltb_spec 0 m); lia.
Qed.

(** A schedule: a call of a thread, or its next access. *)
Inductive lws_move := LWait (timeout : Z) | LSignal (count : Z) | LWaiter (k : wake) | LSignaller.

Definition lws_run_move (m : lws_move) (y : lws_system) : option lws_system :=
  if decide (ls_signaller y = SDead) then None else
  match m with
  | LWait t =>
      match ls_waiter y with
      | WDone _ => Some (mk_lsys (ls_sema y) (WFirst t) (ls_signaller y) (ls_signalled y) (ls_taken y) (ls_bogus y))
      | _ => None
      end
  | LSignal n =>
      match ls_signaller y with
      | SIdle => if 0 <=? n then Some (mk_lsys (ls_sema y) (ls_waiter y) (SAdd n) (ls_signalled y) (ls_taken y) (ls_bogus y)) else None
      | _ => None
      end
  | LWaiter k => r ← waiter_step k (ls_waiter y) (ls_sema y); Some (waiter_moved k y r.1 r.2)
  | LSignaller => r ← signaller_step true (ls_signaller y) (ls_sema y); Some (signaller_moved y r.1 r.2)
  end.

Fixpoint lws_run (l : list lws_move) (y : lws_system) : option lws_system :=
  match l with [] => Some y | m :: l' => y' ← lws_run_move m y; lws_run l' y' end.

Lemma lws_run_steps l y y' : lws_run l y = Some y' -> rtc lws_step y y'.
Proof.
  revert y. induction l as [|m l IH]; intros y; cbn [lws_run]; [by intros [= ->]|].
  destruct (lws_run_move m y) as [y1|] eqn:Hm; cbn; [|done]. intros Hl. eapply rtc_l; [|by apply IH].
  unfold lws_run_move in Hm. destruct (decide (ls_signaller y = SDead)) as [|Hdead]; [done|]. destruct m as [t|n|e|].
  - destruct (ls_waiter y) eqn:Hp; simplify_eq. eapply call_wait; [done|done|right; by exists t].
  - destruct (ls_signaller y) eqn:Hp; [|done..]. destruct (Z.leb_spec 0 n); simplify_eq. by apply call_signal.
  - destruct (waiter_step _ _ _) as [[c' s']|] eqn:Hs; cbn in Hm; simplify_eq. by eapply waiter_moves.
  - destruct (signaller_step _ _ _) as [[c' s']|] eqn:Hs; cbn in Hm; simplify_eq. by apply signaller_moves.
Qed.

(** A wait that finds nothing spins and blocks. *)
Definition to_block (t : Z) : list lws_move :=
  LWait t :: replicate 3 (LWaiter WakeUnit) ++ concat (replicate 100 (replicate 100 (LWaiter WakeUnit))).

(** A wait with a timeout spins, blocks and times out; the signal arrives before it restores the
    counter, and is posted only after the first attempt to take it. *)
Definition lws_moves : list lws_move :=
  to_block 5 ++
  [LWaiter WakeExpired; LSignal 2; LSignaller; LWaiter WakeUnit; LWaiter WakeUnit; LWaiter WakeUnit; LSignaller;
   LWaiter WakeUnit; LWaiter WakeUnit; LWaiter WakeUnit].

Definition lws_end : lws_system := default (lws_start (mk_lws 0 0)) (lws_run lws_moves (lws_start (mk_lws 0 0))).

Lemma lightweight_semaphore_sound_witness :
  ls_waiter lws_end = WDone true /\
  availableApprox (ls_sema lws_end) = 0 + ls_signalled lws_end - ls_taken lws_end /\ m_sema (ls_sema lws_end) = 0.
Proof.
  split; [vm_compute; reflexivity|].
  refine (proj2 (proj2 (proj2 (lightweight_semaphore_sound 0 (mk_lws 0 0) lws_end _ _ _))) true _ _ _).
  - reflexivity.
  - apply (lws_run_steps lws_moves). vm_compute. reflexivity.
  - vm_compute. reflexivity.
  - vm_compute. reflexivity.
  - vm_compute. reflexivity.
  - vm_compute. reflexivity.
Defined.

(** Both ways through for nothing happen: a deadline of exactly 10^9 nanoseconds, and a [signal(0)].
    After the first, the next wait that blocks makes the assertion of [signal] fail. *)
Lemma wait_for_nothing :
  (exists y, lws_run (to_block 1 ++ [LWaiter (WakeRefused 999999000)]) (lws_start (mk_lws 0 0)) = Some y /\
     ls_waiter y = WDone true /\ ls_signalled y = 0 /\
     exists y', lws_run (to_block 1 ++ [LSignal 1; LSignaller]) y = Some y' /\ ls_signaller y' = SDead) /\
  exists y, lws_run (to_block (-1) ++ [LSignal 0; LSignaller; LSignaller; LWaiter WakeUnit]) (lws_start (mk_lws 0 0)) = Some y /\
     ls_waiter y = WDone true /\ ls_signalled y = 0.
Proof.
  split; eexists; (split; [vm_compute; reflexivity|]); [|done]. split; [done|]. split; [done|]. eexists. split; [vm_compute; reflexivity|done].
Qed.

(** ** The deadline of a POSIX timed wait *)

Lemma deadline_spec sec nsec usecs : 0 <= nsec < 1000000000 -> 0 <= usecs ->
  let d := deadline sec nsec usecs in
  d.1 * 1000000000 + d.2 = sec * 1000000000 + nsec + usecs * 1000 /\ 0 <= d.2 <= 1000000000 /\
  (d.2 = 1000000000 <-> nsec + (usecs mod 1000000) * 1000 = 1000000000).
Proof.
  intros Hn Hu. unfold deadline. pose proof (Z.div_mod usecs 1000000 ltac:(lia)).
  pose proof (Z.mod_pos_bound usecs 1000000 ltac:(lia)). cbv zeta.
  destruct (Z.ltb_spec 1000000000 (nsec + usecs mod 1000000 * 1000)); cbn [fst snd]; lia.
Qed.

(** [Semaphore::timed_wait] on POSIX: the time it waits for is the current time plus the timeout,
    to the nanosecond, and its nanoseconds are within range except that they can be exactly 10^9
    (the test is [>] where the system call wants less).  When the system refuses that time with
    EINVAL, [timed_wait] reports that the semaphore was taken. *)
Theorem timed_wait_deadline {K} `{SemKernel K} (fuel : nat) (usecs : Z) (k k1 k2 : K) (now a : sem_answer) :
  sem_sys Clock_gettime k = (now, k1) -> 0 <= sa_nsec now < 1000000000 -> 0 <= usecs ->
  let d := deadline (sa_sec now) (sa_nsec now) usecs in
  sem_sys (Sem_timedwait d.1 d.2) k1 = (a, k2) -> ~ (sa_ret a = -1 /\ sa_errno a = E_INTR) ->
  (d.1 * 1000000000 + d.2 = sa_sec now * 1000000000 + sa_nsec now + usecs * 1000 /\ 0 <= d.2 <= 1000000000 /\
   (d.2 = 1000000000 <-> sa_nsec now + (usecs mod 1000000) * 1000 = 1000000000)) /\
  posix_timed_wait (S fuel) usecs k = (Ok (negb ((sa_ret a =? -1) && (sa_errno a =? E_TIMEDOUT))), k2) /\
  (sa_errno a = E_INVAL -> posix_timed_wait (S fuel) usecs k = (Ok true, k2)).
Proof.
  intros Hk Hn Hu d Ha Hi. assert (Hrun : posix_timed_wait (S fuel) usecs k
    = (Ok (negb ((sa_ret a =? -1) && (sa_errno a =? E_TIMEDOUT))), k2)).
  { unfold posix_timed_wait, bind, sem at 1. rewrite Hk. fold d. destruct d as [sec nsec]. cbn [fst snd] in Ha. cbn [retry_intr].
    unfold bind, sem. rewrite Ha.
    assert ((sa_ret a =? -1) && (sa_errno a =? E_INTR) = false) as E.
    { apply andb_false_iff. destruct (Z.eqb_spec (sa_ret a) (-1)); [right|by left]. apply Z.eqb_neq. tauto. }
    rewrite E. reflexivity. }
  split_and!; [apply deadline_spec; done..|done|]. intros He. rewrite Hrun, He. change (E_INVAL =? E_TIMEDOUT) with false. by rewrite andb_false_r.
Qed.

(** A clock that shows 0.999999000 and a system that wants nanoseconds below 10^9. *)
#[export] Instance strict_sem : SemKernel unit := fun c k =>
  match c with
  | Clock_gettime => (mk_answer 0 0 7 999999000, k)
  | Sem_timedwait _ nsec => (if 1000000000 <=? nsec then mk_answer (-1) E_INVAL 0 0 else mk_answer (-1) E_TIMEDOUT 0 0, k)
  | _ => (mk_answer 0 0 0 0, k)
  end.

Lemma timed_wait_deadline_witness : posix_timed_wait 1 1 tt = (Ok true, tt).
Proof.
  apply (timed_wait_deadline 0 1 tt tt tt (mk_answer 0 0 7 999999000) (mk_answer (-1) E_INVAL 0 0)); cbn; try reflexivity; try lia.
  intros [_ Hx]. discriminate Hx.
Defined.
