(* ===== verification/Framing.v ===== *)
(** * Packet framing

    The reference the receive loops of the three back ends are compared with: cut a byte
    stream into packets with a session's [read_packet], which looks at the bytes received so
    far and answers the length of the packet at their front, or a value that is not positive
    when the packet is not complete yet. *)

From S2P Require Import Prelude.

Section Framing.
Context (rp : list byte -> Z).

(** The complete packets at the front of [bs], and what is left. *)
Fixpoint frames_fuel (fuel : nat) (bs : list byte) : list (list byte) * list byte :=
  match fuel, bs with
  | S fuel', _ :: _ =>
      let n := rp bs in
      if (0 <? n) && (n <=? zlen bs) then
        let '(ps, rest) := frames_fuel fuel' (drop (Z.to_nat n) bs) in
        (take (Z.to_nat n) bs :: ps, rest)
      else ([], bs)
  | _, _ => ([], bs)
  end.

Definition frames (bs : list byte) : list (list byte) * list byte := frames_fuel (length bs) bs.

(** What a framing function has to satisfy: it never announces more than is there, ... *)
Class FramingBounded : Prop := rp_bounded : forall bs, rp bs <= zlen bs.

(** ... and, for packets that do not depend on how TCP cuts the stream, a packet once complete
    stays the same packet when more bytes arrive. *)
Class FramingLaw : Prop := {
  framing_bounded :: FramingBounded;
  rp_stable : forall bs more, 0 < rp bs -> rp (bs ++ more) = rp bs
}.

Lemma frames_fuel_enough fuel bs :
  (length bs <= fuel)%nat -> frames_fuel fuel bs = frames bs.
Proof.
  unfold frames. remember (length bs) as m eqn:E. revert fuel bs E.
  induction m as [m IH] using lt_wf_ind. intros fuel bs E Hf.
  destruct bs as [|b bs]; [by subst; destruct fuel|]. subst m. cbn [length] in *.
  destruct fuel as [|fuel]; [lia|]. cbn [frames_fuel]. set (n := rp (b :: bs)).
  destruct ((0 <? n) && (n <=? zlen (b :: bs))) eqn:Hn; [|done].
  apply andb_prop in Hn as [Hn1 Hn2]. apply Z.ltb_lt in Hn1. apply Z.leb_le in Hn2.
  assert (Hl : (length (drop (Z.to_nat n) (b :: bs)) <= length bs)%nat)
    by (rewrite length_drop; cbn [length]; lia).
  rewrite (IH (length (drop (Z.to_nat n) (b :: bs)))) by (done || lia).
  by rewrite (IH (length (drop (Z.to_nat n) (b :: bs))) ltac:(lia) (length bs)) by (done || lia).
Qed.

Lemma frames_nil : frames [] = ([], []).
Proof. done. Qed.

(** One packet off the front. *)
Lemma frames_packet bs :
  0 < rp bs <= zlen bs ->
  frames bs = (take (Z.to_nat (rp bs)) bs :: (frames (drop (Z.to_nat (rp bs)) bs)).1,
               (frames (drop (Z.to_nat (rp bs)) bs)).2).
Proof.
  intros Hn. destruct bs as [|b bs]; [cbn in Hn; lia|].
  unfold frames at 1. cbn [length] in *. cbn [frames_fuel length].
  destruct (Z.ltb_spec 0 (rp (b :: bs))), (Z.leb_spec (rp (b :: bs)) (Z.of_nat (S (length bs)))); try lia.
  cbn [andb]. rewrite frames_fuel_enough by (rewrite length_drop; cbn [length]; lia).
  by destruct (frames (drop (Z.to_nat (rp (b :: bs))) (b :: bs))).
Qed.

(** No packet at the front. *)
Lemma frames_stop bs : rp bs <= 0 \/ zlen bs < rp bs -> frames bs = ([], bs).
Proof.
  intros Hn. destruct bs as [|b bs]; [done|]. unfold frames. cbn [length] in *. cbn [frames_fuel length].
  destruct (Z.ltb_spec 0 (rp (b :: bs))), (Z.leb_spec (rp (b :: bs)) (Z.of_nat (S (length bs)))); done || lia.
Qed.

(** The packets and the rest are the stream. *)
Lemma frames_concat bs : concat (frames bs).1 ++ (frames bs).2 = bs.
Proof.
  remember (length bs) as m eqn:E. revert bs E.
  induction m as [m IH] using lt_wf_ind. intros bs E.
  destruct (decide (0 < rp bs <= zlen bs)) as [Hn|Hn].
  - rewrite (frames_packet bs Hn). cbn [fst snd concat]. rewrite <- app_assoc.
    rewrite (IH (length (drop (Z.to_nat (rp bs)) bs))) by (done || rewrite length_drop; lia).
    apply take_drop.
  - by rewrite frames_stop by lia.
Qed.

(** Cutting does not depend on how the stream was split. *)
Lemma frames_app `{!FramingLaw} bs more :
  frames (bs ++ more) =
    ((frames bs).1 ++ (frames ((frames bs).2 ++ more)).1, (frames ((frames bs).2 ++ more)).2).
Proof.
  remember (length bs) as m eqn:E. revert bs E.
  induction m as [m IH] using lt_wf_ind. intros bs E.
  destruct (decide (0 < rp bs)) as [Hn|Hn].
  - pose proof (rp_bounded bs) as Hb. pose proof (rp_stable bs more Hn) as Hs.
    rewrite (frames_packet (bs ++ more)) by (rewrite Hs, length_app; lia). rewrite Hs.
    rewrite take_app_le, drop_app_le by lia.
    rewrite (IH (length (drop (Z.to_nat (rp bs)) bs))) by (done || rewrite length_drop; lia).
    by rewrite (frames_packet bs) by lia.
  - rewrite (frames_stop bs) by lia. cbn [fst snd app]. by destruct (frames (bs ++ more)).
Qed.

(** Chunk by chunk, keeping the incomplete rest: what a receive buffer does. *)
Fixpoint feed (pending : list byte) (chunks : list (list byte)) : list (list byte) * list byte :=
  match chunks with
  | [] => ([], pending)
  | c :: cs =>
      let '(ps, rest) := frames (pending ++ c) in
      let '(qs, rest') := feed rest cs in
      (ps ++ qs, rest')
  end.

(** What is left holds no packet, and what holds no packet is left whole. *)
Lemma frames_rest bs : frames (frames bs).2 = ([], (frames bs).2).
Proof.
  remember (length bs) as m eqn:E. revert bs E.
  induction m as [m IH] using lt_wf_ind. intros bs E.
  destruct (decide (0 < rp bs <= zlen bs)) as [Hn|Hn].
  - rewrite (frames_packet bs Hn). cbn [snd].
    apply (IH (length (drop (Z.to_nat (rp bs)) bs))); [rewrite length_drop; lia|done].
  - rewrite (frames_stop bs) by lia. cbn [snd]. apply frames_stop. lia.
Qed.

Lemma frames_none bs : (frames bs).1 = [] -> (frames bs).2 = bs.
Proof. intros Hp. pose proof (frames_concat bs) as Hcat. by rewrite Hp in Hcat. Qed.

Lemma feed_frames `{!FramingLaw} pending chunks :
  (frames pending).1 = [] -> feed pending chunks = frames (pending ++ concat chunks).
Proof.
  revert pending. induction chunks as [|c cs IH]; intros pending Hp; cbn [feed concat].
  - pose proof (frames_none pending Hp) as Hr. rewrite app_nil_r.
    destruct (frames pending) as [ps rest]. cbn in *. by subst.
  - rewrite app_assoc, (frames_app (pending ++ c)). pose proof (frames_rest (pending ++ c)) as Hr.
    destruct (frames (pending ++ c)) as [ps rest]. cbn [fst snd] in *.
    rewrite IH by (by rewrite Hr). by destruct (frames (rest ++ concat cs)).
Qed.
End Framing.

(** ** Two framing functions *)

(** The [read_packet] of [EventHandler]: whatever was received is a packet.  It is bounded and
    not stable. *)
Definition whole_buffer (bs : list byte) : Z := zlen bs.

#[export] Instance whole_buffer_bounded : FramingBounded whole_buffer.
Proof. intros bs. unfold whole_buffer. lia. Qed.

(** Packets whose first byte is their length (used by the witnesses). *)
Definition length_prefixed (bs : list byte) : Z :=
  match bs with
  | [] => 0
  | b :: _ => let n := Z.of_N (Byte.to_N b) in if n <=? zlen bs then n else 0
  end.

#[export] Instance length_prefixed_law : FramingLaw length_prefixed.
Proof.
  split.
  - intros [|b bs]; cbn [length_prefixed]; [done|].
    destruct (Z.leb_spec (Z.of_N (Byte.to_N b)) (zlen (b :: bs))); lia.
  - intros [|b bs] more Hn; cbn [length_prefixed app] in *; [lia|].
    destruct (Z.leb_spec (Z.of_N (Byte.to_N b)) (zlen (b :: bs))); [|lia].
    destruct (Z.leb_spec (Z.of_N (Byte.to_N b)) (zlen (b :: bs ++ more))); [done|].
    cbn [length] in *. rewrite length_app in *. lia.
Qed.
