(* ===== verification/Os.v ===== *)
(** * The operating system behind the POSIX back ends

    The kernel is a parameter: a state [K] and a function that answers each call.  A call
    returns its C result, the [errno] it sets when it fails, and what it writes through its
    pointer arguments.  [KernelLaws] states the documented behaviour the theorems use. *)

From S2P Require Import Prelude Heap NetApi.

(** ** Events *)

(** [epoll_data_t], and the [udata] of a [struct kevent]: the member that was written. *)
Inductive event_data := DFd (fd : Z) | DPtr (p : option ptr).

Record epoll_event := mk_epoll_event { ev_events : Z; ev_data : event_data }.

Inductive ctl_op := EPOLL_CTL_ADD | EPOLL_CTL_DEL | EPOLL_CTL_MOD.

Inductive kfilter := EVFILT_READ | EVFILT_WRITE | EVFILT_OTHER.
Inductive kflags := EV_ADD_ENABLE | EV_DELETE.

(** The fields of [struct kevent] the code sets or reads. *)
Record kevent := mk_kevent { ke_ident : Z; ke_filter : kfilter; ke_flags : kflags; ke_udata : event_data }.

#[export] Instance event_data_eq_dec : EqDecision event_data.
Proof. solve_decision. Defined.
#[export] Instance epoll_event_eq_dec : EqDecision epoll_event.
Proof. solve_decision. Defined.
#[export] Instance ctl_op_eq_dec : EqDecision ctl_op.
Proof. solve_decision. Defined.
#[export] Instance kfilter_eq_dec : EqDecision kfilter.
Proof. solve_decision. Defined.
#[export] Instance kflags_eq_dec : EqDecision kflags.
Proof. solve_decision. Defined.
#[export] Instance kevent_eq_dec : EqDecision kevent.
Proof. solve_decision. Defined.

(** The threads the back ends start. *)
Inductive thread_id := ProcThread (i : Z) | AppThread | ListenThread (i : nat).

#[export] Instance thread_id_eq_dec : EqDecision thread_id.
Proof. solve_decision. Defined.

(** ** Calls *)

Inductive fcntl_cmd := F_GETFL | F_SETFL | F_SETFD.

#[export] Instance fcntl_cmd_eq_dec : EqDecision fcntl_cmd.
Proof. solve_decision. Defined.

Inductive syscall :=
| Sys_epoll_create (size : Z)
| Sys_epoll_ctl (efd : Z) (op : ctl_op) (fd : Z) (ev : option epoll_event)
| Sys_epoll_wait (efd maxevents timeout : Z)
| Sys_kqueue
| Sys_kevent_change (kq : Z) (changes : list kevent)
| Sys_kevent_wait (kq maxevents timeout_ms : Z)
| Sys_fcntl (fd : Z) (cmd : fcntl_cmd) (arg : Z)
| Sys_socket
| Sys_setsockopt_reuseaddr (fd enable : Z)
| Sys_bind (fd ip port : Z)
| Sys_listen (fd backlog : Z)
| Sys_accept (fd : Z)
| Sys_getpeername (fd : Z)
| Sys_connect (fd ip port : Z)
| Sys_recv (fd len : Z)
| Sys_send (fd : Z) (data : list byte)
| Sys_read (fd len : Z)
| Sys_write (fd : Z) (data : list byte)
| Sys_close (fd : Z)
| Sys_thread (t : thread_id)          (** the constructor of [std::thread]; -1 when it throws *)
| Sys_pthread_create (t : thread_id)  (** 0, or an error number *)
| Sys_join (t : thread_id)
| Sys_sleep (ms : Z)
(** Windows: completion ports and overlapped sockets.  A completion is reported as an event: the
    byte count and the key, with the bytes it wrote as data. *)
| Sys_iocp_create (scheds : Z)
| Sys_iocp_associate (iocp fd : Z) (key : ptr)
| Sys_iocp_post (iocp bytes : Z) (key : ptr)
| Sys_iocp_get (iocp : Z)
| Sys_wsasocket
| Sys_wsarecv (fd len : Z)
| Sys_closesocket (fd : Z)
| Sys_closehandle (handle : Z)
| Sys_shutdown (fd : Z).

#[export] Instance syscall_eq_dec : EqDecision syscall.
Proof. solve_decision. Defined.

(** The result, the error code of a failed call, and the data written by [recv] or [read], the
    events written by a wait. *)
Record sysret := mk_sysret {
  sr_ret : Z;
  sr_errno : Z;
  sr_data : list byte;
  sr_events : list epoll_event;
  sr_kevents : list kevent
}.

Definition sys_result (z : Z) : sysret := mk_sysret z 0 [] [] [].
Definition sys_error (e : Z) : sysret := mk_sysret (-1) e [] [] [].

Class Kernel (K : Type) := sys : syscall -> K -> sysret * K.

(** [recv] and [read] write what they return and no more than was asked for, [send] and
    [write] take no more than they were given and return at least -1, a wait fills the events
    it counts and no more than there is room for. *)
Class KernelLaws (K : Type) `{Kernel K} : Prop := {
  recv_law : forall k fd len, 0 <= len -> 0 < sr_ret (sys (Sys_recv fd len) k).1 ->
    sr_ret (sys (Sys_recv fd len) k).1 <= len /\
    sr_ret (sys (Sys_recv fd len) k).1 = zlen (sr_data (sys (Sys_recv fd len) k).1);
  send_law : forall k fd data, -1 <= sr_ret (sys (Sys_send fd data) k).1 <= zlen data;
  epoll_wait_law : forall k fd n t, sr_ret (sys (Sys_epoll_wait fd n t) k).1 <= n /\
    (0 <= sr_ret (sys (Sys_epoll_wait fd n t) k).1 ->
     sr_ret (sys (Sys_epoll_wait fd n t) k).1 = zlen (sr_events (sys (Sys_epoll_wait fd n t) k).1));
  kevent_wait_law : forall k fd n t, sr_ret (sys (Sys_kevent_wait fd n t) k).1 <= n /\
    (0 <= sr_ret (sys (Sys_kevent_wait fd n t) k).1 ->
     sr_ret (sys (Sys_kevent_wait fd n t) k).1 = zlen (sr_kevents (sys (Sys_kevent_wait fd n t) k).1))
}.

(** ** A kernel that answers from a script

    Used by the witnesses: each call takes the next answer, made consistent with the call;
    after the script every call succeeds with 0. *)

Definition clamp_ret (c : syscall) (r : sysret) : sysret :=
  match c with
  | Sys_recv _ len | Sys_read _ len =>
      let d := take (Z.to_nat len) (sr_data r) in
      if sr_ret r <? 0 then sys_error (sr_errno r) else mk_sysret (zlen d) 0 d [] []
  | Sys_send _ data | Sys_write _ data => mk_sysret (Z.max (-1) (Z.min (sr_ret r) (zlen data))) (sr_errno r) [] [] []
  | Sys_epoll_wait _ n _ =>
      let es := take (Z.to_nat n) (sr_events r) in
      if (sr_ret r <? 0) || (n <? 0) then mk_sysret (Z.min n (-1)) (sr_errno r) [] [] []
      else mk_sysret (zlen es) 0 [] es []
  | Sys_kevent_wait _ n _ =>
      let es := take (Z.to_nat n) (sr_kevents r) in
      if (sr_ret r <? 0) || (n <? 0) then mk_sysret (Z.min n (-1)) (sr_errno r) [] [] []
      else mk_sysret (zlen es) 0 [] [] es
  | _ => r
  end.

Definition script : Type := list sysret.

#[export] Instance script_kernel : Kernel script := fun c k =>
  (clamp_ret c (default (sys_result 0) (head k)), tail k).

#[export] Instance script_laws : KernelLaws script.
Proof.
  split; intros k fd; unfold sys, script_kernel; cbn [fst];
    generalize (default (sys_result 0) (head k)); intros r.
  - intros len Hlen. cbn [clamp_ret].
    destruct (sr_ret r <? 0); cbn [sr_ret sr_data sys_error]; [lia|]. rewrite length_take. lia.
  - intros data. cbn [clamp_ret sr_ret]. lia.
  - intros n t. cbn [clamp_ret].
    destruct (sr_ret r <? 0), (Z.ltb_spec n 0); cbn [orb sr_ret sr_events]; rewrite ?length_take; lia.
  - intros n t. cbn [clamp_ret].
    destruct (sr_ret r <? 0), (Z.ltb_spec n 0); cbn [orb sr_ret sr_kevents]; rewrite ?length_take; lia.
Qed.

(** ** The world of a back end

    The kernel, the thread's [errno], the heap of sessions of class [S], the back end's own
    objects [B], and a ghost trace of what happened, oldest first. *)

Inductive trace_event :=
| TSys (c : syscall) (ret : Z)
| TEvt (e : NetEvent) (arg : option ptr)             (** the user's event function called *)
| TCreate (p : ptr)
| TRelease (p : ptr)
| TConnect (p : ptr)                                 (** on_connect *)
| TDisconnect (p : ptr)                              (** on_disconnect *)
| TChunk (p : ptr) (data : list byte)                (** bytes received for the session *)
| TRecv (p : ptr) (packet : list byte)               (** on_recv *)
| TMessage (p : ptr) (msg : list byte)               (** on_message, what the pointer points to *)
| TSend (p : ptr) (off len : Z).                     (** on_send(pData + off, len) *)

#[export] Instance trace_event_eq_dec : EqDecision trace_event.
Proof. solve_decision. Defined.

(** A trace that only adds calls of the kernel and [on_send]: what the operations of a
    connection can do. *)
Definition quiet_event (e : trace_event) : bool :=
  match e with TSys _ _ | TSend _ _ _ => true | _ => false end.

(** ** What a trace says about a session *)

Definition packet_for (p : ptr) (e : trace_event) : option (list byte) :=
  match e with TRecv q d => if decide (q = p) then Some d else None | _ => None end.
Definition chunk_for (p : ptr) (e : trace_event) : option (list byte) :=
  match e with TChunk q d => if decide (q = p) then Some d else None | _ => None end.

(** The packets handed to the session, and the bytes received for it, oldest first. *)
Definition packets_of (p : ptr) (tr : list trace_event) : list (list byte) := omap (packet_for p) tr.
Definition chunks_of (p : ptr) (tr : list trace_event) : list (list byte) := omap (chunk_for p) tr.

Arguments packets_of : simpl never.
Arguments chunks_of : simpl never.

Lemma packets_of_app p t1 t2 : packets_of p (t1 ++ t2) = packets_of p t1 ++ packets_of p t2.
Proof. apply omap_app. Qed.
Lemma chunks_of_app p t1 t2 : chunks_of p (t1 ++ t2) = chunks_of p t1 ++ chunks_of p t2.
Proof. apply omap_app. Qed.

Lemma quiet_packets p tr : Forall (fun e => quiet_event e = true) tr -> packets_of p tr = [].
Proof. induction 1 as [|e tr He _ IH]; [done|]. by destruct e. Qed.
Lemma quiet_chunks p tr : Forall (fun e => quiet_event e = true) tr -> chunks_of p tr = [].
Proof. induction 1 as [|e tr He _ IH]; [done|]. by destruct e. Qed.

Record world (K S B : Type) := mk_world {
  w_kernel : K;
  w_errno : Z;
  w_trace : list trace_event;
  w_sessions : heap S;
  w_env : B
}.
Arguments mk_world {K S B}. Arguments w_kernel {K S B}. Arguments w_errno {K S B}.
Arguments w_trace {K S B}. Arguments w_sessions {K S B}. Arguments w_env {K S B}.

Section World.
Context {K S B : Type} `{Kernel K}.
Implicit Types (w : world K S B).

Definition emit (e : trace_event) : M (world K S B) unit :=
  modify (fun w => mk_world (w_kernel w) (w_errno w) (w_trace w ++ [e]) (w_sessions w) (w_env w)).

(** [errno] changes only when the call fails. *)
Definition after_call (c : syscall) (r : sysret) (k : K) w : world K S B :=
  mk_world k (if sr_ret r <? 0 then sr_errno r else w_errno w)
    (w_trace w ++ [TSys c (sr_ret r)]) (w_sessions w) (w_env w).

Definition sys_call (c : syscall) : M (world K S B) sysret := fun w =>
  let '(r, k) := sys c (w_kernel w) in (Ok r, after_call c r k w).

(** A call whose result only matters through its return value. *)
Definition sys_ret (c : syscall) : M (world K S B) Z := bind (sys_call c) (fun r => ret (sr_ret r)).

(** A call whose result is ignored. *)
Definition sys_ignore (c : syscall) : M (world K S B) unit := bind (sys_call c) (fun _ => ret tt).

Definition set_sessions (h : heap S) w : world K S B :=
  mk_world (w_kernel w) (w_errno w) (w_trace w) h (w_env w).

Definition set_env (b : B) w : world K S B :=
  mk_world (w_kernel w) (w_errno w) (w_trace w) (w_sessions w) b.

(** Access through a session pointer: a dangling one is undefined. *)
Definition session (p : ptr) : M (world K S B) S := fun w =>
  match heap_get (w_sessions w) p with
  | Some s => (Ok s, w)
  | None => (Undefined, w)
  end.

Definition put_session (p : ptr) (s : S) : M (world K S B) unit := fun w =>
  match heap_set p s (w_sessions w) with
  | Some h => (Ok tt, set_sessions h w)
  | None => (Undefined, w)
  end.

(** [factory->create()] and [factory->release(p)] of [SessionFactory]. *)
Definition factory_create (init : S) : M (world K S B) ptr := fun w =>
  let '(p, h) := SessionFactory_create init (w_sessions w) in
  (Ok p, (emit (TCreate p) (set_sessions h w)).2).

Definition factory_release (p : ptr) : M (world K S B) unit := fun w =>
  match SessionFactory_release p (w_sessions w) with
  | Some h => emit (TRelease p) (set_sessions h w)
  | None => (Undefined, w)
  end.

(** A call of the user's event function; an empty [std::function] throws. *)
Definition call_event (f : EventHandleFunc) (e : NetEvent) (arg : option ptr) : M (world K S B) (option ptr) :=
  match f with
  | Some g => bind (emit (TEvt e arg)) (fun _ => ret (g e arg))
  | None => throw_std
  end.

(** [if (evtHandler) evtHandler(e, arg);] *)
Definition notify (f : EventHandleFunc) (e : NetEvent) (arg : option ptr) : M (world K S B) unit :=
  match f with
  | Some _ => bind (call_event f e arg) (fun _ => ret tt)
  | None => ret tt
  end.

(** [std::thread(...)]: throws [std::system_error] when the thread cannot be started. *)
Definition start_thread (t : thread_id) : M (world K S B) unit :=
  bind (sys_ret (Sys_thread t)) (fun r => if r <? 0 then throw_std else ret tt).

(** ** Rules *)

Lemma bind_sys_ret {A} c (k : Z -> M (world K S B) A) w :
  bind (sys_ret c) k w
  = k (sr_ret (sys c (w_kernel w)).1) (after_call c (sys c (w_kernel w)).1 (sys c (w_kernel w)).2 w).
Proof. unfold sys_ret, sys_call, bind. by destruct (sys c (w_kernel w)). Qed.

Local Abbreviation W := (world K S B).

Lemma wp_session p (Q : S -> W -> Prop) s w :
  heap_get (w_sessions w) p = Some s -> Q s w -> wp (session p) Q w.
Proof. intros Hs HQ. unfold wp, session. by rewrite Hs. Qed.

Lemma wp_put_session p s' (Q : unit -> W -> Prop) s w :
  heap_get (w_sessions w) p = Some s ->
  Q tt (set_sessions (mk_heap (<[p := s']> (h_cells (w_sessions w))) (h_next (w_sessions w))) w) ->
  wp (put_session p s') Q w.
Proof. intros Hs HQ. unfold wp, put_session, heap_set. unfold heap_get in Hs. by rewrite Hs. Qed.

Lemma wp_sys_call c (Q : sysret -> W -> Prop) w :
  Q (sys c (w_kernel w)).1 (after_call c (sys c (w_kernel w)).1 (sys c (w_kernel w)).2 w) ->
  wp (sys_call c) Q w.
Proof. unfold wp, sys_call. by destruct (sys c (w_kernel w)). Qed.

Lemma wp_sys_ret c (Q : Z -> W -> Prop) w :
  Q (sr_ret (sys c (w_kernel w)).1) (after_call c (sys c (w_kernel w)).1 (sys c (w_kernel w)).2 w) ->
  wp (sys_ret c) Q w.
Proof. intros HQ. apply wp_bind, wp_sys_call. by apply wp_ret. Qed.

Lemma wp_sys_ignore c (Q : unit -> W -> Prop) w :
  Q tt (after_call c (sys c (w_kernel w)).1 (sys c (w_kernel w)).2 w) -> wp (sys_ignore c) Q w.
Proof. intros HQ. apply wp_bind, wp_sys_call. by apply wp_ret. Qed.

Lemma wp_emit e (Q : unit -> W -> Prop) w :
  Q tt (mk_world (w_kernel w) (w_errno w) (w_trace w ++ [e]) (w_sessions w) (w_env w)) ->
  wp (emit e) Q w.
Proof. done. Qed.

Lemma wp_release p s (Q : unit -> W -> Prop) w :
  heap_get (w_sessions w) p = Some s ->
  Q tt (mk_world (w_kernel w) (w_errno w) (w_trace w ++ [TRelease p])
          (mk_heap (delete p (h_cells (w_sessions w))) (h_next (w_sessions w))) (w_env w)) ->
  wp (factory_release p) Q w.
Proof.
  intros Hs HQ. unfold wp, factory_release, SessionFactory_release, heap_delete.
  unfold heap_get in Hs. by rewrite Hs.
Qed.

(** What [notify] adds to the trace. *)
Definition notified (f : EventHandleFunc) (e : NetEvent) (arg : option ptr) : list trace_event :=
  match f with Some _ => [TEvt e arg] | None => [] end.

Lemma wp_notify f e arg (Q : unit -> W -> Prop) w :
  Q tt (mk_world (w_kernel w) (w_errno w) (w_trace w ++ notified f e arg) (w_sessions w) (w_env w)) ->
  wp (notify f e arg) Q w.
Proof.
  intros HQ. destruct f as [g|]; cbn in *; [done|]. rewrite app_nil_r in HQ.
  destruct w. exact HQ.
Qed.

Lemma wlp_session p (Q : S -> W -> Prop) w :
  (forall s, heap_get (w_sessions w) p = Some s -> Q s w) -> wlp (session p) Q w.
Proof. intros HQ. unfold wlp, session. destruct (heap_get (w_sessions w) p); auto. Qed.

Lemma wlp_put_session p s' (Q : unit -> W -> Prop) w :
  (forall s, heap_get (w_sessions w) p = Some s ->
     Q tt (set_sessions (mk_heap (<[p := s']> (h_cells (w_sessions w))) (h_next (w_sessions w))) w)) ->
  wlp (put_session p s') Q w.
Proof.
  intros HQ. unfold wlp, put_session, heap_set, heap_get in *.
  destruct (h_cells (w_sessions w) !! p); eauto.
Qed.

Lemma wlp_sys_call c (Q : sysret -> W -> Prop) w :
  Q (sys c (w_kernel w)).1 (after_call c (sys c (w_kernel w)).1 (sys c (w_kernel w)).2 w) ->
  wlp (sys_call c) Q w.
Proof. intros. by apply wlp_wp, wp_sys_call. Qed.

Lemma wlp_sys_ret c (Q : Z -> W -> Prop) w :
  Q (sr_ret (sys c (w_kernel w)).1) (after_call c (sys c (w_kernel w)).1 (sys c (w_kernel w)).2 w) ->
  wlp (sys_ret c) Q w.
Proof. intros. by apply wlp_wp, wp_sys_ret. Qed.

Lemma wlp_sys_ignore c (Q : unit -> W -> Prop) w :
  Q tt (after_call c (sys c (w_kernel w)).1 (sys c (w_kernel w)).2 w) -> wlp (sys_ignore c) Q w.
Proof. intros. by apply wlp_wp, wp_sys_ignore. Qed.

Lemma wlp_emit e (Q : unit -> W -> Prop) w :
  Q tt (mk_world (w_kernel w) (w_errno w) (w_trace w ++ [e]) (w_sessions w) (w_env w)) ->
  wlp (emit e) Q w.
Proof. done. Qed.
End World.

(** The same for partial correctness; an outcome that is not a value ends the proof. *)
Ltac wlp_step :=
  lazymatch goal with
  | |- wlp (bind _ _) _ _ => apply wlp_bind
  | |- wlp (sys_ret _) _ _ => apply wlp_sys_ret
  | |- wlp (sys_ignore _) _ _ => apply wlp_sys_ignore
  | |- wlp (sys_call _) _ _ => apply wlp_sys_call
  | |- wlp (emit _) _ _ => apply wlp_emit
  | |- wlp (gets _) _ _ => apply wlp_gets
  | |- wlp (modify _) _ _ => apply wlp_modify
  | |- wlp (ret _) _ _ => apply wlp_ret
  | |- wlp (throw _) _ _ => exact I
  | |- wlp throw_std _ _ => exact I
  | |- wlp undefined _ _ => exact I
  | |- wlp out_of_fuel _ _ => exact I
  | |- wlp (c_assert _ _) _ _ => apply wlp_assert
  | |- wlp (session _) _ _ => apply wlp_session; intros ? ?
  | |- wlp (put_session _ _) _ _ => apply wlp_put_session; intros ? ?
  | |- wlp (deref _) _ _ => apply wlp_deref; intros ? ?
  end.
Ltac wlp_steps := cbv beta iota; repeat (wlp_step; cbv beta iota).

(** Runs the straight-line prefix of a computation. *)
Ltac wp_step :=
  lazymatch goal with
  | |- wp (bind _ _) _ _ => apply wp_bind
  | |- wp (sys_ret _) _ _ => apply wp_sys_ret
  | |- wp (sys_ignore _) _ _ => apply wp_sys_ignore
  | |- wp (sys_call _) _ _ => apply wp_sys_call
  | |- wp (emit _) _ _ => apply wp_emit
  | |- wp (notify _ _ _) _ _ => apply wp_notify
  | |- wp (session _) _ _ => eapply wp_session; [eassumption|]
  | |- wp (deref (Some _)) _ _ => eapply wp_deref; [reflexivity|]
  | |- wp get _ _ => apply wp_get
  | |- wp (gets _) _ _ => apply wp_gets
  | |- wp (modify _) _ _ => apply wp_modify
  | |- wp (ret _) _ _ => apply wp_ret
  end.
Ltac wp_steps := cbv beta iota; repeat (wp_step; cbv beta iota).
