(* ===== verification/EpollSession.v ===== *)
(** * A connection of the epoll back end: [EventHandler] of detail/epollnet.hpp

    The connection object, the operations a user's session class calls ([async_send], [send],
    [close], [recv_size]) and the execution of the user's callbacks, which may call them. *)

From S2P Require Import Prelude Heap NetApi SendBuffer Os.

(** ** Constants of the platform (Linux) *)

Definition EPOLLIN : Z := 1.
Definition EPOLLOUT : Z := 4.
Definition EPOLLERR : Z := 8.
Definition EAGAIN : Z := 11.
Definition EWOULDBLOCK : Z := 11.
Definition ECONNRESET : Z := 104.
Definition O_NONBLOCK : Z := 2048.
Definition FD_CLOEXEC : Z := 1.

(** What the [void* context] of a connection points to. *)
Inductive owner := OwnNone | OwnListener (i : nat) | OwnConnector (i : nat).

(** The connection.  A member the constructor leaves uninitialised, or that is assigned from
    an uninitialised variable, is [None].  [user] stands for the members a derived class
    adds. *)
Record EventHandler (U : Type) := mk_EventHandler {
  procFd : Z;
  fd : Z;
  context : owner;
  s_ip : option Z;
  s_port : option Z;
  isPassive : option bool;
  sndBufHead : Z;
  sndBufTail : Z;
  sendBuffer : SendBuffer;
  recvBuf : list byte;
  recvBufPos : Z;
  user : U
}.
Arguments mk_EventHandler {U}. Arguments procFd {U}. Arguments fd {U}. Arguments context {U}.
Arguments s_ip {U}. Arguments s_port {U}. Arguments isPassive {U}. Arguments sndBufHead {U}.
Arguments sndBufTail {U}. Arguments sendBuffer {U}. Arguments recvBuf {U}.
Arguments recvBufPos {U}. Arguments user {U}.

Section Fields.
Context {U : Type}.
Implicit Types (s : EventHandler U).

Definition set_procFd (v : Z) s : EventHandler U :=
  mk_EventHandler v (fd s) (context s) (s_ip s) (s_port s) (isPassive s) (sndBufHead s)
    (sndBufTail s) (sendBuffer s) (recvBuf s) (recvBufPos s) (user s).
Definition set_sendBuffer (v : SendBuffer) s : EventHandler U :=
  mk_EventHandler (procFd s) (fd s) (context s) (s_ip s) (s_port s) (isPassive s) (sndBufHead s)
    (sndBufTail s) v (recvBuf s) (recvBufPos s) (user s).
Definition set_recv (buf : list byte) (pos : Z) s : EventHandler U :=
  mk_EventHandler (procFd s) (fd s) (context s) (s_ip s) (s_port s) (isPassive s) (sndBufHead s)
    (sndBufTail s) (sendBuffer s) buf pos (user s).
Definition set_user (v : U) s : EventHandler U :=
  mk_EventHandler (procFd s) (fd s) (context s) (s_ip s) (s_port s) (isPassive s) (sndBufHead s)
    (sndBufTail s) (sendBuffer s) (recvBuf s) (recvBufPos s) v.
Definition set_peer (f : Z) (ip port : option Z) (c : owner) (passive : bool) s : EventHandler U :=
  mk_EventHandler (procFd s) f c ip port (Some passive) (sndBufHead s)
    (sndBufTail s) (sendBuffer s) (recvBuf s) (recvBufPos s) (user s).
End Fields.

Section Session.
Context {K U B : Type} `{Kernel K}.
Context (RecvBufSize SendBufSize : Z) (h : IEventHandler U) (user_init : U) (dbg : bool).
Local Open Scope tinynet_scope.
Local Abbreviation W := (world K (EventHandler U) B).

(** The constructor: the two sizes are the template's, the members without an initialiser
    are indeterminate; the receive buffer's bytes are too, and are modelled by zeros since
    nothing reads them before they are written. *)
Definition EventHandler_new : EventHandler U :=
  mk_EventHandler (-1) (-1) OwnNone None None None 0 0 (SendBuffer_init SendBufSize)
    (replicate (Z.to_nat RecvBufSize) x00) 0 user_init.

Definition async_send (p : ptr) (pData : list byte) : M W Z :=
  let* s := session p in
  c_assert dbg (push_pre SendBufSize pData) ;;
  let '(ok, sb) := push SendBufSize (sendBuffer s) pData in
  put_session p (set_sendBuffer sb s) ;;
  sys_ignore (Sys_epoll_ctl (procFd s) EPOLL_CTL_MOD (fd s)
    (Some (mk_epoll_event (Z.lor (Z.lor EPOLLIN EPOLLOUT) EPOLLERR) (DPtr (Some p))))) ;;
  ret (if ok : bool then NetRet_value RET_OK else NetRet_value RET_ERR).

(** [::send], then [on_send] with the pointer past the bytes sent.  The branch on EAGAIN is
    empty in the source. *)
Definition send (p : ptr) (pData : list byte) : M W Z :=
  let* s := session p in
  let* sntLen := sys_ret (Sys_send (fd s) pData) in
  c_assert dbg (sntLen =? zlen pData) ;;
  emit (TSend p sntLen (u32 sntLen)) ;;
  put_session p (set_user (on_send h (user s) pData sntLen (u32 sntLen)) s) ;;
  ret (i32 sntLen).

Definition recv_size (s : EventHandler U) : Z := RecvBufSize - recvBufPos s.

Definition close (p : ptr) : M W unit :=
  let* s := session p in sys_ignore (Sys_close (fd s)).

(** [launch_recv] does nothing in this back end. *)
Definition launch_recv (p : ptr) (bufLen : Z) : M W unit := ret tt.

(** The virtual functions' default bodies. *)
Definition EventHandler_default : IEventHandler U := {|
  read_packet := fun _ pData => zlen pData;
  on_connect := CDone;
  on_disconnect := CDone;
  on_recv := fun _ => CDone;
  on_message := fun _ => CDone;
  on_send := fun u _ _ _ => u;
  parse_message := fun _ _ off => InBuf off
|}.

(** ** Running a user's callback on the session [p] *)

Fixpoint run_callback (p : ptr) (c : callback U) : M W unit :=
  match c with
  | CDone => ret tt
  | CGet k => let* s := session p in run_callback p (k (user s))
  | CPut u k => let* s := session p in put_session p (set_user u s) ;; run_callback p k
  | CSend data k => let* r := send p data in run_callback p (k r)
  | CAsyncSend data k => let* r := async_send p data in run_callback p (k r)
  | CClose k => close p ;; run_callback p k
  end.

(** ** What the operations leave alone *)

(** From [w] to [w'] nothing happened but calls, and only the session [p] changed, which keeps
    its descriptor, its place and its receive buffer. *)
Definition quiet (p : ptr) (w w' : W) : Prop :=
  w_env w' = w_env w /\ h_next (w_sessions w') = h_next (w_sessions w) /\
  (exists tr, w_trace w' = w_trace w ++ tr /\ Forall (fun e => quiet_event e = true) tr) /\
  (forall q, q <> p -> heap_get (w_sessions w') q = heap_get (w_sessions w) q) /\
  forall s, heap_get (w_sessions w) p = Some s ->
    exists s', heap_get (w_sessions w') p = Some s' /\ fd s' = fd s /\ procFd s' = procFd s /\
      recvBuf s' = recvBuf s /\ recvBufPos s' = recvBufPos s /\
      (SendBuffer_wf SendBufSize (sendBuffer s) -> SendBuffer_wf SendBufSize (sendBuffer s')).

Lemma quiet_refl p w : quiet p w w.
Proof.
  split_and!; [done|done| |done|].
  - exists []. by rewrite app_nil_r.
  - intros s Hs. exists s. by split_and!.
Qed.

Lemma quiet_trans p w1 w2 w3 : quiet p w1 w2 -> quiet p w2 w3 -> quiet p w1 w3.
Proof.
  intros (E1&N1&(t1&T1&Q1)&O1&S1) (E2&N2&(t2&T2&Q2)&O2&S2). split_and!.
  - congruence.
  - congruence.
  - exists (t1 ++ t2). rewrite T2, T1, app_assoc. split; [done|]. by apply Forall_app.
  - intros q Hq. rewrite O2, O1; done.
  - intros s Hs. destruct (S1 s Hs) as (s1&Hs1&?&?&?&?&?). destruct (S2 s1 Hs1) as (s2&Hs2&?&?&?&?&?).
    exists s2. split_and!; [done|congruence..|tauto].
Qed.

Lemma quiet_after_call p c r k w : quiet p w (after_call c r k w).
Proof.
  split_and!; [done|done| |done|].
  - eexists. split; [reflexivity|]. by repeat constructor.
  - intros s Hs. exists s. by split_and!.
Qed.

Lemma quiet_emit_send p q a b w :
  quiet p w (mk_world (w_kernel w) (w_errno w) (w_trace w ++ [TSend q a b]) (w_sessions w) (w_env w)).
Proof.
  split_and!; [done|done| |done|].
  - eexists. split; [reflexivity|]. by repeat constructor.
  - intros s Hs. exists s. by split_and!.
Qed.

(** A write to the session that keeps what [quiet] says. *)
Lemma quiet_put p s s' w :
  heap_get (w_sessions w) p = Some s -> fd s' = fd s -> procFd s' = procFd s ->
  recvBuf s' = recvBuf s -> recvBufPos s' = recvBufPos s ->
  (SendBuffer_wf SendBufSize (sendBuffer s) -> SendBuffer_wf SendBufSize (sendBuffer s')) ->
  quiet p w (set_sessions (mk_heap (<[p := s']> (h_cells (w_sessions w))) (h_next (w_sessions w))) w).
Proof.
  intros Hs ?????. split_and!; [done|done| | |].
  - exists []. by rewrite app_nil_r.
  - intros q Hq. unfold heap_get. cbn. by rewrite lookup_insert_ne.
  - intros s0 Hs0. rewrite Hs in Hs0. simplify_eq. exists s'. unfold heap_get. cbn.
    rewrite lookup_insert_eq. by split_and!.
Qed.

(** ** The operations and the callbacks are quiet and cannot fail on a live session *)

Hypothesis SendBufSize_int : 0 < SendBufSize <= INT_MAX.
Hypothesis ndebug : dbg = false.

Lemma send_quiet p data w :
  is_Some (heap_get (w_sessions w) p) -> wp (send p data) (fun _ w' => quiet p w w') w.
Proof.
  intros [s Hs]. unfold send. wp_steps. apply wp_assert; [by rewrite ndebug|]. wp_steps.
  eapply wp_put_session; [exact Hs|]. apply wp_ret.
  eapply quiet_trans; [apply quiet_after_call|]. eapply quiet_trans; [apply quiet_emit_send|].
  by eapply quiet_put.
Qed.

Lemma async_send_quiet p data w :
  is_Some (heap_get (w_sessions w) p) -> wp (async_send p data) (fun _ w' => quiet p w w') w.
Proof.
  intros [s Hs]. unfold async_send. wp_steps. apply wp_assert; [by rewrite ndebug|].
  pose proof (push_wf SendBufSize SendBufSize_int (sendBuffer s) data) as Hp.
  destruct (push SendBufSize (sendBuffer s) data) as [ok sb]. wp_steps.
  eapply wp_put_session; [exact Hs|]. wp_steps. apply wp_ret.
  eapply quiet_trans; [|apply quiet_after_call]. by eapply quiet_put.
Qed.

Lemma close_quiet p w :
  is_Some (heap_get (w_sessions w) p) -> wp (close p) (fun _ w' => quiet p w w') w.
Proof. intros [s Hs]. unfold close. wp_steps. apply quiet_after_call. Qed.

Lemma quiet_live p w w' :
  quiet p w w' -> is_Some (heap_get (w_sessions w) p) -> is_Some (heap_get (w_sessions w') p).
Proof. intros (_&_&_&_&Hq) [s Hs]. destruct (Hq s Hs) as (s'&?&_). eauto. Qed.

Lemma quiet_bind {A C} p (m : M W A) (k : A -> M W C) w :
  is_Some (heap_get (w_sessions w) p) ->
  wp m (fun _ w' => quiet p w w') w ->
  (forall a w1, is_Some (heap_get (w_sessions w1) p) -> wp (k a) (fun _ w' => quiet p w1 w') w1) ->
  wp (bind m k) (fun _ w' => quiet p w w') w.
Proof.
  intros Hl Hm Hk. apply wp_bind. eapply wp_mono; [exact Hm|]. cbv beta. intros a w1 Hq.
  eapply wp_mono; [apply Hk; by eapply quiet_live|]. cbv beta. intros c w2 ?. by eapply quiet_trans.
Qed.

Lemma run_callback_quiet p c w :
  is_Some (heap_get (w_sessions w) p) -> wp (run_callback p c) (fun _ w' => quiet p w w') w.
Proof.
  revert w. induction c as [|k IH|u k IH|data k IH|data k IH|k IH]; intros w Hl; cbn [run_callback].
  - apply wp_ret, quiet_refl.
  - destruct Hl as [s Hs]. wp_steps. eauto.
  - destruct Hl as [s Hs]. apply wp_bind. eapply wp_session; [exact Hs|].
    apply quiet_bind; [eauto| |auto]. eapply wp_put_session; [exact Hs|]. by eapply quiet_put.
  - apply quiet_bind; [done|by apply send_quiet|auto].
  - apply quiet_bind; [done|by apply async_send_quiet|auto].
  - apply quiet_bind; [done|by apply close_quiet|auto].
Qed.
End Session.
