(* ===== verification/EpollNet.v ===== *)
(** * The epoll back end: detail/epollnet.hpp

    [Scheduler], [Processor], [Listener], [Connector] and [TCPService], each operation as the
    source has it, in the world of [Os]. *)

From S2P Require Import Prelude Heap NetApi SendBuffer SpscQueue ObjectPool Os EpollSession.

(** ** State *)

Record Scheduler := mk_Scheduler {
  epollFd : Z;
  procFds : list Z;           (** int[MAX_THREAD] *)
  sched_threads : Z           (** unsigned int *)
}.

(** [Environment<T>::scheder] is a static object: zeros, and the initialiser of [threads]. *)
Definition Scheduler_init : Scheduler := mk_Scheduler 0 (replicate (Z.to_nat MAX_THREAD) 0) 1.

(** A message package: the session and what [parse_message] returned. *)
Record MsgPackage := mk_MsgPackage { pkg_session : ptr; pkg_message : msgptr }.

(** [innerFactory] is [None] when it is not initialised; [factory] tells whether the pointer
    is valid. *)
Record Processor := mk_Processor {
  innerFactory : option bool;
  factory : bool;
  isRunning : bool;
  procThreads : list thread_id;
  msgQueues : list (spscqueue ptr);
  msgPool : ObjectPool;
  packages : gmap ptr MsgPackage;     (** the contents of the pool's objects *)
  p_config : Properties;
  appThread : bool;                   (** joinable *)
  p_evtHandler : EventHandleFunc
}.

Record Listener := mk_Listener {
  l_ip : Z;
  l_port : Z;
  l_backlogs : Z;
  lisFd : Z;
  l_isRunning : bool;
  runThread : bool;                   (** joinable *)
  l_evtHandler : EventHandleFunc
}.

Record Connector := mk_Connector {
  c_ip : Z;
  c_port : Z;
  c_fd : option Z;                    (** [None]: not initialised *)
  c_session : option ptr;
  c_evtHandler : EventHandleFunc
}.

Record epoll_env := mk_env {
  scheder : Scheduler;
  processor : Processor;
  lstListener : list Listener;
  lstConnector : list Connector;
  svc_config : Properties;
  svc_evtHandler : EventHandleFunc
}.

Definition set_scheder (s : Scheduler) (e : epoll_env) : epoll_env :=
  mk_env s (processor e) (lstListener e) (lstConnector e) (svc_config e) (svc_evtHandler e).
Definition set_processor (p : Processor) (e : epoll_env) : epoll_env :=
  mk_env (scheder e) p (lstListener e) (lstConnector e) (svc_config e) (svc_evtHandler e).
Definition set_listeners (l : list Listener) (e : epoll_env) : epoll_env :=
  mk_env (scheder e) (processor e) l (lstConnector e) (svc_config e) (svc_evtHandler e).
Definition set_connectors (c : list Connector) (e : epoll_env) : epoll_env :=
  mk_env (scheder e) (processor e) (lstListener e) c (svc_config e) (svc_evtHandler e).
Definition set_service (c : Properties) (f : EventHandleFunc) (e : epoll_env) : epoll_env :=
  mk_env (scheder e) (processor e) (lstListener e) (lstConnector e) c f.

Definition set_running (b : bool) (p : Processor) : Processor :=
  mk_Processor (innerFactory p) (factory p) b (procThreads p) (msgQueues p) (msgPool p)
    (packages p) (p_config p) (appThread p) (p_evtHandler p).
Definition set_setup (c : Properties) (f : EventHandleFunc) (p : Processor) : Processor :=
  mk_Processor (innerFactory p) (factory p) (isRunning p) (procThreads p) (msgQueues p) (msgPool p)
    (packages p) c (appThread p) f.
Definition set_threads (ts : list thread_id) (p : Processor) : Processor :=
  mk_Processor (innerFactory p) (factory p) (isRunning p) ts (msgQueues p) (msgPool p)
    (packages p) (p_config p) (appThread p) (p_evtHandler p).
Definition set_queues (qs : list (spscqueue ptr)) (p : Processor) : Processor :=
  mk_Processor (innerFactory p) (factory p) (isRunning p) (procThreads p) qs (msgPool p)
    (packages p) (p_config p) (appThread p) (p_evtHandler p).
Definition set_pool (o : ObjectPool) (pk : gmap ptr MsgPackage) (p : Processor) : Processor :=
  mk_Processor (innerFactory p) (factory p) (isRunning p) (procThreads p) (msgQueues p) o
    pk (p_config p) (appThread p) (p_evtHandler p).
Definition set_app (b : bool) (p : Processor) : Processor :=
  mk_Processor (innerFactory p) (factory p) (isRunning p) (procThreads p) (msgQueues p) (msgPool p)
    (packages p) (p_config p) b (p_evtHandler p).

(** The two constructors of [Processor]. *)
Definition Processor_new : Processor :=
  mk_Processor (Some true) true false [] [] (ObjectPool_new 100 10) ∅ Properties_default false None.
Definition Processor_new_with (fact : bool) : Processor :=
  mk_Processor None fact false [] [] (ObjectPool_new 100 10) ∅ Properties_default false None.

(** [TCPService(FactoryPtr factory = nullptr)] *)
Definition TCPService_new (fact : bool) : epoll_env :=
  mk_env Scheduler_init (Processor_new_with fact) [] [] Properties_default None.

Section Epoll.
Context {K U : Type} `{Kernel K}.
Context (RecvBufSize SendBufSize : Z) (h : IEventHandler U) (user_init : U).
(** [create_null]: the factory's [create] returns null (a user's factory may leave the work to
    the event function). *)
Context (create_null : bool) (dbg : bool).
Local Open Scope tinynet_scope.
Abbreviation W := (world K (EventHandler U) epoll_env).

Definition lift {A} (o : outcome A) : M W A := fun w => (o, w).

Definition update (f : epoll_env -> epoll_env) : M W unit :=
  modify (fun w => set_env (f (w_env w)) w).

Definition update_processor (f : Processor -> Processor) : M W unit :=
  update (fun e => set_processor (f (processor e)) e).

Definition update_scheder (f : Scheduler -> Scheduler) : M W unit :=
  update (fun e => set_scheder (f (scheder e)) e).

Definition callback_on (p : ptr) (c : callback U) : M W unit :=
  run_callback SendBufSize h dbg p c.

(** [throw errno;] *)
Definition throw_errno {A} : M W A := let* e := gets w_errno in throw e.

(** ** Scheduler *)

Definition Scheduler_start : M W unit :=
  let* e := sys_ret (Sys_epoll_create 10) in
  update_scheder (fun s => mk_Scheduler e (procFds s) (sched_threads s)) ;;
  if e =? -1 then throw_errno
  else
    let* r := sys_ret (Sys_fcntl e F_SETFD FD_CLOEXEC) in
    c_assert dbg (negb (r =? -1)) ;;
    for_each (seqZ 0 MAX_THREAD) (fun i =>
      let* f := sys_ret (Sys_epoll_create 10) in
      update_scheder (fun s => mk_Scheduler (epollFd s) (zset (procFds s) i f) (sched_threads s)) ;;
      if f =? -1 then throw_errno else ret tt).

Definition Scheduler_stop : M W unit :=
  let* s := gets (fun w => scheder (w_env w)) in
  sys_ignore (Sys_close (epollFd s)) ;;
  update_scheder (fun s => mk_Scheduler 16777215 (procFds s) (sched_threads s)) ;;
  for_each (seqZ 0 MAX_THREAD) (fun i =>
    let* s := gets (fun w => scheder (w_env w)) in
    let* f := deref (zget (procFds s) i) in
    sys_ignore (Sys_close f) ;;
    update_scheder (fun s => mk_Scheduler (epollFd s) (zset (procFds s) i 16777215) (sched_threads s))).

(** [push]: the processor of a descriptor is [fd % threads], computed on [unsigned int]; a
    remainder by 0 is undefined. *)
Definition Scheduler_push (p : ptr) : M W unit :=
  let* sch := gets (fun w => scheder (w_env w)) in
  let* s := session p in
  if sched_threads sch =? 0 then undefined
  else
    let procIdx := u32 (fd s) mod sched_threads sch in
    let* pfd := deref (zget (procFds sch) procIdx) in
    put_session p (set_procFd pfd s) ;;
    sys_ignore (Sys_epoll_ctl pfd EPOLL_CTL_ADD (fd s)
      (Some (mk_epoll_event (Z.lor EPOLLIN EPOLLERR) (DPtr (Some p))))) ;;
    emit (TConnect p) ;;
    callback_on p (on_connect h).

(** ** Processor *)

Definition clamp_threads (threads : Z) : Z := if MAX_THREAD <? threads then MAX_THREAD else threads.

Definition Processor_start (cfg : Properties) (handler : EventHandleFunc) : M W Z :=
  let* pr := gets (fun w => processor (w_env w)) in
  if isRunning pr then ret 0
  else
    update_processor (fun p => set_setup cfg handler (set_running true p)) ;;
    let threads := clamp_threads (threads cfg) in
    update_scheder (fun s => mk_Scheduler (epollFd s) (procFds s) (u32 threads)) ;;
    for_each (seqZ 0 threads) (fun i =>
      let* q := lift (spscqueue_new true dbg 100) in
      update_processor (fun p => set_queues (msgQueues p ++ [q]) p) ;;
      start_thread (ProcThread i) ;;
      update_processor (fun p => set_threads (procThreads p ++ [ProcThread i]) p)) ;;
    when (app_run cfg) (start_thread AppThread ;; update_processor (set_app true)) ;;
    ret 0.

(** [stop]; joining a thread object that is not joinable throws [std::system_error]. *)
Definition Processor_stop : M W unit :=
  let* pr := gets (fun w => processor (w_env w)) in
  if negb (isRunning pr) then ret tt
  else
    update_processor (set_running false) ;;
    let* sch := gets (fun w => scheder (w_env w)) in
    sys_ignore (Sys_close (epollFd sch)) ;;
    for_each (procThreads pr) (fun t => sys_ignore (Sys_join t)) ;;
    update_processor (set_threads []) ;;
    update_processor (set_queues []) ;;
    if appThread pr then sys_ignore (Sys_join AppThread) ;; update_processor (set_app false)
    else throw_std.

(** The destructor: [innerFactory] is read even when no constructor set it. *)
Definition Processor_destroy : M W unit :=
  let* pr := gets (fun w => processor (w_env w)) in
  let* inner := deref (innerFactory pr) in
  when inner (update_processor (fun p =>
    mk_Processor (Some false) (factory p) (isRunning p) (procThreads p) (msgQueues p) (msgPool p)
      (packages p) (p_config p) (appThread p) (p_evtHandler p))).

(** What a message pointer points to, when it is followed. *)
Definition message_bytes (s : EventHandler U) (m : msgptr) : list byte :=
  match m with
  | InBuf off => drop (Z.to_nat off) (recvBuf s)
  | Owned bs => bs
  end.

Definition call_on_message (p : ptr) (m : msgptr) : M W unit :=
  let* s := session p in
  emit (TMessage p (message_bytes s m)) ;;
  callback_on p (on_message h (message_bytes s m)).

(** One queue of the application thread's round. *)
Definition app_queue (i : nat) : M W unit :=
  let* pr := gets (fun w => processor (w_env w)) in
  let* q := deref (msgQueues pr !! i) in
  if isEmpty q then sys_ignore (Sys_sleep 0)
  else
    let* (o, q') := lift (try_dequeue q) in
    update_processor (fun p => set_queues (<[i := q']> (msgQueues p)) p) ;;
    match o with
    | Some pMsgPkg =>
        let* pr := gets (fun w => processor (w_env w)) in
        let* pkg := deref (packages pr !! pMsgPkg) in
        call_on_message (pkg_session pkg) (pkg_message pkg) ;;
        let* pr := gets (fun w => processor (w_env w)) in
        let* o' := lift (ObjectPool_release dbg pMsgPkg (msgPool pr)) in
        update_processor (fun p => set_pool o' (delete pMsgPkg (packages p)) p)
    | None => ret tt
    end.

(** One round of [app_run], and the loop. *)
Definition app_round : M W unit :=
  let* pr := gets (fun w => processor (w_env w)) in
  for_each (seq 0 (length (msgQueues pr))) app_queue.

Fixpoint Processor_app_run (fuel : nat) : M W unit :=
  let* pr := gets (fun w => processor (w_env w)) in
  if negb (isRunning pr) then ret tt
  else match fuel with
       | O => out_of_fuel
       | S fuel' => app_round ;; Processor_app_run fuel'
       end.

(** The message part of a delivery: hand the parsed message to the application thread through
    the queue (the result of [enqueue] is ignored), or to the session at once. *)
Definition post_message (p : ptr) (procIdx : Z) (pMsg : msgptr) : M W unit :=
  let* pr := gets (fun w => processor (w_env w)) in
  let* q := deref (zget (msgQueues pr) procIdx) in
  let* (o, pool) := lift (ObjectPool_acquire dbg (msgPool pr)) in
  let* pMsgPkg := deref o in
  update_processor (fun pr => set_pool pool (<[pMsgPkg := mk_MsgPackage p pMsg]> (packages pr)) pr) ;;
  let '(_, q') := enqueue q pMsgPkg in
  update_processor (fun pr => set_queues (zset (msgQueues pr) procIdx q') pr).

(** The body of the loop's [if]: the packet of length [pkgLen] at [readPos]. *)
Definition deliver (p : ptr) (procIdx readPos pkgLen : Z) : M W unit :=
  let* s := session p in
  let packet := slice readPos pkgLen (recvBuf s) in
  emit (TRecv p packet) ;;
  callback_on p (on_recv h packet) ;;
  let* cfg := gets (fun w => p_config (processor (w_env w))) in
  if app_run cfg then
    let* s := session p in
    post_message p procIdx (parse_message h (user s) (slice readPos pkgLen (recvBuf s)) readPos)
  else when (parser cfg)
    (let* s := session p in
     call_on_message p (parse_message h (user s) (slice readPos pkgLen (recvBuf s)) readPos)).

(** [memmove] of the unread bytes to the front, then the terminating 0 (outside the buffer it
    is undefined). *)
Definition keep_rest (p : ptr) (readPos : Z) : M W unit :=
  let* s := session p in
  let left := recvBufPos s - readPos in
  let buf := blit 0 (slice readPos left (recvBuf s)) (recvBuf s) in
  if (0 <=? left) && (left <? RecvBufSize) then
    put_session p (set_recv (zset buf left x00) left s)
  else undefined.

(** The loop over complete packets.  [readPos] is an [unsigned int], [recvBufPos] is converted
    to one for the comparisons. *)
Fixpoint recv_loop (fuel : nat) (p : ptr) (procIdx readPos pkgLen : Z) : M W unit :=
  if pkgLen <=? 0 then ret tt
  else match fuel with
  | O => out_of_fuel
  | S fuel' =>
      let* s := session p in
      let* readPos :=
        (if u32 (readPos + pkgLen) <=? u32 (recvBufPos s) then
           deliver p procIdx readPos pkgLen ;; ret (u32 (readPos + pkgLen))
         else ret readPos) in
      let* s := session p in
      if readPos <? u32 (recvBufPos s) then
        let pkgLen := read_packet h (user s) (slice readPos (recvBufPos s - readPos) (recvBuf s)) in
        if pkgLen <=? 0 then keep_rest p readPos
        else recv_loop fuel' p procIdx readPos pkgLen
      else put_session p (set_recv (recvBuf s) 0 s)
  end.

(** A connection that ended, for a reset and for an orderly close alike. *)
Definition disconnect (pfd : Z) (p : ptr) : M W unit :=
  let* s := session p in
  sys_ignore (Sys_epoll_ctl pfd EPOLL_CTL_DEL (fd s) None) ;;
  sys_ignore (Sys_close (fd s)) ;;
  emit (TDisconnect p) ;;
  callback_on p (on_disconnect h) ;;
  let* pr := gets (fun w => processor (w_env w)) in
  let* _ := deref (if factory pr then Some tt else None) in
  factory_release p ;;
  notify (p_evtHandler pr) EVT_SESSION_RELEASE (Some p).

(** The EPOLLIN branch. *)
Definition handle_readable (fuel : nat) (procIdx pfd : Z) (p : ptr) : M W unit :=
  let* s := session p in
  let* r := sys_call (Sys_recv (fd s) (recv_size RecvBufSize s)) in
  let len := sr_ret r in
  if len <? 0 then disconnect pfd p
  else if len =? 0 then disconnect pfd p
  else
    emit (TChunk p (sr_data r)) ;;
    let pos := recvBufPos s + len in
    let buf := blit (recvBufPos s) (sr_data r) (recvBuf s) in
    put_session p (set_recv buf pos s) ;;
    recv_loop fuel p procIdx 0 (read_packet h (user s) (slice 0 pos buf)).

(** The EPOLLOUT branch: [errno] is the thread's, whether or not [send] failed. *)
Definition handle_writable (p : ptr) : M W unit :=
  let* s := session p in
  let dataLen := pop_len (sendBuffer s) in
  let* popLen := sys_ret (Sys_send (fd s) (pop_region (sendBuffer s) dataLen)) in
  put_session p (set_sendBuffer (pop_finish (sendBuffer s) dataLen (i32 popLen)).2 s) ;;
  let* e := gets w_errno in
  if (e =? EAGAIN) || (e =? EWOULDBLOCK) then
    sys_ignore (Sys_epoll_ctl (procFd s) EPOLL_CTL_MOD (fd s)
      (Some (mk_epoll_event (Z.lor (Z.lor EPOLLIN EPOLLOUT) EPOLLERR) (DPtr (Some p)))))
  else
    sys_ignore (Sys_epoll_ctl (procFd s) EPOLL_CTL_MOD (fd s)
      (Some (mk_epoll_event (Z.lor EPOLLIN EPOLLERR) (DPtr (Some p))))).

(** The EPOLLERR branch. *)
Definition handle_error (pfd : Z) (p : ptr) : M W unit :=
  let* s := session p in
  sys_ignore (Sys_epoll_ctl pfd EPOLL_CTL_DEL (fd s) None) ;;
  sys_ignore (Sys_close (fd s)) ;;
  let* pr := gets (fun w => processor (w_env w)) in
  let* _ := deref (if factory pr then Some tt else None) in
  factory_release p.

Definition handle_other (pfd : Z) (p : ptr) : M W unit :=
  let* s := session p in
  sys_ignore (Sys_epoll_ctl pfd EPOLL_CTL_DEL (fd s) None).

(** The body of the event loop: one event. *)
Definition handle_event (fuel : nat) (procIdx pfd : Z) (ev : epoll_event) : M W unit :=
  match ev_data ev with
  | DFd _ => undefined
  | DPtr None => ret tt
  | DPtr (Some p) =>
      if Z.land (ev_events ev) EPOLLIN =? EPOLLIN then handle_readable fuel procIdx pfd p
      else if Z.land (ev_events ev) EPOLLOUT =? EPOLLOUT then handle_writable p
      else if Z.land (ev_events ev) EPOLLERR =? EPOLLERR then handle_error pfd p
      else handle_other pfd p
  end.

(** One round of the thread: wait, then handle what came. *)
Definition run_iter (fuel : nat) (procIdx pfd : Z) : M W unit :=
  let* r := sys_call (Sys_epoll_wait pfd MAX_WAIT_EVENT (-1)) in
  let n := sr_ret r in
  if n <? 0 then c_assert dbg false
  else if zlen (sr_events r) <? n then undefined
  else for_each (take (Z.to_nat n) (sr_events r)) (handle_event fuel procIdx pfd).

Fixpoint run_loop (rounds fuel : nat) (procIdx pfd : Z) : M W unit :=
  let* pr := gets (fun w => processor (w_env w)) in
  if negb (isRunning pr) then ret tt
  else match rounds with
       | O => out_of_fuel
       | S rounds' => run_iter fuel procIdx pfd ;; run_loop rounds' fuel procIdx pfd
       end.

Definition Processor_run (rounds fuel : nat) (procIdx : Z) : M W unit :=
  let* sch := gets (fun w => scheder (w_env w)) in
  let* pfd := deref (zget (procFds sch) procIdx) in
  run_loop rounds fuel procIdx pfd.

(** ** Listener *)

Definition update_listener (i : nat) (f : Listener -> Listener) : M W unit :=
  update (fun e => set_listeners (alter f i (lstListener e)) e).

Definition set_lisFd (v : Z) (l : Listener) : Listener :=
  mk_Listener (l_ip l) (l_port l) (l_backlogs l) v (l_isRunning l) (runThread l) (l_evtHandler l).

Definition setSockNonBlock (sock : Z) : M W unit :=
  let* opts := sys_ret (Sys_fcntl sock F_GETFL 0) in
  if opts <? 0 then ret tt
  else sys_ignore (Sys_fcntl sock F_SETFL (Z.lor opts O_NONBLOCK)).

(** [htons] keeps the low 16 bits of the port. *)
Definition htons (port : Z) : Z := port mod 2 ^ 16.

(** The end of [start]'s [try] block: bind, listen, start the thread. *)
Definition bind_and_listen (i : nat) (s : Z) (l : Listener) : M W Z :=
  let* b := sys_ret (Sys_bind s (l_ip l) (htons (l_port l))) in
  if b =? -1 then sys_ignore (Sys_close s) ;; ret (NetRet_value RET_ERR_BIND)
  else
    let* r := sys_ret (Sys_listen s (l_backlogs l)) in
    if r =? -1 then sys_ignore (Sys_close s) ;; ret (NetRet_value RET_ERR_LISTEN)
    else
      start_thread (ListenThread i) ;;
      update_listener i (fun l =>
        mk_Listener (l_ip l) (l_port l) (l_backlogs l) (lisFd l) (l_isRunning l) true (l_evtHandler l)) ;;
      ret 0.

(** The [catch(...)] of [start]: close the descriptor and return 0. *)
Definition listen_catch (i : nat) : M W Z :=
  let* e := gets w_env in
  let* l := deref (lstListener e !! i) in
  when (negb (lisFd l =? -1))
    (sys_ignore (Sys_close (lisFd l)) ;; update_listener i (set_lisFd (-1))) ;;
  ret 0.

(** [start]: the body of the [try], then its handler; falling out of either returns 0. *)
Definition Listener_start (i : nat) (config : Properties) (handler : EventHandleFunc) : M W Z :=
  update_listener i (fun l =>
    mk_Listener (l_ip l) (l_port l) (l_backlogs l) (lisFd l) true (runThread l) handler) ;;
  catch_all
    (let* s := sys_ret Sys_socket in
     update_listener i (set_lisFd s) ;;
     let* e := gets w_env in
     let* l := deref (lstListener e !! i) in
     if s =? -1 then ret (NetRet_value RET_ERR_SOCKET)
     else
       when (reuse config) (sys_ignore (Sys_setsockopt_reuseaddr s 1)) ;;
       setSockNonBlock s ;;
       bind_and_listen i s l)
    (listen_catch i).

(** [stop]: [if (!isRunning) isRunning = false;] leaves the flag as it is. *)
Definition Listener_stop (i : nat) : M W unit :=
  let* e := gets w_env in
  let* l := deref (lstListener e !! i) in
  when (negb (l_isRunning l)) (update_listener i (fun l =>
    mk_Listener (l_ip l) (l_port l) (l_backlogs l) (lisFd l) false (runThread l) (l_evtHandler l))) ;;
  sys_ignore (Sys_close (lisFd l)) ;;
  sys_ignore (Sys_close (epollFd (scheder e))) ;;
  if runThread l then
    sys_ignore (Sys_join (ListenThread i)) ;;
    update_listener i (fun l =>
      mk_Listener (l_ip l) (l_port l) (l_backlogs l) (lisFd l) (l_isRunning l) false (l_evtHandler l))
  else throw_std.

(** [factory->create()], then the event function when it returned null, then the [assert] and
    the first use of the pointer. *)
Definition make_session (evtHandler : EventHandleFunc) : M W ptr :=
  let* pr := gets (fun w => processor (w_env w)) in
  let* _ := deref (if factory pr then Some tt else None) in
  let* o :=
    (if create_null then
       match evtHandler with
       | Some _ => call_event evtHandler EVT_SESSION_CREATE None
       | None => ret None
       end
     else
       let* p := factory_create (EventHandler_new RecvBufSize SendBufSize user_init) in ret (Some p)) in
  c_assert dbg (bool_decide (is_Some o)) ;;
  deref o.

(** A new connection.  The peer's address goes to [lisAddr]; [ip] and [port] are taken from
    [addr], which nothing initialises. *)
Definition accept_connection (i : nat) (l : Listener) : M W unit :=
  let* newFd := sys_ret (Sys_accept (lisFd l)) in
  if newFd <? 0 then
    let* e := gets w_errno in
    if (e =? EAGAIN) || (e =? EWOULDBLOCK) then ret tt else throw e
  else
    setSockNonBlock newFd ;;
    let* pSession := make_session (l_evtHandler l) in
    let* s := session pSession in
    put_session pSession (set_peer newFd None None (OwnListener i) true s) ;;
    Scheduler_push pSession.

(** [( EPOLLIN == waitEvents[i].events & EPOLLIN )] parses as [(EPOLLIN == events) & EPOLLIN]. *)
Definition listen_event (i : nat) (ev : epoll_event) : M W unit :=
  let* e := gets w_env in
  let* l := deref (lstListener e !! i) in
  match ev_data ev with
  | DPtr _ => undefined
  | DFd f =>
      if (lisFd l =? f) && negb (Z.land (if EPOLLIN =? ev_events ev then 1 else 0) EPOLLIN =? 0)
      then accept_connection i l else ret tt
  end.

Fixpoint listen_loop (rounds : nat) (i : nat) (efd : Z) : M W unit :=
  let* e := gets w_env in
  let* l := deref (lstListener e !! i) in
  if negb (l_isRunning l) then ret tt
  else match rounds with
       | O => out_of_fuel
       | S rounds' =>
           let* r := sys_call (Sys_epoll_wait efd MAX_WAIT_EVENT (-1)) in
           if sr_ret r <? 0 then ret tt
           else if zlen (sr_events r) <? sr_ret r then undefined
           else
             for_each (take (Z.to_nat (sr_ret r)) (sr_events r)) (listen_event i) ;;
             listen_loop rounds' i efd
       end.

Definition Listener_run (rounds : nat) (i : nat) : M W unit :=
  let* e := gets w_env in
  let* l := deref (lstListener e !! i) in
  let efd := epollFd (scheder e) in
  let* r := sys_ret (Sys_epoll_ctl efd EPOLL_CTL_ADD (lisFd l)
                       (Some (mk_epoll_event EPOLLIN (DFd (lisFd l))))) in
  if r =? -1 then throw_errno else listen_loop rounds i efd.

(** ** Connector *)

Definition update_connector (i : nat) (f : Connector -> Connector) : M W unit :=
  update (fun e => set_connectors (alter f i (lstConnector e)) e).

(** [connect]; the event function is called on failure without a test for an empty one. *)
Definition Connector_connect (i : nat) : M W Z :=
  let* s := sys_ret Sys_socket in
  update_connector i (fun c => mk_Connector (c_ip c) (c_port c) (Some s) (c_session c) (c_evtHandler c)) ;;
  let* e := gets w_env in
  let* c := deref (lstConnector e !! i) in
  if s =? -1 then ret (NetRet_value RET_ERR_SOCKET)
  else
    let* r := sys_ret (Sys_connect s (c_ip c) (htons (c_port c))) in
    if r =? -1 then
      let* _ := call_event (c_evtHandler c) EVT_CONNECT_FAIL None in
      ret (NetRet_value RET_ERR_CONNECT)
    else
      let* pSession := make_session (c_evtHandler c) in
      update_connector i (fun c =>
        mk_Connector (c_ip c) (c_port c) (c_fd c) (Some pSession) (c_evtHandler c)) ;;
      let* ss := session pSession in
      put_session pSession
        (set_peer s (Some (c_ip c)) (Some (htons (c_port c))) (OwnConnector i) false ss) ;;
      Scheduler_push pSession ;;
      ret (NetRet_value RET_OK).

Definition Connector_start (i : nat) (handler : EventHandleFunc) : M W Z :=
  update_connector i (fun c => mk_Connector (c_ip c) (c_port c) (c_fd c) (c_session c) handler) ;;
  Connector_connect i.

Definition Connector_stop (i : nat) : M W unit :=
  let* e := gets w_env in
  let* c := deref (lstConnector e !! i) in
  let* f := deref (c_fd c) in
  sys_ignore (Sys_close f).

(** ** TCPService *)

Definition normalise (config : Properties) : Properties :=
  let b := if backlogs config <=? 0 then 10 else backlogs config in
  let t := if threads config <=? 0 then 1 else threads config in
  mk_Properties (parser config) (reuse config) (app_run config) b (scheds config) t (cfg_ptr config).

Definition TCPService_start (handler : EventHandleFunc) : M W Z :=
  update (fun e => set_service (normalise (svc_config e)) handler e) ;;
  Scheduler_start ;;
  let* e := gets w_env in
  let* _ := Processor_start (svc_config e) handler in
  for_each (seq 0 (length (lstListener e))) (fun i =>
    let* r := Listener_start i (svc_config e) handler in
    notify handler (if r =? 0 then EVT_LISTEN else EVT_LISTEN_FAIL) None) ;;
  sys_ignore (Sys_sleep 1) ;;
  for_each (seq 0 (length (lstConnector e))) (fun i =>
    let* r := Connector_start i handler in
    notify handler (if r =? 0 then EVT_CONNECT else EVT_CONNECT_FAIL) None) ;;
  ret 0.

Definition TCPService_stop : M W unit :=
  let* e := gets w_env in
  for_each (seq 0 (length (lstListener e))) Listener_stop ;;
  sys_ignore (Sys_sleep 1) ;;
  for_each (seq 0 (length (lstConnector e))) Connector_stop.

(** [addListener] and [addConnector]; [ip] is the result of [inet_addr]. *)
Definition addListener (ip port : Z) : M W unit :=
  update (fun e => set_listeners
    (lstListener e ++ [mk_Listener ip port (backlogs (svc_config e)) (-1) false false None]) e).

Definition addConnector (ip port : Z) : M W unit :=
  update (fun e => set_connectors (lstConnector e ++ [mk_Connector ip port None None None]) e).
End Epoll.
