(* ===== verification/EpollFrame.v ===== *)
(** * What the handlers of the epoll back end leave alone

    Events, accepts and the application thread change sessions, queues and the pool; the scheduler,
    the listeners, the connectors, the flags and the threads of the processor stay, and no epoll
    descriptor is made. *)

From S2P Require Import Prelude Heap NetApi SendBuffer SpscQueue ObjectPool Os EpollSession EpollNet.

(** What stays. *)
Record shape := mk_shape {
  sh_scheder : Scheduler;
  sh_listeners : list Listener;
  sh_connectors : list Connector;
  sh_running : bool;
  sh_threads : list thread_id;
  sh_queues : nat;
  sh_app : bool
}.

Definition shape_of (e : epoll_env) : shape :=
  mk_shape (scheder e) (lstListener e) (lstConnector e) (isRunning (processor e)) (procThreads (processor e))
    (length (msgQueues (processor e))) (appThread (processor e)).

(** One operation after the other, whatever the branches; [base] for the operations that touch the
    world. *)
Ltac keeps_step base :=
  match goal with
  | |- keeps _ (bind _ _) => apply keeps_bind; [|intros ?]
  | |- keeps _ (ret _) => apply keeps_ret
  | |- keeps _ (gets _) => apply keeps_gets
  | |- keeps _ (deref _) => apply keeps_deref
  | |- keeps _ (c_assert _ _) => apply keeps_assert
  | |- keeps _ (throw _) => apply keeps_throw
  | |- keeps _ throw_std => apply keeps_throw_std
  | |- keeps _ undefined => apply keeps_undefined
  | |- keeps _ out_of_fuel => apply keeps_out_of_fuel
  | |- keeps _ (when _ _) => apply keeps_when
  | |- keeps _ (for_each _ _) => apply keeps_for_each; intros ?
  | |- keeps _ (if ?b then _ else _) => destruct b
  | |- keeps _ (match ?b with Some _ => _ | None => _ end) => destruct b
  | |- keeps _ (match ?b with DFd _ => _ | DPtr _ => _ end) => destruct b
  | |- keeps _ (let '(_, _) := ?b in _) => destruct b
  | |- _ => base
  end.
Ltac keeps_steps base := cbv beta zeta; repeat (keeps_step base; cbv beta zeta).

Section Frame.
Context {K U : Type} `{Kernel K}.
Context (RecvBufSize SendBufSize : Z) (h : IEventHandler U) (user_init : U) (create_null : bool).
Context (Kp : K -> Prop) (Kp_call : forall k c, (forall n, c <> Sys_epoll_create n) -> Kp k -> Kp (sys c k).2) (sh : shape).
Local Abbreviation W := (world K (EventHandler U) epoll_env).

Definition framed (w : W) : Prop := shape_of (w_env w) = sh /\ Kp (w_kernel w).

Lemma framed_call c : (forall n, c <> Sys_epoll_create n) -> keeps framed (sys_call c).
Proof using Kp_call.
  intros Hc w [Hw Hk]. unfold sys_call. specialize (Kp_call (w_kernel w) c Hc Hk). destruct (sys c (w_kernel w)) as [r k]. by split.
Qed.

Lemma framed_sys_ret c : (forall n, c <> Sys_epoll_create n) -> keeps framed (sys_ret c).
Proof using Kp_call. intros Hc. apply keeps_bind; [by apply framed_call|]. intros. apply keeps_ret. Qed.

Lemma framed_ignore c : (forall n, c <> Sys_epoll_create n) -> keeps framed (sys_ignore c).
Proof using Kp_call. intros Hc. apply keeps_bind; [by apply framed_call|]. intros. apply keeps_ret. Qed.

Lemma framed_emit e : keeps framed (emit e).
Proof using. apply keeps_modify. by intros w [Hw Hk]. Qed.

Lemma framed_session p : keeps framed (session p).
Proof using. intros w Hw. unfold session. by destruct (heap_get _ p). Qed.

Lemma framed_put p s : keeps framed (put_session p s).
Proof using. intros w [Hw Hk]. unfold put_session. by destruct (heap_set p s _). Qed.

Lemma framed_update_processor g : (forall pr, isRunning (g pr) = isRunning pr /\ procThreads (g pr) = procThreads pr /\
  length (msgQueues (g pr)) = length (msgQueues pr) /\ appThread (g pr) = appThread pr) -> keeps framed (update_processor g).
Proof using.
  intros Hg. apply keeps_modify. intros w [Hw Hk]. split; [|done]. rewrite <- Hw. unfold shape_of. cbn.
  destruct (Hg (processor (w_env w))) as (->&->&->&->). done.
Qed.

Lemma framed_lift {A} (o : outcome A) : keeps framed (lift o).
Proof using. intros w Hw. unfold lift. by destruct o. Qed.

Lemma framed_notify f e a : keeps framed (notify f e a).
Proof using. destruct f as [g|]; cbn; [|apply keeps_ret]. apply keeps_bind; [apply keeps_bind; [apply framed_emit|]|]; intros; apply keeps_ret. Qed.

Lemma framed_release p : keeps framed (factory_release p).
Proof using. intros w Hw. unfold factory_release. destruct (SessionFactory_release p (w_sessions w)); [|done]. by apply (framed_emit (TRelease p)). Qed.

Lemma framed_create s : keeps framed (factory_create s).
Proof using. intros w Hw. unfold factory_create. destruct (SessionFactory_create s (w_sessions w)) as [q hp]. by apply (framed_emit (TCreate q)). Qed.

Ltac framed_base :=
  first [apply framed_call; intros ?; discriminate | apply framed_sys_ret; intros ?; discriminate | apply framed_ignore; intros ?; discriminate
        | apply framed_emit | apply framed_session | apply framed_put | apply framed_lift | apply framed_notify | apply framed_release | apply framed_create
        | apply framed_update_processor; intros ?; cbn; rewrite ?length_zset, ?length_insert; done].
Ltac framed_steps := keeps_steps framed_base.

Lemma framed_callback p c : keeps framed (callback_on SendBufSize h false p c).
Proof using Kp_call. unfold callback_on. induction c; cbn [run_callback]; unfold send, async_send, close; framed_steps; auto. Qed.

Lemma framed_on_message p m : keeps framed (call_on_message SendBufSize h false p m).
Proof using Kp_call. unfold call_on_message. framed_steps. apply framed_callback. Qed.

Lemma framed_deliver p procIdx readPos pkgLen : keeps framed (deliver SendBufSize h false p procIdx readPos pkgLen).
Proof using Kp_call. unfold deliver, post_message. framed_steps; try apply framed_callback; try apply framed_on_message. Qed.

Lemma framed_recv_loop fuel p procIdx readPos pkgLen : keeps framed (recv_loop RecvBufSize SendBufSize h false fuel p procIdx readPos pkgLen).
Proof using Kp_call.
  revert readPos pkgLen. induction fuel as [|fuel IH]; intros readPos pkgLen; cbn [recv_loop]; unfold keep_rest; framed_steps;
    try apply framed_deliver; apply IH.
Qed.

Lemma framed_event fuel procIdx pfd ev : keeps framed (handle_event RecvBufSize SendBufSize h false fuel procIdx pfd ev).
Proof using Kp_call.
  unfold handle_event, handle_readable, handle_writable, handle_error, handle_other, disconnect. framed_steps;
    try apply framed_callback; apply framed_recv_loop.
Qed.

Lemma framed_run_iter fuel procIdx pfd : keeps framed (run_iter RecvBufSize SendBufSize h false fuel procIdx pfd).
Proof using Kp_call. unfold run_iter. framed_steps. apply framed_event. Qed.

Lemma framed_app_queue i : keeps framed (app_queue SendBufSize h false i).
Proof using Kp_call. unfold app_queue. framed_steps. apply framed_on_message. Qed.

Lemma framed_listen_event i ev : keeps framed (listen_event RecvBufSize SendBufSize h user_init create_null false i ev).
Proof using Kp_call.
  unfold listen_event, accept_connection, setSockNonBlock, make_session, call_event, Scheduler_push, throw_errno. framed_steps; apply framed_callback.
Qed.
End Frame.

(** The events of one session leave the others alone. *)
Section Others.
Context {K U : Type} `{Kernel K}.
Context (RecvBufSize SendBufSize : Z) (h : IEventHandler U) (p q : ptr) (Hpq : q <> p) (o : option (EventHandler U)) (nxt : ptr).
Local Abbreviation W := (world K (EventHandler U) epoll_env).

Definition beside (w : W) : Prop := heap_get (w_sessions w) q = o /\ h_next (w_sessions w) = nxt.

Lemma beside_call c : keeps beside (sys_call c).
Proof using. intros w Hw. unfold sys_call. by destruct (sys c (w_kernel w)). Qed.
Lemma beside_sys_ret c : keeps beside (sys_ret c).
Proof using. apply keeps_bind; [apply beside_call|]. intros. apply keeps_ret. Qed.
Lemma beside_ignore c : keeps beside (sys_ignore c).
Proof using. apply keeps_bind; [apply beside_call|]. intros. apply keeps_ret. Qed.
Lemma beside_emit e : keeps beside (emit e).
Proof using. by apply keeps_modify. Qed.
Lemma beside_session r : keeps beside (session r).
Proof using. intros w Hw. unfold session. by destruct (heap_get _ r). Qed.
Lemma beside_put s : keeps beside (put_session p s).
Proof using Hpq.
  intros w [Hw Hn]. unfold put_session, heap_set. destruct (h_cells (w_sessions w) !! p); [|done]. split; [|done].
  unfold heap_get. cbn. by rewrite lookup_insert_ne.
Qed.
Lemma beside_release : keeps beside (factory_release p).
Proof using Hpq.
  intros w [Hw Hn]. unfold factory_release, SessionFactory_release, heap_delete. destruct (h_cells (w_sessions w) !! p); [|done]. split; [|done].
  unfold heap_get. cbn. by rewrite lookup_delete_ne.
Qed.
Lemma beside_update g : keeps beside (update g).
Proof using. by apply keeps_modify. Qed.
Lemma beside_lift {A} (r : outcome A) : keeps beside (lift r).
Proof using. intros w Hw. unfold lift. by destruct r. Qed.
Lemma beside_notify f e a : keeps beside (notify f e a).
Proof using. destruct f as [g|]; cbn; [|apply keeps_ret]. apply keeps_bind; [apply keeps_bind; [apply beside_emit|]|]; intros; apply keeps_ret. Qed.

Ltac beside_base :=
  first [apply beside_call | apply beside_sys_ret | apply beside_ignore | apply beside_emit | apply beside_session | apply beside_put
        | apply beside_release | apply beside_update | apply beside_lift | apply beside_notify].
Ltac beside_steps := keeps_steps beside_base.

Lemma beside_callback c : keeps beside (callback_on SendBufSize h false p c).
Proof using Hpq. unfold callback_on. induction c; cbn [run_callback]; unfold send, async_send, close; beside_steps; auto. Qed.

Lemma beside_deliver procIdx readPos pkgLen : keeps beside (deliver SendBufSize h false p procIdx readPos pkgLen).
Proof using Hpq. unfold deliver, post_message, call_on_message, update_processor. beside_steps; apply beside_callback. Qed.

Lemma beside_recv_loop fuel procIdx readPos pkgLen : keeps beside (recv_loop RecvBufSize SendBufSize h false fuel p procIdx readPos pkgLen).
Proof using Hpq.
  revert readPos pkgLen. induction fuel as [|fuel IH]; intros readPos pkgLen; cbn [recv_loop]; unfold keep_rest; beside_steps; try apply beside_deliver; apply IH.
Qed.

Lemma beside_event fuel procIdx pfd evs : keeps beside (handle_event RecvBufSize SendBufSize h false fuel procIdx pfd (mk_epoll_event evs (DPtr (Some p)))).
Proof using Hpq.
  unfold handle_event, handle_readable, handle_writable, handle_error, handle_other, disconnect. cbn [ev_data ev_events]. beside_steps;
    try apply beside_callback; apply beside_recv_loop.
Qed.
End Others.
