(* ===== verification/EpollApp.v ===== *)
(** * From the processors to the application thread

    With [config.app_run] a processor wraps each message in a package from the pool and puts
    the package's address into its queue; the application thread takes it out, calls
    [on_message] and returns the package to the pool.  Abstractly: one list of messages per
    processor. *)

From S2P Require Import Prelude Heap NetApi SendBuffer SpscQueue ObjectPool Os EpollSession EpollNet.

(** The queues hold the packages [ms], front first; the packages in the queues are distinct,
    and held from the pool. *)
Definition app_rep (pr : Processor) (ms : list (list MsgPackage)) : Prop :=
  exists contents held,
    Forall2 ring_rep (msgQueues pr) contents /\ pool_inv (msgPool pr, held) /\
    NoDup (concat contents) /\ (forall x, x ∈ concat contents -> x ∈ held) /\
    Forall2 (Forall2 (fun pk m => packages pr !! pk = Some m)) contents ms.

(** The effect of [post_message] on the processor. *)
Definition posted (i : nat) (q : spscqueue ptr) (pk : ptr) (o : ObjectPool) (m : MsgPackage)
    (pr : Processor) : Processor :=
  set_queues (<[i := (enqueue q pk).2]> (msgQueues pr))
    (set_pool o (<[pk := m]> (packages pr)) pr).

(** The effect of taking a package and releasing it. *)
Definition taken (i : nat) (q' : spscqueue ptr) (pk : ptr) (o : ObjectPool) (pr : Processor) : Processor :=
  set_pool o (delete pk (packages pr)) (set_queues (<[i := q']> (msgQueues pr)) pr).

(** The list a queue of at most [n] messages becomes when [m] is offered. *)
Definition offer {A} (n : Z) (m : A) (l : list A) : list A := if zlen l <? n then l ++ [m] else l.

Lemma Forall2_packages_fresh (pkgs : gmap ptr MsgPackage) pk m c l :
  pk ∉ c -> Forall2 (fun pk m => pkgs !! pk = Some m) c l ->
  Forall2 (fun x y => <[pk := m]> pkgs !! x = Some y) c l.
Proof.
  intros Hn HF. induction HF as [|x y c l Hx _ IH]; [constructor|].
  apply not_elem_of_cons in Hn as [? ?]. constructor; [by rewrite lookup_insert_ne|auto].
Qed.

Lemma Forall2_packages_delete (pkgs : gmap ptr MsgPackage) pk c l :
  pk ∉ c -> Forall2 (fun pk m => pkgs !! pk = Some m) c l ->
  Forall2 (fun x y => delete pk pkgs !! x = Some y) c l.
Proof.
  intros Hn HF. induction HF as [|x y c l Hx _ IH]; [constructor|].
  apply not_elem_of_cons in Hn as [? ?]. constructor; [by rewrite lookup_delete_ne|auto].
Qed.

(** Mapping a relation over the queues when an address occurs in none of them. *)
Lemma Forall2_contents_impl (P Q : ptr -> MsgPackage -> Prop) pk contents ms :
  pk ∉ concat contents ->
  (forall c l, pk ∉ c -> Forall2 P c l -> Forall2 Q c l) ->
  Forall2 (Forall2 P) contents ms -> Forall2 (Forall2 Q) contents ms.
Proof.
  intros Hn Himp HF. induction HF as [|c l cs ls Hc _ IH]; [constructor|].
  cbn in Hn. rewrite not_elem_of_app in Hn. destruct Hn. constructor; auto.
Qed.

(** Posting a message: it joins the end of the processor's list unless the queue is full. *)
Lemma posted_rep i q pk o m pr ms l :
  app_rep pr ms -> msgQueues pr !! i = Some q -> ms !! i = Some l ->
  ObjectPool_acquire false (msgPool pr) = Ok (Some pk, o) ->
  app_rep (posted i q pk o m pr) (<[i := offer (size_ q - 1) m l]> ms).
Proof.
  intros (contents&held&Hq&Hp&Hnd&Hin&Hm) Hqi Hli Ha.
  destruct (Forall2_lookup_l _ _ _ _ _ Hq Hqi) as (c&Hci&Hrep).
  destruct (pool_acquire_total false _ Hp) as (pk'&o'&Ha'&Hinv). cbn in Ha'.
  rewrite Ha in Ha'. injection Ha' as -> ->. cbn in Hinv.
  assert (Hfresh : pk' ∉ concat contents).
  { intros Hx. apply Hin in Hx. destruct Hinv as (ps&_&Hnd'&_). cbn in Hnd'.
    apply NoDup_app in Hnd' as (_&_&Hnd'). by apply NoDup_cons in Hnd' as [? _]. }
  assert (Hcl : length c = length l).
  { destruct (Forall2_lookup_l _ _ _ _ _ Hm Hci) as (l'&Hl'&HF).
    assert (l' = l) as -> by congruence. by eapply Forall2_length. }
  pose proof (enqueue_cases q c pk' Hrep) as He. unfold posted, offer.
  destruct (enqueue q pk') as [ok q']. destruct He as (Hrep'&Hok&_). cbn [snd].
  set (c' := if ok then c ++ [pk'] else c) in *.
  exists (<[i := c']> contents), (pk' :: held).
  assert (Hcat : concat (<[i := c']> contents) ≡ₚ (if ok then [pk'] else []) ++ concat contents).
  { pose proof (concat_insert_perm contents i c c' Hci) as Hc.
    apply (Permutation_app_inv_r c). rewrite Hc. subst c'. destruct ok; solve_Permutation. }
  split_and!; cbn.
  - by apply Forall2_insert.
  - done.
  - rewrite Hcat. destruct ok; cbn; [by constructor|done].
  - intros x Hx. rewrite Hcat in Hx. destruct ok; cbn in Hx; [|right; auto].
    apply elem_of_cons in Hx as [->|Hx]; [by left|right; auto].
  - assert (Hm' : Forall2 (Forall2 (fun x y => <[pk' := m]> (packages pr) !! x = Some y)) contents ms).
    { eapply Forall2_contents_impl; [exact Hfresh| |exact Hm]. intros; by apply Forall2_packages_fresh. }
    apply Forall2_insert; [done|].
    destruct (Forall2_lookup_l _ _ _ _ _ Hm' Hci) as (l'&Hl'&HF). assert (l' = l) as -> by congruence.
    subst c'. rewrite <- Hcl, <- Hok. destruct ok; [|done].
    apply Forall2_app; [done|]. constructor; [by rewrite lookup_insert_eq|constructor].
Qed.

(** The application thread's turn on a queue that is not empty: it gets the oldest message,
    whose package is intact, and can return it to the pool. *)
Lemma taken_rep i q pr ms l :
  app_rep pr ms -> msgQueues pr !! i = Some q -> ms !! i = Some l -> isEmpty q = false ->
  exists m l' pk q' o,
    l = m :: l' /\ try_dequeue q = Ok (Some pk, q') /\ packages pr !! pk = Some m /\
    ObjectPool_release false pk (msgPool pr) = Ok o /\ app_rep (taken i q' pk o pr) (<[i := l']> ms).
Proof.
  intros (contents&held&Hq&Hp&Hnd&Hin&Hm) Hqi Hli Hne.
  destruct (Forall2_lookup_l _ _ _ _ _ Hq Hqi) as (c&Hci&Hrep).
  destruct (Forall2_lookup_l _ _ _ _ _ Hm Hci) as (l0&Hl0&HF). assert (l0 = l) as -> by congruence.
  pose proof (ring_empty q c (proj1 Hrep)) as He. rewrite Hne in He.
  destruct HF as [|pk m c l' Hpk HF]; [by destruct He as [_ He]; specialize (He eq_refl)|].
  destruct (try_dequeue_rep q _ Hrep) as (q'&Hdq&Hrep'&_). cbn [head tail] in *.
  assert (Hcat : concat contents ≡ₚ pk :: concat (<[i := c]> contents)).
  { pose proof (concat_insert_perm contents i _ c Hci) as Hc.
    apply (Permutation_app_inv_r c). rewrite <- Hc. solve_Permutation. }
  rewrite Hcat in Hnd. apply NoDup_cons in Hnd as [Hn Hnd].
  assert (Hheld : pk ∈ held) by (apply Hin; rewrite Hcat; by left).
  apply list_elem_of_split in Hheld as (h1&h2&->).
  destruct Hp as (ps&Hrep0&Hndp&Hlive). cbn [fst snd] in *.
  assert (Hrel : exists o, ObjectPool_release false pk (msgPool pr) = Ok o).
  { unfold ObjectPool_release. destruct (AtomicAlloc_release_spec false (_alloc (msgPool pr)) pk ps Hrep0)
      as (a'&->&_); [|apply NoDup_app in Hndp as (_&Hd&_); intros Hx; apply (Hd pk Hx);
        rewrite elem_of_app; right; by left|eauto].
    rewrite Forall_forall in Hlive. apply Hlive. rewrite elem_of_app. right. by left. }
  destruct Hrel as [o Ho]. exists m, l', pk, q', o. split_and!; [done..|].
  exists (<[i := c]> contents), (h1 ++ h2). split_and!; cbn.
  - by apply Forall2_insert.
  - apply (pool_step_inv false (msgPool pr, h1 ++ pk :: h2)); [by exists ps|by constructor].
  - done.
  - intros x Hx. assert (Hx' : x ∈ h1 ++ pk :: h2) by (apply Hin; rewrite Hcat; by right).
    assert (x <> pk) by (intros ->; done).
    rewrite elem_of_app, elem_of_cons in Hx'. rewrite elem_of_app. tauto.
  - eapply (Forall2_contents_impl (fun pk m => packages pr !! pk = Some m)); [exact Hn| |].
    + intros c0 l0 Hc0. by apply Forall2_packages_delete.
    + by apply Forall2_insert.
Qed.

Section App.
Context {K U : Type} `{Kernel K}.
Context (SendBufSize : Z) (h : IEventHandler U).
Local Abbreviation W := (world K (EventHandler U) epoll_env).

Lemma zset_posted (i : Z) q pk o m pr :
  0 <= i ->
  set_queues (zset (msgQueues pr) i (enqueue q pk).2) (set_pool o (<[pk := m]> (packages pr)) pr)
  = posted (Z.to_nat i) q pk o m pr.
Proof. intros Hi. unfold zset, posted. by destruct (Z.ltb_spec i 0); [lia|]. Qed.

Lemma post_message_posted p procIdx m q ms (w : W) :
  app_rep (processor (w_env w)) ms -> zget (msgQueues (processor (w_env w))) procIdx = Some q ->
  wp (post_message false p procIdx m)
    (fun _ w' => exists pk o,
       ObjectPool_acquire false (msgPool (processor (w_env w))) = Ok (Some pk, o) /\
       w' = set_env (set_processor (posted (Z.to_nat procIdx) q pk o (mk_MsgPackage p m)
                       (processor (w_env w))) (w_env w)) w) w.
Proof.
  intros (contents&held&_&Hp&_) Hq. unfold post_message. wp_steps.
  eapply wp_deref; [exact Hq|]. wp_steps.
  destruct (pool_acquire_total false _ Hp) as (pk&o&Ha&_). cbn in Ha.
  eapply wp_intro; [unfold lift; by rewrite Ha|].
  unfold update_processor, update. wp_steps. destruct (enqueue q pk) as [ok q'] eqn:E. wp_steps.
  exists pk, o. split; [done|]. rewrite <- zset_posted, E; [done|].
  destruct (proj1 (zget_some_iff _ _) (mk_is_Some _ _ Hq)). lia.
Qed.

(** The session's [on_message] on a live session is quiet. *)
Hypothesis SendBufSize_int : 0 < SendBufSize <= INT_MAX.

Lemma call_on_message_quiet p m s (w : W) :
  heap_get (w_sessions w) p = Some s ->
  wp (call_on_message SendBufSize h false p m)
    (fun _ w' => quiet SendBufSize p
       (mk_world (w_kernel w) (w_errno w) (w_trace w ++ [TMessage p (message_bytes s m)])
          (w_sessions w) (w_env w)) w') w.
Proof.
  intros Hs. unfold call_on_message. wp_steps.
  apply (run_callback_quiet SendBufSize h false SendBufSize_int eq_refl). eauto.
Qed.

Lemma app_queue_taken i m l ms s (w : W) :
  app_rep (processor (w_env w)) ms -> ms !! i = Some (m :: l) ->
  heap_get (w_sessions w) (pkg_session m) = Some s ->
  wp (app_queue SendBufSize h false i)
    (fun _ w' => app_rep (processor (w_env w')) (<[i := l]> ms) /\
       exists tr, w_trace w' = w_trace w ++
         TMessage (pkg_session m) (message_bytes s (pkg_message m)) :: tr /\
         Forall (fun e => quiet_event e = true) tr) w.
Proof.
  intros Hrep Hi Hs. pose proof Hrep as (contents&held&Hq&_&_&_&Hm).
  destruct (Forall2_lookup_r _ _ _ _ _ Hm Hi) as (c&Hci&HF).
  destruct (Forall2_lookup_r _ _ _ _ _ Hq Hci) as (q&Hqi&Hrr).
  assert (Hne : isEmpty q = false).
  { destruct (isEmpty q) eqn:E; [|done]. apply (ring_empty q c (proj1 Hrr)) in E as ->. by inversion HF. }
  destruct (taken_rep i q _ ms (m :: l) Hrep Hqi Hi Hne) as (m'&l'&pk&q'&o&Heq&Hdq&Hpk&Ho&Hrep').
  injection Heq as <- <-.
  unfold app_queue. wp_steps. eapply wp_deref; [exact Hqi|]. rewrite Hne. wp_steps.
  eapply wp_intro; [unfold lift; by rewrite Hdq|]. unfold update_processor, update. wp_steps.
  eapply wp_deref; [exact Hpk|]. wp_steps.
  eapply wp_mono; [by apply call_on_message_quiet|]. cbv beta. intros [] w1 (E&_&(tr&T&Q)&_). cbn in E, T.
  wp_steps. rewrite E. eapply wp_intro; [unfold lift; cbn; by rewrite Ho|]. wp_steps.
  cbn. rewrite E. split; [exact Hrep'|]. exists tr. rewrite T, <- app_assoc. done.
Qed.
End App.

(** ** Properties *)

(** A message of a processor for the application thread: [post_message] always returns,
    takes a package nobody else holds, and the message joins the end of the processor's queue;
    only a queue that already holds its [size_ - 1] messages drops it (the result of [enqueue]
    is ignored). *)
Theorem post_message_offers {K U : Type} `{Kernel K} (w : world K (EventHandler U) epoll_env)
    (p : ptr) (i : nat) (m : msgptr) (q : spscqueue ptr) (ms : list (list MsgPackage)) (l : list MsgPackage) :
  app_rep (processor (w_env w)) ms -> msgQueues (processor (w_env w)) !! i = Some q -> ms !! i = Some l ->
  exists w', post_message false p (Z.of_nat i) m w = (Ok tt, w') /\
    app_rep (processor (w_env w')) (<[i := offer (size_ q - 1) (mk_MsgPackage p m) l]> ms) /\
    w_sessions w' = w_sessions w /\ w_trace w' = w_trace w.
Proof.
  intros Hrep Hq Hl.
  assert (Hz : zget (msgQueues (processor (w_env w))) (Z.of_nat i) = Some q).
  { unfold zget. destruct (Z.ltb_spec (Z.of_nat i) 0); [lia|]. by rewrite Nat2Z.id. }
  destruct (wp_Ok _ _ _ (post_message_posted p (Z.of_nat i) m q ms w Hrep Hz)) as ([]&w'&Hrun&pk&o&Ha&->).
  eexists. split; [exact Hrun|]. cbn. rewrite Nat2Z.id. split; [by apply posted_rep|done].
Qed.

(** A world with one processor's queue and an empty pool. *)
Definition app_world : world script (EventHandler unit) epoll_env :=
  mk_world [] 0 [] (mk_heap {[ 1%positive := EventHandler_new 16 16 tt ]} 2%positive)
    (set_processor (set_queues [mk_spscqueue 101 (replicate 101 None) 0 0] (Processor_new_with true))
       (TCPService_new true)).

Lemma app_world_rep : app_rep (processor (w_env app_world)) [[]].
Proof.
  exists [[]], []. split_and!; [|apply pool_init_inv|constructor| |by repeat constructor].
  - constructor; [|constructor].
    apply (spscqueue_new_rep false 100); [unfold INT_MAX; lia|reflexivity].
  - intros x Hx. cbn in Hx. by apply not_elem_of_nil in Hx.
Qed.

Lemma post_message_offers_witness :
  exists w', post_message false 1%positive 0 (InBuf 0) app_world = (Ok tt, w') /\
    app_rep (processor (w_env w')) [[mk_MsgPackage 1%positive (InBuf 0)]] /\
    w_sessions w' = w_sessions app_world /\ w_trace w' = w_trace app_world.
Proof.
  refine (post_message_offers app_world 1%positive 0 (InBuf 0) _ [[]] [] app_world_rep eq_refl eq_refl).
Defined.

(** The application thread's turn on a queue whose oldest message belongs to a live session:
    it takes exactly that message, calls [on_message] with what the pointer now points to, and
    returns the package to the pool; the queue keeps the later messages in order. *)
Theorem app_queue_delivers {K U : Type} `{Kernel K} (SendBufSize : Z) (h : IEventHandler U)
    (w : world K (EventHandler U) epoll_env) (i : nat) (m : MsgPackage) (l : list MsgPackage)
    (ms : list (list MsgPackage)) (s : EventHandler U) :
  0 < SendBufSize <= INT_MAX -> app_rep (processor (w_env w)) ms -> ms !! i = Some (m :: l) ->
  heap_get (w_sessions w) (pkg_session m) = Some s ->
  exists w', app_queue SendBufSize h false i w = (Ok tt, w') /\
    app_rep (processor (w_env w')) (<[i := l]> ms) /\
    exists tr, w_trace w' = w_trace w ++
        TMessage (pkg_session m) (message_bytes s (pkg_message m)) :: tr /\
      Forall (fun e => quiet_event e = true) tr.
Proof.
  intros HB Hrep Hi Hs.
  destruct (wp_Ok _ _ _ (app_queue_taken SendBufSize h HB i m l ms s w Hrep Hi Hs)) as ([]&w'&?&?).
  by exists w'.
Qed.

Lemma app_queue_delivers_witness :
  exists (w w' : world script (EventHandler unit) epoll_env), app_queue 16 (EventHandler_default (U:=unit)) false 0 w = (Ok tt, w') /\
    app_rep (processor (w_env w')) [[]] /\
    exists tr, w_trace w' = w_trace w ++ TMessage 1%positive (replicate 16 x00) :: tr /\
      Forall (fun e => quiet_event e = true) tr.
Proof.
  destruct (wp_Ok _ _ _ (post_message_posted 1%positive 0 (InBuf 0) _ _ app_world app_world_rep eq_refl))
    as ([]&w1&_&pk&o&Ha&->).
  exists (set_env (set_processor (posted (Z.to_nat 0) (mk_spscqueue 101 (replicate 101 None) 0 0) pk o
           (mk_MsgPackage 1%positive (InBuf 0)) (processor (w_env app_world))) (w_env app_world)) app_world).
  refine (app_queue_delivers 16 (EventHandler_default (U:=unit)) _ 0 (mk_MsgPackage 1%positive (InBuf 0)) []
    [[mk_MsgPackage 1%positive (InBuf 0)]] (EventHandler_new 16 16 tt) _ _ eq_refl _).
  - unfold INT_MAX; lia.
  - exact (posted_rep 0 _ pk o (mk_MsgPackage 1%positive (InBuf 0)) _ [[]] [] app_world_rep eq_refl eq_refl Ha).
  - reflexivity.
Defined.
