(* ===== verification/EpollRecv.v ===== *)
(** * The receive path of the epoll back end

    What a processor does with the bytes of a connection: they are cut into packets exactly as
    the reference [frames] cuts the stream, nothing outside the receive buffer is touched, and
    the loop ends. *)

From S2P Require Import Prelude Heap NetApi SendBuffer SpscQueue ObjectPool Os EpollSession Framing EpollNet EpollApp.

Section Recv.
Context {K U : Type} `{Kernel K}.
Context (RecvBufSize SendBufSize : Z) (h : IEventHandler U) (user_init : U) (create_null : bool).
Local Abbreviation W := (world K (EventHandler U) epoll_env).

(** ** The state of a connection *)

(** The bytes received and not yet delivered. *)
Definition pending (s : EventHandler U) : list byte := slice 0 (recvBufPos s) (recvBuf s).

Definition recv_inv (s : EventHandler U) : Prop :=
  zlen (recvBuf s) = RecvBufSize /\ 0 <= recvBufPos s <= RecvBufSize.

Definition session_inv (s : EventHandler U) : Prop :=
  recv_inv s /\ SendBuffer_wf SendBufSize (sendBuffer s).

Definition pool_ok (pr : Processor) : Prop := exists ms, app_rep pr ms.

(** From [e] to [e'] only the message queues and the message pool changed. *)
Definition setup_kept (e e' : epoll_env) : Prop :=
  scheder e' = scheder e /\ lstListener e' = lstListener e /\ lstConnector e' = lstConnector e /\
  svc_config e' = svc_config e /\ p_config (processor e') = p_config (processor e) /\
  factory (processor e') = factory (processor e) /\
  p_evtHandler (processor e') = p_evtHandler (processor e) /\
  isRunning (processor e') = isRunning (processor e) /\
  length (msgQueues (processor e')) = length (msgQueues (processor e)) /\
  (pool_ok (processor e) -> pool_ok (processor e')).

Lemma setup_kept_refl e : setup_kept e e.
Proof. by split_and!. Qed.

Lemma setup_kept_trans e1 e2 e3 : setup_kept e1 e2 -> setup_kept e2 e3 -> setup_kept e1 e3.
Proof. unfold setup_kept. intros; destruct_and!. split_and!; congruence || tauto. Qed.

(** From [w] to [w'] the chunks [cs] were received for the session [p], it was given the
    packets [ds] and ended in [P]; nothing was received for or given to another session, and no
    other session changed. *)
Definition received (p : ptr) (cs ds : list (list byte)) (P : EventHandler U -> Prop) (w w' : W) : Prop :=
  setup_kept (w_env w) (w_env w') /\ h_next (w_sessions w') = h_next (w_sessions w) /\
  (forall q, q <> p -> heap_get (w_sessions w') q = heap_get (w_sessions w) q) /\
  (exists tr, w_trace w' = w_trace w ++ tr /\
     forall q, packets_of q tr = (if decide (q = p) then ds else []) /\
               chunks_of q tr = (if decide (q = p) then cs else [])) /\
  forall s, heap_get (w_sessions w) p = Some s ->
    exists s', heap_get (w_sessions w') p = Some s' /\ fd s' = fd s /\ procFd s' = procFd s /\
      (SendBuffer_wf SendBufSize (sendBuffer s) -> SendBuffer_wf SendBufSize (sendBuffer s')) /\ P s'.

Local Abbreviation advanced p ds P := (received p [] ds P).

Definition buffer_is (buf : list byte) (pos : Z) (s : EventHandler U) : Prop :=
  recvBuf s = buf /\ recvBufPos s = pos.

Lemma received_trans p cs1 cs2 ds1 ds2 P Q w1 w2 w3 :
  received p cs1 ds1 P w1 w2 -> received p cs2 ds2 Q w2 w3 ->
  received p (cs1 ++ cs2) (ds1 ++ ds2) Q w1 w3.
Proof.
  intros (E1&N1&O1&(t1&T1&D1)&S1) (E2&N2&O2&(t2&T2&D2)&S2). split_and!.
  - by eapply setup_kept_trans.
  - congruence.
  - intros q Hq. rewrite O2, O1; done.
  - exists (t1 ++ t2). rewrite T2, T1, app_assoc. split; [done|]. intros q.
    destruct (D1 q) as [P1 C1], (D2 q) as [P2 C2].
    rewrite packets_of_app, chunks_of_app, P1, P2, C1, C2. by destruct (decide (q = p)).
  - intros s Hs. destruct (S1 s Hs) as (s1&Hs1&?&?&?&_). destruct (S2 s1 Hs1) as (s2&Hs2&?&?&?&?).
    exists s2. split_and!; [done|congruence..|tauto|done].
Qed.

Lemma quiet_advanced p s w w' :
  quiet SendBufSize p w w' -> heap_get (w_sessions w) p = Some s ->
  advanced p [] (buffer_is (recvBuf s) (recvBufPos s)) w w'.
Proof.
  intros (E&N&(tr&T&Q)&O&Hq) Hs. split_and!; [rewrite E; apply setup_kept_refl|done|done| |].
  - exists tr. split; [done|]. intros q. rewrite (quiet_packets q tr Q), (quiet_chunks q tr Q).
    by destruct (decide (q = p)).
  - intros s0 Hs0. assert (s0 = s) as -> by congruence. destruct (Hq s Hs) as (s'&?&?&?&?&?&?).
    exists s'. by split_and!.
Qed.

(** One event added to the trace, nothing else. *)
Lemma emit_received p s e cs ds w :
  heap_get (w_sessions w) p = Some s ->
  (forall q, packets_of q [e] = (if decide (q = p) then ds else []) /\
             chunks_of q [e] = (if decide (q = p) then cs else [])) ->
  received p cs ds (buffer_is (recvBuf s) (recvBufPos s)) w
    (mk_world (w_kernel w) (w_errno w) (w_trace w ++ [e]) (w_sessions w) (w_env w)).
Proof.
  intros Hs He. split_and!; [apply setup_kept_refl|done|done|eauto|].
  intros s0 Hs0. assert (s0 = s) as -> by congruence. exists s. by split_and!.
Qed.

(** A change of the processor's queues and pool. *)
Lemma env_advanced p s e w :
  heap_get (w_sessions w) p = Some s -> setup_kept (w_env w) e ->
  advanced p [] (buffer_is (recvBuf s) (recvBufPos s)) w (set_env e w).
Proof.
  intros Hs He. split_and!; [done|done|done| |].
  - exists []. rewrite app_nil_r. split; [done|]. intros q. by destruct (decide (q = p)).
  - intros s0 Hs0. assert (s0 = s) as -> by congruence. exists s. by split_and!.
Qed.

(** A write of the session's receive state. *)
Lemma put_advanced p s buf pos w :
  heap_get (w_sessions w) p = Some s ->
  advanced p [] (buffer_is buf pos) w
    (set_sessions (mk_heap (<[p := set_recv buf pos s]> (h_cells (w_sessions w))) (h_next (w_sessions w))) w).
Proof.
  intros Hs. split_and!; [apply setup_kept_refl|done| | |].
  - intros q Hq. unfold heap_get. cbn. by rewrite lookup_insert_ne.
  - exists []. rewrite app_nil_r. split; [done|]. intros q. by destruct (decide (q = p)).
  - intros s0 Hs0. assert (s0 = s) as -> by congruence. exists (set_recv buf pos s).
    unfold heap_get. cbn. rewrite lookup_insert_eq. by split_and!.
Qed.

(** Chaining computations that advance the session. *)
Lemma received_bind {A C} p cs1 cs2 ds1 ds2 P Q (m : M W A) (k : A -> M W C) s w :
  heap_get (w_sessions w) p = Some s ->
  wp m (fun _ w' => received p cs1 ds1 P w w') w ->
  (forall a w1 s1, received p cs1 ds1 P w w1 -> heap_get (w_sessions w1) p = Some s1 -> P s1 ->
     wp (k a) (fun _ w' => received p cs2 ds2 Q w1 w') w1) ->
  wp (bind m k) (fun _ w' => received p (cs1 ++ cs2) (ds1 ++ ds2) Q w w') w.
Proof.
  intros Hs Hm Hk. apply wp_bind. eapply wp_mono; [exact Hm|]. cbv beta. intros a w1 Hadv.
  pose proof Hadv as (_&_&_&_&Hex). destruct (Hex s Hs) as (s1&Hs1&_&_&_&HP).
  eapply wp_mono; [by eapply Hk|]. cbv beta. intros c w2 ?. by eapply received_trans.
Qed.

(** ** Delivering a packet *)

Hypothesis SendBufSize_int : 0 < SendBufSize <= INT_MAX.

Lemma callback_advanced p c s w :
  heap_get (w_sessions w) p = Some s ->
  wp (callback_on SendBufSize h false p c)
    (fun _ w' => advanced p [] (buffer_is (recvBuf s) (recvBufPos s)) w w') w.
Proof.
  intros Hs. eapply wp_mono.
  - apply (run_callback_quiet SendBufSize h false SendBufSize_int eq_refl). eauto.
  - cbv beta. intros [] w' Hq. by eapply quiet_advanced.
Qed.

Lemma on_message_advanced p m s w :
  heap_get (w_sessions w) p = Some s ->
  wp (call_on_message SendBufSize h false p m)
    (fun _ w' => advanced p [] (buffer_is (recvBuf s) (recvBufPos s)) w w') w.
Proof.
  intros Hs. unfold call_on_message. apply wp_bind. eapply wp_session; [exact Hs|].
  eapply (received_bind p [] [] [] []); [exact Hs| |].
  - apply wp_emit. apply emit_received; [done|]. intros q. by destruct (decide (q = p)).
  - intros [] w1 s1 _ Hs1 [<- <-]. by apply callback_advanced.
Qed.

(** What the application thread's queues need: the processor's queue exists, and the pool is
    in order. *)
Definition queues_ok (procIdx : Z) (pr : Processor) : Prop :=
  (app_run (p_config pr) = true -> 0 <= procIdx < zlen (msgQueues pr)) /\ pool_ok pr.

Lemma queues_ok_kept procIdx e e' :
  setup_kept e e' -> queues_ok procIdx (processor e) -> queues_ok procIdx (processor e').
Proof.
  intros (_&_&_&_&Hc&_&_&_&Hl&Hp) [Hq Hpool]. split; [|auto]. rewrite Hc, Hl. exact Hq.
Qed.

Lemma post_message_advanced p procIdx m s w :
  heap_get (w_sessions w) p = Some s -> queues_ok procIdx (processor (w_env w)) ->
  app_run (p_config (processor (w_env w))) = true ->
  wp (post_message false p procIdx m)
    (fun _ w' => advanced p [] (buffer_is (recvBuf s) (recvBufPos s)) w w') w.
Proof.
  intros Hs [Hq [ms Hms]] Happ.
  destruct (proj2 (zget_some_iff (msgQueues (processor (w_env w))) procIdx)) as [q Hzq]; [auto|].
  eapply wp_mono; [by apply (post_message_posted p procIdx m q ms)|].
  cbv beta. intros [] w' (pk&o&Ha&->). apply env_advanced; [done|].
  split_and!; cbn; try done.
  - apply length_insert.
  - intros _. unfold zget in Hzq. destruct (procIdx <? 0); [done|].
    assert (Hl : is_Some (ms !! Z.to_nat procIdx)).
    { destruct Hms as (cs&held&H1&_&_&_&H2). apply lookup_lt_is_Some_2.
      rewrite <- (Forall2_length _ _ _ H2), <- (Forall2_length _ _ _ H1). by eapply lookup_lt_Some. }
    destruct Hl as [l Hl]. eexists. by apply posted_rep.
Qed.

Lemma deliver_advanced p procIdx readPos pkgLen s w :
  heap_get (w_sessions w) p = Some s -> queues_ok procIdx (processor (w_env w)) ->
  wp (deliver SendBufSize h false p procIdx readPos pkgLen)
    (fun _ w' => advanced p [slice readPos pkgLen (recvBuf s)]
                   (buffer_is (recvBuf s) (recvBufPos s)) w w') w.
Proof.
  intros Hs Hq. unfold deliver. apply wp_bind. eapply wp_session; [exact Hs|].
  eapply (received_bind p [] [] [slice readPos pkgLen (recvBuf s)] []); [exact Hs| |].
  { apply wp_emit. apply emit_received; [done|]. intros q. unfold packets_of, chunks_of; cbn. repeat case_decide; congruence || done. }
  intros [] w1 s1 Ha1 Hs1 [<- <-]. eapply (received_bind p [] [] [] []); [exact Hs1|by apply callback_advanced|].
  intros [] w2 s2 Ha2 Hs2 [<- <-]. wp_steps.
  destruct (app_run (p_config (processor (w_env w2)))) eqn:Happ.
  - wp_steps. apply post_message_advanced; [done| |done].
    eapply queues_ok_kept; [apply Ha2|]. eapply queues_ok_kept; [apply Ha1|done].
  - apply wp_when; intros _.
    + wp_steps. by apply on_message_advanced.
    + rewrite <- (app_nil_r []). destruct w2. eapply (env_advanced p s2 _ _ Hs2), setup_kept_refl.
Qed.

(** ** The loop over packets *)

Hypothesis RecvBufSize_int : 0 < RecvBufSize <= INT_MAX.
Context (rp : list byte -> Z) `{!FramingBounded rp}.
Hypothesis read_packet_is : forall u bs, read_packet h u bs = rp bs.

Definition unread (s : EventHandler U) (readPos : Z) : list byte :=
  slice readPos (recvBufPos s - readPos) (recvBuf s).

Lemma zlen_unread s readPos :
  recv_inv s -> 0 <= readPos <= recvBufPos s -> zlen (unread s readPos) = recvBufPos s - readPos.
Proof. intros [? ?] ?. unfold unread. zlens. Qed.

Lemma rp_nil : rp [] <= 0.
Proof. apply (rp_bounded rp). Qed.

Lemma keep_rest_advanced p readPos s w :
  heap_get (w_sessions w) p = Some s -> recv_inv s -> 0 < readPos <= recvBufPos s ->
  wp (keep_rest RecvBufSize p readPos)
    (fun _ w' => advanced p [] (fun s' => recv_inv s' /\ pending s' = unread s readPos) w w') w.
Proof.
  intros Hs Hinv Hr. pose proof (zlen_unread s readPos Hinv ltac:(lia)) as Hl.
  pose proof Hinv as [Hb Hp]. unfold keep_rest, unread in *. wp_steps.
  destruct (Z.leb_spec 0 (recvBufPos s - readPos)), (Z.ltb_spec (recvBufPos s - readPos) RecvBufSize);
    try lia. cbn [andb].
  eapply wp_put_session; [exact Hs|].
  set (left := recvBufPos s - readPos) in *. set (rest := slice readPos left (recvBuf s)) in *.
  assert (Hbl : zlen (blit 0 rest (recvBuf s)) = RecvBufSize) by (rewrite zlen_blit; lia).
  pose proof (put_advanced p s (zset (blit 0 rest (recvBuf s)) left x00) left w Hs)
    as (E&N&O&T&HS). split_and!; [done..|].
  intros s0 Hs0. destruct (HS s0 Hs0) as (s'&?&?&?&?&[Hbuf Hpos]). exists s'.
  split_and!; [done..| |].
  - split; [by rewrite Hbuf, length_zset|lia].
  - unfold pending. rewrite Hbuf, Hpos. unfold zset. destruct (Z.ltb_spec left 0); [lia|].
    unfold slice at 1. rewrite drop_0, take_insert_ge by lia.
    change (take (Z.to_nat left) (blit 0 rest (recvBuf s))) with (slice 0 left (blit 0 rest (recvBuf s))).
    rewrite <- Hl. apply slice_blit_at. lia.
Qed.

Lemma recv_loop_frames fuel p procIdx readPos s w :
  heap_get (w_sessions w) p = Some s -> recv_inv s -> 0 <= readPos <= recvBufPos s ->
  queues_ok procIdx (processor (w_env w)) -> 0 < rp (unread s readPos) ->
  recvBufPos s - readPos <= Z.of_nat fuel ->
  wp (recv_loop RecvBufSize SendBufSize h false fuel p procIdx readPos (rp (unread s readPos)))
    (fun _ w' => advanced p (frames rp (unread s readPos)).1
                   (fun s' => recv_inv s' /\ pending s' = (frames rp (unread s readPos)).2) w w') w.
Proof.
  revert readPos s w. induction fuel as [|fuel IH]; intros readPos s w Hs Hinv Hr Hq Hn Hf;
    pose proof (zlen_unread s readPos Hinv Hr) as Hlen; pose proof (rp_bounded rp (unread s readPos)) as Hb.
  { lia. }
  cbn [recv_loop]. destruct (Z.leb_spec (rp (unread s readPos)) 0); [lia|].
  set (n := rp (unread s readPos)) in *. pose proof Hinv as [Hbl Hp]. unfold INT_MAX in *.
  apply wp_bind. eapply wp_session; [exact Hs|].
  rewrite !u32_small by lia. destruct (Z.leb_spec (readPos + n) (recvBufPos s)); [|lia].
  rewrite (frames_packet rp (unread s readPos)) by (fold n; lia). fold n. cbn [fst snd].
  assert (Hdrop : drop (Z.to_nat n) (unread s readPos) = unread s (readPos + n)).
  { unfold unread. rewrite drop_slice by lia. f_equal. lia. }
  assert (Htake : take (Z.to_nat n) (unread s readPos) = slice readPos n (recvBuf s)).
  { unfold unread. by rewrite take_slice by lia. }
  rewrite Hdrop, Htake.
  apply wp_bind_ret.
  eapply (received_bind p [] [] [slice readPos n (recvBuf s)]); [exact Hs|by apply deliver_advanced|].
  intros [] w1 s1 Ha1 Hs1 [Hbuf Hpos]. apply wp_bind. eapply wp_session; [exact Hs1|].
  assert (Hinv1 : recv_inv s1) by (unfold recv_inv; by rewrite Hbuf, Hpos).
  assert (Hun : unread s (readPos + n) = unread s1 (readPos + n)) by (unfold unread; by rewrite Hbuf, Hpos).
  rewrite Hun, u32_small by lia. fold (unread s1 (readPos + n)). rewrite read_packet_is.
  destruct (Z.ltb_spec (readPos + n) (recvBufPos s1)).
  - destruct (Z.leb_spec (rp (unread s1 (readPos + n))) 0).
    + rewrite frames_stop by lia. by apply keep_rest_advanced; [|done|lia].
    + apply IH; [done|done|lia| |lia|lia]. eapply queues_ok_kept; [apply Ha1|done].
  - assert (Hnil : unread s1 (readPos + n) = []).
    { apply nil_length_inv. pose proof (zlen_unread s1 (readPos + n) Hinv1 ltac:(lia)). lia. }
    rewrite Hnil, frames_nil. cbn [fst snd]. eapply wp_put_session; [exact Hs1|].
    pose proof (put_advanced p s1 (recvBuf s1) 0 w1 Hs1) as (E&N&O&T&HS). split_and!; [done..|].
    intros s0 Hs0. destruct (HS s0 Hs0) as (s'&?&?&?&?&[Hbuf' Hpos']). exists s'.
    split_and!; [done..| |].
    + destruct Hinv1. split; [by rewrite Hbuf'|lia].
    + unfold pending. by rewrite Hpos'.
Qed.

(** ** A readable connection *)

(** The world after a call of the kernel: only the kernel, [errno] and the trace changed. *)
Lemma after_call_received p c r k s w :
  heap_get (w_sessions w) p = Some s ->
  received p [] [] (buffer_is (recvBuf s) (recvBufPos s)) w (after_call c r k w).
Proof.
  intros Hs. eapply (quiet_advanced p s); [|done]. apply quiet_after_call.
Qed.

(** Weakest preconditions after a first part of the work is done. *)
Lemma received_after {A} p cs1 cs2 ds1 ds2 P Q (m : M W A) w w1 :
  received p cs1 ds1 P w w1 ->
  wp m (fun _ w' => received p cs2 ds2 Q w1 w') w1 ->
  wp m (fun _ w' => received p (cs1 ++ cs2) (ds1 ++ ds2) Q w w') w1.
Proof. intros H1 Hm. eapply wp_mono; [exact Hm|]. cbv beta. intros a w2 H2. by eapply received_trans. Qed.

Lemma received_session p cs ds P s w w' :
  received p cs ds P w w' -> heap_get (w_sessions w) p = Some s ->
  exists s', heap_get (w_sessions w') p = Some s' /\ fd s' = fd s /\ procFd s' = procFd s /\ P s'.
Proof. intros (_&_&_&_&HS) Hs. destruct (HS s Hs) as (s'&?&?&?&_&?). eauto 6. Qed.

Lemma received_env p cs ds P procIdx w w' :
  received p cs ds P w w' -> queues_ok procIdx (processor (w_env w)) ->
  queues_ok procIdx (processor (w_env w')).
Proof. intros (HE&_). by apply queues_ok_kept. Qed.

(** The state after the new bytes were stored: they follow the pending ones. *)
Lemma pending_store s d :
  recv_inv s -> zlen d <= RecvBufSize - recvBufPos s ->
  let s' := set_recv (blit (recvBufPos s) d (recvBuf s)) (recvBufPos s + zlen d) s in
  recv_inv s' /\ pending s' = pending s ++ d.
Proof.
  intros [Hb Hp] Hd s'. split.
  - split; cbn; [rewrite zlen_blit; lia|lia].
  - unfold pending; cbn. rewrite slice_app by lia. f_equal.
    + apply slice_blit_before; lia.
    + rewrite Z.add_0_l. apply slice_blit_at. lia.
Qed.

Lemma handle_readable_data `{!KernelLaws K} fuel procIdx pfd p s w :
  heap_get (w_sessions w) p = Some s -> recv_inv s ->
  queues_ok procIdx (processor (w_env w)) -> RecvBufSize <= Z.of_nat fuel ->
  let r := (sys (Sys_recv (fd s) (recv_size RecvBufSize s)) (w_kernel w)).1 in
  0 < sr_ret r ->
  wp (handle_readable RecvBufSize SendBufSize h false fuel procIdx pfd p)
    (fun _ w' => received p [sr_data r] (frames rp (pending s ++ sr_data r)).1
       (fun s' => recv_inv s' /\ pending s' = (frames rp (pending s ++ sr_data r)).2) w w') w.
Proof.
  intros Hs Hinv Hq Hf r Hr. pose proof Hinv as [Hb Hp]. unfold recv_size in *.
  destruct (recv_law (w_kernel w) (fd s) (RecvBufSize - recvBufPos s) ltac:(lia) Hr) as [Hle Hlen].
  fold r in Hle, Hlen. unfold handle_readable, recv_size. wp_steps. fold r.
  destruct (Z.ltb_spec (sr_ret r) 0), (Z.eqb_spec (sr_ret r) 0); try lia. clearbody r.
  set (k := (sys _ _).2). set (c := Sys_recv _ _).
  pose proof (after_call_received p c r k s w Hs) as R1.
  apply (received_after p [] [sr_data r] [] _ _ _ _ _ _ R1).
  set (w1 := after_call c r k w) in *.
  assert (Hs1 : heap_get (w_sessions w1) p = Some s) by done.
  apply wp_bind, wp_emit. set (w2 := mk_world _ _ (w_trace w1 ++ _) _ _).
  assert (R2 : received p [sr_data r] [] (buffer_is (recvBuf s) (recvBufPos s)) w1 w2).
  { apply emit_received; [done|]. intros q. unfold packets_of, chunks_of; cbn. repeat case_decide; congruence || done. }
  apply (received_after p [sr_data r] [] [] _ _ _ _ _ _ R2).
  destruct (pending_store s (sr_data r) Hinv ltac:(lia)) as [Hinv3 Hpend].
  rewrite <- Hlen in Hinv3, Hpend. set (s3 := set_recv _ _ _) in *.
  apply wp_bind. eapply wp_put_session; [exact Hs1|]. fold s3.
  pose proof (put_advanced p s (recvBuf s3) (recvBufPos s3) w2 Hs1) as R3.
  set (w3 := set_sessions _ w2) in *.
  apply (received_after p [] [] [] _ _ _ _ _ _ R3).
  assert (Hs3 : heap_get (w_sessions w3) p = Some s3) by (unfold heap_get; cbn; by rewrite lookup_insert_eq).
  rewrite read_packet_is.
  change (slice 0 (recvBufPos s + sr_ret r) (blit (recvBufPos s) (sr_data r) (recvBuf s)))
    with (pending s3).
  assert (Hun : pending s3 = unread s3 0) by (unfold unread; by rewrite Z.sub_0_r).
  rewrite <- Hpend. destruct (Z.le_gt_cases (rp (pending s3)) 0) as [Hn|Hn].
  - rewrite frames_stop by lia. cbn [fst snd].
    replace (recv_loop _ _ _ _ _ _ _ _ _) with (@ret W unit tt).
    2:{ destruct fuel; cbn [recv_loop]; destruct (Z.leb_spec (rp (pending s3)) 0); done || lia. }
    apply wp_ret. destruct (env_advanced p s3 (w_env w3) w3 Hs3 (setup_kept_refl _)) as (E&N&O&T&HS).
    split_and!; [done..|]. intros s0 Hs0. assert (s0 = s3) as -> by congruence.
    exists s3. by split_and!.
  - rewrite Hun in *. apply recv_loop_frames; [done|done| |done|lia|].
    + destruct Hinv3. lia.
    + destruct Hinv3. lia.
Qed.

(** ** Steps that receive nothing *)

(** From [w] to [w'] no session appeared, those that stayed kept their receive state and a
    well-formed send buffer, and nothing was received or delivered. *)
Definition silent (w w' : W) : Prop :=
  h_next (w_sessions w') = h_next (w_sessions w) /\
  (exists tr, w_trace w' = w_trace w ++ tr /\
     forall q, packets_of q tr = [] /\ chunks_of q tr = []) /\
  forall q s', heap_get (w_sessions w') q = Some s' ->
    exists s, heap_get (w_sessions w) q = Some s /\ recvBuf s' = recvBuf s /\
      recvBufPos s' = recvBufPos s /\
      (SendBuffer_wf SendBufSize (sendBuffer s) -> SendBuffer_wf SendBufSize (sendBuffer s')).

Lemma silent_refl w : silent w w.
Proof.
  split_and!; [done| |eauto 6]. exists []. rewrite app_nil_r. done.
Qed.

Lemma silent_trans w1 w2 w3 : silent w1 w2 -> silent w2 w3 -> silent w1 w3.
Proof.
  intros (N1&(t1&T1&D1)&S1) (N2&(t2&T2&D2)&S2). split_and!.
  - congruence.
  - exists (t1 ++ t2). rewrite T2, T1, app_assoc. split; [done|]. intros q.
    destruct (D1 q) as [P1 C1], (D2 q) as [P2 C2]. by rewrite packets_of_app, chunks_of_app, P1, P2, C1, C2.
  - intros q s3 Hs3. destruct (S2 q s3 Hs3) as (s2&Hs2&?&?&?). destruct (S1 q s2 Hs2) as (s1&Hs1&?&?&?).
    exists s1. split_and!; [done|congruence..|auto].
Qed.

Lemma silent_intro w w' tr :
  w_sessions w' = w_sessions w -> w_trace w' = w_trace w ++ tr ->
  (forall q, packets_of q tr = [] /\ chunks_of q tr = []) -> silent w w'.
Proof.
  intros HS HT Htr. split_and!; [by rewrite HS|eauto|]. intros q s' Hq. rewrite HS in Hq. eauto 6.
Qed.

Lemma silent_call c r k w : silent w (after_call c r k w).
Proof. by apply (silent_intro _ _ [TSys c (sr_ret r)]). Qed.

Lemma silent_quiet p s w w' :
  heap_get (w_sessions w) p = Some s -> quiet SendBufSize p w w' -> silent w w'.
Proof.
  intros Hs (E&N&(tr&T&Q)&O&HS). split_and!; [done| |].
  - exists tr. split; [done|]. intros q. by rewrite (quiet_packets q tr Q), (quiet_chunks q tr Q).
  - intros q s' Hq. destruct (decide (q = p)) as [->|Hne]; [|rewrite O in Hq by done; eauto 6].
    destruct (HS s Hs) as (s0&?&?&?&?&?&?). assert (s0 = s') as -> by congruence. by exists s.
Qed.

(** Removing a session. *)
Lemma silent_delete p w :
  silent w (mk_world (w_kernel w) (w_errno w) (w_trace w ++ [TRelease p])
              (mk_heap (delete p (h_cells (w_sessions w))) (h_next (w_sessions w))) (w_env w)).
Proof.
  split_and!; [done|by eexists|]. unfold heap_get; cbn. intros q s' Hq.
  apply lookup_delete_Some in Hq as [_ Hq]. eauto 6.
Qed.

(** Silent steps in sequence. *)
Lemma silent_bind {A C} (m : M W A) (k : A -> M W C) (R : A -> W -> Prop) w :
  wp m (fun a w' => silent w w' /\ R a w') w ->
  (forall a w1, silent w w1 -> R a w1 -> wp (k a) (fun _ w' => silent w1 w') w1) ->
  wp (bind m k) (fun _ w' => silent w w') w.
Proof.
  intros Hm Hk. apply wp_bind. eapply wp_mono; [exact Hm|]. cbv beta. intros a w1 [Hs HR].
  eapply wp_mono; [by apply Hk|]. cbv beta. intros c w2 ?. by eapply silent_trans.
Qed.

(** ** Every session's packets are the packets of its stream *)

Definition stream_inv (w : W) : Prop :=
  heap_wf (w_sessions w) /\
  (forall p s, heap_get (w_sessions w) p = Some s ->
     session_inv s /\ frames rp (concat (chunks_of p (w_trace w))) = (packets_of p (w_trace w), pending s)) /\
  (forall p, (h_next (w_sessions w) <= p)%positive ->
     chunks_of p (w_trace w) = [] /\ packets_of p (w_trace w) = []).

Lemma stream_inv_silent w w' : stream_inv w -> silent w w' -> stream_inv w'.
Proof.
  intros (Hwf&Hs&Hf) (N&(tr&T&D)&S). split_and!.
  - intros q s' Hq. destruct (S q s' Hq) as (s&Hq'&_). rewrite N. by eapply Hwf.
  - intros q s' Hq. destruct (S q s' Hq) as (s&Hq'&Hb&Hp&Hsb). destruct (Hs q s Hq') as [[[? ?] ?] Hfr].
    destruct (D q) as [P C]. rewrite T, packets_of_app, chunks_of_app, P, C, !app_nil_r, Hfr.
    unfold session_inv, recv_inv, pending. rewrite Hb, Hp. auto.
  - intros q Hq. rewrite N in Hq. destruct (D q) as [P C], (Hf q Hq) as [? ?].
    by rewrite T, packets_of_app, chunks_of_app, P, C, !app_nil_r.
Qed.

Lemma stream_inv_received `{!FramingLaw rp} p d s w w' :
  stream_inv w -> heap_get (w_sessions w) p = Some s ->
  received p [d] (frames rp (pending s ++ d)).1
    (fun s' => recv_inv s' /\ pending s' = (frames rp (pending s ++ d)).2) w w' ->
  stream_inv w'.
Proof.
  intros (Hwf&Hs&Hf) Hp (_&N&O&(tr&T&D)&S).
  assert (Hlt : (p < h_next (w_sessions w))%positive) by (by eapply Hwf).
  destruct (S s Hp) as (s'&Hp'&_&_&Hsb&Hinv'&Hpend). split_and!.
  - intros q sq Hq. rewrite N. destruct (decide (q = p)) as [->|Hne]; [done|].
    pose proof (O q Hne) as Hoq. unfold heap_get in Hoq. rewrite Hoq in Hq. by eapply Hwf.
  - intros q sq Hq. destruct (D q) as [P C]. rewrite T, packets_of_app, chunks_of_app, P, C.
    destruct (decide (q = p)) as [->|Hne].
    + assert (sq = s') as -> by congruence. destruct (Hs p s Hp) as [[_ ?] Hfr]. split; [split; auto|].
      rewrite concat_app, (frames_app rp), Hfr. cbn [fst snd concat]. by rewrite app_nil_r, Hpend.
    + rewrite O in Hq by done. rewrite !app_nil_r. by apply Hs.
  - intros q Hq. rewrite N in Hq. destruct (D q) as [P C], (Hf q Hq) as [Hc Hk].
    rewrite T, packets_of_app, chunks_of_app, P, C, Hc, Hk.
    by destruct (decide (q = p)) as [->|]; [lia|].
Qed.

(** ** The other branches of the event loop *)

(** What a session's end leaves: the calls in their order, [on_disconnect] with what it does,
    then the release and the notification. *)
Definition disconnected (pfd : Z) (s : EventHandler U) (p : ptr) (w w' : W) : Prop :=
  w_env w' = w_env w /\ heap_get (w_sessions w') p = None /\
  (forall q, q <> p -> heap_get (w_sessions w') q = heap_get (w_sessions w) q) /\
  exists r1 r2 tr, Forall (fun e => quiet_event e = true) tr /\
    w_trace w' = w_trace w ++ [TSys (Sys_epoll_ctl pfd EPOLL_CTL_DEL (fd s) None) r1;
                               TSys (Sys_close (fd s)) r2; TDisconnect p] ++ tr ++
                 TRelease p :: notified (p_evtHandler (processor (w_env w))) EVT_SESSION_RELEASE (Some p).

Lemma disconnect_disconnected pfd p s w :
  heap_get (w_sessions w) p = Some s -> factory (processor (w_env w)) = true ->
  wp (disconnect SendBufSize h false pfd p)
    (fun _ w' => silent w w' /\ disconnected pfd s p w w') w.
Proof using SendBufSize_int.
  intros Hs Hfac. unfold disconnect. wp_steps.
  set (w3 := mk_world _ _ (_ ++ [TDisconnect p]) _ _).
  assert (S3 : silent w w3).
  { eapply silent_trans; [apply silent_call|]. eapply silent_trans; [apply silent_call|].
    by apply (silent_intro _ _ [TDisconnect p]). }
  assert (Hs3 : heap_get (w_sessions w3) p = Some s) by done.
  eapply wp_mono.
  { apply (run_callback_quiet SendBufSize h false SendBufSize_int eq_refl). eauto. }
  cbv beta. intros [] w4 Hq. pose proof (silent_quiet p s w3 w4 Hs3 Hq) as S4.
  destruct Hq as (E&N&(tr&T&Q)&O&HS). cbn in E. destruct (HS s Hs3) as (s4&Hs4&_).
  wp_steps. rewrite E, Hfac. wp_steps. eapply wp_release; [exact Hs4|]. wp_steps. split.
  - eapply silent_trans; [exact S3|]. eapply silent_trans; [exact S4|].
    eapply silent_trans; [apply (silent_delete p)|].
    apply (silent_intro _ _ (notified (p_evtHandler (processor (w_env w))) EVT_SESSION_RELEASE (Some p)));
      [done|done|]. intros q. by destruct (p_evtHandler _).
  - split_and!; [done| | |].
    + unfold heap_get; cbn. apply lookup_delete_eq.
    + intros q Hne. unfold heap_get; cbn. rewrite lookup_delete_ne by done.
      change (heap_get (w_sessions w4) q = heap_get (w_sessions w) q). by rewrite O.
    + do 2 eexists. exists tr. split; [done|]. cbn. rewrite T. cbn. rewrite <- !app_assoc. done.
Qed.

(** The interest the EPOLLOUT branch leaves the descriptor with. *)
Definition out_interest (errno : Z) : Z :=
  if (errno =? EAGAIN) || (errno =? EWOULDBLOCK) then Z.lor (Z.lor EPOLLIN EPOLLOUT) EPOLLERR
  else Z.lor EPOLLIN EPOLLERR.

(** What the EPOLLOUT branch did: the pending bytes offered to [send], what it took removed,
    the interest changed. *)
Definition flushed (s : EventHandler U) (p : ptr) (w w' : W) : Prop :=
  let c := Sys_send (fd s) (contents (sendBuffer s)) in
  let r := (sys c (w_kernel w)).1 in
  w_env w' = w_env w /\
  (exists s', heap_get (w_sessions w') p = Some s' /\ fd s' = fd s /\
     contents (sendBuffer s') = drop (Z.to_nat (sr_ret r)) (contents (sendBuffer s))) /\
  (forall q, q <> p -> heap_get (w_sessions w') q = heap_get (w_sessions w) q) /\
  exists r2, w_trace w' = w_trace w ++ [TSys c (sr_ret r);
    TSys (Sys_epoll_ctl (procFd s) EPOLL_CTL_MOD (fd s)
            (Some (mk_epoll_event (out_interest (if sr_ret r <? 0 then sr_errno r else w_errno w))
                     (DPtr (Some p))))) r2].

Lemma handle_writable_flushed `{!KernelLaws K} p s w :
  heap_get (w_sessions w) p = Some s -> SendBuffer_wf SendBufSize (sendBuffer s) ->
  wp (handle_writable p) (fun _ w' => silent w w' /\ flushed s p w w') w.
Proof using SendBufSize_int.
  intros Hs Hwf. unfold handle_writable. wp_steps. rewrite pop_region_contents.
  set (c := Sys_send (fd s) (contents (sendBuffer s))).
  pose proof (send_law (w_kernel w) (fd s) (contents (sendBuffer s))) as Hl. fold c in Hl.
  unfold flushed. fold c. set (r := (sys c (w_kernel w)).1) in *. clearbody r.
  rewrite (zlen_contents SendBufSize) in Hl by done.
  destruct (pop_sent SendBufSize SendBufSize_int (sendBuffer s) (sr_ret r) Hwf Hl) as [Hwf' Hcont].
  set (sb' := (pop_finish _ _ _).2) in *.
  eapply wp_put_session; [exact Hs|]. set (w2 := set_sessions _ _). wp_steps.
  assert (S2 : silent w w2).
  { eapply silent_trans; [apply silent_call|]. eapply silent_quiet; [exact Hs|]. by eapply quiet_put. }
  assert (Hp2 : heap_get (w_sessions w2) p = Some (set_sendBuffer sb' s))
    by (unfold heap_get; cbn; apply lookup_insert_eq).
  assert (Hq2 : forall q, q <> p -> heap_get (w_sessions w2) q = heap_get (w_sessions w) q)
    by (intros q Hq; unfold heap_get; cbn; by rewrite lookup_insert_ne).
  assert (Htr : w_trace w2 = w_trace w ++ [TSys c (sr_ret r)]) by done.
  assert (Her : (if sr_ret r <? 0 then sr_errno r else w_errno w) = w_errno w2) by done.
  assert (Hen : w_env w2 = w_env w) by done.
  unfold out_interest. rewrite Her. clearbody w2 sb'.
  destruct ((w_errno w2 =? EAGAIN) || (w_errno w2 =? EWOULDBLOCK)); wp_steps;
    (split; [by eapply silent_trans; [|apply silent_call]|]); (split_and!; [done|by eexists|done|]);
    eexists; cbn; rewrite Htr, <- app_assoc; reflexivity.
Qed.

Lemma handle_error_silent pfd p s w :
  heap_get (w_sessions w) p = Some s -> factory (processor (w_env w)) = true ->
  wp (handle_error pfd p)
    (fun _ w' => silent w w' /\ w_env w' = w_env w /\ heap_get (w_sessions w') p = None /\
       exists r1 r2, w_trace w' = w_trace w ++
         [TSys (Sys_epoll_ctl pfd EPOLL_CTL_DEL (fd s) None) r1; TSys (Sys_close (fd s)) r2; TRelease p]) w.
Proof using SendBufSize.
  intros Hs Hfac. unfold handle_error. wp_steps.
  eapply wp_deref; [cbn; by rewrite Hfac|]. eapply wp_release; [exact Hs|]. split_and!; [|done| |].
  - eapply silent_trans; [apply silent_call|]. eapply silent_trans; [apply silent_call|].
    apply (silent_delete p).
  - unfold heap_get; cbn. apply lookup_delete_eq.
  - do 2 eexists. cbn. by rewrite <- !app_assoc.
Qed.

Lemma handle_other_silent pfd p s w :
  heap_get (w_sessions w) p = Some s ->
  wp (handle_other pfd p) (fun _ w' => silent w w' /\ w_env w' = w_env w /\ w_sessions w' = w_sessions w) w.
Proof using SendBufSize. intros Hs. unfold handle_other. wp_steps. split; [apply silent_call|done]. Qed.

(** ** One event *)

(** The processor is set up: its queue and the pool are in order, the factory is there. *)
Definition proc_ok (procIdx : Z) (e : epoll_env) : Prop :=
  queues_ok procIdx (processor e) /\ factory (processor e) = true.

Lemma handle_event_inv `{!KernelLaws K, !FramingLaw rp} fuel procIdx pfd evs p s w :
  stream_inv w -> heap_get (w_sessions w) p = Some s -> proc_ok procIdx (w_env w) ->
  RecvBufSize <= Z.of_nat fuel ->
  wp (handle_event RecvBufSize SendBufSize h false fuel procIdx pfd (mk_epoll_event evs (DPtr (Some p))))
    (fun _ w' => stream_inv w' /\ proc_ok procIdx (w_env w')) w.
Proof.
  intros Hinv Hs [Hq Hfac] Hf. unfold handle_event. cbn [ev_data ev_events].
  pose proof Hinv as (_&Hss&_). destruct (Hss p s Hs) as [[Hrecv Hsend] _].
  assert (Hdone : forall w', silent w w' -> w_env w' = w_env w -> stream_inv w' /\ proc_ok procIdx (w_env w')).
  { intros w' HS ->. split; [by eapply stream_inv_silent|done]. }
  destruct (_ =? EPOLLIN); [|destruct (_ =? EPOLLOUT); [|destruct (_ =? EPOLLERR)]].
  - pose proof (handle_readable_data fuel procIdx pfd p s w Hs Hrecv Hq Hf) as Hdata. cbv zeta in Hdata.
    destruct (Z.ltb_spec 0 (sr_ret (sys (Sys_recv (fd s) (recv_size RecvBufSize s)) (w_kernel w)).1)) as [Hr|Hr].
    + eapply wp_mono; [by apply Hdata|]. cbv beta. intros [] w' HR.
      split; [by eapply stream_inv_received|].
      destruct HR as (HE&_). split; [by eapply queues_ok_kept|].
      destruct HE as (_&_&_&_&_&HE&_). congruence.
    + clear Hdata. unfold handle_readable. wp_steps. set (r := (sys _ _).1) in *.
      set (w1 := after_call _ _ _ w).
      assert (HD : wp (disconnect SendBufSize h false pfd p)
                     (fun _ w' => stream_inv w' /\ proc_ok procIdx (w_env w')) w1).
      { eapply wp_mono; [by apply (disconnect_disconnected pfd p s)|]. cbv beta. intros [] w' [HS (HE&_)].
        apply Hdone; [|done]. eapply silent_trans; [apply silent_call|exact HS]. }
      by destruct (Z.ltb_spec (sr_ret r) 0), (Z.eqb_spec (sr_ret r) 0); try lia.
  - eapply wp_mono; [by apply handle_writable_flushed|]. cbv beta. intros [] w' [HS (HE&_)]. by apply Hdone.
  - eapply wp_mono; [by apply (handle_error_silent pfd p s)|]. cbv beta. intros [] w' (HS&HE&_). by apply Hdone.
  - eapply wp_mono; [by apply (handle_other_silent pfd p s)|]. cbv beta. intros [] w' (HS&HE&_). by apply Hdone.
Qed.

(** ** New connections *)

Lemma silent_put p s s' w :
  heap_get (w_sessions w) p = Some s -> recvBuf s' = recvBuf s -> recvBufPos s' = recvBufPos s ->
  sendBuffer s' = sendBuffer s ->
  silent w (set_sessions (mk_heap (<[p := s']> (h_cells (w_sessions w))) (h_next (w_sessions w))) w).
Proof.
  intros Hs Hb Hp Hsb. split_and!; [done|by exists []; rewrite app_nil_r|].
  unfold heap_get in *; cbn. intros q sq Hq. apply lookup_insert_Some in Hq as [[<- <-]|[_ Hq]]; [|eauto 6].
  exists s. by rewrite Hsb.
Qed.

Lemma stream_inv_create w :
  stream_inv w ->
  wp (factory_create (EventHandler_new RecvBufSize SendBufSize user_init))
    (fun p w' => stream_inv w' /\ w_env w' = w_env w) w.
Proof.
  intros (Hwf&Hs&Hf). cbn. set (p := h_next (w_sessions w)).
  assert (Hplus : forall q, packets_of q [TCreate p] = [] /\ chunks_of q [TCreate p] = []) by done.
  split; [|done]. split_and!; cbn.
  - by apply (heap_new_wf (EventHandler_new RecvBufSize SendBufSize user_init)).
  - intros q sq Hq. rewrite packets_of_app, chunks_of_app, !app_nil_r.
    unfold heap_get in Hq; cbn in Hq. apply lookup_insert_Some in Hq as [[<- <-]|[_ Hq]]; [|by apply Hs].
    destruct (Hf p) as [-> ->]; [subst p; lia|]. split; [|done].
    split; [split; cbn; [rewrite length_replicate; lia|lia]|]. by apply SendBuffer_init_wf.
  - intros q Hq. rewrite packets_of_app, chunks_of_app, !app_nil_r. apply Hf. subst p. lia.
Qed.

(** What setting up a session keeps. *)
Definition stream_kept (w w' : W) : Prop :=
  (stream_inv w -> stream_inv w') /\ processor (w_env w') = processor (w_env w).

Lemma stream_kept_trans w1 w2 w3 : stream_kept w1 w2 -> stream_kept w2 w3 -> stream_kept w1 w3.
Proof. intros [? E1] [? E2]. split; [auto|congruence]. Qed.

Lemma stream_kept_silent w w' :
  silent w w' -> processor (w_env w') = processor (w_env w) -> stream_kept w w'.
Proof. intros HS HE. split; [|done]. intros. by eapply stream_inv_silent. Qed.

Lemma stream_kept_call c r k w : stream_kept w (after_call c r k w).
Proof. apply stream_kept_silent; [apply silent_call|done]. Qed.

(** Sequencing under partial correctness. *)
Lemma kept_after {A} (m : M W A) w w1 :
  stream_kept w w1 -> wlp m (fun _ w' => stream_kept w1 w') w1 -> wlp m (fun _ w' => stream_kept w w') w1.
Proof.
  intros HK Hm. eapply wlp_mono; [exact Hm|]. cbv beta. intros a w' HK'. by eapply stream_kept_trans.
Qed.

Lemma kept_bind {A C} (m : M W A) (k : A -> M W C) w :
  wlp m (fun _ w' => stream_kept w w') w ->
  (forall a w1, wlp (k a) (fun _ w' => stream_kept w1 w') w1) ->
  wlp (bind m k) (fun _ w' => stream_kept w w') w.
Proof.
  intros Hm Hk. apply wlp_bind. eapply wlp_mono; [exact Hm|]. cbv beta. intros a w1 HK.
  eapply kept_after; [exact HK|]. apply Hk.
Qed.

Lemma kept_ret {A} (a : A) w : wlp (ret a) (fun _ w' => stream_kept w w') w.
Proof. split; done. Qed.

Lemma kept_call c w : wlp (sys_ret c) (fun _ w' => stream_kept w w') w.
Proof. apply wlp_sys_ret, stream_kept_call. Qed.

Lemma kept_ignore c w : wlp (sys_ignore c) (fun _ w' => stream_kept w w') w.
Proof. apply wlp_sys_ignore, stream_kept_call. Qed.

Lemma kept_gets {A} (f : W -> A) w : wlp (gets f) (fun _ w' => stream_kept w w') w.
Proof. split; done. Qed.

Lemma kept_deref {A} (o : option A) w : wlp (deref o) (fun _ w' => stream_kept w w') w.
Proof. apply wlp_deref. by intros. Qed.

Lemma kept_assert dbg b w : wlp (c_assert dbg b) (fun _ w' => stream_kept w w') w.
Proof. by apply wlp_assert. Qed.

Lemma kept_update (f : epoll_env -> epoll_env) w :
  (forall e, processor (f e) = processor e) -> wlp (update f) (fun _ w' => stream_kept w w') w.
Proof.
  intros Hf. split; [|apply Hf]. intros. eapply stream_inv_silent; [done|].
  apply (silent_intro _ _ []); [done| |done]. by rewrite app_nil_r.
Qed.

Lemma kept_setSockNonBlock f w : wlp (setSockNonBlock f) (fun _ w' => stream_kept w w') w.
Proof.
  apply kept_bind; [apply kept_call|]. intros opts w1.
  destruct (opts <? 0); [apply kept_ret|apply kept_ignore].
Qed.

Lemma kept_make_session f w :
  wlp (make_session RecvBufSize SendBufSize user_init create_null false f) (fun _ w' => stream_kept w w') w.
Proof.
  unfold make_session. apply kept_bind; [apply kept_gets|]. intros pr w1.
  apply kept_bind; [apply kept_deref|]. intros _ w2.
  apply kept_bind.
  - destruct create_null.
    + destruct f as [g|]; [|apply kept_ret]. apply kept_bind; [|intros; apply kept_ret].
      apply stream_kept_silent; [|done]. by apply (silent_intro _ _ [TEvt EVT_SESSION_CREATE None]).
    + split; [|done]. intros Hinv. by apply (stream_inv_create w2 Hinv).
  - intros o w3. apply kept_bind; [apply kept_assert|]. intros _ w4. apply kept_deref.
Qed.

(** [put_session] of a session that was just read. *)
Lemma kept_put {A} p (f : EventHandler U -> EventHandler U) (k : EventHandler U -> M W A) w :
  (forall s, recvBuf (f s) = recvBuf s /\ recvBufPos (f s) = recvBufPos s /\ sendBuffer (f s) = sendBuffer s) ->
  (forall s w1, wlp (k s) (fun _ w' => stream_kept w1 w') w1) ->
  wlp (bind (session p) (fun s => bind (put_session p (f s)) (fun _ => k s))) (fun _ w' => stream_kept w w') w.
Proof.
  intros Hf Hk. apply wlp_bind, wlp_session. intros s Hs. apply wlp_bind, wlp_put_session. intros _ _.
  eapply kept_after; [|apply Hk].
  apply stream_kept_silent; [|done]. eapply silent_put; [eassumption|apply Hf..].
Qed.

Lemma kept_callback p c s w :
  heap_get (w_sessions w) p = Some s ->
  wlp (callback_on SendBufSize h false p c) (fun _ w' => stream_kept w w') w.
Proof.
  intros Hs. apply wlp_wp. eapply wp_mono.
  - apply (run_callback_quiet SendBufSize h false SendBufSize_int eq_refl). eauto.
  - cbv beta. intros [] w' Hq. apply stream_kept_silent; [by eapply silent_quiet|].
    destruct Hq as [-> _]. done.
Qed.

Lemma kept_push p w : wlp (Scheduler_push SendBufSize h false p) (fun _ w' => stream_kept w w') w.
Proof.
  unfold Scheduler_push. apply kept_bind; [apply kept_gets|]. intros sch w1.
  apply wlp_bind, wlp_session. intros s Hs. destruct (sched_threads sch =? 0); [done|].
  apply wlp_bind, wlp_deref. intros pfd _. apply wlp_bind, wlp_put_session. intros _ _. wlp_steps.
  set (w4 := mk_world _ _ _ _ _). apply (kept_after _ w1 w4).
  - apply stream_kept_silent; [|done].
    eapply silent_trans; [by eapply (silent_put p s (set_procFd pfd s))|].
    eapply silent_trans; [apply silent_call|]. by apply (silent_intro _ _ [TConnect p]).
  - apply (kept_callback p _ (set_procFd pfd s)). unfold heap_get; cbn. apply lookup_insert_eq.
Qed.

Lemma kept_accept i l w :
  wlp (accept_connection RecvBufSize SendBufSize h user_init create_null false i l)
    (fun _ w' => stream_kept w w') w.
Proof.
  unfold accept_connection. apply kept_bind; [apply kept_call|]. intros newFd w1.
  destruct (newFd <? 0).
  - apply kept_bind; [apply kept_gets|]. intros e w2. by destruct (_ || _); [apply kept_ret|].
  - apply kept_bind; [apply kept_setSockNonBlock|]. intros [] w2.
    apply kept_bind; [apply kept_make_session|]. intros p w3.
    apply kept_put; [done|]. intros s w4. apply kept_push.
Qed.

Lemma kept_connect i w :
  wlp (Connector_connect RecvBufSize SendBufSize h user_init create_null false i)
    (fun _ w' => stream_kept w w') w.
Proof.
  unfold Connector_connect. apply kept_bind; [apply kept_call|]. intros sfd w1.
  apply kept_bind; [by apply kept_update|]. intros [] w2.
  apply kept_bind; [apply kept_gets|]. intros e w3. apply kept_bind; [apply kept_deref|]. intros c w4.
  destruct (sfd =? -1); [apply kept_ret|].
  apply kept_bind; [apply kept_call|]. intros r w5. destruct (r =? -1).
  - apply kept_bind; [|intros; apply kept_ret]. destruct (c_evtHandler c) as [g|]; [|done].
    apply kept_bind; [|intros; apply kept_ret]. apply wlp_emit, stream_kept_silent; [|done].
    by apply (silent_intro _ _ [TEvt EVT_CONNECT_FAIL None]).
  - apply kept_bind; [apply kept_make_session|]. intros p w6.
    apply kept_bind; [by apply kept_update|]. intros [] w7.
    apply kept_put; [done|]. intros s w8. apply kept_bind; [apply kept_push|]. intros [] w9. apply kept_ret.
Qed.
End Recv.
