(* ===== verification/EpollServer.v ===== *)
(** * A running epoll server

    The threads of a service as a transition system: a processor handles one event, a listener
    accepts a connection, a connector connects, the application thread serves one queue.  Each
    session's receive buffer belongs to one processor, so the steps of two processors do not
    overlap on it.  What threads do share is studied access by access elsewhere: the send buffer
    (SendBuffer.v), the message queue (SpscQueue.v, SpscWeak.v) and the message pool
    (PoolConcurrent.v).  The main theorem: whatever the interleaving and however TCP cuts the
    streams, every session is given exactly the packets of the bytes received for it. *)

From S2P Require Import Prelude Heap NetApi SendBuffer SpscQueue ObjectPool Os EpollSession Framing EpollNet EpollApp EpollRecv.

Section Server.
Context {K U : Type} `{Kernel K}.
Context (RecvBufSize SendBufSize : Z) (h : IEventHandler U) (user_init : U) (create_null : bool).
Local Abbreviation W := (world K (EventHandler U) epoll_env).

(** A turn of a thread that returned.  A call that is undefined ends the program and is no step:
    among them an event whose [msgPool.acquire] answers null.  In a turn taken as a whole it never
    does; with an application thread and two processors inside [acquire] at once it can
    ([two_processors_null]), so for such a service the steps are the turns whose acquires were not
    disturbed that way. *)
Inductive server_step (w w' : W) : Prop :=
| step_event fuel procIdx pfd ev :
    RecvBufSize <= Z.of_nat fuel ->
    (app_run (p_config (processor (w_env w))) = true -> 0 <= procIdx < zlen (msgQueues (processor (w_env w)))) ->
    handle_event RecvBufSize SendBufSize h false fuel procIdx pfd ev w = (Ok tt, w') -> server_step w w'
| step_accept i l :
    accept_connection RecvBufSize SendBufSize h user_init create_null false i l w = (Ok tt, w') ->
    server_step w w'
| step_connect i r :
    Connector_connect RecvBufSize SendBufSize h user_init create_null false i w = (Ok r, w') ->
    server_step w w'
| step_app i :
    app_queue SendBufSize h false i w = (Ok tt, w') -> server_step w w'.

Context (rp : list byte -> Z) `{!FramingLaw rp, !KernelLaws K}.
Hypothesis read_packet_is : forall u bs, read_packet h u bs = rp bs.
Hypothesis SendBufSize_int : 0 < SendBufSize <= INT_MAX.
Hypothesis RecvBufSize_int : 0 < RecvBufSize <= INT_MAX.

Definition server_inv (w : W) : Prop :=
  stream_inv RecvBufSize SendBufSize rp w /\ pool_ok (processor (w_env w)) /\
  factory (processor (w_env w)) = true.

(** A session that is not live stops the handler. *)
Lemma handle_event_live fuel procIdx pfd evs p (w w' : W) :
  handle_event RecvBufSize SendBufSize h false fuel procIdx pfd (mk_epoll_event evs (DPtr (Some p))) w = (Ok tt, w') ->
  is_Some (heap_get (w_sessions w) p).
Proof.
  unfold handle_event, handle_readable, handle_writable, handle_error, handle_other. cbn [ev_data ev_events].
  destruct (heap_get (w_sessions w) p) eqn:E; [eauto|].
  destruct (_ =? EPOLLIN); [|destruct (_ =? EPOLLOUT); [|destruct (_ =? EPOLLERR)]];
    unfold bind at 1, session; by rewrite E.
Qed.

Lemma server_event_inv fuel procIdx pfd ev w w' :
  RecvBufSize <= Z.of_nat fuel ->
  (app_run (p_config (processor (w_env w))) = true -> 0 <= procIdx < zlen (msgQueues (processor (w_env w)))) ->
  handle_event RecvBufSize SendBufSize h false fuel procIdx pfd ev w = (Ok tt, w') ->
  server_inv w -> server_inv w'.
Proof.
  intros Hf Hq Hrun (Hst&Hpool&Hfac). destruct ev as [evs [f|[p|]]].
  - done.
  - destruct (handle_event_live _ _ _ _ _ _ _ Hrun) as [s Hs].
    pose proof (handle_event_inv RecvBufSize SendBufSize h SendBufSize_int RecvBufSize_int rp
      read_packet_is fuel procIdx pfd evs p s w Hst Hs) as Hev.
    specialize (Hev (conj (conj Hq Hpool) Hfac) Hf). unfold wp in Hev. rewrite Hrun in Hev.
    destruct Hev as [? [[_ ?] ?]]. by split_and!.
  - cbn in Hrun. injection Hrun as <-. by split_and!.
Qed.

Lemma wlp_lift {A} (o : outcome A) a (Q : A -> W -> Prop) w : o = Ok a -> Q a w -> wlp (lift o) Q w.
Proof. by intros ->. Qed.

(** [on_message] keeps the streams and the environment. *)
Lemma call_on_message_kept p m w :
  wlp (call_on_message SendBufSize h false p m)
    (fun _ w' => (stream_inv RecvBufSize SendBufSize rp w -> stream_inv RecvBufSize SendBufSize rp w') /\
                 w_env w' = w_env w) w.
Proof.
  unfold call_on_message. apply wlp_bind, wlp_session. intros s Hs. apply wlp_bind, wlp_emit.
  set (w1 := mk_world _ _ _ _ _). apply wlp_wp. eapply wp_mono.
  - apply (run_callback_quiet SendBufSize h false SendBufSize_int eq_refl). eauto.
  - cbv beta. intros [] w' Hq. split; [|by destruct Hq as [-> _]].
    intros Hst. apply (stream_inv_silent _ _ _ w1); [|by apply (silent_quiet _ p s)].
    eapply stream_inv_silent; [exact Hst|]. by apply (silent_intro _ _ _ [TMessage p (message_bytes s m)]).
Qed.

Lemma server_app_inv i w w' :
  app_queue SendBufSize h false i w = (Ok tt, w') -> server_inv w -> server_inv w'.
Proof.
  intros Hrun (Hst&[ms Hms]&Hfac). refine (wlp_Ok _ (fun _ => server_inv) _ _ _ _ Hrun).
  clear Hrun. unfold app_queue. wlp_steps. rename a into q, H0 into Hq.
  destruct (isEmpty q) eqn:Hne.
  - wlp_steps. split_and!; [|by exists ms|done]. eapply stream_inv_silent; [exact Hst|apply silent_call].
  - assert (Hl : is_Some (ms !! i)).
    { destruct Hms as (cs&held&H1&_&_&_&H2). apply lookup_lt_is_Some_2.
      rewrite <- (Forall2_length _ _ _ H2), <- (Forall2_length _ _ _ H1). by eapply lookup_lt_Some. }
    destruct Hl as [l Hl].
    destruct (taken_rep i q _ ms l Hms Hq Hl Hne) as (m&l'&pk&q'&o&->&Hdq&Hpk&Ho&Hrep).
    wlp_steps. eapply wlp_lift; [exact Hdq|]. unfold update_processor, update. wlp_steps.
    cbn in H0. assert (a = m) as -> by congruence.
    eapply wlp_mono; [apply call_on_message_kept|]. cbv beta. intros [] w1 [Hst1 E].
    wlp_steps. rewrite E. eapply wlp_lift; [exact Ho|]. wlp_steps. rewrite E. split_and!.
    + eapply stream_inv_silent; [apply Hst1|].
      * eapply stream_inv_silent; [exact Hst|]. apply (silent_intro _ _ _ []); [done| |done].
        by rewrite app_nil_r.
      * apply (silent_intro _ _ _ []); [done| |done]. by rewrite app_nil_r.
    + by eexists.
    + done.
Qed.

Lemma server_step_inv w w' : server_inv w -> server_step w w' -> server_inv w'.
Proof.
  intros Hinv Hstep. pose proof Hinv as (Hst&Hpool&Hfac).
  assert (Hk : stream_kept RecvBufSize SendBufSize rp w w' -> server_inv w').
  { intros [Hk E]. split_and!; [auto|by rewrite E..]. }
  destruct Hstep as [fuel procIdx pfd ev Hf Hq Hrun|i l Hrun|i r Hrun|i Hrun].
  - by eapply server_event_inv.
  - apply Hk. by eapply (wlp_Ok _ _ _ _ _ (kept_accept RecvBufSize SendBufSize h user_init create_null
      SendBufSize_int RecvBufSize_int rp i l w)).
  - apply Hk. by eapply (wlp_Ok _ _ _ _ _ (kept_connect RecvBufSize SendBufSize h user_init create_null
      SendBufSize_int RecvBufSize_int rp i w)).
  - by eapply server_app_inv.
Qed.
End Server.

(** ** Properties *)

(** A service that runs and has no connection yet: no session, nothing received or delivered so
    far, the processors' queues empty. *)
Definition service_ready {K U} (w : world K (EventHandler U) epoll_env) : Prop :=
  w_sessions w = heap_empty /\ (forall p, packets_of p (w_trace w) = [] /\ chunks_of p (w_trace w) = []) /\
  app_rep (processor (w_env w)) (replicate (length (msgQueues (processor (w_env w)))) []) /\
  factory (processor (w_env w)) = true.

Lemma service_ready_inv {K U} RecvBufSize SendBufSize rp (w : world K (EventHandler U) epoll_env) :
  service_ready w -> server_inv RecvBufSize SendBufSize rp w.
Proof.
  intros (HS&HT&HP&HF). split_and!; [|by eexists|done]. split_and!.
  - rewrite HS. apply heap_empty_wf.
  - intros p s Hs. by rewrite HS in Hs.
  - intros p _. destruct (HT p). done.
Qed.

(** C1. Framing is independent of TCP segmentation and of the interleaving of the threads: in
    every state a running service reaches, each live session has been given exactly the packets
    that cutting the whole byte stream received for it gives, in order, and its buffer holds
    exactly the incomplete rest, inside its bounds. *)
Theorem epoll_stream_framing {K U : Type} `{Kernel K} (RecvBufSize SendBufSize : Z)
    (h : IEventHandler U) (user_init : U) (create_null : bool) (rp : list byte -> Z)
    (w0 w : world K (EventHandler U) epoll_env) (p : ptr) (s : EventHandler U) :
  KernelLaws K -> FramingLaw rp -> (forall u bs, read_packet h u bs = rp bs) ->
  0 < SendBufSize <= INT_MAX -> 0 < RecvBufSize <= INT_MAX -> service_ready w0 ->
  rtc (server_step RecvBufSize SendBufSize h user_init create_null) w0 w ->
  heap_get (w_sessions w) p = Some s ->
  frames rp (concat (chunks_of p (w_trace w))) = (packets_of p (w_trace w), pending s) /\
  session_inv RecvBufSize SendBufSize s.
Proof.
  intros HK HF Hrp HS HR H0 Hr Hs.
  assert (Hinv : server_inv RecvBufSize SendBufSize rp w).
  { refine (rtc_invariant _ _ _ _ _ (service_ready_inv _ _ _ _ H0) Hr).
    intros a b Ha Hab. by eapply server_step_inv. }
  destruct Hinv as ((_&Hst&_)&_). destruct (Hst p s Hs). done.
Qed.

(** *** A small service for the witnesses *)

(** A session class whose packets start with their length. *)
Definition counting : IEventHandler nat := {|
  read_packet := fun _ bs => length_prefixed bs;
  on_connect := CDone;
  on_disconnect := CDone;
  on_recv := fun d => CGet (fun n => CPut (S n) (CAsyncSend d (fun _ => CDone)));
  on_message := fun _ => CDone;
  on_send := fun u _ _ _ => u;
  parse_message := fun _ _ off => InBuf off
|}.

(** A service with one processor; the kernel answers as [k] says. *)
Definition ready_world (k : script) : world script (EventHandler nat) epoll_env :=
  mk_world k 0 [] heap_empty
    (set_processor (set_queues [mk_spscqueue 101 (replicate 101 None) 0 0] (Processor_new_with true))
       (TCPService_new true)).

Lemma ready_world_ready k : service_ready (ready_world k).
Proof. split_and!; [done|done|apply app_world_rep|done]. Qed.

(** A connection is accepted, then three bytes and four bytes arrive. *)
Definition demo_script : script :=
  [sys_result 7; sys_result 0; sys_result 0; sys_result 0;
   mk_sysret 3 0 [x02; x41; x03] [] []; sys_result 0;
   mk_sysret 4 0 [x42; x43; x05; x44] [] []; sys_result 0].

Definition demo_listener : Listener := mk_Listener 0 80 10 3 true true None.

Definition demo_run : world script (EventHandler nat) epoll_env :=
  let w1 := (accept_connection 16 16 counting 0%nat false false 0 demo_listener (ready_world demo_script)).2 in
  let ev := mk_epoll_event EPOLLIN (DPtr (Some 1%positive)) in
  let w2 := (handle_event 16 16 counting false 16 0 0 ev w1).2 in
  (handle_event 16 16 counting false 16 0 0 ev w2).2.

Lemma demo_reachable : rtc (server_step 16 16 counting 0%nat false) (ready_world demo_script) demo_run.
Proof.
  eapply rtc_l; [apply (step_accept _ _ _ _ _ _ _ 0 demo_listener); vm_compute; reflexivity|].
  eapply rtc_l.
  { apply (step_event _ _ _ _ _ _ _ 16 0 0 (mk_epoll_event EPOLLIN (DPtr (Some 1%positive))));
      [done|done|vm_compute; reflexivity]. }
  eapply rtc_l.
  { apply (step_event _ _ _ _ _ _ _ 16 0 0 (mk_epoll_event EPOLLIN (DPtr (Some 1%positive))));
      [done|done|vm_compute; reflexivity]. }
  apply rtc_refl_eq. vm_compute. reflexivity.
Qed.

Lemma demo_inv : server_inv 16 16 length_prefixed demo_run.
Proof.
  refine (rtc_invariant _ _ _ _ _ (service_ready_inv 16 16 length_prefixed _ (ready_world_ready demo_script))
    demo_reachable).
  intros a b Ha Hab.
  apply (server_step_inv 16 16 counting 0%nat false length_prefixed (fun _ _ => eq_refl)) with (w := a);
    [unfold INT_MAX; lia..|exact Ha|exact Hab].
Qed.

Lemma epoll_stream_framing_witness :
  exists s, heap_get (w_sessions demo_run) 1%positive = Some s /\ user s = 2%nat /\
    frames length_prefixed (concat (chunks_of 1%positive (w_trace demo_run)))
    = (packets_of 1%positive (w_trace demo_run), pending s) /\
    packets_of 1%positive (w_trace demo_run) = [[x02; x41]; [x03; x42; x43]] /\ pending s = [x05; x44].
Proof.
  eexists. split; [vm_compute; reflexivity|]. split; [reflexivity|]. split.
  - refine (proj1 (epoll_stream_framing 16 16 counting 0%nat false length_prefixed (ready_world demo_script)
      demo_run 1%positive _ _ _ (fun _ _ => eq_refl) _ _ (ready_world_ready _) demo_reachable _)).
    + unfold INT_MAX; lia.
    + unfold INT_MAX; lia.
    + vm_compute; reflexivity.
  - split; vm_compute; reflexivity.
Defined.

(** At most one thread acquires messages from the pool: without an application thread nobody does,
    with one the service has a single processor, number 0. *)
Definition one_acquirer {K U} (procIdx : Z) (w : world K (EventHandler U) epoll_env) : Prop :=
  app_run (p_config (processor (w_env w))) = true ->
  length (msgQueues (processor (w_env w))) = 1%nat /\ procIdx = 0.

Lemma one_acquirer_range {K U} procIdx (w : world K (EventHandler U) epoll_env) : one_acquirer procIdx w ->
  app_run (p_config (processor (w_env w))) = true -> 0 <= procIdx < zlen (msgQueues (processor (w_env w))).
Proof. intros Hone Hrun. destruct (Hone Hrun) as [-> ->]. lia. Qed.

(** C15. What keeps a processor's handling of an event defined and finite.  For a session class
    that keeps the framing contract ([FramingLaw]: [read_packet] announces no more than was
    received, and a complete packet stays that packet when more bytes arrive), a kernel that
    keeps the laws of its calls, and a service in which at most one thread acquires messages
    ([one_acquirer]: no application thread, or one processor): whatever the event of a live
    session, whatever the kernel answers and whatever the session's callbacks do, the handler
    returns, [RecvBufSize] rounds of its packet loop are enough, and the state stays in the
    service's invariant (buffer indices in bounds, streams cut right, message pool and queues in
    order).  The conditions matter: a [read_packet] that announces too much makes the loop endless
    ([overclaim_never_ends]), two acquiring processors can meet a null ([two_processors_null]). *)
Theorem epoll_event_safe {K U : Type} `{Kernel K} (RecvBufSize SendBufSize : Z)
    (h : IEventHandler U) (rp : list byte -> Z) (w : world K (EventHandler U) epoll_env)
    (fuel : nat) (procIdx pfd evs : Z) (p : ptr) :
  KernelLaws K -> FramingLaw rp -> (forall u bs, read_packet h u bs = rp bs) ->
  0 < SendBufSize <= INT_MAX -> 0 < RecvBufSize <= INT_MAX -> RecvBufSize <= Z.of_nat fuel ->
  server_inv RecvBufSize SendBufSize rp w -> is_Some (heap_get (w_sessions w) p) -> one_acquirer procIdx w ->
  exists w', handle_event RecvBufSize SendBufSize h false fuel procIdx pfd
               (mk_epoll_event evs (DPtr (Some p))) w = (Ok tt, w') /\
    server_inv RecvBufSize SendBufSize rp w'.
Proof.
  intros HK HF Hrp HS HR Hfuel (Hst&Hpool&Hfac) [s Hs] Hone.
  destruct (wp_Ok _ _ _ (handle_event_inv RecvBufSize SendBufSize h HS HR rp Hrp fuel procIdx pfd evs p s w
    Hst Hs (conj (conj (one_acquirer_range _ _ Hone) Hpool) Hfac) Hfuel)) as ([]&w'&Hrun&Hst'&(_&Hpool')&Hfac').
  exists w'. by split_and!.
Qed.

Lemma epoll_event_safe_witness :
  exists w', handle_event 16 16 counting false 16 0 0
               (mk_epoll_event (Z.lor EPOLLIN EPOLLERR) (DPtr (Some 1%positive))) demo_run = (Ok tt, w') /\
    server_inv 16 16 length_prefixed w'.
Proof.
  refine (epoll_event_safe 16 16 counting length_prefixed demo_run 16 0 0 _ 1%positive _ _
    (fun _ _ => eq_refl) _ _ _ _ _ _); try (unfold INT_MAX; lia).
  - apply demo_inv.
  - vm_compute. eexists. reflexivity.
  - intros E. vm_compute in E. discriminate E.
Defined.

(** C21. The EPOLLIN branch on received data, for any [read_packet] that announces no more than
    was received: [on_recv] is called for exactly the complete packets of the pending bytes
    followed by the new ones, in order, and the session keeps exactly the incomplete rest at the
    front of its buffer. *)
Theorem readable_delivers_frames {K U : Type} `{Kernel K} (RecvBufSize SendBufSize : Z)
    (h : IEventHandler U) (rp : list byte -> Z) (w : world K (EventHandler U) epoll_env)
    (fuel : nat) (procIdx pfd : Z) (p : ptr) (s : EventHandler U) :
  KernelLaws K -> FramingBounded rp -> (forall u bs, read_packet h u bs = rp bs) ->
  0 < SendBufSize <= INT_MAX -> 0 < RecvBufSize <= INT_MAX -> RecvBufSize <= Z.of_nat fuel ->
  heap_get (w_sessions w) p = Some s -> recv_inv RecvBufSize s ->
  queues_ok procIdx (processor (w_env w)) ->
  let r := (sys (Sys_recv (fd s) (recv_size RecvBufSize s)) (w_kernel w)).1 in
  0 < sr_ret r ->
  exists w' s', handle_readable RecvBufSize SendBufSize h false fuel procIdx pfd p w = (Ok tt, w') /\
    packets_of p (w_trace w') = packets_of p (w_trace w) ++ (frames rp (pending s ++ sr_data r)).1 /\
    heap_get (w_sessions w') p = Some s' /\ recv_inv RecvBufSize s' /\
    pending s' = (frames rp (pending s ++ sr_data r)).2.
Proof.
  intros HK HF Hrp HS HR Hfuel Hs Hinv Hq r Hr.
  destruct (wp_Ok _ _ _ (handle_readable_data RecvBufSize SendBufSize h HS HR rp Hrp fuel procIdx pfd p s w
    Hs Hinv Hq Hfuel Hr)) as ([]&w'&Hrun&_&_&_&(tr&HT&HD)&HSs).
  destruct (HSs s Hs) as (s'&Hs'&_&_&_&Hinv'&Hp'). exists w', s'. split_and!; try done.
  rewrite HT, packets_of_app. destruct (HD p) as [-> _]. by rewrite decide_True.
Qed.

Definition one_session (s : EventHandler nat) (k : script) : world script (EventHandler nat) epoll_env :=
  set_sessions (mk_heap {[ 1%positive := s ]} 2%positive) (ready_world k).

Lemma readable_delivers_frames_witness :
  exists w' s', handle_readable 16 16 EventHandler_default false 16 0 0 1%positive
      (one_session (EventHandler_new 16 16 0%nat) [mk_sysret 2 0 [x41; x42] [] []]) = (Ok tt, w') /\
    packets_of 1%positive (w_trace w') = [[x41; x42]] /\
    heap_get (w_sessions w') 1%positive = Some s' /\ recv_inv 16 s' /\ pending s' = [].
Proof.
  refine (readable_delivers_frames 16 16 EventHandler_default whole_buffer _ 16 0 0 1%positive
    (EventHandler_new 16 16 0%nat) _ _ (fun _ _ => eq_refl) _ _ _ _ _ _ _); try (unfold INT_MAX; lia).
  - reflexivity.
  - split; [reflexivity|cbn; lia].
  - split; [done|]. exists [[]]. apply app_world_rep.
  - vm_compute. reflexivity.
Defined.

(** The branches of a [recv] that returned no data. *)
Lemma handle_readable_ended {K U : Type} `{Kernel K} RecvBufSize SendBufSize (h : IEventHandler U)
    fuel procIdx pfd p s (w : world K (EventHandler U) epoll_env) :
  heap_get (w_sessions w) p = Some s ->
  let c := Sys_recv (fd s) (recv_size RecvBufSize s) in
  sr_ret (sys c (w_kernel w)).1 <= 0 ->
  handle_readable RecvBufSize SendBufSize h false fuel procIdx pfd p w
  = disconnect SendBufSize h false pfd p (after_call c (sys c (w_kernel w)).1 (sys c (w_kernel w)).2 w).
Proof.
  intros Hs c Hr. set (r := (sys c (w_kernel w)).1) in *. unfold handle_readable.
  rewrite (bind_Ok _ _ w s w) by (unfold session; by rewrite Hs).
  rewrite (bind_Ok _ _ w r (after_call c r (sys c (w_kernel w)).2 w))
    by (unfold sys_call; fold c; by rewrite (surjective_pairing (sys c (w_kernel w)))).
  by destruct (Z.ltb_spec (sr_ret r) 0), (Z.eqb_spec (sr_ret r) 0); try lia.
Qed.

(** C37. A connection whose [recv] fails or returns 0: the descriptor is removed from the epoll
    set, closed, [on_disconnect] runs, the session is deleted, and only then is the event
    function told, with the address of the deleted session. *)
Theorem disconnect_order {K U : Type} `{Kernel K} (RecvBufSize SendBufSize : Z) (h : IEventHandler U)
    (w : world K (EventHandler U) epoll_env) (fuel : nat) (procIdx pfd : Z) (p : ptr) (s : EventHandler U) :
  0 < SendBufSize <= INT_MAX -> heap_get (w_sessions w) p = Some s -> factory (processor (w_env w)) = true ->
  let c := Sys_recv (fd s) (recv_size RecvBufSize s) in
  sr_ret (sys c (w_kernel w)).1 <= 0 ->
  exists w' r r1 r2 tr, handle_readable RecvBufSize SendBufSize h false fuel procIdx pfd p w = (Ok tt, w') /\
    heap_get (w_sessions w') p = None /\
    (forall q, q <> p -> heap_get (w_sessions w') q = heap_get (w_sessions w) q) /\
    Forall (fun e => quiet_event e = true) tr /\
    w_trace w' = w_trace w ++ [TSys c r; TSys (Sys_epoll_ctl pfd EPOLL_CTL_DEL (fd s) None) r1;
        TSys (Sys_close (fd s)) r2; TDisconnect p] ++ tr ++
      TRelease p :: notified (p_evtHandler (processor (w_env w))) EVT_SESSION_RELEASE (Some p).
Proof.
  intros HS Hs Hfac c Hr. set (r := (sys c (w_kernel w)).1) in *.
  set (w1 := after_call c r (sys c (w_kernel w)).2 w).
  destruct (wp_Ok _ _ _ (disconnect_disconnected SendBufSize h HS pfd p s w1 Hs Hfac))
    as ([]&w'&Hrun&_&_&Hnone&Hother&r1&r2&tr&Hq&HT).
  exists w', (sr_ret r), r1, r2, tr. split_and!; [|done..|].
  - by rewrite (handle_readable_ended RecvBufSize SendBufSize h fuel procIdx pfd p s w Hs Hr).
  - rewrite HT. cbn. by rewrite <- !app_assoc.
Qed.

Lemma disconnect_order_witness :
  exists w' r r1 r2 tr, handle_readable 16 16 counting false 16 0 9 1%positive
      (one_session (EventHandler_new 16 16 0%nat) [sys_error ECONNRESET]) = (Ok tt, w') /\
    heap_get (w_sessions w') 1%positive = None /\
    (forall q, q <> 1%positive -> heap_get (w_sessions w') q =
       heap_get (w_sessions (one_session (EventHandler_new 16 16 0%nat) [sys_error ECONNRESET])) q) /\
    Forall (fun e => quiet_event e = true) tr /\
    w_trace w' = [TSys (Sys_recv (-1) 16) r; TSys (Sys_epoll_ctl 9 EPOLL_CTL_DEL (-1) None) r1;
        TSys (Sys_close (-1)) r2; TDisconnect 1%positive] ++ tr ++ [TRelease 1%positive].
Proof.
  apply (disconnect_order 16 16 counting (one_session (EventHandler_new 16 16 0%nat) [sys_error ECONNRESET])
    16 0 9 1%positive (EventHandler_new 16 16 0%nat)); [unfold INT_MAX; lia|reflexivity|reflexivity|].
  vm_compute. discriminate.
Defined.

(** C33. The EPOLLOUT branch: [send] is offered exactly the pending bytes, the buffer loses
    exactly what it took (nothing when it failed), and the descriptor keeps its interest in
    EPOLLOUT exactly when the thread's [errno] is EAGAIN, where the [errno] tested is the one an
    earlier call left when [send] did not fail. *)
Theorem writable_flushes {K U : Type} `{Kernel K} (SendBufSize : Z) (w : world K (EventHandler U) epoll_env)
    (p : ptr) (s : EventHandler U) :
  KernelLaws K -> 0 < SendBufSize <= INT_MAX ->
  heap_get (w_sessions w) p = Some s -> SendBuffer_wf SendBufSize (sendBuffer s) ->
  let c := Sys_send (fd s) (contents (sendBuffer s)) in
  let r := (sys c (w_kernel w)).1 in
  exists w' s' r2, handle_writable p w = (Ok tt, w') /\
    heap_get (w_sessions w') p = Some s' /\
    contents (sendBuffer s') = drop (Z.to_nat (sr_ret r)) (contents (sendBuffer s)) /\
    w_trace w' = w_trace w ++ [TSys c (sr_ret r);
      TSys (Sys_epoll_ctl (procFd s) EPOLL_CTL_MOD (fd s)
              (Some (mk_epoll_event (out_interest (if sr_ret r <? 0 then sr_errno r else w_errno w))
                       (DPtr (Some p))))) r2].
Proof.
  intros HK HS Hs Hwf c r.
  destruct (wp_Ok _ _ _ (handle_writable_flushed SendBufSize HS p s w Hs Hwf))
    as ([]&w'&Hrun&_&_&(s'&Hs'&_&Hc)&_&r2&HT).
  by exists w', s', r2.
Qed.

Definition half_sent : EventHandler nat :=
  set_sendBuffer (mk_SendBuffer 1 4 (x41 :: x42 :: x43 :: x44 :: replicate 12 x00)) (EventHandler_new 16 16 0%nat).

Lemma writable_flushes_witness :
  exists w' s' r2, handle_writable 1%positive (one_session half_sent [sys_result 2]) = (Ok tt, w') /\
    heap_get (w_sessions w') 1%positive = Some s' /\ contents (sendBuffer s') = [x44] /\
    w_trace w' = [TSys (Sys_send (-1) [x42; x43; x44]) 2;
      TSys (Sys_epoll_ctl (-1) EPOLL_CTL_MOD (-1) (Some (mk_epoll_event 9 (DPtr (Some 1%positive))))) r2].
Proof.
  refine (writable_flushes 16 (one_session half_sent [sys_result 2]) 1%positive half_sent _ _ eq_refl _).
  - unfold INT_MAX; lia.
  - unfold SendBuffer_wf. cbn. lia.
Defined.

(** C38. A buffer that an incomplete packet has filled cannot recover: the next EPOLLIN asks
    [recv] for 0 bytes, which cannot return data, and the processor treats the answer as the
    peer's close, whatever the peer did. *)
Theorem full_buffer_disconnects {K U : Type} `{Kernel K} (RecvBufSize SendBufSize : Z) (h : IEventHandler U)
    (w : world K (EventHandler U) epoll_env) (fuel : nat) (procIdx pfd : Z) (p : ptr) (s : EventHandler U) :
  KernelLaws K -> 0 < SendBufSize <= INT_MAX -> heap_get (w_sessions w) p = Some s ->
  factory (processor (w_env w)) = true -> recvBufPos s = RecvBufSize ->
  exists w', handle_readable RecvBufSize SendBufSize h false fuel procIdx pfd p w = (Ok tt, w') /\
    heap_get (w_sessions w') p = None /\ In (TDisconnect p) (w_trace w').
Proof.
  intros HK HS Hs Hfac Hpos. set (c := Sys_recv (fd s) (recv_size RecvBufSize s)).
  assert (Hr : sr_ret (sys c (w_kernel w)).1 <= 0).
  { destruct (Z.le_gt_cases (sr_ret (sys c (w_kernel w)).1) 0) as [|Hgt]; [done|].
    destruct (recv_law (w_kernel w) (fd s) (recv_size RecvBufSize s)) as [Hle _]; [unfold recv_size; lia|done|].
    fold c in Hle. unfold recv_size in Hle. lia. }
  destruct (wp_Ok _ _ _ (disconnect_disconnected SendBufSize h HS pfd p s
    (after_call c (sys c (w_kernel w)).1 (sys c (w_kernel w)).2 w) Hs Hfac))
    as ([]&w'&Hrun&_&_&Hnone&_&r1&r2&tr&_&HT).
  exists w'. split_and!; [|done|].
  - by rewrite (handle_readable_ended RecvBufSize SendBufSize h fuel procIdx pfd p s w Hs Hr).
  - rewrite HT. apply in_or_app. right. right. right. left. done.
Qed.

Definition full_session : EventHandler nat := set_recv (replicate 16 xff) 16 (EventHandler_new 16 16 0%nat).

Lemma full_buffer_disconnects_witness :
  exists w', handle_readable 16 16 counting false 16 0 9 1%positive
      (one_session full_session [mk_sysret 3 0 [x41; x42; x43] [] []]) = (Ok tt, w') /\
    heap_get (w_sessions w') 1%positive = None /\ In (TDisconnect 1%positive) (w_trace w').
Proof.
  apply (full_buffer_disconnects 16 16 counting (one_session full_session [mk_sysret 3 0 [x41; x42; x43] [] []])
    16 0 9 1%positive full_session); [exact _|unfold INT_MAX; lia|reflexivity..].
Defined.

(** C35. The packet loop trusts [read_packet]: when it announces more than the buffer can hold,
    the loop never ends: no number of rounds is enough, and no packet is delivered. *)
Theorem overclaim_never_ends {K U : Type} `{Kernel K} (RecvBufSize SendBufSize : Z) (h : IEventHandler U)
    (w : world K (EventHandler U) epoll_env) (procIdx : Z) (p : ptr) (s : EventHandler U) :
  0 < RecvBufSize <= INT_MAX -> (forall u bs, RecvBufSize < read_packet h u bs <= INT_MAX) ->
  heap_get (w_sessions w) p = Some s -> 0 < recvBufPos s <= RecvBufSize ->
  forall fuel pkgLen, RecvBufSize < pkgLen <= INT_MAX ->
    recv_loop RecvBufSize SendBufSize h false fuel p procIdx 0 pkgLen w = (OutOfFuel, w).
Proof.
  intros HR Hrp Hs Hpos fuel. unfold INT_MAX in *.
  induction fuel as [|fuel IH]; intros pkgLen Hp; cbn [recv_loop];
    (destruct (Z.leb_spec pkgLen 0); [lia|]); [done|].
  rewrite (bind_Ok _ _ w s w) by (unfold session; by rewrite Hs).
  rewrite Z.add_0_l, !u32_small by lia. destruct (Z.leb_spec pkgLen (recvBufPos s)); [lia|].
  rewrite (bind_Ok _ _ w 0 w) by done. rewrite (bind_Ok _ _ w s w) by (unfold session; by rewrite Hs).
  rewrite u32_small by lia. destruct (Z.ltb_spec 0 (recvBufPos s)); [|lia].
  set (n := read_packet h _ _). specialize (Hrp (user s) (slice 0 (recvBufPos s - 0) (recvBuf s))).
  fold n in Hrp. destruct (Z.leb_spec n 0); [lia|]. apply IH. lia.
Qed.

Definition greedy : IEventHandler nat := {|
  read_packet := fun _ _ => 100;
  on_connect := CDone; on_disconnect := CDone; on_recv := fun _ => CDone; on_message := fun _ => CDone;
  on_send := fun u _ _ _ => u; parse_message := fun _ _ off => InBuf off
|}.

Lemma overclaim_never_ends_witness :
  recv_loop 16 16 greedy false 1000 1%positive 0 0 100 (one_session full_session []) =
    (OutOfFuel, one_session full_session []).
Proof.
  apply (overclaim_never_ends 16 16 greedy (one_session full_session []) 0 1%positive full_session).
  - unfold INT_MAX; lia.
  - intros u bs. cbn. unfold INT_MAX. lia.
  - reflexivity.
  - cbn. lia.
  - unfold INT_MAX. lia.
Defined.
