(* ===== verification/EpollHazards.v ===== *)
(** * What a queued message may point to

    A package in a message queue holds the session's address and, with the default [parse_message],
    a pointer into its receive buffer.  Neither keeps the session or the bytes alive until the
    application thread gets to the package. *)

From S2P Require Import Prelude Heap NetApi SendBuffer SpscQueue ObjectPool Os EpollSession Framing EpollNet EpollApp EpollRecv EpollServer.

(** The front package of a queue, and the queue without it. *)
Lemma front_package i m l ms pr : app_rep pr ms -> ms !! i = Some (m :: l) ->
  exists q pk q', msgQueues pr !! i = Some q /\ isEmpty q = false /\ try_dequeue q = Ok (Some pk, q') /\ packages pr !! pk = Some m.
Proof.
  intros Hrep Hi. pose proof Hrep as (contents&held&Hq&_&_&_&Hm).
  destruct (Forall2_lookup_r _ _ _ _ _ Hm Hi) as (c&Hci&HF). destruct (Forall2_lookup_r _ _ _ _ _ Hq Hci) as (q&Hqi&Hrr).
  assert (Hne : isEmpty q = false).
  { destruct (isEmpty q) eqn:E; [|done]. apply (ring_empty q c (proj1 Hrr)) in E as ->. by inversion HF. }
  destruct (taken_rep i q _ ms (m :: l) Hrep Hqi Hi Hne) as (m'&l'&pk&q'&o&Heq&Hdq&Hpk&_). injection Heq as <- <-. by exists q, pk, q'.
Qed.

Section Hazards.
Context {K U : Type} `{Kernel K}.
Context (SendBufSize : Z) (h : IEventHandler U).
Local Abbreviation W := (world K (EventHandler U) epoll_env).

Lemma app_queue_dead i m l ms (w : W) : app_rep (processor (w_env w)) ms -> ms !! i = Some (m :: l) ->
  heap_get (w_sessions w) (pkg_session m) = None -> (app_queue SendBufSize h false i w).1 = Undefined.
Proof.
  intros Hrep Hi Hs. destruct (front_package i m l ms _ Hrep Hi) as (q&pk&q'&Hq&Hne&Hdq&Hpk).
  unfold app_queue, bind, gets, deref. rewrite Hq, Hne. unfold lift. rewrite Hdq.
  unfold update_processor, update, modify. cbn. rewrite Hpk. unfold call_on_message, bind, session. cbn. by rewrite Hs.
Qed.
End Hazards.

(** C34. Messages outlive their session: when a connection ends while one of its messages is at the
    front of a queue, the processor releases the session and leaves the queue as it is, and the
    application thread then calls [on_message] through the dangling pointer. *)
Theorem released_session_message {K U : Type} `{Kernel K} (SendBufSize : Z) (h : IEventHandler U) (pfd : Z)
    (i : nat) (m : MsgPackage) (l : list MsgPackage) (ms : list (list MsgPackage)) (s : EventHandler U)
    (w : world K (EventHandler U) epoll_env) :
  0 < SendBufSize <= INT_MAX -> app_rep (processor (w_env w)) ms -> ms !! i = Some (m :: l) ->
  heap_get (w_sessions w) (pkg_session m) = Some s -> factory (processor (w_env w)) = true ->
  exists w', disconnect SendBufSize h false pfd (pkg_session m) w = (Ok tt, w') /\
    app_rep (processor (w_env w')) ms /\ (app_queue SendBufSize h false i w').1 = Undefined.
Proof.
  intros HB Hrep Hi Hs Hf. destruct (wp_Ok _ _ _ (disconnect_disconnected SendBufSize h HB pfd (pkg_session m) s w Hs Hf))
    as ([]&w'&Hrun&_&He&Hdead&_). exists w'. rewrite He. split_and!; [done|done|].
  apply (app_queue_dead SendBufSize h i m l ms); [by rewrite He|done|done].
Qed.

(** *** A run with the application thread *)

(** The default session class, over a service whose application thread is on; "AB" arrives, then "CD". *)
Definition app_config : Properties := mk_Properties false true true 10 1 1 None.

Definition hazard_w0 : world script (EventHandler nat) epoll_env :=
  mk_world [mk_sysret 2 0 [x41; x42] [] []; mk_sysret 2 0 [x43; x44] [] []] 0 []
    (mk_heap {[ 1%positive := EventHandler_new 16 16 0%nat ]} 2%positive)
    (set_processor (set_setup app_config None (set_queues [mk_spscqueue 101 (replicate 101 None) 0 0] (Processor_new_with true)))
       (TCPService_new true)).

Definition hazard_read (w : world script (EventHandler nat) epoll_env) :=
  (handle_readable 16 16 EventHandler_default false 16 0 9 1%positive w).2.

Definition hazard_w1 := hazard_read hazard_w0.
Definition hazard_w2 := hazard_read hazard_w1.
Definition hazard_w3 := (app_queue 16 EventHandler_default false 0 hazard_w2).2.

Definition message_for (e : trace_event) : option (list byte) := match e with TMessage _ d => Some d | _ => None end.

(** The packets were "AB" and "CD"; the message made from the first is "CD" by the time it is looked at. *)
Lemma queued_message_overwritten :
  packets_of 1%positive (w_trace hazard_w3) = [[x41; x42]; [x43; x44]] /\
  take 2 <$> omap message_for (w_trace hazard_w3) = [[x43; x44]].
Proof. split; vm_compute; reflexivity. Qed.

Lemma released_session_message_witness :
  exists (w w' : world script (EventHandler unit) epoll_env), disconnect 16 (EventHandler_default (U:=unit)) false 9 1%positive w = (Ok tt, w') /\
    (app_queue 16 (EventHandler_default (U:=unit)) false 0 w').1 = Undefined.
Proof.
  destruct (wp_Ok _ _ _ (post_message_posted 1%positive 0 (InBuf 0) _ _ app_world app_world_rep eq_refl)) as ([]&w1&_&pk&o&Ha&->).
  eexists. destruct (released_session_message 16 (EventHandler_default (U:=unit)) 9 0 (mk_MsgPackage 1%positive (InBuf 0)) []
    [[mk_MsgPackage 1%positive (InBuf 0)]] (EventHandler_new 16 16 tt)
    (set_env (set_processor (posted (Z.to_nat 0) (mk_spscqueue 101 (replicate 101 None) 0 0) pk o
           (mk_MsgPackage 1%positive (InBuf 0)) (processor (w_env app_world))) (w_env app_world)) app_world)) as (w'&Hd&_&Hu).
  - unfold INT_MAX; lia.
  - exact (posted_rep 0 _ pk o (mk_MsgPackage 1%positive (InBuf 0)) _ [[]] [] app_world_rep eq_refl eq_refl Ha).
  - reflexivity.
  - reflexivity.
  - reflexivity.
  - exists w'. split; [exact Hd|exact Hu].
Defined.
