(* ===== verification/EpollPipeline.v ===== *)
(** * The path of a message to the application thread

    With [config.app_run] each packet becomes a message that goes from the processor through its
    queue to the application thread.  The specification is one bounded list per processor: a packet
    offers its message to the list of the processor that received it, and [on_message] takes the
    oldest one.  Every run of the service refines it. *)

From S2P Require Import Prelude Heap NetApi SendBuffer SpscQueue ObjectPool Os EpollSession Framing EpollNet EpollApp EpollRecv EpollServer EpollHazards.

(** ** The specification *)

(** A turn of a thread: the processor whose event it is, or the queue the application thread serves;
    the sessions when it began; the events of the turn. *)
Record turn (U : Type) := mk_turn { t_index : nat; t_sessions : heap (EventHandler U); t_events : list trace_event }.
Arguments mk_turn {U} _ _ _.
Arguments t_index {U} _.
Arguments t_sessions {U} _.
Arguments t_events {U} _.

(** The packets of a turn with their places in the receive buffer: one event's packets lie one after
    the other from the front. *)
Definition packet_len (e : trace_event) : Z := match e with TRecv _ d => zlen d | _ => 0 end.

Fixpoint placed (off : Z) (tr : list trace_event) : list (ptr * list byte * Z) :=
  match tr with
  | [] => []
  | e :: tr => match e with TRecv p d => [(p, d, off)] | _ => [] end ++ placed (off + packet_len e) tr
  end.

Definition messages (tr : list trace_event) : list (ptr * list byte) :=
  omap (fun e => match e with TMessage p d => Some (p, d) | _ => None end) tr.

(** Nothing is delivered. *)
Definition app_silent (e : trace_event) : bool := match e with TRecv _ _ | TMessage _ _ => false | _ => true end.

Section Spec.
Context {U : Type} (h : IEventHandler U) (n : Z).

(** One event of a turn at the queue [i] that began with the sessions [ss]: the packet at [off]
    offers what [parse_message] makes of it there ([u] is the session's own state after [on_recv]);
    [on_message] is given the oldest message, read as the session's buffer is now. *)
Inductive app_event (i : nat) (ss : heap (EventHandler U)) (off : Z) : trace_event -> list (list MsgPackage) -> list (list MsgPackage) -> Prop :=
| ev_offer p d u q qs : qs !! i = Some q ->
    app_event i ss off (TRecv p d) qs (<[i := offer n (mk_MsgPackage p (parse_message h u d off)) q]> qs)
| ev_take m s q qs : qs !! i = Some (m :: q) -> heap_get ss (pkg_session m) = Some s ->
    app_event i ss off (TMessage (pkg_session m) (message_bytes s (pkg_message m))) qs (<[i := q]> qs)
| ev_other e qs : app_silent e = true -> app_event i ss off e qs qs.

Inductive turn_events (i : nat) (ss : heap (EventHandler U)) : Z -> list trace_event -> list (list MsgPackage) -> list (list MsgPackage) -> Prop :=
| turn_nil off qs : turn_events i ss off [] qs qs
| turn_cons off e tr qs qs1 qs2 : app_event i ss off e qs qs1 -> turn_events i ss (off + packet_len e) tr qs1 qs2 ->
    turn_events i ss off (e :: tr) qs qs2.

(** The turns one after the other. *)
Inductive replay : list (turn U) -> list (list MsgPackage) -> list (list MsgPackage) -> Prop :=
| replay_nil qs : replay [] qs qs
| replay_turn l t qs qs1 qs2 : replay l qs qs1 -> turn_events (t_index t) (t_sessions t) 0 (t_events t) qs1 qs2 ->
    replay (l ++ [t]) qs qs2.

Lemma turn_silent i ss off tr qs : Forall (fun e => app_silent e = true) tr -> turn_events i ss off tr qs qs.
Proof. intros F. revert off. induction F; intros off; [constructor|]. econstructor; [by apply ev_other|done]. Qed.

Lemma turn_silent_app i ss off t1 t2 qs qs' : Forall (fun e => app_silent e = true) t1 ->
  turn_events i ss off t2 qs qs' -> turn_events i ss off (t1 ++ t2) qs qs'.
Proof.
  intros F H2. induction F as [|e tr He _ IH]; [done|]. cbn. econstructor; [by apply ev_other|].
  replace (off + packet_len e) with off; [done|]. destruct e; cbn in *; lia || done.
Qed.

Lemma app_event_length i ss off e qs qs' : app_event i ss off e qs qs' -> length qs' = length qs.
Proof. intros []; rewrite ?length_insert; done. Qed.

Lemma turn_length i ss off tr qs qs' : turn_events i ss off tr qs qs' -> length qs' = length qs.
Proof. induction 1 as [|?????? He _ ->]; [done|]. by eapply app_event_length. Qed.

Lemma replay_length l qs qs' : replay l qs qs' -> length qs' = length qs.
Proof. induction 1 as [|????? _ <- Ht]; [done|]. by eapply turn_length. Qed.

(** What was offered to the queue [i] and what was taken from it. *)
Definition packets_at (i : nat) (l : list (turn U)) : list (ptr * list byte * Z) :=
  concat ((fun t => if decide (t_index t = i) then placed 0 (t_events t) else []) <$> l).
Definition messages_at (i : nat) (l : list (turn U)) : list (ptr * list byte) :=
  concat ((fun t => if decide (t_index t = i) then messages (t_events t) else []) <$> l).

Definition made_of (m : MsgPackage) (x : ptr * list byte * Z) : Prop :=
  pkg_session m = x.1.1 /\ exists u, pkg_message m = parse_message h u x.1.2 x.2.
Definition read_as (m : MsgPackage) (x : ptr * list byte) : Prop :=
  pkg_session m = x.1 /\ exists s : EventHandler U, x.2 = message_bytes s (pkg_message m).

(** From the queue [q] with the packets [ps] offered and the messages [ms] taken, [q'] is left. *)
Definition queue_moved (q q' : list MsgPackage) (ps : list (ptr * list byte * Z)) (ms : list (ptr * list byte)) : Prop :=
  exists os ts, Forall2 made_of os ps /\ Forall2 read_as ts ms /\ (ts ++ q') `sublist_of` (q ++ os).

Lemma queue_moved_refl q : queue_moved q q [] [].
Proof. exists [], []. split_and!; [constructor..|]. by rewrite app_nil_r. Qed.

Lemma queue_moved_trans q q1 q2 ps1 ps2 ms1 ms2 : queue_moved q q1 ps1 ms1 -> queue_moved q1 q2 ps2 ms2 ->
  queue_moved q q2 (ps1 ++ ps2) (ms1 ++ ms2).
Proof.
  intros (o1&t1&Ho1&Ht1&H1) (o2&t2&Ho2&Ht2&H2). exists (o1 ++ o2), (t1 ++ t2). split_and!; [by apply Forall2_app..|].
  rewrite <- app_assoc. etrans; [by apply sublist_app; [done|exact H2]|]. rewrite !app_assoc. by apply sublist_app.
Qed.

Lemma app_event_queue j ss off e qs qs' i q : app_event j ss off e qs qs' -> qs !! i = Some q -> zlen q <= n ->
  exists q', qs' !! i = Some q' /\ zlen q' <= n /\
    queue_moved q q' (if decide (j = i) then placed off [e] else []) (if decide (j = i) then messages [e] else []).
Proof.
  intros He Hq Hn. destruct (decide (j = i)) as [->|Hne].
  - destruct He as [p d u qj qs Hj|m s qj qs Hj Hs|e qs He].
    + assert (qj = q) as -> by congruence. rewrite list_lookup_insert_eq by (by eapply lookup_lt_Some). eexists. split; [done|]. cbn.
      assert (Ho : Forall2 made_of [mk_MsgPackage p (parse_message h u d off)] [(p, d, off)]) by (constructor; [split; [done|by exists u]|constructor]).
      unfold offer. destruct (Z.ltb_spec (zlen q) n).
      * split; [rewrite length_app; cbn; lia|]. by exists [mk_MsgPackage p (parse_message h u d off)], [].
      * split; [done|]. exists [mk_MsgPackage p (parse_message h u d off)], []. split_and!; [done|constructor|]. by apply sublist_inserts_r.
    + assert (q = m :: qj) as -> by congruence. rewrite list_lookup_insert_eq by (by eapply lookup_lt_Some). exists qj. cbn in *. split_and!; [done|lia|].
      exists [], [m]. split_and!; [constructor|constructor; [split; [done|by exists s]|constructor]|]. by rewrite app_nil_r.
    + exists q. split_and!; [done..|]. destruct e; done || apply queue_moved_refl.
  - assert (Hsame : qs' !! i = qs !! i) by (destruct He; rewrite ?list_lookup_insert_ne by done; done).
    exists q. rewrite Hsame. split_and!; [done..|apply queue_moved_refl].
Qed.

Lemma turn_queue j ss off tr qs qs' i q : turn_events j ss off tr qs qs' -> qs !! i = Some q -> zlen q <= n ->
  exists q', qs' !! i = Some q' /\ zlen q' <= n /\
    queue_moved q q' (if decide (j = i) then placed off tr else []) (if decide (j = i) then messages tr else []).
Proof.
  intros Ht. revert q. induction Ht as [off qs|off e tr qs qs1 qs2 He _ IH]; intros q Hq Hn.
  - exists q. split_and!; [done..|]. case_decide; apply queue_moved_refl.
  - destruct (app_event_queue _ _ _ _ _ _ _ _ He Hq Hn) as (q1&Hq1&Hn1&M1). destruct (IH q1 Hq1 Hn1) as (q2&Hq2&Hn2&M2).
    exists q2. split_and!; [done..|]. pose proof (queue_moved_trans _ _ _ _ _ _ _ M1 M2) as M.
    case_decide; [|done]. cbn [placed] in M |- *. rewrite app_nil_r in M. change (e :: tr) with ([e] ++ tr). unfold messages in *. by rewrite omap_app.
Qed.

(** Each queue answers in the order of the offers, and holds the rest. *)
Lemma replay_fifo l qs qs' i q : replay l qs qs' -> qs !! i = Some q -> zlen q <= n ->
  exists q', qs' !! i = Some q' /\ zlen q' <= n /\ queue_moved q q' (packets_at i l) (messages_at i l).
Proof.
  intros Hr Hq Hn. induction Hr as [qs|l t qs qs1 qs2 _ IH Ht].
  - exists q. split_and!; [done..|apply queue_moved_refl].
  - destruct (IH Hq) as (q1&Hq1&Hn1&M1). destruct (turn_queue _ _ _ _ _ _ _ _ Ht Hq1 Hn1) as (q2&Hq2&Hn2&M2).
    exists q2. split_and!; [done..|]. unfold packets_at, messages_at in *. rewrite !fmap_app, !concat_app. cbn. rewrite !app_nil_r.
    by eapply queue_moved_trans.
Qed.
End Spec.

(** ** The service refines it *)

Section Pipeline.
Context {K U : Type} `{Kernel K}.
Context (RecvBufSize SendBufSize : Z) (h : IEventHandler U) (user_init : U) (create_null : bool) (n : Z).
Local Abbreviation W := (world K (EventHandler U) epoll_env).

(** A step of the service at the processor, or the queue, [i]: an event belongs to the processor
    that polled it, a turn of the application thread to the queue it serves; a new connection
    delivers nothing, its number says nothing. *)
Inductive server_step_at (w w' : W) : nat -> Prop :=
| at_event fuel procIdx pfd ev :
    RecvBufSize <= Z.of_nat fuel ->
    (app_run (p_config (processor (w_env w))) = true -> 0 <= procIdx < zlen (msgQueues (processor (w_env w)))) ->
    handle_event RecvBufSize SendBufSize h false fuel procIdx pfd ev w = (Ok tt, w') -> server_step_at w w' (Z.to_nat procIdx)
| at_accept i l : accept_connection RecvBufSize SendBufSize h user_init create_null false i l w = (Ok tt, w') -> server_step_at w w' 0
| at_connect i r : Connector_connect RecvBufSize SendBufSize h user_init create_null false i w = (Ok r, w') -> server_step_at w w' 0
| at_app i : app_queue SendBufSize h false i w = (Ok tt, w') -> server_step_at w w' i.

Lemma server_step_at_iff w w' : server_step RecvBufSize SendBufSize h user_init create_null w w' <-> exists i, server_step_at w w' i.
Proof.
  split.
  - intros [|??|??|?]; eexists; [by eapply at_event|by eapply at_accept|by eapply at_connect|by eapply at_app].
  - intros [i [|??|??|?]]; [by eapply step_event|by eapply step_accept|by eapply step_connect|by eapply step_app].
Qed.

(** A run of the service with its turns: where each step was made, from which sessions, and what it
    added to the trace. *)
Inductive server_run (w0 : W) : list (turn U) -> W -> Prop :=
| run_start : server_run w0 [] w0
| run_step l w i w' tr : server_run w0 l w -> server_step_at w w' i -> w_trace w' = w_trace w ++ tr ->
    server_run w0 (l ++ [mk_turn i (w_sessions w) tr]) w'.

Hypothesis SendBufSize_int : 0 < SendBufSize <= INT_MAX.

(** The processors' queues hold the messages [qs]. *)
Definition mailboxes (pr : Processor) (qs : list (list MsgPackage)) : Prop :=
  app_run (p_config pr) = true /\ Forall (fun q => size_ q = n + 1) (msgQueues pr) /\ app_rep pr qs.

(** From the queues [qs] in [w] the specification's turn from [off] explains what was added to the trace. *)
Definition explained (i : nat) (ss : heap (EventHandler U)) (off : Z) (qs : list (list MsgPackage)) (w w' : W) : Prop :=
  exists tr qs', w_trace w' = w_trace w ++ tr /\ turn_events h n i ss off tr qs qs' /\ mailboxes (processor (w_env w')) qs'.

Definition idle (w w' : W) : Prop :=
  processor (w_env w') = processor (w_env w) /\
  exists tr, w_trace w' = w_trace w ++ tr /\ Forall (fun e => app_silent e = true) tr.

#[local] Instance idle_preorder : PreOrder idle.
Proof.
  split.
  - intros w. split; [done|]. exists []. by rewrite app_nil_r.
  - intros w1 w2 w3 (E1&t1&T1&F1) (E2&t2&T2&F2). split; [congruence|]. exists (t1 ++ t2). rewrite T2, T1, app_assoc.
    split; [done|]. by apply Forall_app.
Qed.

Lemma idle_explained i ss off qs w w' : mailboxes (processor (w_env w)) qs -> idle w w' -> explained i ss off qs w w'.
Proof. intros Hm (E&tr&T&F). exists tr, qs. split_and!; [done|by apply turn_silent|by rewrite E]. Qed.

Lemma idle_then i ss off qs w w1 w2 : idle w w1 -> explained i ss off qs w1 w2 -> explained i ss off qs w w2.
Proof.
  intros (E&t1&T1&F1) (t2&qs'&T2&Ht&Hm). exists (t1 ++ t2), qs'. rewrite T2, T1, app_assoc. split_and!; [done|by apply turn_silent_app|done].
Qed.

Lemma idle_emit e w : app_silent e = true -> idle w (mk_world (w_kernel w) (w_errno w) (w_trace w ++ [e]) (w_sessions w) (w_env w)).
Proof. intros He. split; [done|]. exists [e]. split; [done|]. by constructor. Qed.

Lemma idle_quiet p w w' : quiet SendBufSize p w w' -> idle w w'.
Proof.
  intros (E&_&(tr&T&Q)&_). split; [by rewrite E|]. exists tr. split; [done|]. eapply Forall_impl; [exact Q|]. by intros [].
Qed.

Section Relation.
Context (R : W -> W -> Prop) `{!PreOrder R} (idle_R : forall w w', idle w w' -> R w w').

Lemma rel_bind {A C} (m : M W A) (k : A -> M W C) w :
  wlp m (fun _ w' => R w w') w -> (forall a w1, wlp (k a) (fun _ w' => R w1 w') w1) -> wlp (bind m k) (fun _ w' => R w w') w.
Proof.
  intros Hm Hk. apply wlp_bind. eapply wlp_mono; [exact Hm|]. cbv beta. intros a w1 H1. eapply wlp_mono; [apply Hk|].
  cbv beta. intros c w2 H2. by transitivity w1.
Qed.

Lemma rel_call c w : wlp (sys_call c) (fun _ w' => R w w') w.
Proof. apply wlp_sys_call, idle_R, (idle_emit (TSys c _)). done. Qed.
Lemma rel_ret {A} (a : A) w : wlp (ret a) (fun _ w' => R w w') w.
Proof. apply wlp_ret. reflexivity. Qed.
Lemma rel_sys_ret c w : wlp (sys_ret c) (fun _ w' => R w w') w.
Proof. apply wlp_sys_ret, idle_R, (idle_emit (TSys c _)). done. Qed.
Lemma rel_ignore c w : wlp (sys_ignore c) (fun _ w' => R w w') w.
Proof. apply wlp_sys_ignore, idle_R, (idle_emit (TSys c _)). done. Qed.
Lemma rel_gets {A} (g : W -> A) w : wlp (gets g) (fun _ w' => R w w') w.
Proof. apply wlp_gets. reflexivity. Qed.
Lemma rel_deref {A} (o : option A) w : wlp (deref o) (fun _ w' => R w w') w.
Proof. apply wlp_deref. intros. reflexivity. Qed.
Lemma rel_assert b w : wlp (c_assert false b) (fun _ w' => R w w') w.
Proof. apply wlp_assert. reflexivity. Qed.
Lemma rel_session p w : wlp (session p) (fun _ w' => R w w') w.
Proof. apply wlp_session. intros. reflexivity. Qed.
Lemma rel_emit e w : app_silent e = true -> wlp (emit e) (fun _ w' => R w w') w.
Proof. intros He. by apply wlp_emit, idle_R, idle_emit. Qed.
Lemma rel_put p s w : wlp (put_session p s) (fun _ w' => R w w') w.
Proof. apply wlp_put_session. intros s0 Hs0. apply idle_R. split; [done|]. exists []. by rewrite app_nil_r. Qed.
Lemma rel_update (g : epoll_env -> epoll_env) w : (forall e, processor (g e) = processor e) -> wlp (update g) (fun _ w' => R w w') w.
Proof. intros Hg. apply wlp_modify, idle_R. split; [apply Hg|]. exists []. by rewrite app_nil_r. Qed.
Lemma rel_callback p c w : wlp (callback_on SendBufSize h false p c) (fun _ w' => R w w') w.
Proof using All.
  destruct (heap_get (w_sessions w) p) as [s|] eqn:Hs.
  - apply wlp_wp. eapply wp_mono; [apply (run_callback_quiet SendBufSize h false SendBufSize_int eq_refl); eauto|].
    cbv beta. intros [] w' Hq. by eapply idle_R, idle_quiet.
  - destruct c; [apply rel_ret|..]; unfold wlp, callback_on, run_callback, send, async_send, close, bind, session; by rewrite Hs.
Qed.

(** One operation after the other, whatever the branches. *)
Ltac rel_step :=
  match goal with
  | |- wlp (bind _ _) _ _ => apply rel_bind; [|intros ? ?]
  | |- wlp (ret _) _ _ => apply rel_ret
  | |- wlp (sys_call _) _ _ => apply rel_call
  | |- wlp (sys_ret _) _ _ => apply rel_sys_ret
  | |- wlp (sys_ignore _) _ _ => apply rel_ignore
  | |- wlp (gets _) _ _ => apply rel_gets
  | |- wlp (deref _) _ _ => apply rel_deref
  | |- wlp (c_assert _ _) _ _ => apply rel_assert
  | |- wlp (session _) _ _ => apply rel_session
  | |- wlp (put_session _ _) _ _ => apply rel_put
  | |- wlp (emit _) _ _ => apply rel_emit; reflexivity
  | |- wlp (update _) _ _ => apply rel_update; reflexivity
  | |- wlp (callback_on _ _ _ _ _) _ _ => apply rel_callback
  | |- wlp (throw _) _ _ => exact I
  | |- wlp throw_std _ _ => exact I
  | |- wlp undefined _ _ => exact I
  | |- wlp out_of_fuel _ _ => exact I
  | |- wlp (if ?b then _ else _) _ _ => destruct b
  | |- wlp (match ?b with Some _ => _ | None => _ end) _ _ => destruct b
  end.
Ltac rel_steps := cbv beta zeta; repeat (rel_step; cbv beta zeta).

Lemma rel_notify g e a w : wlp (notify g e a) (fun _ w' => R w w') w.
Proof using All. unfold notify, call_event. destruct g; rel_steps. Qed.

Lemma rel_release p w : wlp (factory_release p) (fun _ w' => R w w') w.
Proof using All.
  unfold wlp, factory_release. destruct (SessionFactory_release p (w_sessions w)) as [hp|]; [|done].
  apply idle_R, (idle_emit (TRelease p) (set_sessions hp w)). done.
Qed.

Lemma rel_create s w : wlp (factory_create s) (fun _ w' => R w w') w.
Proof using All.
  unfold wlp, factory_create. destruct (SessionFactory_create s (w_sessions w)) as [q hp].
  apply idle_R, (idle_emit (TCreate q) (set_sessions hp w)). done.
Qed.

Lemma rel_disconnect pfd p w : wlp (disconnect SendBufSize h false pfd p) (fun _ w' => R w w') w.
Proof using All. unfold disconnect. rel_steps; [apply rel_release|apply rel_notify]. Qed.

Lemma rel_writable p w : wlp (handle_writable p) (fun _ w' => R w w') w.
Proof using All. unfold handle_writable. rel_steps. Qed.

Lemma rel_error pfd p w : wlp (handle_error pfd p) (fun _ w' => R w w') w.
Proof using All. unfold handle_error. rel_steps. apply rel_release. Qed.

Lemma rel_other pfd p w : wlp (handle_other pfd p) (fun _ w' => R w w') w.
Proof using All. unfold handle_other. rel_steps. Qed.

Lemma rel_make_session g w : wlp (make_session RecvBufSize SendBufSize user_init create_null false g) (fun _ w' => R w w') w.
Proof using All. unfold make_session, call_event. rel_steps. apply rel_create. Qed.

Lemma rel_push p w : wlp (Scheduler_push SendBufSize h false p) (fun _ w' => R w w') w.
Proof using All. unfold Scheduler_push. rel_steps. Qed.

Lemma rel_accept i l w : wlp (accept_connection RecvBufSize SendBufSize h user_init create_null false i l) (fun _ w' => R w w') w.
Proof using All. unfold accept_connection, setSockNonBlock. rel_steps; [apply rel_make_session|apply rel_push]. Qed.

Lemma rel_connect i w : wlp (Connector_connect RecvBufSize SendBufSize h user_init create_null false i) (fun _ w' => R w w') w.
Proof using All.
  unfold Connector_connect, call_event, update_connector. rel_steps; [apply rel_make_session|apply rel_push].
Qed.

Lemma rel_keep_rest p readPos w : wlp (keep_rest RecvBufSize p readPos) (fun _ w' => R w w') w.
Proof using All. unfold keep_rest. rel_steps. Qed.
End Relation.

(** ** Posting and taking a message *)

Lemma enqueue_size {T} (q : spscqueue T) v : size_ (enqueue q v).2 = size_ q.
Proof. unfold enqueue. by destruct (_ =? _). Qed.

Lemma try_dequeue_size {T} (q q' : spscqueue T) o : try_dequeue q = Ok (o, q') -> size_ q' = size_ q.
Proof.
  unfold try_dequeue. destruct (_ =? _); [by intros [= <- <-]|]. destruct (zget _ _) as [[v|]|]; [|done..]. by intros [= <- <-].
Qed.

Lemma post_letter p procIdx m (w : W) qs : mailboxes (processor (w_env w)) qs ->
  wlp (post_message false p procIdx m)
    (fun _ w' => w_trace w' = w_trace w /\ w_sessions w' = w_sessions w /\ exists q, qs !! (Z.to_nat procIdx) = Some q /\
       mailboxes (processor (w_env w')) (<[Z.to_nat procIdx := offer n (mk_MsgPackage p m) q]> qs)) w.
Proof.
  intros (Hrun&Hsz&Hrep). destruct (zget (msgQueues (processor (w_env w))) procIdx) as [sq|] eqn:Hz.
  2: { unfold post_message. apply wlp_bind, wlp_gets, wlp_bind. by rewrite Hz. }
  apply wlp_wp. eapply wp_mono; [by apply (post_message_posted p procIdx m sq qs)|]. cbv beta. intros [] w' (pk&o&Ha&->).
  split_and!; [done..|]. unfold zget in Hz. destruct (procIdx <? 0); [done|].
  destruct (lookup_lt_is_Some_2 qs (Z.to_nat procIdx)) as [q Hq].
  { destruct Hrep as (cs&held&H1&_&_&_&H2). rewrite <- (Forall2_length _ _ _ H2), <- (Forall2_length _ _ _ H1). by eapply lookup_lt_Some. }
  exists q. split; [done|]. pose proof (Forall_lookup_1 _ _ _ _ Hsz Hz) as Hn. cbv beta in Hn. split_and!; cbn; [done| |].
  - apply Forall_insert; [done|]. by rewrite enqueue_size.
  - replace n with (size_ sq - 1) by lia. by eapply posted_rep.
Qed.

(** A packet offers its message at its place. *)
Lemma deliver_explained p procIdx readPos pkgLen s (w : W) qs : mailboxes (processor (w_env w)) qs -> heap_get (w_sessions w) p = Some s ->
  wlp (deliver SendBufSize h false p procIdx readPos pkgLen)
    (fun _ w' => exists q u tr, qs !! Z.to_nat procIdx = Some q /\ Forall (fun e => app_silent e = true) tr /\
       w_trace w' = w_trace w ++ TRecv p (slice readPos pkgLen (recvBuf s)) :: tr /\
       mailboxes (processor (w_env w'))
         (<[Z.to_nat procIdx := offer n (mk_MsgPackage p (parse_message h u (slice readPos pkgLen (recvBuf s)) readPos)) q]> qs) /\
       exists s', heap_get (w_sessions w') p = Some s' /\ recvBuf s' = recvBuf s /\ recvBufPos s' = recvBufPos s) w.
Proof using SendBufSize_int.
  intros Hqs Hs. pose proof Hqs as (Hrun&_). unfold deliver. apply wlp_bind, wlp_session. intros s0 Hs0. assert (s0 = s) as -> by congruence.
  set (packet := slice readPos pkgLen (recvBuf s)). apply wlp_bind, wlp_emit, wlp_bind. set (w1 := mk_world _ _ _ _ _).
  apply wlp_wp. eapply wp_mono; [apply (run_callback_quiet SendBufSize h false SendBufSize_int eq_refl); eauto|].
  cbv beta. intros [] w2 Hq. pose proof (idle_quiet p w1 w2 Hq) as (E2&tr&T2&F2). change (processor (w_env w1)) with (processor (w_env w)) in E2. destruct Hq as (_&_&_&_&Hq).
  destruct (Hq s Hs) as (s2&Hs2&_&_&Hb&Hpos&_). apply wlp_bind, wlp_gets. cbv beta. rewrite E2, Hrun.
  apply wlp_bind, wlp_session. intros s3 Hs3. assert (s3 = s2) as -> by congruence. rewrite Hb. fold packet.
  eapply wlp_mono; [apply (post_letter p procIdx _ w2 qs); by rewrite E2|]. cbv beta. intros [] w3 (T3&S3&q&Hq3&Hm).
  exists q, (user s2), tr. split_and!; [done..| |done|].
  - rewrite T3, T2. cbn. by rewrite <- app_assoc.
  - exists s2. rewrite S3. by split_and!.
Qed.

Context (rp : list byte -> Z) `{!FramingBounded rp}.
Hypothesis read_packet_is : forall u bs, read_packet h u bs = rp bs.
Hypothesis RecvBufSize_int : 0 < RecvBufSize <= INT_MAX.

(** The packets of an event lie one after the other. *)
Lemma recv_loop_explained fuel p procIdx readPos pkgLen s (w : W) qs ss : mailboxes (processor (w_env w)) qs ->
  heap_get (w_sessions w) p = Some s -> recv_inv RecvBufSize s -> 0 <= readPos <= recvBufPos s -> pkgLen <= INT_MAX ->
  wlp (recv_loop RecvBufSize SendBufSize h false fuel p procIdx readPos pkgLen)
    (fun _ w' => explained (Z.to_nat procIdx) ss readPos qs w w') w.
Proof using All.
  revert readPos pkgLen s w qs. induction fuel as [|fuel IH]; intros readPos pkgLen s w qs Hm Hs Hinv Hr Hlen; cbn [recv_loop];
    (destruct (Z.leb_spec pkgLen 0); [by apply wlp_ret, idle_explained|]); [done|].
  pose proof Hinv as [Hb Hp]. unfold INT_MAX in *. apply wlp_bind, wlp_session. intros s0 Hs0. assert (s0 = s) as -> by congruence.
  rewrite !u32_small by lia.
  assert (Hrest : forall r1 s1 w1 qs1, mailboxes (processor (w_env w1)) qs1 -> heap_get (w_sessions w1) p = Some s1 -> recv_inv RecvBufSize s1 -> 0 <= r1 <= recvBufPos s1 ->
    wlp (bind (session p) (fun s => if r1 <? u32 (recvBufPos s) then
        let pkgLen := read_packet h (user s) (slice r1 (recvBufPos s - r1) (recvBuf s)) in
        if pkgLen <=? 0 then keep_rest RecvBufSize p r1 else recv_loop RecvBufSize SendBufSize h false fuel p procIdx r1 pkgLen
      else put_session p (set_recv (recvBuf s) 0 s))) (fun _ w' => explained (Z.to_nat procIdx) ss r1 qs1 w1 w') w1).
  { intros r1 s1 w1 qs1 Hm1 Hs1 Hinv1 Hr1. apply wlp_bind, wlp_session. intros s2 Hs2. assert (s2 = s1) as -> by congruence.
    destruct (_ <? _).
    - cbv zeta. rewrite read_packet_is. pose proof (rp_bounded rp (slice r1 (recvBufPos s1 - r1) (recvBuf s1))) as Hbd.
      fold (unread s1 r1) in *. rewrite (zlen_unread _ _ _ Hinv1 Hr1) in Hbd. destruct (_ <=? 0).
      + eapply wlp_mono; [apply (rel_keep_rest idle (fun _ _ => id))|]. cbv beta. intros _ w'. by apply idle_explained.
      + eapply IH; [done..|]. destruct Hinv1. unfold INT_MAX. lia.
    - eapply wlp_mono; [apply (rel_put idle (fun _ _ => id))|]. cbv beta. intros _ w'. by apply idle_explained. }
  destruct (Z.leb_spec (readPos + pkgLen) (recvBufPos s)).
  - apply wlp_bind, wlp_bind. eapply wlp_mono; [by apply (deliver_explained p procIdx readPos pkgLen s w qs)|].
    cbv beta. intros [] w1 (q&u&tr&Hq&F&T1&Hm1&s1&Hs1&Hb1&Hp1). apply wlp_ret.
    eapply wlp_mono; [eapply Hrest; [done..|by unfold recv_inv; rewrite Hb1, Hp1|lia]|].
    cbv beta. intros _ w2 (tr2&qs2&T2&Ht2&Hm2). exists (TRecv p (slice readPos pkgLen (recvBuf s)) :: tr ++ tr2), qs2. split_and!; [|econstructor; [by apply ev_offer|]|done].
    + rewrite T2, T1, <- app_assoc. done.
    + cbn [packet_len]. replace (zlen (slice readPos pkgLen (recvBuf s))) with pkgLen by zlens. by apply turn_silent_app.
  - apply wlp_bind, wlp_ret. by eapply Hrest.
Qed.

Lemma event_explained `{!KernelLaws K} fuel procIdx pfd ev (w : W) qs ss : mailboxes (processor (w_env w)) qs ->
  (forall p s, heap_get (w_sessions w) p = Some s -> recv_inv RecvBufSize s) ->
  wlp (handle_event RecvBufSize SendBufSize h false fuel procIdx pfd ev) (fun _ w' => explained (Z.to_nat procIdx) ss 0 qs w w') w.
Proof using All.
  intros Hm Hinv. assert (Hidle : forall m : M W unit, wlp m (fun _ w' => idle w w') w -> wlp m (fun _ w' => explained (Z.to_nat procIdx) ss 0 qs w w') w).
  { intros m Hi. eapply wlp_mono; [exact Hi|]. cbv beta. intros _ w'. by apply idle_explained. }
  unfold handle_event. destruct (ev_data ev) as [|[p|]]; [done| |by apply Hidle, (rel_ret idle)].
  destruct (_ =? EPOLLIN).
  2: { destruct (_ =? EPOLLOUT); [apply Hidle, (rel_writable idle (fun _ _ => id))|].
       destruct (_ =? EPOLLERR); [apply Hidle, (rel_error idle (fun _ _ => id))|apply Hidle, (rel_other idle (fun _ _ => id))]. }
  unfold handle_readable. apply wlp_bind, wlp_session. intros s Hs. specialize (Hinv p s Hs). pose proof Hinv as [Hb Hp].
  apply wlp_bind, wlp_sys_call. pose proof (recv_law (w_kernel w) (fd s) (recv_size RecvBufSize s)) as Hl. set (c := Sys_recv (fd s) (recv_size RecvBufSize s)) in *.
  destruct (sys c (w_kernel w)) as [r k]. cbn [fst snd] in *. set (w1 := after_call c r k w). assert (Hw1 : idle w w1) by (apply (idle_emit (TSys c (sr_ret r))); done).
  assert (Hdis : wlp (disconnect SendBufSize h false pfd p) (fun _ w' => explained (Z.to_nat procIdx) ss 0 qs w w') w1).
  { eapply wlp_mono; [apply (rel_disconnect idle (fun _ _ => id))|]. cbv beta. intros _ w' Hi. by eapply idle_then, idle_explained. }
  destruct (Z.ltb_spec (sr_ret r) 0); [done|]. destruct (Z.eqb_spec (sr_ret r) 0); [done|]. destruct Hl as [Hle Hlen]; [unfold recv_size; lia|lia|].
  apply wlp_bind, wlp_emit. set (w2 := mk_world _ _ _ _ _). assert (Hw2 : idle w1 w2) by (apply (idle_emit (TChunk p (sr_data r))); done).
  apply wlp_bind, wlp_put_session. intros _ _. set (s3 := set_recv _ _ _). set (w3 := set_sessions _ _).
  assert (Hw3 : idle w w3) by (transitivity w1; [done|]; transitivity w2; [done|]; split; [done|]; exists []; by rewrite app_nil_r).
  assert (Hinv3 : recv_inv RecvBufSize s3).
  { unfold recv_size in *. destruct (pending_store RecvBufSize s (sr_data r) Hinv ltac:(lia)) as [Hx _]. rewrite <- Hlen in Hx. exact Hx. }
  eapply wlp_mono; [eapply (recv_loop_explained fuel p procIdx 0 _ s3 w3 qs ss); [exact Hm| |done|destruct Hinv3; lia|]|].
  - unfold heap_get. cbn. by rewrite lookup_insert_eq.
  - rewrite read_packet_is. etrans; [apply (rp_bounded rp)|]. destruct Hinv3 as [Hb3 Hp3]. cbn in Hb3, Hp3. transitivity RecvBufSize; [|lia]. zlens.
  - cbv beta. intros _ w'. by apply idle_then.
Qed.

Lemma app_queue_explained i (w : W) qs : mailboxes (processor (w_env w)) qs ->
  wlp (app_queue SendBufSize h false i) (fun _ w' => explained i (w_sessions w) 0 qs w w') w.
Proof using SendBufSize_int.
  intros (Hrun&Hsz&Hrep). unfold app_queue. apply wlp_bind, wlp_gets, wlp_bind, wlp_deref. intros q Hq.
  destruct (isEmpty q) eqn:Hne.
  { apply wlp_sys_ignore, idle_explained; [done|]. by apply (idle_emit (TSys (Sys_sleep 0) _)). }
  destruct (lookup_lt_is_Some_2 qs i) as [l Hl].
  { destruct Hrep as (cs&held&H1&_&_&_&H2). rewrite <- (Forall2_length _ _ _ H2), <- (Forall2_length _ _ _ H1). by eapply lookup_lt_Some. }
  destruct (taken_rep i q _ qs l Hrep Hq Hl Hne) as (m&l'&pk&q'&o&->&Hdq&Hpk&Ho&Hrep').
  apply wlp_bind. eapply wlp_lift; [exact Hdq|]. unfold update_processor, update. apply wlp_bind, wlp_modify, wlp_bind, wlp_gets, wlp_bind, wlp_deref.
  cbn [w_env set_env processor set_processor packages set_queues msgQueues]. intros m' Hm'. assert (m' = m) as -> by congruence.
  unfold call_on_message. set (w1 := set_env _ w). apply wlp_bind, wlp_bind, wlp_session. intros s Hs.
  apply wlp_bind, wlp_emit. set (w2 := mk_world _ _ _ _ _).
  apply wlp_wp. eapply wp_mono; [apply (run_callback_quiet SendBufSize h false SendBufSize_int eq_refl); by exists s|].
  cbv beta. intros [] w3 Hqt. pose proof (idle_quiet _ w2 w3 Hqt) as (_&tr&T3&F3). destruct Hqt as (E3&_).
  change (w_env w2) with (w_env w1) in E3. apply wlp_bind, wlp_gets, wlp_bind. rewrite E3. eapply wlp_lift; [exact Ho|].
  apply wlp_modify. exists (TMessage (pkg_session m) (message_bytes s (pkg_message m)) :: tr), (<[i := l']> qs). cbn [w_trace w_env set_env]. rewrite E3. split_and!.
  - rewrite T3. cbn. by rewrite <- app_assoc.
  - econstructor; [by eapply ev_take|]. by apply turn_silent.
  - split_and!; [exact Hrun| |exact Hrep']. cbn. apply Forall_insert; [done|]. rewrite (try_dequeue_size _ _ _ Hdq). by apply (Forall_lookup_1 _ _ _ _ Hsz Hq).
Qed.

Lemma step_explained `{!KernelLaws K} (w w' : W) i qs : mailboxes (processor (w_env w)) qs ->
  (forall p s, heap_get (w_sessions w) p = Some s -> recv_inv RecvBufSize s) ->
  server_step_at w w' i -> explained i (w_sessions w) 0 qs w w'.
Proof using All.
  intros Hm Hinv [fuel procIdx pfd ev _ _ Hrun|j l Hrun|j r Hrun|j Hrun].
  - by apply (wlp_Ok _ _ _ _ _ (event_explained fuel procIdx pfd ev w qs (w_sessions w) Hm Hinv) Hrun).
  - apply idle_explained; [done|]. exact (wlp_Ok _ _ _ _ _ (rel_accept idle (fun _ _ => id) j l w) Hrun).
  - apply idle_explained; [done|]. exact (wlp_Ok _ _ _ _ _ (rel_connect idle (fun _ _ => id) j w) Hrun).
  - exact (wlp_Ok _ _ _ _ _ (app_queue_explained j w qs Hm) Hrun).
Qed.
End Pipeline.

(** Every run of a service that is in order follows the specification, and every state it
    reaches is reached by a run with its turns. *)
Section Runs.
Context {K U : Type} `{Kernel K, !KernelLaws K}.
Context (RecvBufSize SendBufSize : Z) (h : IEventHandler U) (user_init : U) (create_null : bool) (n : Z).
Context (rp : list byte -> Z) `{!FramingLaw rp} (read_packet_is : forall u bs, read_packet h u bs = rp bs).
Context (SendBufSize_int : 0 < SendBufSize <= INT_MAX) (RecvBufSize_int : 0 < RecvBufSize <= INT_MAX).
Local Abbreviation W := (world K (EventHandler U) epoll_env).

Definition in_order (w : W) (qs : list (list MsgPackage)) : Prop :=
  server_inv RecvBufSize SendBufSize rp w /\ mailboxes n (processor (w_env w)) qs.

Lemma in_order_step (w w' : W) i qs : in_order w qs -> server_step_at RecvBufSize SendBufSize h user_init create_null w w' i ->
  exists tr qs', w_trace w' = w_trace w ++ tr /\ turn_events h n i (w_sessions w) 0 tr qs qs' /\ in_order w' qs'.
Proof using All.
  intros [Hinv Hm] Hst. assert (Hr : forall p s, heap_get (w_sessions w) p = Some s -> recv_inv RecvBufSize s).
  { intros p s Hs. destruct Hinv as ((_&Hst'&_)&_). by destruct (Hst' p s Hs) as [[? _] _]. }
  destruct (step_explained RecvBufSize SendBufSize h user_init create_null n SendBufSize_int rp read_packet_is RecvBufSize_int w w' i qs Hm Hr Hst)
    as (tr&qs'&T&Ht&Hm'). exists tr, qs'. split; [done|]. split; [done|]. split; [|done].
  refine (server_step_inv RecvBufSize SendBufSize h user_init create_null rp read_packet_is SendBufSize_int RecvBufSize_int w w' Hinv _).
  apply server_step_at_iff. eauto.
Qed.

Lemma run_replay w0 l w qs0 : in_order w0 qs0 -> server_run RecvBufSize SendBufSize h user_init create_null w0 l w ->
  exists qs, replay h n l qs0 qs /\ in_order w qs.
Proof using All.
  intros H0 Hr. induction Hr as [|l w i w' tr _ IH Hst HT]; [exists qs0; split; [constructor|done]|].
  destruct IH as (qs&Hrp&Hio). destruct (in_order_step w w' i qs Hio Hst) as (tr'&qs'&HT'&Ht&Hio').
  assert (tr' = tr) as -> by (rewrite HT in HT'; by apply app_inv_head in HT'). exists qs'. split; [by econstructor|done].
Qed.

Lemma run_exists w0 w qs0 : in_order w0 qs0 -> rtc (server_step RecvBufSize SendBufSize h user_init create_null) w0 w ->
  exists l, server_run RecvBufSize SendBufSize h user_init create_null w0 l w.
Proof using All.
  intros H0 Hr. apply (rtc_invariant _ (fun w => exists l, server_run RecvBufSize SendBufSize h user_init create_null w0 l w)) in Hr; [done| |eexists; constructor].
  intros a b [l Hl] Hab. apply server_step_at_iff in Hab as [i Hi]. destruct (run_replay w0 l a qs0 H0 Hl) as (qs&_&Hio).
  destruct (in_order_step a b i qs Hio Hi) as (tr&_&HT&_). eexists. by econstructor.
Qed.
End Runs.

(** C9. The way of a message, end to end, for any message class (a message of its own or, as the
    library's default, a pointer into the receive buffer).  Every state a service with an
    application thread reaches is reached by a run of turns, each made by a processor or for a queue;
    and every such run is one of the specification [replay]: each packet offers what [parse_message]
    makes of it, at its place in the buffer, to the queue of the processor that polled the event, and
    each [on_message] is the oldest message of the queue the application thread serves, for the session it was
    received on, its bytes read from that session as the turn found it; the queues hold what the
    specification holds.  So the messages a queue gave and those it still holds are its offers in
    order, less those that found [n] messages waiting; and when the session of the oldest message is
    alive, the application thread's next turn on the queue calls [on_message] with it.  The session class
    keeps the framing contract, the kernel the laws of its calls. *)
Theorem messages_reach_application {K U : Type} `{Kernel K} (RecvBufSize SendBufSize : Z) (h : IEventHandler U) (user_init : U)
    (create_null : bool) (rp : list byte -> Z) (n : Z) (w0 w : world K (EventHandler U) epoll_env) :
  KernelLaws K -> FramingLaw rp -> (forall u bs, read_packet h u bs = rp bs) ->
  0 < SendBufSize <= INT_MAX -> 0 < RecvBufSize <= INT_MAX -> 0 <= n ->
  service_ready w0 -> app_run (p_config (processor (w_env w0))) = true ->
  Forall (fun q => size_ q = n + 1) (msgQueues (processor (w_env w0))) ->
  (rtc (server_step RecvBufSize SendBufSize h user_init create_null) w0 w ->
     exists l, server_run RecvBufSize SendBufSize h user_init create_null w0 l w) /\
  forall l, server_run RecvBufSize SendBufSize h user_init create_null w0 l w ->
    exists qs, replay h n l (replicate (length (msgQueues (processor (w_env w0)))) []) qs /\ mailboxes n (processor (w_env w)) qs /\
      (forall i q, qs !! i = Some q -> zlen q <= n /\ queue_moved h [] q (packets_at i l) (messages_at i l)) /\
      (forall i m q s, qs !! i = Some (m :: q) -> heap_get (w_sessions w) (pkg_session m) = Some s ->
         exists w' tr, app_queue SendBufSize h false i w = (Ok tt, w') /\
           w_trace w' = w_trace w ++ TMessage (pkg_session m) (message_bytes s (pkg_message m)) :: tr /\
           Forall (fun e => quiet_event e = true) tr).
Proof.
  intros HK HF Hrp HS HR Hn H0 Hrun Hsz. set (N := length (msgQueues (processor (w_env w0)))) in *.
  assert (Hio : in_order RecvBufSize SendBufSize n rp w0 (replicate N [])).
  { split; [by apply service_ready_inv|]. destruct H0 as (_&_&Hrep&_). by split_and!. }
  split; [by apply (run_exists RecvBufSize SendBufSize h user_init create_null n rp Hrp HS HR w0 w _ Hio)|]. intros l Hl.
  destruct (run_replay RecvBufSize SendBufSize h user_init create_null n rp Hrp HS HR w0 l w _ Hio Hl) as (qs&HRp&_&HM).
  exists qs. split_and!; [done..| |].
  - intros i q Hq. assert (Hi : replicate N [] !! i = Some ([] : list MsgPackage)).
    { apply lookup_replicate_2. apply lookup_lt_Some in Hq. by rewrite (replay_length _ _ _ _ _ HRp), length_replicate in Hq. }
    destruct (replay_fifo h n l _ qs i [] HRp Hi) as (q'&Hq'&Hlen&Hsub); [done|]. assert (q' = q) as -> by congruence. done.
  - intros i m q s Hq Hs. destruct HM as (_&_&Hms).
    destruct (wp_Ok _ _ _ (app_queue_taken SendBufSize h HS i m q qs s w Hms Hq Hs)) as ([]&w'&Hrun'&_&tr&HT'&Hq').
    exists w', tr. by split_and!.
Qed.

(** *** A run *)

(** Packets start with their length; the message is a pointer to the packet, as in the default
    [parse_message]. *)
Definition viewing : IEventHandler nat := {|
  read_packet := fun _ bs => length_prefixed bs;
  on_connect := CDone; on_disconnect := CDone; on_recv := fun _ => CDone; on_message := fun _ => CDone;
  on_send := fun u _ _ _ => u; parse_message := fun _ _ off => InBuf off
|}.

Definition pipe_w0 : world script (EventHandler nat) epoll_env :=
  mk_world [sys_result 7; sys_result 0; sys_result 0; sys_result 0; mk_sysret 5 0 [x02; x41; x02; x42; x03] [] [];
            mk_sysret 3 0 [x43; x44; x05] [] []] 0 [] heap_empty
    (set_processor (set_setup app_config None (set_queues (replicate 2 (mk_spscqueue 101 (replicate 101 None) 0 0)) (Processor_new_with true)))
       (TCPService_new true)).

Lemma two_queues_rep : app_rep (processor (w_env pipe_w0)) [[]; []].
Proof.
  assert (Hq : ring_rep (mk_spscqueue (T:=ptr) 101 (replicate 101 None) 0 0) []) by (apply (spscqueue_new_rep false 100); [unfold INT_MAX; lia|reflexivity]).
  exists [[]; []], []. split_and!; [apply List.Forall2_cons; [exact Hq|]; apply List.Forall2_cons; [exact Hq|constructor]|apply pool_init_inv|constructor| |by repeat constructor].
  intros x Hx. cbn in Hx. by apply not_elem_of_nil in Hx.
Qed.

Definition pipe_ev : epoll_event := mk_epoll_event EPOLLIN (DPtr (Some 1%positive)).
Definition pipe_w1 := (accept_connection 16 16 viewing 0%nat false false 0 demo_listener pipe_w0).2.
Definition pipe_w2 := (handle_event 16 16 viewing false 16 1 0 pipe_ev pipe_w1).2.
Definition pipe_w3 := (app_queue 16 viewing false 1 pipe_w2).2.
Definition pipe_w4 := (handle_event 16 16 viewing false 16 1 0 pipe_ev pipe_w3).2.
(** A connection; two packets and a piece, polled by processor 1; the first message is taken, the rest of
    the stream arrives, and the second message is taken. *)
Definition pipe_end := (app_queue 16 viewing false 1 pipe_w4).2.

(** What a step added to the trace. *)
Definition added (w w' : world script (EventHandler nat) epoll_env) : list trace_event := drop (length (w_trace w)) (w_trace w').

Definition pipe_turns : list (turn nat) :=
  [mk_turn 0 (w_sessions pipe_w0) (added pipe_w0 pipe_w1); mk_turn 1 (w_sessions pipe_w1) (added pipe_w1 pipe_w2);
   mk_turn 1 (w_sessions pipe_w2) (added pipe_w2 pipe_w3); mk_turn 1 (w_sessions pipe_w3) (added pipe_w3 pipe_w4);
   mk_turn 1 (w_sessions pipe_w4) (added pipe_w4 pipe_end)].

Lemma pipe_event_at w w' : handle_event 16 16 viewing false 16 1 0 pipe_ev w = (Ok tt, w') ->
  length (msgQueues (processor (w_env w))) = 2%nat -> server_step_at 16 16 viewing 0%nat false w w' 1.
Proof. intros Hrun Hl. apply (at_event 16 16 viewing 0%nat false w w' 16 1 0 pipe_ev); [done|rewrite Hl; lia|done]. Qed.

Lemma pipe_reachable : server_run 16 16 viewing 0%nat false pipe_w0 pipe_turns pipe_end.
Proof.
  apply (run_step _ _ _ _ _ _ [_; _; _; _] pipe_w4); [|apply at_app; vm_compute; reflexivity|vm_compute; reflexivity].
  apply (run_step _ _ _ _ _ _ [_; _; _] pipe_w3); [|apply pipe_event_at; vm_compute; reflexivity|vm_compute; reflexivity].
  apply (run_step _ _ _ _ _ _ [_; _] pipe_w2); [|apply at_app; vm_compute; reflexivity|vm_compute; reflexivity].
  apply (run_step _ _ _ _ _ _ [_] pipe_w1); [|apply pipe_event_at; vm_compute; reflexivity|vm_compute; reflexivity].
  apply (run_step _ _ _ _ _ _ [] pipe_w0); [constructor|apply (at_accept _ _ _ _ _ _ _ 0 demo_listener); vm_compute; reflexivity|vm_compute; reflexivity].
Qed.

(** Both messages are read after the bytes of their packets were overwritten. *)
Lemma messages_reach_application_witness :
  packets_at 1 pipe_turns = [(1%positive, [x02; x41], 0); (1%positive, [x02; x42], 2); (1%positive, [x03; x43; x44], 0)] /\
  (fun x => take 3 x.2) <$> messages_at 1 pipe_turns = [[x03; x00; x02]; [x44; x05; x03]] /\
  exists qs, replay viewing 100 pipe_turns [[]; []] qs /\ mailboxes 100 (processor (w_env pipe_end)) qs /\
    forall i q, qs !! i = Some q -> zlen q <= 100 /\ queue_moved viewing [] q (packets_at i pipe_turns) (messages_at i pipe_turns).
Proof.
  split; [vm_compute; reflexivity|]. split; [vm_compute; reflexivity|].
  destruct (proj2 (messages_reach_application 16 16 viewing 0%nat false length_prefixed 100 pipe_w0 pipe_end _ _ (fun _ _ => eq_refl)
    ltac:(unfold INT_MAX; lia) ltac:(unfold INT_MAX; lia) ltac:(lia)
    ltac:(split_and!; [reflexivity|intros p; split; reflexivity|apply two_queues_rep|reflexivity]) eq_refl ltac:(by repeat constructor))
    pipe_turns pipe_reachable) as (qs&HR&HM&HQ&_).
  exists qs. split_and!; [exact HR|exact HM|exact HQ].
Defined.
