(* ===== verification/EpollService.v ===== *)
(** * Starting, stopping and accepting in the epoll back end

    The assignment of connections to processors, the start of the processors' threads, every
    path of a listener's start, and how failures reach the caller. *)

From S2P Require Import Prelude Heap NetApi SendBuffer SpscQueue ObjectPool Os EpollSession EpollNet EpollApp.

Section Service.
Context {K U : Type} `{Kernel K}.
Context (RecvBufSize SendBufSize : Z) (h : IEventHandler U) (user_init : U) (create_null : bool) (dbg : bool).
Local Abbreviation W := (world K (EventHandler U) epoll_env).

(** ** Threads *)

(** The operating system can always start a thread. *)
Definition threads_start : Prop := forall k t, 0 <= sr_ret (sys (Sys_thread t) k).1.

Lemma wp_start_thread t (Q : unit -> W -> Prop) w :
  threads_start ->
  Q tt (after_call (Sys_thread t) (sys (Sys_thread t) (w_kernel w)).1 (sys (Sys_thread t) (w_kernel w)).2 w) ->
  wp (start_thread t) Q w.
Proof.
  intros Ht HQ. unfold start_thread. wp_steps. specialize (Ht (w_kernel w) t).
  destruct (Z.ltb_spec (sr_ret (sys (Sys_thread t) (w_kernel w)).1) 0); [lia|]. by apply wp_ret.
Qed.

(** What starting the processors [from .. from + n - 1] leaves. *)
Definition started_processors (from : Z) (n : nat) (w w' : W) : Prop :=
  scheder (w_env w') = scheder (w_env w) /\ lstListener (w_env w') = lstListener (w_env w) /\
  lstConnector (w_env w') = lstConnector (w_env w) /\ w_sessions w' = w_sessions w /\
  p_config (processor (w_env w')) = p_config (processor (w_env w)) /\
  isRunning (processor (w_env w')) = isRunning (processor (w_env w)) /\
  factory (processor (w_env w')) = factory (processor (w_env w)) /\
  msgPool (processor (w_env w')) = msgPool (processor (w_env w)) /\
  packages (processor (w_env w')) = packages (processor (w_env w)) /\
  appThread (processor (w_env w')) = appThread (processor (w_env w)) /\
  procThreads (processor (w_env w')) = procThreads (processor (w_env w)) ++ map ProcThread (seqZ from (Z.of_nat n)) /\
  (exists qs, msgQueues (processor (w_env w')) = msgQueues (processor (w_env w)) ++ qs /\
     length qs = n /\ Forall (fun q => size_ q = 101 /\ ring_rep q []) qs) /\
  exists rs, length rs = n /\
    w_trace w' = w_trace w ++ zip_with (fun i r => TSys (Sys_thread (ProcThread i)) r) (seqZ from (Z.of_nat n)) rs.

Lemma started_trans i n w1 w2 w3 :
  started_processors i 1 w1 w2 -> started_processors (i + 1) n w2 w3 -> started_processors i (S n) w1 w3.
Proof.
  unfold started_processors.
  intros (?&?&?&?&?&?&?&?&?&?&P1&(q1&Q1&L1&F1)&(r1&R1&T1)) (?&?&?&?&?&?&?&?&?&?&P2&(q2&Q2&L2&F2)&(r2&R2&T2)).
  assert (Hz : seqZ i (Z.of_nat (S n)) = seqZ i 1 ++ seqZ (i + 1) (Z.of_nat n)).
  { rewrite Nat2Z.inj_succ, <- Z.add_1_l. by rewrite seqZ_app by lia. }
  split_and!; try congruence.
  - rewrite P2, P1, Hz, map_app. by rewrite app_assoc.
  - exists (q1 ++ q2). rewrite Q2, Q1, app_assoc, length_app. split_and!; [done|lia|]. by apply Forall_app.
  - exists (r1 ++ r2). rewrite length_app. split; [lia|].
    rewrite T2, T1, Hz, zip_with_app by (rewrite length_seqZ; lia). by rewrite app_assoc.
Qed.

Lemma start_one_processor i w :
  threads_start ->
  wp (bind (lift (spscqueue_new true dbg 100)) (fun q =>
        bind (update_processor (fun p => set_queues (msgQueues p ++ [q]) p)) (fun _ =>
        bind (start_thread (ProcThread i)) (fun _ =>
        update_processor (fun p => set_threads (procThreads p ++ [ProcThread i]) p)))))
    (fun _ w' => started_processors i 1 w w') w.
Proof.
  intros Ht. apply wp_bind. set (q := mk_spscqueue 101 (replicate 101 None) 0 0 : spscqueue ptr).
  assert (Hq : spscqueue_new true dbg 100 = Ok q) by (by destruct dbg).
  eapply wp_intro; [unfold lift; by rewrite Hq|]. unfold update_processor, update. wp_steps.
  apply wp_start_thread; [done|]. wp_steps.
  split_and!; try done.
  - exists [q]. split_and!; [done|done|]. constructor; [|constructor].
    apply (spscqueue_new_rep dbg 100); [unfold INT_MAX; lia|done].
  - eexists [_]. split; [done|]. cbn. reflexivity.
Qed.

Lemma start_all_processors n i w :
  threads_start ->
  wp (for_each (seqZ i (Z.of_nat n)) (fun i =>
        bind (lift (spscqueue_new true dbg 100)) (fun q =>
        bind (update_processor (fun p => set_queues (msgQueues p ++ [q]) p)) (fun _ =>
        bind (start_thread (ProcThread i)) (fun _ =>
        update_processor (fun p => set_threads (procThreads p ++ [ProcThread i]) p))))))
    (fun _ w' => started_processors i n w w') w.
Proof.
  intros Ht. revert i w. induction n as [|n IH]; intros i w.
  - cbn. apply wp_ret. unfold started_processors; cbn. split_and!; try done.
    + by rewrite app_nil_r.
    + exists []. by rewrite app_nil_r.
    + exists []. by rewrite app_nil_r.
  - rewrite Nat2Z.inj_succ, seqZ_cons by lia. cbn [for_each]. apply wp_bind.
    eapply wp_mono; [by apply start_one_processor|]. cbv beta. intros [] w1 H1.
    rewrite Z.pred_succ. replace (Z.succ i) with (i + 1) by lia.
    eapply wp_mono; [apply IH|]. cbv beta. intros [] w2 H2. by eapply started_trans.
Qed.

(** ** Assigning a connection to a processor *)

(** [Scheduler::push] on a started scheduler. *)
Lemma scheduler_push_spec p s w :
  0 < SendBufSize <= INT_MAX -> dbg = false ->
  heap_get (w_sessions w) p = Some s ->
  0 < sched_threads (scheder (w_env w)) <= MAX_THREAD ->
  zlen (procFds (scheder (w_env w))) = MAX_THREAD ->
  let idx := u32 (fd s) mod sched_threads (scheder (w_env w)) in
  exists pfd w' s' r tr,
    zget (procFds (scheder (w_env w))) idx = Some pfd /\
    Scheduler_push SendBufSize h dbg p w = (Ok tt, w') /\
    heap_get (w_sessions w') p = Some s' /\ procFd s' = pfd /\ fd s' = fd s /\
    Forall (fun e => quiet_event e = true) tr /\
    w_trace w' = w_trace w ++
      [TSys (Sys_epoll_ctl pfd EPOLL_CTL_ADD (fd s)
               (Some (mk_epoll_event (Z.lor EPOLLIN EPOLLERR) (DPtr (Some p))))) r; TConnect p] ++ tr.
Proof.
  intros HS Hd Hs Ht Hl idx. set (sch := scheder (w_env w)) in *.
  assert (Hidx : 0 <= idx < sched_threads sch) by (apply Z.mod_pos_bound; lia).
  destruct (proj2 (zget_some_iff (procFds sch) idx)) as [pfd Hpfd]; [lia|].
  assert (Hwp : wp (Scheduler_push SendBufSize h dbg p) (fun _ w' =>
    exists s' r tr, heap_get (w_sessions w') p = Some s' /\ procFd s' = pfd /\ fd s' = fd s /\
      Forall (fun e => quiet_event e = true) tr /\
      w_trace w' = w_trace w ++
        [TSys (Sys_epoll_ctl pfd EPOLL_CTL_ADD (fd s)
                 (Some (mk_epoll_event (Z.lor EPOLLIN EPOLLERR) (DPtr (Some p))))) r; TConnect p] ++ tr) w).
  { unfold Scheduler_push. wp_steps. fold sch. destruct (Z.eqb_spec (sched_threads sch) 0); [lia|].
    apply wp_bind. eapply wp_deref; [exact Hpfd|]. wp_steps. eapply wp_put_session; [exact Hs|]. wp_steps.
    set (w3 := mk_world _ _ _ _ _).
    assert (Hs3 : heap_get (w_sessions w3) p = Some (set_procFd pfd s))
      by (unfold heap_get; cbn; apply lookup_insert_eq).
    eapply wp_mono; [apply (run_callback_quiet SendBufSize h dbg HS Hd); eauto|]. cbv beta.
    intros [] w' (_&_&(tr&HT&Hq)&_&HSs). destruct (HSs _ Hs3) as (s'&Hs'&Hf&Hp&_).
    exists s'. do 1 eexists. exists tr. split_and!; [done..|]. rewrite HT. cbn. by rewrite <- !app_assoc. }
  destruct (wp_Ok _ _ _ Hwp) as ([]&w'&Hrun&s'&r&tr&?). exists pfd, w', s', r, tr. by split.
Qed.
End Service.

(** ** Properties *)

(** A connection is served by the processor [fd % threads]: on a started scheduler (1 to
    MAX_THREAD threads) [push] never leaves the array, records that processor's epoll descriptor
    in the session, registers the connection there for EPOLLIN and EPOLLERR with the session's
    address, and only then calls [on_connect]. *)
Theorem scheduler_push_assigns {K U : Type} `{Kernel K} (SendBufSize : Z) (h : IEventHandler U)
    (w : world K (EventHandler U) epoll_env) (p : ptr) (s : EventHandler U) :
  0 < SendBufSize <= INT_MAX -> heap_get (w_sessions w) p = Some s ->
  0 < sched_threads (scheder (w_env w)) <= MAX_THREAD ->
  zlen (procFds (scheder (w_env w))) = MAX_THREAD ->
  let idx := u32 (fd s) mod sched_threads (scheder (w_env w)) in
  0 <= idx < sched_threads (scheder (w_env w)) /\
  exists pfd w' s' r tr,
    zget (procFds (scheder (w_env w))) idx = Some pfd /\
    Scheduler_push SendBufSize h false p w = (Ok tt, w') /\
    heap_get (w_sessions w') p = Some s' /\ procFd s' = pfd /\ fd s' = fd s /\
    Forall (fun e => quiet_event e = true) tr /\
    w_trace w' = w_trace w ++
      [TSys (Sys_epoll_ctl pfd EPOLL_CTL_ADD (fd s)
               (Some (mk_epoll_event (Z.lor EPOLLIN EPOLLERR) (DPtr (Some p))))) r; TConnect p] ++ tr.
Proof.
  intros HS Hs Ht Hl idx. split; [apply Z.mod_pos_bound; lia|]. by apply scheduler_push_spec.
Qed.

(** A started scheduler with three processors, whose epoll descriptors are 100, 101, ... *)
Definition three_processors : world script (EventHandler unit) epoll_env :=
  mk_world [] 0 []
    (mk_heap {[ 1%positive := set_peer 11 None None OwnNone true (EventHandler_new 16 16 tt) ]} 2%positive)
    (set_scheder (mk_Scheduler 3 (seqZ 100 50) 3) (TCPService_new true)).

Lemma scheduler_push_assigns_witness :
  exists pfd w' s' r tr, zget (seqZ 100 50) 2 = Some pfd /\
    Scheduler_push 16 EventHandler_default false 1%positive three_processors = (Ok tt, w') /\
    heap_get (w_sessions w') 1%positive = Some s' /\ procFd s' = pfd /\ fd s' = 11 /\
    Forall (fun e => quiet_event e = true) tr /\
    w_trace w' = [TSys (Sys_epoll_ctl pfd EPOLL_CTL_ADD 11
               (Some (mk_epoll_event 9 (DPtr (Some 1%positive))))) r; TConnect 1%positive] ++ tr.
Proof.
  refine (proj2 (scheduler_push_assigns 16 EventHandler_default three_processors 1%positive
    (set_peer 11 None None OwnNone true (EventHandler_new 16 16 tt)) _ eq_refl _ _)).
  - unfold INT_MAX; lia.
  - cbn. unfold MAX_THREAD. lia.
  - reflexivity.
Defined.

(** What a start of [n] processors leaves: they are started in order, each after its own empty
    message queue was added, the scheduler spreads connections over [n], and the application
    thread comes last, when the configuration asks for it. *)
Definition processors_running {K U : Type} (cfg : Properties) (n : Z)
    (w w' : world K (EventHandler U) epoll_env) : Prop :=
  isRunning (processor (w_env w')) = true /\ sched_threads (scheder (w_env w')) = n /\
  p_config (processor (w_env w')) = cfg /\ w_sessions w' = w_sessions w /\
  procThreads (processor (w_env w')) = procThreads (processor (w_env w)) ++ map ProcThread (seqZ 0 n) /\
  (exists qs, msgQueues (processor (w_env w')) = msgQueues (processor (w_env w)) ++ qs /\
     zlen qs = n /\ Forall (fun q => size_ q = 101 /\ ring_rep q []) qs) /\
  exists rs ra, zlen rs = n /\
    w_trace w' = w_trace w ++
      zip_with (fun i r => TSys (Sys_thread (ProcThread i)) r) (seqZ 0 n) rs ++
      (if app_run cfg then [TSys (Sys_thread AppThread) ra] else []).

Lemma processor_start_running {K U : Type} `{Kernel K} dbg cfg f n (w : world K (EventHandler U) epoll_env) :
  threads_start -> isRunning (processor (w_env w)) = false ->
  clamp_threads (threads cfg) = n -> 0 <= n <= MAX_THREAD ->
  wp (Processor_start dbg cfg f) (fun a w' => a = 0 /\ processors_running cfg n w w') w.
Proof.
  intros Ht Hrun Hn Hn0. unfold MAX_THREAD in Hn0.
  assert (Hk : Z.of_nat (Z.to_nat n) = n) by lia.
  assert (Hu : u32 n = n) by (apply u32_small; lia).
  unfold Processor_start. wp_steps. rewrite Hrun. unfold update_processor at 1, update_scheder, update. wp_steps.
  rewrite Hn, Hu, <- Hk. eapply wp_mono; [by apply start_all_processors|]. cbv beta. rewrite Hk.
  intros [] w2 (E1&_&_&E2&E3&E4&_&_&_&_&E5&(qs&E6&E7&E8)&rs&E9&E10). cbn in *.
  rewrite Hk in E5, E10. wp_steps.
  destruct (app_run cfg) eqn:Happ; cbn [when].
  - apply wp_bind, wp_start_thread; [done|]. unfold update_processor, update. wp_steps. split; [done|].
    unfold processors_running. cbn. rewrite E1, E2, E3, E4, E5, Happ. split_and!; try done.
    + exists qs. split_and!; [done|lia|done].
    + exists rs. eexists. split; [lia|]. rewrite E10, <- app_assoc. reflexivity.
  - wp_steps. split; [done|]. unfold processors_running. rewrite E1, E2, E3, E4, E5, Happ. split_and!; try done.
    + exists qs. split_and!; [done|lia|done].
    + exists rs, 0. split; [lia|]. by rewrite E10, app_nil_r.
Qed.

(** [Processor::start] when threads can be created: a running processor is left alone;
    otherwise exactly min(threads, MAX_THREAD) processor threads are started as
    [processors_running] says. *)
Theorem processor_start_correct {K U : Type} `{Kernel K} (dbg : bool) (cfg : Properties) (f : EventHandleFunc)
    (w : world K (EventHandler U) epoll_env) :
  threads_start -> 0 <= threads cfg ->
  exists w', Processor_start dbg cfg f w = (Ok 0, w') /\
    if isRunning (processor (w_env w)) then w' = w
    else processors_running cfg (Z.min (threads cfg) MAX_THREAD) w w'.
Proof.
  intros Ht Hc. destruct (isRunning (processor (w_env w))) eqn:Hrun.
  { exists w. split; [|done]. unfold Processor_start, bind, gets. by rewrite Hrun. }
  destruct (wp_Ok _ _ _ (processor_start_running dbg cfg f (Z.min (threads cfg) MAX_THREAD) w Ht Hrun
    ltac:(unfold clamp_threads; destruct (Z.ltb_spec MAX_THREAD (threads cfg)); lia)
    ltac:(unfold MAX_THREAD; lia))) as (a&w'&Hw&->&?).
  by exists w'.
Qed.

(** The scripted kernel without a script starts every thread. *)
#[export] Instance idle_kernel : Kernel unit := fun c k => (clamp_ret c (sys_result 0), k).

Lemma idle_threads : threads_start (K:=unit).
Proof. intros k t. cbn. lia. Qed.

Definition many_threads : Properties := mk_Properties false true true 10 1 1000 None.

Lemma processor_start_correct_witness :
  exists w' : world unit (EventHandler unit) epoll_env,
    Processor_start true many_threads None (mk_world tt 0 [] heap_empty (TCPService_new true)) = (Ok 0, w') /\
    processors_running many_threads 50 (mk_world tt 0 [] heap_empty (TCPService_new true)) w'.
Proof.
  apply (processor_start_correct true many_threads None (mk_world tt 0 [] heap_empty (TCPService_new true))).
  - apply idle_threads.
  - cbn. lia.
Defined.

(** ** Every path of a listener's start *)

(** The calls between [socket] and [bind]: SO_REUSEADDR exactly when the configuration asks for it,
    then the socket's flags are read and, when that worked, written back with O_NONBLOCK. *)
Definition setup_calls_of (ru : bool) (s : Z) (setup : list trace_event) : Prop :=
  exists ro opts flags, setup = (if ru then [TSys (Sys_setsockopt_reuseaddr s 1) ro] else []) ++ TSys (Sys_fcntl s F_GETFL 0) opts :: flags /\
    if opts <? 0 then flags = [] else exists rs, flags = [TSys (Sys_fcntl s F_SETFL (Z.lor opts O_NONBLOCK)) rs].

(** The value returned, the listener's descriptor and thread afterwards, and the calls made. *)
Inductive listen_result (ru : bool) (i : nat) (l : Listener) : Z -> Z -> bool -> list trace_event -> Prop :=
| listen_socket_failed :
    listen_result ru i l (NetRet_value RET_ERR_SOCKET) (-1) (runThread l) [TSys Sys_socket (-1)]
| listen_bind_failed s setup rc :
    s <> -1 -> setup_calls_of ru s setup ->
    listen_result ru i l (NetRet_value RET_ERR_BIND) s (runThread l)
      (TSys Sys_socket s :: setup ++ [TSys (Sys_bind s (l_ip l) (htons (l_port l))) (-1);
                                      TSys (Sys_close s) rc])
| listen_listen_failed s setup rb rc :
    s <> -1 -> setup_calls_of ru s setup -> rb <> -1 ->
    listen_result ru i l (NetRet_value RET_ERR_LISTEN) s (runThread l)
      (TSys Sys_socket s :: setup ++ [TSys (Sys_bind s (l_ip l) (htons (l_port l))) rb;
                                      TSys (Sys_listen s (l_backlogs l)) (-1); TSys (Sys_close s) rc])
| listen_thread_failed s setup rb rl rt rc :
    s <> -1 -> setup_calls_of ru s setup -> rb <> -1 -> rl <> -1 -> rt < 0 ->
    listen_result ru i l (NetRet_value RET_OK) (-1) (runThread l)
      (TSys Sys_socket s :: setup ++ [TSys (Sys_bind s (l_ip l) (htons (l_port l))) rb;
                                      TSys (Sys_listen s (l_backlogs l)) rl;
                                      TSys (Sys_thread (ListenThread i)) rt; TSys (Sys_close s) rc])
| listen_started s setup rb rl rt :
    s <> -1 -> setup_calls_of ru s setup -> rb <> -1 -> rl <> -1 -> 0 <= rt ->
    listen_result ru i l (NetRet_value RET_OK) s true
      (TSys Sys_socket s :: setup ++ [TSys (Sys_bind s (l_ip l) (htons (l_port l))) rb;
                                      TSys (Sys_listen s (l_backlogs l)) rl;
                                      TSys (Sys_thread (ListenThread i)) rt]).

Section ListenerStart.
Context {K U : Type} `{Kernel K}.
Local Abbreviation W := (world K (EventHandler U) epoll_env).

(** The world with a longer trace and another environment. *)
Definition traced (w w' : W) (tr : list trace_event) : Prop := w_trace w' = w_trace w ++ tr.

Lemma setup_calls s b (w : W) :
  wp (bind (when b (sys_ignore (Sys_setsockopt_reuseaddr s 1))) (fun _ => setSockNonBlock s))
    (fun _ w' => exists tr, traced w w' tr /\ setup_calls_of b s tr /\
       w_env w' = w_env w /\ w_sessions w' = w_sessions w) w.
Proof.
  apply wp_bind. set (Q := fun (_ : unit) (w' : W) => exists ro, traced w w' (if b then [TSys (Sys_setsockopt_reuseaddr s 1) ro] else []) /\
    w_env w' = w_env w /\ w_sessions w' = w_sessions w).
  eapply wp_mono with (Q := Q).
  - apply wp_when; intros ->; [wp_steps; by eexists|]. exists 0. unfold traced. by rewrite app_nil_r.
  - intros [] w1 (ro&HT&HE&HS). unfold setSockNonBlock. wp_steps. set (opts := sr_ret _). unfold traced in *. destruct (opts <? 0) eqn:Ho; wp_steps; cbn; rewrite HT, <- !app_assoc.
    + eexists. split; [reflexivity|]. split; [|done]. exists ro, opts, []. by rewrite Ho.
    + eexists. split; [reflexivity|]. split; [|done]. exists ro, opts. eexists. split; [reflexivity|]. rewrite Ho. by eexists.
Qed.

Lemma wpe_assoc {S A B C} (m : M S A) (n : M S B) (k : B -> M S C) Q E s :
  wpe (bind (bind m (fun _ => n)) k) Q E s -> wpe (bind m (fun _ => bind n k)) Q E s.
Proof. unfold wpe. by rewrite <- bind_assoc. Qed.

Definition listener_after (ru : bool) (i : nat) (l : Listener) (f : EventHandleFunc) (w : W) (r : Z) (w' : W) : Prop :=
  exists l' tr, lstListener (w_env w') !! i = Some l' /\ l_isRunning l' = true /\ l_evtHandler l' = f /\
    w_trace w' = w_trace w ++ tr /\ listen_result ru i l r (lisFd l') (runThread l') tr.

Lemma wp_update_listener i g l (Q : unit -> W -> Prop) w :
  lstListener (w_env w) !! i = Some l ->
  (forall w', lstListener (w_env w') !! i = Some (g l) -> w_trace w' = w_trace w -> Q tt w') ->
  wp (update_listener i g) Q w.
Proof.
  intros Hl HQ. unfold update_listener, update. apply wp_modify, HQ; [|done].
  cbn. by rewrite list_lookup_alter_eq, Hl.
Qed.

(** A call seen through the listener and the trace. *)
Lemma wp_listener_call i c l tr (Q : Z -> W -> Prop) (w0 w : W) :
  lstListener (w_env w) !! i = Some l -> w_trace w = w_trace w0 ++ tr ->
  (forall r w', lstListener (w_env w') !! i = Some l -> w_trace w' = w_trace w0 ++ tr ++ [TSys c r] -> Q r w') ->
  wp (sys_ret c) Q w.
Proof. intros Hl HT HQ. apply wp_sys_ret, HQ; [done|]. cbn. by rewrite HT, app_assoc. Qed.

Lemma wp_listener_ignore i c l tr (Q : unit -> W -> Prop) (w0 w : W) :
  lstListener (w_env w) !! i = Some l -> w_trace w = w_trace w0 ++ tr ->
  (forall r w', lstListener (w_env w') !! i = Some l -> w_trace w' = w_trace w0 ++ tr ++ [TSys c r] -> Q tt w') ->
  wp (sys_ignore c) Q w.
Proof. intros Hl HT HQ. apply wp_sys_ignore, (HQ (sr_ret (sys c (w_kernel w)).1)); [done|]. cbn. by rewrite HT, app_assoc. Qed.

Lemma bind_and_listen_paths ru i s l l1 f setup (w0 w : W) :
  s <> -1 -> setup_calls_of ru s setup -> w_trace w = w_trace w0 ++ TSys Sys_socket s :: setup ->
  lstListener (w_env w) !! i = Some l1 -> lisFd l1 = s -> runThread l1 = runThread l ->
  l_isRunning l1 = true -> l_evtHandler l1 = f ->
  l_ip l1 = l_ip l -> l_port l1 = l_port l -> l_backlogs l1 = l_backlogs l ->
  wpe (bind_and_listen i s l1) (listener_after ru i l f w0)
    (fun w' => wp (listen_catch i) (listener_after ru i l f w0) w') w.
Proof.
  intros Hs HF HT Hl Hfd Hth Hrun Hev Hip Hport Hbl. unfold bind_and_listen. rewrite Hip, Hport, Hbl.
  apply wpe_bind, wpe_wp. eapply wp_listener_call; [exact Hl|exact HT|]. intros rb w1 Hl1 HT1.
  destruct (Z.eqb_spec rb (-1)) as [->|Hrb].
  { apply wpe_wp, wp_bind. eapply wp_listener_ignore; [exact Hl1|exact HT1|]. intros rc w2 Hl2 HT2. wp_steps.
    exists l1. eexists. split_and!; [done..|exact HT2|]. rewrite Hth, Hfd. cbn. rewrite <- !app_assoc.
    by apply listen_bind_failed. }
  apply wpe_bind, wpe_wp. eapply wp_listener_call; [exact Hl1|exact HT1|]. intros rl w2 Hl2 HT2.
  destruct (Z.eqb_spec rl (-1)) as [->|Hrl].
  { apply wpe_wp, wp_bind. eapply wp_listener_ignore; [exact Hl2|exact HT2|]. intros rc w3 Hl3 HT3. wp_steps.
    exists l1. eexists. split_and!; [done..|exact HT3|]. rewrite Hth, Hfd. cbn. rewrite <- !app_assoc.
    by apply listen_listen_failed. }
  apply wpe_bind. unfold start_thread. apply wpe_bind, wpe_wp.
  eapply wp_listener_call; [exact Hl2|exact HT2|]. intros rt w3 Hl3 HT3.
  destruct (Z.ltb_spec rt 0) as [Hrt|Hrt].
  - change (wp (listen_catch i) (listener_after ru i l f w0) w3). unfold listen_catch. wp_steps.
    eapply wp_deref; [exact Hl3|]. rewrite Hfd. destruct (Z.eqb_spec s (-1)); [done|]. cbn [negb when].
    apply wp_bind, wp_bind. eapply wp_listener_ignore; [exact Hl3|exact HT3|]. intros rc w4 Hl4 HT4.
    eapply wp_update_listener; [exact Hl4|]. intros w5 Hl5 HT5. wp_steps.
    exists (set_lisFd (-1) l1). eexists. split_and!; [done..|rewrite HT5; exact HT4|].
    cbn. rewrite Hth, <- !app_assoc. by apply listen_thread_failed.
  - apply wpe_wp, wp_ret, wpe_wp, wp_bind. eapply wp_update_listener; [exact Hl3|]. intros w4 Hl4 HT4. wp_steps.
    eexists. eexists. split_and!; [exact Hl4|done|done|rewrite HT4; exact HT3|].
    cbn. rewrite Hfd, <- !app_assoc. by apply listen_started.
Qed.

Lemma listener_start_paths i l cfg f (w : W) :
  lstListener (w_env w) !! i = Some l -> wp (Listener_start i cfg f) (listener_after (reuse cfg) i l f w) w.
Proof.
  intros Hl. unfold Listener_start. apply wp_bind.
  eapply wp_update_listener; [exact Hl|]. intros w1 Hl1 HT1. apply wp_catch_all.
  apply wpe_bind, wpe_wp. eapply (wp_listener_call i _ _ [] _ w); [exact Hl1|by rewrite app_nil_r|].
  intros s w2 Hl2 HT2. cbn in HT2.
  apply wpe_bind, wpe_wp. eapply wp_update_listener; [exact Hl2|]. intros w3 Hl3 HT3. rewrite HT2 in HT3.
  apply wpe_bind, wpe_wp, wp_gets. apply wpe_bind, wpe_wp. eapply wp_deref; [exact Hl3|].
  destruct (Z.eqb_spec s (-1)) as [->|Hs].
  { apply wpe_wp, wp_ret. do 2 eexists. split_and!; [exact Hl3|done|done|exact HT3|].
    apply (listen_socket_failed _ i l). }
  apply wpe_assoc. apply wpe_bind, wpe_wp. eapply wp_mono; [apply setup_calls|]. cbv beta.
  intros [] w4 (setup&HT4&HF&HE4&_). unfold traced in HT4. rewrite HT3, <- app_assoc in HT4.
  rewrite <- HE4 in Hl3. by eapply bind_and_listen_paths.
Qed.
End ListenerStart.

(** C26. Every path of [Listener::start], whatever the kernel answers, with the calls it makes one
    by one ([listen_result]): [socket]; SO_REUSEADDR exactly when [config.reuse] is set; the socket
    made non-blocking where its flags can be read; [bind] to the listener's address, [listen] with
    its backlog, the thread.  It returns the documented code of the call that failed, and unless
    the listening thread runs, the descriptor was closed again (or never opened).  A thread that cannot
    be started is the one failure the caller does not see: the descriptor is closed and 0 is
    returned. *)
Theorem listener_start_complete {K U : Type} `{Kernel K} (i : nat) (l : Listener) (cfg : Properties)
    (f : EventHandleFunc) (w : world K (EventHandler U) epoll_env) :
  lstListener (w_env w) !! i = Some l ->
  exists r w' l' tr, Listener_start i cfg f w = (Ok r, w') /\
    lstListener (w_env w') !! i = Some l' /\ l_isRunning l' = true /\ l_evtHandler l' = f /\
    w_trace w' = w_trace w ++ tr /\ listen_result (reuse cfg) i l r (lisFd l') (runThread l') tr.
Proof.
  intros Hl. destruct (wp_Ok _ _ _ (listener_start_paths i l cfg f w Hl)) as (r&w'&?&l'&tr&?).
  by exists r, w', l', tr.
Qed.

(** A service with one listener. *)
Definition one_listener {K} (k : K) : world K (EventHandler unit) epoll_env :=
  mk_world k 0 [] heap_empty
    (set_listeners [mk_Listener 0 80 5 (-1) false false None] (TCPService_new true)).

Lemma listener_start_complete_witness :
  exists r w' l' tr, Listener_start 0 Properties_default None
      (one_listener [sys_result 7; sys_result 0; sys_result 2; sys_result 0; sys_error 98]) = (Ok r, w') /\
    lstListener (w_env w') !! 0%nat = Some l' /\ l_isRunning l' = true /\ l_evtHandler l' = None /\
    w_trace w' = [] ++ tr /\
    listen_result (reuse Properties_default) 0 (mk_Listener 0 80 5 (-1) false false None) r (lisFd l') (runThread l') tr.
Proof.
  apply (listener_start_complete 0 (mk_Listener 0 80 5 (-1) false false None) Properties_default None
    (one_listener [sys_result 7; sys_result 0; sys_result 2; sys_result 0; sys_error 98])).
  reflexivity.
Defined.

(** The listener's event test: [EPOLLIN == events & EPOLLIN] compares before it masks, so a
    connection is accepted only when EPOLLIN is the one flag set; any other event of the
    listening descriptor, EPOLLIN with EPOLLERR included, is dropped without a trace. *)
Theorem listener_drops_combined_events {K U : Type} `{Kernel K} (RecvBufSize SendBufSize : Z)
    (h : IEventHandler U) (user_init : U) (create_null dbg : bool) (i : nat) (l : Listener) (evs : Z)
    (w : world K (EventHandler U) epoll_env) :
  lstListener (w_env w) !! i = Some l -> evs <> EPOLLIN ->
  listen_event RecvBufSize SendBufSize h user_init create_null dbg i (mk_epoll_event evs (DFd (lisFd l))) w
  = (Ok tt, w).
Proof.
  intros Hl He. unfold listen_event. rewrite (bind_Ok _ _ w (w_env w) w) by done.
  rewrite (bind_Ok _ _ w l w) by (unfold deref; by rewrite Hl). cbn [ev_data ev_events].
  destruct (Z.eqb_spec EPOLLIN evs); [done|]. by rewrite andb_false_r.
Qed.

Lemma listener_drops_combined_events_witness :
  Z.land (Z.lor EPOLLIN EPOLLERR) EPOLLIN = EPOLLIN /\
  listen_event 16 16 EventHandler_default tt false true 0
    (mk_epoll_event (Z.lor EPOLLIN EPOLLERR) (DFd (-1))) (one_listener []) = (Ok tt, one_listener []).
Proof.
  split; [reflexivity|].
  apply (listener_drops_combined_events 16 16 EventHandler_default tt false true 0
    (mk_Listener 0 80 5 (-1) false false None) _ (one_listener [])); [reflexivity|discriminate].
Defined.

(** [Listener::stop] on a listener that runs closes its descriptor and the scheduler's epoll
    descriptor and joins the thread, but the running flag stays true: the loop of [run] can only
    end by a failing [epoll_wait]. *)
Theorem listener_stop_keeps_flag {K U : Type} `{Kernel K} (i : nat) (l : Listener)
    (w : world K (EventHandler U) epoll_env) :
  lstListener (w_env w) !! i = Some l -> l_isRunning l = true -> runThread l = true ->
  exists w' l' r1 r2 r3, Listener_stop i w = (Ok tt, w') /\
    lstListener (w_env w') !! i = Some l' /\ l_isRunning l' = true /\ runThread l' = false /\
    w_trace w' = w_trace w ++ [TSys (Sys_close (lisFd l)) r1; TSys (Sys_close (epollFd (scheder (w_env w)))) r2;
                               TSys (Sys_join (ListenThread i)) r3].
Proof.
  intros Hl Hr Ht.
  assert (Hwp : wp (Listener_stop i) (fun _ w' => exists l' r1 r2 r3,
    lstListener (w_env w') !! i = Some l' /\ l_isRunning l' = true /\ runThread l' = false /\
    w_trace w' = w_trace w ++ [TSys (Sys_close (lisFd l)) r1; TSys (Sys_close (epollFd (scheder (w_env w)))) r2;
                               TSys (Sys_join (ListenThread i)) r3]) w).
  { unfold Listener_stop. wp_steps. eapply wp_deref; [exact Hl|]. rewrite Hr, Ht. cbn [negb when]. wp_steps.
    eapply wp_update_listener; [exact Hl|]. intros w' Hl' HT'. eexists. do 3 eexists.
    split_and!; [exact Hl'|done|done|]. rewrite HT'. cbn. rewrite <- !app_assoc. reflexivity. }
  destruct (wp_Ok _ _ _ Hwp) as ([]&w'&?&l'&r1&r2&r3&?). by exists w', l', r1, r2, r3.
Qed.

Definition listening : world unit (EventHandler unit) epoll_env :=
  mk_world tt 0 [] heap_empty
    (set_listeners [mk_Listener 0 80 5 7 true true None] (TCPService_new true)).

Lemma listener_stop_keeps_flag_witness :
  exists w' l' r1 r2 r3, Listener_stop 0 listening = (Ok tt, w') /\
    lstListener (w_env w') !! 0%nat = Some l' /\ l_isRunning l' = true /\ runThread l' = false /\
    w_trace w' = [] ++ [TSys (Sys_close 7) r1; TSys (Sys_close 0) r2; TSys (Sys_join (ListenThread 0)) r3].
Proof.
  apply (listener_stop_keeps_flag 0 (mk_Listener 0 80 5 7 true true None) listening); reflexivity.
Defined.

(** A refused connection: [Connector::connect] returns RET_ERR_CONNECT after telling the
    event function, and leaves the socket open (no close follows); without an event function the
    call of the empty [std::function] throws out of [start]. *)
Theorem connect_refused {K U : Type} `{Kernel K} (RecvBufSize SendBufSize : Z) (h : IEventHandler U)
    (user_init : U) (create_null dbg : bool) (i : nat) (c : Connector) (w : world K (EventHandler U) epoll_env) :
  lstConnector (w_env w) !! i = Some c ->
  let s := sr_ret (sys Sys_socket (w_kernel w)).1 in
  let k := (sys Sys_socket (w_kernel w)).2 in
  s <> -1 -> sr_ret (sys (Sys_connect s (c_ip c) (htons (c_port c))) k).1 = -1 ->
  exists w', Connector_connect RecvBufSize SendBufSize h user_init create_null dbg i w =
      (match c_evtHandler c with Some _ => Ok (NetRet_value RET_ERR_CONNECT) | None => ThrowStd end, w') /\
    w_sessions w' = w_sessions w /\
    w_trace w' = w_trace w ++ [TSys Sys_socket s; TSys (Sys_connect s (c_ip c) (htons (c_port c))) (-1)] ++
      notified (c_evtHandler c) EVT_CONNECT_FAIL None.
Proof.
  intros Hc s k Hs Hr. unfold Connector_connect. rewrite bind_sys_ret. fold s k.
  set (w1 := after_call _ _ _ w). 
  rewrite (bind_Ok (update_connector i _) _ w1 tt _ eq_refl).
  set (w2 := set_env _ w1). rewrite (bind_Ok (gets w_env) _ w2 (w_env w2) w2 eq_refl).
  set (c2 := mk_Connector (c_ip c) (c_port c) (Some s) (c_session c) (c_evtHandler c)).
  rewrite (bind_Ok _ _ w2 c2 w2) by (unfold deref; cbn; by rewrite list_lookup_alter_eq, Hc).
  destruct (Z.eqb_spec s (-1)); [done|]. rewrite bind_sys_ret.
  change (w_kernel w2) with k. cbn [c_ip c_port c2]. rewrite Hr. cbn [Z.eqb c_evtHandler].
  destruct (c_evtHandler c) as [g|]; cbn.
  - eexists. split; [reflexivity|]. cbn. split; [done|]. by rewrite Hr, <- !app_assoc.
  - eexists. split; [reflexivity|]. cbn. split; [done|]. by rewrite Hr, <- !app_assoc.
Qed.

Definition one_connector (f : EventHandleFunc) : world script (EventHandler unit) epoll_env :=
  mk_world [sys_result 7; sys_error 111] 0 [] heap_empty
    (set_connectors [mk_Connector 0 80 None None f] (TCPService_new true)).

Lemma connect_refused_witness :
  exists w', Connector_connect 16 16 EventHandler_default tt false false 0 (one_connector None) = (ThrowStd, w') /\
    w_sessions w' = heap_empty /\
    w_trace w' = [] ++ [TSys Sys_socket 7; TSys (Sys_connect 7 0 80) (-1)] ++ [].
Proof.
  refine (connect_refused 16 16 EventHandler_default tt false false 0 (mk_Connector 0 80 None None None)
    (one_connector None) eq_refl _ eq_refl). discriminate.
Defined.

Lemma join_all {K U : Type} `{Kernel K} ts (w : world K (EventHandler U) epoll_env) :
  exists w' rs, for_each ts (fun t => sys_ignore (Sys_join t)) w = (Ok tt, w') /\
    w_env w' = w_env w /\ w_sessions w' = w_sessions w /\ length rs = length ts /\
    w_trace w' = w_trace w ++ zip_with (fun t r => TSys (Sys_join t) r) ts rs.
Proof.
  revert w. induction ts as [|t ts IH]; intros w; cbn [for_each].
  - exists w, []. by rewrite app_nil_r.
  - set (r := sys (Sys_join t) (w_kernel w)).
    rewrite (bind_Ok _ _ w tt (after_call (Sys_join t) r.1 r.2 w))
      by (unfold sys_ignore, sys_call, bind; fold r; by destruct r).
    destruct (IH (after_call (Sys_join t) r.1 r.2 w)) as (w'&rs&->&?&?&?&HT).
    exists w', (sr_ret r.1 :: rs). cbn. split_and!; [done..|lia|]. rewrite HT. cbn. by rewrite <- app_assoc.
Qed.

(** [Processor::stop] joins the application thread even when the configuration never started
    one: on a running processor without [app_run] it closes the scheduler's descriptor, joins the
    processors, drops their queues, and then throws out of [join]. *)
Theorem processor_stop_without_app {K U : Type} `{Kernel K} (w : world K (EventHandler U) epoll_env) :
  isRunning (processor (w_env w)) = true -> appThread (processor (w_env w)) = false ->
  exists w' r rs, Processor_stop w = (ThrowStd, w') /\
    isRunning (processor (w_env w')) = false /\ procThreads (processor (w_env w')) = [] /\
    msgQueues (processor (w_env w')) = [] /\ length rs = length (procThreads (processor (w_env w))) /\
    w_trace w' = w_trace w ++ TSys (Sys_close (epollFd (scheder (w_env w)))) r ::
      zip_with (fun t r => TSys (Sys_join t) r) (procThreads (processor (w_env w))) rs.
Proof.
  intros Hr Ha. unfold Processor_stop. rewrite (bind_Ok (gets _) _ w (processor (w_env w)) w eq_refl).
  rewrite Hr, Ha. cbn [negb]. unfold update_processor, update.
  set (w1 := set_env (set_processor (set_running false (processor (w_env w))) (w_env w)) w).
  rewrite bind_modify, bind_gets. fold w1. change (scheder (w_env w1)) with (scheder (w_env w)).
  set (w2 := after_call (Sys_close (epollFd (scheder (w_env w)))) (sys (Sys_close (epollFd (scheder (w_env w)))) (w_kernel w1)).1
    (sys (Sys_close (epollFd (scheder (w_env w)))) (w_kernel w1)).2 w1).
  rewrite (bind_Ok _ _ w1 tt w2) by (unfold sys_ignore, sys_call, bind, w2; by destruct (sys _ _)).
  destruct (join_all (procThreads (processor (w_env w))) w2) as (w3&rs&Hj&HE&HS&Hl&HT).
  rewrite (bind_Ok _ _ w2 tt w3 Hj). eexists. eexists. exists rs. split; [reflexivity|]. cbn.
  split_and!; [by rewrite HE|done|done|done|]. rewrite HT. cbn. rewrite <- app_assoc. reflexivity.
Qed.

Lemma processor_stop_without_app_witness :
  exists w' r rs, Processor_stop (K:=unit) (U:=unit)
      (mk_world tt 0 [] heap_empty (set_processor (set_running true (Processor_new_with true)) (TCPService_new true)))
      = (ThrowStd, w') /\
    isRunning (processor (w_env w')) = false /\ procThreads (processor (w_env w')) = [] /\
    msgQueues (processor (w_env w')) = [] /\ length rs = 0%nat /\
    w_trace w' = [] ++ TSys (Sys_close 0) r :: zip_with (fun t r => TSys (Sys_join t) r) [] rs.
Proof.
  apply (processor_stop_without_app (mk_world tt 0 [] heap_empty
    (set_processor (set_running true (Processor_new_with true)) (TCPService_new true)))); reflexivity.
Defined.
