(* ===== verification/EpollStart.v ===== *)
(** * From the constructor of a service to its invariant

    [TCPService::start], run on a service as its constructor left it, establishes the
    well-formedness ([service_inv]) that every step afterwards keeps, for a service with a session
    factory and for one without (the default argument of the constructor). *)

From S2P Require Import Prelude Heap NetApi SendBuffer SpscQueue ObjectPool Os EpollSession Framing EpollNet EpollApp EpollRecv EpollServer.

Section KeepsMore.
Context {S : Type}.

Lemma keeps_wlp {A} (I : S -> Prop) (m : M S A) s : keeps I m -> I s -> wlp m (fun _ => I) s.
Proof. intros Hm Hs. specialize (Hm s Hs). unfold wlp. by destruct (m s) as [[] ?]. Qed.

Lemma wlp_for_each {A} (I : S -> Prop) (l : list A) body s :
  (forall x s, I s -> wlp (body x) (fun _ => I) s) -> I s -> wlp (for_each l body) (fun _ => I) s.
Proof.
  intros Hb. revert s. induction l as [|x l IH]; intros s Hs; cbn; [done|]. apply wlp_bind. eapply wlp_mono; [by apply Hb|]. auto.
Qed.
End KeepsMore.

Section Start.
Context {K U : Type} `{Kernel K, !KernelLaws K}.
Context (RecvBufSize SendBufSize : Z) (h : IEventHandler U) (user_init : U) (create_null : bool).
Context (rp : list byte -> Z) `{!FramingLaw rp} (read_packet_is : forall u bs, read_packet h u bs = rp bs).
Context (SendBufSize_int : 0 < SendBufSize <= INT_MAX) (RecvBufSize_int : 0 < RecvBufSize <= INT_MAX).
Local Abbreviation W := (world K (EventHandler U) epoll_env).
Context (fact : bool).

(** The invariant of a service whose constructor was given a factory ([fact]) or none: streams, pool
    and queues in order, and without a factory no session at all. *)
Definition service_inv (w : W) : Prop :=
  stream_inv RecvBufSize SendBufSize rp w /\ pool_ok (processor (w_env w)) /\ factory (processor (w_env w)) = fact /\
  (fact = false -> w_sessions w = heap_empty).
Local Abbreviation J := service_inv.

Lemma J_silent (w w' : W) : J w -> silent SendBufSize w w' -> processor (w_env w') = processor (w_env w) ->
  w_sessions w' = w_sessions w -> J w'.
Proof using. intros (Hst&Hp&Hf&He0) Hs He Hss. unfold service_inv. rewrite He, Hss. split_and!; [by eapply stream_inv_silent|done..]. Qed.

Lemma start_call c : keeps J (sys_call c).
Proof using. intros w Hw. unfold sys_call. destruct (sys c (w_kernel w)) as [r k]. eapply J_silent; [done|apply silent_call|done..]. Qed.

Lemma start_sys_ret c : keeps J (sys_ret c).
Proof using. apply keeps_bind; [apply start_call|]. intros. apply keeps_ret. Qed.

Lemma start_sys_ignore c : keeps J (sys_ignore c).
Proof using. apply keeps_bind; [apply start_call|]. intros. apply keeps_ret. Qed.

Lemma start_thread_keeps t : keeps J (start_thread t).
Proof using. apply keeps_bind; [apply start_sys_ret|]. intros r. destruct (r <? 0); [apply keeps_throw_std|apply keeps_ret]. Qed.

Lemma start_emit e : (forall q, packets_of q [e] = [] /\ chunks_of q [e] = []) -> keeps J (emit e).
Proof using.
  intros He w Hw. eapply J_silent; [done| |done..]. apply (silent_intro _ _ _ [e]); done.
Qed.

Lemma start_notify f e a : keeps J (notify f e a).
Proof using.
  destruct f as [g|]; cbn; [|apply keeps_ret]. apply keeps_bind; [|intros; apply keeps_ret].
  apply keeps_bind; [|intros; apply keeps_ret]. by apply start_emit.
Qed.

Lemma start_update f : (forall e, processor (f e) = processor e) -> keeps J (update f).
Proof using.
  intros Hf. apply keeps_modify. intros w Hw. eapply J_silent; [done| |apply Hf|done]. apply (silent_intro _ _ _ []); [done| |done]. by rewrite app_nil_r.
Qed.

Lemma start_update_scheder f : keeps J (update_scheder f).
Proof using. by apply start_update. Qed.

Lemma start_update_listener i f : keeps J (update_listener i f).
Proof using. by apply start_update. Qed.

(** A change of the processor that keeps its queues, its pool and its factory. *)
Lemma start_update_processor (g : Processor -> Processor) :
  (forall pr, pool_ok pr -> pool_ok (g pr)) -> (forall pr, factory (g pr) = factory pr) -> keeps J (update_processor g).
Proof using.
  intros Hg Hfac. apply keeps_modify. intros w (Hst&Hp&Hf&He). split_and!; [|by apply Hg|cbn; by rewrite Hfac|done].
  eapply stream_inv_silent; [done|]. apply (silent_intro _ _ _ []); [done| |done]. by rewrite app_nil_r.
Qed.

(** A new queue. *)
Lemma pool_ok_queue pr q : ring_rep q [] -> pool_ok pr -> pool_ok (set_queues (msgQueues pr ++ [q]) pr).
Proof using.
  intros Hq (ms&cs&held&H1&H2&H3&H4&H5). exists (ms ++ [[]]), (cs ++ [[]]), held. cbn. rewrite concat_app. cbn. rewrite app_nil_r.
  split_and!; [apply Forall2_app; [done|by apply Forall2_cons; split]|done|done|done|].
  apply Forall2_app; [done|]. by repeat constructor.
Qed.

Lemma scheduler_start_keeps : keeps J (Scheduler_start false).
Proof using.
  unfold Scheduler_start, throw_errno. apply keeps_bind; [apply start_sys_ret|]. intros e. apply keeps_bind; [apply start_update_scheder|]. intros _.
  destruct (e =? -1); [auto with tinynet|]. apply keeps_bind; [apply start_sys_ret|]. intros r. apply keeps_bind; [apply keeps_assert|]. intros _.
  apply keeps_for_each. intros i. apply keeps_bind; [apply start_sys_ret|]. intros f. apply keeps_bind; [apply start_update_scheder|]. intros _.
  destruct (f =? -1); auto with tinynet.
Qed.

Lemma processor_start_keeps cfg f : keeps J (Processor_start false cfg f).
Proof using.
  unfold Processor_start. apply keeps_bind; [apply keeps_gets|]. intros pr. destruct (isRunning pr); [apply keeps_ret|].
  apply keeps_bind; [by apply start_update_processor|]. intros _. apply keeps_bind; [apply start_update_scheder|]. intros _.
  apply keeps_bind; [|intros _; apply keeps_bind; [|intros; apply keeps_ret]].
  - apply keeps_for_each. intros i w Hw. unfold bind at 1, lift. destruct (spscqueue_new true false 100) as [q| | | | |] eqn:Hq; try exact Hw.
    revert w Hw. change (keeps J (bind (update_processor (fun p : Processor => set_queues (msgQueues p ++ [q]) p))
      (fun _ => bind (start_thread (ProcThread i)) (fun _ => update_processor (fun p => set_threads (procThreads p ++ [ProcThread i]) p))))).
    apply keeps_bind; [apply start_update_processor; [|done]|].
    + intros p Hp. apply pool_ok_queue; [|done]. apply (spscqueue_new_rep false 100); [unfold INT_MAX; lia|done].
    + intros _. apply keeps_bind; [apply start_thread_keeps|]. intros _. by apply start_update_processor.
  - apply keeps_when. apply keeps_bind; [apply start_thread_keeps|]. intros _. by apply start_update_processor.
Qed.

Lemma listener_start_keeps i cfg f : keeps J (Listener_start i cfg f).
Proof using.
  unfold Listener_start, bind_and_listen, listen_catch, setSockNonBlock. apply keeps_bind; [apply start_update_listener|]. intros _.
  apply keeps_catch_all.
  - repeat first [apply start_sys_ret | apply start_sys_ignore | apply start_update_listener | apply start_thread_keeps | apply keeps_gets
      | apply keeps_deref | apply keeps_ret | apply keeps_when | apply keeps_bind; [|intros ?]
      | match goal with |- keeps _ (if ?b then _ else _) => destruct b end].
  - repeat first [apply start_sys_ignore | apply start_update_listener | apply keeps_gets | apply keeps_deref | apply keeps_ret
      | apply keeps_when | apply keeps_bind; [|intros ?]].
Qed.

(** Without a factory nobody makes a session. *)
Lemma no_factory_no_session g (w : W) : factory (processor (w_env w)) = false ->
  make_session RecvBufSize SendBufSize user_init create_null false g w = (Undefined, w).
Proof using. intros Hf. unfold make_session. rewrite (bind_Ok _ _ w (processor (w_env w)) w) by done. by rewrite Hf. Qed.

Lemma connect_kept i (w : W) : J w ->
  wlp (Connector_connect RecvBufSize SendBufSize h user_init create_null false i) (fun _ => J) w.
Proof using SendBufSize_int RecvBufSize_int.
  intros (Hst&Hp&Hf&He).
  assert (Hss : fact = false -> wlp (Connector_connect RecvBufSize SendBufSize h user_init create_null false i) (fun _ w' => w_sessions w' = w_sessions w) w).
  { intros Hf0. rewrite Hf0 in Hf. unfold Connector_connect, update_connector, update, call_event. wlp_steps. destruct (_ =? -1); [by wlp_steps|]. wlp_steps. destruct (_ =? -1).
    - destruct (c_evtHandler _); wlp_steps; done.
    - apply wlp_bind. unfold wlp. by rewrite no_factory_no_session. }
  pose proof (kept_connect RecvBufSize SendBufSize h user_init create_null SendBufSize_int RecvBufSize_int rp i w) as Hk.
  unfold wlp in *. destruct (Connector_connect _ _ _ _ _ _ _ _) as [[] w']; try done. destruct Hk as [Hk E].
  unfold service_inv. rewrite E. split_and!; [by apply Hk|done..|]. intros Hf0. rewrite (Hss Hf0). by apply He.
Qed.

Lemma service_start_keeps handler (w : W) : J w ->
  wlp (TCPService_start RecvBufSize SendBufSize h user_init create_null false handler) (fun _ => J) w.
Proof using SendBufSize_int RecvBufSize_int.
  intros Hw. unfold TCPService_start. apply wlp_bind. eapply wlp_mono; [apply keeps_wlp; [by apply start_update|done]|]. intros [] w1 Hw1.
  apply wlp_bind. eapply wlp_mono; [apply keeps_wlp; [apply scheduler_start_keeps|done]|]. intros [] w2 Hw2.
  apply wlp_bind, wlp_gets, wlp_bind. eapply wlp_mono; [apply keeps_wlp; [apply processor_start_keeps|done]|]. intros r w3 Hw3.
  apply wlp_bind. eapply wlp_mono; [apply (wlp_for_each J); [|done]|].
  { intros i w' Hw'. apply keeps_wlp; [|done]. apply keeps_bind; [apply listener_start_keeps|]. intros v. apply start_notify. }
  intros [] w4 Hw4. apply wlp_bind. eapply wlp_mono; [apply keeps_wlp; [apply start_sys_ignore|done]|]. intros [] w5 Hw5.
  apply wlp_bind. eapply wlp_mono; [apply (wlp_for_each J); [|done]|by intros].
  intros i w' Hw'. unfold Connector_start. apply wlp_bind, wlp_bind. eapply wlp_mono; [apply keeps_wlp; [by apply start_update|done]|].
  intros [] w6 Hw6. eapply wlp_mono; [by apply connect_kept|]. intros v w7 Hw7. by apply keeps_wlp; [apply start_notify|].
Qed.
End Start.

Section Running.
Context {K U : Type} `{Kernel K, !KernelLaws K}.
Context (RecvBufSize SendBufSize : Z) (h : IEventHandler U) (user_init : U) (create_null : bool).
Context (rp : list byte -> Z) `{!FramingLaw rp} (read_packet_is : forall u bs, read_packet h u bs = rp bs).
Context (SendBufSize_int : 0 < SendBufSize <= INT_MAX) (RecvBufSize_int : 0 < RecvBufSize <= INT_MAX).
Local Abbreviation W := (world K (EventHandler U) epoll_env).
Local Abbreviation J := (service_inv (K:=K) (U:=U) RecvBufSize SendBufSize rp).

Lemma service_inv_true (w : W) : J true w <-> server_inv RecvBufSize SendBufSize rp w.
Proof using. clear. unfold service_inv, server_inv. naive_solver. Qed.

(** Without a factory a listener that gets a connection calls [create] through a null pointer. *)
Lemma accept_no_factory i l (w : W) : factory (processor (w_env w)) = false -> 0 <= sr_ret (sys (Sys_accept (lisFd l)) (w_kernel w)).1 ->
  (accept_connection RecvBufSize SendBufSize h user_init create_null false i l w).1 = Undefined.
Proof using.
  intros Hf Hr. unfold accept_connection. rewrite bind_sys_ret. destruct (Z.ltb_spec (sr_ret (sys (Sys_accept (lisFd l)) (w_kernel w)).1) 0); [lia|].
  unfold setSockNonBlock. rewrite <- bind_assoc, bind_sys_ret. unfold sys_ignore, sys_call, bind.
  destruct (_ <? 0); cbn -[make_session]; [by rewrite no_factory_no_session|].
  match goal with |- context [let (_, _) := sys ?c ?k in _] => destruct (sys c k) end. cbn -[make_session]. by rewrite no_factory_no_session.
Qed.

Lemma bare_step (w w' : W) : J false w -> server_step RecvBufSize SendBufSize h user_init create_null w w' -> J false w'.
Proof using SendBufSize_int RecvBufSize_int.
  intros HJ Hst. pose proof HJ as (Hs&Hp&Hf&He). specialize (He eq_refl). destruct Hst as [fuel procIdx pfd ev _ _ Hrun|i l Hrun|i r Hrun|i Hrun].
  - destruct ev as [evs [f|[p|]]]; [done| |].
    + apply handle_event_live in Hrun as [s Hl]. by rewrite He in Hl.
    + cbn in Hrun. by injection Hrun as <-.
  - destruct (Z.le_gt_cases 0 (sr_ret (sys (Sys_accept (lisFd l)) (w_kernel w)).1)) as [Hr|Hr].
    { pose proof (accept_no_factory i l w Hf Hr) as Hu. by rewrite Hrun in Hu. }
    unfold accept_connection in Hrun. rewrite bind_sys_ret in Hrun.
    destruct (Z.ltb_spec (sr_ret (sys (Sys_accept (lisFd l)) (w_kernel w)).1) 0); [|lia]. cbn in Hrun. destruct (_ || _); [|done]. injection Hrun as <-.
    eapply J_silent; [exact HJ|apply silent_call|done..].
  - exact (wlp_Ok _ _ _ _ _ (connect_kept RecvBufSize SendBufSize h user_init create_null rp SendBufSize_int RecvBufSize_int false i w HJ) Hrun).
  - refine (wlp_Ok _ (fun _ => J false) _ _ _ _ Hrun). clear Hrun. unfold app_queue. wlp_steps. destruct (isEmpty _) eqn:Hne.
    { wlp_steps. eapply J_silent; [exact HJ|apply silent_call|done..]. }
    apply wlp_bind. destruct (try_dequeue _) as [[[pk|] q']| | | | |] eqn:Hq; try done; cbn [lift wlp].
    + unfold update_processor, update, call_on_message. apply wlp_bind, wlp_modify, wlp_bind, wlp_gets, wlp_bind, wlp_deref. intros m _.
      apply wlp_bind, wlp_bind, wlp_session. intros s Hl. cbn in Hl. by rewrite He in Hl.
    + exfalso. revert Hq. unfold try_dequeue, isEmpty in *. rewrite Hne. by destruct (zget _ _) as [[]|].
Qed.

Lemma running_inv fact (w1 w : W) : J fact w1 -> rtc (server_step RecvBufSize SendBufSize h user_init create_null) w1 w -> J fact w.
Proof using All.
  intros H1. apply rtc_invariant; [|done]. intros a b Ha Hab. destruct fact; [|by eapply bare_step].
  apply service_inv_true. apply service_inv_true in Ha. by eapply server_step_inv.
Qed.
End Running.

(** A service as its constructor leaves it, with or without a factory, listeners, connectors and
    configuration added. *)
Definition constructed {K U} (fact : bool) (w : world K (EventHandler U) epoll_env) : Prop :=
  w_sessions w = heap_empty /\ w_trace w = [] /\ processor (w_env w) = Processor_new_with fact.

Lemma constructed_inv {K U} RecvBufSize SendBufSize rp fact (w : world K (EventHandler U) epoll_env) :
  constructed fact w -> service_inv RecvBufSize SendBufSize rp fact w.
Proof.
  intros (HS&HT&HP). unfold service_inv. rewrite HP. split_and!; [| |done..].
  2: { exists [], [], []. split_and!; [by constructor|apply pool_init_inv|constructor|by intros x ?%elem_of_nil|by constructor]. }
  unfold stream_inv. rewrite HS, HT. split_and!; [apply heap_empty_wf| |done].
  intros p s Hs. unfold heap_get in Hs. cbn in Hs. by rewrite lookup_empty in Hs.
Qed.

(** C6. From the constructor to the running service.  When [TCPService::start] returns, whatever the
    kernel answered and whatever listeners and connectors were added, the state it leaves and every
    state the running service reaches is well formed ([service_inv]: streams cut right, buffer
    indices in bounds, message pool and queues in order), for a session class that keeps the framing
    contract.  For a service that was given a factory, an event of a live session is then
    handled to its end without undefined behaviour, if at most one thread acquires messages
    ([one_acquirer]).  A service that was given none (the constructor's default) never has a
    session, and the first connection a listener of it gets is undefined behaviour. *)
Theorem service_start_sound {K U : Type} `{Kernel K} (RecvBufSize SendBufSize : Z) (h : IEventHandler U) (user_init : U)
    (create_null fact : bool) (rp : list byte -> Z) (handler : EventHandleFunc) (r : Z)
    (w0 w1 w : world K (EventHandler U) epoll_env) :
  KernelLaws K -> FramingLaw rp -> (forall u bs, read_packet h u bs = rp bs) ->
  0 < SendBufSize <= INT_MAX -> 0 < RecvBufSize <= INT_MAX -> constructed fact w0 ->
  TCPService_start RecvBufSize SendBufSize h user_init create_null false handler w0 = (Ok r, w1) ->
  rtc (server_step RecvBufSize SendBufSize h user_init create_null) w1 w ->
  service_inv RecvBufSize SendBufSize rp fact w /\
  (fact = true -> forall fuel procIdx pfd evs p, RecvBufSize <= Z.of_nat fuel -> is_Some (heap_get (w_sessions w) p) ->
     one_acquirer procIdx w ->
     exists w', handle_event RecvBufSize SendBufSize h false fuel procIdx pfd (mk_epoll_event evs (DPtr (Some p))) w = (Ok tt, w')) /\
  (fact = false -> w_sessions w = heap_empty /\
     forall i l, 0 <= sr_ret (sys (Sys_accept (lisFd l)) (w_kernel w)).1 ->
       (accept_connection RecvBufSize SendBufSize h user_init create_null false i l w).1 = Undefined).
Proof.
  intros HK HF Hrp HS HR H0 Hrun Hr.
  assert (Hw : service_inv RecvBufSize SendBufSize rp fact w).
  { refine (running_inv RecvBufSize SendBufSize h user_init create_null rp Hrp HS HR fact w1 w _ Hr).
    refine (wlp_Ok _ _ _ _ _ (service_start_keeps RecvBufSize SendBufSize h user_init create_null rp HS HR fact handler w0 _) Hrun).
    by apply constructed_inv. }
  pose proof Hw as (Hst&Hpool&Hfac&He). split_and!; [done| |].
  - intros -> fuel procIdx pfd evs p Hfuel [s Hs] Hone.
    destruct (wp_Ok _ _ _ (handle_event_inv RecvBufSize SendBufSize h HS HR rp Hrp fuel procIdx pfd evs p s w
      Hst Hs (conj (conj (one_acquirer_range _ _ Hone) Hpool) Hfac) Hfuel)) as ([]&w'&Hev&_). by exists w'.
  - intros ->. split; [by apply He|]. intros i l. by apply accept_no_factory.
Qed.

(** The service of the witnesses with a listener on port 7788, over a kernel that always says 3. *)
Definition start_world : world script (EventHandler nat) epoll_env :=
  (addListener 0 7788 (mk_world (replicate 70 (sys_result 3)) 0 [] heap_empty (TCPService_new true))).2.

Definition started_world : world script (EventHandler nat) epoll_env :=
  (TCPService_start 16 16 counting 0%nat false false None start_world).2.

(** The same service as client.cpp constructs it, without a factory. *)
Definition bare_world : world script (EventHandler nat) epoll_env :=
  (addListener 0 7788 (mk_world (replicate 70 (sys_result 3)) 0 [] heap_empty (TCPService_new false))).2.

Definition bare_started : world script (EventHandler nat) epoll_env :=
  (TCPService_start 16 16 counting 0%nat false false None bare_world).2.

Lemma service_start_sound_witness :
  (length (msgQueues (processor (w_env started_world))) = 1%nat /\ service_inv 16 16 length_prefixed true started_world) /\
  (accept_connection 16 16 counting 0%nat false false 0 demo_listener bare_started).1 = Undefined.
Proof.
  split; [split; [vm_compute; reflexivity|]|].
  - refine (proj1 (service_start_sound 16 16 counting 0%nat false true length_prefixed None 0 start_world started_world started_world
      _ _ (fun _ _ => eq_refl) _ _ _ _ _)); [unfold INT_MAX; lia..|split_and!; reflexivity|vm_compute; reflexivity|apply rtc_refl].
  - refine (proj2 (proj2 (proj2 (service_start_sound 16 16 counting 0%nat false false length_prefixed None 0 bare_world bare_started bare_started
      _ _ (fun _ _ => eq_refl) _ _ _ _ _)) eq_refl) 0%nat demo_listener _);
      [unfold INT_MAX; lia..|split_and!; reflexivity|vm_compute; reflexivity|apply rtc_refl|vm_compute; discriminate].
Defined.
