(* ===== verification/Shutdown.v ===== *)
(** * Stopping a service while its threads run

    [TCPService::stop] closes the descriptors of each listener and joins its thread.  The threads of
    the listeners are cut where they read shared state, wait and handle one event; the stopping
    thread is cut at every close and join.  Processors and the application thread go on meanwhile.
    A wait returns when the schedule says so: whether closing a descriptor wakes its waiters is the
    kernel's choice. *)

From S2P Require Import Prelude Fairness Cut Heap NetApi SendBuffer SpscQueue ObjectPool Os EpollSession EpollNet EpollFrame EpollService.

(** [epoll_wait] fails on what is not an epoll descriptor; a descriptor that was closed is none
    until [epoll_create] returns its number again. *)
Class EpollDescriptors (K : Type) `{Kernel K} := {
  not_epoll : K -> Z -> Prop;
  close_not_epoll : forall k fd, not_epoll (sys (Sys_close fd) k).2 fd;
  call_not_epoll : forall k fd c, (forall n, c <> Sys_epoll_create n) -> not_epoll k fd -> not_epoll (sys c k).2 fd;
  wait_not_epoll : forall k fd n t, not_epoll k fd -> sr_ret (sys (Sys_epoll_wait fd n t) k).1 < 0
}.

Section Shutdown.
Context {K U : Type} `{Kernel K}.
Context (RecvBufSize SendBufSize : Z) (h : IEventHandler U) (user_init : U) (create_null : bool).
Local Open Scope tinynet_scope.
Local Abbreviation W := (world K (EventHandler U) epoll_env).

(** ** The threads *)

(** Where the thread of a listener is in [Listener::run], with its local [efd]. *)
Inductive lis_pc :=
| LStart
| LTest (efd : Z)
| LWait (efd : Z)
| LEvents (efd : Z) (evs : list epoll_event)
| LEnded.

(** What it does next; [None] when it has to wait or has returned. *)
Definition lis_access (i : nat) (woken : bool) (c : lis_pc) : option (M W lis_pc) :=
  match c with
  | LStart => Some (
      let* e := gets w_env in
      let* l := deref (lstListener e !! i) in
      let efd := epollFd (scheder e) in
      let* r := sys_ret (Sys_epoll_ctl efd EPOLL_CTL_ADD (lisFd l) (Some (mk_epoll_event EPOLLIN (DFd (lisFd l))))) in
      if r =? -1 then throw_errno else ret (LTest efd))
  | LTest efd => Some (
      let* e := gets w_env in
      let* l := deref (lstListener e !! i) in
      ret (if l_isRunning l then LWait efd else LEnded))
  | LWait efd =>
      if woken then Some (
        let* r := sys_call (Sys_epoll_wait efd MAX_WAIT_EVENT (-1)) in
        if sr_ret r <? 0 then ret LEnded
        else if zlen (sr_events r) <? sr_ret r then undefined
        else ret (LEvents efd (take (Z.to_nat (sr_ret r)) (sr_events r))))
      else None
  | LEvents efd [] => Some (ret (LTest efd))
  | LEvents efd (ev :: evs) => Some (
      listen_event RecvBufSize SendBufSize h user_init create_null false i ev ;; ret (LEvents efd evs))
  | LEnded => None
  end.

(** Where the stopping thread is in [TCPService::stop]: before the first close of listener [j],
    before the close of the scheduler's descriptor, before the join; before the sleep; before
    connector [j]. *)
Inductive stop_pc := SListener (j : nat) | SEpoll (j : nat) | SJoin (j : nat) | SSleep | SConnector (j : nat) | SDone.

Definition stop_access (c : stop_pc) : M W stop_pc :=
  let* e := gets w_env in
  match c with
  | SListener j =>
      match lstListener e !! j with
      | Some l =>
          when (negb (l_isRunning l)) (update_listener j (fun l =>
            mk_Listener (l_ip l) (l_port l) (l_backlogs l) (lisFd l) false (runThread l) (l_evtHandler l))) ;;
          sys_ignore (Sys_close (lisFd l)) ;; ret (SEpoll j)
      | None => ret SSleep
      end
  | SEpoll j => sys_ignore (Sys_close (epollFd (scheder e))) ;; ret (SJoin j)
  | SJoin j =>
      let* l := deref (lstListener e !! j) in
      if runThread l then
        sys_ignore (Sys_join (ListenThread j)) ;;
        update_listener j (fun l =>
          mk_Listener (l_ip l) (l_port l) (l_backlogs l) (lisFd l) (l_isRunning l) false (l_evtHandler l)) ;;
        ret (SListener (S j))
      else throw_std
  | SSleep => sys_ignore (Sys_sleep 1) ;; ret (SConnector 0)
  | SConnector j => if decide (j < length (lstConnector e))%nat then Connector_stop j ;; ret (SConnector (S j)) else ret SDone
  | SDone => ret SDone
  end.

(** ** The system *)

Inductive shut_label :=
| DoStop
| DoListener (i : nat) (woken : bool)
| DoEvent (procIdx pfd : Z) (ev : epoll_event)
| DoApp (i : nat).

#[export] Instance shut_label_eq_dec : EqDecision shut_label.
Proof. solve_decision. Defined.

(** [sd_dead]: the step that ended the process, and how: an exception that leaves a thread, or
    undefined behaviour. *)
Record shut := mk_shut {
  sd_world : W;
  sd_lis : list lis_pc;
  sd_stop : stop_pc;
  sd_dead : option (shut_label * outcome unit)
}.

(** A processor's thread that stays in its packet loop (one that takes more rounds than the buffer has
    bytes never ends) keeps nobody else from running. *)
Definition spin (m : M W unit) : M W unit := fun w => match m w with (OutOfFuel, w') => (Ok tt, w') | r => r end.

Lemma keeps_spin (I : W -> Prop) m : keeps I m -> keeps I (spin m).
Proof. intros Hm w Hw. specialize (Hm w Hw). unfold spin. by destruct (m w) as [[| | | | |] w']. Qed.

(** Runs a piece of a thread; the thread's place becomes what it returns. *)
Definition shut_exec {A} (l : shut_label) (m : M W A) (place : A -> shut -> shut) (s : shut) : shut :=
  match m (sd_world s) with
  | (Ok a, w) => place a (mk_shut w (sd_lis s) (sd_stop s) None)
  | (o, w) => mk_shut w (sd_lis s) (sd_stop s) (Some (l, void o))
  end.

(** A join waits for its thread. *)
Definition thread_ended (s : shut) (j : nat) : bool :=
  match sd_lis s !! j with Some LEnded => true | Some _ => false | None => true end.

Definition stop_waits (s : shut) : bool :=
  match sd_stop s with SJoin j => negb (thread_ended s j) | SDone => true | _ => false end.

Definition shut_next (l : shut_label) (s : shut) : shut :=
  match sd_dead s with
  | Some _ => s
  | None =>
      match l with
      | DoStop =>
          if stop_waits s then s
          else shut_exec l (stop_access (sd_stop s)) (fun c s => mk_shut (sd_world s) (sd_lis s) c None) s
      | DoListener i woken =>
          match c ← sd_lis s !! i; lis_access i woken c with
          | Some m => shut_exec l m (fun c s => mk_shut (sd_world s) (<[i := c]> (sd_lis s)) (sd_stop s) None) s
          | None => s
          end
      | DoEvent procIdx pfd ev =>
          shut_exec l (spin (handle_event RecvBufSize SendBufSize h false (Z.to_nat RecvBufSize) procIdx pfd ev)) (fun _ s => s) s
      | DoApp i => shut_exec l (app_queue SendBufSize h false i) (fun _ s => s) s
      end
  end.

(** ** The cuts are those of the code *)

Local Abbreviation lis_like i := (runs_like (lis_access i true) LEnded).

(** The events of one wait. *)
Lemma lis_events_cut i efd (k : M W unit) evs w : (forall w', lis_like i (LTest efd) w' (k w')) ->
  lis_like i (LEvents efd evs) w (bind (for_each evs (listen_event RecvBufSize SendBufSize h user_init create_null false i)) (fun _ => k) w).
Proof.
  intros Hk. apply (cut_for_each _ _ _ (LEvents efd)); [done|]. intros w'. destruct (Hk w') as [He|]; [left|by right]. by eapply cut_step.
Qed.

Lemma lis_loop_cut rounds i efd w :
  lis_like i (LTest efd) w (listen_loop RecvBufSize SendBufSize h user_init create_null false rounds i efd w).
Proof.
  revert w. induction rounds as [|rounds IH]; intros w; cbn [listen_loop]; rewrite bind_gets; destruct (lstListener (w_env w) !! i) as [l|] eqn:Hl.
  2,4: left; eapply cut_fails; [reflexivity|rewrite bind_gets, Hl; reflexivity|done|done].
  all: rewrite (bind_Ok (deref (Some l)) _ w l w) by done; destruct (l_isRunning l) eqn:Hr; cbn [negb].
  2,4: left; eapply cut_step; [reflexivity|rewrite bind_gets, Hl; unfold bind; cbn; rewrite Hr; reflexivity|]; apply cut_done.
  - by right.
  - assert (Hto : forall r, runs_as (lis_access i true) LEnded (LWait efd) w r -> runs_as (lis_access i true) LEnded (LTest efd) w r).
    { intros r. eapply cut_step; [reflexivity|]. rewrite bind_gets, Hl. unfold bind. cbn. by rewrite Hr. }
    destruct (sys_call (Sys_epoll_wait efd MAX_WAIT_EVENT (-1)) w) as [o w1] eqn:Hs.
    pose proof Hs as Hs'. unfold sys_call in Hs'. destruct (sys _ (w_kernel w)) as [a k]. injection Hs' as <- _.
    rewrite (bind_Ok _ _ _ _ _ Hs). destruct (sr_ret a <? 0) eqn:Hneg; [|destruct (zlen (sr_events a) <? sr_ret a) eqn:Hlen].
    + left. apply Hto. eapply cut_step; [reflexivity|rewrite (bind_Ok _ _ _ _ _ Hs), Hneg; reflexivity|]. apply cut_done.
    + left. apply Hto. eapply cut_fails; [reflexivity|rewrite (bind_Ok _ _ _ _ _ Hs), Hneg, Hlen; reflexivity|done|done].
    + destruct (lis_events_cut i efd (listen_loop RecvBufSize SendBufSize h user_init create_null false rounds i efd)
        (take (Z.to_nat (sr_ret a)) (sr_events a)) w1 IH) as [He|]; [left|by right].
      apply Hto. eapply cut_step; [reflexivity|rewrite (bind_Ok _ _ _ _ _ Hs), Hneg, Hlen; reflexivity|exact He].
Qed.

(** The thread's accesses, made one after the other, are [Listener::run]. *)
Lemma lis_run_cut rounds i w :
  lis_like i LStart w (Listener_run RecvBufSize SendBufSize h user_init create_null false rounds i w).
Proof.
  unfold Listener_run. rewrite bind_gets. destruct (lstListener (w_env w) !! i) as [l|] eqn:Hl.
  2: left; eapply cut_fails; [reflexivity|rewrite bind_gets, Hl; reflexivity|done|done].
  rewrite (bind_Ok (deref (Some l)) _ w l w) by done. cbv zeta. rewrite bind_sys_ret.
  set (c := Sys_epoll_ctl _ _ _ _). set (w1 := after_call _ _ _ _). destruct (sr_ret (sys c (w_kernel w)).1 =? -1) eqn:Hr.
  - left. eapply cut_fails; [reflexivity|rewrite bind_gets, Hl, (bind_Ok (deref (Some l)) _ w l w) by done; cbv zeta; rewrite bind_sys_ret; fold c; fold w1; rewrite Hr; reflexivity|done|done].
  - destruct (lis_loop_cut rounds i (epollFd (scheder (w_env w))) w1) as [He|]; [left|by right].
    eapply cut_step; [reflexivity| |exact He].
    rewrite bind_gets, Hl, (bind_Ok (deref (Some l)) _ w l w) by done. cbv zeta. rewrite bind_sys_ret. fold c. fold w1. by rewrite Hr.
Qed.

(** The stopping thread alone, when the threads it joins have ended. *)
Local Abbreviation stop_ends := (runs_as (fun c => Some (stop_access c)) SDone).

(** The world after a call whose result is ignored. *)
Definition called (c : syscall) (w : W) : W := (sys_ignore c w).2.

Lemma sys_ignore_called c w : sys_ignore c w = (Ok tt, called c w).
Proof. unfold called, sys_ignore, bind, sys_call. by destruct (sys c (w_kernel w)). Qed.

Lemma called_env c w : w_env (called c w) = w_env w.
Proof. unfold called, sys_ignore, bind, sys_call. by destruct (sys c (w_kernel w)). Qed.

Lemma called_kernel c w : w_kernel (called c w) = (sys c (w_kernel w)).2.
Proof. unfold called, sys_ignore, bind, sys_call. by destruct (sys c (w_kernel w)). Qed.

Lemma bind_ignore {A} c (k : unit -> M W A) w : bind (sys_ignore c) k w = k tt (called c w).
Proof. by rewrite (bind_Ok _ _ _ _ _ (sys_ignore_called c w)). Qed.

Definition clear_running (l : Listener) : Listener :=
  mk_Listener (l_ip l) (l_port l) (l_backlogs l) (lisFd l) false (runThread l) (l_evtHandler l).

(** Clearing a flag that is clear changes nothing. *)
Lemma alter_clear (ls : list Listener) j l : ls !! j = Some l -> l_isRunning l = false -> alter clear_running j ls = ls.
Proof.
  intros Hl Hr. apply list_eq. intros i. destruct (decide (i = j)) as [->|Hne].
  - rewrite list_lookup_alter_eq, Hl. cbn. unfold clear_running. rewrite <- Hr. by destruct l.
  - by rewrite list_lookup_alter_ne.
Qed.

Lemma flag_unchanged j l (w : W) : lstListener (w_env w) !! j = Some l ->
  when (negb (l_isRunning l)) (update_listener j clear_running) w = (Ok tt, w).
Proof.
  intros Hl. destruct (l_isRunning l) eqn:Hr; [done|]. cbn. unfold update_listener, update, modify. do 2 f_equal. destruct w as [k e t ss env].
  cbn in *. unfold set_env. cbn. f_equal. destruct env. cbn in *. unfold set_listeners. cbn. by rewrite (alter_clear _ _ _ Hl Hr).
Qed.

(** How many listeners and connectors there are. *)
Definition counted (n m : nat) (w : W) : Prop := length (lstListener (w_env w)) = n /\ length (lstConnector (w_env w)) = m.

(** [Listener::stop], access by access. *)
Lemma stop_listener_cut j n cs (k : M W unit) w : counted n cs w -> (j < n)%nat ->
  (forall w', counted n cs w' -> stop_ends (SListener (S j)) w' (k w')) ->
  stop_ends (SListener j) w (bind (Listener_stop j) (fun _ => k) w).
Proof.
  intros [Hn Hcs] Hj Hk. destruct (lookup_lt_is_Some_2 (lstListener (w_env w)) j) as [l Hl]; [lia|].
  set (w1 := called (Sys_close (lisFd l)) w). set (w2 := called (Sys_close (epollFd (scheder (w_env w)))) w1).
  assert (E1 : w_env w1 = w_env w) by apply called_env. assert (E2 : w_env w2 = w_env w) by (unfold w2; by rewrite called_env).
  eapply cut_step_total.
  { unfold stop_access. rewrite bind_gets, Hl. fold clear_running. rewrite (bind_Ok _ _ _ _ _ (flag_unchanged j l w Hl)), bind_ignore. reflexivity. }
  fold w1. eapply cut_step_total.
  { unfold stop_access. rewrite bind_gets, E1, bind_ignore. reflexivity. }
  fold w2. unfold Listener_stop at 1. fold clear_running.
  assert (Hstop : forall m : Listener -> epoll_env -> M W unit,
    bind (bind (gets w_env) (fun e => bind (deref (lstListener e !! j)) (fun l => bind (when (negb (l_isRunning l)) (update_listener j clear_running))
      (fun _ => bind (sys_ignore (Sys_close (lisFd l))) (fun _ => bind (sys_ignore (Sys_close (epollFd (scheder e)))) (fun _ => m l e)))))) (fun _ => k) w
    = bind (m l (w_env w)) (fun _ => k) w2).
  { intros m. unfold bind at 1. rewrite bind_gets, Hl, (bind_Ok (deref (Some l)) _ w l w), (bind_Ok _ _ _ _ _ (flag_unchanged j l w Hl)), !bind_ignore by done. done. }
  cbv beta in Hstop. rewrite Hstop. clear Hstop. destruct (runThread l) eqn:Hrt.
  - eapply cut_step_total.
    { unfold stop_access. rewrite bind_gets, E2, Hl, (bind_Ok (deref (Some l)) _ w2 l w2), Hrt, bind_ignore by done. reflexivity. }
    unfold bind at 1. rewrite bind_ignore. unfold update_listener, update, modify. cbn. apply Hk. unfold counted. cbn. by rewrite length_alter, called_env, E2.
  - eapply cut_fails_total; [unfold stop_access; rewrite bind_gets, E2, Hl, (bind_Ok (deref (Some l)) _ w2 l w2), Hrt by done; reflexivity|done|done].
Qed.

Lemma stop_connectors_cut j m w : length (lstConnector (w_env w)) = (j + m)%nat ->
  stop_ends (SConnector j) w (for_each (seq j m) Connector_stop w).
Proof.
  revert j w. induction m as [|m IH]; intros j w Hm.
  - eapply cut_step_total; [unfold stop_access; rewrite bind_gets, decide_False by lia; reflexivity|]. apply cut_done.
  - cbn [seq for_each]. destruct (lookup_lt_is_Some_2 (lstConnector (w_env w)) j) as [c Hc]; [lia|].
    destruct (c_fd c) as [f|] eqn:Hf.
    + assert (Hs : Connector_stop j w = (Ok tt, called (Sys_close f) w)).
      { unfold Connector_stop. rewrite bind_gets, Hc, (bind_Ok (deref (Some c)) _ w c w), Hf, (bind_Ok (deref (Some f)) _ w f w) by done. apply sys_ignore_called. }
      rewrite (bind_Ok _ _ _ _ _ Hs). eapply cut_step_total; [|apply IH; rewrite called_env; lia].
      unfold stop_access. rewrite bind_gets, decide_True by lia. by rewrite (bind_Ok _ _ _ _ _ Hs).
    + assert (Hs : Connector_stop j w = (Undefined, w)).
      { unfold Connector_stop. rewrite bind_gets, Hc, (bind_Ok (deref (Some c)) _ w c w), Hf by done. done. }
      eapply cut_fails_total; [unfold stop_access; rewrite bind_gets, decide_True by lia; unfold bind; rewrite Hs; reflexivity|unfold bind; by rewrite Hs|done].
Qed.

Lemma stop_listeners_cut (k : M W unit) j m n cs w : counted n cs w -> n = (j + m)%nat ->
  (forall w', counted n cs w' -> stop_ends (SListener n) w' (k w')) ->
  stop_ends (SListener j) w (bind (for_each (seq j m) Listener_stop) (fun _ => k) w).
Proof.
  intros Hn Hnj Hk. revert j w Hn Hnj. induction m as [|m IH]; intros j w Hn Hnj.
  - assert (j = n) as -> by lia. by apply Hk.
  - cbn [seq for_each]. rewrite <- bind_assoc. apply (stop_listener_cut j n cs); [done|lia|]. intros w' Hw'. apply IH; [done|lia].
Qed.

(** The accesses of the stopping thread are [TCPService::stop]. *)
Lemma stop_run_cut w : stop_ends (SListener 0) w (TCPService_stop w).
Proof.
  unfold TCPService_stop. rewrite bind_gets. eapply stop_listeners_cut; [split; reflexivity|lia|]. intros w' [Hw' Hc'].
  eapply cut_step_total; [unfold stop_access; rewrite bind_gets, lookup_ge_None_2 by lia; reflexivity|].
  eapply cut_step_total; [unfold stop_access; rewrite bind_gets, bind_ignore; reflexivity|].
  rewrite bind_ignore. apply stop_connectors_cut. rewrite called_env. lia.
Qed.

(** ** The invariant of a service that is being stopped *)

Context `{!EpollDescriptors K}.

Definition lis_efd (c : lis_pc) : option Z := match c with LTest e | LWait e | LEvents e _ => Some e | _ => None end.

(** Listener [j] is still to be joined. *)
Definition not_joined (j : nat) (c : stop_pc) : Prop :=
  match c with SListener j' | SEpoll j' | SJoin j' => (j' <= j)%nat | _ => False end.

Definition epoll_closed (c : stop_pc) : bool :=
  match c with SListener (S _) | SEpoll (S _) | SJoin _ => true | _ => false end.

(** [E]: the scheduler's descriptor; [n] listeners, [m] connectors; the flag and the threads of the
    processor. *)
Record shut_inv (E : Z) (n m : nat) (run : bool) (ts : list thread_id) (s : shut) : Prop := {
  si_epoll : epollFd (scheder (w_env (sd_world s))) = E;
  si_counted : counted n m (sd_world s);
  si_length : length (sd_lis s) = n;
  si_efd : Forall (fun c => forall e, lis_efd c = Some e -> e = E) (sd_lis s);
  si_processor : isRunning (processor (w_env (sd_world s))) = run /\ procThreads (processor (w_env (sd_world s))) = ts;
  si_threads j l : lstListener (w_env (sd_world s)) !! j = Some l -> not_joined j (sd_stop s) -> runThread l = true;
  si_connectors j c : lstConnector (w_env (sd_world s)) !! j = Some c -> is_Some (c_fd c);
  si_closed : epoll_closed (sd_stop s) = true -> not_epoll (w_kernel (sd_world s)) E;
  si_stop : match sd_stop s with SEpoll j | SJoin j => (j < n)%nat | SListener j => (j <= n)%nat | SConnector j => (j <= m)%nat | _ => True end;
  si_dead o : sd_dead s <> Some (DoStop, o)
}.

Section Inv.
Context (E : Z) (n m : nat) (run : bool) (ts : list thread_id).
Local Abbreviation inv := (shut_inv E n m run ts).

(** Only the world moved, and within its frame. *)
Lemma inv_framed s w d : inv s -> framed (fun k => epoll_closed (sd_stop s) = true -> not_epoll k E) (shape_of (w_env (sd_world s))) w ->
  (forall o, d <> Some (DoStop, o)) -> inv (mk_shut w (sd_lis s) (sd_stop s) d).
Proof using.
  intros [] [Hs Hk] Hd. unfold shape_of in Hs. injection Hs as H1 H2 H3 H4 H5 H6 H7. unfold counted in *.
  split; cbn; try done; unfold counted; rewrite ?H1, ?H2, ?H3, ?H4, ?H5; done.
Qed.

Lemma closed_kept c0 : forall k c, (forall x, c <> Sys_epoll_create x) ->
  (epoll_closed c0 = true -> not_epoll k E) -> epoll_closed c0 = true -> not_epoll (sys c k).2 E.
Proof using. intros k c Hc Hk Hb. by apply call_not_epoll, Hk. Qed.

Lemma framed_now s : inv s -> framed (fun k => epoll_closed (sd_stop s) = true -> not_epoll k E) (shape_of (w_env (sd_world s))) (sd_world s).
Proof using. intros Hs. split; [done|]. apply Hs. Qed.

(** What the other threads do keeps it. *)
Lemma inv_exec {A} l (mm : M W A) (place : A -> shut -> shut) s : inv s -> l <> DoStop ->
  keeps (framed (fun k => epoll_closed (sd_stop s) = true -> not_epoll k E) (shape_of (w_env (sd_world s)))) mm ->
  (forall a w, mm (sd_world s) = (Ok a, w) -> inv (mk_shut w (sd_lis s) (sd_stop s) None) -> inv (place a (mk_shut w (sd_lis s) (sd_stop s) None))) ->
  inv (shut_exec l mm place s).
Proof using.
  intros Hs Hl Hm Hp. specialize (Hm _ (framed_now s Hs)). unfold shut_exec.
  destruct (mm (sd_world s)) as [[a| | | | |] w] eqn:Em; try (apply inv_framed; [done|done|intros o; congruence]).
  apply Hp; [done|]. by apply inv_framed.
Qed.

Lemma framed_lis_access s i woken c mm : lis_access i woken c = Some mm ->
  keeps (framed (fun k => epoll_closed (sd_stop s) = true -> not_epoll k E) (shape_of (w_env (sd_world s)))) mm.
Proof using.
  pose proof (closed_kept (sd_stop s)) as Hk. destruct c as [|efd|efd|efd [|ev evs]|]; cbn; [..|done].
  - intros [= <-]. apply keeps_bind; [apply keeps_gets|intros e]. apply keeps_bind; [apply keeps_deref|intros l].
    apply keeps_bind; [by apply framed_sys_ret|intros r]. destruct (r =? -1); [|apply keeps_ret]. apply keeps_bind; [apply keeps_gets|]. intros. apply keeps_throw.
  - intros [= <-]. apply keeps_bind; [apply keeps_gets|intros e]. apply keeps_bind; [apply keeps_deref|intros l]. apply keeps_ret.
  - destruct woken; [|done]. intros [= <-]. apply keeps_bind; [by apply framed_call|intros r].
    destruct (sr_ret r <? 0); [apply keeps_ret|]. destruct (_ <? _); [apply keeps_undefined|apply keeps_ret].
  - intros [= <-]. apply keeps_ret.
  - intros [= <-]. apply keeps_bind; [by apply framed_listen_event|]. intros. apply keeps_ret.
Qed.

(** The descriptor a listener's thread waits on is the scheduler's. *)
Lemma lis_access_efd i woken c mm w c' w' : lis_access i woken c = Some mm -> mm w = (Ok c', w') ->
  epollFd (scheder (w_env w)) = E -> (forall e, lis_efd c = Some e -> e = E) -> forall e, lis_efd c' = Some e -> e = E.
Proof using.
  intros Hm Hw HE Hc. destruct c as [|efd|efd|efd [|ev evs]|]; cbn in Hm, Hc; [..|done].
  - injection Hm as <-. rewrite bind_gets in Hw. unfold bind at 1, deref in Hw. destruct (lstListener (w_env w) !! i) as [l|]; [|done].
    rewrite bind_sys_ret in Hw. destruct (_ =? -1); [done|]. injection Hw as <- _. cbn. congruence.
  - injection Hm as <-. rewrite bind_gets in Hw. unfold bind, deref in Hw. destruct (lstListener (w_env w) !! i) as [l|]; [|done]. cbn in Hw.
    injection Hw as <- _. by destruct (l_isRunning l).
  - destruct woken; [|done]. injection Hm as <-. unfold bind, sys_call in Hw. destruct (sys _ (w_kernel w)) as [r k].
    destruct (sr_ret r <? 0); [by injection Hw as <- _|]. destruct (_ <? _); [done|]. by injection Hw as <- _.
  - injection Hm as <-. by injection Hw as <- _.
  - injection Hm as <-. unfold bind in Hw. destruct (listen_event _ _ _ _ _ _ _ _ _) as [[[]| | | | |] w1]; try done. by injection Hw as <- _.
Qed.

Lemma inv_other l s : inv s -> l <> DoStop -> inv (shut_next l s).
Proof using.
  intros Hs Hl. unfold shut_next. destruct (sd_dead s) eqn:Hd; [done|]. pose proof (closed_kept (sd_stop s)) as Hk. destruct l as [|i woken|pi pfd ev|i]; [done|..].
  - destruct (sd_lis s !! i) as [c|] eqn:Hc; cbn; [|done]. destruct (lis_access i woken c) as [mm|] eqn:Hm; [|done].
    apply inv_exec; [done|done|by eapply framed_lis_access|]. intros c' w Hw Hs'. destruct Hs' as [].
    split; cbn in *; try done; [by rewrite length_insert|]. apply Forall_insert; [done|].
    eapply lis_access_efd; [done|done|apply Hs|]. apply (Forall_lookup_1 _ _ _ _ (si_efd _ _ _ _ _ s Hs) Hc).
  - apply inv_exec; [done|done|by apply keeps_spin, framed_event|done].
  - apply inv_exec; [done|done|by apply framed_app_queue|done].
Qed.

(** How much of [stop] is left. *)
Definition stop_rank (c : stop_pc) : nat :=
  match c with
  | SListener j => 3 * (n - j) + m + 4
  | SEpoll j => 3 * (n - j) + m + 3
  | SJoin j => 3 * (n - j) + m + 2
  | SSleep => m + 3
  | SConnector j => m - j + 1
  | SDone => 0
  end.

(** The world after a close: the descriptor is gone, the rest is there. *)
Lemma inv_called s c c' : inv s -> (forall x, c <> Sys_epoll_create x) ->
  (forall j, not_joined j c' -> not_joined j (sd_stop s)) ->
  (epoll_closed c' = true -> epoll_closed (sd_stop s) = true \/ c = Sys_close E) ->
  match c' with SEpoll j | SJoin j => (j < n)%nat | SListener j => (j <= n)%nat | SConnector j => (j <= m)%nat | _ => True end ->
  inv (mk_shut (called c (sd_world s)) (sd_lis s) c' None).
Proof using.
  intros [] Hc Hj Hcl Hb. split; cbn; unfold counted; rewrite ?called_env, ?called_kernel; try done; [by eauto|].
  intros Hb'. destruct (Hcl Hb') as [|Heq]; [by apply call_not_epoll; auto|subst c; apply close_not_epoll].
Qed.

(** Joining the thread of listener [j]. *)
Lemma inv_joined s j : inv s -> sd_stop s = SJoin j -> let w := called (Sys_join (ListenThread j)) (sd_world s) in
  inv (mk_shut (set_env (set_listeners (alter (fun l =>
    mk_Listener (l_ip l) (l_port l) (l_backlogs l) (lisFd l) (l_isRunning l) false (l_evtHandler l)) j (lstListener (w_env w))) (w_env w)) w)
    (sd_lis s) (SListener (S j)) None).
Proof using.
  intros Hs Hj w. pose proof (si_stop _ _ _ _ _ s Hs) as Hb. rewrite Hj in Hb. assert (Ew : w_env w = w_env (sd_world s)) by apply called_env.
  pose proof (si_closed _ _ _ _ _ s Hs) as Hcl. pose proof (si_threads _ _ _ _ _ s Hs) as Hth. rewrite Hj in Hcl, Hth. specialize (Hcl eq_refl).
  destruct Hs as [? [Hc1 Hc2] ? ? ? ? ? ? ? ?]. split; cbn; unfold counted; cbn; rewrite ?Ew, ?length_alter; try done; try lia.
  - intros j' l Hl Hj'. rewrite list_lookup_alter_ne in Hl by lia. apply (Hth j' l Hl). cbn. lia.
  - intros _. unfold w. rewrite called_kernel. by apply call_not_epoll.
Qed.

Lemma stop_step s : inv s -> stop_waits s = false ->
  exists c' w', stop_access (sd_stop s) (sd_world s) = (Ok c', w') /\ (stop_rank c' < stop_rank (sd_stop s))%nat /\ inv (mk_shut w' (sd_lis s) c' None).
Proof using.
  intros Hs Hw. pose proof (si_stop _ _ _ _ _ s Hs) as Hb. destruct (si_counted _ _ _ _ _ s Hs) as [Hcn Hcm]. unfold stop_waits in Hw.
  destruct (sd_stop s) as [j|j|j| |j|] eqn:Hst; unfold stop_access; rewrite bind_gets; [..|done].
  - destruct (lstListener (w_env (sd_world s)) !! j) as [l|] eqn:Hl.
    + fold clear_running. rewrite (bind_Ok _ _ _ _ _ (flag_unchanged j l _ Hl)), bind_ignore. apply lookup_lt_Some in Hl as Hlt.
      eexists _, _. split; [reflexivity|]. split; [cbn; lia|]. apply inv_called; rewrite ?Hst; [done|done|done|destruct j; auto|lia].
    + apply lookup_ge_None in Hl. eexists _, _. split; [reflexivity|]. split; [cbn; lia|]. destruct Hs. split; cbn; done.
  - rewrite bind_ignore. eexists _, _. split; [reflexivity|]. split; [cbn; lia|].
    rewrite (si_epoll _ _ _ _ _ s Hs). apply inv_called; rewrite ?Hst; [done|done|done|auto|done].
  - destruct (lookup_lt_is_Some_2 (lstListener (w_env (sd_world s))) j) as [l Hl]; [lia|]. rewrite Hl, (bind_Ok (deref (Some l)) _ _ l (sd_world s)) by done.
    rewrite (si_threads _ _ _ _ _ s Hs j l Hl) by (rewrite Hst; cbn; lia). rewrite bind_ignore. eexists _, _. split; [reflexivity|]. split; [cbn; lia|].
    by apply inv_joined.
  - rewrite bind_ignore. eexists _, _. split; [reflexivity|]. split; [cbn; lia|]. apply inv_called; rewrite ?Hst; [done|done|done|done|lia].
  - case_decide as Hlt.
    + destruct (lookup_lt_is_Some_2 (lstConnector (w_env (sd_world s))) j) as [c Hc]; [lia|]. destruct (si_connectors _ _ _ _ _ s Hs j c Hc) as [f Hf].
      assert (Hcs : Connector_stop j (sd_world s) = (Ok tt, called (Sys_close f) (sd_world s))).
      { unfold Connector_stop. rewrite bind_gets, Hc, (bind_Ok (deref (Some c)) _ _ c (sd_world s)), Hf, (bind_Ok (deref (Some f)) _ _ f (sd_world s)) by done.
        apply sys_ignore_called. }
      rewrite (bind_Ok _ _ _ _ _ Hcs). eexists _, _. split; [reflexivity|]. split; [cbn; lia|]. apply inv_called; rewrite ?Hst; [done|done|done|done|lia].
    + eexists _, _. split; [reflexivity|]. split; [cbn; lia|]. destruct Hs. split; cbn; done.
Qed.

Lemma inv_next l s : inv s -> inv (shut_next l s).
Proof using.
  intros Hs. destruct l; try (by apply inv_other). unfold shut_next. destruct (sd_dead s) eqn:Hd; [done|]. destruct (stop_waits s) eqn:Hw; [done|].
  destruct (stop_step s Hs Hw) as (c'&w'&Ha&_&Hi). unfold shut_exec. rewrite Ha. done.
Qed.

(** ** Stop returns in fair runs *)

(** How far the thread of a listener is from its end once the descriptor is closed. *)
Definition lis_rank (c : lis_pc) : nat :=
  match c with LStart => 3 | LTest _ => 2 | LWait _ => 1 | LEvents _ evs => length evs + 3 | LEnded => 0 end.

Lemma lis_rank_falls i woken c mm w c' w' : lis_access i woken c = Some mm -> mm w = (Ok c', w') -> not_epoll (w_kernel w) E ->
  (forall e, lis_efd c = Some e -> e = E) -> (lis_rank c' < lis_rank c)%nat.
Proof using.
  intros Hm Hw Hcl Hc. destruct c as [|efd|efd|efd [|ev evs]|]; cbn in Hm, Hc; [..|done].
  - injection Hm as <-. rewrite bind_gets in Hw. unfold bind at 1, deref in Hw. destruct (lstListener (w_env w) !! i) as [l|]; [|done].
    rewrite bind_sys_ret in Hw. destruct (_ =? -1); [done|]. injection Hw as <- _. cbn. lia.
  - injection Hm as <-. rewrite bind_gets in Hw. unfold bind, deref in Hw. destruct (lstListener (w_env w) !! i) as [l|]; [|done]. cbn in Hw.
    injection Hw as <- _. destruct (l_isRunning l); cbn; lia.
  - destruct woken; [|done]. injection Hm as <-. rewrite (Hc efd eq_refl) in Hw. unfold bind, sys_call in Hw.
    pose proof (wait_not_epoll (w_kernel w) E MAX_WAIT_EVENT (-1) Hcl) as Hneg. destruct (sys _ (w_kernel w)) as [r k]. cbn in Hneg.
    destruct (Z.ltb_spec (sr_ret r) 0); [|lia]. injection Hw as <- _. cbn. lia.
  - injection Hm as <-. injection Hw as <- _. cbn. lia.
  - injection Hm as <-. unfold bind in Hw. destruct (listen_event _ _ _ _ _ _ _ _ _) as [[[]| | | | |] w1]; try done. injection Hw as <- _. cbn. lia.
Qed.

Definition alive (s : shut) : Prop := inv s /\ sd_dead s = None.
Definition over (s : shut) : Prop := sd_stop s = SDone \/ is_Some (sd_dead s).

Lemma exec_cases {A} l (mm : M W A) place s : sd_dead s = None ->
  is_Some (sd_dead (shut_exec l mm place s)) \/
  exists a w, mm (sd_world s) = (Ok a, w) /\ shut_exec l mm place s = place a (mk_shut w (sd_lis s) (sd_stop s) None).
Proof using.
  clear. intros Hd. unfold shut_exec. destruct (mm (sd_world s)) as [[a| | | | |] w]; [right; eauto|left; eexists; cbn; done..].
Qed.

(** A step of another thread leaves the stopping thread and the thread of listener [j] where they
    are, or ends the process. *)
Lemma next_elsewhere l s j : sd_dead s = None -> l <> DoStop -> (forall b, l <> DoListener j b) ->
  is_Some (sd_dead (shut_next l s)) \/
  sd_dead (shut_next l s) = None /\ sd_stop (shut_next l s) = sd_stop s /\ sd_lis (shut_next l s) !! j = sd_lis s !! j.
Proof using.
  intros Hd Hl Hj. unfold shut_next. rewrite Hd. destruct l as [|i woken|pi pfd ev|i]; [done|..].
  - destruct (c ← sd_lis s !! i; lis_access i woken c) as [mm|] eqn:Hm; [|by right].
    destruct (exec_cases (DoListener i woken) mm (fun c s => mk_shut (sd_world s) (<[i := c]> (sd_lis s)) (sd_stop s) None) s Hd) as [|(a&w&_&->)]; [by left|right].
    cbn. split_and!; [done|done|]. rewrite list_lookup_insert_ne; [done|]. intros ->. by apply (Hj woken).
  - match goal with |- context [shut_exec ?l ?mm ?p s] => destruct (exec_cases l mm p s Hd) as [Hx|(a&w&_&Hx)] end; [by left|right; by rewrite Hx].
  - match goal with |- context [shut_exec ?l ?mm ?p s] => destruct (exec_cases l mm p s Hd) as [Hx|(a&w&_&Hx)] end; [by left|right; by rewrite Hx].
Qed.

(** The thread of listener [j] makes a step, or ends the process. *)
Lemma next_listener s j woken c mm : sd_dead s = None -> sd_lis s !! j = Some c -> lis_access j woken c = Some mm ->
  is_Some (sd_dead (shut_next (DoListener j woken) s)) \/
  exists c' w, mm (sd_world s) = (Ok c', w) /\ sd_dead (shut_next (DoListener j woken) s) = None /\
    sd_stop (shut_next (DoListener j woken) s) = sd_stop s /\ sd_lis (shut_next (DoListener j woken) s) !! j = Some c'.
Proof using.
  intros Hd Hc Hm. unfold shut_next. rewrite Hd, Hc. cbn. rewrite Hm.
  destruct (exec_cases (DoListener j woken) mm (fun c s => mk_shut (sd_world s) (<[j := c]> (sd_lis s)) (sd_stop s) None) s Hd) as [|(a&w&Hw&->)]; [by left|right].
  exists a, w. cbn. split_and!; [done..|]. apply list_lookup_insert_eq. by eapply lookup_lt_Some.
Qed.

(** A stopping thread that waits stays where it is. *)
Lemma next_waits s : stop_waits s = true -> shut_next DoStop s = s.
Proof using. intros Hw. unfold shut_next. rewrite Hw. by destruct (sd_dead s). Qed.

Context (init : shut) (sched : nat -> shut_label).
Local Abbreviation leads := (leads_to (shut_next) init sched).

(** The thread that is being joined. *)
Definition joining (j : nat) (a : nat) (s : shut) : Prop :=
  alive s /\ sd_stop s = SJoin j /\ exists c, sd_lis s !! j = Some c /\ lis_rank c = a.

Lemma joining_intro j s c : inv s -> sd_dead s = None -> sd_stop s = SJoin j -> sd_lis s !! j = Some c -> joining j (lis_rank c) s.
Proof using. intros. split; [done|]. split; [done|]. by exists c. Qed.

(** Its steps bring it nearer to its end. *)
Lemma joining_moves j a woken c mm s : joining j a s -> sd_lis s !! j = Some c -> lis_access j woken c = Some mm ->
  let s' := shut_next (DoListener j woken) s in (over s' \/ joining j 0 s') \/ exists b, (b < a)%nat /\ joining j b s'.
Proof using.
  intros ((Hi&Hd)&Hst&c1&Hc1&Hr) Hc Hm. cbv zeta. assert (c1 = c) as -> by congruence.
  destruct (next_listener s j woken c mm Hd Hc Hm) as [Hx|(c'&w&Hw'&Hd'&Hs'&Hl')]; [left; left; by right|right].
  exists (lis_rank c'). split; [|apply joining_intro; [by apply inv_next|done|by rewrite Hs'|done]].
  rewrite <- Hr. eapply lis_rank_falls; [done|done|apply Hi; by rewrite Hst|]. apply (Forall_lookup_1 _ _ _ _ (si_efd _ _ _ _ _ s Hi) Hc).
Qed.

Lemma joined_thread_ends j : fair sched (fun l => l = DoListener j true) ->
  forall a, leads (joining j a) (fun s => over s \/ joining j 0 s).
Proof using.
  intros Hfair. apply (leads_to_wf _ _ _ lt); [apply lt_wf|]. intros a. destruct a as [|a].
  { apply leads_to_impl. intros s Hs. left. by right. }
  apply (leads_to_ensures _ _ _ (fun l => l = DoListener j true)); [done|..].
  - intros l s Hj. pose proof Hj as ((Hi&Hd)&Hst&c&Hc&Hr).
    destruct (decide (l = DoStop)) as [->|Hl]; [left; rewrite next_waits; [done|]; unfold stop_waits, thread_ended; rewrite Hst, Hc; by destruct c|].
    assert (Helse : (forall b, l <> DoListener j b) -> joining j (S a) (shut_next l s) \/ over (shut_next l s)).
    { intros Hb. destruct (next_elsewhere l s j Hd Hl Hb) as [Hx|(Hd'&Hs'&Hl')]; [right; by right|left].
      rewrite <- Hr. apply joining_intro; [by apply inv_next|done|by rewrite Hs'|by rewrite Hl']. }
    destruct l as [|i woken| |]; [done| |destruct Helse; auto..]. destruct (decide (i = j)) as [->|Hne]; [|destruct Helse; [congruence|auto..]].
    destruct (lis_access j woken c) as [mm|] eqn:Hm; [right; by eapply joining_moves|left].
    unfold shut_next. rewrite Hd, Hc. cbn. by rewrite Hm.
  - intros l s Hj ->. pose proof Hj as (_&_&c&Hc&Hr).
    assert (exists mm, lis_access j true c = Some mm) as [mm Hm] by (destruct c as [|?|?|? []|]; cbn in *; eauto; done).
    by eapply joining_moves.
Qed.

(** What is left of [stop]. *)
Definition stopping (a : nat) (s : shut) : Prop := alive s /\ stop_rank (sd_stop s) = a.

Lemma stop_falls a s : stopping a s -> stop_waits s = false ->
  let s' := shut_next DoStop s in exists b, (b < a)%nat /\ stopping b s'.
Proof using.
  intros ((Hi&Hd)&Hr) Hw s'. destruct (stop_step s Hi Hw) as (c'&w'&Ha&Hlt&Hi').
  assert (Hs' : s' = mk_shut w' (sd_lis s) c' None) by (unfold s', shut_next, shut_exec; by rewrite Hd, Hw, Ha).
  exists (stop_rank c'). split; [lia|]. rewrite Hs'. done.
Qed.

(** The other threads leave it where it is, and threads that have ended have ended. *)
Lemma next_stays l s j : sd_dead s = None -> l <> DoStop -> thread_ended s j = true ->
  is_Some (sd_dead (shut_next l s)) \/ sd_dead (shut_next l s) = None /\ sd_stop (shut_next l s) = sd_stop s /\ thread_ended (shut_next l s) j = true.
Proof using.
  intros Hd Hl He. unfold thread_ended in He. assert ((exists b, l = DoListener j b) \/ forall b, l <> DoListener j b) as [[b ->]|Hb].
  { destruct l as [|i b| |]; [by right| |by right..]. destruct (decide (i = j)) as [->|]; [left; eauto|right; congruence]. }
  - right. assert (shut_next (DoListener j b) s = s) as ->; [|done]. unfold shut_next. rewrite Hd. by destruct (sd_lis s !! j) as [[]|].
  - destruct (next_elsewhere l s j Hd Hl) as [|(Hd'&Hs'&Hl')]; [done|by left|right]. unfold thread_ended. by rewrite Hl'.
Qed.

Lemma stop_unchanged l s : sd_dead s = None -> l <> DoStop ->
  is_Some (sd_dead (shut_next l s)) \/ sd_dead (shut_next l s) = None /\ sd_stop (shut_next l s) = sd_stop s.
Proof using.
  intros Hd Hl. unfold shut_next. rewrite Hd. destruct l as [|i woken|pi pfd ev|i]; [done| |..].
  1: destruct (c ← sd_lis s !! i; lis_access i woken c); [|by right].
  all: match goal with |- context [shut_exec ?l ?mm ?p ?s0] => destruct (exec_cases l mm p s0) as [Hx|(a&w&_&Hx)] end; [done|by left|right; by rewrite Hx].
Qed.

(** A part that does not wait. *)
Lemma stop_goes_on a : fair sched (fun l => l = DoStop) ->
  leads (fun s => stopping a s /\ stop_waits s = false) (fun s => over s \/ exists b, (b < a)%nat /\ stopping b s).
Proof using.
  intros Hfair. apply (leads_to_ensures _ _ _ (fun l => l = DoStop)); [done|..].
  - intros l s [Hst Hw]. destruct (decide (l = DoStop)) as [->|Hl]; [right; right; by apply stop_falls|].
    pose proof Hst as ((Hi&Hd)&Hr). pose proof (inv_next l s Hi) as Hi'.
    destruct (stop_unchanged l s Hd Hl) as [|(Hd'&Hs')]; [right; left; by right|left]. split; [split; [done|by rewrite Hs']|].
    unfold stop_waits in *. rewrite Hs'. destruct (sd_stop s) as [| |j| | |]; try done. apply negb_false_iff in Hw. apply negb_false_iff.
    destruct (next_stays l s j Hd Hl Hw) as [[? Hx]|(_&_&?)]; [congruence|done].
  - intros l s [Hst Hw] ->. right. by apply stop_falls.
Qed.

(** [stop] is over some time. *)
Lemma stop_is_over a : fair sched (fun l => l = DoStop) -> (forall j, (j < n)%nat -> fair sched (fun l => l = DoListener j true)) ->
  leads (stopping a) over.
Proof using.
  intros Hs Hl. revert a. apply (leads_to_wf _ _ _ lt); [apply lt_wf|]. intros a t Hst. set (s := run_at shut_next init sched t) in *.
  destruct (stop_waits s) eqn:Hw; [|by apply (stop_goes_on a Hs t)].
  pose proof Hst as ((Hi&Hd)&Hr). unfold stop_waits in Hw. destruct (sd_stop s) as [| |j| | |] eqn:Hj; try done.
  2: { exists t. split; [done|]. left. by left. }
  pose proof (si_stop _ _ _ _ _ s Hi) as Hb. rewrite Hj in Hb. destruct (lookup_lt_is_Some_2 (sd_lis s) j) as [c Hc]; [by rewrite (si_length _ _ _ _ _ s Hi)|].
  destruct (joined_thread_ends j (Hl j Hb) (lis_rank c) t) as (t'&Ht'&[Hov|Hend]); [by apply joining_intro|by exists t'; split; [|left]|].
  destruct (stop_goes_on a Hs t') as (t2&Ht2&Hend2); [|exists t2; split; [lia|done]].
  destruct Hend as ((Hi'&Hd')&Hst'&c'&Hc'&Hr'). split; [split; [done|by rewrite Hst']|].
  unfold stop_waits, thread_ended. rewrite Hst', Hc'. by destruct c' as [| | | |]; cbn in Hr'; try lia.
Qed.

(** ** A wait that never returns *)

Lemma next_keeps_place l s j : l <> DoStop -> (forall b, l <> DoListener j b) ->
  sd_stop (shut_next l s) = sd_stop s /\ sd_lis (shut_next l s) !! j = sd_lis s !! j.
Proof using.
  intros Hl Hj. unfold shut_next. destruct (sd_dead s); [done|]. destruct l as [|i woken|pi pfd ev|i]; [done|..].
  - destruct (c ← sd_lis s !! i; lis_access i woken c) as [mm|]; [|done]. unfold shut_exec. destruct (mm (sd_world s)) as [[a| | | | |] w]; try done.
    cbn. split; [done|]. apply list_lookup_insert_ne. intros ->. by apply (Hj woken).
  - unfold shut_exec. by destruct (spin _ _) as [[a| | | | |] w].
  - unfold shut_exec. by destruct (app_queue _ _ _ _ _) as [[a| | | | |] w].
Qed.

(** Before the join of listener [j], [stop] goes to the next part. *)
Lemma stop_stays_before s j : inv s -> (j < n)%nat -> not_joined j (sd_stop s) -> thread_ended s j = false -> not_joined j (sd_stop (shut_next DoStop s)).
Proof using.
  intros Hi Hj Hst He. unfold shut_next. destruct (sd_dead s); [done|]. destruct (stop_waits s) eqn:Hw; [done|].
  destruct (si_counted _ _ _ _ _ s Hi) as [Hcn _]. unfold stop_waits in Hw. unfold shut_exec, stop_access. rewrite bind_gets.
  destruct (sd_stop s) as [j'|j'|j'| |j'|] eqn:Hs; cbn in Hst; [..|done|done].
  - destruct (lookup_lt_is_Some_2 (lstListener (w_env (sd_world s))) j') as [l Hl]; [lia|]. rewrite Hl. fold clear_running.
    by rewrite (bind_Ok _ _ _ _ _ (flag_unchanged j' l _ Hl)), bind_ignore.
  - by rewrite bind_ignore.
  - assert (j' <> j) by (intros ->; apply negb_false_iff in Hw; congruence).
    destruct (lookup_lt_is_Some_2 (lstListener (w_env (sd_world s))) j') as [l Hl]; [lia|].
    rewrite Hl, (bind_Ok (deref (Some l)) _ _ l (sd_world s)), (si_threads _ _ _ _ _ s Hi j' l Hl), bind_ignore by (done || rewrite Hs; cbn; lia). cbn. lia.
  - done.
Qed.

Lemma stop_hangs t j e : (forall t, inv (run_at shut_next init sched t)) -> sd_lis (run_at shut_next init sched t) !! j = Some (LWait e) ->
  not_joined j (sd_stop (run_at shut_next init sched t)) -> (forall t', (t <= t')%nat -> sched t' <> DoListener j true) ->
  forall t', (t <= t')%nat -> sd_stop (run_at shut_next init sched t') <> SDone.
Proof using.
  intros Hinv Hl Hst Hsched t' Ht'.
  enough (Hj : inv (run_at shut_next init sched t') /\ sd_lis (run_at shut_next init sched t') !! j = Some (LWait e) /\ not_joined j (sd_stop (run_at shut_next init sched t'))).
  { destruct Hj as (_&_&Hj). intros Hd. by rewrite Hd in Hj. }
  apply (run_invariant_from shut_next init sched (fun s => inv s /\ sd_lis s !! j = Some (LWait e) /\ not_joined j (sd_stop s)) t); [done| |done].
  clear t' Ht'. intros t' s Ht (Hi&Hlj&Hsj). split; [by apply inv_next|]. specialize (Hsched t' Ht).
  assert (Hjn : (j < n)%nat) by (rewrite <- (si_length _ _ _ _ _ s Hi); by eapply lookup_lt_Some).
  destruct (decide (sched t' = DoStop)) as [->|Hne].
  - split; [|apply stop_stays_before; [done..|unfold thread_ended; by rewrite Hlj]].
    unfold shut_next. destruct (sd_dead s); [done|]. destruct (stop_waits s); [done|]. unfold shut_exec.
    by destruct (stop_access (sd_stop s) (sd_world s)) as [[a| | | | |] w].
  - assert ((exists b, sched t' = DoListener j b) \/ forall b, sched t' <> DoListener j b) as [[b Hb]|Hb].
    { destruct (sched t') as [|i b| |]; [by right| |by right..]. destruct (decide (i = j)) as [->|]; [left; eauto|right; congruence]. }
    + destruct b; [done|]. rewrite Hb. unfold shut_next. destruct (sd_dead s); [done|]. by rewrite Hlj.
    + destruct (next_keeps_place (sched t') s j Hne Hb) as [-> ->]. done.
Qed.
End Inv.
End Shutdown.
Arguments shut : clear implicits.

(** C3. [TCPService::stop] against the threads of its listeners, with processors and the application
    thread running, in every run from every moment at which it may be called (each listener was
    started and each connector has tried to connect).  If the scheduler is fair and every wait
    returns some time, [stop] returns, unless another thread ends the process first.  If a listener's
    thread stays in its wait (nothing but the close of the descriptor could wake it), [stop] never
    returns.  And the processor is left running: its flag and its threads are never touched. *)
Theorem service_stop {K U : Type} `{Kernel K, !EpollDescriptors K} (RecvBufSize SendBufSize : Z) (h : IEventHandler U)
    (user_init : U) (create_null : bool) (w : world K (EventHandler U) epoll_env) (lis : list lis_pc) (sched : nat -> shut_label) :
  length lis = length (lstListener (w_env w)) ->
  Forall (fun c => forall e, lis_efd c = Some e -> e = epollFd (scheder (w_env w))) lis ->
  Forall (fun l => runThread l = true) (lstListener (w_env w)) -> Forall (fun c => is_Some (c_fd c)) (lstConnector (w_env w)) ->
  let run := run_at (shut_next RecvBufSize SendBufSize h user_init create_null) (mk_shut w lis (SListener 0) None) sched in
  (fair sched (fun l => l = DoStop) -> (forall j, (j < length lis)%nat -> fair sched (fun l => l = DoListener j true)) ->
   exists t, sd_stop (run t) = SDone \/ exists l o, sd_dead (run t) = Some (l, o) /\ l <> DoStop) /\
  (forall t j e, sd_lis (run t) !! j = Some (LWait e) -> not_joined j (sd_stop (run t)) ->
   (forall t', (t <= t')%nat -> sched t' <> DoListener j true) -> forall t', (t <= t')%nat -> sd_stop (run t') <> SDone) /\
  (forall t, isRunning (processor (w_env (sd_world (run t)))) = isRunning (processor (w_env w)) /\
             procThreads (processor (w_env (sd_world (run t)))) = procThreads (processor (w_env w))).
Proof.
  intros Hlen Hefd Hth Hco run. set (n := length lis) in *. set (m := length (lstConnector (w_env w))).
  assert (Hinv : forall t, shut_inv (epollFd (scheder (w_env w))) n m (isRunning (processor (w_env w))) (procThreads (processor (w_env w))) (run t)).
  { apply run_invariant; [|intros l s; apply inv_next]. split; cbn; try done; try lia.
    - intros j l Hl _. by apply (Forall_lookup_1 _ _ _ _ Hth Hl).
    - intros j c Hc. by apply (Forall_lookup_1 _ _ _ _ Hco Hc). }
  split_and!.
  - intros Hs Hl. destruct (stop_is_over RecvBufSize SendBufSize h user_init create_null (epollFd (scheder (w_env w))) n m (isRunning (processor (w_env w)))
      (procThreads (processor (w_env w))) (mk_shut w lis (SListener 0) None) sched (stop_rank n m (SListener 0)) Hs Hl 0%nat)
      as (t&_&[|[[l o] Hd]]); [split; [split; [apply (Hinv 0%nat)|done]|done]|by exists t; left|].
    exists t. right. exists l, o. split; [done|]. intros ->. by apply (si_dead _ _ _ _ _ _ (Hinv t) o).
  - intros t j e. by apply (stop_hangs RecvBufSize SendBufSize h user_init create_null (epollFd (scheder (w_env w))) n m (isRunning (processor (w_env w)))
      (procThreads (processor (w_env w))) (mk_shut w lis (SListener 0) None) sched).
  - intros t. apply (Hinv t).
Qed.

(** ** Concrete runs *)

(** A kernel that knows its epoll descriptors and answers the rest from a script. *)
Record desc_kernel := mk_desc { dk_epolls : gset Z; dk_script : script }.

Definition EBADF : Z := 9.

#[export] Instance desc_kernel_sys : Kernel desc_kernel := fun c k =>
  match c with
  | Sys_close f => (sys_result 0, mk_desc (dk_epolls k ∖ {[f]}) (dk_script k))
  | Sys_epoll_create _ =>
      let '(r, s) := sys c (dk_script k) in (r, mk_desc (dk_epolls k ∪ {[sr_ret r]}) s)
  | Sys_epoll_wait f _ _ =>
      if decide (f ∈ dk_epolls k) then let '(r, s) := sys c (dk_script k) in (r, mk_desc (dk_epolls k) s) else (sys_error EBADF, k)
  | _ => let '(r, s) := sys c (dk_script k) in (r, mk_desc (dk_epolls k) s)
  end.

#[export, refine] Instance desc_descriptors : EpollDescriptors desc_kernel := {| not_epoll := fun k f => f ∉ dk_epolls k |}.
Proof.
  - intros k f. cbn. set_solver.
  - intros k f c Hc Hk. unfold sys, desc_kernel_sys. destruct c; try (by destruct (sys _ (dk_script k))).
    + by destruct (Hc size).
    + case_decide; [by destruct (sys _ (dk_script k))|done].
    + cbn [snd dk_epolls]. set_solver.
  - intros k f n t Hk. unfold sys, desc_kernel_sys. by rewrite decide_False.
Defined.

(** One listener on descriptor 4 behind the epoll descriptor 3; its thread waits. *)
Definition stop_world (k : script) : world desc_kernel (EventHandler unit) epoll_env :=
  mk_world (mk_desc {[3]} k) 0 [] heap_empty
    (mk_env (mk_Scheduler 3 [] 1) Processor_new [mk_Listener 0 80 5 4 true true None] [] Properties_default None).

(** The two threads in turn, each wait returns. *)
Definition in_turn (t : nat) : shut_label := if Nat.even t then DoStop else DoListener 0 true.

Lemma in_turn_fair l : l = DoStop \/ l = DoListener 0 true -> fair in_turn (fun l' => l' = l).
Proof.
  intros [-> | ->] t; unfold in_turn.
  - exists (2 * t)%nat. rewrite Nat.even_mul. split; [lia|done].
  - exists (S (2 * t)). rewrite Nat.even_succ, Nat.odd_mul. split; [lia|done].
Qed.

Definition stop_run (sched : nat -> shut_label) (t : nat) : shut desc_kernel unit :=
  run_at (shut_next 16 16 EventHandler_default tt false) (mk_shut (stop_world []) [LWait 3] (SListener 0) None) sched t.

Lemma service_stop_witness :
  sd_stop (stop_run in_turn 15) = SDone /\ sd_dead (stop_run in_turn 15) = None /\
  (exists t, sd_stop (stop_run in_turn t) = SDone \/ exists l o, sd_dead (stop_run in_turn t) = Some (l, o) /\ l <> DoStop) /\
  forall t, sd_stop (stop_run (fun _ => DoStop) t) <> SDone.
Proof.
  assert (H1 : Forall (fun c => forall e, lis_efd c = Some e -> e = epollFd (scheder (w_env (stop_world [])))) [LWait 3])
    by (apply Forall_singleton; cbn; congruence).
  assert (H2 : Forall (fun l => runThread l = true) (lstListener (w_env (stop_world [])))) by (by apply Forall_singleton).
  assert (H3 : Forall (fun c => is_Some (c_fd c)) (lstConnector (w_env (stop_world [])))) by apply Forall_nil_2.
  split_and!; [vm_compute; reflexivity..| |].
  - apply (service_stop 16 16 EventHandler_default tt false (stop_world []) [LWait 3] in_turn eq_refl H1 H2 H3); [apply in_turn_fair; by left|].
    intros j Hj. cbn in Hj. assert (j = 0)%nat as -> by lia. apply in_turn_fair. by right.
  - intros t. apply (proj1 (proj2 (service_stop 16 16 EventHandler_default tt false (stop_world []) [LWait 3] (fun _ => DoStop) eq_refl H1 H2 H3)) 0%nat 0%nat 3);
      [done|cbn; lia|done|lia].
Defined.

(** A listener's thread that found a connection before [stop] closed the listening descriptor fails
    to accept it and throws: the exception leaves the thread and the process ends. *)
Lemma stop_ends_process :
  let k := [mk_sysret 1 0 [] [mk_epoll_event EPOLLIN (DFd 4)] []; sys_error EBADF] in
  let sched t := match t with 1%nat => DoStop | _ => DoListener 0 true end in
  sd_dead (run_at (shut_next 16 16 EventHandler_default tt false) (mk_shut (stop_world k) [LWait 3] (SListener 0) None) sched 3)
    = Some (DoListener 0 true, Throw EBADF).
Proof. vm_compute. reflexivity. Qed.
