(* ===== verification/ProcessorStop.v ===== *)
(** * Stopping a processor while its threads run

    [Processor::stop] clears the flag, joins the processor's threads, deletes their message queues
    and joins the application thread.  The threads are cut where they read the flag, wait, handle one
    event or serve one queue. *)

From S2P Require Import Prelude Fairness Cut Heap NetApi SendBuffer SpscQueue ObjectPool Os EpollSession EpollNet EpollFrame EpollService Shutdown.

Section ProcessorStop.
Context {K U : Type} `{Kernel K}.
Context (RecvBufSize SendBufSize : Z) (h : IEventHandler U) (user_init : U) (create_null : bool).
Local Open Scope tinynet_scope.
Local Abbreviation W := (world K (EventHandler U) epoll_env).

(** ** The threads *)

(** A thread of the processor in [Processor::run], with its local [procFd]. *)
Inductive proc_pc :=
| PStart
| PTest (pfd : Z)
| PWait (pfd : Z)
| PEvents (pfd : Z) (evs : list epoll_event)
| PEnded.

Definition proc_access (i : nat) (woken : bool) (c : proc_pc) : option (M W proc_pc) :=
  match c with
  | PStart => Some (
      let* sch := gets (fun w => scheder (w_env w)) in
      let* pfd := deref (zget (procFds sch) (Z.of_nat i)) in
      ret (PTest pfd))
  | PTest pfd => Some (
      let* pr := gets (fun w => processor (w_env w)) in
      ret (if isRunning pr then PWait pfd else PEnded))
  | PWait pfd =>
      if woken then Some (
        let* r := sys_call (Sys_epoll_wait pfd MAX_WAIT_EVENT (-1)) in
        if sr_ret r <? 0 then c_assert false false ;; ret (PTest pfd)
        else if zlen (sr_events r) <? sr_ret r then undefined
        else ret (PEvents pfd (take (Z.to_nat (sr_ret r)) (sr_events r))))
      else None
  | PEvents pfd [] => Some (ret (PTest pfd))
  | PEvents pfd (ev :: evs) => Some (
      handle_event RecvBufSize SendBufSize h false (Z.to_nat RecvBufSize) (Z.of_nat i) pfd ev ;; ret (PEvents pfd evs))
  | PEnded => None
  end.

(** The application thread in [Processor::app_run]: before the test of the flag, before queue [j] of
    a round over [n]. *)
Inductive app_pc := ATest | AQueue (j n : nat) | AEnded.

Definition app_access (c : app_pc) : option (M W app_pc) :=
  match c with
  | ATest => Some (
      let* pr := gets (fun w => processor (w_env w)) in
      ret (if isRunning pr then AQueue 0 (length (msgQueues pr)) else AEnded))
  | AQueue j n => Some (if decide (j < n)%nat then app_queue SendBufSize h false j ;; ret (AQueue (S j) n) else ret ATest)
  | AEnded => None
  end.

(** The stopping thread in [Processor::stop]. *)
Inductive pstop_pc := QTest | QClose | QJoin (j : nat) | QDelete | QJoinApp | QDone.

#[export] Instance pstop_pc_eq_dec : EqDecision pstop_pc.
Proof. solve_decision. Defined.

Definition pstop_access (c : pstop_pc) : M W pstop_pc :=
  let* e := gets w_env in
  match c with
  | QTest => if isRunning (processor e) then update_processor (set_running false) ;; ret QClose else ret QDone
  | QClose => sys_ignore (Sys_close (epollFd (scheder e))) ;; ret (QJoin 0)
  | QJoin j =>
      match procThreads (processor e) !! j with
      | Some t => sys_ignore (Sys_join t) ;; ret (QJoin (S j))
      | None => ret QDelete
      end
  | QDelete => update_processor (set_threads []) ;; update_processor (set_queues []) ;; ret QJoinApp
  | QJoinApp => if appThread (processor e) then sys_ignore (Sys_join AppThread) ;; update_processor (set_app false) ;; ret QDone else throw_std
  | QDone => ret QDone
  end.

(** ** The system *)

Inductive pstop_label :=
| PStop
| PProc (i : nat) (woken : bool)
| PApp
| PListener (i : nat) (ev : epoll_event).

#[export] Instance pstop_label_eq_dec : EqDecision pstop_label.
Proof. solve_decision. Defined.

(** [ps_dead]: the step that ended the process, and how, or the thread that never leaves its packet
    loop. *)
Record pstop := mk_pstop {
  ps_world : W;
  ps_procs : list proc_pc;
  ps_app : app_pc;
  ps_stop : pstop_pc;
  ps_dead : option (pstop_label * outcome unit)
}.

Definition pstop_exec {A} (l : pstop_label) (m : M W A) (place : A -> pstop -> pstop) (s : pstop) : pstop :=
  match m (ps_world s) with
  | (Ok a, w) => place a (mk_pstop w (ps_procs s) (ps_app s) (ps_stop s) None)
  | (o, w) => mk_pstop w (ps_procs s) (ps_app s) (ps_stop s) (Some (l, void o))
  end.

Definition proc_ended (s : pstop) (j : nat) : bool :=
  match ps_procs s !! j with Some PEnded => true | Some _ => false | None => true end.

(** A join waits for its thread. *)
Definition pstop_waits (s : pstop) : bool :=
  match ps_stop s with
  | QJoin j => negb (proc_ended s j)
  | QJoinApp => match ps_app s with AEnded => false | _ => true end
  | QDone => true
  | _ => false
  end.

Definition pstop_next (l : pstop_label) (s : pstop) : pstop :=
  match ps_dead s with
  | Some _ => s
  | None =>
      match l with
      | PStop =>
          if pstop_waits s then s
          else pstop_exec l (pstop_access (ps_stop s)) (fun c s => mk_pstop (ps_world s) (ps_procs s) (ps_app s) c None) s
      | PProc i woken =>
          match c ← ps_procs s !! i; proc_access i woken c with
          | Some m => pstop_exec l m (fun c s => mk_pstop (ps_world s) (<[i := c]> (ps_procs s)) (ps_app s) (ps_stop s) None) s
          | None => s
          end
      | PApp =>
          match app_access (ps_app s) with
          | Some m => pstop_exec l m (fun c s => mk_pstop (ps_world s) (ps_procs s) c (ps_stop s) None) s
          | None => s
          end
      | PListener i ev => pstop_exec l (listen_event RecvBufSize SendBufSize h user_init create_null false i ev) (fun _ s => s) s
      end
  end.

(** ** The cut is that of the code *)

Local Abbreviation pstop_ends := (runs_as (fun c => Some (pstop_access c)) QDone).

Lemma pstop_joins_cut (ts : list thread_id) j (k : M W unit) w : drop j (procThreads (processor (w_env w))) = ts ->
  (forall w', processor (w_env w') = processor (w_env w) -> pstop_ends QDelete w' (k w')) ->
  pstop_ends (QJoin j) w (bind (for_each ts (fun t => sys_ignore (Sys_join t))) (fun _ => k) w).
Proof.
  revert j w. induction ts as [|t ts IH]; intros j w Hd Hk.
  - eapply cut_step_total; [unfold pstop_access; rewrite bind_gets|by apply Hk].
    assert (procThreads (processor (w_env w)) !! j = None) as ->; [|reflexivity].
    rewrite <- (Nat.add_0_r j), <- lookup_drop, Hd. done.
  - cbn [for_each]. rewrite <- bind_assoc, bind_ignore. eapply cut_step_total.
    + unfold pstop_access. rewrite bind_gets. assert (procThreads (processor (w_env w)) !! j = Some t) as ->.
      { by rewrite <- (Nat.add_0_r j), <- lookup_drop, Hd. }
      rewrite bind_ignore. reflexivity.
    + apply IH; rewrite called_env; [|done]. rewrite <- Nat.add_1_r, <- drop_drop, Hd. done.
Qed.

(** The accesses of the stopping thread are [Processor::stop]. *)
Lemma pstop_run_cut w : pstop_ends QTest w (Processor_stop w).
Proof.
  unfold Processor_stop. rewrite bind_gets. destruct (isRunning (processor (w_env w))) eqn:Hr; cbn [negb].
  - eapply cut_step_total; [unfold pstop_access; rewrite bind_gets, Hr; reflexivity|].
    rewrite (bind_Ok (update_processor (set_running false)) _ w tt (set_env (set_processor (set_running false (processor (w_env w))) (w_env w)) w)) by done.
    set (w1 := set_env _ w). rewrite bind_gets, bind_ignore. eapply cut_step_total; [unfold pstop_access; rewrite bind_gets, bind_ignore; reflexivity|].
    apply pstop_joins_cut; [by rewrite called_env|]. intros w2 E2. rewrite called_env in E2.
    eapply cut_step_total; [reflexivity|]. rewrite !(bind_Ok (update_processor _) _ _ tt _ eq_refl). cbn [w_env set_env].
    change (appThread (processor (w_env w))) with (appThread (processor (w_env w1))). rewrite <- E2. set (w3 := set_env _ _).
    assert (Ha : appThread (processor (w_env w3)) = appThread (processor (w_env w2))) by done. rewrite <- Ha.
    destruct (appThread (processor (w_env w3))) eqn:Happ.
    + eapply cut_step_total; [unfold pstop_access; rewrite bind_gets, Happ, bind_ignore; reflexivity|]. rewrite bind_ignore.
      apply cut_done.
    + eapply cut_fails_total; [unfold pstop_access; rewrite bind_gets, Happ; reflexivity|done|done].
  - eapply cut_step_total; [unfold pstop_access; rewrite bind_gets, Hr; reflexivity|]. apply cut_done.
Qed.

Local Abbreviation proc_like i := (runs_like (proc_access i true) PEnded).

Lemma proc_loop_cut rounds i pfd w : proc_like i (PTest pfd) w (run_loop RecvBufSize SendBufSize h false rounds (Z.to_nat RecvBufSize) (Z.of_nat i) pfd w).
Proof.
  revert w. induction rounds as [|rounds IH]; intros w; cbn [run_loop]; rewrite bind_gets; destruct (isRunning (processor (w_env w))) eqn:Hr; cbn [negb].
  2,4: left; eapply cut_step; [reflexivity|rewrite bind_gets, Hr; reflexivity|]; apply cut_done.
  { by right. }
  enough (Hto : proc_like i (PWait pfd) w (bind (run_iter RecvBufSize SendBufSize h false (Z.to_nat RecvBufSize) (Z.of_nat i) pfd)
    (fun _ => run_loop RecvBufSize SendBufSize h false rounds (Z.to_nat RecvBufSize) (Z.of_nat i) pfd) w)).
  { destruct Hto as [He|]; [left|by right]. eapply cut_step; [reflexivity|rewrite bind_gets, Hr; reflexivity|done]. }
  unfold run_iter. rewrite <- bind_assoc. destruct (sys_call (Sys_epoll_wait pfd MAX_WAIT_EVENT (-1)) w) as [o w1] eqn:Hs.
  pose proof Hs as Hs'. unfold sys_call in Hs'. destruct (sys _ (w_kernel w)) as [a k]. injection Hs' as <- _.
  rewrite (bind_Ok _ _ _ _ _ Hs). destruct (sr_ret a <? 0) eqn:Hneg; [|destruct (zlen (sr_events a) <? sr_ret a) eqn:Hlen].
  - destruct (IH w1) as [He|]; [left|by right]. eapply cut_step; [reflexivity|rewrite (bind_Ok _ _ _ _ _ Hs), Hneg; reflexivity|exact He].
  - left. eapply cut_fails; [reflexivity|rewrite (bind_Ok _ _ _ _ _ Hs), Hneg, Hlen; reflexivity|done|done].
  - edestruct (cut_for_each (proc_access i true) PEnded (handle_event RecvBufSize SendBufSize h false (Z.to_nat RecvBufSize) (Z.of_nat i) pfd) (PEvents pfd))
      as [He|]; [| |left|right; eassumption].
    + done.
    + intros w'. destruct (IH w') as [He|]; [left|by right]. by eapply cut_step.
    + eapply cut_step; [reflexivity|rewrite (bind_Ok _ _ _ _ _ Hs), Hneg, Hlen; reflexivity|exact He].
Qed.

(** The accesses of a thread of the processor are [Processor::run]. *)
Lemma proc_run_cut rounds i w : proc_like i PStart w (Processor_run RecvBufSize SendBufSize h false rounds (Z.to_nat RecvBufSize) (Z.of_nat i) w).
Proof.
  unfold Processor_run. rewrite bind_gets. destruct (zget (procFds (scheder (w_env w))) (Z.of_nat i)) as [pfd|] eqn:Hp.
  - rewrite (bind_Ok (deref (Some pfd)) _ w pfd w) by done. destruct (proc_loop_cut rounds i pfd w) as [He|]; [left|by right].
    eapply cut_step; [reflexivity|rewrite bind_gets, Hp; reflexivity|done].
  - left. eapply cut_fails; [reflexivity|rewrite bind_gets, Hp; reflexivity|done|done].
Qed.

Local Abbreviation app_like := (runs_like app_access AEnded).

(** The accesses of the application thread are [app_run]. *)
Lemma app_run_cut rounds w : app_like ATest w (Processor_app_run SendBufSize h false rounds w).
Proof.
  revert w. induction rounds as [|rounds IH]; intros w; cbn [Processor_app_run]; rewrite bind_gets; destruct (isRunning (processor (w_env w))) eqn:Hr; cbn [negb].
  2,4: left; eapply cut_step; [reflexivity|rewrite bind_gets, Hr; reflexivity|]; apply cut_done.
  { by right. }
  set (n := length (msgQueues (processor (w_env w)))). unfold app_round. rewrite <- bind_assoc, bind_gets. fold n.
  edestruct (cut_for_each app_access AEnded (app_queue SendBufSize h false) (fun js => AQueue (n - length js) n) (Processor_app_run SendBufSize h false rounds) (seq 0 n))
    as [He|]; [| |left|right; eassumption].
  - intros j js [js' Hjs]. assert (Hx : seq 0 n !! length js' = Some j) by (rewrite Hjs; by apply list_lookup_middle).
    pose proof (f_equal length Hjs) as Hl. rewrite length_app, length_seq in Hl. cbn [length] in Hl. apply lookup_seq in Hx as [Hj Hlt].
    cbn [app_access length]. rewrite decide_True by lia. replace (n - S (length js))%nat with j by lia. replace (n - length js)%nat with (S j) by lia. done.
  - intros w'. destruct (IH w') as [He|]; [left|by right]. cbn [length]. rewrite Nat.sub_0_r.
    eapply cut_step; [reflexivity|cbn; rewrite decide_False by lia; reflexivity|done].
  - eapply cut_step; [reflexivity|rewrite bind_gets, Hr; reflexivity|]. fold n. cbn beta in He. rewrite length_seq, Nat.sub_diag in He. exact He.
Qed.

(** ** The invariant *)

Context (nt : nat).

(** What holds of the shape of the environment and of the threads at each place of [stop]. *)
Definition pstop_ok (sh : shape) (procs : list proc_pc) (c : pstop_pc) : Prop :=
  let threads := length (sh_threads sh) = nt /\ sh_queues sh = nt /\ sh_app sh = true in
  sh_running sh = (match c with QTest => true | _ => false end) /\
  match c with
  | QTest | QClose => threads
  | QJoin j => threads /\ (j <= nt)%nat /\ Forall (fun c => c = PEnded) (take j procs)
  | QDelete => threads /\ Forall (fun c => c = PEnded) procs
  | QJoinApp => sh_app sh = true /\ sh_queues sh = 0%nat /\ Forall (fun c => c = PEnded) procs
  | QDone => Forall (fun c => c = PEnded) procs
  end.

Definition pinv (s : pstop) : Prop :=
  length (ps_procs s) = nt /\ pstop_ok (shape_of (w_env (ps_world s))) (ps_procs s) (ps_stop s) /\
  (ps_stop s = QDone -> ps_app s = AEnded) /\ forall o, ps_dead s <> Some (PStop, o).

Local Abbreviation frame s := (framed (K:=K) (U:=U) (fun _ => True) (shape_of (w_env (ps_world s)))).

Lemma frame_exec {A} l (m : M W A) (place : A -> pstop -> pstop) s : pinv s -> l <> PStop -> keeps (frame s) m ->
  (forall a w, m (ps_world s) = (Ok a, w) -> shape_of (w_env w) = shape_of (w_env (ps_world s)) -> pinv (place a (mk_pstop w (ps_procs s) (ps_app s) (ps_stop s) None))) ->
  pinv (pstop_exec l m place s).
Proof using.
  intros (H1&H2&H4&H3) Hl Hm Hp. specialize (Hm (ps_world s) (conj eq_refl I)). unfold pstop_exec.
  destruct (m (ps_world s)) as [[a| | | | |] w] eqn:Em; destruct Hm as [Hsh _]; try (split_and!; cbn; [done|by rewrite Hsh|done|intros o; congruence]). by apply Hp.
Qed.

Lemma frame_proc s i woken c m : proc_access i woken c = Some m -> keeps (frame s) m.
Proof using.
  destruct c as [|pfd|pfd|pfd [|ev evs]|]; cbn; [..|done].
  - intros [= <-]. apply keeps_bind; [apply keeps_gets|intros]. apply keeps_bind; [apply keeps_deref|intros]. apply keeps_ret.
  - intros [= <-]. apply keeps_bind; [apply keeps_gets|intros]. apply keeps_ret.
  - destruct woken; [|done]. intros [= <-]. apply keeps_bind; [by apply framed_call|intros r].
    destruct (sr_ret r <? 0); [apply keeps_bind; [apply keeps_assert|intros; apply keeps_ret]|]. destruct (_ <? _); [apply keeps_undefined|apply keeps_ret].
  - intros [= <-]. apply keeps_ret.
  - intros [= <-]. apply keeps_bind; [by apply framed_event|intros; apply keeps_ret].
Qed.

Lemma frame_app s c m : app_access c = Some m -> keeps (frame s) m.
Proof using.
  destruct c as [|j n|]; cbn; [..|done]; intros [= <-].
  - apply keeps_bind; [apply keeps_gets|intros]. apply keeps_ret.
  - case_decide; [apply keeps_bind; [by apply framed_app_queue|intros]|]; apply keeps_ret.
Qed.

(** A thread that makes a step has not ended. *)
Lemma ended_insert (procs : list proc_pc) i c c' j : procs !! i = Some c -> c <> PEnded -> Forall (fun c => c = PEnded) (take j procs) ->
  Forall (fun c => c = PEnded) (take j (<[i := c']> procs)).
Proof using.
  clear. intros Hi Hc Hf. destruct (decide (j <= i)%nat) as [Hle|Hgt]; [by rewrite take_insert_ge|]. exfalso. apply Hc.
  apply (Forall_lookup_1 _ _ i c Hf). rewrite lookup_take_lt by lia. done.
Qed.

Lemma pinv_proc s i c c' w : pinv s -> ps_procs s !! i = Some c -> c <> PEnded -> shape_of (w_env w) = shape_of (w_env (ps_world s)) ->
  pinv (mk_pstop w (<[i := c']> (ps_procs s)) (ps_app s) (ps_stop s) None).
Proof using.
  intros (H1&H2&H4&H3) Hi Hc Hsh. split_and!; cbn; [by rewrite length_insert| |done|done]. rewrite Hsh. destruct H2 as [Hr Hrest]. split; [done|].
  assert (Hall : Forall (fun c => c = PEnded) (ps_procs s) -> Forall (fun c => c = PEnded) (<[i := c']> (ps_procs s))).
  { intros Hf. exfalso. apply Hc. apply (Forall_lookup_1 _ _ _ _ Hf Hi). }
  destruct (ps_stop s); naive_solver eauto using ended_insert.
Qed.

Lemma pinv_other l s : pinv s -> l <> PStop -> pinv (pstop_next l s).
Proof using.
  intros Hs Hl. unfold pstop_next. destruct (ps_dead s) eqn:Hd; [done|]. pose proof Hs as (H1&H2&H4&H3). destruct l as [|i woken| |i ev]; [done|..].
  - destruct (ps_procs s !! i) as [c|] eqn:Hc; cbn; [|done]. destruct (proc_access i woken c) as [m|] eqn:Hm; [|done].
    apply frame_exec; [done|done|by eapply frame_proc|]. intros c' w _ Hsh. apply (pinv_proc s i c); [done|done|by destruct c|done].
  - destruct (app_access (ps_app s)) as [m|] eqn:Hm; [|done]. apply frame_exec; [done|done|by eapply frame_app|]. intros c' w _ Hsh.
    split_and!; cbn; [done|by rewrite Hsh| |done]. intros Hq. by rewrite (H4 Hq) in Hm.
  - apply frame_exec; [done|done|by apply framed_listen_event|]. intros [] w _ Hsh. split_and!; cbn; [done|by rewrite Hsh|done|done].
Qed.

(** How much of [stop] is left, and of the thread it waits for. *)
Definition pstop_rank (c : pstop_pc) : nat :=
  match c with QTest => nt + 5 | QClose => nt + 4 | QJoin j => nt - j + 3 | QDelete => 2 | QJoinApp => 1 | QDone => 0 end.

Definition proc_rank (c : proc_pc) : nat :=
  match c with PStart => 2 | PTest _ => 1 | PWait _ => Z.to_nat MAX_WAIT_EVENT + 3 | PEvents _ evs => length evs + 2 | PEnded => 0 end.
Definition app_rank (c : app_pc) : nat := match c with ATest => 1 | AQueue j n => n - j + 2 | AEnded => 0 end.

Definition wait_rank (s : pstop) : nat :=
  match ps_stop s with
  | QJoin j => match ps_procs s !! j with Some c => proc_rank c | None => 0 end
  | QJoinApp => app_rank (ps_app s)
  | _ => 0
  end.

Lemma wait_rank_0 s : ps_stop s <> QDone -> pstop_waits s = true <-> wait_rank s <> 0%nat.
Proof using.
  clear. intros Hd. unfold pstop_waits, wait_rank, proc_ended. destruct (ps_stop s) as [| |j| | |]; try done.
  - destruct (ps_procs s !! j) as [[]|]; cbn; split; try done; lia.
  - destruct (ps_app s); cbn; split; try done; lia.
Qed.

Lemma pstop_step s : pinv s -> pstop_waits s = false ->
  exists c' w', pstop_access (ps_stop s) (ps_world s) = (Ok c', w') /\ (pstop_rank c' < pstop_rank (ps_stop s))%nat /\
    pinv (mk_pstop w' (ps_procs s) (ps_app s) c' None).
Proof using.
  intros (H1&[Hr Hrest]&_) Hw. unfold pstop_waits, proc_ended in Hw. unfold pinv, pstop_ok. cbn [ps_procs ps_world ps_stop ps_dead ps_app].
  destruct (ps_stop s) as [| |j| | |] eqn:Hst; unfold pstop_access; rewrite bind_gets; cbn in Hr, Hrest; [..|done].
  - rewrite Hr. eexists _, _. split; [reflexivity|]. split; [cbn; lia|]. split_and!; try done; apply Hrest.
  - rewrite bind_ignore. eexists _, _. split; [reflexivity|]. split; [cbn; lia|]. rewrite called_env. split_and!; try done; cbn; try apply Hrest; lia.
  - destruct Hrest as ((T1&T2&T3)&Hj&Hend). destruct (procThreads (processor (w_env (ps_world s))) !! j) as [t|] eqn:Ht.
    + apply lookup_lt_Some in Ht as Hlt. rewrite bind_ignore. eexists _, _. split; [reflexivity|]. split; [cbn; lia|]. rewrite called_env.
      destruct (lookup_lt_is_Some_2 (ps_procs s) j) as [c Hc]; [lia|]. rewrite Hc in Hw. assert (c = PEnded) as -> by (by destruct c).
      split_and!; try done; try lia. rewrite (take_S_r _ _ _ Hc). apply Forall_app. by repeat constructor.
    + apply lookup_ge_None in Ht. eexists _, _. split; [reflexivity|]. split; [cbn; lia|]. rewrite take_ge in Hend by lia. by split_and!.
  - destruct Hrest as ((?&?&?)&?). eexists _, _. split; [reflexivity|]. split; [cbn; lia|]. by split_and!.
  - destruct Hrest as (Ha&_&He). rewrite Ha, bind_ignore. eexists _, _. split; [reflexivity|]. split; [cbn; lia|]. cbn. rewrite called_env.
    split_and!; try done. intros _. by destruct (ps_app s).
Qed.

Lemma pinv_next l s : pinv s -> pinv (pstop_next l s).
Proof using.
  intros Hs. destruct (decide (l = PStop)) as [->|Hl]; [|by apply pinv_other]. unfold pstop_next. destruct (ps_dead s) eqn:Hd; [done|].
  destruct (pstop_waits s) eqn:Hw; [done|]. destruct (pstop_step s Hs Hw) as (c'&w'&Ha&_&Hi). unfold pstop_exec. by rewrite Ha.
Qed.

(** ** Progress *)

Definition palive (s : pstop) : Prop := pinv s /\ ps_dead s = None.
Definition pover (s : pstop) : Prop := ps_stop s = QDone \/ is_Some (ps_dead s).

Lemma pexec_cases {A} l (m : M W A) place s : ps_dead s = None ->
  is_Some (ps_dead (pstop_exec l m place s)) \/
  exists a w, m (ps_world s) = (Ok a, w) /\ pstop_exec l m place s = place a (mk_pstop w (ps_procs s) (ps_app s) (ps_stop s) None).
Proof using.
  clear. intros Hd. unfold pstop_exec. destruct (m (ps_world s)) as [[a| | | | |] w]; [right; eauto|left; eexists; cbn; done..].
Qed.

(** The flag is clear at the joins. *)
Lemma joins_not_running s : pinv s -> wait_rank s <> 0%nat -> isRunning (processor (w_env (ps_world s))) = false.
Proof using. intros (_&[Hr _]&_) Hw. unfold wait_rank in Hw. cbn in Hr. by destruct (ps_stop s). Qed.

(** Each access brings a thread nearer to its end once the flag is clear. *)
Lemma proc_rank_falls `{!KernelLaws K} i woken c m w c' w' : isRunning (processor (w_env w)) = false -> proc_access i woken c = Some m ->
  m w = (Ok c', w') -> (proc_rank c' < proc_rank c)%nat.
Proof using.
  intros Hrun Hm Hw. destruct c as [|pfd|pfd|pfd [|ev evs]|]; cbn in Hm; [..|done].
  - injection Hm as <-. rewrite bind_gets in Hw. destruct (zget _ _) as [z|]; [|done]. injection Hw as <- <-. cbn. lia.
  - injection Hm as <-. rewrite bind_gets, Hrun in Hw. injection Hw as <- <-. cbn. lia.
  - destruct woken; [|done]. injection Hm as <-. destruct (sys_call (Sys_epoll_wait pfd MAX_WAIT_EVENT (-1)) w) as [o w1] eqn:Hs.
    pose proof Hs as Hs'. unfold sys_call in Hs'. pose proof (epoll_wait_law (w_kernel w) pfd MAX_WAIT_EVENT (-1)) as [Hle _].
    destruct (sys _ (w_kernel w)) as [a k]. injection Hs' as <- _. rewrite (bind_Ok _ _ _ _ _ Hs) in Hw. cbn [fst] in Hle.
    destruct (sr_ret a <? 0); [injection Hw as <- <-; cbn [proc_rank]; lia|]. destruct (_ <? _); [done|]. injection Hw as <- <-.
    cbn [proc_rank]. rewrite length_take. lia.
  - injection Hm as <-. injection Hw as <- <-. cbn. lia.
  - injection Hm as <-. unfold bind in Hw. destruct (handle_event _ _ _ _ _ _ _ _ _) as [[[]| | | | |] w1]; try done. injection Hw as <- <-. cbn. lia.
Qed.

Lemma app_rank_falls c m w c' w' : isRunning (processor (w_env w)) = false -> app_access c = Some m -> m w = (Ok c', w') -> (app_rank c' < app_rank c)%nat.
Proof using.
  intros Hrun Hm Hw. destruct c as [|j n|]; cbn in Hm; [..|done]; injection Hm as <-.
  - rewrite bind_gets, Hrun in Hw. injection Hw as <- <-. cbn. lia.
  - case_decide; [|injection Hw as <- <-; cbn; lia]. unfold bind in Hw. destruct (app_queue _ _ _ _ _) as [[[]| | | | |] w1]; try done.
    injection Hw as <- <-. cbn. lia.
Qed.

(** The thread the join at [c] waits for. *)
Definition waits_for (c : pstop_pc) (l : pstop_label) : Prop :=
  match c with QJoin j => l = PProc j true | QJoinApp => l = PApp | _ => False end.

Lemma proc_waited `{!KernelLaws K} s i woken : palive s ->
  let s' := pstop_next (PProc i woken) s in
  is_Some (ps_dead s') \/ ps_dead s' = None /\ ps_stop s' = ps_stop s /\ (wait_rank s' <= wait_rank s)%nat /\
    (waits_for (ps_stop s) (PProc i woken) -> wait_rank s <> 0%nat -> (wait_rank s' < wait_rank s)%nat).
Proof using.
  intros [Hi Hd] s'. unfold s', pstop_next. rewrite Hd. destruct (ps_procs s !! i) as [c|] eqn:Hc; cbn [mbind option_bind].
  2: { right. split_and!; [done..|]. unfold waits_for, wait_rank. destruct (ps_stop s); try done. intros [= -> _]. by rewrite Hc. }
  destruct (proc_access i woken c) as [m|] eqn:Hm.
  2: { right. split_and!; [done..|]. unfold waits_for, wait_rank. destruct (ps_stop s); try done. intros [= -> ->]. rewrite Hc. by destruct c as [| | |? []|]. }
  match goal with |- context [pstop_exec ?l ?m ?p s] => destruct (pexec_cases l m p s Hd) as [Hx|(c'&w&Hw&->)] end; [by left|right].
  cbn [ps_dead ps_stop]. pose proof (joins_not_running s Hi) as Hrun.
  unfold wait_rank, waits_for in *. cbn [ps_stop ps_procs ps_app]. destruct (ps_stop s) as [| |j| | |]; try (split_and!; done).
  destruct (decide (i = j)) as [->|Hne].
  - rewrite list_lookup_insert_eq by (by eapply lookup_lt_Some). rewrite Hc in Hrun |- *.
    assert (proc_rank c <> 0%nat) as Hr0 by (by destruct c as [| | |? []|]; cbn in *; try lia).
    pose proof (proc_rank_falls j woken c m (ps_world s) c' w (Hrun Hr0) Hm Hw). split_and!; [done|done|lia|done].
  - rewrite list_lookup_insert_ne by done. split_and!; [done..|]. congruence.
Qed.

Lemma other_waited `{!KernelLaws K} l s : palive s -> l <> PStop ->
  let s' := pstop_next l s in
  is_Some (ps_dead s') \/ ps_dead s' = None /\ ps_stop s' = ps_stop s /\ (wait_rank s' <= wait_rank s)%nat /\
    (waits_for (ps_stop s) l -> wait_rank s <> 0%nat -> (wait_rank s' < wait_rank s)%nat).
Proof using.
  intros Hs Hl. destruct l as [|i woken| |i ev]; [done|by apply proc_waited|..]; destruct Hs as [Hi Hd]; cbv zeta; unfold pstop_next; rewrite Hd.
  - destruct (app_access (ps_app s)) as [m|] eqn:Hm.
    2: { right. split_and!; [done..|]. unfold waits_for, wait_rank. destruct (ps_stop s); try done. by destruct (ps_app s). }
    match goal with |- context [pstop_exec ?l ?m ?p s] => destruct (pexec_cases l m p s Hd) as [Hx|(c'&w&Hw&->)] end; [by left|right].
    cbn [ps_dead ps_stop]. pose proof (joins_not_running s Hi) as Hrun.
    unfold wait_rank, waits_for in *. cbn [ps_stop ps_procs ps_app]. destruct (ps_stop s) as [| |j| | |]; try (split_and!; done).
    assert (app_rank (ps_app s) <> 0%nat) as Hr0 by (by destruct (ps_app s); cbn in *; try lia).
    pose proof (app_rank_falls (ps_app s) m (ps_world s) c' w (Hrun Hr0) Hm Hw). split_and!; [done|done|lia|done].
  - match goal with |- context [pstop_exec ?l ?m ?p s] => destruct (pexec_cases l m p s Hd) as [Hx|(c'&w&Hw&->)] end; [by left|right].
    cbn [ps_dead ps_stop]. unfold wait_rank, waits_for. cbn [ps_stop ps_procs ps_app]. split_and!; [done..|]. by destruct (ps_stop s).
Qed.

Context (init : pstop) (sched : nat -> pstop_label).
Local Abbreviation pleads := (leads_to pstop_next init sched).

(** [stop] is at [c] and the thread it waits for has [b] to go. *)
Definition stopping_at (c : pstop_pc) (b : nat) (s : pstop) : Prop := palive s /\ ps_stop s = c /\ wait_rank s = b.
Definition goes_on (c : pstop_pc) (s : pstop) : Prop :=
  pover s \/ exists c', (pstop_rank c' < pstop_rank c)%nat /\ exists b, stopping_at c' b s.

(** The other threads. *)
Lemma stopping_other `{!KernelLaws K} c b l s : stopping_at c b s -> l <> PStop ->
  let s' := pstop_next l s in
  pover s' \/ exists b', (b' <= b)%nat /\ (waits_for c l -> b <> 0%nat -> (b' < b)%nat) /\ stopping_at c b' s'.
Proof using.
  intros (Hs&Hc&Hb) Hl s'. destruct (other_waited l s Hs Hl) as [Hd|(Hd'&Hs'&Hle&Hlt)]; [left; by right|right]. fold s' in Hd', Hs', Hle, Hlt.
  exists (wait_rank s'). subst b c. split_and!; [done|done|]. split; [|done]. split; [apply pinv_next, Hs|done].
Qed.

(** The stopping thread, when nothing keeps it waiting. *)
Lemma stopping_falls c s : stopping_at c 0 s -> c <> QDone -> goes_on c (pstop_next PStop s).
Proof using.
  intros ((Hi&Hd)&Hc&Hb) Hne. assert (Hw : pstop_waits s = false).
  { apply not_true_iff_false. rewrite wait_rank_0 by congruence. lia. }
  destruct (pstop_step s Hi Hw) as (c'&w'&Ha&Hlt&Hi'). unfold goes_on, pstop_next, pstop_exec. rewrite Hd, Hw, Ha. right.
  exists c'. split; [congruence|]. eexists. split; [by split|]. by split.
Qed.

Lemma joined_is_waited c b s : stopping_at c b s -> b <> 0%nat -> fair sched (fun l => l = PApp) ->
  (forall j, (j < nt)%nat -> fair sched (fun l => l = PProc j true)) -> fair sched (waits_for c).
Proof using.
  intros (([Hl _]&_)&Hc&Hb) Hne Happ Hproc. unfold wait_rank in Hb. rewrite Hc in Hb. destruct c as [| |j| | |]; try (cbn in Hb; congruence).
  - destruct (ps_procs s !! j) as [c|] eqn:Hj; [|congruence]. apply Hproc. rewrite <- Hl. by eapply lookup_lt_Some.
  - apply Happ.
Qed.

(** The place is left. *)
Lemma stopping_leaves `{!KernelLaws K} c : fair sched (fun l => l = PStop) -> fair sched (fun l => l = PApp) ->
  (forall j, (j < nt)%nat -> fair sched (fun l => l = PProc j true)) -> forall b, pleads (stopping_at c b) (goes_on c).
Proof using.
  intros Hfs Hfa Hfp. destruct (decide (c = QDone)) as [->|Hne].
  { intros b. apply leads_to_impl. intros s (_&Hc&_). left. by left. }
  apply (leads_to_wf _ _ _ lt); [apply lt_wf|]. intros [|b].
  - apply (leads_to_ensures _ _ _ (fun l => l = PStop)); [done|..].
    + intros l s Hs. destruct (decide (l = PStop)) as [->|Hl]; [right; left; by apply stopping_falls|].
      destruct (stopping_other c 0 l s Hs Hl) as [|(b'&Hb'&_&Hs')]; [right; left; by left|left]. by assert (b' = 0)%nat as -> by lia.
    + intros l s Hs ->. left. by apply stopping_falls.
  - intros t Ht. pose proof (joined_is_waited c (S b) _ Ht ltac:(done) Hfa Hfp) as Hf. revert t Ht.
    change (pleads (stopping_at c (S b)) (fun s => goes_on c s \/ exists b', (b' < S b)%nat /\ stopping_at c b' s)).
    apply (leads_to_ensures _ _ _ (waits_for c)); [done|..].
    + intros l s Hs. destruct (decide (l = PStop)) as [->|Hl].
      * left. unfold pstop_next. assert (pstop_waits s = true) as ->; [|by destruct (ps_dead s)].
        destruct Hs as (_&Hc&Hb). apply wait_rank_0; [congruence|lia].
      * destruct (stopping_other c (S b) l s Hs Hl) as [|(b'&Hb'&_&Hs')]; [right; left; by left|].
        destruct (decide (b' = S b)) as [->|]; [by left|right; right]. exists b'. split; [lia|done].
    + intros l s Hs Hw. destruct (stopping_other c (S b) l s Hs) as [|(b'&_&Hlt&Hs')]; [by destruct c; cbn in Hw; subst|left; by left|right].
      exists b'. split; [by apply Hlt|done].
Qed.

(** [stop] is over some time. *)
Lemma pstop_is_over `{!KernelLaws K} c b : fair sched (fun l => l = PStop) -> fair sched (fun l => l = PApp) ->
  (forall j, (j < nt)%nat -> fair sched (fun l => l = PProc j true)) -> pleads (stopping_at c b) pover.
Proof using.
  intros Hfs Hfa Hfp t Ht. cut (pleads (fun s => exists b, stopping_at c b s) pover); [intros Hx; apply Hx; by exists b|]. clear t Ht b. revert c.
  apply (leads_to_wf _ _ _ (ltof _ pstop_rank)); [apply well_founded_ltof|]. intros c t (b&Ht).
  destruct (stopping_leaves c Hfs Hfa Hfp b t Ht) as (t'&Hle&Hgo). by exists t'.
Qed.

(** A processor's thread that waits forever keeps its place. *)
Lemma waiting_stays i pfd l s : l <> PProc i true -> ps_procs s !! i = Some (PWait pfd) -> ps_procs (pstop_next l s) !! i = Some (PWait pfd).
Proof using.
  intros Hl Hi. unfold pstop_next. destruct (ps_dead s); [done|]. destruct l as [|i' woken| |i' ev].
  - destruct (pstop_waits s); [done|]. unfold pstop_exec. by destruct (pstop_access _ _) as [[a| | | | |] w].
  - destruct (decide (i' = i)) as [->|Hne]; [destruct woken; [done|by rewrite Hi]|]. destruct (c ← ps_procs s !! i'; proc_access i' woken c) as [m|]; [|done].
    unfold pstop_exec. destruct (m _) as [[a| | | | |] w]; try done. cbn. by rewrite list_lookup_insert_ne.
  - destruct (app_access _) as [m|]; [|done]. unfold pstop_exec. by destruct (m _) as [[a| | | | |] w].
  - unfold pstop_exec. by destruct (listen_event _ _ _ _ _ _ _ _ _) as [[a| | | | |] w].
Qed.

(** The application thread inside a round when the queues are gone. *)
Lemma app_deleted_queue s j n : palive s -> ps_stop s = QJoinApp -> ps_app s = AQueue j n -> (j < n)%nat ->
  ps_dead (pstop_next PApp s) = Some (PApp, Undefined).
Proof using.
  intros ((_&[_ Hok]&_)&Hd) Hst Ha Hj. rewrite Hst in Hok. destruct Hok as (_&Hq&_). cbn in Hq. apply nil_length_inv in Hq.
  unfold pstop_next. rewrite Hd, Ha. cbn [app_access]. rewrite decide_True by done. unfold pstop_exec, app_queue, bind, gets. by rewrite Hq.
Qed.
End ProcessorStop.
Arguments pstop : clear implicits.

(** C4. [Processor::stop] against the threads of the processor, the application thread and
    the listeners' events, in every run from every moment at which it may be called on a started
    processor.  If the scheduler is fair and every wait returns some time, [stop] returns, unless
    another thread ends the process (or never leaves its packet loop) first, and when it has
    returned every thread has ended.  As long as a thread of the processor runs, the queues exist.
    The application thread has no such protection: when the queues are deleted during one of its
    rounds, its next access is undefined.  And a thread whose wait never returns keeps [stop] from
    returning, since nothing wakes it. *)
Theorem processor_stop {K U : Type} `{Kernel K, !KernelLaws K} (RecvBufSize SendBufSize : Z) (h : IEventHandler U)
    (user_init : U) (create_null : bool) (w : world K (EventHandler U) epoll_env) (procs : list proc_pc) (app : app_pc) (sched : nat -> pstop_label) :
  let p := processor (w_env w) in
  isRunning p = true -> appThread p = true -> length (procThreads p) = length procs -> length (msgQueues p) = length procs ->
  let next := pstop_next RecvBufSize SendBufSize h user_init create_null in
  let run := run_at next (mk_pstop w procs app QTest None) sched in
  (fair sched (fun l => l = PStop) -> fair sched (fun l => l = PApp) -> (forall j, (j < length procs)%nat -> fair sched (fun l => l = PProc j true)) ->
   exists t, ps_stop (run t) = QDone \/ exists l o, ps_dead (run t) = Some (l, o) /\ l <> PStop) /\
  (forall t, ps_stop (run t) = QDone -> Forall (fun c => c = PEnded) (ps_procs (run t)) /\ ps_app (run t) = AEnded) /\
  (forall t i c, ps_procs (run t) !! i = Some c -> c <> PEnded -> length (msgQueues (processor (w_env (ps_world (run t))))) = length procs) /\
  (forall t j n, ps_dead (run t) = None -> ps_stop (run t) = QJoinApp -> ps_app (run t) = AQueue j n -> (j < n)%nat -> sched t = PApp ->
   ps_dead (run (S t)) = Some (PApp, Undefined)) /\
  (forall t i pfd, ps_procs (run t) !! i = Some (PWait pfd) -> (forall t', (t <= t')%nat -> sched t' <> PProc i true) ->
   forall t', (t <= t')%nat -> ps_stop (run t') <> QDone).
Proof.
  intros p Hr Ha Ht Hq next run. assert (Hinv : forall t, pinv (length procs) (run t)).
  { apply run_invariant; [|intros l s; apply pinv_next]. by split_and!. }
  assert (Hend : forall t, ps_stop (run t) = QDone -> Forall (fun c => c = PEnded) (ps_procs (run t)) /\ ps_app (run t) = AEnded).
  { intros t Hd. destruct (Hinv t) as (_&[_ Hok]&Happ&_). rewrite Hd in Hok. split; [exact Hok|by apply Happ]. }
  split_and!; [|exact Hend|..].
  - intros Hs Hfa Hp. destruct (pstop_is_over RecvBufSize SendBufSize h user_init create_null (length procs) (mk_pstop w procs app QTest None) sched QTest 0 Hs Hfa Hp 0%nat)
      as (t&_&[|[[l o] Hd]]); [split; [split; [apply (Hinv 0%nat)|done]|done]|by exists t; left|].
    exists t. right. exists l, o. split; [done|]. intros ->. by apply (Hinv t) in Hd.
  - intros t i c Hc Hne. destruct (Hinv t) as (_&[_ Hok]&_).
    assert (Forall (fun c => c = PEnded) (ps_procs (run t)) -> False) as Hn by (intros Hf; apply Hne; apply (Forall_lookup_1 _ _ _ _ Hf Hc)).
    destruct (ps_stop (run t)); naive_solver.
  - intros t j n Hd Hst Hap Hj Hl. cbn [run_at run]. rewrite Hl. by apply (app_deleted_queue RecvBufSize SendBufSize h user_init create_null (length procs) (run t) j n).
  - intros t i pfd Hi Hl t' Ht' Hd. destruct (Hend t' Hd) as [Hf _].
    assert (Hw : ps_procs (run t') !! i = Some (PWait pfd)); [|by pose proof (Forall_lookup_1 _ _ _ _ Hf Hw)].
    apply (run_invariant_from next (mk_pstop w procs app QTest None) sched (fun s => ps_procs s !! i = Some (PWait pfd)) t); [done| |done].
    intros m s Hm. apply waiting_stays. by apply Hl.
Qed.

(** ** Concrete runs *)

(** One processor thread on descriptor 5, one queue, the application thread. *)
Definition pstop_world : world script (EventHandler unit) epoll_env :=
  mk_world [] 0 [] heap_empty
    (mk_env (mk_Scheduler 3 [5] 1)
       (set_app true (set_threads [ProcThread 0] (set_queues [mk_spscqueue 101 (replicate 101 None) 0 0] (set_running true Processor_new)))) [] [] Properties_default None).

(** The three threads in turn. *)
Definition three_in_turn (t : nat) : pstop_label :=
  match (t mod 3)%nat with 0%nat => PStop | 1%nat => PProc 0 true | _ => PApp end.

Lemma three_in_turn_fair l : l = PStop \/ l = PProc 0 true \/ l = PApp -> fair three_in_turn (fun l' => l' = l).
Proof.
  assert (Hm : forall t r, (r < 3)%nat -> ((t * 3 + r) mod 3 = r)%nat) by (intros t r Hr; rewrite Nat.add_comm, Nat.Div0.mod_add; by apply Nat.mod_small).
  intros Hl t. destruct Hl as [->|[->| ->]]; unfold three_in_turn; [exists (t * 3 + 0)%nat|exists (t * 3 + 1)%nat|exists (t * 3 + 2)%nat]; rewrite Hm by lia; (split; [lia|done]).
Qed.

Definition pstop_run (app : app_pc) (sched : nat -> pstop_label) (t : nat) : pstop script unit :=
  run_at (pstop_next 16 16 EventHandler_default tt false) (mk_pstop pstop_world [PTest 5] app QTest None) sched t.

Lemma processor_stop_witness :
  ps_stop (pstop_run ATest three_in_turn 20) = QDone /\ ps_dead (pstop_run ATest three_in_turn 20) = None /\
  (exists t, ps_stop (pstop_run ATest three_in_turn t) = QDone \/ exists l o, ps_dead (pstop_run ATest three_in_turn t) = Some (l, o) /\ l <> PStop).
Proof.
  split_and!; [vm_compute; reflexivity..|].
  apply (processor_stop 16 16 EventHandler_default tt false pstop_world [PTest 5] ATest three_in_turn); try reflexivity; try (apply three_in_turn_fair; tauto).
  intros j Hj. cbn in Hj. assert (j = 0)%nat as -> by lia. apply three_in_turn_fair. tauto.
Defined.

(** The application thread has just begun a round when [stop] is called: the processor's thread ends
    and is joined, the queue is deleted, and the application thread reads it. *)
Lemma stop_frees_queue_in_use :
  let sched t := match t with 1%nat => PProc 0 true | 6%nat => PApp | _ => PStop end in
  ps_stop (pstop_run (AQueue 0 1) sched 6) = QJoinApp /\ ps_dead (pstop_run (AQueue 0 1) sched 7) = Some (PApp, Undefined).
Proof. vm_compute. done. Qed.
