(* ===== verification/FixedPackets.v ===== *)
(** * test/test.cpp and test/test1.cpp: packets of twelve bytes

    The session classes of the two drivers, whose [read_packet] cuts the stream into packets of
    twelve bytes, and the round trip of such messages through a service. *)

From S2P Require Import Prelude Heap NetApi SendBuffer SpscQueue Os EpollSession Framing EpollNet EpollApp EpollRecv EpollServer.

(** [if (dataLen < 12) return -1; return 12;] *)
Definition packet12 (pData : list byte) : Z := if zlen pData <? 12 then -1 else 12.

#[export] Instance packet12_law : FramingLaw packet12.
Proof.
  split.
  - intros bs. unfold packet12. destruct (Z.ltb_spec (zlen bs) 12); lia.
  - intros bs more. unfold packet12. rewrite length_app. destruct (Z.ltb_spec (zlen bs) 12); [lia|].
    intros _. destruct (Z.ltb_spec (Z.of_nat (length bs + length more)) 12); lia.
Qed.

(** [TcpSession] of test.cpp.  Its member [isPassive] hides the one of [EventHandler] and is never
    written ([None]); the callbacks only print. *)
Definition test_session : IEventHandler (option bool) := {|
  read_packet := fun _ pData => packet12 pData;
  on_connect := CGet (fun _ => CDone);
  on_disconnect := CDone;
  on_recv := fun _ => CGet (fun _ => CDone);
  on_message := fun _ => CDone;
  on_send := fun u _ _ _ => u;
  parse_message := fun _ _ off => InBuf off
|}.

(** [TcpSession] of test1.cpp. *)
Definition test1_session : IEventHandler unit := {|
  read_packet := fun _ pData => packet12 pData;
  on_connect := CDone;
  on_disconnect := CDone;
  on_recv := fun _ => CDone;
  on_message := fun _ => CDone;
  on_send := fun u _ _ _ => u;
  parse_message := fun _ _ off => InBuf off
|}.

(** The buffers of both classes' defaults. *)
Definition TestBufSize : Z := 8192.

(** Cutting undoes concatenation. *)
Lemma frames_packet12 ms rest : Forall (fun m => length m = 12%nat) ms -> (length rest < 12)%nat ->
  frames packet12 (concat ms ++ rest) = (ms, rest).
Proof.
  intros Hms Hrest. induction Hms as [|m ms Hm _ IH]; cbn [concat app].
  - apply frames_stop. unfold packet12. destruct (Z.ltb_spec (zlen rest) 12); lia.
  - rewrite <- app_assoc. assert (Hp : packet12 (m ++ concat ms ++ rest) = 12).
    { unfold packet12. rewrite length_app. destruct (Z.ltb_spec (Z.of_nat (length m + length (concat ms ++ rest))) 12); lia. }
    rewrite frames_packet by (rewrite Hp, length_app; lia). rewrite Hp.
    rewrite take_app_length' by (rewrite Hm; done). rewrite drop_app_length' by (rewrite Hm; done). by rewrite IH.
Qed.

(** C24. Messages of twelve bytes survive the network: when the bytes received for a session of
    test/test.cpp are some messages one after the other, cut by TCP in any way, and an incomplete
    message, then [on_recv] was called with exactly these messages, in order, and the incomplete
    one waits in the buffer. *)
Theorem twelve_byte_round_trip {K : Type} `{Kernel K} (user_init : option bool) (create_null : bool)
    (w0 w : world K (EventHandler (option bool)) epoll_env) (p : ptr) (s : EventHandler (option bool))
    (ms : list (list byte)) (rest : list byte) :
  KernelLaws K -> service_ready w0 ->
  rtc (server_step TestBufSize TestBufSize test_session user_init create_null) w0 w ->
  heap_get (w_sessions w) p = Some s ->
  Forall (fun m => length m = 12%nat) ms -> (length rest < 12)%nat ->
  concat (chunks_of p (w_trace w)) = concat ms ++ rest ->
  packets_of p (w_trace w) = ms /\ pending s = rest.
Proof.
  intros HK H0 Hr Hs Hms Hrest Hch.
  assert (Hinv : server_inv TestBufSize TestBufSize packet12 w).
  { refine (rtc_invariant _ _ _ _ _ (service_ready_inv _ _ packet12 _ H0) Hr). intros a b Ha Hab.
    eapply (server_step_inv TestBufSize TestBufSize test_session user_init create_null packet12 (fun _ _ => eq_refl));
      [unfold TestBufSize, INT_MAX; lia..|exact Ha|exact Hab]. }
  destruct Hinv as ((_&Hst&_)&_). destruct (Hst p s Hs) as [_ Hfr]. rewrite Hch, frames_packet12 in Hfr by done. by simplify_eq.
Qed.

(** *** Two messages in two pieces *)

Definition msg_a : list byte := repeat x41 12.
Definition msg_b : list byte := repeat x42 12.

Definition twelve_script : script :=
  [sys_result 7; sys_result 0; sys_result 0; sys_result 0;
   mk_sysret 13 0 (msg_a ++ [x42]) [] []; mk_sysret 12 0 (repeat x42 11 ++ [x43]) [] []].

Definition twelve_w0 : world script (EventHandler (option bool)) epoll_env :=
  mk_world twelve_script 0 [] heap_empty
    (set_processor (set_queues [mk_spscqueue 101 (replicate 101 None) 0 0] (Processor_new_with true)) (TCPService_new true)).

Definition twelve_in : epoll_event := mk_epoll_event EPOLLIN (DPtr (Some 1%positive)).
Definition twelve_w1 := (accept_connection TestBufSize TestBufSize test_session None false false 0 demo_listener twelve_w0).2.
Definition twelve_w2 := (handle_event TestBufSize TestBufSize test_session false (Z.to_nat TestBufSize) 0 0 twelve_in twelve_w1).2.
Definition twelve_w3 := (handle_event TestBufSize TestBufSize test_session false (Z.to_nat TestBufSize) 0 0 twelve_in twelve_w2).2.

Lemma twelve_ready : service_ready twelve_w0.
Proof. split_and!; [done|done|apply app_world_rep|done]. Qed.

Lemma twelve_e1 : accept_connection TestBufSize TestBufSize test_session None false false 0 demo_listener twelve_w0 = (Ok tt, twelve_w1).
Proof. unfold twelve_w1. apply run_split. vm_compute. reflexivity. Qed.
Lemma twelve_e2 : handle_event TestBufSize TestBufSize test_session false (Z.to_nat TestBufSize) 0 0 twelve_in twelve_w1 = (Ok tt, twelve_w2).
Proof. unfold twelve_w2. apply run_split. vm_compute. reflexivity. Qed.
Lemma twelve_e3 : handle_event TestBufSize TestBufSize test_session false (Z.to_nat TestBufSize) 0 0 twelve_in twelve_w2 = (Ok tt, twelve_w3).
Proof. unfold twelve_w3. apply run_split. vm_compute. reflexivity. Qed.

Lemma twelve_plain1 : app_run (p_config (processor (w_env twelve_w1))) = false.
Proof. vm_compute. reflexivity. Qed.
Lemma twelve_plain2 : app_run (p_config (processor (w_env twelve_w2))) = false.
Proof. vm_compute. reflexivity. Qed.

Lemma twelve_fuel : TestBufSize <= Z.of_nat (Z.to_nat TestBufSize).
Proof. unfold TestBufSize. lia. Qed.

Lemma twelve_run : rtc (server_step TestBufSize TestBufSize test_session None false) twelve_w0 twelve_w3.
Proof.
  eapply rtc_l; [eapply step_accept, twelve_e1|].
  eapply rtc_l; [eapply step_event; [exact twelve_fuel|rewrite twelve_plain1; discriminate|exact twelve_e2]|].
  apply rtc_once. eapply step_event; [exact twelve_fuel|rewrite twelve_plain2; discriminate|exact twelve_e3].
Qed.

Lemma twelve_byte_round_trip_witness :
  exists s, heap_get (w_sessions twelve_w3) 1%positive = Some s /\
    packets_of 1%positive (w_trace twelve_w3) = [msg_a; msg_b] /\ pending s = [x43].
Proof.
  destruct (heap_get (w_sessions twelve_w3) 1%positive) as [s|] eqn:Hs; [|vm_compute in Hs; discriminate]. exists s. split; [reflexivity|].
  apply (twelve_byte_round_trip None false twelve_w0 twelve_w3 1%positive s [msg_a; msg_b] [x43] _ twelve_ready twelve_run Hs).
  - repeat constructor.
  - cbn. lia.
  - vm_compute. reflexivity.
Defined.
