(* ===== verification/KqueueNet.v ===== *)
(** * The kqueue back end: detail/kqueuenet.hpp

    The same classes as the epoll back end on the BSD event queue: a connection keeps its own
    send buffer, the processor terminates each packet in place, sessions are registered for
    reading and writing at once. *)

From S2P Require Import Prelude Heap NetApi Os.

(** ** Constants of the platform (macOS) *)

Definition kReadEvent : Z := 1.
Definition kWriteEvent : Z := 2.
Definition MAX_BUFFER_SIZE : Z := 2048 * 64.
Definition K_EAGAIN : Z := 35.
Definition K_EWOULDBLOCK : Z := 35.
Definition K_O_NONBLOCK : Z := 4.

(** ** State *)

(** The connection.  [fd] and [procFd] are indeterminate until the listener or the connector
    sets them, which happens before they are read; they start as 0 here.  Members that may be
    read while indeterminate are [option]s. *)
Record KEventHandler (U : Type) := mk_KEventHandler {
  k_kqueueFd : option Z;
  k_fd : Z;
  k_procFd : Z;
  k_event : option NetEvent;
  k_ip : option Z;
  k_port : option Z;
  k_isPassive : option bool;
  k_sendBuf : list byte;
  k_recvBuf : list byte;
  k_recvBufPos : Z;
  k_sndBufHead : Z;
  k_sndBufTail : Z;
  k_user : U
}.
Arguments mk_KEventHandler {U}. Arguments k_kqueueFd {U}. Arguments k_fd {U}. Arguments k_procFd {U}.
Arguments k_event {U}. Arguments k_ip {U}. Arguments k_port {U}. Arguments k_isPassive {U}.
Arguments k_sendBuf {U}. Arguments k_recvBuf {U}. Arguments k_recvBufPos {U}.
Arguments k_sndBufHead {U}. Arguments k_sndBufTail {U}. Arguments k_user {U}.

Section KFields.
Context {U : Type}.
Implicit Types (s : KEventHandler U).

Definition k_set_recv (buf : list byte) (pos : Z) s : KEventHandler U :=
  mk_KEventHandler (k_kqueueFd s) (k_fd s) (k_procFd s) (k_event s) (k_ip s) (k_port s) (k_isPassive s)
    (k_sendBuf s) buf pos (k_sndBufHead s) (k_sndBufTail s) (k_user s).
Definition k_set_send (buf : list byte) (hd tl : Z) s : KEventHandler U :=
  mk_KEventHandler (k_kqueueFd s) (k_fd s) (k_procFd s) (k_event s) (k_ip s) (k_port s) (k_isPassive s)
    buf (k_recvBuf s) (k_recvBufPos s) hd tl (k_user s).
Definition k_set_user (u : U) s : KEventHandler U :=
  mk_KEventHandler (k_kqueueFd s) (k_fd s) (k_procFd s) (k_event s) (k_ip s) (k_port s) (k_isPassive s)
    (k_sendBuf s) (k_recvBuf s) (k_recvBufPos s) (k_sndBufHead s) (k_sndBufTail s) u.
Definition k_set_event (e : NetEvent) s : KEventHandler U :=
  mk_KEventHandler (k_kqueueFd s) (k_fd s) (k_procFd s) (Some e) (k_ip s) (k_port s) (k_isPassive s)
    (k_sendBuf s) (k_recvBuf s) (k_recvBufPos s) (k_sndBufHead s) (k_sndBufTail s) (k_user s).
Definition k_set_fds (f p : Z) s : KEventHandler U :=
  mk_KEventHandler (k_kqueueFd s) f p (k_event s) (k_ip s) (k_port s) (k_isPassive s)
    (k_sendBuf s) (k_recvBuf s) (k_recvBufPos s) (k_sndBufHead s) (k_sndBufTail s) (k_user s).
Definition k_set_active (kq f ip port : Z) s : KEventHandler U :=
  mk_KEventHandler (Some kq) f (k_procFd s) (Some EVT_CONNECT) (Some ip) (Some port) (Some false)
    (k_sendBuf s) (k_recvBuf s) (k_recvBufPos s) (k_sndBufHead s) (k_sndBufTail s) (k_user s).
End KFields.

Record KScheduler := mk_KScheduler {
  k_scheds : Z;
  k_queueFd : Z;
  k_threads : Z;
  k_procFds : list Z
}.

Definition KScheduler_init : KScheduler := mk_KScheduler 0 0 0 (replicate (Z.to_nat MAX_THREAD) 0).

(** [start] ignores its [handler], so [evtHandler] stays the empty function it is built as. *)
Record KProcessor := mk_KProcessor {
  k_isRunning : bool;
  runThreads : list thread_id;
  k_factory : bool;
  k_evtHandler : EventHandleFunc
}.

Definition KProcessor_new_with (fact : bool) : KProcessor := mk_KProcessor false [] fact None.

Record KListener := mk_KListener {
  kl_ip : Z;
  kl_port : Z;
  kl_backlogs : Z;
  listenFd : option Z;
  kl_isRunning : bool;
  lisThread : bool;
  m_config : Properties;
  kl_evtHandler : EventHandleFunc
}.

Record KConnector := mk_KConnector { kc_ip : Z; kc_port : Z; kc_fd : option Z }.

Record kqueue_env := mk_kenv {
  iocper : KScheduler;
  k_processor : KProcessor;
  k_lstListener : list KListener;
  k_lstConnector : list KConnector;
  k_config : Properties
}.

Definition k_set_sched (s : KScheduler) (e : kqueue_env) : kqueue_env :=
  mk_kenv s (k_processor e) (k_lstListener e) (k_lstConnector e) (k_config e).
Definition k_set_proc (p : KProcessor) (e : kqueue_env) : kqueue_env :=
  mk_kenv (iocper e) p (k_lstListener e) (k_lstConnector e) (k_config e).
Definition k_set_listeners (l : list KListener) (e : kqueue_env) : kqueue_env :=
  mk_kenv (iocper e) (k_processor e) l (k_lstConnector e) (k_config e).
Definition k_set_connectors (c : list KConnector) (e : kqueue_env) : kqueue_env :=
  mk_kenv (iocper e) (k_processor e) (k_lstListener e) c (k_config e).
Definition k_set_config (c : Properties) (e : kqueue_env) : kqueue_env :=
  mk_kenv (iocper e) (k_processor e) (k_lstListener e) (k_lstConnector e) c.

Definition KTCPService_new (fact : bool) : kqueue_env :=
  mk_kenv KScheduler_init (KProcessor_new_with fact) [] [] Properties_default.

(** The changes [updateEvents] hands to the kernel; [ud] is the session's address in one
    overload, the descriptor in the other. *)
Definition event_changes (f : Z) (ud : event_data) (events : Z) (modify : bool) : list kevent :=
  (if negb (Z.land events kReadEvent =? 0) then [mk_kevent f EVFILT_READ EV_ADD_ENABLE ud]
   else if modify then [mk_kevent f EVFILT_READ EV_DELETE ud] else []) ++
  (if negb (Z.land events kWriteEvent =? 0) then [mk_kevent f EVFILT_WRITE EV_ADD_ENABLE ud]
   else if modify then [mk_kevent f EVFILT_WRITE EV_DELETE ud] else []).

Section Kqueue.
Context {K U : Type} `{Kernel K}.
Context (RecvBufSize SendBufSize : Z) (h : IEventHandler U) (user_init : U) (dbg : bool).
Local Open Scope tinynet_scope.
Local Abbreviation W := (world K (KEventHandler U) kqueue_env).

Definition k_update (f : kqueue_env -> kqueue_env) : M W unit :=
  modify (fun w => set_env (f (w_env w)) w).

Definition updateEvents (efd f : Z) (pSession : ptr) (events : Z) (modify : bool) : M W unit :=
  sys_ignore (Sys_kevent_change efd (event_changes f (DPtr (Some pSession)) events modify)).

Definition updateEvents_fd (efd f : Z) (events : Z) (modify : bool) : M W unit :=
  sys_ignore (Sys_kevent_change efd (event_changes f (DFd f) events modify)).

(** ** The connection *)

Definition KEventHandler_new : KEventHandler U :=
  mk_KEventHandler None 0 0 None None None None (replicate (Z.to_nat SendBufSize) x00)
    (replicate (Z.to_nat RecvBufSize) x00) 0 0 0 user_init.

Definition k_recv_size (s : KEventHandler U) : Z := RecvBufSize - k_recvBufPos s.

Definition k_send (p : ptr) (pData : list byte) : M W Z :=
  let* s := session p in
  let* r := sys_ret (Sys_send (k_fd s) pData) in
  ret (i32 r).

(** The loop of [async_send] that makes room: buffer, head and tail when it ends, and whether
    it ended by its condition ([true]) or by [return -1] ([false]). *)
Fixpoint k_make_room (fuel : nat) (dataLen : Z) (buf : list byte) (hd tl : Z) : option (bool * list byte * Z * Z) :=
  if u32 (SendBufSize - tl) <? dataLen then
    match fuel with
    | O => None
    | S fuel' =>
        if 0 <? hd then
          let dataSize := u32 (tl - hd) in
          k_make_room fuel' dataLen (blit 0 (slice hd dataSize buf) buf) 0 dataSize
        else Some (false, buf, hd, tl)
    end
  else Some (true, buf, hd, tl).

(** Two rounds are enough: after the first the head is 0. *)
Definition k_async_send (p : ptr) (pData : list byte) : M W Z :=
  let* s := session p in
  let dataLen := zlen pData in
  match k_make_room 2 dataLen (k_sendBuf s) (k_sndBufHead s) (k_sndBufTail s) with
  | None => out_of_fuel
  | Some (false, buf, hd, tl) => put_session p (k_set_send buf hd tl s) ;; ret (-1)
  | Some (true, buf, hd, tl) =>
      if dataLen <? u32 (SendBufSize - tl) then
        put_session p (k_set_send (blit tl pData buf) hd (tl + dataLen) s) ;;
        updateEvents (k_procFd s) (k_fd s) p kWriteEvent true ;;
        ret 0
      else put_session p (k_set_send buf hd tl s) ;; ret (-1)
  end.

(** [while ((n=::read(fd, buf, sizeof buf)) > 0)] of [launch_recv]: what is read is dropped. *)
Fixpoint k_drain (fuel : nat) (f : Z) : M W Z :=
  let* n := sys_ret (Sys_read f MAX_BUFFER_SIZE) in
  if 0 <? n then match fuel with O => out_of_fuel | S fuel' => k_drain fuel' f end
  else ret n.

Definition k_would_block : M W bool :=
  let* e := gets w_errno in ret ((e =? K_EAGAIN) || (e =? K_EWOULDBLOCK)).

Definition k_launch_recv (fuel : nat) (p : ptr) : M W unit :=
  let* s := session p in
  put_session p (k_set_event EVT_RECV s) ;;
  if RecvBufSize <=? k_recvBufPos s then ret tt
  else
    let* n := k_drain fuel (k_fd s) in
    let* again := k_would_block in
    if (n <? 0) && again then ret tt
    else sys_ignore (Sys_close (k_fd s)).

Definition k_close (p : ptr) : M W unit :=
  let* s := session p in sys_ignore (Sys_close (k_fd s)).

Fixpoint k_run_callback (p : ptr) (c : callback U) : M W unit :=
  match c with
  | CDone => ret tt
  | CGet k => let* s := session p in k_run_callback p (k (k_user s))
  | CPut u k => let* s := session p in put_session p (k_set_user u s) ;; k_run_callback p k
  | CSend data k => let* r := k_send p data in k_run_callback p (k r)
  | CAsyncSend data k => let* r := k_async_send p data in k_run_callback p (k r)
  | CClose k => k_close p ;; k_run_callback p k
  end.

(** ** Scheduler *)

(** [start] throws when the first queue fails, and returns -1 when a processor's does. *)
Fixpoint k_create_queues (l : list Z) : M W Z :=
  match l with
  | [] => ret 0
  | i :: l' =>
      let* f := sys_ret Sys_kqueue in
      k_update (fun e => k_set_sched (mk_KScheduler (k_scheds (iocper e)) (k_queueFd (iocper e))
                                        (k_threads (iocper e)) (zset (k_procFds (iocper e)) i f)) e) ;;
      if f =? -1 then ret (-1) else k_create_queues l'
  end.

Definition KScheduler_start : M W Z :=
  let* f := sys_ret Sys_kqueue in
  k_update (fun e => k_set_sched (mk_KScheduler (k_scheds (iocper e)) f (k_threads (iocper e))
                                    (k_procFds (iocper e))) e) ;;
  if f =? -1 then let* e := gets w_errno in throw e
  else k_create_queues (seqZ 0 MAX_THREAD).

Definition KScheduler_stop : M W unit :=
  let* sch := gets (fun w => iocper (w_env w)) in
  sys_ignore (Sys_close (k_queueFd sch)) ;;
  k_update (fun e => k_set_sched (mk_KScheduler (k_scheds (iocper e)) 16777215 (k_threads (iocper e))
                                    (k_procFds (iocper e))) e) ;;
  for_each (seqZ 0 MAX_THREAD) (fun i =>
    let* sch := gets (fun w => iocper (w_env w)) in
    let* f := deref (zget (k_procFds sch) i) in
    sys_ignore (Sys_close f) ;;
    k_update (fun e => k_set_sched (mk_KScheduler (k_scheds (iocper e)) (k_queueFd (iocper e))
                                      (k_threads (iocper e)) (zset (k_procFds (iocper e)) i 16777215)) e)).

(** [fd % threads] on [int]: C's remainder, undefined for 0. *)
Definition KScheduler_push (p : ptr) : M W unit :=
  let* sch := gets (fun w => iocper (w_env w)) in
  let* s := session p in
  if k_threads sch =? 0 then undefined
  else
    let* pfd := deref (zget (k_procFds sch) (Z.rem (k_fd s) (k_threads sch))) in
    updateEvents pfd (k_fd s) p (Z.lor kReadEvent kWriteEvent) false ;;
    let* s := session p in
    put_session p (k_set_fds (k_fd s) pfd s) ;;
    emit (TConnect p) ;;
    k_run_callback p (on_connect h).

(** [associate] is empty. *)
Definition KScheduler_associate (p : ptr) : M W unit := ret tt.

(** ** Processor *)

(** [config.threads >threads > MAX_THREAD?MAX_THREAD:config.threads] with an uninitialised
    [threads]: the comparison gives 0 or 1, and that is compared with MAX_THREAD. *)
Definition k_clamp_threads (garbage threads : Z) : Z :=
  if MAX_THREAD <? (if garbage <? threads then 1 else 0) then MAX_THREAD else threads.

Definition KProcessor_start (garbage : Z) (config : Properties) (handler : EventHandleFunc) : M W Z :=
  k_update (fun e => k_set_proc (mk_KProcessor true (runThreads (k_processor e)) (k_factory (k_processor e))
                                   (k_evtHandler (k_processor e))) e) ;;
  let n := k_clamp_threads garbage (threads config) in
  k_update (fun e => k_set_sched (mk_KScheduler (k_scheds (iocper e)) (k_queueFd (iocper e)) n
                                    (k_procFds (iocper e))) e) ;;
  for_each (seqZ 0 n) (fun i =>
    start_thread (ProcThread i) ;;
    k_update (fun e => k_set_proc (mk_KProcessor (k_isRunning (k_processor e))
      (runThreads (k_processor e) ++ [ProcThread i]) (k_factory (k_processor e))
      (k_evtHandler (k_processor e))) e)) ;;
  ret 0.

Definition KProcessor_stop : M W unit :=
  k_update (fun e => k_set_proc (mk_KProcessor false (runThreads (k_processor e)) (k_factory (k_processor e))
                                   (k_evtHandler (k_processor e))) e) ;;
  let* pr := gets (fun w => k_processor (w_env w)) in
  for_each (runThreads pr) (fun t => sys_ignore (Sys_join t)).

(** The packet at [readPos]: the byte after it is replaced by 0 while [on_recv] runs.  Behind the
    last byte of the buffer that is undefined. *)
Definition k_deliver (p : ptr) (readPos pkgLen : Z) : M W unit :=
  let* s := session p in
  let pEnd := readPos + pkgLen in
  let* endVal := deref (zget (k_recvBuf s) pEnd) in
  put_session p (k_set_recv (zset (k_recvBuf s) pEnd x00) (k_recvBufPos s) s) ;;
  let packet := slice readPos pkgLen (k_recvBuf s) in
  emit (TRecv p packet) ;;
  k_run_callback p (on_recv h packet) ;;
  let* s := session p in
  put_session p (k_set_recv (zset (k_recvBuf s) pEnd endVal) (k_recvBufPos s) s).

Definition k_keep_rest (p : ptr) (readPos : Z) : M W unit :=
  let* s := session p in
  let left := k_recvBufPos s - readPos in
  let buf := blit 0 (slice readPos left (k_recvBuf s)) (k_recvBuf s) in
  if (0 <=? left) && (left <? RecvBufSize) then
    put_session p (k_set_recv (zset buf left x00) left s)
  else undefined.

Fixpoint k_recv_loop (fuel : nat) (p : ptr) (readPos pkgLen : Z) : M W unit :=
  if pkgLen <=? 0 then ret tt
  else match fuel with
  | O => out_of_fuel
  | S fuel' =>
      let* s := session p in
      let* readPos :=
        (if readPos + pkgLen <=? k_recvBufPos s then k_deliver p readPos pkgLen ;; ret (readPos + pkgLen)
         else ret readPos) in
      let* s := session p in
      if readPos <? k_recvBufPos s then
        let pkgLen := read_packet h (k_user s) (slice readPos (k_recvBufPos s - readPos) (k_recvBuf s)) in
        if pkgLen <=? 0 then k_keep_rest p readPos
        else k_recv_loop fuel' p readPos pkgLen
      else put_session p (k_set_recv (k_recvBuf s) 0 s)
  end.

(** The EVFILT_READ branch: a session that ends is closed and reported, not released. *)
Definition k_handle_read (fuel : nat) (pfd : Z) (p : ptr) : M W unit :=
  let* s := session p in
  let* r := sys_call (Sys_recv (k_fd s) (k_recv_size s)) in
  let* again := k_would_block in
  let* pr := gets (fun w => k_processor (w_env w)) in
  if (sr_ret r <? 0) && again then ret tt
  else if sr_ret r <? 0 then
    updateEvents pfd (k_fd s) p kReadEvent true ;;
    sys_ignore (Sys_close (k_fd s)) ;;
    notify (k_evtHandler pr) EVT_SESSION_RELEASE (Some p)
  else if sr_ret r =? 0 then
    updateEvents pfd (k_fd s) p (Z.lor kReadEvent kWriteEvent) true ;;
    sys_ignore (Sys_close (k_fd s)) ;;
    notify (k_evtHandler pr) EVT_SESSION_RELEASE (Some p)
  else
    emit (TChunk p (sr_data r)) ;;
    let pos := k_recvBufPos s + sr_ret r in
    let buf := blit (k_recvBufPos s) (sr_data r) (k_recvBuf s) in
    put_session p (k_set_recv buf pos s) ;;
    k_recv_loop fuel p 0 (read_packet h (k_user s) (slice 0 pos buf)).

(** The EVFILT_WRITE branch. *)
Definition k_handle_write (pfd : Z) (p : ptr) : M W unit :=
  let* s := session p in
  let dataLen := k_sndBufTail s - k_sndBufHead s in
  let* sntLen := sys_ret (Sys_send (k_fd s) (slice (k_sndBufHead s) dataLen (k_sendBuf s))) in
  when (0 <? sntLen) (put_session p (k_set_send (k_sendBuf s) (k_sndBufHead s + sntLen) (k_sndBufTail s) s)) ;;
  let* again := k_would_block in
  if again then updateEvents pfd (k_fd s) p kWriteEvent true
  else updateEvents pfd (k_fd s) p kReadEvent true.

Definition k_handle_kevent (fuel : nat) (pfd : Z) (ev : kevent) : M W unit :=
  match ke_udata ev with
  | DPtr (Some p) =>
      let* s := session p in
      match ke_filter ev with
      | EVFILT_READ => k_handle_read fuel pfd p
      | EVFILT_WRITE => k_handle_write pfd p
      | EVFILT_OTHER => ret tt
      end
  | _ => undefined
  end.

(** A failed wait has no events to handle. *)
Definition k_run_iter (fuel : nat) (pfd : Z) : M W unit :=
  let* r := sys_call (Sys_kevent_wait pfd MAX_WAIT_EVENT 10000) in
  if zlen (sr_kevents r) <? sr_ret r then undefined
  else for_each (take (Z.to_nat (sr_ret r)) (sr_kevents r)) (k_handle_kevent fuel pfd).

Fixpoint k_run_loop (rounds fuel : nat) (pfd : Z) : M W unit :=
  let* pr := gets (fun w => k_processor (w_env w)) in
  if negb (k_isRunning pr) then ret tt
  else match rounds with
       | O => out_of_fuel
       | S rounds' => k_run_iter fuel pfd ;; k_run_loop rounds' fuel pfd
       end.

Definition KProcessor_run (rounds fuel : nat) (index : Z) : M W unit :=
  let* sch := gets (fun w => iocper (w_env w)) in
  let* pfd := deref (zget (k_procFds sch) index) in
  k_run_loop rounds fuel pfd.

(** [handle_event], which nothing calls: a state machine on the session's [event].  [ready] is a
    local that is never assigned. *)
Definition KProcessor_handle_event (fuel : nat) (ready : Z) (p : ptr) : M W unit :=
  let* s := session p in
  let* ev := deref (k_event s) in
  match ev with
  | EVT_RECV =>
      if ready <=? 0 then put_session p (k_set_event EVT_DISCONNECT s)
      else
        let pos := k_recvBufPos s + ready in
        put_session p (k_set_recv (k_recvBuf s) pos s) ;;
        k_recv_loop fuel p 0 (read_packet h (k_user s) (slice 0 pos (k_recvBuf s))) ;;
        k_launch_recv fuel p
  | EVT_CONNECT =>
      catch_all
        (KScheduler_associate p ;; emit (TConnect p) ;; k_run_callback p (on_connect h) ;; k_launch_recv fuel p)
        (let* s := session p in sys_ignore (Sys_close (k_fd s)) ;; factory_release p)
  | EVT_DISCONNECT =>
      emit (TDisconnect p) ;;
      k_run_callback p (on_disconnect h) ;;
      let* s := session p in
      sys_ignore (Sys_close (k_fd s)) ;;
      factory_release p
  | EVT_SEND =>
      if ready <=? 0 then put_session p (k_set_event EVT_DISCONNECT s)
      else emit (TSend p 0 (u32 ready))
  | _ => ret tt
  end.

(** ** Listener *)

Definition k_update_listener (i : nat) (f : KListener -> KListener) : M W unit :=
  k_update (fun e => k_set_listeners (alter f i (k_lstListener e)) e).

(** [setNoBlock]: a failing F_GETFL does not stop it, -1 is then or-ed with the flag. *)
Definition setNoBlock (f : Z) : M W unit :=
  let* flags := sys_ret (Sys_fcntl f F_GETFL 0) in
  sys_ignore (Sys_fcntl f F_SETFL (Z.lor flags K_O_NONBLOCK)).

Definition INADDR_ANY : Z := 0.

(** The body of the [try] of [start]: the address and the backlog of the listener are not used,
    and a failing [bind] or [listen] leaves the descriptor open. *)
Definition k_listen (i : nat) (kfd lisFd : Z) (port : Z) : M W Z :=
  let* b := sys_ret (Sys_bind lisFd INADDR_ANY (port mod 2 ^ 16)) in
  if b =? -1 then ret (-1)
  else
    k_update_listener i (fun l => mk_KListener (kl_ip l) (kl_port l) 20 (listenFd l) (kl_isRunning l)
                                    (lisThread l) (m_config l) (kl_evtHandler l)) ;;
    let* r := sys_ret (Sys_listen lisFd 20) in
    if r =? -1 then ret (-1)
    else
      setNoBlock lisFd ;;
      updateEvents_fd kfd lisFd kReadEvent false ;;
      k_update_listener i (fun l => mk_KListener (kl_ip l) (kl_port l) (kl_backlogs l) (Some lisFd) (kl_isRunning l)
                                      (lisThread l) (m_config l) (kl_evtHandler l)) ;;
      start_thread (ListenThread i) ;;
      k_update_listener i (fun l => mk_KListener (kl_ip l) (kl_port l) (kl_backlogs l) (listenFd l) (kl_isRunning l)
                                      true (m_config l) (kl_evtHandler l)) ;;
      ret 0.

Definition KListener_start (i : nat) (config : Properties) (handler : EventHandleFunc) : M W Z :=
  k_update_listener i (fun l => mk_KListener (kl_ip l) (kl_port l) (kl_backlogs l) (listenFd l) true
                                  (lisThread l) config handler) ;;
  let* e := gets w_env in
  let* l := deref (k_lstListener e !! i) in
  let* s := sys_ret Sys_socket in
  if s =? -1 then ret (-1)
  else catch_all (k_listen i (k_queueFd (iocper e)) s (kl_port l)) (sys_ignore (Sys_close s) ;; ret (-1)).

Definition KListener_stop (i : nat) : M W unit :=
  k_update_listener i (fun l => mk_KListener (kl_ip l) (kl_port l) (kl_backlogs l) (listenFd l) false
                                  (lisThread l) (m_config l) (kl_evtHandler l)) ;;
  let* e := gets w_env in
  let* l := deref (k_lstListener e !! i) in
  let* f := deref (listenFd l) in
  sys_ignore (Sys_close f) ;;
  if lisThread l then
    sys_ignore (Sys_join (ListenThread i)) ;;
    k_update_listener i (fun l => mk_KListener (kl_ip l) (kl_port l) (kl_backlogs l) (listenFd l) (kl_isRunning l)
                                    false (m_config l) (kl_evtHandler l))
  else throw_std.

(** [handleRead]: echo until there is nothing more to read. *)
Fixpoint k_echo (fuel : nat) (f : Z) : M W Z :=
  let* r := sys_call (Sys_read f 4096) in
  if 0 <? sr_ret r then
    sys_ignore (Sys_write f (sr_data r)) ;;
    match fuel with O => out_of_fuel | S fuel' => k_echo fuel' f end
  else ret (sr_ret r).

Definition handleRead (fuel : nat) (efd f : Z) : M W unit :=
  let* n := k_echo fuel f in
  let* again := k_would_block in
  if (n <? 0) && again then ret tt else sys_ignore (Sys_close f).

Definition handleWrite (efd f : Z) : M W unit := updateEvents_fd efd f kReadEvent true.

(** A new connection: spread over [m_config.threads] (as configured, not as started). *)
Definition k_accept (l : KListener) (lisFd : Z) : M W unit :=
  let* cfd := sys_ret (Sys_accept lisFd) in
  if cfd <? 0 then ret tt
  else
    setNoBlock cfd ;;
    if threads (m_config l) =? 0 then undefined
    else
      let* e := gets w_env in
      let* pfd := deref (zget (k_procFds (iocper e)) (Z.rem cfd (threads (m_config l)))) in
      let* _ := deref (if k_factory (k_processor e) then Some tt else None) in
      let* p := factory_create KEventHandler_new in
      let* s := session p in
      put_session p (k_set_fds cfd pfd s) ;;
      notify (kl_evtHandler l) EVT_SESSION_CREATE (Some p) ;;
      updateEvents pfd cfd p (Z.lor kReadEvent kWriteEvent) false ;;
      emit (TConnect p) ;;
      k_run_callback p (on_connect h).

Definition k_listen_event (fuel : nat) (i : nat) (kfd lisFd : Z) (ev : kevent) : M W unit :=
  let* e := gets w_env in
  let* l := deref (k_lstListener e !! i) in
  match ke_udata ev with
  | DPtr _ => undefined
  | DFd f =>
      match ke_filter ev with
      | EVFILT_READ => if f =? lisFd then k_accept l f else handleRead fuel kfd f
      | EVFILT_WRITE => handleWrite kfd f
      | EVFILT_OTHER => ret tt
      end
  end.

Fixpoint k_listen_loop (rounds fuel : nat) (i : nat) (kfd lisFd : Z) : M W unit :=
  let* e := gets w_env in
  let* l := deref (k_lstListener e !! i) in
  if negb (kl_isRunning l) then ret tt
  else match rounds with
       | O => out_of_fuel
       | S rounds' =>
           let* r := sys_call (Sys_kevent_wait kfd MAX_WAIT_EVENT 10000) in
           if zlen (sr_kevents r) <? sr_ret r then undefined
           else
             for_each (take (Z.to_nat (sr_ret r)) (sr_kevents r)) (k_listen_event fuel i kfd lisFd) ;;
             k_listen_loop rounds' fuel i kfd lisFd
       end.

Definition KListener_run (rounds fuel : nat) (i : nat) : M W unit :=
  let* e := gets w_env in
  let* l := deref (k_lstListener e !! i) in
  let* lisFd := deref (listenFd l) in
  k_listen_loop rounds fuel i (k_queueFd (iocper e)) lisFd.

(** ** Connector *)

Definition k_update_connector (i : nat) (f : KConnector -> KConnector) : M W unit :=
  k_update (fun e => k_set_connectors (alter f i (k_lstConnector e)) e).

(** [connect] throws [errno] when a call fails; the session is made with [new], not by the
    factory. *)
Definition KConnector_connect (i : nat) : M W Z :=
  let* s := sys_ret Sys_socket in
  k_update_connector i (fun c => mk_KConnector (kc_ip c) (kc_port c) (Some s)) ;;
  let* e := gets w_env in
  let* c := deref (k_lstConnector e !! i) in
  if s =? -1 then let* er := gets w_errno in throw er
  else
    let* r := sys_ret (Sys_connect s (kc_ip c) (kc_port c mod 2 ^ 16)) in
    if r =? -1 then let* er := gets w_errno in throw er
    else
      let* p := factory_create KEventHandler_new in
      let* ss := session p in
      put_session p (k_set_active (k_queueFd (iocper e)) s (kc_ip c) (kc_port c mod 2 ^ 16) ss) ;;
      KScheduler_push p ;;
      ret 0.

Definition KConnector_start (i : nat) : M W Z := KConnector_connect i.

Definition KConnector_stop (i : nat) : M W unit :=
  let* e := gets w_env in
  let* c := deref (k_lstConnector e !! i) in
  let* f := deref (kc_fd c) in
  sys_ignore (Sys_close f).

(** ** TCPService *)

Definition k_normalise (config : Properties) : Properties :=
  let b := if backlogs config <=? 0 then 10 else backlogs config in
  let t := if threads config <=? 0 then 1 else threads config in
  mk_Properties (parser config) (reuse config) (app_run config) b (scheds config) t (cfg_ptr config).

(** [start]: the result of the scheduler's start is ignored. *)
Definition KTCPService_start (garbage : Z) (handler : EventHandleFunc) : M W Z :=
  k_update (fun e => k_set_config (k_normalise (k_config e)) e) ;;
  k_update (fun e => k_set_sched (mk_KScheduler (scheds (k_config e)) (k_queueFd (iocper e))
                                    (k_threads (iocper e)) (k_procFds (iocper e))) e) ;;
  let* _ := KScheduler_start in
  let* e := gets w_env in
  let* _ := KProcessor_start garbage (k_config e) handler in
  for_each (seq 0 (length (k_lstListener e))) (fun i =>
    let* r := KListener_start i (k_config e) handler in
    notify handler (if r =? 0 then EVT_LISTEN else EVT_LISTEN_FAIL) None) ;;
  sys_ignore (Sys_sleep 0) ;;
  for_each (seq 0 (length (k_lstConnector e))) (fun i =>
    let* r := KConnector_start i in
    notify handler (if r =? 0 then EVT_CONNECT else EVT_CONNECT_FAIL) None) ;;
  ret 0.

Definition KTCPService_stop : M W unit :=
  let* e := gets w_env in
  for_each (seq 0 (length (k_lstListener e))) KListener_stop ;;
  sys_ignore (Sys_sleep 1) ;;
  for_each (seq 0 (length (k_lstConnector e))) KConnector_stop ;;
  KScheduler_stop.

Definition k_addListener (ip port : Z) : M W unit :=
  k_update (fun e => k_set_listeners (k_lstListener e ++
    [mk_KListener ip port (backlogs (k_config e)) None false false Properties_default None]) e).

Definition k_addConnector (ip port : Z) : M W unit :=
  k_update (fun e => k_set_connectors (k_lstConnector e ++ [mk_KConnector ip port None]) e).
End Kqueue.
