(* ===== verification/KqueueProps.v ===== *)
(** * What the kqueue back end does with a connection's bytes

    Its send buffer is the one of the epoll back end written a second time; its receive path
    cuts the stream the same way as long as a packet does not end with the buffer. *)

From S2P Require Import Prelude Heap NetApi SendBuffer Framing Os KqueueNet.

Section KqueueProps.
Context {K U : Type} `{Kernel K}.
Context (RecvBufSize SendBufSize : Z) (h : IEventHandler U).
Local Abbreviation W := (world K (KEventHandler U) kqueue_env).

(** ** The send buffer *)

(** The connection's buffer as a [SendBuffer]. *)
Definition k_buffer (s : KEventHandler U) : SendBuffer :=
  mk_SendBuffer (k_sndBufHead s) (k_sndBufTail s) (k_sendBuf s).

Definition k_with_buffer (sb : SendBuffer) (s : KEventHandler U) : KEventHandler U :=
  k_set_send (dataBuf sb) (dataHead sb) (dataTail sb) s.

(** The loop ends within its two rounds. *)
Lemma k_make_room_total dataLen buf hd tl :
  exists ok buf' hd' tl', k_make_room SendBufSize 2 dataLen buf hd tl = Some (ok, buf', hd', tl').
Proof.
  cbn. destruct (u32 (SendBufSize - tl) <? dataLen); [|eauto 6].
  destruct (0 <? hd); [|eauto 6].
  destruct (u32 (SendBufSize - u32 (tl - hd)) <? dataLen); eauto 6.
Qed.

(** On a well-formed buffer, making room and appending is [SendBuffer]'s [push]. *)
Lemma k_make_room_push s d :
  0 < SendBufSize <= INT_MAX -> SendBuffer_wf SendBufSize (k_buffer s) ->
  match k_make_room SendBufSize 2 (zlen d) (k_sendBuf s) (k_sndBufHead s) (k_sndBufTail s) with
  | Some (true, buf, hd, tl) =>
      push SendBufSize (k_buffer s) d =
        (if zlen d <? u32 (SendBufSize - tl) then (true, mk_SendBuffer hd (tl + zlen d) (blit tl d buf))
         else (false, mk_SendBuffer hd tl buf))
  | Some (false, buf, hd, tl) => push SendBufSize (k_buffer s) d = (false, mk_SendBuffer hd tl buf)
  | None => False
  end.
Proof.
  intros HB (Hh&Ht&Hl). unfold k_buffer in *. cbn in Hh, Ht, Hl. unfold INT_MAX in *.
  set (hd := k_sndBufHead s) in *. set (tl := k_sndBufTail s) in *. set (buf := k_sendBuf s) in *.
  unfold push. cbn [k_make_room dataHead dataTail dataBuf].
  destruct (u32 (SendBufSize - tl) <? zlen d) eqn:E1; [|by destruct (zlen d <? u32 (SendBufSize - tl))].
  destruct (Z.ltb_spec 0 hd) as [Hhd|Hhd]; [|done].
  rewrite (u32_small (tl - hd)) by lia.
  destruct (Z.ltb_spec 0 (tl - hd)) as [Hp|Hp].
  - destruct (Z.ltb_spec (u32 (SendBufSize - (tl - hd))) (zlen d)) as [E2|E2].
    + destruct (Z.ltb_spec (zlen d) (u32 (SendBufSize - (tl - hd)))); [lia|done].
    + by destruct (zlen d <? u32 (SendBufSize - (tl - hd))).
  - replace (tl - hd) with 0 by lia. assert (Hb : blit 0 (slice hd 0 buf) buf = buf) by done.
    rewrite !Hb, !Z.sub_0_r. destruct (Z.ltb_spec (u32 SendBufSize) (zlen d)) as [E2|E2].
    + destruct (Z.ltb_spec (zlen d) (u32 SendBufSize)); [lia|done].
    + by rewrite ?Z.sub_0_r, ?Hb; destruct (zlen d <? u32 SendBufSize).
Qed.

(** ** Callbacks *)

(** From [w] to [w'] the chunks [cs] were received for the session [p], it was given the packets
    [ds] and ended in [P]; nothing was received for or given to another session, and no other
    session changed. *)
Definition k_moved (p : ptr) (cs ds : list (list byte)) (P : KEventHandler U -> Prop) (w w' : W) : Prop :=
  (w_env w' = w_env w /\ h_next (w_sessions w') = h_next (w_sessions w)) /\
  (forall q, q <> p -> heap_get (w_sessions w') q = heap_get (w_sessions w) q) /\
  (exists tr, w_trace w' = w_trace w ++ tr /\
     forall q, packets_of q tr = (if decide (q = p) then ds else []) /\ chunks_of q tr = (if decide (q = p) then cs else [])) /\
  forall s, heap_get (w_sessions w) p = Some s ->
    exists s', heap_get (w_sessions w') p = Some s' /\ k_fd s' = k_fd s /\ P s'.

Definition k_buffer_is (buf : list byte) (pos : Z) (s : KEventHandler U) : Prop :=
  k_recvBuf s = buf /\ k_recvBufPos s = pos.

Lemma k_moved_trans p cs1 cs2 ds1 ds2 P Q w1 w2 w3 :
  k_moved p cs1 ds1 P w1 w2 -> k_moved p cs2 ds2 Q w2 w3 -> k_moved p (cs1 ++ cs2) (ds1 ++ ds2) Q w1 w3.
Proof.
  intros ([E1 N1]&O1&(t1&T1&D1)&S1) ([E2 N2]&O2&(t2&T2&D2)&S2). split_and!.
  - congruence.
  - congruence.
  - intros q Hq. rewrite O2, O1; done.
  - exists (t1 ++ t2). rewrite T2, T1, app_assoc. split; [done|]. intros q. destruct (D1 q) as [P1 C1], (D2 q) as [P2 C2].
    rewrite packets_of_app, chunks_of_app, P1, P2, C1, C2. by destruct (decide (q = p)).
  - intros s Hs. destruct (S1 s Hs) as (s1&Hs1&?&_). destruct (S2 s1 Hs1) as (s2&?&?&?).
    exists s2. split_and!; [done|congruence|done].
Qed.

Lemma k_moved_refl p s w :
  heap_get (w_sessions w) p = Some s -> k_moved p [] [] (k_buffer_is (k_recvBuf s) (k_recvBufPos s)) w w.
Proof.
  intros Hs. split_and!; [done..|exists []; rewrite app_nil_r; split; [done|]; intros q; by destruct (decide (q = p))|].
  intros s0 Hs0. assert (s0 = s) as -> by congruence. by exists s.
Qed.

(** One event added to the trace. *)
Lemma k_moved_trace p s e cs ds w w' :
  heap_get (w_sessions w) p = Some s -> w_env w' = w_env w -> w_sessions w' = w_sessions w ->
  w_trace w' = w_trace w ++ [e] ->
  (forall q, packets_of q [e] = (if decide (q = p) then ds else []) /\ chunks_of q [e] = (if decide (q = p) then cs else [])) ->
  k_moved p cs ds (k_buffer_is (k_recvBuf s) (k_recvBufPos s)) w w'.
Proof.
  intros Hs HE HS HT Hd. split_and!; [done|by rewrite HS|by intros; rewrite HS|by eexists|].
  intros s0 Hs0. assert (s0 = s) as -> by congruence. exists s. rewrite HS. by split_and!.
Qed.

Lemma k_moved_put p s s' P w :
  heap_get (w_sessions w) p = Some s -> k_fd s' = k_fd s -> P s' ->
  k_moved p [] [] P w
    (set_sessions (mk_heap (<[p := s']> (h_cells (w_sessions w))) (h_next (w_sessions w))) w).
Proof.
  intros Hs Hf HP. split_and!; [done|done| |exists []; rewrite app_nil_r; split; [done|]; intros q; by destruct (decide (q = p))|].
  - intros q Hq. unfold heap_get. cbn. by rewrite lookup_insert_ne.
  - intros s0 Hs0. assert (s0 = s) as -> by congruence. exists s'. unfold heap_get. cbn.
    by rewrite lookup_insert_eq.
Qed.

(** Chaining. *)
Lemma k_moved_bind {A C} p cs1 cs2 ds1 ds2 P Q (m : M W A) (k : A -> M W C) s w :
  heap_get (w_sessions w) p = Some s ->
  wp m (fun _ w' => k_moved p cs1 ds1 P w w') w ->
  (forall a w1 s1, heap_get (w_sessions w1) p = Some s1 -> P s1 ->
     wp (k a) (fun _ w' => k_moved p cs2 ds2 Q w1 w') w1) ->
  wp (bind m k) (fun _ w' => k_moved p (cs1 ++ cs2) (ds1 ++ ds2) Q w w') w.
Proof.
  intros Hs Hm Hk. apply wp_bind. eapply wp_mono; [exact Hm|]. cbv beta. intros a w1 Hmv.
  pose proof Hmv as (_&_&_&Hex). destruct (Hex s Hs) as (s1&Hs1&_&HP).
  eapply wp_mono; [by eapply Hk|]. cbv beta. intros c w2 ?. by eapply k_moved_trans.
Qed.

Local Abbreviation keeps_buffer s := (k_buffer_is (k_recvBuf s) (k_recvBufPos s)).

Lemma k_call_moved p c s w :
  heap_get (w_sessions w) p = Some s ->
  wp (sys_ret c) (fun _ w' => k_moved p [] [] (keeps_buffer s) w w') w.
Proof.
  intros Hs. apply wp_sys_ret, (k_moved_trace p s (TSys c (sr_ret (sys c (w_kernel w)).1))); [done..|].
  intros q. by destruct (decide (q = p)).
Qed.

Lemma k_ignore_moved p c s w :
  heap_get (w_sessions w) p = Some s ->
  wp (sys_ignore c) (fun _ w' => k_moved p [] [] (keeps_buffer s) w w') w.
Proof.
  intros Hs. apply wp_sys_ignore, (k_moved_trace p s (TSys c (sr_ret (sys c (w_kernel w)).1))); [done..|].
  intros q. by destruct (decide (q = p)).
Qed.

Lemma k_async_send_moved p d s w :
  heap_get (w_sessions w) p = Some s ->
  wp (k_async_send SendBufSize p d) (fun _ w' => k_moved p [] [] (keeps_buffer s) w w') w.
Proof.
  intros Hs. unfold k_async_send, updateEvents. apply wp_bind. eapply wp_session; [exact Hs|]. cbv zeta.
  destruct (k_make_room_total (zlen d) (k_sendBuf s) (k_sndBufHead s) (k_sndBufTail s)) as (ok&buf&hd&tl&->).
  destruct ok; [destruct (_ <? _)|];
    (eapply (k_moved_bind p [] [] [] [] (keeps_buffer s)); [exact Hs|eapply wp_put_session; [exact Hs|]; by eapply k_moved_put|]);
    intros [] w1 s1 Hs1 [<- <-].
  - eapply (k_moved_bind p [] [] [] []); [exact Hs1|by apply k_ignore_moved|]. intros [] w2 s2 Hs2 [<- <-].
    apply wp_ret. by apply k_moved_refl.
  - apply wp_ret. by apply k_moved_refl.
  - apply wp_ret. by apply k_moved_refl.
Qed.

Lemma k_run_callback_moved p c s w :
  heap_get (w_sessions w) p = Some s ->
  wp (k_run_callback SendBufSize p c) (fun _ w' => k_moved p [] [] (keeps_buffer s) w w') w.
Proof.
  revert s w. induction c as [|k IH|u k IH|data k IH|data k IH|k IH]; intros s w Hs; cbn [k_run_callback].
  - apply wp_ret. by apply k_moved_refl.
  - apply wp_bind. eapply wp_session; [exact Hs|]. auto.
  - apply wp_bind. eapply wp_session; [exact Hs|].
    eapply (k_moved_bind p [] [] [] [] (keeps_buffer s)); [exact Hs| |].
    + eapply wp_put_session; [exact Hs|]. by eapply k_moved_put.
    + intros [] w1 s1 Hs1 [<- <-]. auto.
  - eapply (k_moved_bind p [] [] [] [] (keeps_buffer s)); [exact Hs| |].
    + unfold k_send. apply wp_bind. eapply wp_session; [exact Hs|].
      eapply (k_moved_bind p [] [] [] []); [exact Hs|by apply k_call_moved|]. intros r w1 s1 Hs1 [<- <-].
      apply wp_ret. by apply k_moved_refl.
    + intros r w1 s1 Hs1 [<- <-]. auto.
  - eapply (k_moved_bind p [] [] [] [] (keeps_buffer s)); [exact Hs|by apply k_async_send_moved|].
    intros r w1 s1 Hs1 [<- <-]. auto.
  - eapply (k_moved_bind p [] [] [] [] (keeps_buffer s)); [exact Hs| |].
    + unfold k_close. apply wp_bind. eapply wp_session; [exact Hs|]. by apply k_ignore_moved.
    + intros [] w1 s1 Hs1 [<- <-]. auto.
Qed.

(** ** The receive path *)

Definition k_pending (s : KEventHandler U) : list byte := slice 0 (k_recvBufPos s) (k_recvBuf s).

Definition k_recv_inv (s : KEventHandler U) : Prop :=
  zlen (k_recvBuf s) = RecvBufSize /\ 0 <= k_recvBufPos s <= RecvBufSize.

(** The buffer is full to its last byte and ends with a packet: with [d] the bytes to cut. *)
Definition k_overrun (rp : list byte -> Z) (pos : Z) (d : list byte) : Prop := pos = RecvBufSize /\ (frames rp d).2 = [].

Definition k_unread (s : KEventHandler U) (readPos : Z) : list byte :=
  slice readPos (k_recvBufPos s - readPos) (k_recvBuf s).

Lemma zlen_k_unread s readPos :
  k_recv_inv s -> 0 <= readPos <= k_recvBufPos s -> zlen (k_unread s readPos) = k_recvBufPos s - readPos.
Proof. intros [? ?] ?. unfold k_unread. zlens. Qed.

Lemma k_deliver_moved p readPos pkgLen s w :
  heap_get (w_sessions w) p = Some s -> 0 <= readPos + pkgLen < zlen (k_recvBuf s) ->
  wp (k_deliver SendBufSize h p readPos pkgLen)
    (fun _ w' => k_moved p [] [slice readPos pkgLen (k_recvBuf s)] (keeps_buffer s) w w') w.
Proof.
  intros Hs Hb. unfold k_deliver. apply wp_bind. eapply wp_session; [exact Hs|]. cbv zeta.
  destruct (proj2 (zget_some_iff (k_recvBuf s) (readPos + pkgLen)) Hb) as [v Hv].
  apply wp_bind. eapply wp_deref; [exact Hv|].
  eapply (k_moved_bind p [] [] [] _ (k_buffer_is (zset (k_recvBuf s) (readPos + pkgLen) x00) (k_recvBufPos s)));
    [exact Hs|eapply wp_put_session; [exact Hs|]; by eapply k_moved_put|].
  intros [] w1 s1 Hs1 [Hb1 Hp1].
  eapply (k_moved_bind p [] [] [slice readPos pkgLen (k_recvBuf s)] [] (keeps_buffer s1)); [exact Hs1| |].
  { apply wp_emit. eapply (k_moved_trace p s1); [done..|]. intros q. unfold packets_of, chunks_of; cbn. repeat case_decide; congruence || done. }
  intros [] w2 s2 Hs2 [Hb2 Hp2].
  eapply (k_moved_bind p [] [] [] [] (keeps_buffer s2)); [exact Hs2|by apply k_run_callback_moved|].
  intros [] w3 s3 Hs3 [Hb3 Hp3]. apply wp_bind. eapply wp_session; [exact Hs3|].
  eapply wp_put_session; [exact Hs3|]. eapply k_moved_put; [exact Hs3|done|].
  split; cbn; [|congruence]. rewrite Hb3, Hb2, Hb1. by apply zset_restore.
Qed.

Lemma k_keep_rest_moved p readPos s w :
  heap_get (w_sessions w) p = Some s -> k_recv_inv s -> 0 < readPos <= k_recvBufPos s ->
  wp (k_keep_rest RecvBufSize p readPos)
    (fun _ w' => k_moved p [] [] (fun s' => k_recv_inv s' /\ k_pending s' = k_unread s readPos) w w') w.
Proof.
  intros Hs Hinv Hr. pose proof (zlen_k_unread s readPos Hinv ltac:(lia)) as Hl.
  pose proof Hinv as [Hb Hp]. unfold k_keep_rest, k_unread in *. apply wp_bind. eapply wp_session; [exact Hs|]. cbv zeta.
  destruct (Z.leb_spec 0 (k_recvBufPos s - readPos)), (Z.ltb_spec (k_recvBufPos s - readPos) RecvBufSize);
    try lia. cbn [andb]. eapply wp_put_session; [exact Hs|]. eapply k_moved_put; [exact Hs|done|].
  set (left := k_recvBufPos s - readPos) in *. set (rest := slice readPos left (k_recvBuf s)) in *.
  assert (Hbl : zlen (blit 0 rest (k_recvBuf s)) = RecvBufSize) by (rewrite zlen_blit; lia).
  split; [split; cbn; [by rewrite length_zset|lia]|].
  unfold k_pending; cbn. unfold zset. destruct (Z.ltb_spec left 0); [lia|].
  unfold slice at 1. rewrite drop_0, take_insert_ge by lia.
  change (take (Z.to_nat left) (blit 0 rest (k_recvBuf s))) with (slice 0 left (blit 0 rest (k_recvBuf s))).
  rewrite <- Hl. apply slice_blit_at. lia.
Qed.

Context (rp : list byte -> Z) `{!FramingBounded rp}.
Hypothesis read_packet_is : forall u bs, read_packet h u bs = rp bs.

Lemma k_recv_loop_frames fuel p readPos s w :
  heap_get (w_sessions w) p = Some s -> k_recv_inv s -> 0 <= readPos <= k_recvBufPos s ->
  0 < rp (k_unread s readPos) -> k_recvBufPos s - readPos <= Z.of_nat fuel ->
  ~ k_overrun rp (k_recvBufPos s) (k_unread s readPos) ->
  wp (k_recv_loop RecvBufSize SendBufSize h fuel p readPos (rp (k_unread s readPos)))
    (fun _ w' => k_moved p [] (frames rp (k_unread s readPos)).1
                   (fun s' => k_recv_inv s' /\ k_pending s' = (frames rp (k_unread s readPos)).2) w w') w.
Proof.
  revert readPos s w. induction fuel as [|fuel IH]; intros readPos s w Hs Hinv Hr Hn Hf Hov;
    pose proof (zlen_k_unread s readPos Hinv Hr) as Hlen; pose proof (rp_bounded rp (k_unread s readPos)) as Hb;
    [lia|].
  cbn [k_recv_loop]. destruct (Z.leb_spec (rp (k_unread s readPos)) 0); [lia|].
  set (n := rp (k_unread s readPos)) in *. pose proof Hinv as [Hbl Hp].
  apply wp_bind. eapply wp_session; [exact Hs|]. destruct (Z.leb_spec (readPos + n) (k_recvBufPos s)); [|lia].
  pose proof (frames_packet rp (k_unread s readPos) ltac:(fold n; lia)) as Hfr. fold n in Hfr.
  assert (Hdrop : drop (Z.to_nat n) (k_unread s readPos) = k_unread s (readPos + n)).
  { unfold k_unread. rewrite drop_slice by lia. f_equal. lia. }
  assert (Htake : take (Z.to_nat n) (k_unread s readPos) = slice readPos n (k_recvBuf s)).
  { unfold k_unread. by rewrite take_slice by lia. }
  rewrite Hdrop, Htake in Hfr. unfold k_overrun in Hov. rewrite Hfr in *. cbn [fst snd] in *.
  assert (Hend : readPos + n < RecvBufSize).
  { destruct (Z.lt_ge_cases (readPos + n) RecvBufSize); [done|]. destruct Hov. split; [lia|].
    replace (k_unread s (readPos + n)) with ([] : list byte); [by rewrite frames_nil|].
    symmetry. apply nil_length_inv. pose proof (zlen_k_unread s (readPos + n) Hinv ltac:(lia)). lia. }
  apply wp_bind_ret. eapply (k_moved_bind p [] [] [slice readPos n (k_recvBuf s)]); [exact Hs|apply k_deliver_moved; [done|lia]|].
  intros [] w1 s1 Hs1 [Hbuf Hpos]. apply wp_bind. eapply wp_session; [exact Hs1|].
  assert (Hinv1 : k_recv_inv s1) by (unfold k_recv_inv; by rewrite Hbuf, Hpos).
  assert (Hun : k_unread s (readPos + n) = k_unread s1 (readPos + n)) by (unfold k_unread; by rewrite Hbuf, Hpos).
  rewrite Hun. fold (k_unread s1 (readPos + n)). rewrite read_packet_is.
  destruct (Z.ltb_spec (readPos + n) (k_recvBufPos s1)).
  - destruct (Z.leb_spec (rp (k_unread s1 (readPos + n))) 0).
    + rewrite frames_stop by lia. by apply k_keep_rest_moved; [|done|lia].
    + apply IH; [done|done|lia|lia|lia|]. unfold k_overrun. by rewrite Hpos, <- Hun.
  - assert (Hnil : k_unread s1 (readPos + n) = []).
    { apply nil_length_inv. pose proof (zlen_k_unread s1 (readPos + n) Hinv1 ltac:(lia)). lia. }
    rewrite Hnil, frames_nil. cbn [fst snd]. eapply wp_put_session; [exact Hs1|].
    eapply k_moved_put; [exact Hs1|done|]. destruct Hinv1. split; [split; cbn; [done|lia]|done].
Qed.

(** What follows a computation that returns. *)
Lemma undefined_bind {A C} (m : M W A) (k : A -> M W C) Q w :
  wp m Q w -> (forall a w1, Q a w1 -> (k a w1).1 = Undefined) -> (bind m k w).1 = Undefined.
Proof using. clear. unfold wp, bind. intros Hm Hk. destruct (m w) as [[a| | | | |] w1]; [by apply Hk|done..]. Qed.

(** A buffer that is full and ends with a packet: the loop delivers the packets before the last one
    and then leaves the buffer. *)
Lemma k_recv_loop_overrun fuel p readPos s w :
  heap_get (w_sessions w) p = Some s -> k_recv_inv s -> 0 <= readPos <= k_recvBufPos s -> 0 < rp (k_unread s readPos) ->
  k_recvBufPos s - readPos <= Z.of_nat fuel -> k_overrun rp (k_recvBufPos s) (k_unread s readPos) ->
  (k_recv_loop RecvBufSize SendBufSize h fuel p readPos (rp (k_unread s readPos)) w).1 = Undefined.
Proof.
  revert readPos s w. induction fuel as [|fuel IH]; intros readPos s w Hs Hinv Hr Hn Hf [Hfull Hov];
    pose proof (zlen_k_unread s readPos Hinv Hr) as Hlen; pose proof (rp_bounded rp (k_unread s readPos)) as Hb; [lia|].
  cbn [k_recv_loop]. destruct (Z.leb_spec (rp (k_unread s readPos)) 0); [lia|].
  set (n := rp (k_unread s readPos)) in *. pose proof Hinv as [Hbl Hp].
  rewrite (bind_Ok _ _ w s w) by (unfold session; by rewrite Hs).
  destruct (Z.leb_spec (readPos + n) (k_recvBufPos s)); [|lia].
  pose proof (frames_packet rp (k_unread s readPos) ltac:(fold n; lia)) as Hfr. fold n in Hfr.
  assert (Hdrop : drop (Z.to_nat n) (k_unread s readPos) = k_unread s (readPos + n)).
  { unfold k_unread. rewrite drop_slice by lia. f_equal. lia. }
  rewrite Hfr, Hdrop in Hov. cbn [snd] in Hov. destruct (Z.eq_dec (readPos + n) RecvBufSize) as [Hend|Hend].
  { unfold bind at 1 2, k_deliver. rewrite (bind_Ok _ _ w s w) by (unfold session; by rewrite Hs). cbv zeta. rewrite Hend, <- Hbl.
    destruct (zget (k_recvBuf s) (zlen (k_recvBuf s))) eqn:E; [|done].
    assert (is_Some (zget (k_recvBuf s) (zlen (k_recvBuf s)))) as Hx by (by rewrite E). apply zget_some_iff in Hx. lia. }
  eapply undefined_bind with (Q := fun a w1 => a = readPos + n /\ exists s1, heap_get (w_sessions w1) p = Some s1 /\ k_buffer_is (k_recvBuf s) (k_recvBufPos s) s1).
  { apply wp_bind. eapply wp_mono; [apply (k_deliver_moved p readPos n s); [done|lia]|]. cbv beta. intros [] w1 (_&_&_&Hex).
    destruct (Hex s Hs) as (s1&Hs1&_&Hbuf). apply wp_ret. split; [done|]. by exists s1. }
  intros a w1 (->&s1&Hs1&Hbuf&Hpos). rewrite (bind_Ok _ _ w1 s1 w1) by (unfold session; by rewrite Hs1).
  assert (Hinv1 : k_recv_inv s1) by (unfold k_recv_inv; by rewrite Hbuf, Hpos).
  assert (Hun : k_unread s (readPos + n) = k_unread s1 (readPos + n)) by (unfold k_unread; by rewrite Hbuf, Hpos).
  rewrite Hun in Hov. fold (k_unread s1 (readPos + n)). rewrite read_packet_is.
  destruct (Z.ltb_spec (readPos + n) (k_recvBufPos s1)); [|lia]. destruct (Z.leb_spec (rp (k_unread s1 (readPos + n))) 0) as [Hz|Hz].
  - exfalso. rewrite frames_stop in Hov by lia. cbn in Hov. pose proof (zlen_k_unread s1 (readPos + n) Hinv1 ltac:(lia)) as Hl.
    rewrite Hov in Hl. cbn in Hl. lia.
  - apply IH; [done|done|lia|done|lia|]. split; [lia|done].
Qed.
End KqueueProps.

(** ** Properties *)

(** C31. [async_send] of the kqueue back end keeps its own head, tail and array; on a well-formed
    buffer it is [SendBuffer::push]: the same buffer afterwards, 0 exactly when [push] returns
    true, and only then the connection's interest is changed to writing. *)
Theorem kqueue_async_send_is_push {K U : Type} `{Kernel K} (SendBufSize : Z)
    (w : world K (KEventHandler U) kqueue_env) (p : ptr) (s : KEventHandler U) (d : list byte) :
  0 < SendBufSize <= INT_MAX -> heap_get (w_sessions w) p = Some s ->
  SendBuffer_wf SendBufSize (k_buffer s) ->
  let '(ok, sb) := push SendBufSize (k_buffer s) d in
  exists w' r, k_async_send SendBufSize p d w = (Ok (if ok then 0 else -1), w') /\
    heap_get (w_sessions w') p = Some (k_with_buffer sb s) /\
    w_trace w' = w_trace w ++
      (if ok then [TSys (Sys_kevent_change (k_procFd s)
                     [mk_kevent (k_fd s) EVFILT_READ EV_DELETE (DPtr (Some p));
                      mk_kevent (k_fd s) EVFILT_WRITE EV_ADD_ENABLE (DPtr (Some p))]) r] else []).
Proof.
  intros HB Hs Hwf. pose proof (k_make_room_push SendBufSize s d HB Hwf) as Hm.
  destruct (push SendBufSize (k_buffer s) d) as [ok sb].
  assert (Hwp : wp (k_async_send SendBufSize p d) (fun a w' => a = (if ok then 0 else -1) /\
    exists r, heap_get (w_sessions w') p = Some (k_with_buffer sb s) /\
    w_trace w' = w_trace w ++
      (if ok then [TSys (Sys_kevent_change (k_procFd s)
                     [mk_kevent (k_fd s) EVFILT_READ EV_DELETE (DPtr (Some p));
                      mk_kevent (k_fd s) EVFILT_WRITE EV_ADD_ENABLE (DPtr (Some p))]) r] else [])) w).
  { unfold k_async_send, updateEvents. apply wp_bind. eapply wp_session; [exact Hs|]. cbv zeta.
    destruct (k_make_room _ _ _ _ _ _) as [[[[b buf] hd] tl]|]; [|done]. destruct b.
    - destruct (zlen d <? u32 (SendBufSize - tl)); injection Hm as -> ->.
      + apply wp_bind. eapply wp_put_session; [exact Hs|]. wp_steps. split; [done|]. eexists.
        split; [unfold heap_get; cbn; apply lookup_insert_eq|reflexivity].
      + apply wp_bind. eapply wp_put_session; [exact Hs|]. wp_steps. split; [done|]. exists 0.
        split; [unfold heap_get; cbn; apply lookup_insert_eq|cbn; by rewrite app_nil_r].
    - injection Hm as -> ->. apply wp_bind. eapply wp_put_session; [exact Hs|]. wp_steps. split; [done|]. exists 0.
      split; [unfold heap_get; cbn; apply lookup_insert_eq|cbn; by rewrite app_nil_r]. }
  destruct (wp_Ok _ _ _ Hwp) as (a&w'&Hrun&->&r&?). exists w', r. by split.
Qed.

Definition k_one_session (s : KEventHandler nat) (k : script) : world script (KEventHandler nat) kqueue_env :=
  mk_world k 0 [] (mk_heap {[ 1%positive := s ]} 2%positive) (KTCPService_new true).

(** Two pending bytes at the end of an eight byte buffer. *)
Definition k_tail_session : KEventHandler nat :=
  k_set_send (replicate 8 x41) 4 6 (KEventHandler_new 8 8 0%nat).

Lemma kqueue_async_send_is_push_witness :
  exists w' r, k_async_send 8 1%positive [x42; x43; x44] (k_one_session k_tail_session []) = (Ok 0, w') /\
    heap_get (w_sessions w') 1%positive =
      Some (k_with_buffer (push 8 (k_buffer k_tail_session) [x42; x43; x44]).2 k_tail_session) /\
    w_trace w' = [] ++ [TSys (Sys_kevent_change 0
                     [mk_kevent 0 EVFILT_READ EV_DELETE (DPtr (Some 1%positive));
                      mk_kevent 0 EVFILT_WRITE EV_ADD_ENABLE (DPtr (Some 1%positive))]) r].
Proof.
  refine (kqueue_async_send_is_push 8 (k_one_session k_tail_session []) 1%positive k_tail_session
    [x42; x43; x44] _ eq_refl _).
  - unfold INT_MAX; lia.
  - unfold SendBuffer_wf; cbn; lia.
Defined.

(** The state after the new bytes were stored. *)
Lemma k_pending_store {U} RecvBufSize (s : KEventHandler U) d :
  k_recv_inv RecvBufSize s -> k_recvBufPos s + zlen d <= RecvBufSize ->
  let s' := k_set_recv (blit (k_recvBufPos s) d (k_recvBuf s)) (k_recvBufPos s + zlen d) s in
  k_recv_inv RecvBufSize s' /\ k_pending s' = k_pending s ++ d.
Proof.
  intros [Hb Hp] Hd s'. split.
  - split; cbn; [rewrite zlen_blit; lia|lia].
  - unfold k_pending; cbn. rewrite slice_app by lia. f_equal.
    + apply slice_blit_before; lia.
    + rewrite Z.add_0_l. apply slice_blit_at. lia.
Qed.

Lemma k_handle_read_data {K U} `{Kernel K} RecvBufSize SendBufSize (h : IEventHandler U) rp `{!FramingBounded rp}
    fuel pfd p s (w : world K (KEventHandler U) kqueue_env) :
  (forall u bs, read_packet h u bs = rp bs) ->
  heap_get (w_sessions w) p = Some s -> k_recv_inv RecvBufSize s -> RecvBufSize <= Z.of_nat fuel ->
  let r := (sys (Sys_recv (k_fd s) (k_recv_size RecvBufSize s)) (w_kernel w)).1 in
  0 < sr_ret r -> sr_ret r = zlen (sr_data r) -> k_recvBufPos s + sr_ret r <= RecvBufSize ->
  ~ k_overrun RecvBufSize rp (k_recvBufPos s + sr_ret r) (k_pending s ++ sr_data r) ->
  wp (k_handle_read RecvBufSize SendBufSize h fuel pfd p)
    (fun _ w' => k_moved p [sr_data r] (frames rp (k_pending s ++ sr_data r)).1
       (fun s' => k_recv_inv RecvBufSize s' /\ k_pending s' = (frames rp (k_pending s ++ sr_data r)).2) w w') w.
Proof.
  intros Hrp Hs Hinv Hf r Hr Hlen Hroom Hov. unfold k_handle_read, k_would_block. wp_steps. fold r. clearbody r.
  destruct (Z.ltb_spec (sr_ret r) 0), (Z.eqb_spec (sr_ret r) 0); try lia. cbn [andb].
  set (w1 := after_call _ _ _ w).
  destruct (k_pending_store RecvBufSize s (sr_data r) Hinv ltac:(lia)) as [Hinv3 Hpend]. rewrite <- Hlen in Hinv3, Hpend.
  set (s3 := k_set_recv _ _ _) in *.
  apply wp_bind, wp_emit. set (w2 := mk_world _ _ (w_trace w1 ++ _) _ _). apply wp_bind.
  eapply wp_put_session; [exact Hs|]. fold s3. set (w3 := set_sessions _ w2).
  assert (Hm : k_moved p [sr_data r] [] (fun s' => s' = s3) w w3).
  { apply (k_moved_trans p [] [sr_data r] [] [] (k_buffer_is (k_recvBuf s) (k_recvBufPos s)) _ w w1 w3).
    { eapply (k_moved_trace p s _ [] [] w w1); [done..|]. intros q. by destruct (decide (q = p)). }
    apply (k_moved_trans p [sr_data r] [] [] [] (k_buffer_is (k_recvBuf s) (k_recvBufPos s)) _ w1 w2 w3); [|by eapply k_moved_put].
    eapply (k_moved_trace p s _ _ _ w1 w2); [done..|]. intros q. unfold packets_of, chunks_of; cbn. repeat case_decide; congruence || done. }
  assert (Hs3 : heap_get (w_sessions w3) p = Some s3) by (unfold heap_get; cbn; by rewrite lookup_insert_eq).
  clearbody w3. rewrite Hrp.
  change (slice 0 (k_recvBufPos s + sr_ret r) (blit (k_recvBufPos s) (sr_data r) (k_recvBuf s))) with (k_pending s3).
  assert (Hun : k_pending s3 = k_unread s3 0) by (unfold k_unread; by rewrite Z.sub_0_r).
  rewrite <- Hpend in *. eapply wp_mono with (Q := fun _ w' => k_moved p [] (frames rp (k_pending s3)).1
    (fun s' => k_recv_inv RecvBufSize s' /\ k_pending s' = (frames rp (k_pending s3)).2) w3 w').
  2:{ cbv beta. intros [] w' Hm'. exact (k_moved_trans p [sr_data r] [] [] _ _ _ w w3 w' Hm Hm'). }
  destruct (Z.le_gt_cases (rp (k_pending s3)) 0) as [Hn|Hn].
  - rewrite frames_stop by lia.
    replace (k_recv_loop _ _ _ _ _ _ _) with (@ret (world K (KEventHandler U) kqueue_env) unit tt).
    2:{ destruct fuel; cbn [k_recv_loop]; destruct (Z.leb_spec (rp (k_pending s3)) 0); done || lia. }
    apply wp_ret. destruct (k_moved_refl p s3 w3 Hs3) as (E&O&T&HS). split_and!; [done..|].
    intros s0 Hs0. assert (s0 = s3) as -> by congruence. by exists s3.
  - rewrite Hun in *. destruct Hinv3. apply k_recv_loop_frames; [done|done|done|split; done|lia|done|lia|done].
Qed.

Definition k_echo_handler : IEventHandler nat := {|
  read_packet := fun _ bs => length_prefixed bs;
  on_connect := CDone; on_disconnect := CDone;
  on_recv := fun d => CGet (fun n => CPut (S n) (CAsyncSend d (fun _ => CDone)));
  on_message := fun _ => CDone;
  on_send := fun u _ _ _ => u; parse_message := fun _ _ off => InBuf off
|}.

(** The same for the whole branch. *)
Lemma k_handle_read_overrun {K U} `{Kernel K} RecvBufSize SendBufSize (h : IEventHandler U) rp `{!FramingBounded rp}
    fuel pfd p s (w : world K (KEventHandler U) kqueue_env) :
  (forall u bs, read_packet h u bs = rp bs) -> heap_get (w_sessions w) p = Some s -> k_recv_inv RecvBufSize s -> RecvBufSize <= Z.of_nat fuel ->
  let r := (sys (Sys_recv (k_fd s) (k_recv_size RecvBufSize s)) (w_kernel w)).1 in
  0 < sr_ret r -> sr_ret r = zlen (sr_data r) -> k_overrun RecvBufSize rp (k_recvBufPos s + sr_ret r) (k_pending s ++ sr_data r) ->
  (k_handle_read RecvBufSize SendBufSize h fuel pfd p w).1 = Undefined.
Proof.
  intros Hrp Hs Hinv Hf r Hr Hlen Hov. unfold k_handle_read.
  destruct (k_pending_store RecvBufSize s (sr_data r) Hinv) as [Hinv3 Hpend]; [destruct Hov; lia|]. rewrite <- Hlen in Hinv3, Hpend.
  set (s3 := k_set_recv _ _ _) in *. rewrite <- Hpend in Hov.
  rewrite (bind_Ok _ _ w s w) by (unfold session; by rewrite Hs).
  eapply undefined_bind; [apply (wp_sys_call _ (fun r0 w0 => r0 = r /\ heap_get (w_sessions w0) p = Some s)); done|]. intros r0 w0 [-> Hs0]. clearbody r.
  eapply undefined_bind; [apply (wp_mono _ (fun _ w1 => w1 = w0)); [done|by intros b w1; exact id]|]. intros again w1 ->. rewrite bind_gets.
  destruct (Z.ltb_spec (sr_ret r) 0), (Z.eqb_spec (sr_ret r) 0); try lia. cbn [andb].
  eapply undefined_bind; [apply (wp_emit _ (fun _ w1 => heap_get (w_sessions w1) p = Some s)); done|]. intros [] w1 Hs1.
  eapply undefined_bind; [eapply (wp_put_session p _ (fun _ w2 => heap_get (w_sessions w2) p = Some s3)); [exact Hs1|]; unfold heap_get; cbn; apply lookup_insert_eq|].
  intros [] w2 Hs2. rewrite Hrp.
  change (slice 0 (k_recvBufPos s + sr_ret r) (blit (k_recvBufPos s) (sr_data r) (k_recvBuf s))) with (k_pending s3).
  assert (Hun : k_pending s3 = k_unread s3 0) by (unfold k_unread; by rewrite Z.sub_0_r).
  rewrite Hun in *. apply k_recv_loop_overrun; [done|done|done|done|destruct Hinv3; lia| |destruct Hinv3; lia|done].
  destruct (Z.lt_ge_cases 0 (rp (k_unread s3 0))) as [|Hz]; [done|]. destruct Hov as [_ Hov]. rewrite frames_stop in Hov by lia. cbn in Hov.
  rewrite Hov in Hpend. symmetry in Hpend. apply app_eq_nil in Hpend as [_ Hd]. rewrite Hd in Hlen. cbn in Hlen. lia.
Qed.

(** The thread count of the kqueue back end is not clamped, whatever the uninitialised variable
    in its formula holds: a processor with an index of MAX_THREAD or more reads outside the array
    of kernel queues. *)
Theorem kqueue_threads_unclamped {K U : Type} `{Kernel K} (RecvBufSize SendBufSize : Z) (h : IEventHandler U)
    (garbage n : Z) (w : world K (KEventHandler U) kqueue_env) (rounds fuel : nat) :
  zlen (k_procFds (iocper (w_env w))) = MAX_THREAD -> MAX_THREAD < n ->
  k_clamp_threads garbage n = n /\
  KProcessor_run RecvBufSize SendBufSize h rounds fuel (n - 1) w = (Undefined, w).
Proof.
  intros Hl Hn. split; [unfold k_clamp_threads, MAX_THREAD; by destruct (garbage <? n)|].
  unfold KProcessor_run. rewrite bind_gets.
  destruct (zget (k_procFds (iocper (w_env w))) (n - 1)) eqn:E; [|done].
  assert (is_Some (zget (k_procFds (iocper (w_env w))) (n - 1))) as Hx by (by rewrite E).
  apply zget_some_iff in Hx. lia.
Qed.

Lemma kqueue_threads_unclamped_witness :
  k_clamp_threads 7 64 = 64 /\
  KProcessor_run 16 16 k_echo_handler 1 16 63 (k_one_session (KEventHandler_new 16 16 0%nat) [])
  = (Undefined, k_one_session (KEventHandler_new 16 16 0%nat) []).
Proof.
  apply (kqueue_threads_unclamped 16 16 k_echo_handler 7 64 (k_one_session (KEventHandler_new 16 16 0%nat) []) 1 16);
    reflexivity.
Defined.
