(* ===== verification/KqueueServer.v ===== *)
(** * A running kqueue service

    The threads of the kqueue back end as a transition system: a processor handles a kernel event, a
    listener's thread handles one of its own, a connector connects.  Sessions are never released
    here, so the framing theorem holds for every session ever made. *)

From S2P Require Import Prelude Heap NetApi SendBuffer Framing Os KqueueNet KqueueProps.

Section KqueueServer.
Context {K U : Type} `{Kernel K}.
Context (RecvBufSize SendBufSize : Z) (h : IEventHandler U) (user_init : U).
Local Abbreviation W := (world K (KEventHandler U) kqueue_env).

Inductive k_step (w w' : W) : Prop :=
| k_step_event fuel pfd ev : RecvBufSize <= Z.of_nat fuel ->
    k_handle_kevent RecvBufSize SendBufSize h fuel pfd ev w = (Ok tt, w') -> k_step w w'
| k_step_listen fuel i kfd lisFd ev :
    k_listen_event RecvBufSize SendBufSize h user_init fuel i kfd lisFd ev w = (Ok tt, w') -> k_step w w'
| k_step_connect i r : KConnector_connect RecvBufSize SendBufSize h user_init i w = (Ok r, w') -> k_step w w'.

Context (rp : list byte -> Z) `{!FramingLaw rp, !KernelLaws K}.
Hypothesis read_packet_is : forall u bs, read_packet h u bs = rp bs.
Hypothesis RecvBufSize_pos : 0 < RecvBufSize.

(** Each session was given the packets of the bytes received for it, and holds the rest. *)
Definition k_stream_inv (w : W) : Prop :=
  heap_wf (w_sessions w) /\
  (forall p s, heap_get (w_sessions w) p = Some s ->
     k_recv_inv RecvBufSize s /\ frames rp (concat (chunks_of p (w_trace w))) = (packets_of p (w_trace w), k_pending s)) /\
  (forall p, (h_next (w_sessions w) <= p)%positive -> chunks_of p (w_trace w) = [] /\ packets_of p (w_trace w) = []).

Definition k_kept (w w' : W) : Prop := k_stream_inv w -> k_stream_inv w'.

#[local] Instance k_kept_preorder : PreOrder k_kept.
Proof. split; unfold k_kept; [by intros w|]. intros a b c. auto. Qed.

(** Nothing received or delivered, and the sessions keep their receive buffers. *)
Lemma k_kept_intro w w' tr : h_next (w_sessions w') = h_next (w_sessions w) -> w_trace w' = w_trace w ++ tr ->
  (forall q, packets_of q tr = [] /\ chunks_of q tr = []) ->
  (forall q s', heap_get (w_sessions w') q = Some s' -> exists s, heap_get (w_sessions w) q = Some s /\
     k_recvBuf s' = k_recvBuf s /\ k_recvBufPos s' = k_recvBufPos s) -> k_kept w w'.
Proof using.
  clear. intros N T D S (Hwf&Hs&Hf). split_and!.
  - intros q s' Hq. destruct (S q s' Hq) as (s&Hq'&_). rewrite N. by eapply Hwf.
  - intros q s' Hq. destruct (S q s' Hq) as (s&Hq'&Hb&Hp). destruct (Hs q s Hq') as [[? ?] Hfr]. destruct (D q) as [P C].
    rewrite T, packets_of_app, chunks_of_app, P, C, !app_nil_r, Hfr. unfold k_recv_inv, k_pending. by rewrite Hb, Hp.
  - intros q Hq. rewrite N in Hq. destruct (D q) as [P C], (Hf q Hq). by rewrite T, packets_of_app, chunks_of_app, P, C, !app_nil_r.
Qed.

(** The data branch. *)
Lemma k_kept_moved p d s w w' : heap_get (w_sessions w) p = Some s ->
  k_moved p [d] (frames rp (k_pending s ++ d)).1 (fun s' => k_recv_inv RecvBufSize s' /\ k_pending s' = (frames rp (k_pending s ++ d)).2) w w' ->
  k_kept w w'.
Proof using RecvBufSize FramingLaw0.
  intros Hp ([_ N]&O&(tr&T&D)&S) (Hwf&Hs&Hf). assert (Hlt : (p < h_next (w_sessions w))%positive) by (by eapply Hwf).
  destruct (S s Hp) as (s'&Hp'&_&Hinv'&Hpend). split_and!.
  - intros q sq Hq. rewrite N. destruct (decide (q = p)) as [->|Hne]; [done|].
    pose proof (O q Hne) as Hoq. unfold heap_get in Hoq. rewrite Hoq in Hq. by eapply Hwf.
  - intros q sq Hq. destruct (D q) as [P C]. rewrite T, packets_of_app, chunks_of_app, P, C.
    destruct (decide (q = p)) as [->|Hne].
    + assert (sq = s') as -> by congruence. destruct (Hs p s Hp) as [_ Hfr]. split; [done|].
      rewrite concat_app, (frames_app rp), Hfr. cbn [fst snd concat]. by rewrite app_nil_r, Hpend.
    + rewrite O in Hq by done. rewrite !app_nil_r. by apply Hs.
  - intros q Hq. rewrite N in Hq. destruct (D q) as [P C], (Hf q Hq) as [Hc Hk].
    rewrite T, packets_of_app, chunks_of_app, P, C, Hc, Hk. by destruct (decide (q = p)) as [->|]; [lia|].
Qed.

(** ** Operations *)

Local Abbreviation keeps m w := (wlp m (fun _ w' => k_kept w w') w).

Lemma k_keeps_bind {A C} (m : M W A) (k : A -> M W C) w : keeps m w -> (forall a w1, keeps (k a) w1) -> keeps (bind m k) w.
Proof using.
  clear. intros Hm Hk. apply wlp_bind. eapply wlp_mono; [exact Hm|]. cbv beta. intros a w1 H1. eapply wlp_mono; [apply Hk|].
  cbv beta. intros c w2 H2. by transitivity w1.
Qed.

Lemma k_keeps_emit e (w : W) : (forall q, packets_of q [e] = [] /\ chunks_of q [e] = []) -> keeps (emit e) w.
Proof using. clear. intros He. apply wlp_emit, (k_kept_intro _ _ [e]); eauto. Qed.
Lemma k_kept_call c r k w : k_kept w (after_call c r k w).
Proof using. clear. apply (k_kept_intro _ _ [TSys c (sr_ret r)]); eauto. Qed.
Lemma k_keeps_call c (w : W) : keeps (sys_call c) w.
Proof using. apply wlp_sys_call, k_kept_call. Qed.
Lemma k_keeps_sys_ret c (w : W) : keeps (sys_ret c) w.
Proof using. apply wlp_sys_ret, k_kept_call. Qed.
Lemma k_keeps_ignore c (w : W) : keeps (sys_ignore c) w.
Proof using. apply wlp_sys_ignore, k_kept_call. Qed.
Lemma k_keeps_ret {A} (a : A) (w : W) : keeps (ret a) w.
Proof using. clear. apply wlp_ret. reflexivity. Qed.
Lemma k_keeps_gets {A} (g : W -> A) w : keeps (gets g) w.
Proof using. clear. apply wlp_gets. reflexivity. Qed.
Lemma k_keeps_deref {A} (o : option A) (w : W) : keeps (deref o) w.
Proof using. clear. apply wlp_deref. intros. reflexivity. Qed.
Lemma k_keeps_update (g : kqueue_env -> kqueue_env) (w : W) : keeps (k_update g) w.
Proof using. clear. apply wlp_modify, (k_kept_intro _ _ []); [done|by rewrite app_nil_r|done|eauto]. Qed.

(** A session that is read and written back with its receive buffer. *)
Lemma k_keeps_put {A} p (g : KEventHandler U -> M W A) w :
  (forall s w0, heap_get (w_sessions w0) p = Some s -> keeps (g s) w0) -> keeps (bind (session p) g) w.
Proof using. clear. intros Hg. apply wlp_bind, wlp_session. intros s Hs. by apply Hg. Qed.

Lemma k_kept_put p s s' (w : W) : heap_get (w_sessions w) p = Some s -> k_recvBuf s' = k_recvBuf s -> k_recvBufPos s' = k_recvBufPos s ->
  k_kept w (set_sessions (mk_heap (<[p := s']> (h_cells (w_sessions w))) (h_next (w_sessions w))) w).
Proof using.
  clear. intros Hs Hb Hp. apply (k_kept_intro _ _ []); [done|by rewrite app_nil_r|done|].
  unfold heap_get in *; cbn. intros q sq Hq. apply lookup_insert_Some in Hq as [[<- <-]|[_ Hq]]; eauto.
Qed.

Lemma k_keeps_put_session p s s' (w : W) : heap_get (w_sessions w) p = Some s -> k_recvBuf s' = k_recvBuf s -> k_recvBufPos s' = k_recvBufPos s ->
  keeps (put_session p s') w.
Proof using. clear. intros Hs Hb Hp. apply wlp_put_session. intros s0 Hs0. by apply (k_kept_put p s). Qed.

Lemma k_keeps_create w : keeps (factory_create (KEventHandler_new RecvBufSize SendBufSize user_init)) w.
Proof using RecvBufSize_pos.
  clear - RecvBufSize_pos. unfold wlp, factory_create. cbn. intros (Hwf&Hs&Hf). set (p := h_next (w_sessions w)). split_and!; cbn.
  - by apply (heap_new_wf (KEventHandler_new RecvBufSize SendBufSize user_init)).
  - intros q sq Hq. rewrite packets_of_app, chunks_of_app, !app_nil_r. unfold heap_get in Hq; cbn in Hq.
    apply lookup_insert_Some in Hq as [[<- <-]|[_ Hq]]; [|by apply Hs]. destruct (Hf p) as [-> ->]; [subst p; lia|].
    split; [|done]. split; cbn; [rewrite length_replicate; lia|lia].
  - intros q Hq. rewrite packets_of_app, chunks_of_app, !app_nil_r. apply Hf. subst p. lia.
Qed.

Ltac k_keeps_step :=
  match goal with
  | |- wlp (bind (session _) _) _ _ => apply k_keeps_put; intros ? ? ?
  | |- wlp (bind _ _) _ _ => apply k_keeps_bind; [|intros ? ?]
  | |- wlp (ret _) _ _ => apply k_keeps_ret
  | |- wlp (sys_call _) _ _ => apply k_keeps_call
  | |- wlp (sys_ret _) _ _ => apply k_keeps_sys_ret
  | |- wlp (sys_ignore _) _ _ => apply k_keeps_ignore
  | |- wlp (gets _) _ _ => apply k_keeps_gets
  | |- wlp (deref _) _ _ => apply k_keeps_deref
  | |- wlp (k_update _) _ _ => apply k_keeps_update
  | |- wlp (emit _) _ _ => apply k_keeps_emit; done
  | |- wlp (put_session _ _) _ _ => by eapply k_keeps_put_session
  | |- wlp (throw _) _ _ => exact I
  | |- wlp throw_std _ _ => exact I
  | |- wlp undefined _ _ => exact I
  | |- wlp out_of_fuel _ _ => exact I
  | |- wlp (if ?b then _ else _) _ _ => destruct b
  | |- wlp (match ?b with Some _ => _ | None => _ end) _ _ => destruct b
  end.
Ltac k_keeps_steps := cbv beta zeta; repeat (k_keeps_step; cbv beta zeta).

Lemma k_keeps_notify g e a (w : W) : keeps (notify g e a) w.
Proof using. clear. unfold notify, call_event. destruct g; k_keeps_steps. Qed.

Lemma k_keeps_async_send p d (w : W) : keeps (k_async_send SendBufSize p d) w.
Proof using.
  clear. unfold k_async_send, updateEvents. k_keeps_steps; destruct p0 as [[[[] buf] hd] tl]; k_keeps_steps.
Qed.

Lemma k_keeps_callback p c (w : W) : keeps (k_run_callback SendBufSize p c) w.
Proof using.
  clear. revert w. induction c as [|k IH|u k IH|data k IH|data k IH|k IH]; intros w; cbn [k_run_callback]; unfold k_send, k_close; k_keeps_steps; auto.
  apply k_keeps_async_send.
Qed.

(** The EVFILT_WRITE branch leaves the receive buffer alone. *)
Lemma k_keeps_handle_write pfd p (w : W) : keeps (k_handle_write pfd p) w.
Proof using.
  clear. unfold k_handle_write, updateEvents, k_would_block. apply k_keeps_put. intros s w0 Hs. apply wlp_bind, wlp_sys_ret.
  set (c := Sys_send _ _). set (r := (sys c (w_kernel w0)).1). eapply wlp_mono with (Q := fun _ w' => k_kept (after_call c r (sys c (w_kernel w0)).2 w0) w').
  2: { cbv beta. intros a w' Hk. transitivity (after_call c r (sys c (w_kernel w0)).2 w0); [apply k_kept_call|done]. }
  unfold when. apply k_keeps_bind.
  - destruct (0 <? sr_ret r); [|apply k_keeps_ret]. by eapply k_keeps_put_session.
  - intros [] w1. k_keeps_steps.
Qed.

Lemma recv_room (s : KEventHandler U) k : k_recv_inv RecvBufSize s -> 0 < sr_ret (sys (Sys_recv (k_fd s) (k_recv_size RecvBufSize s)) k).1 ->
  let r := (sys (Sys_recv (k_fd s) (k_recv_size RecvBufSize s)) k).1 in sr_ret r = zlen (sr_data r) /\ k_recvBufPos s + sr_ret r <= RecvBufSize.
Proof using KernelLaws0.
  clear - KernelLaws0. intros [Hb Hp] Hr r. destruct (recv_law k (k_fd s) (k_recv_size RecvBufSize s)) as [Hle Hlen]; [unfold k_recv_size; lia|done|].
  fold r in Hle, Hlen. unfold k_recv_size in Hle. split; [done|lia].
Qed.

Lemma k_keeps_handle_read fuel pfd p w : RecvBufSize <= Z.of_nat fuel -> keeps (k_handle_read RecvBufSize SendBufSize h fuel pfd p) w.
Proof using FramingLaw0 KernelLaws0 read_packet_is.
  intros Hf. destruct (heap_get (w_sessions w) p) as [s|] eqn:Hs.
  2: { unfold wlp, k_handle_read, bind, session. by rewrite Hs. }
  set (r := (sys (Sys_recv (k_fd s) (k_recv_size RecvBufSize s)) (w_kernel w)).1).
  destruct (Z.lt_ge_cases 0 (sr_ret r)) as [Hr|Hr].
  - unfold wlp. destruct (k_handle_read _ _ _ _ _ _ w) as [[a| | | | |] w'] eqn:Hrun; try done. intros Hinv.
    pose proof Hinv as (_&Hss&_). destruct (Hss p s Hs) as [Hrecv _]. destruct (recv_room s (w_kernel w) Hrecv Hr) as [Hlen Hroom].
    assert (Hov : ~ k_overrun RecvBufSize rp (k_recvBufPos s + sr_ret r) (k_pending s ++ sr_data r)).
    { intros Hov. pose proof (k_handle_read_overrun RecvBufSize SendBufSize h rp fuel pfd p s w read_packet_is Hs Hrecv Hf Hr Hlen Hov) as Hw.
      by rewrite Hrun in Hw. }
    pose proof (k_handle_read_data RecvBufSize SendBufSize h rp fuel pfd p s w read_packet_is Hs Hrecv Hf Hr Hlen Hroom Hov) as Hw.
    unfold wp in Hw. rewrite Hrun in Hw. by apply (k_kept_moved p (sr_data r) s w w').
  - unfold k_handle_read, updateEvents, k_would_block. apply wlp_bind, wlp_session. intros s0 Hs0. assert (s0 = s) as -> by congruence.
    apply wlp_bind, wlp_sys_call. fold r. eapply wlp_mono with (Q := fun _ w' => k_kept (after_call (Sys_recv (k_fd s) (k_recv_size RecvBufSize s)) r
      (sys (Sys_recv (k_fd s) (k_recv_size RecvBufSize s)) (w_kernel w)).2 w) w').
    2: { cbv beta. intros a w' Hk. etransitivity; [apply k_kept_call|exact Hk]. }
    destruct (Z.ltb_spec (sr_ret r) 0), (Z.eqb_spec (sr_ret r) 0); try lia; cbn [andb]; k_keeps_steps; apply k_keeps_notify.
Qed.

Lemma k_keeps_kevent fuel pfd ev w : RecvBufSize <= Z.of_nat fuel -> keeps (k_handle_kevent RecvBufSize SendBufSize h fuel pfd ev) w.
Proof using FramingLaw0 KernelLaws0 read_packet_is.
  intros Hf. unfold k_handle_kevent. destruct (ke_udata ev) as [|[p|]]; [done| |done]. apply k_keeps_put. intros s w0 Hs.
  destruct (ke_filter ev); [by apply k_keeps_handle_read|apply k_keeps_handle_write|apply k_keeps_ret].
Qed.

Lemma k_keeps_setNoBlock f (w : W) : keeps (setNoBlock f) w.
Proof using. clear. unfold setNoBlock. k_keeps_steps. Qed.

Lemma k_keeps_accept l f w : keeps (k_accept RecvBufSize SendBufSize h user_init l f) w.
Proof using RecvBufSize_pos.
  unfold k_accept, updateEvents. k_keeps_steps; [apply k_keeps_setNoBlock|apply k_keeps_create|apply k_keeps_notify|apply k_keeps_callback].
Qed.

Lemma k_keeps_echo fuel f (w : W) : keeps (k_echo fuel f) w.
Proof using. clear. revert w. induction fuel as [|fuel IH]; intros w; cbn [k_echo]; k_keeps_steps; apply IH. Qed.

Lemma k_keeps_listen fuel i kfd lisFd ev w : keeps (k_listen_event RecvBufSize SendBufSize h user_init fuel i kfd lisFd ev) w.
Proof using RecvBufSize_pos.
  unfold k_listen_event, handleRead, handleWrite, updateEvents_fd, k_would_block. k_keeps_steps.
  destruct (ke_udata ev) as [f|]; [|done]. destruct (ke_filter ev); k_keeps_steps; [apply k_keeps_accept|apply k_keeps_echo].
Qed.

Lemma k_keeps_push p w : keeps (KScheduler_push SendBufSize h p) w.
Proof using. clear. unfold KScheduler_push, updateEvents. k_keeps_steps. apply k_keeps_callback. Qed.

Lemma k_keeps_connect i w : keeps (KConnector_connect RecvBufSize SendBufSize h user_init i) w.
Proof using RecvBufSize_pos.
  unfold KConnector_connect, k_update_connector. k_keeps_steps; [apply k_keeps_create|apply k_keeps_push].
Qed.

Lemma k_step_kept w w' : k_step w w' -> k_kept w w'.
Proof using FramingLaw0 KernelLaws0 read_packet_is RecvBufSize_pos.
  intros [fuel pfd ev Hf Hrun|fuel i kfd lisFd ev Hrun|i r Hrun].
  - exact (wlp_Ok _ _ _ _ _ (k_keeps_kevent fuel pfd ev w Hf) Hrun).
  - exact (wlp_Ok _ _ _ _ _ (k_keeps_listen fuel i kfd lisFd ev w) Hrun).
  - exact (wlp_Ok _ _ _ _ _ (k_keeps_connect i w) Hrun).
Qed.

(** A read that brings nothing ends the branch, whatever [errno] says. *)
Lemma k_handle_read_nothing fuel pfd p s w : heap_get (w_sessions w) p = Some s ->
  sr_ret (sys (Sys_recv (k_fd s) (k_recv_size RecvBufSize s)) (w_kernel w)).1 <= 0 ->
  exists w', k_handle_read RecvBufSize SendBufSize h fuel pfd p w = (Ok tt, w').
Proof using.
  clear. intros Hs Hr. enough (Hwp : wp (k_handle_read RecvBufSize SendBufSize h fuel pfd p) (fun _ _ => True) w).
  { destruct (wp_Ok _ _ _ Hwp) as ([]&w'&Hrun&_). by exists w'. }
  unfold k_handle_read, k_would_block, updateEvents. wp_steps. set (r := (sys _ _).1) in *. clearbody r.
  destruct (Z.ltb_spec (sr_ret r) 0), (Z.eqb_spec (sr_ret r) 0); try lia; cbn [andb]; [destruct (_ || _)|]; wp_steps; try done.
Qed.
End KqueueServer.

(** A kqueue service without connections: no session, nothing received or delivered. *)
Definition k_ready {K U} (w : world K (KEventHandler U) kqueue_env) : Prop :=
  w_sessions w = heap_empty /\ forall p, packets_of p (w_trace w) = [] /\ chunks_of p (w_trace w) = [].

(** C13. The kqueue back end in every state it reaches, under every interleaving of its processors and
    listeners and every segmentation: each session ever made was given exactly the packets of the
    bytes received for it, and holds the rest inside its buffer.  And the exact condition under
    which the next bytes are handled: when they fill the buffer to its last byte and end with a
    packet, the processor leaves the buffer, in every other case it returns. *)
Theorem kqueue_stream_framing {K U : Type} `{Kernel K} (RecvBufSize SendBufSize : Z) (h : IEventHandler U) (user_init : U)
    (rp : list byte -> Z) (w0 w : world K (KEventHandler U) kqueue_env) (p : ptr) (s : KEventHandler U) :
  KernelLaws K -> FramingLaw rp -> (forall u bs, read_packet h u bs = rp bs) -> 0 < RecvBufSize -> k_ready w0 ->
  rtc (k_step RecvBufSize SendBufSize h user_init) w0 w -> heap_get (w_sessions w) p = Some s ->
  frames rp (concat (chunks_of p (w_trace w))) = (packets_of p (w_trace w), k_pending s) /\ k_recv_inv RecvBufSize s /\
  forall fuel pfd, RecvBufSize <= Z.of_nat fuel ->
    let r := (sys (Sys_recv (k_fd s) (k_recv_size RecvBufSize s)) (w_kernel w)).1 in
    let overrun := 0 < sr_ret r /\ k_overrun RecvBufSize rp (k_recvBufPos s + sr_ret r) (k_pending s ++ sr_data r) in
    (overrun -> (k_handle_read RecvBufSize SendBufSize h fuel pfd p w).1 = Undefined) /\
    (~ overrun -> exists w', k_handle_read RecvBufSize SendBufSize h fuel pfd p w = (Ok tt, w')).
Proof.
  intros HK HF Hrp HR [H0 HT] Hr Hs. assert (Hinv : k_stream_inv RecvBufSize rp w).
  { refine (rtc_invariant _ (k_stream_inv RecvBufSize rp) _ _ _ _ Hr).
    - intros a b Ha Hab. by apply (k_step_kept RecvBufSize SendBufSize h user_init rp Hrp HR a b Hab).
    - split_and!; [rewrite H0; apply heap_empty_wf|intros q sq Hq; by rewrite H0 in Hq|intros q _; by destruct (HT q)]. }
  destruct Hinv as (_&Hss&_). destruct (Hss p s Hs) as [Hrecv Hfr]. split_and!; [done..|]. intros fuel pfd Hf r overrun.
  destruct (Z.lt_ge_cases 0 (sr_ret r)) as [Hpos|Hneg].
  - destruct (recv_room RecvBufSize s (w_kernel w) Hrecv Hpos) as [Hlen Hroom]. split.
    + intros [_ Hov]. by apply (k_handle_read_overrun RecvBufSize SendBufSize h rp fuel pfd p s w).
    + intros Hno. assert (Hov : ~ k_overrun RecvBufSize rp (k_recvBufPos s + sr_ret r) (k_pending s ++ sr_data r)) by (intros Hov; by apply Hno).
      destruct (wp_Ok _ _ _ (k_handle_read_data RecvBufSize SendBufSize h rp fuel pfd p s w Hrp Hs Hrecv Hf Hpos Hlen Hroom Hov)) as ([]&w'&Hrun&_).
      by exists w'.
  - split; [intros [? _]; lia|]. intros _. by apply (k_handle_read_nothing RecvBufSize SendBufSize h fuel pfd p s w).
Qed.

(** *** A run *)

Definition k_demo_listener : KListener :=
  mk_KListener 0 80 10 (Some 3) true true (mk_Properties false true false 10 1 1 None) None.

(** A connection is accepted, then three bytes and four bytes arrive; the next fourteen fill the buffer. *)
Definition k_demo_w0 : world script (KEventHandler nat) kqueue_env :=
  mk_world [sys_result 7; sys_result 0; sys_result 0; sys_result 0; mk_sysret 3 0 [x02; x41; x03] [] []; sys_result 0;
            mk_sysret 4 0 [x42; x43; x10; x44] [] []; sys_result 0; mk_sysret 14 0 (replicate 14 x45) [] []] 0 [] heap_empty
    (k_set_listeners [k_demo_listener] (KTCPService_new true)).

Definition k_demo_end : world script (KEventHandler nat) kqueue_env :=
  let w1 := (k_listen_event 16 16 k_echo_handler 0%nat 16 0 9 3 (mk_kevent 3 EVFILT_READ EV_ADD_ENABLE (DFd 3)) k_demo_w0).2 in
  let ev := mk_kevent 7 EVFILT_READ EV_ADD_ENABLE (DPtr (Some 1%positive)) in
  let w2 := (k_handle_kevent 16 16 k_echo_handler 16 5 ev w1).2 in
  (k_handle_kevent 16 16 k_echo_handler 16 5 ev w2).2.

Lemma k_demo_reachable : rtc (k_step 16 16 k_echo_handler 0%nat) k_demo_w0 k_demo_end.
Proof.
  eapply rtc_l; [apply (k_step_listen _ _ _ _ _ _ 16 0 9 3 (mk_kevent 3 EVFILT_READ EV_ADD_ENABLE (DFd 3))); vm_compute; reflexivity|].
  do 2 (eapply rtc_l;
    [apply (k_step_event _ _ _ _ _ _ 16 5 (mk_kevent 7 EVFILT_READ EV_ADD_ENABLE (DPtr (Some 1%positive)))); [done|vm_compute; reflexivity]|]).
  apply rtc_refl_eq. vm_compute. reflexivity.
Qed.

Lemma kqueue_stream_framing_witness :
  packets_of 1%positive (w_trace k_demo_end) = [[x02; x41]; [x03; x42; x43]] /\
  exists s, heap_get (w_sessions k_demo_end) 1%positive = Some s /\ k_pending s = [x10; x44] /\
    frames length_prefixed (concat (chunks_of 1%positive (w_trace k_demo_end))) = (packets_of 1%positive (w_trace k_demo_end), k_pending s) /\
    (k_handle_read 16 16 k_echo_handler 16 5 1%positive k_demo_end).1 = Undefined.
Proof.
  split; [vm_compute; reflexivity|]. eexists. split; [vm_compute; reflexivity|]. split; [reflexivity|].
  destruct (kqueue_stream_framing 16 16 k_echo_handler 0%nat length_prefixed k_demo_w0 k_demo_end 1%positive _ _ _ (fun _ _ => eq_refl)
    ltac:(lia) (conj eq_refl (fun _ => conj eq_refl eq_refl)) k_demo_reachable ltac:(vm_compute; reflexivity)) as (Hf&_&Hnext).
  split; [exact Hf|]. refine (proj1 (Hnext 16%nat 5 _) _); [lia|]. split; [vm_compute; reflexivity|]. split; vm_compute; reflexivity.
Defined.

(** ** The end of a connection *)

(** Not the release of a session, not its [on_disconnect], not the news of its release. *)
Definition k_silent_end (e : trace_event) : Prop :=
  match e with TRelease _ | TDisconnect _ | TEvt EVT_SESSION_RELEASE _ => False | _ => True end.

Section Mute.
Context {K U : Type} `{Kernel K}.
Context (RecvBufSize SendBufSize : Z) (h : IEventHandler U) (user_init : U).
Local Abbreviation W := (world K (KEventHandler U) kqueue_env).

(** The processor has no event function, and the end of no session has left a trace. *)
Definition k_mute (w : W) : Prop := k_evtHandler (k_processor (w_env w)) = None /\ Forall k_silent_end (w_trace w).

Lemma mute_call c : keeps k_mute (sys_call c).
Proof using. intros w [He Ht]. unfold sys_call. destruct (sys c (w_kernel w)). split; [done|]. apply Forall_app; split; [done|by repeat constructor]. Qed.
Lemma mute_sys_ret c : keeps k_mute (sys_ret c).
Proof using. apply keeps_bind; [apply mute_call|]. intros. apply keeps_ret. Qed.
Lemma mute_ignore c : keeps k_mute (sys_ignore c).
Proof using. apply keeps_bind; [apply mute_call|]. intros. apply keeps_ret. Qed.
Lemma mute_emit e : k_silent_end e -> keeps k_mute (emit e).
Proof using. intros Hs w [He Ht]. split; [done|]. apply Forall_app; split; [done|by repeat constructor]. Qed.
Lemma mute_session p : keeps k_mute (session p).
Proof using. intros w Hw. unfold session. by destruct (heap_get _ _). Qed.
Lemma mute_put p s : keeps k_mute (put_session p s).
Proof using. intros w Hw. unfold put_session. by destruct (heap_set _ _ _). Qed.
Lemma mute_create s : keeps k_mute (factory_create s).
Proof using. intros w [He Ht]. split; [done|]. cbn. apply Forall_app; split; [done|by repeat constructor]. Qed.
Lemma mute_update f : (forall e, k_evtHandler (k_processor (f e)) = k_evtHandler (k_processor e)) -> keeps k_mute (k_update f).
Proof using. intros Hf. apply keeps_modify. intros w [He Ht]. split; [cbn; by rewrite Hf|done]. Qed.
Lemma mute_notify g e a : k_silent_end (TEvt e a) -> keeps k_mute (notify g e a).
Proof using.
  intros He. destruct g; cbn; [|apply keeps_ret]. apply keeps_bind; [|intros; apply keeps_ret].
  apply keeps_bind; [by apply mute_emit|]. intros. apply keeps_ret.
Qed.
Lemma mute_thread t : keeps k_mute (start_thread t).
Proof using. apply keeps_bind; [apply mute_sys_ret|]. intros r. destruct (r <? 0); [apply keeps_throw_std|apply keeps_ret]. Qed.

(** The release of a session is told to the processor's event function, of which there is none. *)
Lemma mute_processor {A} (k : KProcessor -> M W A) :
  (forall pr, k_evtHandler pr = None -> keeps k_mute (k pr)) -> keeps k_mute (bind (gets (fun w => k_processor (w_env w))) k).
Proof using. intros Hk w Hw. apply Hk; [apply Hw|done]. Qed.

Ltac mute_step :=
  lazymatch goal with
  | |- keeps _ (bind (gets (fun w => k_processor (w_env w))) _) => apply mute_processor; intros
  | |- keeps _ (bind _ _) => apply keeps_bind; [|intros]
  | |- keeps _ (sys_call _) => apply mute_call
  | |- keeps _ (sys_ret _) => apply mute_sys_ret
  | |- keeps _ (sys_ignore _) => apply mute_ignore
  | |- keeps _ (emit _) => apply mute_emit; exact I
  | |- keeps _ (session _) => apply mute_session
  | |- keeps _ (put_session _ _) => apply mute_put
  | |- keeps _ (factory_create _) => apply mute_create
  | |- keeps _ (k_update _) => apply mute_update; reflexivity
  | |- keeps _ (notify (k_evtHandler _) _ _) => match goal with E : k_evtHandler _ = None |- _ => rewrite E; apply keeps_ret end
  | |- keeps _ (notify _ _ _) => apply mute_notify; first [exact I | case_match; exact I]
  | |- keeps _ (start_thread _) => apply mute_thread
  | |- keeps _ (catch_all _ _) => apply keeps_catch_all
  | |- keeps _ (for_each _ _) => apply keeps_for_each; intros
  | |- keeps _ (when _ _) => apply keeps_when
  | |- keeps _ (gets _) => apply keeps_gets
  | |- keeps _ (ret _) => apply keeps_ret
  | |- keeps _ (deref _) => apply keeps_deref
  | |- keeps _ (throw _) => apply keeps_throw
  | |- keeps _ throw_std => apply keeps_throw_std
  | |- keeps _ undefined => apply keeps_undefined
  | |- keeps _ out_of_fuel => apply keeps_out_of_fuel
  | |- keeps _ (if ?b then _ else _) => destruct b
  | |- keeps _ (match ?b with _ => _ end) => destruct b
  | |- keeps _ (let _ := _ in _) => cbv zeta
  end.
Ltac mute := repeat mute_step.

Lemma mute_callback p c : keeps k_mute (k_run_callback SendBufSize p c).
Proof using. induction c; cbn; unfold k_send, k_async_send, k_close, updateEvents; mute; auto. Qed.

Lemma mute_recv_loop fuel p readPos pkgLen : keeps k_mute (k_recv_loop RecvBufSize SendBufSize h fuel p readPos pkgLen).
Proof using.
  revert readPos pkgLen. induction fuel as [|fuel IH]; intros readPos pkgLen; cbn [k_recv_loop]; unfold k_deliver, k_keep_rest; mute;
    try apply mute_callback; apply IH.
Qed.

Lemma mute_kevent fuel pfd ev : keeps k_mute (k_handle_kevent RecvBufSize SendBufSize h fuel pfd ev).
Proof using. unfold k_handle_kevent, k_handle_read, k_handle_write, k_would_block, updateEvents. mute; apply mute_recv_loop. Qed.

Lemma mute_echo fuel f : keeps k_mute (k_echo (U:=U) fuel f).
Proof using. induction fuel as [|fuel IH]; cbn [k_echo]; mute; apply IH. Qed.

Lemma mute_listen fuel i kfd lisFd ev : keeps k_mute (k_listen_event RecvBufSize SendBufSize h user_init fuel i kfd lisFd ev).
Proof using.
  unfold k_listen_event, k_accept, handleRead, handleWrite, k_would_block, setNoBlock, updateEvents, updateEvents_fd. mute;
    first [apply mute_callback | apply mute_echo].
Qed.

Lemma mute_connect i : keeps k_mute (KConnector_connect RecvBufSize SendBufSize h user_init i).
Proof using. unfold KConnector_connect, k_update_connector, KScheduler_push, updateEvents. mute. apply mute_callback. Qed.

Lemma mute_queues l : keeps k_mute (k_create_queues (U:=U) l).
Proof using. induction l; cbn [k_create_queues]; mute. done. Qed.

Lemma mute_start garbage handler : keeps k_mute (KTCPService_start RecvBufSize SendBufSize h user_init garbage handler).
Proof using.
  unfold KTCPService_start, KScheduler_start, KProcessor_start, KListener_start, k_listen, k_update_listener, setNoBlock, updateEvents_fd, KConnector_start. mute;
    first [apply mute_queues | apply mute_connect].
Qed.

Lemma mute_step_kept w w' : k_mute w -> k_step RecvBufSize SendBufSize h user_init w w' -> k_mute w'.
Proof using.
  intros Hw [fuel pfd ev _ Hrun|fuel i kfd lisFd ev Hrun|i r Hrun].
  - pose proof (mute_kevent fuel pfd ev w Hw) as Hk. by rewrite Hrun in Hk.
  - pose proof (mute_listen fuel i kfd lisFd ev w Hw) as Hk. by rewrite Hrun in Hk.
  - pose proof (mute_connect i w Hw) as Hk. by rewrite Hrun in Hk.
Qed.

(** The two ends of a connection, where nobody listens. *)
Lemma mute_handle_read fuel pfd p s (w : W) : k_mute w -> heap_get (w_sessions w) p = Some s ->
  let c := Sys_recv (k_fd s) (k_recv_size RecvBufSize s) in
  let r := (sys c (w_kernel w)).1 in
  sr_ret r = 0 \/ (sr_ret r < 0 /\ sr_errno r <> K_EAGAIN) ->
  wp (k_handle_read RecvBufSize SendBufSize h fuel pfd p) (fun _ w' => exists r1 r2,
    w_sessions w' = w_sessions w /\
    w_trace w' = w_trace w ++ [TSys c (sr_ret r);
      TSys (Sys_kevent_change pfd [mk_kevent (k_fd s) EVFILT_READ EV_ADD_ENABLE (DPtr (Some p));
              mk_kevent (k_fd s) EVFILT_WRITE (if sr_ret r =? 0 then EV_ADD_ENABLE else EV_DELETE) (DPtr (Some p))]) r1;
      TSys (Sys_close (k_fd s)) r2]) w.
Proof using.
  intros [He _] Hs c r Hr. unfold k_handle_read, k_would_block, updateEvents. wp_steps. fold c. fold r.
  destruct Hr as [Hr|[Hr Hne]].
  - rewrite Hr. cbn [Z.ltb Z.eqb andb Z.compare]. wp_steps. cbn [w_env after_call]. rewrite He. cbn [notified]. do 2 eexists. split; [done|].
    cbn. rewrite <- !app_assoc, app_nil_r, Hr. reflexivity.
  - destruct (Z.ltb_spec (sr_ret r) 0); [|lia]. cbn [w_errno after_call]. rewrite (proj2 (Z.ltb_lt _ _)) by done.
    unfold K_EAGAIN, K_EWOULDBLOCK in *. destruct (Z.eqb_spec (sr_errno r) 35); [done|]. cbn [orb andb]. wp_steps. cbn [w_env after_call]. rewrite He. cbn [notified].
    do 2 eexists. split; [done|]. destruct (Z.eqb_spec (sr_ret r) 0); [lia|]. cbn. rewrite <- !app_assoc, app_nil_r. reflexivity.
Qed.
End Mute.

(** C39. The end of a connection in the kqueue back end, in every state a service reaches that was
    constructed and started with whatever event function: when [recv] returns 0, or fails with
    another error than EAGAIN, the descriptor's events are changed and it is closed, the session stays
    allocated and unchanged, [on_disconnect] is not called and nobody is told, because [start] does
    not store the event function; and nothing that happened before has released a session, called
    [on_disconnect] or told the event function of a release. *)
Theorem kqueue_session_end_leaks {K U : Type} `{Kernel K} (RecvBufSize SendBufSize : Z) (h : IEventHandler U) (user_init : U)
    (fact : bool) (garbage r0 : Z) (handler : EventHandleFunc) (w0 w1 w : world K (KEventHandler U) kqueue_env)
    (fuel : nat) (pfd : Z) (p : ptr) (s : KEventHandler U) :
  k_processor (w_env w0) = KProcessor_new_with fact -> w_trace w0 = [] ->
  KTCPService_start RecvBufSize SendBufSize h user_init garbage handler w0 = (Ok r0, w1) ->
  rtc (k_step RecvBufSize SendBufSize h user_init) w1 w -> heap_get (w_sessions w) p = Some s ->
  let c := Sys_recv (k_fd s) (k_recv_size RecvBufSize s) in
  let r := (sys c (w_kernel w)).1 in
  Forall k_silent_end (w_trace w) /\
  (sr_ret r = 0 \/ (sr_ret r < 0 /\ sr_errno r <> K_EAGAIN) ->
   exists w' r1 r2, k_handle_read RecvBufSize SendBufSize h fuel pfd p w = (Ok tt, w') /\
     w_sessions w' = w_sessions w /\
     w_trace w' = w_trace w ++ [TSys c (sr_ret r);
       TSys (Sys_kevent_change pfd [mk_kevent (k_fd s) EVFILT_READ EV_ADD_ENABLE (DPtr (Some p));
               mk_kevent (k_fd s) EVFILT_WRITE (if sr_ret r =? 0 then EV_ADD_ENABLE else EV_DELETE) (DPtr (Some p))]) r1;
       TSys (Sys_close (k_fd s)) r2]).
Proof.
  intros Hp Ht Hrun Hr Hs c r. assert (Hw : k_mute w).
  { refine (rtc_invariant _ k_mute _ _ _ _ Hr); [apply mute_step_kept|].
    assert (H0 : k_mute w0) by (split; [by rewrite Hp|by rewrite Ht; constructor]).
    pose proof (mute_start RecvBufSize SendBufSize h user_init garbage handler w0 H0) as Hk. by rewrite Hrun in Hk. }
  split; [apply Hw|]. intros Hend.
  destruct (wp_Ok _ _ _ (mute_handle_read RecvBufSize SendBufSize h fuel pfd p s w Hw Hs Hend)) as ([]&w'&?&r1&r2&?&?). by exists w', r1, r2.
Qed.

(** A service with a listener on port 80 and an event function, started; a connection is accepted
    and reset by its peer (54 is ECONNRESET there). *)
Definition k_end_w0 : world script (KEventHandler nat) kqueue_env :=
  mk_world (replicate 60 (sys_result 3) ++ [sys_result 7; sys_result 0; sys_result 0; sys_result 0; sys_error 54]) 0 [] heap_empty
    (k_set_listeners [mk_KListener 0 80 10 None false false Properties_default None] (KTCPService_new true)).
Definition k_some_handler : EventHandleFunc := Some (fun _ _ => None).
Definition k_end_w1 := (KTCPService_start 16 16 k_echo_handler 0%nat 0 k_some_handler k_end_w0).2.
Definition k_end_w2 := (k_listen_event 16 16 k_echo_handler 0%nat 16 0 3 3 (mk_kevent 3 EVFILT_READ EV_ADD_ENABLE (DFd 3)) k_end_w1).2.

Lemma k_end_reachable : rtc (k_step 16 16 k_echo_handler 0%nat) k_end_w1 k_end_w2.
Proof.
  eapply rtc_l; [apply (k_step_listen _ _ _ _ _ _ 16 0 3 3 (mk_kevent 3 EVFILT_READ EV_ADD_ENABLE (DFd 3))); vm_compute; reflexivity|].
  apply rtc_refl.
Qed.

Lemma k_end_start : KTCPService_start 16 16 k_echo_handler 0%nat 0 k_some_handler k_end_w0 = (Ok 0, k_end_w1).
Proof. vm_compute. reflexivity. Qed.

Definition k_end_session : KEventHandler nat := k_set_fds 7 3 (KEventHandler_new 16 16 0%nat).

Lemma k_end_live : heap_get (w_sessions k_end_w2) 1%positive = Some k_end_session.
Proof. vm_compute. reflexivity. Qed.

Lemma k_end_recv : (sys (Sys_recv 7 16) (w_kernel k_end_w2)).1 = sys_error 54.
Proof. vm_compute. reflexivity. Qed.

Lemma kqueue_session_end_leaks_witness :
  Forall k_silent_end (w_trace k_end_w2) /\
  exists w' r1 r2, k_handle_read 16 16 k_echo_handler 16 3 1%positive k_end_w2 = (Ok tt, w') /\
    w_sessions w' = w_sessions k_end_w2 /\
    w_trace w' = w_trace k_end_w2 ++ [TSys (Sys_recv 7 16) (-1);
      TSys (Sys_kevent_change 3 [mk_kevent 7 EVFILT_READ EV_ADD_ENABLE (DPtr (Some 1%positive));
              mk_kevent 7 EVFILT_WRITE EV_DELETE (DPtr (Some 1%positive))]) r1; TSys (Sys_close 7) r2].
Proof.
  pose proof (kqueue_session_end_leaks 16 16 k_echo_handler 0%nat true 0 0 k_some_handler k_end_w0 k_end_w1 k_end_w2 16 3 1%positive
    k_end_session eq_refl eq_refl k_end_start k_end_reachable k_end_live) as Hall.
  cbv zeta in Hall. change (Sys_recv (k_fd k_end_session) (k_recv_size 16 k_end_session)) with (Sys_recv 7 16) in Hall.
  rewrite k_end_recv in Hall. destruct Hall as [Ht Hend]. split; [exact Ht|]. apply Hend. right. split; [reflexivity|discriminate].
Defined.
