(* ===== verification/IocpNet.v ===== *)
(** * The completion port back end: detail/iocpnet.hpp

    Connections travel through one completion port: the listener and the connector post a new
    connection as a completion, the processors take completions and act on the connection's
    [event] member. *)

From S2P Require Import Prelude Heap NetApi Os.

Definition INVALID_SOCKET : Z := -1.
Definition INVALID_HANDLE_VALUE : Z := -1.
Definition SOCKET_ERROR : Z := -1.
Definition WSA_IO_PENDING : Z := 997.

(** ** State *)

Record IEventSession (U : Type) := mk_IEventSession {
  i_iocp : option Z;
  i_fd : Z;
  i_event : option NetEvent;
  i_ip : option Z;
  i_port : option Z;
  i_isPassive : option bool;
  i_recvBuf : list byte;
  i_recvBufPos : Z;           (** DWORD *)
  i_user : U
}.
Arguments mk_IEventSession {U}. Arguments i_iocp {U}. Arguments i_fd {U}. Arguments i_event {U}.
Arguments i_ip {U}. Arguments i_port {U}. Arguments i_isPassive {U}. Arguments i_recvBuf {U}.
Arguments i_recvBufPos {U}. Arguments i_user {U}.

Section IFields.
Context {U : Type}.
Implicit Types (s : IEventSession U).

Definition i_set_event (e : NetEvent) s : IEventSession U :=
  mk_IEventSession (i_iocp s) (i_fd s) (Some e) (i_ip s) (i_port s) (i_isPassive s) (i_recvBuf s)
    (i_recvBufPos s) (i_user s).
Definition i_set_recv (buf : list byte) (pos : Z) s : IEventSession U :=
  mk_IEventSession (i_iocp s) (i_fd s) (i_event s) (i_ip s) (i_port s) (i_isPassive s) buf pos (i_user s).
Definition i_set_user (u : U) s : IEventSession U :=
  mk_IEventSession (i_iocp s) (i_fd s) (i_event s) (i_ip s) (i_port s) (i_isPassive s) (i_recvBuf s)
    (i_recvBufPos s) u.
Definition i_set_peer (iocp f : Z) (ip port : Z) (passive : bool) s : IEventSession U :=
  mk_IEventSession (Some iocp) f (Some EVT_CONNECT) (Some ip) (Some port) (Some passive) (i_recvBuf s)
    (i_recvBufPos s) (i_user s).
End IFields.

Record IListener := mk_IListener {
  il_ip : Z;
  il_port : Z;
  il_backlogs : Z;
  il_fd : option Z;
  il_isRunning : bool;
  listenThread : bool
}.

Record IConnector := mk_IConnector { ic_ip : Z; ic_port : Z; ic_fd : option Z }.

(** [threads] of the processor has no initialiser and no assignment: [None]. *)
Record iocp_env := mk_ienv {
  i_scheds : Z;
  i_port_handle : Z;
  i_threads : option Z;
  i_isRunning : bool;
  i_runThreads : list thread_id;
  i_evtHandler : EventHandleFunc;
  i_lstListener : list IListener;
  i_lstConnector : list IConnector;
  i_config : Properties
}.

Definition i_set_port (scheds hd : Z) (e : iocp_env) : iocp_env :=
  mk_ienv scheds hd (i_threads e) (i_isRunning e) (i_runThreads e) (i_evtHandler e) (i_lstListener e)
    (i_lstConnector e) (i_config e).
Definition i_set_proc (run : bool) (ts : list thread_id) (f : EventHandleFunc) (e : iocp_env) : iocp_env :=
  mk_ienv (i_scheds e) (i_port_handle e) (i_threads e) run ts f (i_lstListener e) (i_lstConnector e) (i_config e).
Definition i_set_listeners (l : list IListener) (e : iocp_env) : iocp_env :=
  mk_ienv (i_scheds e) (i_port_handle e) (i_threads e) (i_isRunning e) (i_runThreads e) (i_evtHandler e) l
    (i_lstConnector e) (i_config e).
Definition i_set_connectors (c : list IConnector) (e : iocp_env) : iocp_env :=
  mk_ienv (i_scheds e) (i_port_handle e) (i_threads e) (i_isRunning e) (i_runThreads e) (i_evtHandler e)
    (i_lstListener e) c (i_config e).
Definition i_set_config (c : Properties) (f : EventHandleFunc) (e : iocp_env) : iocp_env :=
  mk_ienv (i_scheds e) (i_port_handle e) (i_threads e) (i_isRunning e) (i_runThreads e) f (i_lstListener e)
    (i_lstConnector e) c.

Definition ITCPService_new : iocp_env :=
  mk_ienv 0 0 None false [] None [] [] Properties_default.

Section Iocp.
Context {K U : Type} `{Kernel K}.
Context (RecvBufSize : Z) (h : IEventHandler U) (user_init : U).
Local Open Scope tinynet_scope.
Local Abbreviation W := (world K (IEventSession U) iocp_env).

Definition i_update (f : iocp_env -> iocp_env) : M W unit := modify (fun w => set_env (f (w_env w)) w).

(** [throw (int)WSAGetLastError();] *)
Definition throw_last_error {A} : M W A := let* e := gets w_errno in throw e.

(** ** Scheduler *)

(** A null handle is -1 here, as the result of every failed call. *)
Definition IScheduler_start : M W unit :=
  let* e := gets w_env in
  let* hd := sys_ret (Sys_iocp_create (i_scheds e)) in
  i_update (fun e => i_set_port (i_scheds e) hd e) ;;
  if hd <? 0 then throw_last_error else ret tt.

Definition IScheduler_stop : M W unit :=
  let* e := gets w_env in
  sys_ignore (Sys_closehandle (i_port_handle e)) ;;
  i_update (fun e => i_set_port (i_scheds e) INVALID_HANDLE_VALUE e).

Definition IScheduler_push (p : ptr) : M W unit :=
  let* e := gets w_env in sys_ignore (Sys_iocp_post (i_port_handle e) 0 p).

Definition IScheduler_associate (p : ptr) : M W unit :=
  let* e := gets w_env in
  let* s := session p in
  let* r := sys_ret (Sys_iocp_associate (i_port_handle e) (i_fd s) p) in
  if r <? 0 then throw_last_error else ret tt.

(** ** The connection *)

Definition IEventSession_new : IEventSession U :=
  mk_IEventSession None 0 None None None None (replicate (Z.to_nat RecvBufSize) x00) 0 user_init.

Definition i_send (p : ptr) (pData : list byte) : M W Z :=
  let* s := session p in
  let* r := sys_ret (Sys_send (i_fd s) pData) in
  ret (i32 r).

(** [async_send] sends at once, as [send] does. *)
Definition i_async_send (p : ptr) (pData : list byte) : M W Z :=
  let* s := session p in
  let* r := sys_ret (Sys_send (i_fd s) pData) in
  ret (i32 r).

Definition launch_send (p : ptr) (pData : list byte) : M W unit :=
  let* s := session p in sys_ignore (Sys_send (i_fd s) pData).

(** [launch_recv]: the assignment of [event] is commented out in the source. *)
Definition i_launch_recv (p : ptr) (len : Z) : M W unit :=
  let* s := session p in
  if RecvBufSize <=? i_recvBufPos s then ret tt
  else
    let* r := sys_ret (Sys_wsarecv (i_fd s) (RecvBufSize - i_recvBufPos s)) in
    let* e := gets w_errno in
    if negb (r =? 0) && negb (e =? WSA_IO_PENDING) then
      let* port := deref (i_iocp s) in
      sys_ignore (Sys_iocp_post port 0 p)
    else ret tt.

Definition launch_close (p : ptr) : M W unit := let* s := session p in sys_ignore (Sys_shutdown (i_fd s)).
Definition i_close (p : ptr) : M W unit := let* s := session p in sys_ignore (Sys_shutdown (i_fd s)).

Fixpoint i_run_callback (p : ptr) (c : callback U) : M W unit :=
  match c with
  | CDone => ret tt
  | CGet k => let* s := session p in i_run_callback p (k (i_user s))
  | CPut u k => let* s := session p in put_session p (i_set_user u s) ;; i_run_callback p k
  | CSend data k => let* r := i_send p data in i_run_callback p (k r)
  | CAsyncSend data k => let* r := i_async_send p data in i_run_callback p (k r)
  | CClose k => i_close p ;; i_run_callback p k
  end.

(** ** Processor *)

(** [start] counts to the uninitialised [threads]. *)
Definition IProcessor_start (cfg : Properties) (handler : EventHandleFunc) : M W unit :=
  i_update (fun e => i_set_proc true (i_runThreads e) handler e) ;;
  let* e := gets w_env in
  let* n := deref (i_threads e) in
  for_each (seqZ 0 n) (fun i =>
    start_thread (ProcThread i) ;;
    i_update (fun e => i_set_proc (i_isRunning e) (i_runThreads e ++ [ProcThread i]) (i_evtHandler e) e)).

Definition IProcessor_stop : M W unit :=
  i_update (fun e => i_set_proc false (i_runThreads e) (i_evtHandler e) e) ;;
  let* e := gets w_env in
  for_each (i_runThreads e) (fun t => sys_ignore (Sys_join t)).

Definition i_deliver (p : ptr) (readPos pkgLen : Z) : M W unit :=
  let* s := session p in
  let pEnd := readPos + pkgLen in
  let* endVal := deref (zget (i_recvBuf s) pEnd) in
  put_session p (i_set_recv (zset (i_recvBuf s) pEnd x00) (i_recvBufPos s) s) ;;
  let packet := slice readPos pkgLen (i_recvBuf s) in
  emit (TRecv p packet) ;;
  i_run_callback p (on_recv h packet) ;;
  let* s := session p in
  put_session p (i_set_recv (zset (i_recvBuf s) pEnd endVal) (i_recvBufPos s) s).

(** Sums and comparisons are on DWORD. *)
Fixpoint i_recv_loop (fuel : nat) (p : ptr) (readPos pkgLen : Z) : M W unit :=
  if pkgLen <=? 0 then ret tt
  else match fuel with
  | O => out_of_fuel
  | S fuel' =>
      let* s := session p in
      let* readPos :=
        (if u32 (readPos + pkgLen) <=? i_recvBufPos s then
           i_deliver p readPos pkgLen ;; ret (u32 (readPos + pkgLen))
         else ret readPos) in
      let* s := session p in
      if readPos <? i_recvBufPos s then
        let pkgLen := read_packet h (i_user s) (slice readPos (i_recvBufPos s - readPos) (i_recvBuf s)) in
        if pkgLen <=? 0 then
          let left := i_recvBufPos s - readPos in
          let buf := blit 0 (slice readPos left (i_recvBuf s)) (i_recvBuf s) in
          if left <? RecvBufSize then put_session p (i_set_recv (zset buf left x00) left s) else undefined
        else i_recv_loop fuel' p readPos pkgLen
      else put_session p (i_set_recv (i_recvBuf s) 0 s)
  end.

(** One completion: [ready] bytes for the connection [p]; the bytes are those the kernel wrote
    behind the ones already held. *)
Definition i_completion (fuel : nat) (iocp ready : Z) (data : list byte) (p : ptr) : M W unit :=
  let* s := session p in
  put_session p (i_set_recv (blit (i_recvBufPos s) data (i_recvBuf s)) (i_recvBufPos s) s) ;;
  let* s := session p in
  let* ev := deref (i_event s) in
  match ev with
  | EVT_RECV =>
      if ready <=? 0 then
        put_session p (i_set_event EVT_DISCONNECT s) ;; sys_ignore (Sys_iocp_post iocp 0 p)
      else
        let pos := u32 (i_recvBufPos s + ready) in
        put_session p (i_set_recv (i_recvBuf s) pos s) ;;
        i_recv_loop fuel p 0 (read_packet h (i_user s) (slice 0 pos (i_recvBuf s))) ;;
        i_launch_recv p 512
  | EVT_CONNECT =>
      catch_all
        (IScheduler_associate p ;;
         emit (TConnect p) ;;
         i_run_callback p (on_connect h) ;;
         i_launch_recv p 512)
        (let* s := session p in sys_ignore (Sys_closesocket (i_fd s)) ;; factory_release p)
  | EVT_DISCONNECT =>
      emit (TDisconnect p) ;;
      i_run_callback p (on_disconnect h) ;;
      let* s := session p in
      sys_ignore (Sys_closesocket (i_fd s)) ;;
      factory_release p
  | EVT_SEND =>
      if ready <=? 0 then
        put_session p (i_set_event EVT_DISCONNECT s) ;; sys_ignore (Sys_iocp_post iocp 0 p)
      else emit (TSend p 0 (u32 ready))
  | _ => ret tt
  end.

(** The result of [GetQueuedCompletionStatus] is not looked at: without a completion the key is
    whatever it was. *)
Definition i_run_iter (fuel : nat) (iocp : Z) : M W unit :=
  let* r := sys_call (Sys_iocp_get iocp) in
  match sr_events r with
  | mk_epoll_event ready (DPtr (Some p)) :: _ => i_completion fuel iocp (u32 ready) (sr_data r) p
  | _ => undefined
  end.

Fixpoint IProcessor_run (rounds fuel : nat) (iocp : Z) : M W unit :=
  let* e := gets w_env in
  if negb (i_isRunning e) then ret tt
  else match rounds with
       | O => out_of_fuel
       | S rounds' => i_run_iter fuel iocp ;; IProcessor_run rounds' fuel iocp
       end.

(** ** Listener *)

Definition i_update_listener (i : nat) (f : IListener -> IListener) : M W unit :=
  i_update (fun e => i_set_listeners (alter f i (i_lstListener e)) e).

(** [start]: every failure closes the socket and is thrown again. *)
Definition IListener_start (i : nat) : M W unit :=
  i_update_listener i (fun l => mk_IListener (il_ip l) (il_port l) (il_backlogs l) (il_fd l) true (listenThread l)) ;;
  let* e := gets w_env in
  let* l := deref (i_lstListener e !! i) in
  let* f := sys_ret Sys_wsasocket in
  if f =? INVALID_SOCKET then throw_last_error
  else
    let close_and_rethrow (m : M W unit) : M W unit := fun w =>
      match m w with
      | (Throw e, w') => bind (sys_ignore (Sys_closesocket f)) (fun _ => throw e) w'
      | (ThrowStd, w') => bind (sys_ignore (Sys_closesocket f)) (fun _ => throw_std) w'
      | r => r
      end in
    close_and_rethrow
      (let* b := sys_ret (Sys_bind f (il_ip l) (il_port l mod 2 ^ 16)) in
       if b =? SOCKET_ERROR then throw_last_error
       else
         let* r := sys_ret (Sys_listen f (il_backlogs l)) in
         if r =? SOCKET_ERROR then throw_last_error
         else
           i_update_listener i (fun l => mk_IListener (il_ip l) (il_port l) (il_backlogs l) (Some f)
                                           (il_isRunning l) (listenThread l)) ;;
           start_thread (ListenThread i) ;;
           i_update_listener i (fun l => mk_IListener (il_ip l) (il_port l) (il_backlogs l) (il_fd l)
                                           (il_isRunning l) true)).

Definition IListener_stop (i : nat) : M W unit :=
  i_update_listener i (fun l => mk_IListener (il_ip l) (il_port l) (il_backlogs l) (il_fd l) false (listenThread l)) ;;
  let* e := gets w_env in
  let* l := deref (i_lstListener e !! i) in
  if listenThread l then sys_ignore (Sys_join (ListenThread i)) else throw_std.

(** A new connection: [peer] is the address [WSAAccept] stored; [true] when the loop goes on. *)
Definition i_accept (peer : Z * Z) (lsfd iocp : Z) : M W bool :=
  let* f := sys_ret (Sys_accept lsfd) in
  if f =? INVALID_SOCKET then ret false
  else
    let* p := factory_create IEventSession_new in
    let* s := session p in
    put_session p (i_set_peer iocp f peer.1 peer.2 true s) ;;
    IScheduler_push p ;;
    ret true.

Fixpoint i_accept_loop (rounds : nat) (peer : Z * Z) (i : nat) (lsfd iocp : Z) : M W unit :=
  let* e := gets w_env in
  let* l := deref (i_lstListener e !! i) in
  if negb (il_isRunning l) then ret tt
  else match rounds with
       | O => out_of_fuel
       | S rounds' =>
           let* more := i_accept peer lsfd iocp in
           if more then i_accept_loop rounds' peer i lsfd iocp else ret tt
       end.

Definition IListener_run (rounds : nat) (peer : Z * Z) (i : nat) : M W unit :=
  let* e := gets w_env in
  let* l := deref (i_lstListener e !! i) in
  let* lsfd := deref (il_fd l) in
  i_accept_loop rounds peer i lsfd (i_port_handle e).

(** ** Connector *)

Definition IConnector_connect (i : nat) : M W unit :=
  let* f := sys_ret Sys_wsasocket in
  i_update (fun e => i_set_connectors (alter (fun c => mk_IConnector (ic_ip c) (ic_port c) (Some f)) i
                                         (i_lstConnector e)) e) ;;
  let* e := gets w_env in
  let* c := deref (i_lstConnector e !! i) in
  if f =? INVALID_SOCKET then throw_last_error
  else
    let* r := sys_ret (Sys_connect f (ic_ip c) (ic_port c mod 2 ^ 16)) in
    if r =? SOCKET_ERROR then throw_last_error
    else
      let* p := factory_create IEventSession_new in
      let* s := session p in
      put_session p (i_set_peer (i_port_handle e) f (ic_ip c) (ic_port c mod 2 ^ 16) false s) ;;
      IScheduler_push p.

Definition IConnector_start (i : nat) : M W unit := IConnector_connect i.
Definition IConnector_stop (i : nat) : M W unit := ret tt.

(** ** TCPService *)

Definition i_normalise (config : Properties) : Properties :=
  let b := if backlogs config <=? 0 then 10 else backlogs config in
  let t := if threads config <=? 0 then 1 else threads config in
  mk_Properties (parser config) (reuse config) (app_run config) b (scheds config) t (cfg_ptr config).

Definition ITCPService_start (handle : EventHandleFunc) : M W Z :=
  i_update (fun e => i_set_config (i_normalise (i_config e)) handle e) ;;
  i_update (fun e => i_set_port (scheds (i_config e)) (i_port_handle e) e) ;;
  IScheduler_start ;;
  let* e := gets w_env in
  IProcessor_start (i_config e) handle ;;
  for_each (seq 0 (length (i_lstListener e))) IListener_start ;;
  sys_ignore (Sys_sleep 1000) ;;
  for_each (seq 0 (length (i_lstConnector e))) IConnector_start ;;
  ret 0.

(** [stop] is empty. *)
Definition ITCPService_stop : M W unit := ret tt.

Definition i_addListener (ip port : Z) : M W unit :=
  i_update (fun e => i_set_listeners (i_lstListener e ++
    [mk_IListener ip port (backlogs (i_config e)) None false false]) e).

Definition i_addConnector (ip port : Z) : M W unit :=
  i_update (fun e => i_set_connectors (i_lstConnector e ++ [mk_IConnector ip port None]) e).
End Iocp.
