(* ===== verification/IocpProps.v ===== *)
(** * Theorems about the completion port back end

    [i_step] is one step of one of its threads: a processor handling a completion, a listener
    accepting, a connector connecting.  A session's [event] member decides what a completion
    means; the theorems show what follows from the assignments the source has commented out. *)

From S2P Require Import Prelude Heap NetApi Os IocpNet.

(** ** Invariants of the world *)

Section Keeps.
Context {K U : Type} `{Kernel K}.
Local Abbreviation W := (world K (IEventSession U) iocp_env).

(** Every session in the heap satisfies [I], every event of the trace satisfies [T]. *)
Definition i_inv (I : IEventSession U -> Prop) (T : trace_event -> Prop) (w : W) : Prop :=
  (forall p s, heap_get (w_sessions w) p = Some s -> I s) /\ Forall T (w_trace w).

Context (I : IEventSession U -> Prop) (T : trace_event -> Prop).
Context (T_sys : forall c r, T (TSys c r)).

Lemma i_keeps_sys_call c : keeps (i_inv I T) (sys_call c).
Proof using T_sys.
  intros w [HI HT]. unfold sys_call. destruct (sys c (w_kernel w)) as [r k].
  split; [exact HI|]. cbn. apply Forall_app; auto.
Qed.

Lemma i_keeps_sys_ret c : keeps (i_inv I T) (sys_ret c).
Proof using T_sys. apply keeps_bind; [apply i_keeps_sys_call|]. intros r. apply keeps_ret. Qed.

Lemma i_keeps_sys_ignore c : keeps (i_inv I T) (sys_ignore c).
Proof using T_sys. apply keeps_bind; [apply i_keeps_sys_call|]. intros r. apply keeps_ret. Qed.

Lemma i_keeps_update f : keeps (i_inv I T) (i_update f).
Proof using. apply keeps_modify. intros w Hw. exact Hw. Qed.

Lemma i_keeps_emit e : T e -> keeps (i_inv I T) (emit e).
Proof using. intros He w [HI HT]. split; [exact HI|]. cbn. apply Forall_app; auto. Qed.

(** Reading a session gives one that satisfies [I]. *)
Lemma i_keeps_session {A} p (k : IEventSession U -> M W A) :
  (forall s, I s -> keeps (i_inv I T) (k s)) -> keeps (i_inv I T) (bind (session p) k).
Proof using.
  intros Hk w Hw. unfold bind, session. destruct (heap_get (w_sessions w) p) as [s|] eqn:E; [|done].
  apply Hk; [|done]. by apply (proj1 Hw p).
Qed.

Lemma i_keeps_put p s : I s -> keeps (i_inv I T) (put_session p s).
Proof using.
  intros Hs w [HI HT]. unfold put_session, heap_set.
  destruct (h_cells (w_sessions w) !! p) eqn:E; [|done]. split; [|done].
  intros q t Hq. unfold heap_get in *. cbn in Hq.
  apply lookup_insert_Some in Hq as [[_ <-]|[_ Hq]]; eauto.
Qed.

Lemma i_keeps_release p : T (TRelease p) -> keeps (i_inv I T) (factory_release p).
Proof using.
  intros He w [HI HT]. unfold factory_release, SessionFactory_release, heap_delete.
  destruct (h_cells (w_sessions w) !! p) eqn:E; [|done]. split.
  - intros q t Hq. unfold heap_get in *. cbn in Hq. apply lookup_delete_Some in Hq as [_ Hq]. eauto.
  - cbn. apply Forall_app; auto.
Qed.

(** A new session that is filled in at once. *)
Lemma i_keeps_new {A} s0 (g : IEventSession U -> IEventSession U) (k : ptr -> M W A) : I (g s0) -> (forall p, T (TCreate p)) ->
  (forall p, keeps (i_inv I T) (k p)) ->
  keeps (i_inv I T) (bind (factory_create s0) (fun p => bind (session p) (fun s => bind (put_session p (g s)) (fun _ => k p)))).
Proof using.
  intros Hg HTc Hk w [HI HT]. unfold bind at 1, factory_create, SessionFactory_create, heap_new. cbn [fst snd]. set (p := h_next (w_sessions w)).
  unfold bind at 1, session, heap_get. cbn [emit modify w_sessions set_sessions h_cells fst snd]. rewrite lookup_insert_eq.
  unfold bind at 1, put_session, heap_set. cbn [w_sessions set_sessions h_cells]. rewrite lookup_insert_eq. apply Hk. split.
  - intros q t Hq. unfold heap_get in Hq. cbn in Hq. apply lookup_insert_Some in Hq as [[_ <-]|[Hne Hq]]; [done|].
    rewrite lookup_insert_ne in Hq by done. by apply (HI q).
  - cbn. apply Forall_app; auto.
Qed.

Lemma i_keeps_deref {A B} (o : option A) (k : A -> M W B) :
  (forall a, o = Some a -> keeps (i_inv I T) (k a)) -> keeps (i_inv I T) (bind (deref o) k).
Proof using. destruct o as [a|]; intros Hk w Hw; [exact (Hk a eq_refl w Hw)|exact Hw]. Qed.

Lemma i_keeps_last_error {A} : keeps (i_inv I T) (@throw_last_error K U A).
Proof using. unfold throw_last_error. apply keeps_bind; [apply keeps_gets|]. intros e. apply keeps_throw. Qed.
End Keeps.

(** The straight-line parts of a handler that keeps an invariant of the world. *)
Ltac i_keep :=
  lazymatch goal with
  | |- keeps _ (bind (factory_create _) _) => apply i_keeps_new; [done|done|intros]
  | |- keeps _ (bind (session _) _) => apply i_keeps_session; intros
  | |- keeps _ (bind _ _) => apply keeps_bind; [|intros]
  | |- keeps _ (sys_ret _) => apply i_keeps_sys_ret
  | |- keeps _ (sys_ignore _) => apply i_keeps_sys_ignore
  | |- keeps _ (sys_call _) => apply i_keeps_sys_call
  | |- keeps _ (emit _) => apply i_keeps_emit; [done]
  | |- keeps _ (i_update _) => apply i_keeps_update
  | |- keeps _ (put_session _ _) => apply i_keeps_put
  | |- keeps _ (factory_release _) => apply i_keeps_release; [done]
  | |- keeps _ (catch_all _ _) => apply keeps_catch_all
  | |- keeps _ throw_last_error => apply i_keeps_last_error
  | |- keeps _ (gets _) => apply keeps_gets
  | |- keeps _ (ret _) => apply keeps_ret
  | |- keeps _ (throw _) => apply keeps_throw
  | |- keeps _ (deref _) => apply keeps_deref
  | |- keeps _ undefined => apply keeps_undefined
  | |- keeps _ (if ?b then _ else _) => destruct b
  end.
Ltac i_keeps := repeat i_keep; try done.

(** ** No session ever waits for data *)

(** The one value the member [event] ever has outside the steps. *)
Definition i_connecting {U} (s : IEventSession U) : Prop := i_event s = Some EVT_CONNECT.

(** Not a packet, not the end of a connection, not a notice of data sent. *)
Definition i_no_data (e : trace_event) : Prop :=
  match e with TRecv _ _ | TDisconnect _ | TSend _ _ _ => False | _ => True end.

Section Connecting.
Context {K U : Type} `{Kernel K}.
Context (RecvBufSize : Z) (h : IEventHandler U) (user_init : U).
Local Abbreviation W := (world K (IEventSession U) iocp_env).
Local Abbreviation Inv := (i_inv (K:=K) (@i_connecting U) i_no_data).

(** One step of a thread of the back end, whatever its outcome. *)
Inductive i_step (w : W) : W -> Prop :=
| i_step_processor fuel iocp : i_step w (i_run_iter RecvBufSize h fuel iocp w).2
| i_step_listener peer lsfd iocp : i_step w (i_accept RecvBufSize user_init peer lsfd iocp w).2
| i_step_connector i : i_step w (IConnector_connect RecvBufSize user_init i w).2.

Lemma i_callback_keeps p c : keeps Inv (i_run_callback p c).
Proof using. induction c; cbn; unfold i_send, i_async_send, i_close; i_keeps; eauto. Qed.

Lemma i_launch_recv_keeps p n : keeps Inv (i_launch_recv RecvBufSize p n).
Proof using. unfold i_launch_recv. i_keeps. Qed.

Lemma i_completion_keeps fuel iocp ready data p : keeps Inv (i_completion RecvBufSize h fuel iocp ready data p).
Proof using.
  unfold i_completion. apply i_keeps_session; intros s Hs. apply keeps_bind; [by i_keeps|intros _].
  apply i_keeps_session; intros s' Hs'. apply i_keeps_deref; intros ev Hev.
  assert (ev = EVT_CONNECT) as -> by (unfold i_connecting in Hs'; congruence).
  unfold IScheduler_associate. i_keeps; eauto using i_callback_keeps, i_launch_recv_keeps.
Qed.

Lemma i_run_iter_keeps fuel iocp : keeps Inv (i_run_iter RecvBufSize h fuel iocp).
Proof using.
  unfold i_run_iter. apply keeps_bind; [by i_keeps|]. intros r.
  destruct (sr_events r) as [|[ready [fd|[p|]]] es]; i_keeps. apply i_completion_keeps.
Qed.

Lemma i_accept_keeps peer lsfd iocp : keeps Inv (i_accept RecvBufSize user_init peer lsfd iocp).
Proof using. unfold i_accept, IScheduler_push. i_keeps. Qed.

Lemma i_connect_keeps i : keeps Inv (IConnector_connect RecvBufSize user_init i).
Proof using. unfold IConnector_connect, IScheduler_push. i_keeps. Qed.

Lemma keeps_snd {A} (m : M W A) w : keeps Inv m -> Inv w -> Inv (m w).2.
Proof using. intros Hm Hw. specialize (Hm w Hw). by destruct (m w) as [[a| | | | |] w']. Qed.

Lemma i_step_keeps w w' : Inv w -> i_step w w' -> Inv w'.
Proof using.
  intros Hw []; apply keeps_snd; auto using i_run_iter_keeps, i_accept_keeps, i_connect_keeps.
Qed.
End Connecting.

Lemma no_data_packets p tr : Forall i_no_data tr -> packets_of p tr = [].
Proof. induction 1 as [|e tr He _ IH]; [done|]. by destruct e. Qed.

(** C30. In every reachable state of the completion port back end, whatever completes in whatever
    order, no session has been handed a packet or told of its end, and every session's [event]
    is EVT_CONNECT: the assignments that would start the receiving of data are commented out of
    [launch_recv]. *)
Theorem iocp_never_receives {K U : Type} `{Kernel K} (RecvBufSize : Z) (h : IEventHandler U) (user_init : U)
    (w0 w : world K (IEventSession U) iocp_env) :
  w_sessions w0 = heap_empty -> w_trace w0 = [] -> rtc (i_step RecvBufSize h user_init) w0 w ->
  (forall p, packets_of p (w_trace w) = [] /\ TDisconnect p ∉ w_trace w) /\
  (forall p s, heap_get (w_sessions w) p = Some s -> i_event s = Some EVT_CONNECT).
Proof.
  intros Hs0 Ht0 Hr.
  assert (i_inv i_connecting i_no_data w) as [HI HT].
  { revert Hr. apply rtc_invariant; [intros; eapply i_step_keeps; eassumption|].
    split; [|rewrite Ht0; constructor]. intros p s. rewrite Hs0. unfold heap_get. cbn. by rewrite lookup_empty. }
  split; [|exact HI].
  intros p. split; [by apply no_data_packets|]. intros Hin. by apply (proj1 (Forall_forall _ _) HT _ Hin).
Qed.

Definition i_handler : IEventHandler nat := {|
  read_packet := fun _ bs => Z.of_nat (length bs);
  on_connect := CGet (fun n => CPut (S n) CDone); on_disconnect := CDone;
  on_recv := fun d => CSend d (fun _ => CDone);
  on_message := fun _ => CDone;
  on_send := fun u _ _ _ => u; parse_message := fun _ _ off => InBuf off
|}.

Definition i_start (k : script) : world script (IEventSession nat) iocp_env :=
  mk_world k 0 [] heap_empty ITCPService_new.

(** A completion with [n] bytes for the session at address 1. *)
Definition i_done (n : Z) (data : list byte) : sysret :=
  mk_sysret 1 0 data [mk_epoll_event n (DPtr (Some 1%positive))] [].

(** A connection is accepted and posted; its completion associates it and starts a receive; three
    bytes arrive. *)
Definition i_story : script :=
  [sys_result 7; sys_result 1;
   i_done 0 []; sys_result 1; sys_error WSA_IO_PENDING;
   i_done 3 [x41; x42; x43]; sys_error 87; sys_result 0].

Definition i_story_end : world script (IEventSession nat) iocp_env :=
  let w1 := (i_accept 16 0%nat (1, 2) 5 9 (i_start i_story)).2 in
  let w2 := (i_run_iter 16 i_handler 16 9 w1).2 in
  (i_run_iter 16 i_handler 16 9 w2).2.

Lemma iocp_never_receives_witness :
  TConnect 1%positive ∈ w_trace i_story_end /\
  (forall p, packets_of p (w_trace i_story_end) = [] /\ TDisconnect p ∉ w_trace i_story_end) /\
  (forall p s, heap_get (w_sessions i_story_end) p = Some s -> i_event s = Some EVT_CONNECT).
Proof.
  split; [vm_compute; repeat constructor|].
  apply (iocp_never_receives 16 i_handler 0%nat (i_start i_story) i_story_end); [reflexivity..|].
  eapply rtc_l; [apply (i_step_listener 16 i_handler 0%nat _ (1, 2) 5 9)|].
  eapply rtc_l; [apply (i_step_processor 16 i_handler 0%nat _ 16 9)|].
  eapply rtc_l; [apply (i_step_processor 16 i_handler 0%nat _ 16 9)|].
  apply rtc_refl_eq. vm_compute. reflexivity.
Defined.

(** The completion of a receive: since [event] is still EVT_CONNECT the processor associates the
    socket with the port a second time, and when the system refuses that it closes the socket and
    deletes the session.  The bytes received reach nobody. *)
Theorem iocp_received_bytes_close {K U : Type} `{Kernel K} (RecvBufSize : Z) (h : IEventHandler U)
    (w : world K (IEventSession U) iocp_env) (fuel : nat) (iocp ready : Z) (data : list byte) (p : ptr)
    (s : IEventSession U) :
  heap_get (w_sessions w) p = Some s -> i_event s = Some EVT_CONNECT ->
  let again := Sys_iocp_associate (i_port_handle (w_env w)) (i_fd s) p in
  sr_ret (sys again (w_kernel w)).1 = -1 ->
  exists w' r, i_completion RecvBufSize h fuel iocp ready data p w = (Ok tt, w') /\
    w_trace w' = w_trace w ++ [TSys again (-1); TSys (Sys_closesocket (i_fd s)) r; TRelease p] /\
    heap_get (w_sessions w') p = None.
Proof.
  intros Hs Hev again Hr.
  assert (Hwp : wp (i_completion RecvBufSize h fuel iocp ready data p) (fun _ w' => exists r,
    w_trace w' = w_trace w ++ [TSys again (-1); TSys (Sys_closesocket (i_fd s)) r; TRelease p] /\
    heap_get (w_sessions w') p = None) w).
  { unfold i_completion. wp_steps. set (s1 := i_set_recv _ _ s).
    eapply wp_put_session; [exact Hs|]. set (w1 := set_sessions _ w). apply wp_bind.
    assert (Hs1 : heap_get (w_sessions w1) p = Some s1) by (unfold heap_get; cbn; by rewrite lookup_insert_eq).
    eapply wp_session; [exact Hs1|]. apply wp_bind. eapply wp_deref; [exact Hev|]. cbv beta iota.
    apply wp_catch_all, wpe_bind. unfold IScheduler_associate, wpe. rewrite bind_gets.
    rewrite (bind_Ok _ _ w1 s1 w1) by (unfold session; by rewrite Hs1).
    rewrite bind_sys_ret. change (Sys_iocp_associate _ _ _) with again. cbn [w_kernel set_sessions w1].
    rewrite Hr. change (-1 <? 0) with true. cbv iota. unfold throw_last_error. rewrite bind_gets. cbn [throw].
    set (w2 := after_call _ _ _ w1). apply wp_bind. eapply wp_session; [exact Hs1|]. apply wp_bind, wp_sys_ignore.
    eapply wp_release; [exact Hs1|]. eexists. split.
    - cbn. rewrite Hr, <- !app_assoc. reflexivity.
    - unfold heap_get. cbn. apply lookup_delete_eq. }
  destruct (wp_Ok _ _ _ Hwp) as ([]&w'&?&r&?&?). by exists w', r.
Qed.

Definition i_associated : IEventSession nat := i_set_peer 9 7 1 2 true (IEventSession_new 16 0%nat).

Definition i_one_session (k : script) : world script (IEventSession nat) iocp_env :=
  mk_world k 0 [] (mk_heap {[ 1%positive := i_associated ]} 2%positive) ITCPService_new.

Lemma iocp_received_bytes_close_witness :
  exists w' r, i_completion 16 i_handler 16 9 3 [x41; x42; x43] 1%positive (i_one_session [sys_error 87]) = (Ok tt, w') /\
    w_trace w' = [] ++ [TSys (Sys_iocp_associate 0 7 1%positive) (-1); TSys (Sys_closesocket 7) r; TRelease 1%positive] /\
    heap_get (w_sessions w') 1%positive = None.
Proof.
  apply (iocp_received_bytes_close 16 i_handler (i_one_session [sys_error 87]) 16 9 3 [x41; x42; x43] 1%positive i_associated);
    reflexivity.
Defined.
