(* ===== verification/Echo.v ===== *)
(** * The programs: test.cpp, the echo server, and client.cpp

    The session classes the two programs define, what their [main] functions configure and
    call, and the end-to-end behaviour of the echo server on one connection. *)

From S2P Require Import Prelude Heap NetApi SendBuffer Os EpollSession EpollNet EpollRecv.

(** ** test.cpp *)

Definition ServerBufSize : Z := 48000.

(** [TcpSession]: the packet is whatever was received, and it is sent back.  Its [on_send] with one
    parameter does not override the one of [EventHandler], whose body is empty. *)
Definition echo_session : IEventHandler unit := {|
  read_packet := fun _ pData => zlen pData;
  on_connect := CDone;
  on_disconnect := CDone;
  on_recv := fun pBuf => CAsyncSend pBuf (fun _ => CDone);
  on_message := fun _ => CDone;
  on_send := fun u _ _ _ => u;
  parse_message := fun _ _ off => InBuf off
|}.

(** The event function of both programs does nothing. *)
Definition netHandler : EventHandleFunc := Some (fun _ _ => None).

Section Programs.
Context {K : Type} `{Kernel K}.
Local Open Scope tinynet_scope.
Local Abbreviation W := (world K (EventHandler unit) epoll_env).

(** [getchar] until 'q' (or a 0 byte); the end of the input is reported for ever. *)
Fixpoint wait_for_q (input : list Z) : M W unit :=
  match input with
  | c :: input' => if (c =? 113) || (c =? 0) then ret tt else wait_for_q input'
  | [] => out_of_fuel
  end.

Definition set_config (threads scheds backlogs : Z) : M W unit :=
  update (fun e => mk_env (scheder e) (processor e) (lstListener e) (lstConnector e)
    (let c := svc_config e in
     mk_Properties (parser c) (reuse c) (app_run c) backlogs scheds threads (cfg_ptr c)) (svc_evtHandler e)).

(** [main] of test.cpp, on the service that its constructor made. *)
Definition server_main (input : list Z) : M W Z :=
  set_config 1 1 10 ;;
  addListener 0 7788 ;;
  let* _ := TCPService_start ServerBufSize ServerBufSize echo_session tt false false netHandler in
  wait_for_q input ;;
  TCPService_stop ;;
  ret 0.

(** ** client.cpp *)

Definition ClientRecvSize : Z := 8192.
Definition ClientSendSize : Z := 64.

(** "hello world" *)
Definition hello_world : list byte := [x68; x65; x6c; x6c; x6f; x20; x77; x6f; x72; x6c; x64].

Definition client_session : IEventHandler unit := {|
  read_packet := fun _ pData => zlen pData;
  on_connect := CAsyncSend hello_world (fun _ => CDone);
  on_disconnect := CDone;
  on_recv := fun pBuf => CAsyncSend pBuf (fun _ => CDone);
  on_message := fun _ => CDone;
  on_send := fun u _ _ _ => u;
  parse_message := fun _ _ off => InBuf off
|}.

(** [main] of client.cpp; 127.0.0.1 in network order. *)
Definition client_main (input : list Z) : M W Z :=
  set_config 10 1 10 ;;
  addConnector 16777343 7788 ;;
  let* _ := TCPService_start ClientRecvSize ClientSendSize client_session tt false false netHandler in
  wait_for_q input ;;
  TCPService_stop ;;
  ret 0.
End Programs.

(** A run of the echo server: it listens on port 7788 with the configured backlog, one processor is
    started, and 'q' stops it.  The client is built without a factory: as soon as it is connected
    it calls [create] through a null pointer. *)
Definition program_world (fact : bool) : world script (EventHandler unit) epoll_env :=
  mk_world (replicate 80 (sys_result 3)) 0 [] heap_empty (TCPService_new fact).

Lemma server_main_run :
  let r := server_main [65; 113] (program_world true) in
  r.1 = Ok 0 /\ TSys (Sys_listen 3 10) 3 ∈ w_trace r.2 /\ TEvt EVT_LISTEN None ∈ w_trace r.2 /\
  TSys (Sys_join (ListenThread 0)) 3 ∈ w_trace r.2.
Proof. cbv zeta. split; [vm_compute; reflexivity|]. split_and!; refine (bool_decide_eq_true_1 _ _); vm_compute; reflexivity. Qed.

Lemma client_main_null_factory :
  let r := client_main [113] (program_world false) in
  r.1 = Undefined /\ last (w_trace r.2) = Some (TSys (Sys_connect 3 16777343 7788) 3).
Proof. split; vm_compute; reflexivity. Qed.

(** ** One connection of the echo server *)

Section Echo.
Context {K : Type} `{Kernel K} (R S : Z) (HR : 0 < R <= INT_MAX) (HS : 0 < S <= INT_MAX).
Local Abbreviation W := (world K (EventHandler unit) epoll_env).

(** Between events the session holds no unread bytes. *)
Definition echo_ok (s : EventHandler unit) : Prop :=
  recvBufPos s = 0 /\ zlen (recvBuf s) = R /\ SendBuffer_wf S (sendBuffer s).

(** No application thread and no parser, as in test.cpp. *)
Definition plain_config (w : W) : Prop :=
  app_run (p_config (processor (w_env w))) = false /\ parser (p_config (processor (w_env w))) = false.

(** A session class that hands every chunk back, as both programs' classes do. *)
Definition echoes (h : IEventHandler unit) : Prop :=
  (forall u d, read_packet h u d = zlen d) /\ (forall d, on_recv h d = CAsyncSend d (fun _ => CDone)).

Lemma echo_readable h fuel procIdx pfd p s w d :
  echoes h -> heap_get (w_sessions w) p = Some s -> echo_ok s -> plain_config w ->
  let c := Sys_recv (fd s) R in
  let r := (sys c (w_kernel w)).1 in
  sr_data r = d -> sr_ret r = zlen d -> 0 < zlen d <= R ->
  wp (handle_readable R S h false (Datatypes.S fuel) procIdx pfd p) (fun _ w' =>
    w_env w' = w_env w /\
    w_kernel w' = (sys (Sys_epoll_ctl (procFd s) EPOLL_CTL_MOD (fd s)
      (Some (mk_epoll_event (Z.lor (Z.lor EPOLLIN EPOLLOUT) EPOLLERR) (DPtr (Some p))))) (sys c (w_kernel w)).2).2 /\
    (exists s', heap_get (w_sessions w') p = Some s' /\ fd s' = fd s /\ echo_ok s' /\
       sendBuffer s' = (push S (sendBuffer s) d).2) /\
    exists r2, w_trace w' = w_trace w ++ [TSys c (zlen d); TChunk p d; TRecv p d;
      TSys (Sys_epoll_ctl (procFd s) EPOLL_CTL_MOD (fd s)
        (Some (mk_epoll_event (Z.lor (Z.lor EPOLLIN EPOLLOUT) EPOLLERR) (DPtr (Some p))))) r2]) w.
Proof using HR HS.
  intros [Hrp Hor] Hs (Hpos&Hlen&Hwf) [Happ Hpar] c r Hd Hr Hdl. unfold handle_readable, recv_size. wp_steps.
  rewrite Hpos, Z.sub_0_r. fold c. fold r. rewrite Hr, Hd.
  destruct (Z.ltb_spec (zlen d) 0); [lia|]. destruct (Z.eqb_spec (zlen d) 0); [lia|].
  apply wp_bind, wp_emit. set (w1 := mk_world _ _ _ _ _). apply wp_bind. eapply wp_put_session; [exact Hs|].
  set (s1 := set_recv _ _ s). set (w2 := set_sessions _ w1).
  assert (Hs2 : heap_get (w_sessions w2) p = Some s1) by (unfold heap_get; cbn; apply lookup_insert_eq).
  assert (Hsl : slice 0 (zlen d) (recvBuf s1) = d) by (cbn; apply slice_blit_at; lia).
  assert (Hlen1 : zlen (recvBuf s1) = R) by (cbn; rewrite zlen_blit; lia).
  change (blit 0 d (recvBuf s)) with (recvBuf s1). rewrite Hrp, Z.add_0_l, Hsl. cbn [recv_loop].
  destruct (Z.leb_spec (zlen d) 0); [lia|].
  apply wp_bind. eapply wp_session; [exact Hs2|]. cbn [recvBufPos set_recv s1]. rewrite !Z.add_0_l, Z.leb_refl.
  apply wp_bind, wp_bind. unfold deliver. apply wp_bind. eapply wp_session; [exact Hs2|]. cbv zeta. rewrite Hsl.
  apply wp_bind, wp_emit. set (w3 := mk_world _ _ _ _ _). apply wp_bind. unfold callback_on. rewrite Hor. cbn [run_callback].
  unfold async_send. apply wp_bind, wp_bind. eapply wp_session; [exact Hs2|].
  apply wp_bind, wp_assert; [done|]. pose proof (push_cases S HS (sendBuffer s1) d Hwf) as Hpush.
  cbn [sendBuffer set_recv s1] in Hpush |- *. destruct (push S (sendBuffer s) d) as [ok sb] eqn:Ep. destruct Hpush as (Hwf'&_&_).
  apply wp_bind. eapply wp_put_session; [exact Hs2|]. set (w4 := set_sessions _ w3). set (s4 := set_sendBuffer sb s1) in *.
  assert (Hs4 : heap_get (w_sessions w4) p = Some s4) by (unfold heap_get; cbn; apply lookup_insert_eq).
  wp_steps. cbn [run_callback]. wp_steps. cbn [w_env after_call w4 w3 w2 w1 set_sessions]. rewrite Happ, Hpar. cbn [when]. wp_steps.
  change (recvBufPos s4) with (0 + zlen d). rewrite Z.add_0_l, Z.ltb_irrefl. eapply wp_put_session; [exact Hs4|].
  split_and!; [done|done| |].
  - eexists. split; [unfold heap_get; cbn; apply lookup_insert_eq|]. done.
  - eexists. cbn. rewrite Hr, <- !app_assoc. reflexivity.
Qed.

Lemma echo_writable `{!KernelLaws K} p s w :
  heap_get (w_sessions w) p = Some s -> echo_ok s ->
  let c := Sys_send (fd s) (contents (sendBuffer s)) in
  let r := (sys c (w_kernel w)).1 in
  wp (handle_writable p) (fun _ w' =>
    let m := Sys_epoll_ctl (procFd s) EPOLL_CTL_MOD (fd s)
      (Some (mk_epoll_event (out_interest (if sr_ret r <? 0 then sr_errno r else w_errno w)) (DPtr (Some p)))) in
    w_env w' = w_env w /\ w_kernel w' = (sys m (sys c (w_kernel w)).2).2 /\ -1 <= sr_ret r /\
    (exists s', heap_get (w_sessions w') p = Some s' /\ fd s' = fd s /\ echo_ok s' /\
       sendBuffer s' = (pop_finish (sendBuffer s) (pop_len (sendBuffer s)) (i32 (sr_ret r))).2 /\
       contents (sendBuffer s') = drop (Z.to_nat (sr_ret r)) (contents (sendBuffer s))) /\
    exists r2, w_trace w' = w_trace w ++ [TSys c (sr_ret r); TSys m r2]) w.
Proof using HS.
  intros Hs (Hpos&Hlen&Hwf) c r. pose proof (send_law (w_kernel w) (fd s) (contents (sendBuffer s))) as Hl. fold c r in Hl.
  rewrite (zlen_contents S) in Hl by done.
  destruct (pop_sent S HS (sendBuffer s) (sr_ret r) Hwf Hl) as [Hwf' Hcont].
  unfold handle_writable. wp_steps. rewrite pop_region_contents. fold c. fold r.
  eapply wp_put_session; [exact Hs|]. wp_steps. set (s' := set_sendBuffer _ s) in *. unfold out_interest. cbn [w_errno after_call set_sessions].
  destruct (_ || _); wp_steps; (split_and!; [done|done|lia| |]);
    first [eexists; split; [unfold heap_get; cbn; apply lookup_insert_eq|]; split_and!; done
          |eexists; cbn; rewrite <- app_assoc; reflexivity].
Qed.

(** One event of the connection [p]: data that fits into what is free of the send buffer, or room
    in the socket. *)
Inductive echo_step (p : ptr) (w : W) : W -> Prop :=
| echo_in fuel procIdx pfd s w' :
    heap_get (w_sessions w) p = Some s ->
    let r := (sys (Sys_recv (fd s) R) (w_kernel w)).1 in
    0 < sr_ret r -> (push S (sendBuffer s) (sr_data r)).1 = true ->
    handle_readable R S echo_session false (Datatypes.S fuel) procIdx pfd p w = (Ok tt, w') -> echo_step p w w'
| echo_out w' : handle_writable p w = (Ok tt, w') -> echo_step p w w'.

(** The bytes [send] took on the descriptor [f]. *)
Definition sent_by (f : Z) (e : trace_event) : option (list byte) :=
  match e with TSys (Sys_send g data) n => if g =? f then Some (take (Z.to_nat n) data) else None | _ => None end.
Definition sent_on (f : Z) (tr : list trace_event) : list byte := concat (omap (sent_by f) tr).
Definition received_by (p : ptr) (tr : list trace_event) : list byte := concat (chunks_of p tr).

Lemma sent_on_app f t1 t2 : sent_on f (t1 ++ t2) = sent_on f t1 ++ sent_on f t2.
Proof using. unfold sent_on. by rewrite omap_app, concat_app. Qed.
Lemma received_by_app p t1 t2 : received_by p (t1 ++ t2) = received_by p t1 ++ received_by p t2.
Proof using. unfold received_by. by rewrite chunks_of_app, concat_app. Qed.

(** What was sent and what waits to be sent is what was received. *)
Definition echo_inv (p : ptr) (f : Z) (w : W) : Prop :=
  plain_config w /\ exists s, heap_get (w_sessions w) p = Some s /\ fd s = f /\ echo_ok s /\
    sent_on f (w_trace w) ++ contents (sendBuffer s) = received_by p (w_trace w).

Lemma echo_step_inv `{!KernelLaws K} p f w w' : echo_inv p f w -> echo_step p w w' -> echo_inv p f w'.
Proof using HR HS.
  intros (Hcfg&s&Hs&Hf&Hok&Hst) [fuel procIdx pfd s0 w1 Hs0 r Hr Hpush Hrun|w1 Hrun].
  - assert (s0 = s) as -> by congruence. destruct (recv_law (w_kernel w) (fd s) R ltac:(lia) Hr) as [Hle Hdl]. fold r in Hle, Hdl.
    pose proof (echo_readable echo_session fuel procIdx pfd p s w (sr_data r) (conj (fun _ _ => eq_refl) (fun _ => eq_refl)) Hs Hok Hcfg eq_refl Hdl ltac:(lia)) as Hwp.
    destruct (wp_Ok _ _ _ Hwp) as ([]&w2&Hrun2&He&_&(s'&Hs'&Hf'&Hok'&Hsb)&r2&HT). assert (w2 = w1) as -> by congruence.
    split; [unfold plain_config; by rewrite He|]. exists s'. split_and!; [done|congruence|done|].
    destruct Hok as (_&_&Hwf). pose proof (push_cases S HS (sendBuffer s) (sr_data r) Hwf) as Hc. rewrite Hsb.
    destruct (push S (sendBuffer s) (sr_data r)) as [ok sb]. cbn in Hpush. subst ok. destruct Hc as (_&Hc&_).
    cbn [snd]. rewrite HT, sent_on_app, received_by_app, Hc. change (sent_on f [_; _; _; _]) with (@nil byte).
    rewrite app_nil_r, app_assoc, Hst. f_equal. unfold received_by, chunks_of. cbn. rewrite decide_True by done. cbn. by rewrite app_nil_r.
  - pose proof (echo_writable p s w Hs Hok) as Hwp.
    destruct (wp_Ok _ _ _ Hwp) as ([]&w2&Hrun2&He&_&Hm1&(s'&Hs'&Hf'&Hok'&_&Hc)&r2&HT). assert (w2 = w1) as -> by congruence.
    split; [unfold plain_config; by rewrite He|]. exists s'. split_and!; [done|congruence|done|].
    rewrite HT, sent_on_app, received_by_app, Hc. set (n := sr_ret _).
    replace (received_by p [_; _]) with (@nil byte) by done. rewrite app_nil_r, <- Hst, <- app_assoc. f_equal.
    unfold sent_on. cbn. rewrite Hf, Z.eqb_refl. cbn. rewrite app_nil_r. apply take_drop.
Qed.
End Echo.

(** The echo server of test.cpp, end to end on one connection: in every state it reaches by
    handling events of the connection (data in any pieces, a socket that takes any part of what it
    is offered), as long as the answers fit into the send buffer, the bytes sent followed by the
    bytes still buffered are exactly the bytes received, in order. *)
Theorem echo_server_echoes {K} `{Kernel K} (p : ptr) (f : Z) (w0 w : world K (EventHandler unit) epoll_env) :
  KernelLaws K -> plain_config w0 -> w_trace w0 = [] ->
  heap_get (w_sessions w0) p = Some (set_peer f None None (OwnListener 0) true
    (EventHandler_new ServerBufSize ServerBufSize tt)) ->
  rtc (echo_step ServerBufSize ServerBufSize p) w0 w ->
  exists s, heap_get (w_sessions w) p = Some s /\
    sent_on f (w_trace w) ++ contents (sendBuffer s) = received_by p (w_trace w).
Proof.
  intros HK Hcfg Ht Hs Hr.
  assert (HB : 0 < ServerBufSize <= INT_MAX) by (unfold ServerBufSize, INT_MAX; lia).
  assert (echo_inv ServerBufSize ServerBufSize p f w) as (_&s&?&_&_&?); [|by exists s].
  revert Hr. apply rtc_invariant; [intros a b; by apply echo_step_inv|].
  split; [done|]. eexists. split; [exact Hs|]. split_and!; [done| |].
  - split_and!; [done|cbn [recvBuf set_peer EventHandler_new]; rewrite length_replicate; lia|by apply SendBuffer_init_wf].
  - rewrite Ht. cbn [sendBuffer set_peer EventHandler_new]. by rewrite contents_init.
Qed.

(** "hi" arrives, the socket takes one byte of the answer, "!" arrives, the rest is sent. *)
Definition echo_start : world script (EventHandler unit) epoll_env :=
  mk_world [mk_sysret 2 0 [x68; x69] [] []; sys_result 0; sys_result 1; sys_result 0;
            mk_sysret 1 0 [x21] [] []; sys_result 0; sys_result 2; sys_result 0] 0 []
    (mk_heap {[ 1%positive := set_peer 7 None None (OwnListener 0) true (EventHandler_new ServerBufSize ServerBufSize tt) ]} 2%positive)
    (TCPService_new true).

Abbreviation echo_read w :=
  (handle_readable ServerBufSize ServerBufSize echo_session false 1 0 5 1%positive w).2.
Abbreviation echo_write w := (handle_writable (K:=script) (U:=unit) 1%positive w).2.

Definition echo_1 : world script (EventHandler unit) epoll_env := echo_read echo_start.
Definition echo_2 : world script (EventHandler unit) epoll_env := echo_write echo_1.
Definition echo_3 : world script (EventHandler unit) epoll_env := echo_read echo_2.
Definition echo_4 : world script (EventHandler unit) epoll_env := echo_write echo_3.

Lemma echo_read_step w s :
  heap_get (w_sessions w) 1%positive = Some s ->
  (0 <? sr_ret (sys (Sys_recv (fd s) ServerBufSize) (w_kernel w)).1) = true ->
  (push ServerBufSize (sendBuffer s) (sr_data (sys (Sys_recv (fd s) ServerBufSize) (w_kernel w)).1)).1 = true ->
  (handle_readable ServerBufSize ServerBufSize echo_session false 1 0 5 1%positive w).1 = Ok tt ->
  echo_step (K:=script) ServerBufSize ServerBufSize 1%positive w (echo_read w).
Proof. intros Hs Hr Hp Ho. eapply echo_in; [exact Hs|by apply Z.ltb_lt|done|]. by apply run_split. Qed.

(** The two conditions of a step on data, as a computation. *)
Definition echo_ready (w : world script (EventHandler unit) epoll_env) : bool :=
  match heap_get (w_sessions w) 1%positive with
  | Some s =>
      (0 <? sr_ret (sys (Sys_recv (fd s) ServerBufSize) (w_kernel w)).1) &&
      (push ServerBufSize (sendBuffer s) (sr_data (sys (Sys_recv (fd s) ServerBufSize) (w_kernel w)).1)).1
  | None => false
  end.

Lemma echo_ready_step w : echo_ready w = true ->
  (handle_readable ServerBufSize ServerBufSize echo_session false 1 0 5 1%positive w).1 = Ok tt ->
  echo_step (K:=script) ServerBufSize ServerBufSize 1%positive w (echo_read w).
Proof.
  unfold echo_ready. destruct (heap_get _ _) as [s|] eqn:Hs; [|done]. intros [Hr Hp]%andb_true_iff Ho. by eapply echo_read_step.
Qed.

Lemma echo_write_step w : (handle_writable (K:=script) (U:=unit) 1%positive w).1 = Ok tt ->
  echo_step ServerBufSize ServerBufSize 1%positive w (echo_write w).
Proof. intros Ho. by apply echo_out, run_split. Qed.

Lemma echo_server_echoes_witness :
  sent_on 7 (w_trace echo_4) = [x68; x69; x21] /\
  exists s, heap_get (w_sessions echo_4) 1%positive = Some s /\
    sent_on 7 (w_trace echo_4) ++ contents (sendBuffer s) = received_by 1%positive (w_trace echo_4).
Proof.
  split; [vm_compute; reflexivity|].
  apply (echo_server_echoes 1%positive 7 echo_start echo_4 script_laws); [split; reflexivity|reflexivity|reflexivity|].
  apply rtc_l with echo_1; [apply echo_ready_step; vm_compute; reflexivity|].
  apply rtc_l with echo_2; [apply echo_write_step; vm_compute; reflexivity|].
  apply rtc_l with echo_3; [apply echo_ready_step; vm_compute; reflexivity|].
  apply rtc_l with echo_4; [apply echo_write_step; vm_compute; reflexivity|].
  apply rtc_refl.
Defined.
