(* ===== verification/EchoServer.v ===== *)
(** * The echo server with many connections

    The service of test.cpp while it runs: its processors handle events of any session, its listener
    accepts connections, connections end and their descriptors are used again.  The end of a
    connection is cut where its descriptor is closed: the listener may get the number for a new
    session before the old one is released.  Every client gets back its own bytes. *)

From S2P Require Import Prelude Heap NetApi SendBuffer Os EpollSession EpollNet EpollFrame EpollRecv EpollServer EpollService Shutdown Echo.

Definition closes (c : syscall) (f : Z) : Prop := c = Sys_close f \/ c = Sys_closesocket f \/ c = Sys_closehandle f.

(** A descriptor stays open until it is closed, and [accept] returns one that was not open. *)
Class Descriptors (K : Type) `{Kernel K} := {
  fd_open : K -> Z -> Prop;
  call_keeps_open : forall k c f, ~ closes c f -> fd_open k f -> fd_open (sys c k).2 f;
  accept_opens : forall k l, 0 <= sr_ret (sys (Sys_accept l) k).1 ->
    ~ fd_open k (sr_ret (sys (Sys_accept l) k).1) /\ fd_open (sys (Sys_accept l) k).2 (sr_ret (sys (Sys_accept l) k).1)
}.

(** What happened since the session [p] was made. *)
Fixpoint since (p : ptr) (tr : list trace_event) : list trace_event :=
  match tr with [] => [] | e :: tr => if decide (e = TCreate p) then tr else since p tr end.

Lemma since_app p t1 t2 : TCreate p ∈ t1 -> since p (t1 ++ t2) = since p t1 ++ t2.
Proof.
  induction t1 as [|e t1 IH]; intros Hin; cbn; [by apply not_elem_of_nil in Hin|]. case_decide; [done|].
  apply IH. apply elem_of_cons in Hin as [|]; [congruence|done].
Qed.

Lemma since_new p t1 t2 : TCreate p ∉ t1 -> since p (t1 ++ TCreate p :: t2) = t2.
Proof.
  induction t1 as [|e t1 IH]; intros Hin; cbn; [by rewrite decide_True|]. apply not_elem_of_cons in Hin as [? ?]. rewrite decide_False by done. auto.
Qed.

Section Many.
Context {K : Type} `{Kernel K, !KernelLaws K, !Descriptors K} (R S : Z) (HR : 0 < R <= INT_MAX) (HS : 0 < S <= INT_MAX).
Local Abbreviation W := (world K (EventHandler unit) epoll_env).

(** The data of the event fits behind what waits in the session's send buffer. *)
Definition answer_fits (ev : epoll_event) (w : W) : Prop :=
  forall p s, ev_data ev = DPtr (Some p) -> heap_get (w_sessions w) p = Some s ->
    let r := (sys (Sys_recv (fd s) R) (w_kernel w)).1 in
    0 < sr_ret r -> (push S (sendBuffer s) (sr_data r)).1 = true.

(** How a connection ends: [recv] returned nothing, or the event was an error. *)
Inductive ending := EndRead | EndError.

(** What the event finds: the end of its session's connection or something else. *)
Definition event_ends (ev : epoll_event) (w : W) : option (ptr * ending) :=
  match ev_data ev with
  | DPtr (Some p) =>
      s ← heap_get (w_sessions w) p;
      if Z.land (ev_events ev) EPOLLIN =? EPOLLIN then
        if sr_ret (sys (Sys_recv (fd s) (recv_size R s)) (w_kernel w)).1 <=? 0 then Some (p, EndRead) else None
      else if Z.land (ev_events ev) EPOLLOUT =? EPOLLOUT then None
      else if Z.land (ev_events ev) EPOLLERR =? EPOLLERR then Some (p, EndError) else None
  | _ => None
  end.

(** An event up to the point where the descriptor is closed, if it is; otherwise the whole event. *)
Definition event_cut (fuel : nat) (procIdx pfd : Z) (ev : epoll_event) : M W (option (ptr * ending)) := fun w =>
  match event_ends ev w with
  | Some (p, e) =>
      (let* s := session p in
       (match e with EndRead => sys_ignore (Sys_recv (fd s) (recv_size R s)) | EndError => ret tt end) ;;
       sys_ignore (Sys_epoll_ctl pfd EPOLL_CTL_DEL (fd s) None) ;;
       sys_ignore (Sys_close (fd s)) ;;
       ret (Some (p, e)))%tn w
  | None => (handle_event R S echo_session false fuel procIdx pfd ev ;; ret None)%tn w
  end.

(** The rest of the end of a connection. *)
Definition end_part (p : ptr) (e : ending) : M W unit :=
  (match e with EndRead => emit (TDisconnect p) ;; callback_on S echo_session false p (on_disconnect echo_session) | EndError => ret tt end ;;
   let* pr := gets (fun w => processor (w_env w)) in
   let* _ := deref (if factory pr then Some tt else None) in
   factory_release p ;;
   match e with EndRead => notify (p_evtHandler pr) EVT_SESSION_RELEASE (Some p) | EndError => ret tt end)%tn.

(** The two parts in a row are the event. *)
Lemma event_cut_whole fuel procIdx pfd ev w :
  handle_event R S echo_session false fuel procIdx pfd ev w =
  bind (event_cut fuel procIdx pfd ev) (fun o => match o with Some (p, e) => end_part p e | None => ret tt end) w.
Proof using.
  clear. unfold bind at 1, event_cut. destruct (event_ends ev w) as [[p e]|] eqn:He.
  2: { unfold bind, ret. by destruct (handle_event _ _ _ _ _ _ _ _ w) as [[[]| | | | |] w']. }
  unfold event_ends in He. unfold handle_event. destruct (ev_data ev) as [|[q|]]; try done. destruct (heap_get (w_sessions w) q) as [s|] eqn:Hs; [|done]. cbn [mbind option_bind] in He.
  destruct (_ =? EPOLLIN).
  - destruct (Z.leb_spec (sr_ret (sys (Sys_recv (fd s) (recv_size R s)) (w_kernel w)).1) 0) as [Hr|]; [|done]. injection He as <- <-.
    rewrite (handle_readable_ended R S echo_session fuel procIdx pfd q s w Hs Hr). set (w1 := after_call _ _ _ w).
    assert (Hs0 : session q w = (Ok s, w)) by (unfold session, bind, gets, deref; by rewrite Hs).
    assert (Hs1 : session q w1 = (Ok s, w1)) by (unfold session, bind, gets, deref; cbn; by rewrite Hs).
    unfold disconnect. rewrite (bind_Ok _ _ _ _ _ Hs1), (bind_Ok _ _ _ _ _ Hs0), !bind_ignore.
    assert (called (Sys_recv (fd s) (recv_size R s)) w = w1) as -> by (unfold called, sys_ignore, bind, sys_call, w1; by destruct (sys _ (w_kernel w))).
    cbn [ret]. unfold end_part. by rewrite <- bind_assoc.
  - destruct (_ =? EPOLLOUT); [done|]. destruct (_ =? EPOLLERR); [|done]. injection He as <- <-.
    assert (Hs0 : session q w = (Ok s, w)) by (unfold session, bind, gets, deref; by rewrite Hs).
    unfold handle_error. rewrite !(bind_Ok _ _ _ _ _ Hs0), (bind_Ok (ret tt) _ w tt w), !bind_ignore by done. cbn [ret]. unfold end_part.
    rewrite (bind_Ok (ret tt) _ _ tt _), !bind_gets by done. destruct (factory _); [|done]. cbn [deref bind ret]. unfold factory_release, bind.
    by destruct (SessionFactory_release q _).
Qed.

(** The service: its world and the sessions whose end has begun. *)
Record echo_sys := mk_es { es_world : W; es_dying : list (ptr * ending) }.

(** A processor handles an event, up to the close if the connection ends, then the rest of that; the
    listener accepts a connection.  A session whose end has begun gets no event: its descriptor was
    taken out of the epoll set, and its processor is busy with it.  With [lossless] the answers
    fit. *)
Inductive echo_service (lossless : bool) : echo_sys -> echo_sys -> Prop :=
| es_event w w' D fuel procIdx pfd ev o : (forall p, ev_data ev = DPtr (Some p) -> p ∉ D.*1) -> (lossless = true -> answer_fits ev w) ->
    event_cut (Datatypes.S fuel) procIdx pfd ev w = (Ok o, w') -> echo_service lossless (mk_es w D) (mk_es w' (option_list o ++ D))
| es_end w w' D1 D2 p e : end_part p e w = (Ok tt, w') -> echo_service lossless (mk_es w (D1 ++ (p, e) :: D2)) (mk_es w' (D1 ++ D2))
| es_accept w w' D i l : accept_connection R S echo_session tt false false i l w = (Ok tt, w') -> echo_service lossless (mk_es w D) (mk_es w' D).

Context (lossless : bool).

(** The answers sent to the client and those that wait are what it sent, whole pieces of it at
    least. *)
Definition answered_by (p : ptr) (s : EventHandler unit) (tr : list trace_event) : Prop :=
  exists cs, cs `sublist_of` chunks_of p tr /\ (lossless = true -> cs = chunks_of p tr) /\
    sent_on (fd s) (since p tr) ++ contents (sendBuffer s) = concat cs.

(** [D]: the sessions whose end has begun. *)
Record echo_srv (D : list ptr) (w : W) : Prop := {
  ev_config : plain_config w;
  ev_factory : factory (processor (w_env w)) = true;
  ev_wf : heap_wf (w_sessions w);
  ev_session p s : heap_get (w_sessions w) p = Some s -> p ∉ D ->
    echo_ok R S s /\ fd_open (w_kernel w) (fd s) /\ TCreate p ∈ w_trace w /\ answered_by p s (w_trace w);
  ev_apart p q s s' : heap_get (w_sessions w) p = Some s -> heap_get (w_sessions w) q = Some s' -> p ∉ D -> q ∉ D -> fd s = fd s' -> p = q;
  ev_fresh p : (h_next (w_sessions w) <= p)%positive -> chunks_of p (w_trace w) = [] /\ TCreate p ∉ w_trace w
}.

(** Only the session [p] was touched: its events went to the trace, its descriptor alone may have
    been [closed]. *)
Record touched (p : ptr) (s : EventHandler unit) (closed : bool) (t : list trace_event) (w w' : W) : Prop := {
  to_env : w_env w' = w_env w;
  to_trace : w_trace w' = w_trace w ++ t;
  to_beside q : q <> p -> heap_get (w_sessions w') q = heap_get (w_sessions w) q;
  to_next : h_next (w_sessions w') = h_next (w_sessions w);
  to_open f : f <> fd s \/ closed = false -> fd_open (w_kernel w) f -> fd_open (w_kernel w') f;
  to_chunks q : q <> p -> chunks_of q t = [];
  to_sent f : f <> fd s -> sent_on f t = [];
  to_created q : TCreate q ∉ t
}.

Lemma touched_inv p s closed t w w' D D' : echo_srv D w -> heap_get (w_sessions w) p = Some s -> p ∉ D -> touched p s closed t w w' ->
  (forall q, q <> p -> q ∉ D' -> q ∉ D) ->
  (forall s', heap_get (w_sessions w') p = Some s' -> p ∉ D' -> closed = false /\ fd s' = fd s /\ echo_ok R S s' /\ answered_by p s' (w_trace w ++ t)) ->
  echo_srv D' w'.
Proof using All.
  intros [] Hs Hd [] HD Ho. assert (Hlive : forall q s', heap_get (w_sessions w') q = Some s' -> q ∉ D' ->
    exists s0, heap_get (w_sessions w) q = Some s0 /\ fd s' = fd s0 /\ q ∉ D).
  { intros q s' Hq Hqd. destruct (decide (q = p)) as [->|Hne]; [|rewrite to_beside0 in Hq by done; exists s'; auto].
    exists s. split_and!; [done| |done]. by apply Ho. }
  split.
  - unfold plain_config. by rewrite to_env0.
  - by rewrite to_env0.
  - intros q s' Hq. rewrite to_next0. destruct (decide (q = p)) as [->|Hne]; [by eapply ev_wf0|].
    change (heap_get (w_sessions w') q = Some s') in Hq. rewrite to_beside0 in Hq by done. by eapply ev_wf0.
  - intros q s' Hq Hqd. destruct (decide (q = p)) as [->|Hne].
    + destruct (Ho s' Hq Hqd) as (Hcl&Hf&Hok&Ha). destruct (ev_session0 p s Hs Hd) as (_&Hop&Hcr&_). rewrite to_trace0.
      split_and!; [done|rewrite Hf; apply to_open0; [by right|done]|set_solver|done].
    + rewrite to_beside0 in Hq by done. destruct (ev_session0 q s' Hq (HD q Hne Hqd)) as (Hok&Hop&Hcr&cs&Hsub&Hall&Hcat).
      assert (Hf : fd s' <> fd s) by (intros Hf; apply Hne; eapply ev_apart0; eauto). rewrite to_trace0.
      split_and!; [done|apply to_open0; [by left|done]|set_solver|]. exists cs.
      rewrite chunks_of_app, to_chunks0, app_nil_r, since_app, sent_on_app, to_sent0, app_nil_r by done. done.
  - intros q1 q2 s1 s2 H1 H2 D1 D2 Hf. destruct (Hlive q1 s1 H1 D1) as (t1&T1&F1&?), (Hlive q2 s2 H2 D2) as (t2&T2&F2&?). eapply ev_apart0; eauto. congruence.
  - intros q Hq. rewrite to_next0 in Hq. destruct (ev_fresh0 q Hq) as [Hc Hcr]. rewrite to_trace0, chunks_of_app, Hc.
    assert (q <> p) by (intros ->; apply ev_wf0 in Hs; lia). split; [by apply to_chunks0|set_solver].
Qed.

(** ** The events of a session *)

Lemma keeps_run {A} (I : W -> Prop) (m : M W A) w o w' : keeps I m -> I w -> m w = (o, w') -> I w'.
Proof using. clear. intros Hm Hw E. specialize (Hm w Hw). rewrite E in Hm. by destruct o. Qed.

Lemma event_beside fuel procIdx pfd evs p w o w' :
  handle_event R S echo_session false fuel procIdx pfd (mk_epoll_event evs (DPtr (Some p))) w = (o, w') ->
  h_next (w_sessions w') = h_next (w_sessions w) /\ forall q, q <> p -> heap_get (w_sessions w') q = heap_get (w_sessions w) q.
Proof using.
  clear. intros Hrun. assert (Hb : forall q, q <> p -> beside q (heap_get (w_sessions w) q) (h_next (w_sessions w)) w').
  { intros q Hq. by eapply keeps_run; [by apply (beside_event R S echo_session p q Hq)| |exact Hrun]. }
  split; [apply (Hb (Pos.succ p)); lia|]. intros q Hq. by apply Hb.
Qed.

(** A call that closes nothing of the session. *)
Ltac stays_open := repeat (apply call_keeps_open; [intros [?|[?|?]]; congruence|]); try done.

Lemma sent_none f t : Forall (fun e => match e with TSys (Sys_send _ _) _ => False | _ => True end) t -> sent_on f t = [].
Proof using.
  clear. intros Ht. unfold sent_on. induction Ht as [|e t He _ IH]; [done|]. by destruct e as [[]| | | | | | | | |].
Qed.

Lemma chunks_none q t : Forall (fun e => match e with TChunk _ _ => False | _ => True end) t -> chunks_of q t = [].
Proof using. clear. intros Ht. unfold chunks_of. induction Ht as [|e t He _ IH]; [done|]. by destruct e. Qed.

Lemma answered_silent p s tr t : TCreate p ∈ tr -> chunks_of p t = [] -> sent_on (fd s) t = [] -> answered_by p s tr -> answered_by p s (tr ++ t).
Proof using.
  clear. intros Hc Ht Hs (cs&H1&H2&H3). exists cs. by rewrite chunks_of_app, Ht, app_nil_r, since_app, sent_on_app, Hs, app_nil_r.
Qed.

(** Data: the answer is put behind what waits, whole or not at all. *)
Lemma service_data D fuel procIdx pfd p s w w' : echo_srv D w -> heap_get (w_sessions w) p = Some s -> p ∉ D ->
  let r := (sys (Sys_recv (fd s) R) (w_kernel w)).1 in 0 < sr_ret r -> (lossless = true -> (push S (sendBuffer s) (sr_data r)).1 = true) ->
  handle_readable R S echo_session false (Datatypes.S fuel) procIdx pfd p w = (Ok tt, w') ->
  (h_next (w_sessions w') = h_next (w_sessions w) /\ forall q, q <> p -> heap_get (w_sessions w') q = heap_get (w_sessions w) q) ->
  exists t, touched p s false t w w' /\ forall s', heap_get (w_sessions w') p = Some s' -> fd s' = fd s /\ echo_ok R S s' /\ answered_by p s' (w_trace w ++ t).
Proof using All.
  intros Hw Hs Hd r Hr Hfits Hrun [Hnext Hbes]. destruct (ev_session D w Hw p s Hs Hd) as (Hok&Hop&Hcr&cs&Hsub&Hall&Hcat).
  destruct (recv_law (w_kernel w) (fd s) R ltac:(lia) Hr) as [Hle Hdl]. fold r in Hle, Hdl.
  pose proof (echo_readable R S HR HS echo_session fuel procIdx pfd p s w (sr_data r) (conj (fun _ _ => eq_refl) (fun _ => eq_refl)) Hs Hok (ev_config D w Hw)
    eq_refl Hdl ltac:(lia)) as Hwp.
  destruct (wp_Ok _ _ _ Hwp) as ([]&w2&Hrun2&He&Hk&(s'&Hs'&Hf'&Hok'&Hsb)&r2&HT). assert (w2 = w') as -> by congruence.
  set (t := [_; _; _; _]) in HT. assert (Hch : chunks_of p t = [sr_data r]) by (unfold chunks_of; cbn; by rewrite decide_True).
  exists t. split.
  - split; [done..| | | |].
    + intros f _ Hf. rewrite Hk. by stays_open.
    + intros q Hq. unfold chunks_of. cbn. by rewrite decide_False.
    + intros f _. apply sent_none. by repeat constructor.
    + intros q. unfold t. set_solver.
  - intros s2 Hs2. assert (s2 = s') as -> by congruence. split_and!; [done|done|]. destruct Hok as (_&_&Hwf). pose proof (push_cases S HS (sendBuffer s) (sr_data r) Hwf) as Hc.
    unfold answered_by. rewrite Hf', Hsb, chunks_of_app, Hch, since_app, sent_on_app by done. rewrite (sent_none (fd s) t), app_nil_r by (by repeat constructor).
    destruct (push S (sendBuffer s) (sr_data r)) as [ok sb] eqn:Ep. cbn [fst snd] in *. destruct Hc as (_&->&_). destruct ok.
    + exists (cs ++ [sr_data r]). rewrite concat_app, app_assoc, Hcat. cbn. rewrite app_nil_r.
      split_and!; [by apply sublist_app|intros Hl; by rewrite Hall|done].
    + exists cs. rewrite app_nil_r. split_and!; [by apply sublist_inserts_r|intros Hl; by specialize (Hfits Hl)|done].
Qed.

(** Room in the socket: what [send] took leaves the buffer. *)
Lemma service_room D p s w w' : echo_srv D w -> heap_get (w_sessions w) p = Some s -> p ∉ D -> handle_writable p w = (Ok tt, w') ->
  (h_next (w_sessions w') = h_next (w_sessions w) /\ forall q, q <> p -> heap_get (w_sessions w') q = heap_get (w_sessions w) q) ->
  exists t, touched p s false t w w' /\ forall s', heap_get (w_sessions w') p = Some s' -> fd s' = fd s /\ echo_ok R S s' /\ answered_by p s' (w_trace w ++ t).
Proof using All.
  intros Hw Hs Hd Hrun [Hnext Hbes]. destruct (ev_session D w Hw p s Hs Hd) as (Hok&Hop&Hcr&cs&Hsub&Hall&Hcat).
  pose proof (echo_writable R S HS p s w Hs Hok) as Hwp.
  destruct (wp_Ok _ _ _ Hwp) as ([]&w2&Hrun2&He&Hk&Hm1&(s'&Hs'&Hf'&Hok'&_&Hc)&r2&HT). assert (w2 = w') as -> by congruence.
  set (t := [_; _]) in HT. assert (Hch : forall q, chunks_of q t = []) by (intros q; apply chunks_none; by repeat constructor).
  exists t. split.
  - split; [done..| | | |].
    + intros f _ Hf. rewrite Hk. by stays_open.
    + intros q _. apply Hch.
    + intros f Hf. unfold t, sent_on. cbn. destruct (Z.eqb_spec (fd s) f); [congruence|done].
    + intros q. unfold t. set_solver.
  - intros s2 Hs2. assert (s2 = s') as -> by congruence. split_and!; [done|done|]. exists cs. rewrite Hf', Hc, chunks_of_app, Hch, app_nil_r, since_app, sent_on_app by done.
    split_and!; [done|done|]. rewrite <- Hcat, <- app_assoc. f_equal. unfold t, sent_on. cbn. rewrite Z.eqb_refl. cbn. rewrite app_nil_r. apply take_drop.
Qed.

Definition end_event (e : trace_event) : Prop := match e with TSys (Sys_send _ _) _ | TChunk _ _ | TCreate _ => False | _ => True end.

Lemma end_events t : Forall end_event t -> (forall q, chunks_of q t = []) /\ (forall f, sent_on f t = []) /\ forall q, TCreate q ∉ t.
Proof using.
  clear. intros Ht. split_and!.
  - intros q. apply chunks_none. eapply Forall_impl; [exact Ht|]. by intros [].
  - intros f. apply sent_none. eapply Forall_impl; [exact Ht|]. by intros [[]| | | | | | | | |].
  - intros q Hq. apply (proj1 (Forall_forall _ _) Ht _ Hq).
Qed.

(** The first part of the end: the descriptor is closed, the session is still there. *)
Lemma event_closes fuel procIdx pfd ev p e w o w' D : echo_srv D w -> p ∉ D -> event_ends ev w = Some (p, e) ->
  event_cut fuel procIdx pfd ev w = (Ok o, w') ->
  o = Some (p, e) /\ exists s t, heap_get (w_sessions w) p = Some s /\ touched p s true t w w'.
Proof using All.
  intros Hw Hd He Hrun. unfold event_cut in Hrun. rewrite He in Hrun. unfold event_ends in He. destruct (ev_data ev) as [|[q|]]; try done.
  destruct (heap_get (w_sessions w) q) as [s|] eqn:Hs; [|done]. cbn in He. assert (q = p) as -> by (repeat case_match; congruence). clear He.
  assert (Hwp : wp (let* s := session p in
       (match e with EndRead => sys_ignore (Sys_recv (fd s) (recv_size R s)) | EndError => ret tt end) ;;
       sys_ignore (Sys_epoll_ctl pfd EPOLL_CTL_DEL (fd s) None) ;; sys_ignore (Sys_close (fd s)) ;; ret (Some (p, e)))%tn
    (fun o w' => o = Some (p, e) /\ w_env w' = w_env w /\ w_sessions w' = w_sessions w /\
       (forall f, f <> fd s -> fd_open (w_kernel w) f -> fd_open (w_kernel w') f) /\ exists t, Forall end_event t /\ w_trace w' = w_trace w ++ t) w).
  { wp_steps. destruct e; wp_steps; (split_and!; [done|done|done| |]).
    - intros f Hf Ho. cbn. by stays_open.
    - eexists. cbn. rewrite <- !app_assoc. split; [|reflexivity]. by repeat constructor.
    - intros f Hf Ho. cbn. by stays_open.
    - eexists. cbn. rewrite <- !app_assoc. split; [|reflexivity]. by repeat constructor. }
  destruct (wp_Ok _ _ _ Hwp) as (o2&w2&Hrun2&Ho&E&Hh&Hop&t&Ht&HT). assert (w2 = w') as -> by congruence. assert (o2 = o) as -> by congruence.
  split; [done|]. exists s, t. split; [done|]. destruct (end_events t Ht) as (E1&E2&E3). split; rewrite ?Hh; auto. intros f [Hf|[=]]. by apply Hop.
Qed.

(** The rest of it: the session goes. *)
Lemma end_part_inv p e w w' D D' : echo_srv D w -> (forall q, q <> p -> q ∉ D' -> q ∉ D) -> end_part p e w = (Ok tt, w') -> echo_srv D' w'.
Proof using All.
  intros Hw HD Hrun. pose proof (ev_factory D w Hw) as Hf.
  assert (Hs : exists s, heap_get (w_sessions w) p = Some s).
  { destruct (heap_get (w_sessions w) p) as [s|] eqn:Hs; [by exists s|]. exfalso. unfold end_part in Hrun. destruct e; unfold bind, emit, gets, callback_on, session, deref, factory_release, SessionFactory_release, heap_delete, ret in Hrun; unfold heap_get in Hs; cbn in Hrun; rewrite ?Hs, ?Hf in Hrun; cbn in Hrun; rewrite ?Hs in Hrun; done. }
  destruct Hs as [s Hs].
  assert (Hwp : wp (end_part p e) (fun _ w' => w_env w' = w_env w /\ w_kernel w' = w_kernel w /\ h_next (w_sessions w') = h_next (w_sessions w) /\
     heap_get (w_sessions w') p = None /\ (forall q, q <> p -> heap_get (w_sessions w') q = heap_get (w_sessions w) q) /\
     exists t, Forall end_event t /\ w_trace w' = w_trace w ++ t) w).
  { unfold end_part. destruct e; wp_steps; [unfold callback_on; cbn [echo_session on_disconnect run_callback]; wp_steps|]; cbn [w_env processor]; rewrite Hf; wp_steps;
      (eapply wp_release; [exact Hs|]); wp_steps; (split_and!; [done|done|done|unfold heap_get; cbn; apply lookup_delete_eq| |]).
    - intros q Hq. unfold heap_get. cbn. by rewrite lookup_delete_ne.
    - eexists. cbn. rewrite <- !app_assoc. split; [|reflexivity]. cbn. constructor; [done|]. constructor; [done|]. by destruct (p_evtHandler _); repeat constructor.
    - intros q Hq. unfold heap_get. cbn. by rewrite lookup_delete_ne.
    - eexists. cbn. rewrite <- ?app_assoc. split; [|reflexivity]. by repeat constructor. }
  destruct (wp_Ok _ _ _ Hwp) as ([]&w2&Hrun2&E&Hk&Hn&Hnone&Hbes&t&Ht&HT). assert (w2 = w') as -> by congruence. clear Hwp Hrun Hrun2.
  destruct (end_events t Ht) as (E1&E2&E3). destruct Hw.
  assert (Hlive : forall q s', heap_get (w_sessions w') q = Some s' -> q <> p /\ heap_get (w_sessions w) q = Some s').
  { intros q s' Hq. destruct (decide (q = p)) as [->|Hne]; [congruence|]. split; [done|]. by rewrite <- Hbes. }
  split; rewrite ?E, ?Hk; try done.
  - unfold plain_config. by rewrite E.
  - intros q s' Hq. rewrite Hn. destruct (Hlive q s' Hq). by eapply ev_wf0.
  - intros q s' Hq Hqd. destruct (Hlive q s' Hq) as [Hne Hq']. destruct (ev_session0 q s' Hq' (HD q Hne Hqd)) as (?&?&?&?). rewrite HT.
    split_and!; [done|done|set_solver|]. by apply answered_silent.
  - intros q1 q2 s1 s2 H1 H2 D1 D2 Hff. destruct (Hlive q1 s1 H1), (Hlive q2 s2 H2). eapply ev_apart0; eauto.
  - intros q Hq. rewrite Hn in Hq. destruct (ev_fresh0 q Hq) as [Hc Hcr]. rewrite HT, chunks_of_app, Hc, E1. split; [done|]. intros Hin. apply elem_of_app in Hin as [|]; [done|by eapply E3].
Qed.

(** Any other event. *)
Lemma event_goes_on D fuel procIdx pfd evs p s w w' : echo_srv D w -> heap_get (w_sessions w) p = Some s -> p ∉ D ->
  let ev := mk_epoll_event evs (DPtr (Some p)) in
  (lossless = true -> answer_fits ev w) -> event_ends ev w = None ->
  handle_event R S echo_session false (Datatypes.S fuel) procIdx pfd ev w = (Ok tt, w') -> echo_srv D w'.
Proof using All.
  intros Hw Hs Hd ev Hfits Hends Hrun. pose proof (event_beside _ _ _ _ _ _ _ _ Hrun) as Hbes. destruct (ev_session D w Hw p s Hs Hd) as ((Hpos&_)&_&Hcr&Hans).
  enough (exists t, touched p s false t w w' /\ forall s', heap_get (w_sessions w') p = Some s' -> fd s' = fd s /\ echo_ok R S s' /\ answered_by p s' (w_trace w ++ t)) as (t&Ht&Ho).
  { eapply (touched_inv p s false t w w' D D); try done. intros s' Hs' _. split; [done|]. by apply Ho. }
  unfold event_ends, handle_event in *. cbn [ev ev_data ev_events] in *. rewrite Hs in Hends. cbn [mbind option_bind] in Hends.
  destruct (_ =? EPOLLIN); [|destruct (_ =? EPOLLOUT); [by eapply service_room|destruct (_ =? EPOLLERR); [done|]]].
  - assert (Hsz : recv_size R s = R) by (unfold recv_size; lia). rewrite Hsz in Hends.
    destruct (Z.leb_spec (sr_ret (sys (Sys_recv (fd s) R) (w_kernel w)).1) 0) as [|Hr]; [done|].
    eapply service_data; [done|done|done|lia| |done|done]. intros Hl. by apply (Hfits Hl p s); [done|done|lia].
  - assert (Hwp : wp (handle_other (U:=unit) pfd p) (fun _ w' => exists r, w_env w' = w_env w /\ w_sessions w' = w_sessions w /\
      w_kernel w' = (sys (Sys_epoll_ctl pfd EPOLL_CTL_DEL (fd s) None) (w_kernel w)).2 /\ w_trace w' = w_trace w ++ [TSys (Sys_epoll_ctl pfd EPOLL_CTL_DEL (fd s) None) r]) w).
    { unfold handle_other. wp_steps. by eexists. }
    destruct (wp_Ok _ _ _ Hwp) as ([]&w2&Hrun2&r&He&Hh&Hk&HT). assert (w2 = w') as -> by congruence.
    destruct (end_events [TSys (Sys_epoll_ctl pfd EPOLL_CTL_DEL (fd s) None) r]) as (E1&E2&E3); [by repeat constructor|].
    exists [TSys (Sys_epoll_ctl pfd EPOLL_CTL_DEL (fd s) None) r]. split.
    + split; rewrite ?Hh; try done; auto. intros f _ Hf. rewrite Hk. by apply call_keeps_open; [intros [?|[?|?]]; congruence|].
    + intros s' Hs'. rewrite Hh in Hs'. assert (s' = s) as -> by congruence. split_and!; [done|by apply (ev_session D w Hw p s Hs Hd)|]. by apply answered_silent.
Qed.

(** ** A new connection *)

(** Nothing but calls. *)
Definition waited (w w' : W) : Prop :=
  w_env w' = w_env w /\ w_sessions w' = w_sessions w /\ (forall f, fd_open (w_kernel w) f -> fd_open (w_kernel w') f) /\
  exists t, Forall end_event t /\ w_trace w' = w_trace w ++ t.

(** A new session for the descriptor [f]. *)
Definition made (f : Z) (w w' : W) : Prop :=
  let p := h_next (w_sessions w) in
  w_env w' = w_env w /\ ~ fd_open (w_kernel w) f /\ fd_open (w_kernel w') f /\
  (forall g, fd_open (w_kernel w) g -> fd_open (w_kernel w') g) /\
  h_next (w_sessions w') = Pos.succ p /\ (forall q, q <> p -> heap_get (w_sessions w') q = heap_get (w_sessions w) q) /\
  (exists s, heap_get (w_sessions w') p = Some s /\ fd s = f /\ echo_ok R S s /\ contents (sendBuffer s) = []) /\
  exists t1 t2, Forall end_event t1 /\ Forall end_event t2 /\ w_trace w' = w_trace w ++ t1 ++ TCreate p :: t2.

Lemma waited_inv D w w' : echo_srv D w -> waited w w' -> echo_srv D w'.
Proof using All.
  intros [] (He&Hh&Ho&t&Ht&HT). destruct (end_events t Ht) as (E1&E2&E3). split; rewrite ?He, ?Hh; try done.
  - unfold plain_config. by rewrite He.
  - intros p s Hs Hd. destruct (ev_session0 p s Hs Hd) as (?&?&?&?). rewrite HT. split_and!; [done|by apply Ho|set_solver|]. by apply answered_silent.
  - intros p Hp. destruct (ev_fresh0 p Hp) as [Hc Hcr]. rewrite HT, chunks_of_app, Hc, E1. split; [done|]. intros Hin. apply elem_of_app in Hin as [|]; [done|by eapply E3].
Qed.

Lemma made_inv D f w w' : echo_srv D w -> made f w w' -> echo_srv D w'.
Proof using All.
  intros [] (He&Hno&Hf&Ho&Hn&Hbes&(s&Hs&Hfd&Hok&Hcont)&t1&t2&Ht1&Ht2&HT). set (p := h_next (w_sessions w)) in *.
  destruct (end_events t1 Ht1) as (A1&A2&A3), (end_events t2 Ht2) as (B1&B2&B3). destruct (ev_fresh0 p ltac:(lia)) as [Hpc Hpcr].
  assert (Hch : forall q, chunks_of q (t1 ++ TCreate p :: t2) = []).
  { intros q. rewrite chunks_of_app, A1. cbn. change (chunks_of q (TCreate p :: t2)) with (chunks_of q t2). apply B1. }
  assert (Hsn : forall g, sent_on g (t1 ++ TCreate p :: t2) = []).
  { intros g. rewrite sent_on_app, A2. cbn. change (sent_on g (TCreate p :: t2)) with (sent_on g t2). apply B2. }
  assert (Hcase : forall q s', heap_get (w_sessions w') q = Some s' -> q = p /\ s' = s \/ q <> p /\ heap_get (w_sessions w) q = Some s').
  { intros q s' Hq. destruct (decide (q = p)) as [->|Hne]; [left; split; congruence|right; by rewrite Hbes in Hq]. }
  assert (Hold : forall q s', heap_get (w_sessions w) q = Some s' -> q ∉ D -> fd s' <> f).
  { intros q s' Hq Hd Heq. apply Hno. rewrite <- Heq. by apply (ev_session0 q s' Hq Hd). }
  split; rewrite ?He; try done.
  - unfold plain_config. by rewrite He.
  - intros q s' Hq. rewrite Hn. destruct (Hcase q s' Hq) as [[-> _]|[_ Hq']]; [lia|]. apply ev_wf0 in Hq'. unfold p. lia.
  - intros q s' Hq Hqd. rewrite HT. destruct (Hcase q s' Hq) as [[-> ->]|[Hne Hq']].
    + split_and!; [done|congruence|set_solver|]. exists []. rewrite chunks_of_app, Hpc, Hch. rewrite app_assoc, since_new.
      * rewrite B2, Hcont. split_and!; [apply sublist_nil_l|done|done].
      * intros Hin. apply elem_of_app in Hin as [|]; [done|by eapply A3].
    + destruct (ev_session0 q s' Hq' Hqd) as (?&?&?&?). split_and!; [done|by apply Ho|set_solver|]. by apply answered_silent.
  - intros q1 q2 s1 s2 H1 H2 D1 D2 Hff. destruct (Hcase q1 s1 H1) as [[-> ->]|[N1 H1']], (Hcase q2 s2 H2) as [[-> ->]|[N2 H2']]; [done| | |by eapply ev_apart0; eauto].
    + exfalso. apply (Hold q2 s2 H2' D2). congruence.
    + exfalso. apply (Hold q1 s1 H1' D1). congruence.
  - intros q Hq. rewrite Hn in Hq. destruct (ev_fresh0 q ltac:(unfold p in Hq; lia)) as [Hc Hcr]. rewrite HT, chunks_of_app, Hc, Hch. split; [done|].
    intros Hin. apply elem_of_app in Hin as [|Hin]; [done|]. apply elem_of_app in Hin as [|Hin]; [by eapply A3|]. apply elem_of_cons in Hin as [[= ->]|]; [lia|by eapply B3].
Qed.

Lemma waited_refl w : waited w w.
Proof using. clear. split_and!; [done..|]. exists []. by rewrite app_nil_r. Qed.

Lemma waited_call c w : (forall f, ~ closes c f) -> end_event (TSys c (sr_ret (sys c (w_kernel w)).1)) ->
  waited w (after_call c (sys c (w_kernel w)).1 (sys c (w_kernel w)).2 w).
Proof using. intros Hc He. split_and!; [done|done|intros f; by apply call_keeps_open|]. eexists. split; [|done]. by repeat constructor. Qed.

Lemma waited_trans w1 w2 w3 : waited w1 w2 -> waited w2 w3 -> waited w1 w3.
Proof using.
  clear. intros (E1&S1&O1&t1&F1&T1) (E2&S2&O2&t2&F2&T2). split_and!; [congruence|congruence|auto|]. exists (t1 ++ t2).
  rewrite T2, T1, app_assoc. split; [by apply Forall_app|done].
Qed.

Lemma nonblock_waited f w : wlp (setSockNonBlock f) (fun _ w' => waited w w') w.
Proof using.
  unfold setSockNonBlock. wlp_steps. match goal with |- wlp (if ?b then _ else _) _ _ => destruct b end.
  - wlp_steps. by apply waited_call; [intros g [?|[?|?]]|].
  - wlp_steps. eapply waited_trans; apply waited_call; try done; by intros g [?|[?|?]].
Qed.

Lemma wlp_create s (Q : ptr -> W -> Prop) w :
  Q (h_next (w_sessions w)) (mk_world (w_kernel w) (w_errno w) (w_trace w ++ [TCreate (h_next (w_sessions w))])
     (mk_heap (<[h_next (w_sessions w) := s]> (h_cells (w_sessions w))) (Pos.succ (h_next (w_sessions w)))) (w_env w)) -> wlp (factory_create s) Q w.
Proof using. done. Qed.

(** The session of an accepted descriptor, from its constructor to [on_connect]. *)
Lemma open_session (f : Z) (i : nat) (g : EventHandleFunc) w :
  wlp (bind (make_session R S tt false false g) (fun p => bind (session p) (fun s =>
        bind (put_session p (set_peer f None None (OwnListener i) true s)) (fun _ => Scheduler_push S echo_session false p))))
    (fun _ w' => let p := h_next (w_sessions w) in
      w_env w' = w_env w /\ (forall g, fd_open (w_kernel w) g -> fd_open (w_kernel w') g) /\
      h_next (w_sessions w') = Pos.succ p /\ (forall q, q <> p -> heap_get (w_sessions w') q = heap_get (w_sessions w) q) /\
      (exists s, heap_get (w_sessions w') p = Some s /\ fd s = f /\ echo_ok R S s /\ contents (sendBuffer s) = []) /\
      exists t2, Forall end_event t2 /\ w_trace w' = w_trace w ++ TCreate p :: t2) w.
Proof using All.
  unfold make_session, Scheduler_push. wlp_steps. apply wlp_create. wlp_steps. set (p := h_next (w_sessions w)) in *.
  match goal with Hp : Some p = Some ?a |- _ => injection Hp as <- end. set (w1 := mk_world _ _ _ _ _) in *.
  assert (Hs1 : heap_get (w_sessions w1) p = Some (EventHandler_new R S tt)) by (unfold heap_get; cbn; apply lookup_insert_eq).
  repeat match goal with Hs : heap_get (w_sessions w1) p = Some ?s |- _ => is_var s; assert (s = EventHandler_new R S tt) as -> by congruence; clear Hs end.
  set (sn := set_peer f None None (OwnListener i) true (EventHandler_new R S tt)) in *.
  match goal with Hs : heap_get _ p = Some ?s |- _ => is_var s; assert (s = sn) as -> by (unfold heap_get in Hs; cbn in Hs; rewrite lookup_insert_eq in Hs; congruence); clear Hs end.
  match goal with |- wlp (if ?b then _ else _) _ _ => destruct b; [exact I|] end. wlp_steps. unfold callback_on. cbn [echo_session on_connect run_callback]. wlp_steps.
  cbv zeta. fold p. split_and!; [done| |done| | |].
  - intros x Hx. cbn. by stays_open.
  - intros q Hq. unfold heap_get. cbn. by rewrite !lookup_insert_ne.
  - eexists. split; [unfold heap_get; cbn; apply lookup_insert_eq|]. split_and!; [done| |by apply contents_init].
    split_and!; [done|cbn [recvBuf set_procFd sn set_peer EventHandler_new]; rewrite length_replicate; lia|by apply SendBuffer_init_wf].
  - eexists. cbn. rewrite <- !app_assoc. split; [|reflexivity]. by repeat constructor.
Qed.

Lemma accept_made i l w : wlp (accept_connection R S echo_session tt false false i l) (fun _ w' => waited w w' \/ exists f, made f w w') w.
Proof using All.
  unfold accept_connection. apply wlp_bind, wlp_sys_ret. pose proof (accept_opens (w_kernel w) (lisFd l)) as Hopen. set (c := Sys_accept (lisFd l)) in *.
  set (r := (sys c (w_kernel w)).1) in *. set (w1 := after_call _ _ _ w). assert (H1 : waited w w1) by (by apply waited_call; [intros g [?|[?|?]]|]).
  destruct (Z.ltb_spec (sr_ret r) 0) as [Hneg|Hpos].
  - wlp_steps. match goal with |- wlp (if ?b then _ else _) _ _ => destruct b end; wlp_steps. by left.
  - destruct (Hopen Hpos) as [Hno Hop]. apply wlp_bind. eapply wlp_mono; [apply nonblock_waited|]. intros [] w2 H2. cbv beta.
    eapply wlp_mono; [apply open_session|]. cbv beta zeta. intros [] w3 (E3&O3&N3&B3&Hs3&t3&F3&T3). right. exists (sr_ret r).
    destruct (waited_trans _ _ _ H1 H2) as (E2&S2&O2&t2&F2&T2). rewrite S2 in N3, B3, Hs3, T3. unfold made. cbv zeta.
    split_and!; [congruence|done| |auto|done|done|done|].
    + apply O3. by apply H2.
    + exists t2, t3. split_and!; [done|done|]. by rewrite T3, T2, <- app_assoc.
Qed.

Lemma echo_service_inv y y' : echo_srv (es_dying y).*1 (es_world y) -> echo_service lossless y y' -> echo_srv (es_dying y').*1 (es_world y').
Proof using All.
  intros Hw Hst. destruct Hst as [w w' D fuel procIdx pfd ev o Hd Hfits Hrun|w w' D1 D2 p e Hrun|w w' D i l Hrun]; cbn [es_world es_dying] in *.
  - destruct (event_ends ev w) as [[p e]|] eqn:He.
    + assert (Hp : ev_data ev = DPtr (Some p)).
      { unfold event_ends in He. destruct (ev_data ev) as [|[q|]]; try done. destruct (heap_get (w_sessions w) q); [|done]. cbn in He. repeat case_match; congruence. }
      destruct (event_closes _ _ _ _ _ _ _ _ _ _ Hw (Hd p Hp) He Hrun) as (->&s&t&Hs&Ht).
      eapply (touched_inv p s true t w w' D.*1); [done|done|by apply Hd|done| |]; cbn; [set_solver|]. intros s' _ Hn. set_solver.
    + unfold event_cut in Hrun. rewrite He in Hrun. unfold bind in Hrun.
      destruct (handle_event R S echo_session false (Datatypes.S fuel) procIdx pfd ev w) as [[[]| | | | |] w1] eqn:Hev; try done. injection Hrun as <- <-.
      destruct ev as [evs [|[p|]]]; [done| |cbn in Hev; by injection Hev as <-]. destruct (handle_event_live _ _ _ _ _ _ _ _ _ _ Hev) as [s Hs].
      eapply event_goes_on; try done. by apply Hd.
  - eapply end_part_inv; [done| |done]. intros q Hq. rewrite !fmap_app. cbn. set_solver.
  - destruct (wlp_Ok _ _ _ _ _ (accept_made i l w) Hrun) as [|[f Hf]]; [by eapply waited_inv|by eapply made_inv].
Qed.
End Many.
Arguments echo_sys : clear implicits.
Arguments mk_es {K} _ _.

(** C2. The echo server of test.cpp with any number of clients: in every state it reaches by handling
    events and accepting connections, in any order, with connections that end and descriptors that
    are used again as soon as they are closed, for every session whose end has not begun: the bytes
    sent to its client and those waiting for it are the pieces received from that client alone, in
    order, each whole and none twice; all of them when every answer fitted into the send buffer at
    its time.  No two such sessions share a descriptor. *)
Theorem echo_clients {K} `{Kernel K, !Descriptors K} (lossless : bool) (w0 : world K (EventHandler unit) epoll_env) (y : echo_sys K) :
  KernelLaws K -> plain_config w0 -> factory (processor (w_env w0)) = true -> w_sessions w0 = heap_empty -> Forall end_event (w_trace w0) ->
  rtc (echo_service ServerBufSize ServerBufSize lossless) (mk_es w0 []) y ->
  let w := es_world y in
  forall p s, heap_get (w_sessions w) p = Some s -> p ∉ (es_dying y).*1 ->
  (exists cs, cs `sublist_of` chunks_of p (w_trace w) /\ (lossless = true -> cs = chunks_of p (w_trace w)) /\
     sent_on (fd s) (since p (w_trace w)) ++ contents (sendBuffer s) = concat cs) /\
  forall q s', heap_get (w_sessions w) q = Some s' -> q ∉ (es_dying y).*1 -> fd s' = fd s -> q = p.
Proof.
  intros HK Hcfg Hfac Hheap Htr Hr w p s Hs Hd. assert (HB : 0 < ServerBufSize <= INT_MAX) by (unfold ServerBufSize, INT_MAX; lia).
  assert (Hw : echo_srv ServerBufSize ServerBufSize lossless (es_dying y).*1 w).
  { unfold w. revert Hr. apply (rtc_invariant _ (fun y => echo_srv ServerBufSize ServerBufSize lossless (es_dying y).*1 (es_world y)));
      [intros a b; by apply echo_service_inv|]. destruct (end_events _ Htr) as (E1&E2&E3).
    split; cbn [es_world]; [done|done| | | |by auto]; rewrite Hheap; [apply heap_empty_wf|by intros ? ? [=]|by intros ? ? ? ? [=]]. }
  split; [by apply (ev_session _ _ _ _ w Hw p s Hs Hd)|]. intros q s' Hq Hqd Hf. by eapply (ev_apart _ _ _ _ w Hw).
Qed.

(** ** A concrete run *)

(** A kernel with a table of open descriptors that answers from a script. *)
Record fd_kernel := mk_fdk { fk_open : gset Z; fk_script : script }.

Definition fd_close (f : Z) (k : fd_kernel) : sysret * fd_kernel := (sys_result 0, mk_fdk (fk_open k ∖ {[f]}) (fk_script k)).

#[export] Instance fd_kernel_sys : Kernel fd_kernel := fun c k =>
  match c with
  | Sys_close f | Sys_closesocket f | Sys_closehandle f => fd_close f k
  | Sys_accept _ =>
      let '(r, s) := sys c (fk_script k) in
      if decide (sr_ret r ∈ fk_open k) then (sys_error 24, mk_fdk (fk_open k) s) else (r, mk_fdk (fk_open k ∪ {[sr_ret r]}) s)
  | _ => let '(r, s) := sys c (fk_script k) in (r, mk_fdk (fk_open k) s)
  end.

#[export] Instance fd_kernel_laws : KernelLaws fd_kernel.
Proof.
  split; intros k; unfold sys, fd_kernel_sys.
  - intros f len. pose proof (recv_law (fk_script k) f len) as Hl. by destruct (sys (Sys_recv f len) (fk_script k)).
  - intros f data. pose proof (send_law (fk_script k) f data) as Hl. by destruct (sys (Sys_send f data) (fk_script k)).
  - intros f n t. pose proof (epoll_wait_law (fk_script k) f n t) as Hl. by destruct (sys (Sys_epoll_wait f n t) (fk_script k)).
  - intros f n t. pose proof (kevent_wait_law (fk_script k) f n t) as Hl. by destruct (sys (Sys_kevent_wait f n t) (fk_script k)).
Qed.

#[export, refine] Instance fd_descriptors : Descriptors fd_kernel := {| fd_open := fun k f => f ∈ fk_open k |}.
Proof.
  - intros k c f Hc Hf. unfold closes in Hc. unfold sys, fd_kernel_sys. destruct c; try (by destruct (sys _ (fk_script k))).
    + destruct (sys _ (fk_script k)) as [r s]. case_decide; cbn [snd fk_open]; set_solver.
    + cbn [fd_close snd fk_open]. set_solver.
    + cbn [fd_close snd fk_open]. set_solver.
    + cbn [fd_close snd fk_open]. set_solver.
  - intros k l. unfold sys, fd_kernel_sys. destruct (sys _ (fk_script k)) as [r s]. case_decide; cbn [fst snd fk_open sys_error sr_ret]; [lia|set_solver].
Defined.

Abbreviation echo_world := (world fd_kernel (EventHandler unit) epoll_env).

(** An event of a session with the given bits, the rest of the end of the session's connection, or a
    connection for the listener. *)
Inductive echo_move := MvEvent (p : ptr) (bits : Z) | MvEnd (p : ptr) | MvAccept.

Definition echo_listener : Listener := mk_Listener 0 7788 10 4 true true None.

Definition fits_now (p : ptr) (w : echo_world) : bool :=
  match heap_get (w_sessions w) p with
  | Some s =>
      let r := (sys (Sys_recv (fd s) ServerBufSize) (w_kernel w)).1 in
      negb (0 <? sr_ret r) || (push ServerBufSize (sendBuffer s) (sr_data r)).1
  | None => true
  end.

Definition echo_moved (mv : echo_move) (y : echo_sys fd_kernel) : option (echo_sys fd_kernel) :=
  let w := es_world y in
  match mv with
  | MvEvent p bits =>
      if decide (p ∈ (es_dying y).*1) then None
      else if fits_now p w then
        match event_cut ServerBufSize ServerBufSize 1 0 5 (mk_epoll_event bits (DPtr (Some p))) w with
        | (Ok o, w') => Some (mk_es w' (option_list o ++ es_dying y))
        | _ => None
        end
      else None
  | MvEnd p =>
      match es_dying y with
      | (q, e) :: D =>
          if decide (q = p) then match end_part ServerBufSize p e w with (Ok tt, w') => Some (mk_es w' D) | _ => None end else None
      | [] => None
      end
  | MvAccept =>
      match accept_connection ServerBufSize ServerBufSize echo_session tt false false 0 echo_listener w with
      | (Ok tt, w') => Some (mk_es w' (es_dying y))
      | _ => None
      end
  end.

Fixpoint echo_moves (l : list echo_move) (y : echo_sys fd_kernel) : option (echo_sys fd_kernel) :=
  match l with [] => Some y | mv :: l => y ← echo_moved mv y; echo_moves l y end.

Lemma echo_moves_steps l y y' : echo_moves l y = Some y' -> rtc (echo_service ServerBufSize ServerBufSize true) y y'.
Proof.
  revert y. induction l as [|mv l IH]; intros y; cbn [echo_moves]; [by intros [= ->]|].
  destruct (echo_moved mv y) as [y1|] eqn:Hm; [|done]. cbn [mbind option_bind]. intros Hl. eapply rtc_l; [|by apply IH]. unfold echo_moved in Hm.
  destruct y as [w D]. cbn [es_world es_dying] in Hm. destruct mv as [p bits|p|].
  - case_decide as Hd; [done|]. destruct (fits_now p w) eqn:Hf; [|done]. destruct (event_cut _ _ _ _ _ _ _) as [[o| | | | |] w2] eqn:E; try done. injection Hm as <-.
    eapply (es_event ServerBufSize ServerBufSize true w w2 D 0); [| |exact E].
    + by intros p' [= <-].
    + intros _ p' s [= <-] Hs. cbv zeta. intros Hr. unfold fits_now in Hf. rewrite Hs in Hf. cbv zeta in Hf.
      apply orb_true_iff in Hf as [Hf|Hf]; [|done]. apply negb_true_iff, Z.ltb_ge in Hf. lia.
  - destruct D as [|[q e] D]; [done|]. case_decide as Hq; [subst q|done]. destruct (end_part _ _ _ _) as [[[]| | | | |] w2] eqn:E; try done. injection Hm as <-.
    by apply (es_end ServerBufSize ServerBufSize true w w2 [] D p e).
  - destruct (accept_connection _ _ _ _ _ _ _ _ _) as [[[]| | | | |] w2] eqn:E; try done. injection Hm as <-. by eapply es_accept.
Qed.

(** Two clients connect on descriptors 7 and 8 and send "hi" and "yo"; the first is answered and
    leaves; a third one gets its descriptor before the session of the first is released, sends "x"
    and is answered. *)
Definition busy_start : echo_sys fd_kernel :=
  mk_es (mk_world (mk_fdk {[4; 5]}
    [sys_result 7; sys_result (-1); sys_result 0; sys_result 8; sys_result (-1); sys_result 0;
     mk_sysret 2 0 [x68; x69] [] []; sys_result 0; mk_sysret 2 0 [x79; x6f] [] []; sys_result 0;
     sys_result 2; sys_result 0; sys_result 0; sys_result 0;
     sys_result 7; sys_result (-1); sys_result 0; mk_sysret 1 0 [x78] [] []; sys_result 0; sys_result 1; sys_result 0]) 0 [] heap_empty
    (mk_env (mk_Scheduler 3 [5] 1) (Processor_new_with true) [echo_listener] [] Properties_default None)) [].

Definition busy_moves : list echo_move :=
  [MvAccept; MvAccept; MvEvent 1 EPOLLIN; MvEvent 2 EPOLLIN; MvEvent 1 EPOLLOUT; MvEvent 1 EPOLLIN; MvAccept; MvEvent 3 EPOLLIN; MvEvent 3 EPOLLOUT].

Definition busy_end : echo_sys fd_kernel := default busy_start (echo_moves busy_moves busy_start).

Definition session_of (p : ptr) : EventHandler unit := default (EventHandler_new 1 1 tt) (heap_get (w_sessions (es_world busy_end)) p).

Lemma some_default {A} (o : option A) a : match o with Some _ => true | None => false end = true -> o = Some (default a o).
Proof. by destruct o. Qed.

Lemma echo_clients_witness :
  let w := es_world busy_end in
  fd (session_of 1) = 7 /\ fd (session_of 3) = 7 /\ (es_dying busy_end).*1 = [1%positive] /\
  sent_on 7 (w_trace w) = [x68; x69; x78] /\ sent_on 7 (since 3%positive (w_trace w)) = [x78] /\
  (exists cs, cs `sublist_of` chunks_of 3%positive (w_trace w) /\ (true = true -> cs = chunks_of 3%positive (w_trace w)) /\
     sent_on (fd (session_of 3)) (since 3%positive (w_trace w)) ++ contents (sendBuffer (session_of 3)) = concat cs) /\
  forall q s', heap_get (w_sessions w) q = Some s' -> q ∉ (es_dying busy_end).*1 -> fd s' = fd (session_of 3) -> q = 3%positive.
Proof.
  assert (Hr : rtc (echo_service ServerBufSize ServerBufSize true) busy_start busy_end)
    by (apply (echo_moves_steps busy_moves), some_default; vm_compute; reflexivity).
  assert (Hs : heap_get (w_sessions (es_world busy_end)) 3%positive = Some (session_of 3)) by (apply some_default; vm_compute; reflexivity).
  assert (Hd : (es_dying busy_end).*1 = [1%positive]) by (vm_compute; reflexivity).
  split; [vm_compute; reflexivity|]. split; [vm_compute; reflexivity|]. split; [exact Hd|]. split; [vm_compute; reflexivity|]. split; [vm_compute; reflexivity|].
  apply (echo_clients true (es_world busy_start) busy_end fd_kernel_laws); [split; reflexivity|reflexivity|reflexivity|apply Forall_nil_2|exact Hr|exact Hs|].
  rewrite Hd. apply (bool_decide_unpack _). reflexivity.
Defined.
