(* ===== verification/Network.v ===== *)
(** * Client and server together

    client.cpp's session and test.cpp's session at the two ends of a TCP connection.  An end of the
    connection is seen through the interface [TcpEnd]: the bytes that arrived for the process and
    those it handed to the kernel, with the laws of [recv] and [send] on a stream.  The two
    processes and the network move independently; a ring of byte queues ([ring]) is the abstract
    view of the whole.  Neither class looks at the result of [async_send]: an answer the send buffer
    refuses is lost, and the runs record it. *)

From S2P Require Import Prelude Heap NetApi SendBuffer Os EpollSession EpollNet EpollRecv Echo.

(** ** An end of a connection *)

Class TcpEnd (K : Type) := {
  tcp_in : K -> list byte;                 (** arrived, not yet received by the process *)
  tcp_out : K -> list byte;                (** sent by the process, still under way *)
  tcp_deliver : list byte -> K -> K;       (** the network brings bytes *)
  tcp_collect : nat -> K -> K              (** the network takes the first bytes away *)
}.

Class TcpLaws (K : Type) `{Kernel K, TcpEnd K} : Prop := {
  tcp_kernel :: KernelLaws K;
  (** [recv] takes from the front of what arrived, and something if there is something. *)
  tcp_recv : forall k f n, 0 < n ->
    let r := sys (Sys_recv f n) k in
    tcp_out r.2 = tcp_out k /\
    (0 < sr_ret r.1 -> sr_data r.1 = take (Z.to_nat (sr_ret r.1)) (tcp_in k) /\
                       tcp_in r.2 = drop (Z.to_nat (sr_ret r.1)) (tcp_in k)) /\
    (tcp_in k <> [] -> 0 < sr_ret r.1);
  (** [send] takes a prefix. *)
  tcp_send : forall k f d,
    let r := sys (Sys_send f d) k in
    tcp_in r.2 = tcp_in k /\ tcp_out r.2 = tcp_out k ++ take (Z.to_nat (sr_ret r.1)) d;
  tcp_ctl : forall k e o f ev,
    tcp_in (sys (Sys_epoll_ctl e o f ev) k).2 = tcp_in k /\ tcp_out (sys (Sys_epoll_ctl e o f ev) k).2 = tcp_out k;
  tcp_deliver_law : forall d k, tcp_in (tcp_deliver d k) = tcp_in k ++ d /\ tcp_out (tcp_deliver d k) = tcp_out k;
  tcp_collect_law : forall n k, tcp_in (tcp_collect n k) = tcp_in k /\ tcp_out (tcp_collect n k) = drop n (tcp_out k)
}.

(** ** The abstract view *)











#[local] Opaque hello_world.







(** ** The processes *)






Section Process.
Context {K : Type} `{Kernel K, TcpEnd K, !TcpLaws K}.
Context (h : IEventHandler unit) (R S : Z) (p : ptr) (f : Z).
Context (Hh : echoes h) (HR : 0 < R <= INT_MAX) (HS : 0 < S <= INT_MAX).
Local Abbreviation W := (world K (EventHandler unit) epoll_env).




End Process.

(** ** Both processes and the network *)

Section Net.
Context {K : Type} `{Kernel K, TcpEnd K, !TcpLaws K}.
Context (pc ps : ptr) (fc fs : Z).
Local Abbreviation W := (world K (EventHandler unit) epoll_env).
Implicit Types (wc ws : W).

















End Net.

(** ** A refused answer *)

(** It can happen to the greeting: when the socket takes ten of the eleven bytes each time, the tail of
    the client's buffer reaches 61 of 64, and an answer of three bytes is refused. *)
Fixpoint ten_of_eleven (n : nat) (sb : SendBuffer) : SendBuffer :=
  match n with
  | O => sb
  | Datatypes.S n' => ten_of_eleven n' (push ClientSendSize (pop (socket_takes 10) [] sb).1.2 (take 10 hello_world)).2
  end.

Lemma hello_refused :
  let sb := (pop (socket_takes 10) [] (ten_of_eleven 5 (push ClientSendSize (SendBuffer_init ClientSendSize) hello_world).2)).1.2 in
  length (contents sb) = 1%nat /\ dataTail sb = 61 /\ (push ClientSendSize sb [x68; x65; x6c]).1 = false.
Proof. vm_compute. split_and!; reflexivity. Qed.

(** ** A connection that takes everything *)

(** What arrived and what is under way. *)
Definition duplex : Type := list byte * list byte.

#[export] Instance duplex_kernel : Kernel duplex := fun c k =>
  match c with
  | Sys_recv _ n =>
      let d := take (Z.to_nat n) k.1 in
      if zlen d <=? 0 then (sys_error EAGAIN, k) else (mk_sysret (zlen d) 0 d [] [], (drop (Z.to_nat n) k.1, k.2))
  | Sys_send _ d => (sys_result (zlen d), (k.1, k.2 ++ d))
  | Sys_epoll_wait _ n _ | Sys_kevent_wait _ n _ => (mk_sysret (Z.min n (-1)) 4 [] [] [], k)
  | _ => (sys_result 0, k)
  end.

#[export] Instance duplex_end : TcpEnd duplex := {|
  tcp_in := fst; tcp_out := snd;
  tcp_deliver := fun d k => (k.1 ++ d, k.2);
  tcp_collect := fun n k => (k.1, drop n k.2)
|}.

#[export] Instance duplex_kernel_laws : KernelLaws duplex.
Proof.
  split; unfold sys, duplex_kernel.
  - intros k fd len Hlen. destruct (Z.leb_spec (zlen (take (Z.to_nat len) k.1)) 0); cbn; [lia|]. rewrite length_take. lia.
  - intros k fd data. cbn. lia.
  - intros k fd n t. cbn. lia.
  - intros k fd n t. cbn. lia.
Qed.

#[export] Instance duplex_laws : TcpLaws duplex.
Proof.
  split; unfold sys, duplex_kernel; cbn; try done; try apply _.
  - intros [i o] f n Hn. cbn. destruct (Z.leb_spec (zlen (take (Z.to_nat n) i)) 0) as [Hz|Hz]; cbn.
    + split_and!; [done|lia|]. intros Hi. destruct i as [|b i]; [done|]. rewrite length_take in Hz. cbn in Hz. lia.
    + split_and!; [done| |intros; lia]. intros _. rewrite length_take in *. rewrite Nat2Z.id.
      destruct (Nat.min_spec (Z.to_nat n) (length i)) as [[_ ->]|[Hle ->]]; [done|].
      by rewrite !take_ge, !drop_ge by lia.
  - intros [i o] f d. cbn. by rewrite Nat2Z.id, firstn_all.
Qed.











