(* ===== verification/Samples.v ===== *)
(** * samples/epoll.cpp and samples/kqueue.cpp: echo servers on the bare system calls

    Both run in one thread.  [exit_if] of the kqueue sample ends the process: [throw 1]. *)

From S2P Require Import Prelude Heap NetApi Os EpollSession KqueueNet.

(** ** samples/epoll.cpp *)

Definition OPEN_MAX : Z := 10240.

(** The locals of [main]: the descriptors (-1 is free), the largest index used, [ret], and the one
    event the waits write to ([None] before the first). *)
Record ep_locals := mk_ep {
  ep_fd : list Z;
  ep_maxi : Z;
  ep_ret : Z;
  ep_event : option epoll_event
}.

Section EpollSample.
Context {K : Type} `{Kernel K}.
Local Open Scope tinynet_scope.
Local Abbreviation W := (world K unit ep_locals).

Definition ep_update (f : ep_locals -> ep_locals) : M W unit := modify (fun w => set_env (f (w_env w)) w).
Definition ep_set_ret (r : Z) : M W unit := ep_update (fun l => mk_ep (ep_fd l) (ep_maxi l) r (ep_event l)).
Definition ep_set_fd (i v : Z) : M W unit := ep_update (fun l => mk_ep (zset (ep_fd l) i v) (ep_maxi l) (ep_ret l) (ep_event l)).

(** Socket, bind and listen (results ignored), the epoll instance, the registration: [None] when
    [main] returns -1. *)
Definition ep_setup : M W (option (Z * Z)) :=
  let* sockfd := sys_ret Sys_socket in
  sys_ignore (Sys_bind sockfd 0 7777) ;;
  sys_ignore (Sys_listen sockfd 10) ;;
  ep_update (fun l => mk_ep (zset (replicate (Z.to_nat OPEN_MAX) (-1)) 0 sockfd) 0 (ep_ret l) (ep_event l)) ;;
  let* epfd := sys_ret (Sys_epoll_create 10) in
  if epfd =? -1 then ret None
  else
    let* r := sys_ret (Sys_epoll_ctl epfd EPOLL_CTL_ADD sockfd (Some (mk_epoll_event EPOLLIN (DFd sockfd)))) in
    ep_set_ret r ;;
    if r =? -1 then ret None else ret (Some (sockfd, epfd)).

(** [epoll_wait] with room for one event, whatever [maxi + 1] says: a second event is written behind
    it. *)
Definition ep_wait (epfd : Z) : M W epoll_event :=
  let* l := gets w_env in
  let* r := sys_call (Sys_epoll_wait epfd (ep_maxi l + 1) (-1)) in
  ep_set_ret (sr_ret r) ;;
  match sr_events r with
  | [] => deref (ep_event l)
  | [ev] => ep_update (fun l => mk_ep (ep_fd l) (ep_maxi l) (ep_ret l) (Some ev)) ;; ret ev
  | _ => undefined
  end.

(** [EPOLLIN == wait_event.events & m]: the comparison comes first. *)
Definition ep_test (ev : epoll_event) (m : Z) : bool :=
  negb (Z.land (if EPOLLIN =? ev_events ev then 1 else 0) m =? 0).

Definition ep_is (fdv : Z) (ev : epoll_event) : bool :=
  match ev_data ev with DFd f => f =? fdv | DPtr _ => false end.

(** The search for a free slot from [i] on; the index where the loop stopped, or [None] when [main]
    returns -1. *)
Fixpoint ep_store (slots : nat) (i epfd connfd : Z) : M W (option Z) :=
  match slots with
  | O => ret (Some i)
  | S slots' =>
      let* l := gets w_env in
      let* v := deref (zget (ep_fd l) i) in
      if v <? 0 then
        ep_set_fd i connfd ;;
        let* r := sys_ret (Sys_epoll_ctl epfd EPOLL_CTL_ADD connfd (Some (mk_epoll_event EPOLLIN (DFd connfd)))) in
        ep_set_ret r ;;
        if r =? -1 then ret None else ret (Some i)
      else ep_store slots' (i + 1) epfd connfd
  end.

(** [--ret <= 0] *)
Definition ep_last : M W bool :=
  let* l := gets w_env in ep_set_ret (ep_ret l - 1) ;; ret (ep_ret l - 1 <=? 0).

(** The data of one client: an echo, or the end of the connection. *)
Definition ep_client (i f : Z) : M W unit :=
  let* r := sys_call (Sys_recv f 128) in
  let* e := gets w_errno in
  if sr_ret r <? 0 then
    if e =? ECONNRESET then sys_ignore (Sys_close f) ;; ep_set_fd i (-1) else ret tt
  else if sr_ret r =? 0 then sys_ignore (Sys_close f) ;; ep_set_fd i (-1)
  else sys_ignore (Sys_send f (sr_data r)).

Fixpoint ep_clients (n : nat) (i : Z) (ev : epoll_event) : M W unit :=
  match n with
  | O => ret tt
  | S n' =>
      let* l := gets w_env in
      let* f := deref (zget (ep_fd l) i) in
      if f <? 0 then ep_clients n' (i + 1) ev
      else if ep_is f ev && ep_test ev (Z.lor EPOLLIN EPOLLERR) then
        ep_client i f ;;
        let* stop := ep_last in
        if stop then ret tt else ep_clients n' (i + 1) ev
      else ep_clients n' (i + 1) ev
  end.

(** One round of the loop; [false] when [main] returns. *)
Definition ep_round (sockfd epfd : Z) : M W bool :=
  let* ev := ep_wait epfd in
  let rest : M W bool :=
    let* l := gets w_env in ep_clients (Z.to_nat (ep_maxi l)) 1 ev ;; ret true in
  if ep_is sockfd ev && ep_test ev EPOLLIN then
    let* connfd := sys_ret (Sys_accept sockfd) in
    let* o := ep_store (Z.to_nat (OPEN_MAX - 1)) 1 epfd connfd in
    match o with
    | None => ret false
    | Some i =>
        ep_update (fun l => mk_ep (ep_fd l) (if ep_maxi l <? i then i else ep_maxi l) (ep_ret l) (ep_event l)) ;;
        let* stop := ep_last in
        if stop then ret true else rest
    end
  else rest.

Fixpoint ep_loop (rounds : nat) (sockfd epfd : Z) : M W Z :=
  match rounds with
  | O => out_of_fuel
  | S rounds' => let* more := ep_round sockfd epfd in if more then ep_loop rounds' sockfd epfd else ret (-1)
  end.

Definition ep_main (rounds : nat) : M W Z :=
  let* o := ep_setup in
  match o with Some (sockfd, epfd) => ep_loop rounds sockfd epfd | None => ret (-1) end.

(** Data of a client is sent back on the same descriptor; the end of a connection frees its slot. *)
Lemma ep_client_echo i f w :
  let r := (sys (Sys_recv f 128) (w_kernel w)).1 in
  (0 < sr_ret r -> exists w' n, ep_client i f w = (Ok tt, w') /\ w_env w' = w_env w /\
     w_trace w' = w_trace w ++ [TSys (Sys_recv f 128) (sr_ret r); TSys (Sys_send f (sr_data r)) n]) /\
  (sr_ret r = 0 -> exists w' n, ep_client i f w = (Ok tt, w') /\ ep_fd (w_env w') = zset (ep_fd (w_env w)) i (-1) /\
     w_trace w' = w_trace w ++ [TSys (Sys_recv f 128) 0; TSys (Sys_close f) n]).
Proof.
  intros r. split; intros Hr.
  - assert (Hwp : wp (ep_client i f) (fun _ w' => exists n, w_env w' = w_env w /\
      w_trace w' = w_trace w ++ [TSys (Sys_recv f 128) (sr_ret r); TSys (Sys_send f (sr_data r)) n]) w).
    { unfold ep_client. wp_steps. fold r. destruct (Z.ltb_spec (sr_ret r) 0), (Z.eqb_spec (sr_ret r) 0); try lia.
      wp_steps. eexists. split; [done|]. cbn. by rewrite <- app_assoc. }
    destruct (wp_Ok _ _ _ Hwp) as ([]&w'&?&n&?&?). by exists w', n.
  - assert (Hwp : wp (ep_client i f) (fun _ w' => exists n, ep_fd (w_env w') = zset (ep_fd (w_env w)) i (-1) /\
      w_trace w' = w_trace w ++ [TSys (Sys_recv f 128) 0; TSys (Sys_close f) n]) w).
    { unfold ep_client. wp_steps. fold r. rewrite Hr. cbn [Z.ltb Z.eqb Z.compare]. wp_steps. unfold ep_set_fd, ep_update.
      wp_steps. eexists. split; [done|]. cbn. by rewrite Hr, <- app_assoc. }
    destruct (wp_Ok _ _ _ Hwp) as ([]&w'&?&n&?&?). by exists w', n.
Qed.
End EpollSample.

(** ** samples/kqueue.cpp *)

Section KqueueSample.
Context {K : Type} `{Kernel K}.
Local Open Scope tinynet_scope.
Local Abbreviation W := (world K unit unit).

(** [exit_if(b, ...)] *)
Definition exit_if (b : bool) : M W unit := if b then throw 1 else ret tt.

Definition setNonBlock (f : Z) : M W unit :=
  let* flags := sys_ret (Sys_fcntl f F_GETFL 0) in
  exit_if (flags <? 0) ;;
  let* r := sys_ret (Sys_fcntl f F_SETFL (Z.lor flags K_O_NONBLOCK)) in
  exit_if (r <? 0).

Definition kq_updateEvents (efd f events : Z) (modify : bool) : M W unit :=
  let* r := sys_ret (Sys_kevent_change efd (event_changes f (DFd f) events modify)) in
  exit_if (negb (r =? 0)).

Definition kq_handleAccept (efd f : Z) : M W unit :=
  let* cfd := sys_ret (Sys_accept f) in
  exit_if (cfd <? 0) ;;
  let* r := sys_ret (Sys_getpeername cfd) in
  exit_if (r <? 0) ;;
  setNonBlock cfd ;;
  kq_updateEvents efd cfd (Z.lor kReadEvent kWriteEvent) false.

(** The read loop: the result of the read that ended it. *)
Fixpoint kq_echo (fuel : nat) (f : Z) : M W Z :=
  match fuel with
  | O => out_of_fuel
  | S fuel' =>
      let* r := sys_call (Sys_read f 4096) in
      if 0 <? sr_ret r then
        let* n := sys_ret (Sys_write f (sr_data r)) in
        exit_if (n <=? 0) ;;
        kq_echo fuel' f
      else ret (sr_ret r)
  end.

Definition kq_handleRead (fuel : nat) (efd f : Z) : M W unit :=
  let* n := kq_echo fuel f in
  let* e := gets w_errno in
  if (n <? 0) && ((e =? K_EAGAIN) || (e =? K_EWOULDBLOCK)) then ret tt
  else
    exit_if (n <? 0) ;;
    sys_ignore (Sys_close f).

Definition kq_handleWrite (efd f : Z) : M W unit := kq_updateEvents efd f kReadEvent true.

Definition kq_event (fuel : nat) (efd lfd : Z) (ev : kevent) : M W unit :=
  match ke_udata ev with
  | DPtr _ => undefined
  | DFd f =>
      match ke_filter ev with
      | EVFILT_READ => if f =? lfd then kq_handleAccept efd f else kq_handleRead fuel efd f
      | EVFILT_WRITE => kq_handleWrite efd f
      | EVFILT_OTHER => exit_if true
      end
  end.

Definition loop_once (fuel : nat) (efd lfd waitms : Z) : M W unit :=
  let* r := sys_call (Sys_kevent_wait efd 20 waitms) in
  for_each (take (Z.to_nat (sr_ret r)) (sr_kevents r)) (kq_event fuel efd lfd).

Fixpoint kq_loop (rounds fuel : nat) (efd lfd : Z) : M W unit :=
  match rounds with
  | O => out_of_fuel
  | S rounds' => loop_once fuel efd lfd 10000 ;; kq_loop rounds' fuel efd lfd
  end.

Definition kq_main (rounds fuel : nat) : M W unit :=
  let* epollfd := sys_ret Sys_kqueue in
  exit_if (epollfd <? 0) ;;
  let* listenfd := sys_ret Sys_socket in
  exit_if (listenfd <? 0) ;;
  let* r := sys_ret (Sys_bind listenfd 0 7788) in
  exit_if (negb (r =? 0)) ;;
  let* r := sys_ret (Sys_listen listenfd 20) in
  exit_if (negb (r =? 0)) ;;
  setNonBlock listenfd ;;
  kq_updateEvents epollfd listenfd kReadEvent false ;;
  kq_loop rounds fuel epollfd listenfd.

(** What is read is offered to [write] as it is; a connection whose socket cannot take anything at
    the moment ends the whole process. *)
Lemma kq_echo_writes fuel f w :
  let r := (sys (Sys_read f 4096) (w_kernel w)).1 in
  0 < sr_ret r ->
  let w1 := after_call (Sys_read f 4096) r (sys (Sys_read f 4096) (w_kernel w)).2 w in
  let r2 := (sys (Sys_write f (sr_data r)) (w_kernel w1)).1 in
  let w2 := after_call (Sys_write f (sr_data r)) r2 (sys (Sys_write f (sr_data r)) (w_kernel w1)).2 w1 in
  kq_echo (S fuel) f w = (if sr_ret r2 <=? 0 then (Throw 1, w2) else kq_echo fuel f w2).
Proof.
  intros r Hr w1 r2 w2. cbn [kq_echo]. unfold bind at 1, sys_call. fold r. unfold w2, r2, w1, r in *. clear w2 r2 w1 r.
  destruct (sys (Sys_read f 4096) (w_kernel w)) as [r k]. cbn [fst snd] in *. destruct (Z.ltb_spec 0 (sr_ret r)); [|lia].
  rewrite bind_sys_ret. set (w1 := after_call _ r k w). destruct (sys (Sys_write f (sr_data r)) (w_kernel w1)) as [r2 k2].
  cbn [fst snd]. unfold bind, exit_if. by destruct (sr_ret r2 <=? 0).
Qed.
End KqueueSample.
