(* ===== verification/SingleLoop.v ===== *)
(** * test/singleloop.h: the variant with one loop for all sockets

    An older version of the epoll back end: [Processor::start] starts no thread, and the listener's
    thread waits for the listening socket and for all connections on one epoll descriptor.  The
    pool of its [PollEvent] objects comes from "fake_pool.h", which is not in the repository: it is
    the parameter [EventPool] with the laws of [EventPoolLaws], which [ObjectPool] of libs/objects.h
    (whose include line is commented out beside it) keeps.  A pool keeps pointers and does not look
    at the objects: what is in one stays there when it is given back. *)

From S2P Require Import Prelude Heap NetApi Pools Os EpollSession.

(** ** The pool of events *)

Class EventPool (P : Type) := {
  pool_acquire : M P ptr;
  pool_release : ptr -> M P unit;
  pool_size : P -> Z
}.

(** [pool_kept s known kept]: of the objects [known] that were ever handed out, those in [kept] have
    never been given back.  Such an object the pool does not hand out again.  It takes back any it
    once handed out, also one it already has: [release] of libs/objects.h tests nothing, and then
    the object is handed out twice. *)
Class EventPoolLaws (P : Type) `{EventPool P} := {
  pool_kept : P -> gset ptr -> gset ptr -> Prop;
  acquire_law : forall s known kept, pool_kept s known kept ->
    exists p s', pool_acquire s = (Ok p, s') /\ (p ∉ kept) /\
      pool_kept s' ({[p]} ∪ known) (if decide (p ∈ known) then kept else {[p]} ∪ kept);
  release_law : forall s known kept p, pool_kept s known kept -> p ∈ known ->
    exists s', pool_release p s = (Ok tt, s') /\ pool_kept s' known (kept ∖ {[p]})
}.

#[export] Instance deque_event_pool : EventPool DequePool := {|
  pool_acquire := DequePool_acquire;
  pool_release := DequePool_release;
  pool_size := DequePool_size
|}.

(** Nothing in the queue is kept, an object that was never handed out is there once, and new objects
    are new. *)
Definition deque_kept (s : DequePool) (known kept : gset ptr) : Prop :=
  (forall p, p ∈ m_pool s -> p ∉ kept) /\ (kept ⊆ known) /\
  NoDup (filter (fun p => p ∉ known) (m_pool s)) /\
  (forall p, p ∈ m_pool s \/ p ∈ known -> (p < m_next s)%positive) /\ 0 < m_grow s < 2 ^ 31.

Lemma deque_kept_inflate n s known kept : deque_kept s known kept ->
  deque_kept (inflate n s) known kept /\ ((0 < n)%nat \/ m_pool s <> [] -> m_pool (inflate n s) <> []).
Proof.
  revert s. induction n as [|n IH]; intros s Hs; cbn [inflate]; [split; [done|]; intros [?|?]; [lia|done]|].
  destruct (IH (Pools.set_pool (m_pool s ++ [m_next s]) (Pos.succ (m_next s)) s)) as [H1 H2].
  - destruct Hs as (Hd&Hk&Hnd&Hn&Hg). split_and!; cbn; try done; try lia.
    + intros p [Hp| ->%list_elem_of_singleton]%elem_of_app; [by apply Hd|]. intros Ho. specialize (Hn (m_next s) (or_intror (Hk _ Ho))). lia.
    + rewrite filter_app. apply NoDup_app. split_and!; [done| |rewrite filter_cons, filter_nil; case_decide; [apply NoDup_singleton|constructor]].
      intros p [_ Hp]%list_elem_of_filter [_ ->%list_elem_of_singleton]%list_elem_of_filter. specialize (Hn _ (or_introl Hp)). lia.
    + intros p [[Hp| ->%list_elem_of_singleton]%elem_of_app|Hp]; [specialize (Hn p (or_introl Hp)); lia|lia|specialize (Hn p (or_intror Hp)); lia].
  - split; [done|]. intros _. apply H2. right. cbn. by destruct (m_pool s).
Qed.

#[export] Program Instance deque_event_pool_laws : EventPoolLaws DequePool := {| pool_kept := deque_kept |}.
Next Obligation.
  cbn. intros s known kept Hs. unfold DequePool_acquire. set (s1 := match m_pool s with [] => _ | _ => _ end).
  assert (H1 : deque_kept s1 known kept /\ m_pool s1 <> []).
  { pose proof Hs as (_&_&_&_&Hg). unfold s1. destruct (m_pool s) eqn:E; [|by rewrite E]. destruct (deque_kept_inflate (Z.to_nat (u64 (m_grow s))) s known kept Hs) as [Ho Hne].
    split; [done|]. apply Hne. left. rewrite u64_small by lia. lia. }
  clearbody s1. destruct H1 as [(Hd&Hk&Hnd&Hn&Hg) Hne]. destruct (m_pool s1) as [|p l] eqn:E; [done|]. eexists p, _. split; [done|].
  assert (Hl : forall q, q ∈ l -> q ∈ p :: l) by (intros q Hq; by right). split; [apply Hd; by left|]. split_and!; cbn [m_pool m_next m_grow]; [| | | |lia..].
  - intros q Hq. case_decide as Hp; [by apply Hd, Hl|]. rewrite filter_cons, decide_True in Hnd by done. apply NoDup_cons in Hnd as [Hnd _].
    assert (q <> p \/ q = p) as [Hqp| ->] by (destruct (decide (q = p)); auto); [specialize (Hd q (Hl q Hq)); set_solver|].
    exfalso. apply Hnd, list_elem_of_filter. done.
  - case_decide; set_solver.
  - eapply sublist_NoDup; [exact Hnd|]. rewrite filter_cons. transitivity (filter (fun q => q ∉ known) l); [|case_decide; [by constructor|done]].
    clear. induction l as [|q l IH]; [done|]. rewrite !filter_cons. repeat case_decide; try (by constructor); [set_solver|done].
  - intros q Hq. apply Hn. destruct Hq as [Hq|Hq]; [left; by apply Hl|]. apply elem_of_union in Hq as [->%elem_of_singleton|Hq]; [left; by left|by right].
Qed.
Next Obligation.
  cbn. intros s known kept p (Hd&Hk&Hnd&Hn&Hg) Hp. eexists. split; [done|]. split_and!; cbn [m_pool m_next m_grow]; [| | | |lia..].
  - intros q [Hq| ->%list_elem_of_singleton]%elem_of_app; [specialize (Hd q Hq); set_solver|set_solver].
  - set_solver.
  - rewrite filter_app, filter_cons, decide_False by (by intros ?). by rewrite filter_nil, app_nil_r.
  - intros q [[Hq| ->%list_elem_of_singleton]%elem_of_app|Hq]; apply Hn; auto.
Qed.

(** ** State *)

(** [struct PollEvent]; [None] is a member nothing wrote. *)
Record PollEvent := mk_PollEvent { pe_fd : option Z; pe_session : option ptr }.

Inductive IocpEventEnum := SL_EVT_CONNECT | SL_EVT_RECV | SL_EVT_SEND | SL_EVT_DISCONNECT.

(** [EventHandler]: the two buffers are never used and left out; [sl_user] stands for the members
    of a derived class. *)
Record SLHandler (U : Type) := mk_SLHandler {
  sl_iocp : option Z;
  sl_fd : option Z;
  sl_event : option IocpEventEnum;
  sl_srv : option nat;
  sl_ip : option Z;
  sl_port : option Z;
  sl_isPassive : option bool;
  sl_recvBufPos : Z;
  sl_user : U
}.
Arguments mk_SLHandler {U}. Arguments sl_iocp {U}. Arguments sl_fd {U}. Arguments sl_event {U}. Arguments sl_srv {U}.
Arguments sl_ip {U}. Arguments sl_port {U}. Arguments sl_isPassive {U}. Arguments sl_recvBufPos {U}. Arguments sl_user {U}.

Definition SLHandler_new {U} (u : U) : SLHandler U := mk_SLHandler None None None None None None None 0 u.

(** The body of a user's callback: the members of its class, and the operations of a connection. *)
Inductive sl_callback (U : Type) :=
| SLDone
| SLGet (k : U -> sl_callback U)
| SLPut (u : U) (k : sl_callback U)
| SLSend (data : list byte) (k : sl_callback U)
| SLRecv (k : sl_callback U)
| SLClose (k : sl_callback U).
Arguments SLDone {U}. Arguments SLGet {U}. Arguments SLPut {U}. Arguments SLSend {U}. Arguments SLRecv {U}. Arguments SLClose {U}.

(** The virtual functions the loop calls; their default bodies do nothing. *)
Record SLUser (U : Type) := { sl_on_connect : sl_callback U; sl_on_recv : list byte -> sl_callback U }.
Arguments sl_on_connect {U}. Arguments sl_on_recv {U}.

Definition SLUser_default {U} : SLUser U := {| sl_on_connect := SLDone; sl_on_recv := fun _ => SLDone |}.

Record SLScheduler := mk_SLScheduler { sl_scheds : Z; sl_epollFd : Z; sl_procFd : Z }.

Record SLListener := mk_SLListener {
  sl_lis_ip : Z;
  sl_lis_port : Z;
  sl_lis_backlogs : Z;
  sl_lisFd : Z;
  sl_isRunning : option bool
}.

Record SLConnector := mk_SLConnector { sl_con_ip : Z; sl_con_port : Z; sl_con_fd : option Z }.

(** [Environment<T>] and the service.  [sl_events] has the contents of the objects the pool has
    handed out so far. *)
Record sl_env (P : Type) := mk_sl_env {
  sl_scheder : SLScheduler;
  sl_threads : Z;
  sl_maxIdx : Z;
  sl_clients : P;
  sl_events : gmap ptr PollEvent;
  sl_listeners : list SLListener;
  sl_connectors : list SLConnector;
  sl_config : Properties
}.
Arguments mk_sl_env {P}. Arguments sl_scheder {P}. Arguments sl_threads {P}. Arguments sl_maxIdx {P}. Arguments sl_clients {P}.
Arguments sl_events {P}. Arguments sl_listeners {P}. Arguments sl_connectors {P}. Arguments sl_config {P}.

Section SingleLoop.
Context {K U P : Type} `{Kernel K, EventPool P}.
Context (RecvBufSize : Z) (h : SLUser U) (user_init : U) (dbg : bool).
Local Open Scope tinynet_scope.
Abbreviation W := (world K (SLHandler U) (sl_env P)).

Definition sl_update (f : sl_env P -> sl_env P) : M W unit := modify (fun w => set_env (f (w_env w)) w).

Definition sl_throw_errno {A} : M W A := let* e := gets w_errno in throw e.

Definition sl_set_scheder (s : SLScheduler) (e : sl_env P) : sl_env P :=
  mk_sl_env s (sl_threads e) (sl_maxIdx e) (sl_clients e) (sl_events e) (sl_listeners e) (sl_connectors e) (sl_config e).
Definition sl_set_workers (t m : Z) (e : sl_env P) : sl_env P :=
  mk_sl_env (sl_scheder e) t m (sl_clients e) (sl_events e) (sl_listeners e) (sl_connectors e) (sl_config e).
Definition sl_set_pool (c : P) (ev : gmap ptr PollEvent) (e : sl_env P) : sl_env P :=
  mk_sl_env (sl_scheder e) (sl_threads e) (sl_maxIdx e) c ev (sl_listeners e) (sl_connectors e) (sl_config e).
Definition sl_set_listeners (l : list SLListener) (e : sl_env P) : sl_env P :=
  mk_sl_env (sl_scheder e) (sl_threads e) (sl_maxIdx e) (sl_clients e) (sl_events e) l (sl_connectors e) (sl_config e).
Definition sl_set_connectors (l : list SLConnector) (e : sl_env P) : sl_env P :=
  mk_sl_env (sl_scheder e) (sl_threads e) (sl_maxIdx e) (sl_clients e) (sl_events e) (sl_listeners e) l (sl_config e).
Definition sl_set_config (c : Properties) (e : sl_env P) : sl_env P :=
  mk_sl_env (sl_scheder e) (sl_threads e) (sl_maxIdx e) (sl_clients e) (sl_events e) (sl_listeners e) (sl_connectors e) c.

(** ** Scheduler and Processor *)

Definition SLScheduler_start : M W unit :=
  let* e := sys_ret (Sys_epoll_create 10) in
  sl_update (fun v => sl_set_scheder (mk_SLScheduler (sl_scheds (sl_scheder v)) e (sl_procFd (sl_scheder v))) v) ;;
  if e =? -1 then sl_throw_errno
  else
    let* f := sys_ret (Sys_epoll_create 10) in
    sl_update (fun v => sl_set_scheder (mk_SLScheduler (sl_scheds (sl_scheder v)) (sl_epollFd (sl_scheder v)) f) v) ;;
    if f =? -1 then sl_throw_errno else ret tt.

Definition SLScheduler_stop : M W unit :=
  let* v := gets w_env in
  sys_ignore (Sys_close (sl_epollFd (sl_scheder v))) ;;
  sl_update (fun v => sl_set_scheder (mk_SLScheduler (sl_scheds (sl_scheder v)) 16777215 (sl_procFd (sl_scheder v))) v).

(** [push] has only a commented-out body. *)
Definition SLScheduler_push (clt : ptr) : M W unit := ret tt.

(** [threads = 0] before the loop that starts the threads. *)
Definition SLProcessor_start : M W unit :=
  sl_update (sl_set_workers 0 1) ;;
  let* v := gets w_env in
  for_each (seqZ 0 (sl_threads v)) (fun i =>
    let* r := sys_ret (Sys_pthread_create (ProcThread i)) in
    if r =? 0 then ret tt else sl_throw_errno).

(** ** The pool *)

(** The pool leaves the contents of its objects alone, as libs/objects.h does (raw memory, and a
    queue of pointers): a new object has none, one that was given back keeps what it had. *)
Definition clients_acquire : M W ptr := fun w =>
  match pool_acquire (sl_clients (w_env w)) with
  | (Ok p, c) =>
      let e := default (mk_PollEvent None None) (sl_events (w_env w) !! p) in
      (Ok p, set_env (sl_set_pool c (<[p := e]> (sl_events (w_env w))) (w_env w)) w)
  | (_, _) => (Undefined, w)
  end.

Definition clients_release (p : ptr) : M W unit := fun w =>
  match pool_release p (sl_clients (w_env w)) with
  | (Ok _, c) => (Ok tt, set_env (sl_set_pool c (sl_events (w_env w)) (w_env w)) w)
  | (_, _) => (Undefined, w)
  end.

(** [p->...] *)
Definition poll_event (p : ptr) : M W PollEvent := let* v := gets w_env in deref (sl_events v !! p).

Definition set_poll_event (p : ptr) (e : PollEvent) : M W unit :=
  let* _ := poll_event p in
  sl_update (fun v => sl_set_pool (sl_clients v) (<[p := e]> (sl_events v)) v).

(** ** A connection *)

Definition sl_put_fd (p : ptr) (f : Z) : M W unit :=
  let* s := session p in
  put_session p (mk_SLHandler (sl_iocp s) (Some f) (sl_event s) (sl_srv s) (sl_ip s) (sl_port s) (sl_isPassive s)
    (sl_recvBufPos s) (sl_user s)).

Definition sl_launch_send (p : ptr) (pData : list byte) : M W unit :=
  let* s := session p in
  let* f := deref (sl_fd s) in
  sys_ignore (Sys_send f pData).

(** [while ((n = ::read(fd, buf, sizeof buf)) > 0)]: what is read is dropped. *)
Fixpoint read_away (fuel : nat) (f : Z) : M W Z :=
  let* n := sys_ret (Sys_read f 4096) in
  if 0 <? n then match fuel with O => out_of_fuel | S fuel' => read_away fuel' f end else ret n.

Definition sl_launch_recv (fuel : nat) (p : ptr) : M W unit :=
  let* s := session p in
  put_session p (mk_SLHandler (sl_iocp s) (sl_fd s) (Some SL_EVT_RECV) (sl_srv s) (sl_ip s) (sl_port s) (sl_isPassive s)
    (sl_recvBufPos s) (sl_user s)) ;;
  if RecvBufSize <=? sl_recvBufPos s then ret tt
  else
    let* f := deref (sl_fd s) in
    let* n := read_away fuel f in
    let* e := gets w_errno in
    if (n <? 0) && ((e =? EAGAIN) || (e =? EWOULDBLOCK)) then ret tt else sys_ignore (Sys_close f).

Definition sl_launch_close (p : ptr) : M W unit :=
  let* s := session p in
  let* f := deref (sl_fd s) in
  sys_ignore (Sys_close f).

Fixpoint sl_run (fuel : nat) (p : ptr) (c : sl_callback U) : M W unit :=
  match c with
  | SLDone => ret tt
  | SLGet k => let* s := session p in sl_run fuel p (k (sl_user s))
  | SLPut u k =>
      let* s := session p in
      put_session p (mk_SLHandler (sl_iocp s) (sl_fd s) (sl_event s) (sl_srv s) (sl_ip s) (sl_port s) (sl_isPassive s)
        (sl_recvBufPos s) u) ;;
      sl_run fuel p k
  | SLSend data k => sl_launch_send p data ;; sl_run fuel p k
  | SLRecv k => sl_launch_recv fuel p ;; sl_run fuel p k
  | SLClose k => sl_launch_close p ;; sl_run fuel p k
  end.

(** [new T()] *)
Definition new_session : M W ptr := fun w =>
  let '(p, hp) := heap_new (SLHandler_new user_init) (w_sessions w) in
  (Ok p, (emit (TCreate p) (set_sessions hp w)).2).

(** ** The loop *)

(** [EPOLLIN == events & mask] parses as [(EPOLLIN == events) & mask]; both masks have bit 0. *)
Definition in_test (events mask : Z) : bool := negb (Z.land (if EPOLLIN =? events then 1 else 0) mask =? 0).

(** The buffer of the loop: the bytes received, then the zeros of its initialiser. *)
Definition loop_buf : Z := 2048.

(** [printf("%s", buf)] reads up to a zero, which has to be inside the buffer. *)
Definition print_buf (data : list byte) : M W unit :=
  if (zlen data <? loop_buf) || bool_decide (x00 ∈ data) then ret tt else undefined.

(** The connection behind [pe], in [Processor::run] and in [Listener::run]. *)
Definition client_event (fuel : nat) (pe : ptr) (events : Z) : M W unit :=
  if in_test events (Z.lor EPOLLIN EPOLLERR) then
    let* e := poll_event pe in
    let* f := deref (pe_fd e) in
    let* pSession := deref (pe_session e) in
    let* r := sys_call (Sys_recv f loop_buf) in
    let len := sr_ret r in
    if len <? 0 then
      let* en := gets w_errno in
      when (en =? ECONNRESET) (sys_ignore (Sys_close f)) ;;
      clients_release pe
    else if len =? 0 then sys_ignore (Sys_close f) ;; clients_release pe
    else
      emit (TChunk pSession (sr_data r)) ;;
      emit (TRecv pSession (sr_data r)) ;;
      sl_run fuel pSession (sl_on_recv h (sr_data r)) ;;
      print_buf (sr_data r)
  else ret tt.

Definition sl_setnonblocking (sock : Z) : M W unit :=
  let* opts := sys_ret (Sys_fcntl sock F_GETFL 0) in
  if opts <? 0 then ret tt else sys_ignore (Sys_fcntl sock F_SETFL (Z.lor opts O_NONBLOCK)).

(** A new connection; what [accept] returns is not tested. *)
Definition accept_event (fuel : nat) (lisFd efd events : Z) : M W unit :=
  if in_test events EPOLLIN then
    let* connFd := sys_ret (Sys_accept lisFd) in
    let* newEvent := clients_acquire in
    sl_setnonblocking connFd ;;
    let* e := poll_event newEvent in
    set_poll_event newEvent (mk_PollEvent (Some connFd) (pe_session e)) ;;
    let* r := sys_ret (Sys_epoll_ctl efd EPOLL_CTL_ADD connFd
                (Some (mk_epoll_event (Z.lor EPOLLIN EPOLLERR) (DPtr (Some newEvent))))) in
    if r =? -1 then clients_release newEvent ;; sl_throw_errno
    else
      let* clt := new_session in
      let* e := poll_event newEvent in
      set_poll_event newEvent (mk_PollEvent (pe_fd e) (Some clt)) ;;
      sl_put_fd clt connFd ;;
      emit (TConnect clt) ;;
      sl_run fuel clt (sl_on_connect h)
  else ret tt.

Definition loop_event (fuel : nat) (lisFd efd : Z) (ev : epoll_event) : M W unit :=
  match ev_data ev with
  | DPtr (Some pe) =>
      let* e := poll_event pe in
      let* f := deref (pe_fd e) in
      if lisFd =? f then accept_event fuel lisFd efd (ev_events ev) else client_event fuel pe (ev_events ev)
  | _ => undefined
  end.

(** One round.  A failed wait is not handled: the event of the round before is looked at again
    ([prev]; nothing has written it before the first). *)
Definition loop_round (fuel : nat) (lisFd efd : Z) (prev : option epoll_event) : M W (option epoll_event) :=
  let* r := sys_call (Sys_epoll_wait efd 1 (-1)) in
  let wait_event := if 0 <? sr_ret r then head (sr_events r) else prev in
  let* ev := deref wait_event in
  loop_event fuel lisFd efd ev ;;
  ret wait_event.

Fixpoint listen_rounds (rounds fuel i : nat) (lisFd efd : Z) (prev : option epoll_event) : M W unit :=
  let* v := gets w_env in
  let* l := deref (sl_listeners v !! i) in
  let* running := deref (sl_isRunning l) in
  if negb running then ret tt
  else match rounds with
       | O => out_of_fuel
       | S rounds' => let* ev := loop_round fuel lisFd efd prev in listen_rounds rounds' fuel i lisFd efd ev
       end.

(** The lines before the loop: the listening socket has an event of its own. *)
Definition loop_setup (lisFd efd : Z) : M W ptr :=
  let* pLisEvent := clients_acquire in
  let* e := poll_event pLisEvent in
  set_poll_event pLisEvent (mk_PollEvent (Some lisFd) (pe_session e)) ;;
  let* r := sys_ret (Sys_epoll_ctl efd EPOLL_CTL_ADD lisFd (Some (mk_epoll_event EPOLLIN (DPtr (Some pLisEvent))))) in
  if r =? -1 then sl_throw_errno else ret pLisEvent.

Definition SLListener_run (rounds fuel i : nat) : M W unit :=
  let* v := gets w_env in
  let* l := deref (sl_listeners v !! i) in
  let lisFd := sl_lisFd l in
  let efd := sl_epollFd (sl_scheder v) in
  let* _ := loop_setup lisFd efd in
  listen_rounds rounds fuel i lisFd efd None.

(** [Processor::run], which nothing starts: one round, then the loop without end. *)
Definition proc_round (fuel : nat) (procFd : Z) (prev : option epoll_event) : M W (option epoll_event) :=
  let* v := gets w_env in
  let maxIdx := pool_size (sl_clients v) in
  let* r := sys_call (Sys_epoll_wait procFd (maxIdx + 1) (-1)) in
  let wait_event := if 0 <? sr_ret r then head (sr_events r) else prev in
  let* ev := deref wait_event in
  match ev_data ev with
  | DPtr (Some pe) => let* _ := poll_event pe in client_event fuel pe (ev_events ev)
  | _ => undefined
  end ;;
  ret wait_event.

(** ** Listener, Connector, TCPSever *)

Definition sl_update_listener (i : nat) (f : SLListener -> SLListener) : M W unit :=
  sl_update (fun v => sl_set_listeners (alter f i (sl_listeners v)) v).

Definition sl_htons (port : Z) : Z := port mod 2 ^ 16.

(** The [try] block behind the creation of the socket; a bind that fails returns without closing. *)
Definition sl_bind_and_listen (i : nat) (sock : Z) (l : SLListener) : M W unit :=
  sl_setnonblocking sock ;;
  let* b := sys_ret (Sys_bind sock (sl_lis_ip l) (sl_htons (sl_lis_port l))) in
  if b =? -1 then ret tt
  else
    let* r := sys_ret (Sys_listen sock (sl_lis_backlogs l)) in
    if r =? -1 then sl_throw_errno
    else
      sl_update_listener i (fun l => mk_SLListener (sl_lis_ip l) (sl_lis_port l) (sl_lis_backlogs l) sock (sl_isRunning l)) ;;
      let* t := sys_ret (Sys_pthread_create (ListenThread i)) in
      if t =? -1 then sl_throw_errno else ret tt.

(** [start]; the handler closes the socket and throws on. *)
Definition SLListener_start (i : nat) : M W unit :=
  sl_update_listener i (fun l => mk_SLListener (sl_lis_ip l) (sl_lis_port l) (sl_lis_backlogs l) (sl_lisFd l) (Some true)) ;;
  let* v := gets w_env in
  let* l := deref (sl_listeners v !! i) in
  let* sock := sys_ret Sys_socket in
  if sock =? -1 then sl_throw_errno
  else fun w =>
    match sl_bind_and_listen i sock l w with
    | (Throw e, w') => (sys_ignore (Sys_close sock) ;; throw e) w'
    | r => r
    end.

(** [connect]; neither failure closes the socket, and the new session is pushed nowhere. *)
Definition SLConnector_connect (i : nat) : M W unit :=
  let* s := sys_ret Sys_socket in
  sl_update (fun v => sl_set_connectors (alter (fun c => mk_SLConnector (sl_con_ip c) (sl_con_port c) (Some s)) i (sl_connectors v)) v) ;;
  let* v := gets w_env in
  let* c := deref (sl_connectors v !! i) in
  if s =? -1 then sl_throw_errno
  else
    let* r := sys_ret (Sys_connect s (sl_con_ip c) (sl_htons (sl_con_port c))) in
    if r =? -1 then sl_throw_errno
    else
      let* clt := new_session in
      let* ss := session clt in
      put_session clt (mk_SLHandler (Some (sl_epollFd (sl_scheder v))) (Some s) (Some SL_EVT_CONNECT) (Some i)
        (Some (sl_con_ip c)) (Some (sl_htons (sl_con_port c))) (Some false) (sl_recvBufPos ss) (sl_user ss)) ;;
      SLScheduler_push clt.

Definition sl_normalise (c : Properties) : Properties :=
  mk_Properties (parser c) (reuse c) (app_run c) (if backlogs c <=? 0 then 10 else backlogs c) (scheds c)
    (if threads c <=? 0 then 1 else threads c) (cfg_ptr c).

Definition TCPSever_start : M W unit :=
  sl_update (fun v => sl_set_config (sl_normalise (sl_config v)) v) ;;
  sl_update (fun v => sl_set_scheder (mk_SLScheduler (scheds (sl_config v)) (sl_epollFd (sl_scheder v)) (sl_procFd (sl_scheder v))) v) ;;
  SLScheduler_start ;;
  sl_update (fun v => sl_set_workers (threads (sl_config v)) (sl_maxIdx v) v) ;;
  SLProcessor_start ;;
  let* v := gets w_env in
  for_each (seq 0 (length (sl_listeners v))) SLListener_start ;;
  sys_ignore (Sys_sleep 1000) ;;
  for_each (seq 0 (length (sl_connectors v))) SLConnector_connect.

Definition sl_addListener (ip port : Z) : M W unit :=
  sl_update (fun v => sl_set_listeners (sl_listeners v ++ [mk_SLListener ip port (backlogs (sl_config v)) (-1) None]) v).

Definition sl_addConnector (ip port : Z) : M W unit :=
  sl_update (fun v => sl_set_connectors (sl_connectors v ++ [mk_SLConnector ip port None]) v).
End SingleLoop.
