(* ===== verification/SingleLoopProps.v ===== *)
(** * Theorems about the single loop

    What the loop of test/singleloop.h delivers and what it leaves behind, for every kernel, every
    pool that keeps the law of [EventPool] and every user class. *)

From S2P Require Import Prelude Heap NetApi Pools Os EpollSession SingleLoop.

Section Safe.
Context {K U P : Type}.
Local Abbreviation W := (world K (SLHandler U) (sl_env P)).

(** A full buffer without a zero byte was handed out and is then printed as a string. *)
Definition overread (w : W) : Prop :=
  exists s d, (TRecv s d ∈ w_trace w) /\ loop_buf <= zlen d /\ (x00 ∉ d).

(** A value satisfies [Q]; the thread may end by an exception, a callback may read without end, and
    nothing is undefined but printing a full buffer. *)
Definition safe {A} (m : M W A) (Q : A -> W -> Prop) (w : W) : Prop :=
  match m w with
  | (Ok a, w') => Q a w'
  | (Throw _, _) | (OutOfFuel, _) => True
  | (Undefined, w') => overread w'
  | _ => False
  end.

Lemma safe_wp {A} (m : M W A) Q w : wp m Q w -> safe m Q w.
Proof. unfold wp, safe. by destruct (m w) as [[] ?]. Qed.

Lemma safe_bind {A B} (m : M W A) (k : A -> M W B) Q w : safe m (fun a => safe (k a) Q) w -> safe (bind m k) Q w.
Proof. unfold safe, bind. by destruct (m w) as [[] ?]. Qed.

Lemma safe_mono {A} (m : M W A) (Q Q' : A -> W -> Prop) w : safe m Q w -> (forall a w', Q a w' -> Q' a w') -> safe m Q' w.
Proof. unfold safe. destruct (m w) as [[] ?]; auto. Qed.

Lemma safe_throw {A} e (Q : A -> W -> Prop) w : safe (throw e) Q w.
Proof. done. Qed.
End Safe.

Ltac safe_step :=
  lazymatch goal with
  | |- safe (bind _ _) _ _ => apply safe_bind
  | |- safe (throw _) _ _ => exact I
  | |- safe out_of_fuel _ _ => exact I
  | |- safe (sys_ret _) _ _ => apply safe_wp; wp_step
  | |- safe (sys_ignore _) _ _ => apply safe_wp; wp_step
  | |- safe (sys_call _) _ _ => apply safe_wp; wp_step
  | |- safe (emit _) _ _ => apply safe_wp; wp_step
  | |- safe (gets _) _ _ => apply safe_wp; wp_step
  | |- safe (ret _) _ _ => apply safe_wp; wp_step
  | |- safe (modify _) _ _ => apply safe_wp; wp_step
  end.
Ltac safe_steps := cbv beta iota; repeat (safe_step; cbv beta iota).

(** ** The operations of a connection *)

Section Frame.
Context {K U P : Type} `{Kernel K, EventPool P}.
Context (RecvBufSize : Z).
Local Abbreviation W := (world K (SLHandler U) (sl_env P)).
Implicit Types (w : W).

(** Nothing happened but calls, and only the session [p] changed, which keeps its descriptor. *)
Definition sl_frame (p : ptr) w w' : Prop :=
  w_env w' = w_env w /\ h_next (w_sessions w') = h_next (w_sessions w) /\
  (exists tr, w_trace w' = w_trace w ++ tr /\ Forall (fun e => quiet_event e = true) tr) /\
  (forall q, q <> p -> heap_get (w_sessions w') q = heap_get (w_sessions w) q) /\
  forall s, heap_get (w_sessions w) p = Some s ->
    exists s', heap_get (w_sessions w') p = Some s' /\ sl_fd s' = sl_fd s.

Lemma sl_frame_refl p w : sl_frame p w w.
Proof. split_and!; [done|done|exists []; by rewrite app_nil_r|done|eauto]. Qed.

Lemma sl_frame_trans p w1 w2 w3 : sl_frame p w1 w2 -> sl_frame p w2 w3 -> sl_frame p w1 w3.
Proof.
  intros (E1&N1&(t1&T1&Q1)&O1&S1) (E2&N2&(t2&T2&Q2)&O2&S2). split_and!; [congruence|congruence|..].
  - exists (t1 ++ t2). rewrite T2, T1, <- app_assoc. split; [done|]. by apply Forall_app.
  - intros q Hq. by rewrite O2, O1.
  - intros s Hs. destruct (S1 s Hs) as (s'&Hs'&?). destruct (S2 s' Hs') as (s''&?&?). exists s''. split; congruence.
Qed.

Lemma sl_frame_call p c r k w : sl_frame p w (after_call c r k w).
Proof. split_and!; [done|done|eexists; split; [done|by repeat constructor]|done|eauto]. Qed.

Lemma sl_frame_put p s s' w : heap_get (w_sessions w) p = Some s -> sl_fd s' = sl_fd s ->
  sl_frame p w (set_sessions (mk_heap (<[p := s']> (h_cells (w_sessions w))) (h_next (w_sessions w))) w).
Proof.
  intros Hs Hf. split_and!; [done|done|exists []; by rewrite app_nil_r|..]; unfold heap_get in *; cbn.
  - intros q Hq. by rewrite lookup_insert_ne.
  - intros s0 Hs0. exists s'. rewrite lookup_insert_eq. split; congruence.
Qed.

Lemma read_away_safe fuel p f w0 w : sl_frame p w0 w -> safe (read_away fuel f) (fun _ w' => sl_frame p w0 w') w.
Proof.
  revert w. induction fuel as [|fuel IH]; intros w Hw; cbn [read_away]; safe_steps;
    (destruct (0 <? _); [|safe_steps; eauto using sl_frame_trans, sl_frame_call]); [done|].
  apply IH. eauto using sl_frame_trans, sl_frame_call.
Qed.

(** The session [p] is there, with a descriptor. *)
Definition open_at (p : ptr) w : Prop := exists s f, heap_get (w_sessions w) p = Some s /\ sl_fd s = Some f.

Lemma open_frame p w w' : open_at p w -> sl_frame p w w' -> open_at p w'.
Proof. intros (s&f&Hs&Hf) (_&_&_&_&HS). destruct (HS s Hs) as (s'&?&?). exists s', f. split; congruence. Qed.

Lemma safe_session {A} p (k : SLHandler U -> M W A) Q w : open_at p w ->
  (forall s f, heap_get (w_sessions w) p = Some s -> sl_fd s = Some f -> safe (k s) Q w) -> safe (bind (session p) k) Q w.
Proof. intros (s&f&Hs&Hf) Hk. apply safe_bind, safe_wp. eapply wp_session; eauto. Qed.

Lemma safe_put {A} p s s' (k : unit -> M W A) Q w : heap_get (w_sessions w) p = Some s -> sl_fd s' = sl_fd s ->
  (forall w', sl_frame p w w' -> safe (k tt) Q w') -> safe (bind (put_session p s') k) Q w.
Proof. intros Hs Hf Hk. apply safe_bind, safe_wp. eapply wp_put_session; [done|]. eapply Hk, sl_frame_put; eauto. Qed.

Lemma sl_run_safe fuel p c w : open_at p w -> safe (sl_run RecvBufSize fuel p c) (fun _ w' => sl_frame p w w') w.
Proof.
  cut (forall w0, open_at p w0 -> sl_frame p w0 w -> safe (sl_run RecvBufSize fuel p c) (fun _ w' => sl_frame p w0 w') w).
  { eauto using sl_frame_refl. }
  revert w. induction c as [|k IH|u k IH|d k IH|k IH|k IH]; intros w w0 Ho Hw; pose proof (open_frame _ _ _ Ho Hw) as Hop; cbn [sl_run].
  - by safe_steps.
  - apply safe_session; eauto.
  - apply safe_session; [done|]. intros s f Hs Hf. eapply safe_put; [done|done|]. intros w' Hw'. eauto using sl_frame_trans.
  - apply safe_bind, safe_session; [done|]. intros s f Hs Hf. rewrite Hf. apply safe_bind, safe_wp. eapply wp_deref; [done|].
    safe_steps. apply IH; [done|]. eauto using sl_frame_trans, sl_frame_call.
  - apply safe_bind, safe_session; [done|]. intros s f Hs Hf. eapply safe_put; [done|done|]. intros w' Hw'.
    destruct (RecvBufSize <=? _); [safe_steps; apply IH; eauto using sl_frame_trans|]. rewrite Hf.
    apply safe_bind, safe_wp. eapply wp_deref; [done|]. apply safe_bind.
    eapply safe_mono; [eapply (read_away_safe _ _ _ w0); eauto using sl_frame_trans|]. intros n w1 Hw1. cbv beta in *. safe_steps.
    destruct (_ && _); safe_steps; apply IH; eauto using sl_frame_trans, sl_frame_call.
  - apply safe_bind, safe_session; [done|]. intros s f Hs Hf. rewrite Hf. apply safe_bind, safe_wp. eapply wp_deref; [done|].
    safe_steps. apply IH; [done|]. eauto using sl_frame_trans, sl_frame_call.
Qed.
End Frame.

(** ** The invariant of the loop *)

Section Loop.
Context {K U P : Type} `{Kernel K, EventPool P, !EventPoolLaws P}.
Context (RecvBufSize : Z) (h : SLUser U) (user_init : U) (lisFd efd : Z).
Local Abbreviation W := (world K (SLHandler U) (sl_env P)).
Implicit Types (w : W).

(** Events that say nothing about packets, creation and release. *)
Definition mild (e : trace_event) : bool := match e with TSys _ _ | TSend _ _ _ | TConnect _ => true | _ => false end.

(** What a session was handed is what a [recv] on its own descriptor had just returned. *)
Inductive own_trace (hp : heap (SLHandler U)) : list trace_event -> Prop :=
| own_nil : own_trace hp []
| own_event tr e : own_trace hp tr -> mild e = true \/ (exists s, e = TCreate s) -> own_trace hp (tr ++ [e])
| own_chunk tr f r s ss d : own_trace hp tr -> heap_get hp s = Some ss -> sl_fd ss = Some f ->
    own_trace hp (tr ++ [TSys (Sys_recv f loop_buf) r; TChunk s d; TRecv s d]).

Lemma own_mild hp tr tr' : own_trace hp tr -> Forall (fun e => mild e = true) tr' -> own_trace hp (tr ++ tr').
Proof.
  intros Ho. induction tr' as [|e tr' IH] using rev_ind; intros Hm; [by rewrite app_nil_r|].
  apply Forall_app in Hm as [Hm He]. rewrite app_assoc. apply own_event; [auto|left]. by inversion He.
Qed.

Lemma own_heap hp hp' tr : own_trace hp tr ->
  (forall s ss, heap_get hp s = Some ss -> exists ss', heap_get hp' s = Some ss' /\ sl_fd ss' = sl_fd ss) -> own_trace hp' tr.
Proof.
  intros Ho Hs. induction Ho as [|tr e _ IH He|tr f r s ss d _ IH Hss Hf]; [constructor|by apply own_event|].
  destruct (Hs s ss Hss) as (ss'&Hss'&Hf'). eapply own_chunk; [done|done|congruence].
Qed.

Lemma own_packets hp tr s : own_trace hp tr -> packets_of s tr = chunks_of s tr.
Proof.
  induction 1 as [|tr e _ IH He|tr f r s' ss d _ IH _ _]; [done|..]; rewrite packets_of_app, chunks_of_app, IH; [|done].
  f_equal. destruct He as [He|[s' ->]]; [|done]. by destruct e.
Qed.

(** The object [lis] is the listening socket's and stays with it; every object that was ever handed out,
    given back or not, has a descriptor and the live session of that descriptor, but those in [raw]. *)
Record sl_inv (raw : list ptr) (lis : ptr) w : Prop := {
  si_wf : heap_wf (w_sessions w);
  si_pool : exists kept, pool_kept (sl_clients (w_env w)) (dom (sl_events (w_env w))) kept /\ lis ∈ kept;
  si_lis : sl_events (w_env w) !! lis = Some (mk_PollEvent (Some lisFd) None);
  si_events : forall p e, sl_events (w_env w) !! p = Some e -> (p ∉ raw) ->
    exists f s ss, e = mk_PollEvent (Some f) (Some s) /\ heap_get (w_sessions w) s = Some ss /\ sl_fd ss = Some f;
  si_own : own_trace (w_sessions w) (w_trace w);
  si_live : forall s, TCreate s ∈ w_trace w -> is_Some (heap_get (w_sessions w) s);
  si_kept : forall s, (TRelease s ∉ w_trace w) /\ (TDisconnect s ∉ w_trace w)
}.

Lemma mild_elem e tr : Forall (fun e => mild e = true) tr -> mild e = false -> e ∉ tr.
Proof. intros Ht He Hin. apply (proj1 (Forall_forall _ _) Ht) in Hin. congruence. Qed.

(** Mild events, changes of sessions that keep their descriptors, and no change of the environment. *)
Lemma sl_inv_mild raw lis w w' tr : sl_inv raw lis w -> w_env w' = w_env w -> heap_wf (w_sessions w') ->
  w_trace w' = w_trace w ++ tr -> Forall (fun e => mild e = true) tr ->
  (forall s ss, heap_get (w_sessions w) s = Some ss -> exists ss', heap_get (w_sessions w') s = Some ss' /\ sl_fd ss' = sl_fd ss) ->
  sl_inv raw lis w'.
Proof.
  intros [] He Hwf Ht Hm Hs. split; rewrite ?He, ?Ht; try done.
  - intros p e Hp Hne. destruct (si_events0 p e Hp Hne) as (f&s&ss&->&Hss&Hf). destruct (Hs s ss Hss) as (ss'&?&?).
    exists f, s, ss'. split_and!; congruence.
  - apply own_mild; [|done]. by eapply own_heap.
  - intros s [Hin|Hin]%elem_of_app; [|by eapply mild_elem in Hin]. destruct (si_live0 s Hin) as [ss Hss].
    destruct (Hs s ss Hss) as (?&?&_). eauto.
  - intros s. rewrite !not_elem_of_app. split_and!; [by apply si_kept0|by eapply mild_elem|by apply si_kept0|by eapply mild_elem].
Qed.

Lemma sl_inv_call raw lis w c r k : sl_inv raw lis w -> sl_inv raw lis (after_call c r k w).
Proof. intros Hw. eapply sl_inv_mild; [done|done|apply Hw|done|by repeat constructor|eauto]. Qed.

Lemma sl_frame_wf p w w' : heap_wf (w_sessions w) -> is_Some (heap_get (w_sessions w) p) -> sl_frame p w w' -> heap_wf (w_sessions w').
Proof.
  intros Hwf [s0 Hp] (_&Hn&_&Ho&_) q s Hq. rewrite Hn. destruct (decide (q = p)) as [->|Hne]; [by apply (Hwf p s0)|].
  apply (Hwf q s). specialize (Ho q Hne). unfold heap_get in Ho. congruence.
Qed.

Lemma sl_inv_frame raw lis p w w' : sl_inv raw lis w -> open_at p w -> sl_frame p w w' -> sl_inv raw lis w'.
Proof.
  intros Hw (s0&f&Hs0&Hf) Hfr. assert (Hwf : heap_wf (w_sessions w')) by (eapply sl_frame_wf; [apply Hw|by exists s0|done]).
  destruct Hfr as (He&_&(tr&Ht&Hq)&Ho&Hs). eapply sl_inv_mild; [done|done|done|done| |].
  - eapply Forall_impl; [done|]. by intros [].
  - intros s ss Hss. destruct (decide (s = p)) as [->|Hne]; [by apply Hs|]. rewrite Ho by done. eauto.
Qed.

(** A chunk that is handed out as it is. *)
Lemma sl_inv_chunk raw lis w f r k s ss d : sl_inv raw lis w -> heap_get (w_sessions w) s = Some ss -> sl_fd ss = Some f ->
  let w1 := after_call (Sys_recv f loop_buf) r k w in
  sl_inv raw lis (mk_world (w_kernel w1) (w_errno w1) ((w_trace w1 ++ [TChunk s d]) ++ [TRecv s d]) (w_sessions w1) (w_env w1)).
Proof.
  intros [] Hss Hf w1. split; cbn; try done.
  - rewrite <- !app_assoc. by eapply own_chunk.
  - intros s' Hin. apply si_live0. rewrite !elem_of_app, !list_elem_of_singleton in Hin. naive_solver.
  - intros s'. rewrite !not_elem_of_app, !list_elem_of_singleton. split_and!; try done; by apply si_kept0.
Qed.

(** Giving back a connection's object, for the first time or again. *)
Lemma release_ok raw lis p w : sl_inv raw lis w -> p <> lis -> is_Some (sl_events (w_env w) !! p) ->
  wp (clients_release p) (fun _ w' => sl_inv raw lis w' /\ sl_events (w_env w') = sl_events (w_env w) /\
    w_trace w' = w_trace w /\ w_sessions w' = w_sessions w /\ w_kernel w' = w_kernel w /\
    pool_release p (sl_clients (w_env w)) = (Ok tt, sl_clients (w_env w'))) w.
Proof.
  intros Hw Hne Hp. pose proof Hw as [_ (kept&Hkept&Hlk) _ _ _ _ _].
  destruct (release_law _ _ _ p Hkept) as (c&Hr&Hc); [by apply elem_of_dom|].
  unfold wp, clients_release. rewrite Hr. split_and!; [|done..]. destruct Hw. split; cbn; try done.
  eexists. split; [exact Hc|]. set_solver.
Qed.

(** An object that is taken from the pool is raw: new, or with what it had when it was given back. *)
Lemma acquire_ok lis w : sl_inv [lis] lis w ->
  wp clients_acquire (fun p w' => sl_inv [p; lis] lis w' /\ p <> lis /\ is_Some (sl_events (w_env w') !! p) /\ w_trace w' = w_trace w) w.
Proof.
  intros Hw. pose proof Hw as [_ (kept&Hkept&Hlk) _ _ _ _ _]. destruct (acquire_law _ _ _ Hkept) as (p&c&Ha&Hp&Hc).
  unfold wp, clients_acquire. rewrite Ha. assert (Hne : p <> lis) by (by intros ->).
  split_and!; [|done|cbn; rewrite lookup_insert_eq; by eexists|done]. destruct Hw. split; cbn; try done.
  - rewrite dom_insert_L. eexists. split; [exact Hc|]. case_decide; set_solver.
  - by rewrite lookup_insert_ne.
  - intros q e Hq Hr. rewrite lookup_insert_ne in Hq by set_solver. apply (si_events0 q e); [done|set_solver].
Qed.

(** A write to a raw object. *)
Lemma raw_write_ok p lis e w : sl_inv [p; lis] lis w -> p <> lis -> is_Some (sl_events (w_env w) !! p) ->
  sl_inv [p; lis] lis (set_env (sl_set_pool (sl_clients (w_env w)) (<[p := e]> (sl_events (w_env w))) (w_env w)) w).
Proof.
  intros [] Hne Hp. split; cbn; try done.
  - rewrite dom_insert_lookup_L by done. done.
  - by rewrite lookup_insert_ne.
  - intros q e' Hq Hr. rewrite lookup_insert_ne in Hq by set_solver. apply (si_events0 q e'); [done|set_solver].
Qed.

(** The state in which the raw event has got its new session, with the descriptor in both. *)
Definition attached (p : ptr) (f : Z) w : W :=
  let s := h_next (w_sessions w) in
  mk_world (w_kernel w) (w_errno w) (w_trace w ++ [TCreate s])
    (mk_heap (<[s := mk_SLHandler None (Some f) None None None None None 0 user_init]>
                (<[s := SLHandler_new user_init]> (h_cells (w_sessions w)))) (Pos.succ s))
    (sl_set_pool (sl_clients (w_env w)) (<[p := mk_PollEvent (Some f) (Some s)]> (sl_events (w_env w))) (w_env w)).

Lemma attach_ok p lis f w : sl_inv [p; lis] lis w -> p <> lis -> is_Some (sl_events (w_env w) !! p) ->
  sl_inv [lis] lis (attached p f w) /\ open_at (h_next (w_sessions w)) (attached p f w).
Proof.
  intros Hw Hne Hp. set (s := h_next (w_sessions w)).
  assert (Hfresh : forall x, heap_get (w_sessions w) x <> None -> x <> s).
  { intros x Hx ->. apply Hx. apply heap_fresh; [apply Hw|lia]. }
  assert (Hold : forall x y, heap_get (w_sessions w) x = Some y -> heap_get (w_sessions (attached p f w)) x = Some y).
  { intros x y Hx. unfold heap_get in *; cbn. rewrite !lookup_insert_ne; [done|..]; apply not_eq_sym, Hfresh; unfold heap_get; congruence. }
  assert (Hnew : heap_get (w_sessions (attached p f w)) s = Some (mk_SLHandler None (Some f) None None None None None 0 user_init)).
  { unfold heap_get; cbn. by rewrite lookup_insert_eq. }
  destruct Hw. split; [|eexists _, f; split; [exact Hnew|done]]. split; try done.
  - intros q x Hq. cbn in *. apply lookup_insert_Some in Hq as [[<- _]|[_ Hq]]; [lia|].
    apply lookup_insert_Some in Hq as [[<- _]|[_ Hq]]; [lia|]. apply si_wf0 in Hq. lia.
  - cbn. rewrite dom_insert_lookup_L by done. done.
  - cbn. by rewrite lookup_insert_ne.
  - intros q e Hq Hr. cbn in Hq. apply lookup_insert_Some in Hq as [[<- <-]|[Hqp Hq]]; [eauto 10|].
    destruct (si_events0 q e Hq ltac:(set_solver)) as (f'&s'&ss&->&Hss&Hf). eauto 10.
  - apply own_event; [|by right; exists s]. eapply own_heap; [exact si_own0|]. intros x y Hx. exists y. split; [by apply Hold|done].
  - intros s' Hin. cbn in Hin. apply elem_of_app in Hin as [Hin|[= ->]%list_elem_of_singleton]; [|by eexists; exact Hnew].
    destruct (si_live0 s' Hin) as [y Hy]. exists y. by apply Hold.
  - intros s'. cbn. rewrite !not_elem_of_app, !list_elem_of_singleton. destruct (si_kept0 s') as [Hk1 Hk2]. done.
Qed.

Lemma safe_poll_event {A} p e (k : PollEvent -> M W A) Q w : sl_events (w_env w) !! p = Some e ->
  safe (k e) Q w -> safe (bind (poll_event p) k) Q w.
Proof. intros Hp Hk. apply safe_bind, safe_wp. unfold poll_event. wp_steps. by eapply wp_deref. Qed.

Lemma safe_deref {A B} (o : option A) a (k : A -> M W B) Q w : o = Some a -> safe (k a) Q w -> safe (bind (deref o) k) Q w.
Proof. intros -> Hk. by apply safe_bind, safe_wp. Qed.

Lemma safe_set_poll_event {A} p e e' (k : unit -> M W A) Q w : sl_events (w_env w) !! p = Some e ->
  safe (k tt) Q (set_env (sl_set_pool (sl_clients (w_env w)) (<[p := e']> (sl_events (w_env w))) (w_env w)) w) ->
  safe (bind (set_poll_event p e') k) Q w.
Proof. intros Hp Hk. apply safe_bind. eapply safe_poll_event; [done|]. by apply safe_wp, wp_modify. Qed.

Lemma client_event_safe fuel lis pe events w : sl_inv [lis] lis w -> pe <> lis -> is_Some (sl_events (w_env w) !! pe) ->
  safe (client_event RecvBufSize h fuel pe events) (fun _ => sl_inv [lis] lis) w.
Proof.
  intros Hw Hne Hpe. unfold client_event. destruct (in_test _ _); [|by safe_steps]. destruct Hpe as [e Hpe].
  destruct (si_events _ _ _ Hw pe e Hpe ltac:(set_solver)) as (f&s&ss&->&Hss&Hf).
  eapply safe_poll_event; [done|]. eapply safe_deref; [done|]. eapply safe_deref; [done|]. safe_steps.
  set (r := sys _ _). assert (Hw1 : sl_inv [lis] lis (after_call (Sys_recv f loop_buf) r.1 r.2 w)) by (by apply sl_inv_call).
  set (w1 := after_call _ _ _ w) in *. destruct (_ <? 0); [|destruct (_ =? 0)].
  - safe_steps.
    assert (Hrel : forall w2, sl_inv [lis] lis w2 -> w_env w2 = w_env w -> safe (clients_release pe) (fun _ => sl_inv [lis] lis) w2).
    { intros w2 Hw2 He2. apply safe_wp. eapply wp_mono; [apply (release_ok [lis] lis); [done|done|by rewrite He2; eexists]|]. by intros ? ? [? _]. }
    apply safe_wp, wp_when; intros _; [wp_steps|]; apply Hrel; try done. by apply sl_inv_call.
  - safe_steps. apply safe_wp. eapply wp_mono; [apply (release_ok [lis] lis); [by apply sl_inv_call|done|by eexists]|]. by intros ? ? [? _].
  - safe_steps. assert (Hw2 := sl_inv_chunk [lis] lis w f r.1 r.2 s ss (sr_data r.1) Hw Hss Hf). set (w2 := mk_world _ _ _ _ _) in *.
    assert (Ho : open_at s w2) by (by exists ss, f).
    eapply safe_mono; [by apply sl_run_safe|]. intros [] w3 Hfr. cbv beta in *. unfold print_buf.
    destruct ((_ <? _) || _) eqn:Hb; [safe_steps; by eapply sl_inv_frame|].
    apply orb_false_iff in Hb as [Hlen%Z.ltb_ge Hz%bool_decide_eq_false]. exists s, (sr_data r.1). split_and!; [|done|done].
    destruct Hfr as (_&_&(tr&->&_)&_). cbn. set_solver.
Qed.

Lemma setnonblocking_ok (sock : Z) raw lis w : sl_inv raw lis w ->
  wp (sl_setnonblocking sock) (fun _ w' => sl_inv raw lis w' /\ w_env w' = w_env w) w.
Proof. intros Hw. unfold sl_setnonblocking. wp_steps. destruct (_ <? 0); wp_steps; (split; [|done]); repeat apply sl_inv_call; done. Qed.

Lemma accept_event_safe fuel lis events w : sl_inv [lis] lis w ->
  safe (accept_event RecvBufSize h user_init fuel lisFd efd events) (fun _ => sl_inv [lis] lis) w.
Proof.
  intros Hw. unfold accept_event. destruct (in_test _ _); [|by safe_steps]. safe_steps. set (c := sr_ret _).
  apply safe_wp. eapply wp_mono; [apply (acquire_ok lis), sl_inv_call, Hw|]. intros p w1 (Hw1&Hne&Hp1&_). cbv beta.
  apply safe_bind, safe_wp. eapply wp_mono; [by apply setnonblocking_ok|]. intros [] w2 (Hw2&He2). cbv beta.
  rewrite <- He2 in Hp1. destruct Hp1 as [e0 Hp].
  eapply safe_poll_event; [done|]. eapply safe_set_poll_event; [done|].
  assert (Hw3 := raw_write_ok p lis (mk_PollEvent (Some c) (pe_session e0)) w2 Hw2 Hne (mk_is_Some _ _ Hp)). set (w3 := set_env _ w2) in *. safe_steps.
  set (cl := Sys_epoll_ctl _ _ _ _). destruct (_ =? -1).
  - apply safe_bind, safe_wp. eapply wp_mono; [eapply (release_ok [p; lis] lis p); [by apply sl_inv_call|done|cbn; rewrite lookup_insert_eq; by eexists]|].
    intros [] w4 ?. unfold sl_throw_errno. by safe_steps.
  - assert (Hw4 : sl_inv [p; lis] lis (after_call cl (sys cl (w_kernel w3)).1 (sys cl (w_kernel w3)).2 w3)) by (by apply sl_inv_call).
    set (w4 := after_call _ _ _ w3) in *.
    assert (Hp4 : sl_events (w_env w4) !! p = Some (mk_PollEvent (Some c) (pe_session e0))) by (cbn; apply lookup_insert_eq).
    destruct (attach_ok p lis c w4 Hw4 Hne (mk_is_Some _ _ Hp4)) as [Ha Ho]. apply safe_bind. unfold new_session, safe at 1.
    cbn [heap_new emit modify snd fst]. eapply safe_poll_event; [exact Hp4|]. eapply safe_set_poll_event; [exact Hp4|].
    cbn [pe_fd]. unfold sl_put_fd at 1. apply safe_bind, safe_bind, safe_wp. eapply wp_session; [unfold heap_get; cbn; apply lookup_insert_eq|].
    apply safe_wp. eapply wp_put_session; [unfold heap_get; cbn; apply lookup_insert_eq|]. safe_steps.
    change (set_sessions _ _) with (attached p c w4). set (w5 := mk_world _ _ _ _ _).
    assert (Hw5 : sl_inv [lis] lis w5) by (eapply sl_inv_mild; [exact Ha|done|apply Ha|done|by repeat constructor|eauto]).
    assert (Ho5 : open_at (h_next (w_sessions w4)) w5) by exact Ho.
    eapply safe_mono; [by apply sl_run_safe|]. intros [] w6 Hfr. by eapply sl_inv_frame.
Qed.

Lemma loop_event_safe fuel lis pe events w : sl_inv [lis] lis w -> is_Some (sl_events (w_env w) !! pe) ->
  safe (loop_event RecvBufSize h user_init fuel lisFd efd (mk_epoll_event events (DPtr (Some pe)))) (fun _ => sl_inv [lis] lis) w.
Proof.
  intros Hw Hpe. pose proof Hpe as [e He]. unfold loop_event. cbn. eapply safe_poll_event; [done|].
  destruct (decide (pe = lis)) as [->|Hne].
  - rewrite (si_lis _ _ _ Hw) in He. simplify_eq. eapply safe_deref; [done|]. rewrite Z.eqb_refl. by apply accept_event_safe.
  - destruct (si_events _ _ _ Hw pe e He ltac:(set_solver)) as (f&s&ss&->&Hss&Hf). eapply safe_deref; [done|].
    destruct (_ =? _); [by apply accept_event_safe|by apply client_event_safe].
Qed.

(** Before the thread runs: no object was handed out and no session has been heard of. *)
Definition sl_init w : Prop :=
  heap_wf (w_sessions w) /\ sl_events (w_env w) = ∅ /\ pool_kept (sl_clients (w_env w)) ∅ ∅ /\
  Forall (fun e => mild e = true) (w_trace w).

Lemma loop_setup_inv w : sl_init w -> wlp (loop_setup lisFd efd) (fun lis w' => sl_inv [lis] lis w') w.
Proof.
  intros (Hwf&He&Hp&Ht). unfold loop_setup. apply wlp_bind.
  destruct (acquire_law _ _ _ Hp) as (p&c&Ha&_&Hc). rewrite decide_False in Hc by set_solver. unfold wlp, clients_acquire. rewrite Ha, He. cbn -[wlp].
  change (wlp (bind (poll_event p) (fun e => bind (set_poll_event p (mk_PollEvent (Some lisFd) (pe_session e))) (fun _ =>
    bind (sys_ret (Sys_epoll_ctl efd EPOLL_CTL_ADD lisFd (Some (mk_epoll_event EPOLLIN (DPtr (Some p)))))) (fun r =>
    if r =? -1 then sl_throw_errno else ret p)))) (fun lis w' => sl_inv [lis] lis w')
    (set_env (sl_set_pool c (<[p := mk_PollEvent None None]> ∅) (w_env w)) w)).
  unfold set_poll_event, poll_event, sl_throw_errno, sl_update. wlp_steps. destruct (_ =? -1); wlp_steps.
  cbn in *. rewrite lookup_insert_eq in *. simplify_eq. rewrite insert_insert_eq.
  apply sl_inv_call. split; cbn; try done.
  - eexists. rewrite dom_insert_L, dom_empty_L. split; [exact Hc|]. set_solver.
  - by rewrite lookup_insert_eq.
  - intros q e Hq Hr. rewrite lookup_insert_ne in Hq by set_solver. by rewrite lookup_empty in Hq.
  - apply (own_mild _ [] (w_trace w)); [constructor|done].
  - intros s Hin. by eapply mild_elem in Hin.
  - intros s. split; by eapply mild_elem.
Qed.

(** The loop handles an event of any object it ever took from the pool: in use, given back while its
    descriptor stayed registered, or handed out again. *)
Inductive sl_step w : W -> Prop :=
| sl_handle fuel pe events w' : is_Some (sl_events (w_env w) !! pe) ->
    loop_event RecvBufSize h user_init fuel lisFd efd (mk_epoll_event events (DPtr (Some pe))) w = (Ok tt, w') -> sl_step w w'.

Lemma sl_step_inv lis w w' : sl_inv [lis] lis w -> sl_step w w' -> sl_inv [lis] lis w'.
Proof using All.
  intros Hw [fuel pe events w2 Hpe Hl]. pose proof (loop_event_safe fuel lis pe events w Hw Hpe) as Hs.
  unfold safe in Hs. by rewrite Hl in Hs.
Qed.

(** C25. The single loop of a server with one listener, in every state it reaches from its start, over
    every kernel, user class and pool that keeps [EventPoolLaws], whatever events arrive, also
    late ones for objects already given back or handed out again: whatever a session is handed was
    just received on its own descriptor, each chunk once and in order; every object the loop ever
    took, but the listener's, has a descriptor and the live session of that descriptor; a session,
    once created, is never released nor told of its end; and the handling of any next event returns
    or ends the thread by an exception (or a callback reads without end), with nothing undefined
    but the printing of a full buffer without a zero byte. *)
Theorem singleloop_delivers w0 lis w1 w : sl_init w0 -> loop_setup lisFd efd w0 = (Ok lis, w1) -> rtc sl_step w1 w ->
  own_trace (w_sessions w) (w_trace w) /\
  (forall s, packets_of s (w_trace w) = chunks_of s (w_trace w)) /\
  (forall p e, sl_events (w_env w) !! p = Some e -> p <> lis ->
     exists f s ss, e = mk_PollEvent (Some f) (Some s) /\ heap_get (w_sessions w) s = Some ss /\ sl_fd ss = Some f) /\
  (forall s, (TCreate s ∈ w_trace w -> is_Some (heap_get (w_sessions w) s)) /\ (TRelease s ∉ w_trace w) /\ (TDisconnect s ∉ w_trace w)) /\
  (forall fuel p events, is_Some (sl_events (w_env w) !! p) ->
     safe (loop_event RecvBufSize h user_init fuel lisFd efd (mk_epoll_event events (DPtr (Some p)))) (fun _ _ => True) w).
Proof using All.
  intros Hini Hl Hr. assert (Hw : sl_inv [lis] lis w).
  { eapply (rtc_invariant sl_step (sl_inv [lis] lis)); [apply sl_step_inv| |done]. exact (wlp_Ok _ _ _ _ _ (loop_setup_inv w0 Hini) Hl). }
  split_and!; [apply Hw|intros s; eapply own_packets, Hw|intros p e Hp Hne; apply (si_events _ _ _ Hw p e Hp); set_solver| |].
  - intros s. split_and!; [apply Hw|by apply (si_kept _ _ _ Hw)|by apply (si_kept _ _ _ Hw)].
  - intros fuel p events Hp. by eapply safe_mono; [apply (loop_event_safe fuel lis)|].
Qed.



Lemma in_test_exact events mask : Z.land 1 mask <> 0 -> in_test events mask = bool_decide (events = EPOLLIN).
Proof.
  intros Hm. unfold in_test. destruct (Z.eqb_spec EPOLLIN events) as [<-|Hne].
  - rewrite bool_decide_true by done. apply negb_true_iff. lia.
  - by rewrite bool_decide_false by congruence.
Qed.




(** With a second listener the loops share the epoll descriptor: the one that gets the other's event
    takes it for a connection's and reads [session], which nothing wrote. *)
Lemma second_listener_event fuel pe f w : f <> lisFd -> sl_events (w_env w) !! pe = Some (mk_PollEvent (Some f) None) ->
  (loop_event RecvBufSize h user_init fuel lisFd efd (mk_epoll_event EPOLLIN (DPtr (Some pe))) w).1 = Undefined.
Proof using All.
  intros Hf Hpe. unfold loop_event, client_event, poll_event, bind, gets, deref. cbn. rewrite Hpe. cbn. destruct (Z.eqb_spec lisFd f); [congruence|].
  rewrite in_test_exact, bool_decide_true by done. by rewrite Hpe.
Qed.

(** A failed [accept] is not noticed; registering the descriptor -1 fails, and the exception leaves
    the thread's function. *)
Lemma singleloop_accept_fails fuel lis w : sl_inv [lis] lis w ->
  sr_ret (sys (Sys_accept lisFd) (w_kernel w)).1 = -1 ->
  (forall k ev, sr_ret (sys (Sys_epoll_ctl efd EPOLL_CTL_ADD (-1) ev) k).1 = -1) ->
  exists e w', loop_event RecvBufSize h user_init fuel lisFd efd (mk_epoll_event EPOLLIN (DPtr (Some lis))) w = (Throw e, w').
Proof using All.
  intros Hw Ha Hctl. pose (T := fun (o : outcome unit * W) => exists e w', o = (Throw e, w')).
  assert (Hbind : forall A (m : M W A) k w0, wp m (fun a w' => T (k a w')) w0 -> T (bind m k w0)).
  { intros A m k w0 Hm. unfold wp in Hm. unfold bind. by destruct (m w0) as [[] ?]. }
  change (T (loop_event RecvBufSize h user_init fuel lisFd efd (mk_epoll_event EPOLLIN (DPtr (Some lis))) w)).
  unfold loop_event. cbn [ev_data ev_events]. apply Hbind. unfold poll_event at 1. wp_steps. eapply wp_deref; [apply Hw|].
  apply Hbind. cbn [pe_fd]. wp_steps. rewrite Z.eqb_refl. unfold accept_event. rewrite in_test_exact, bool_decide_true by done.
  apply Hbind. wp_steps. rewrite Ha. apply Hbind. eapply wp_mono; [apply (acquire_ok lis), sl_inv_call, Hw|].
  intros p w1 (Hw1&Hne&Hp1&_). cbv beta. apply Hbind. eapply wp_mono; [by apply setnonblocking_ok|]. intros [] w2 (Hw2&He2). cbv beta.
  rewrite <- He2 in Hp1. destruct Hp1 as [e0 Hp].
  apply Hbind. unfold poll_event at 1. wp_steps. eapply wp_deref; [exact Hp|]. apply Hbind. unfold set_poll_event, poll_event, sl_update.
  wp_steps. eapply wp_deref; [exact Hp|]. wp_steps. apply Hbind. wp_steps. rewrite Hctl, Z.eqb_refl.
  apply Hbind. eapply wp_mono; [eapply (release_ok [p; lis] lis p); [|done|]|].
  - apply sl_inv_call. by apply raw_write_ok.
  - cbn. rewrite lookup_insert_eq. by eexists.
  - intros [] w4 _. unfold sl_throw_errno. do 2 eexists. reflexivity.
Qed.
End Loop.

(** ** A concrete run *)

(** An echo server: a connection is accepted, "hi" arrives and is sent back, then [recv] times out. *)
Definition sl_echo : SLUser nat := {| sl_on_connect := SLDone; sl_on_recv := fun d => SLSend d SLDone |}.

Definition sl_w0 : world script (SLHandler nat) (sl_env DequePool) :=
  mk_world [sys_result 0; sys_result 7; sys_result 0; sys_result 0; sys_result 0; mk_sysret 2 0 [x68; x69] [] []; sys_result 2; sys_error 110]
    0 [] heap_empty
    (mk_sl_env (mk_SLScheduler 1 3 4) 0 1 (DequePool_new 2 1) ∅ [mk_SLListener 0 7788 10 5 (Some true)] [] Properties_default).

Definition sl_w1 := (loop_setup 5 3 sl_w0).2.
Definition sl_in (p : ptr) : epoll_event := mk_epoll_event EPOLLIN (DPtr (Some p)).
Definition sl_w2 := (loop_event 8192 sl_echo 0%nat 0 5 3 (sl_in 1) sl_w1).2.
Definition sl_w3 := (loop_event 8192 sl_echo 0%nat 0 5 3 (sl_in 2) sl_w2).2.

Lemma sl_w0_init : sl_init sl_w0.
Proof.
  split_and!; [apply heap_empty_wf|reflexivity| |constructor]. split_and!.
  - set_solver.
  - set_solver.
  - refine (bool_decide_eq_true_1 _ _). vm_compute. reflexivity.
  - intros p [Hp|Hp]; [|set_solver]. vm_compute in Hp. repeat (apply elem_of_cons in Hp as [->|Hp]; [done|]). by apply not_elem_of_nil in Hp.
  - done.
  - done.
Qed.

Lemma sl_setup_eq : loop_setup 5 3 sl_w0 = (Ok 1%positive, sl_w1).
Proof. vm_compute. reflexivity. Qed.

Lemma sl_run_steps : rtc (sl_step 8192 sl_echo 0%nat 5 3) sl_w1 sl_w3.
Proof.
  eapply rtc_l; [apply (sl_handle _ _ _ _ _ _ 0 1%positive EPOLLIN sl_w2); [vm_compute; eauto|]|].
  { vm_compute. reflexivity. }
  eapply rtc_l; [apply (sl_handle _ _ _ _ _ _ 0 2%positive EPOLLIN sl_w3); [vm_compute; eauto|]|reflexivity].
  vm_compute. reflexivity.
Qed.

(** The time-out: the object is given back, the socket 7 is neither closed nor deregistered; its late
    event gives the object back once more. *)
Definition sl_w4 := (loop_event 8192 sl_echo 0%nat 0 5 3 (sl_in 2) sl_w3).2.
Definition sl_w5 := (loop_event 8192 sl_echo 0%nat 0 5 3 (sl_in 2) sl_w4).2.

Lemma sl_late_steps : rtc (sl_step 8192 sl_echo 0%nat 5 3) sl_w1 sl_w5.
Proof.
  etrans; [exact sl_run_steps|].
  eapply rtc_l; [apply (sl_handle _ _ _ _ _ _ 0 2%positive EPOLLIN sl_w4); [vm_compute; eauto|vm_compute; reflexivity]|].
  eapply rtc_l; [apply (sl_handle _ _ _ _ _ _ 0 2%positive EPOLLIN sl_w5); [vm_compute; eauto|vm_compute; reflexivity]|reflexivity].
Qed.

Lemma singleloop_delivers_witness :
  packets_of 1 (w_trace sl_w5) = [[x68; x69]] /\ (2%positive ∈ m_pool (sl_clients (w_env sl_w5))) /\
  safe (loop_event 8192 sl_echo 0%nat 0 5 3 (sl_in 2)) (fun _ _ => True) sl_w5.
Proof.
  split; [vm_compute; reflexivity|]. split; [apply list_elem_of_In; vm_compute; auto|].
  destruct (singleloop_delivers 8192 sl_echo 0%nat 5 3 sl_w0 1%positive sl_w1 sl_w5 sl_w0_init sl_setup_eq sl_late_steps) as (_&_&_&_&Hnext).
  apply Hnext. vm_compute. eauto.
Defined.

